(* ===== verification/_CoqProject ===== *)
-Q . S2P
Prelude.v
Paths.v
Base.v
Handles.v
Keys.v
Store.v
Manifest.v
CacheClient.v
Jigd.v
JigdSlots.v
JigdIds.v
PackFormat.v
PackStore.v
PackRecovery.v
PackHistory.v
PackOpen.v
PackLife.v
PackServe.v
PackPeer.v
GoCache.v
NixHash.v
Aterm.v
Worker.v
Image.v
ElfFixup.v
Broker.v
Semaphores.v
DlAudit.v
Launch.v
Process.v
Driver.v
CacheFlow.v
CcMode.v
CcReplay.v
CcBuilds.v
PackBuilds.v
Runpath.v
RustcMode.v
RustReplay.v
DirMode.v
DirReplay.v
MachoFixup.v
FixupMode.v
Main.v
CrtInterp.v
InterpFlow.v
EntryCode.v
Reloc.v
LaunchWindows.v
Shims.v
