(* ===== verification/Prelude.v ===== *)
(** * Verification of repkgs: the tools behind the package set

    repkgs builds packages with a handful of programs of its own, most of them in C++. [jig] (src/pkgs/ji/jig/src) stands
    behind every compiler: it is the compiler driver with a shared compile cache, the Rust and Go cache
    front ends, the relocation fixup of finished trees, and the builder's nix-store. [jigd]
    (src/pkgs/ji/jigd/src, in Go) is the daemon that holds the cache and the job slots. [jsem]
    (src/pkgs/js/jsem/src) brokers those slots to ghc,
    [launch] (src/pkgs/la/launch/src) starts wrapped programs, [dlaudit] (src/pkgs/dl/dlaudit/src) reports
    failed dlopens and [crt-interp] (src/pkgs/cr/crt-interp/src) finds the dynamic loader at run time.
    The development translates these programs function by function and proves what makes them correct.

    ** The files

    Foundations
    - Prelude: byte strings, the string operations of the C++ library, little-endian numbers, tactics,
      hint databases and general lemmas.
    - Paths: the lexical operations of [std::filesystem::path].
    - Base (base.h, base.cc): reading and writing files, splitting, tokenizing, numbers, [Hasher]. Handles (base.h,
      base.cc): [UniqueFd] over a table of open descriptors, [Env], [OnPath].
    - Keys (keys.h): tools, request and result keys, slots, outcomes.

    The cache
    - Store (store.h, store.cc): the record [store] is the [Store] singleton; masking of store hashes,
      swapping of the output prefix, resolution, identities of tools and inputs.
    - Manifest (manifest.h, manifest.cc): depfiles, [BuildManifest], [ValidateManifest], [FindResult].
    - CacheClient (cache_client.h, cache_client.cc): the connection as a record with explicit short and
      failing reads and writes; the class [CacheDaemon] is what the protocol promises.
    - Process (process.h, process.cc): [Slot] and [Run]. CacheFlow: manifests over a connection.
    - Driver (driver.h, driver.cc): from the user's command line to the compiler's. CcMode (cc_mode.h,
      cc_mode.cc), RustcMode (rustc_mode.h, rustc_mode.cc), DirMode (dir_mode.h, dir_mode.cc), GoCache
      (gocache_mode.cc) and Main (main.cc): the modes of jig over all of this.
    - CcReplay, RustReplay and DirReplay: what one build stores, another replays. CcBuilds: two whole runs of the
      compiler wrapper against any [CacheDaemon]. PackBuilds: the same with jigd's files and a restart between them.

    jigd
    - Jigd (main.go, [serve]): the protocol loop over a map, a machine fed byte by byte and an instance of
      [CacheDaemon]. JigdSlots (slots.go, and SLOT and DONE of main.go): all connections and the waiting queue as
      a step machine. JigdIds (identity.go): the identities of store files with their memory.
    - PackFormat, PackStore (store.go): records, hints, and the store with every operation and every step of the
      demoter. PackRecovery: the invariant [holds] between index and files, and what changes of the files keep.
      PackHistory: every step keeps it. PackOpen: [OpenStore] restores it from files left anywhere in a step.
      PackLife: any number of lives, and the map that may forget which they refine. PackServe: the protocol loop
      over the pack store, and the tiers that main sets up. PackPeer: that process as an instance of [CacheDaemon].

    Store paths and derivations
    - NixHash, Aterm and Worker (nix_store_mode.h, nix_store_mode.cc): SHA-256, Nix32 and store paths;
      derivations from JSON to ATerm; the worker protocol and the verbs of the nix-store mode.

    Relocation
    - Image (fixup_mode.h, fixup_mode.cc): [BinaryImage], [FixupContext], relative paths. ElfFixup
      (elf_fixup.cc), MachoFixup (macho_fixup.cc) and FixupMode (the rest of fixup_mode.cc): one file, then
      the tree. Runpath: the room that the driver leaves and the fixup needs.

    The other programs
    - Broker (jsem: broker.h, broker.cc, main.cc) with [Broker.Spec] (broker.qnt); Semaphores (the named semaphores
      of broker.cc); DlAudit; Launch and LaunchWindows (launch.cc), the latter with the class [WinEnv] for the
      environment of the system.
    - CrtInterp (crt_interp.c): [reloc_main]. EntryCode: its assembly, [__reloc_start] and the system calls of the
      five architectures. InterpFlow: the file that ElfFixup writes, started by the kernel, runs CrtInterp. Reloc
      (reloc.h, reloc_self_linux.h): [reloc_path] of a library. Shims (gcc_s.c): the bit counting functions.

    ** How the code is translated

    Pure functions are functions. Objects are records, and methods take and return them. A loop is a
    structural recursion on what it consumes, or takes fuel; fuel is given where it is used and is one more
    than a bound on the iterations (the bytes left to read, the number of records); the lemmas about
    such a loop compute its result, so that running out is excluded. Errors are options, sums or named constructors;
    an exception or an abort of the program is a value of its own. Integers are [N] with the width of the
    code written out where a sum can wrap. The operating system is explicit: file systems are finite maps or
    functions, reads and writes may be short or fail as a parameter says, and the effects of a mode are
    returned in order. Code outside the repository is a parameter: BLAKE3, zstd, the JSON parser and
    printer, the compilers. The theorems assume of it only what it documents (zstd is lossless, no
    collision between two given inputs), and every theorem with a hypothesis has a witness that
    instantiates the parameters.

    ** What the theorems show

    - The cache is transparent ([CcReplay], [RustReplay], [DirReplay], [Manifest], [Store], [Jigd], [GoCache]):
      what is replayed is what was stored, relocated to the new build, and only if every recorded input is
      unchanged; keys separate requests; a client in step with the daemon gets the right value or a miss
      under any short or failing read and write; failures leave no partial trees or torn values.
    - The wrapper never changes what the compiler does ([RunCcMode_transparent]); slots are held for the
      length of a run and given back ([Main]); files are replaced atomically ([Base]).
    - Fixup ([ElfFixup], [MachoFixup], [FixupMode], [Runpath]): libraries are named directly and
      relocatably, in place, within the room there is; nothing else changes; signatures are valid again;
      permissions stay.
    - nix-store: SHA-256 is the standard's, ATerms determine derivations, exchanges with the daemon are in
      step.
    - A build that compiled serves the next one ([CcBuilds]), also when the daemon was stopped and started in
      between ([PackBuilds]).
    - jigd: slots are given to whom they are due and come back ([JigdSlots]); its identities are jig's own and tell
      nothing of files outside the store ([JigdIds]); the pack store loses no value when it stops at any point and
      refines a map that may forget ([PackLife]); a pack cut anywhere is read as far as it goes ([PackFormat]); the
      protocol over packs is the protocol over a map ([PackServe]).
    - A program moved to another place finds its loader there ([InterpFlow], [EntryCode]), and a library its own
      directory ([Reloc]).
    - jsem never admits more jobs than it has slots and refines its Quint model; dlaudit reports exactly
      the failed dlopens; launch finds the program, sets its environment as the record says and hands on the
      arguments, on Windows through the command line; the entry stub maps the loader as its program headers say
      and enters it.

    ** Not modelled

    The kernel's side of fork, exec, pipes and sockets; directory iteration (its result is a parameter); JSON
    text; messages on stderr where they have no effect on the result; [Stopwatch]. Of jigd: the check of a peer's
    credentials, the listener, the counters of STATS; the files of the pack store are those the process wrote,
    what a system that stops itself loses of them is only the cut pack of PackFormat. Of crt-interp: reloc_self
    on macOS and Windows, which ask the system. The other symbols of libgcc-shim and tre only forward. Tests; the Nix
    expressions, Nushell builders and Python tools of the package set. *)

From Stdlib Require Export Ascii String NArith ZArith Lia.
From stdpp Require Export base strings gmap numbers list.

(** ** Bytes and byte strings

    [std::string] and [std::string_view] are sequences of bytes; a byte is an [ascii]. *)

Abbreviation str := (list ascii).

Definition lit (s : string) : str := list_ascii_of_string s.
Coercion lit : string >-> list.
Arguments lit : simpl never.

Declare Scope bytes_scope.
Delimit Scope bytes_scope with bytes.
(** [operator==] on byte strings and characters *)
Notation "a == b" := (bool_decide (a = b)) (at level 70) : bytes_scope.
Notation "a != b" := (negb (bool_decide (a = b))) (at level 70) : bytes_scope.
Open Scope bytes_scope.

(** the value of a byte as [unsigned char], and the conversion back *)
Definition byte_val (c : ascii) : N := N_of_ascii c.
Definition byte_of (n : N) : ascii := ascii_of_N n.

Definition chr_nl : ascii := ascii_of_N 10.
Definition chr_tab : ascii := ascii_of_N 9.
Definition chr_cr : ascii := ascii_of_N 13.
Definition chr_nul : ascii := ascii_of_N 0.
Definition chr_quot : ascii := ascii_of_N 34.
Definition chr_bslash : ascii := ascii_of_N 92.
Definition nl : str := [chr_nl].

(** ** The [std::string] operations the sources use *)

Fixpoint starts_with (s pat : str) {struct pat} : bool :=
  match pat, s with
  | [], _ => true
  | _ :: _, [] => false
  | p :: pat', c :: s' => (p == c) && starts_with s' pat'
  end.

Definition ends_with (s pat : str) : bool := starts_with (rev s) (rev pat).

(** [s.find(pat)]; [None] is [npos] *)
Fixpoint find (pat s : str) : option nat :=
  if starts_with s pat then Some 0
  else match s with
       | [] => None
       | _ :: s' => S <$> find pat s'
       end.

(** [s.find(pat, pos)] *)
Definition find_from (pat s : str) (pos : nat) : option nat :=
  if (pos <=? length s)%nat then (Nat.add pos) <$> find pat (drop pos s) else None.

Definition find_chr (c : ascii) (s : str) (pos : nat) : option nat := find_from [c] s pos.

Definition contains (s pat : str) : bool := bool_decide (is_Some (find pat s)).
Definition contains_chr (s : str) (c : ascii) : bool := contains s [c].

(** [s.rfind(pat)] *)
Fixpoint rfind (pat s : str) : option nat :=
  match s with
  | [] => if starts_with s pat then Some 0 else None
  | _ :: s' =>
      match rfind pat s' with
      | Some i => Some (S i)
      | None => if starts_with s pat then Some 0 else None
      end
  end.

(** [s.substr(pos, n)] and [s.replace(pos, n, rep)], for [pos <= s.size()] *)
Definition substr (s : str) (pos n : nat) : str := take n (drop pos s).
Definition replace (s : str) (pos n : nat) (rep : str) : str :=
  take pos s ++ rep ++ drop (pos + n) s.

(** the loop [for (pos = 0; (pos = t.find(from, pos)) != npos; pos += rep.size())
    t.replace(pos, from.size(), rep)], which base.cc, store.cc and launch.cc share *)
Fixpoint replace_loop (fuel : nat) (from rep : str) (pos : nat) (text : str) : str :=
  match fuel with
  | 0 => text
  | S fuel =>
      match find_from from text pos with
      | None => text
      | Some p =>
          replace_loop fuel from rep (p + length rep) (replace text p (length from) rep)
      end
  end.

(** the same by one left-to-right scan: [skip] characters of a match are still to be dropped *)
Fixpoint subst_go (from rep : str) (skip : nat) (s : str) : str :=
  match s with
  | [] => []
  | c :: s' =>
      match skip with
      | S k => subst_go from rep k s'
      | 0 =>
          if starts_with s from then rep ++ subst_go from rep (length from - 1) s'
          else c :: subst_go from rep 0 s'
      end
  end.
Definition subst (from rep s : str) : str := subst_go from rep 0 s.

(** the pieces of [s] between the separators, empty ones included *)
Fixpoint pieces (sep : ascii) (s : str) : list str :=
  match s with
  | [] => [[]]
  | c :: s' =>
      if c == sep then [] :: pieces sep s'
      else match pieces sep s' with
           | p :: ps => (c :: p) :: ps
           | [] => [[c]]
           end
  end.

(** the pieces put back together *)
Fixpoint unpieces (sep : str) (ps : list str) : str :=
  match ps with
  | [] => []
  | [p] => p
  | p :: ps' => p ++ sep ++ unpieces sep ps'
  end.

Definition nonempty (s : str) : bool := s != [].

(** ** Numbers as text *)

Definition digit_chr (d : N) : ascii :=
  if (d <? 10)%N then byte_of (48 + d) else byte_of (87 + d).

(** digits of [n], most significant first ([std::format] with [{}], [{:o}], [{:x}]) *)
Fixpoint digits_go (fuel : nat) (base n : N) (acc : str) : str :=
  match fuel with
  | 0 => acc
  | S fuel =>
      let acc' := digit_chr (n mod base) :: acc in
      if (n / base =? 0)%N then acc' else digits_go fuel base (n / base) acc'
  end.
Definition fmt_uint (base n : N) : str := digits_go (S (N.to_nat (N.log2 n))) base n [].
Definition to_string (n : nat) : str := fmt_uint 10 (N.of_nat n).

(** the value of a digit for [std::from_chars] *)
Definition digit_val (base : N) (c : ascii) : option N :=
  let v := byte_val c in
  let d := (if (48 <=? v) && (v <=? 57) then Some (v - 48)
            else if (97 <=? v) && (v <=? 122) then Some (v - 87)
            else if (65 <=? v) && (v <=? 90) then Some (v - 55)
            else None)%N in
  d ≫= λ d, if (d <? base)%N then Some d else None.

(** every byte of [s] read as a digit, the number they denote *)
Fixpoint digits_val (base acc : N) (s : str) : option N :=
  match s with
  | [] => Some acc
  | c :: s' => digit_val base c ≫= λ d, digits_val base (acc * base + d) s'
  end.

(** [2^64], the range of [std::uint64_t] *)
Definition u64_range : N := 2 ^ 64.

(** [k] little-endian bytes, what [std::bit_cast] gives on the hosts the project builds for *)
Fixpoint le_bytes (k : nat) (n : N) : str :=
  match k with
  | 0 => []
  | S k => byte_of (n mod 256) :: le_bytes k (n / 256)
  end.
Fixpoint le_val (b : str) : N :=
  match b with
  | [] => 0
  | c :: b => byte_val c + 256 * le_val b
  end%N.

(** ** Automation *)

Create HintDb bytes.

(** a property of every element of a list that is written out, from the hypotheses *)
Ltac each_element := repeat (apply Forall_cons; split; [solve [assumption | split; assumption]|]); apply Forall_nil_2.

(** boolean guards of the code as propositions *)
Ltac bool_prop :=
  repeat match goal with
  | H : context [negb _ = true] |- _ => rewrite negb_true_iff in H
  | H : context [negb _ = false] |- _ => rewrite negb_false_iff in H
  | H : _ && _ = true |- _ => apply andb_true_iff in H as [? ?]
  | H : _ || _ = false |- _ => apply orb_false_iff in H as [? ?]
  | H : bool_decide _ = true |- _ => apply bool_decide_eq_true in H
  | H : bool_decide _ = false |- _ => apply bool_decide_eq_false in H
  | H : (_ <=? _)%nat = true |- _ => apply Nat.leb_le in H
  | H : (_ <=? _)%nat = false |- _ => apply Nat.leb_gt in H
  | H : (_ <? _)%nat = true |- _ => apply Nat.ltb_lt in H
  | H : (_ <? _)%nat = false |- _ => apply Nat.ltb_ge in H
  | H : (_ =? _)%nat = true |- _ => apply Nat.eqb_eq in H
  | H : (_ =? _)%nat = false |- _ => apply Nat.eqb_neq in H
  | H : (_ <=? _)%N = true |- _ => apply N.leb_le in H
  | H : (_ <=? _)%N = false |- _ => apply N.leb_gt in H
  | H : (_ <? _)%N = true |- _ => apply N.ltb_lt in H
  | H : (_ <? _)%N = false |- _ => apply N.ltb_ge in H
  | H : (_ =? _)%N = true |- _ => apply N.eqb_eq in H
  | H : (_ =? _)%N = false |- _ => apply N.eqb_neq in H
  | H : (_ <=? _)%Z = true |- _ => apply Z.leb_le in H
  | H : (_ <=? _)%Z = false |- _ => apply Z.leb_gt in H
  | H : (_ <? _)%Z = true |- _ => apply Z.ltb_lt in H
  | H : (_ <? _)%Z = false |- _ => apply Z.ltb_ge in H
  | H : (_ =? _)%Z = true |- _ => apply Z.eqb_eq in H
  | H : (_ =? _)%Z = false |- _ => apply Z.eqb_neq in H
  end.

(** case analysis on the scrutinee of the next [match] of the goal *)
Ltac step_match :=
  match goal with
  | |- context [match ?x with _ => _ end] =>
      lazymatch x with
      | context [match _ with _ => _ end] => fail
      | _ => destruct x eqn:?
      end
  end.

(** a claim about one byte, by the 256 cases *)
Ltac byte_cases c := destruct c as [[] [] [] [] [] [] [] []].

(** ** Lemmas on the string operations *)

Lemma starts_with_spec s pat : starts_with s pat = true ↔ ∃ r, s = pat ++ r.
Proof.
  revert s; induction pat as [|p pat IH]; intros s; simpl.
  - split; [by exists s|done].
  - destruct s as [|c s]; simpl.
    + split; [done|by intros [r Hr]].
    + rewrite andb_true_iff, bool_decide_eq_true, IH.
      split; [by intros [-> [r ->]]; exists r|intros [r Hr]; simplify_eq; eauto].
Qed.

Lemma starts_with_app pat r : starts_with (pat ++ r) pat = true.
Proof. apply starts_with_spec; by exists r. Qed.

Lemma starts_with_refl s : starts_with s s = true.
Proof. apply starts_with_spec; exists []; by rewrite app_nil_r. Qed.

Lemma starts_with_length s pat : starts_with s pat = true → length pat ≤ length s.
Proof. intros [r ->]%starts_with_spec. rewrite length_app. lia. Qed.

Lemma starts_with_drop s pat : starts_with s pat = true → s = pat ++ drop (length pat) s.
Proof. intros [r ->]%starts_with_spec. by rewrite drop_app_length. Qed.

(** a prefix test looks only at as many characters as the pattern has *)
Lemma starts_with_take s n pat :
  length pat ≤ n → starts_with (take n s) pat = starts_with s pat.
Proof.
  revert s n; induction pat as [|p pat IH]; intros [|c s] [|n] Hn; simpl in *; try done; try lia.
  rewrite IH by lia. done.
Qed.

Lemma ends_with_spec s pat : ends_with s pat = true ↔ ∃ r, s = r ++ pat.
Proof.
  unfold ends_with. rewrite starts_with_spec. split.
  - intros [r Hr]. exists (rev r). rewrite <-(rev_involutive s), Hr, rev_app_distr.
    by rewrite rev_involutive.
  - intros [r ->]. exists (rev r). by rewrite rev_app_distr.
Qed.

Lemma find_Some_app pat s i :
  find pat s = Some i →
  ∃ a b, s = a ++ pat ++ b ∧ length a = i ∧ (∀ j, j < i → starts_with (drop j s) pat = false).
Proof.
  revert i; induction s as [|c s IH]; intros i; simpl.
  - destruct (starts_with [] pat) eqn:Hp; [|done]. intros [= <-].
    apply starts_with_spec in Hp as [r Hr]. exists [], r. split_and!; [done..|lia].
  - destruct (starts_with (c :: s) pat) eqn:Hp.
    + intros [= <-]. apply starts_with_spec in Hp as [r Hr].
      exists [], r. split_and!; [done..|lia].
    + destruct (find pat s) as [i'|]; [|done]. intros [= <-].
      destruct (IH i') as (a & b & -> & Ha & Hmin); [done|].
      exists (c :: a), b. simpl. split_and!; [done|lia|].
      intros [|j] Hj; [done|]. apply Hmin. lia.
Qed.

Lemma find_None pat s : find pat s = None ↔ ∀ j, starts_with (drop j s) pat = false.
Proof.
  induction s as [|c s IH]; simpl.
  - destruct (starts_with [] pat) eqn:Hp; split; try done.
    + intros H. specialize (H 0). simpl in H. congruence.
    + intros _ j. by rewrite drop_nil.
  - destruct (starts_with (c :: s) pat) eqn:Hp.
    + split; [done|]. intros H. specialize (H 0). simpl in H. congruence.
    + rewrite fmap_None, IH. split.
      * intros H [|j]; [done|apply H].
      * intros H j. apply (H (S j)).
Qed.

Lemma find_bound pat s i : find pat s = Some i → i + length pat ≤ length s.
Proof. intros (a & b & -> & <- & _)%find_Some_app. rewrite !length_app. lia. Qed.

Lemma find_from_0 pat s : find_from pat s 0 = find pat s.
Proof. unfold find_from. simpl. rewrite drop_0. by destruct (find pat s). Qed.

Lemma find_from_app pat a s :
  find_from pat (a ++ s) (length a) = (Nat.add (length a)) <$> find pat s.
Proof.
  unfold find_from. rewrite length_app, drop_app_length.
  replace (_ <=? _)%nat with true by (symmetry; apply Nat.leb_le; lia). done.
Qed.

Lemma contains_spec s pat : contains s pat = true ↔ ∃ a b, s = a ++ pat ++ b.
Proof.
  unfold contains. rewrite bool_decide_eq_true. split.
  - intros [i (a & b & -> & _)%find_Some_app]. eauto.
  - intros (a & b & ->). destruct (find pat (a ++ pat ++ b)) eqn:E; [by eexists|].
    rewrite find_None in E. specialize (E (length a)).
    rewrite drop_app_length, starts_with_app in E. done.
Qed.

Lemma contains_false s pat : contains s pat = false ↔ find pat s = None.
Proof.
  unfold contains. rewrite bool_decide_eq_false. split; [|by intros -> [? ?]].
  destruct (find pat s); [|done]. intros H. destruct H. by eexists.
Qed.

Lemma contains_drop s pat j : contains s pat = false → starts_with (drop j s) pat = false.
Proof. rewrite contains_false, find_None. done. Qed.

Lemma contains_chr_spec s c : contains_chr s c = true ↔ c ∈ s.
Proof.
  unfold contains_chr. rewrite contains_spec. split.
  - intros (a & b & ->). set_solver.
  - intros (a & b & ->)%list_elem_of_split. by exists a, b.
Qed.

Lemma contains_chr_false s c : contains_chr s c = false ↔ c ∉ s.
Proof. rewrite <-contains_chr_spec. destruct (contains_chr s c); naive_solver. Qed.

(** a byte does not occur in a closed text *)
Ltac not_in := apply contains_chr_false; vm_compute; reflexivity.

Lemma find_chr_app c a b : c ∉ a → find [c] (a ++ c :: b) = Some (length a).
Proof.
  induction a as [|d a IH]; intros Hc; cbn [app find starts_with].
  - rewrite bool_decide_eq_true_2 by done. done.
  - rewrite bool_decide_eq_false_2 by set_solver. cbn [andb]. rewrite IH by set_solver. done.
Qed.

Lemma find_chr_None c s : find [c] s = None ↔ c ∉ s.
Proof. rewrite <-contains_false. apply contains_chr_false. Qed.

Lemma find_chr_Some c s i :
  find [c] s = Some i → ∃ a b, s = a ++ c :: b ∧ length a = i ∧ c ∉ a.
Proof.
  intros (a & b & -> & <- & Hfirst)%find_Some_app. exists a, b. split; [done|]. split; [done|].
  intros (x & y & ->)%list_elem_of_split. specialize (Hfirst (length x)).
  rewrite !length_app, <-!app_assoc, drop_app_length in Hfirst. cbn [length app starts_with] in Hfirst.
  rewrite bool_decide_eq_true_2 in Hfirst by done. ospecialize (Hfirst _); [lia|done].
Qed.

Lemma find_chr_skip c s t : c ∉ s → find [c] (s ++ t) = (Nat.add (length s)) <$> find [c] t.
Proof.
  intros Hs. destruct (find [c] t) as [i|] eqn:E.
  - apply find_chr_Some in E as (a & b & -> & <- & Ha). cbn [fmap option_fmap option_map].
    rewrite app_assoc, find_chr_app, length_app; [done|]. by apply not_elem_of_app.
  - apply find_chr_None in E. cbn. apply find_chr_None. by apply not_elem_of_app.
Qed.

Lemma find_chr_stop c s t i : find [c] s = Some i → find [c] (s ++ t) = Some i.
Proof. intros (a & b & -> & <- & Ha)%find_chr_Some. rewrite <-app_assoc. by apply find_chr_app. Qed.

(** *** substitution: the in-place loop is the left-to-right scan *)

Lemma subst_go_skip from rep k s : subst_go from rep k s = subst from rep (drop k s).
Proof.
  revert k; induction s as [|c s IH]; intros [|k]; simpl; auto.
Qed.

Lemma subst_app_match from rep t :
  from ≠ [] → subst from rep (from ++ t) = rep ++ subst from rep t.
Proof.
  destruct from as [|f from]; [done|]. intros _. unfold subst at 1. cbn [app subst_go].
  change (f :: from ++ t) with ((f :: from) ++ t). rewrite starts_with_app, subst_go_skip.
  simpl length. rewrite Nat.sub_succ, Nat.sub_0_r, drop_app_length. done.
Qed.

Lemma subst_cons_nomatch from rep c s :
  starts_with (c :: s) from = false → subst from rep (c :: s) = c :: subst from rep s.
Proof. unfold subst. cbn [subst_go]. by intros ->. Qed.

Lemma subst_find_None from rep s : find from s = None → subst from rep s = s.
Proof.
  induction s as [|c s IH]; [done|]. intros H.
  assert (starts_with (c :: s) from = false) as Hn by (rewrite find_None in H; apply (H 0)).
  rewrite subst_cons_nomatch by done. f_equal. apply IH.
  rewrite find_None in *. intros j. apply (H (S j)).
Qed.

Lemma subst_nomatch_app from rep a s :
  (∀ j, j < length a → starts_with (drop j (a ++ s)) from = false) →
  subst from rep (a ++ s) = a ++ subst from rep s.
Proof.
  induction a as [|c a IH]; intros H; [done|]. simpl.
  rewrite subst_cons_nomatch.
  - f_equal. apply IH. intros j Hj. apply (H (S j)). simpl. lia.
  - apply (H 0). simpl. lia.
Qed.

Lemma replace_app a from b rep :
  replace (a ++ from ++ b) (length a) (length from) rep = a ++ rep ++ b.
Proof.
  unfold replace. rewrite take_app_length, <-length_app, (app_assoc a from b), drop_app_length. done.
Qed.

Lemma replace_loop_subst from rep done_ s fuel :
  from ≠ [] → length s < fuel →
  replace_loop fuel from rep (length done_) (done_ ++ s) = done_ ++ subst from rep s.
Proof.
  intros Hf. revert done_ s. induction fuel as [|fuel IH]; intros pre s Hfuel; [lia|].
  simpl. rewrite find_from_app. destruct (find from s) as [i|] eqn:E; simpl.
  - apply find_Some_app in E as (a & b & -> & <- & Hmin).
    rewrite app_assoc, <-length_app, replace_app, <-length_app.
    rewrite app_assoc, IH.
    + rewrite <-!app_assoc. f_equal. rewrite subst_nomatch_app; [|done].
      by rewrite subst_app_match.
    + destruct from; [done|]. rewrite !length_app in Hfuel. simpl in Hfuel. lia.
  - by rewrite subst_find_None.
Qed.

Lemma subst_id from s : from ≠ [] → subst from from s = s.
Proof.
  intros Hf. remember (length s) as n eqn:Hn. revert s Hn.
  induction n as [n IH] using lt_wf_ind. intros [|c s] ->; [done|].
  destruct (starts_with (c :: s) from) eqn:E.
  - apply starts_with_spec in E as [r Hr]. rewrite Hr, subst_app_match by done.
    f_equal. eapply IH; [|done]. rewrite Hr, length_app. destruct from; [done|simpl; lia].
  - rewrite subst_cons_nomatch by done. f_equal. eapply IH; [|done]. simpl. lia.
Qed.

(** *** substituting through a placeholder of the same width

    A pattern is unbordered when no proper suffix of it is also a prefix: two occurrences never
    overlap. *)
Definition unbordered (q : str) : Prop :=
  ∀ k, 0 < k < length q → drop k q ≠ take (length q - k) q.

Lemma subst_compose p q r s :
  length p = length q → q ≠ [] → unbordered q → contains s q = false →
  subst q r (subst p q s) = subst p r s.
Proof.
  intros Hlen Hq Hub. assert (Hp : p ≠ []) by (by destruct p, q).
  remember (length s) as n eqn:Hn. revert s Hn.
  induction n as [n IH] using lt_wf_ind. intros [|c s] -> Hc; [done|].
  assert (Hsub : ∀ k, contains (drop k (c :: s)) q = false).
  { intros k. apply contains_false, find_None. intros j. rewrite drop_drop.
    by apply contains_drop. }
  destruct (starts_with (c :: s) p) eqn:E.
  - pose proof (starts_with_drop _ _ E) as Hd. rewrite Hd, !subst_app_match by done.
    f_equal. eapply IH; [|done|by apply Hsub].
    rewrite length_drop. destruct p; [done|simpl; lia].
  - rewrite (subst_cons_nomatch p r), (subst_cons_nomatch p q) by done.
    rewrite subst_cons_nomatch.
    + f_equal. eapply IH; [|done|apply (Hsub 1)]. simpl. lia.
    + destruct (starts_with (c :: subst p q s) q) eqn:F; [exfalso|done].
      rewrite <-(subst_cons_nomatch p q) in F by done.
      pose proof (contains_drop _ _ 0 Hc) as Hnq. rewrite drop_0 in Hnq.
      (* the first match of p in s, if any, starts inside the claimed occurrence of q *)
      destruct (find p (c :: s)) as [i|] eqn:Hi.
      2: { rewrite subst_find_None in F by done. congruence. }
      apply find_Some_app in Hi as (a & b & Hs & Ha & Hmin).
      rewrite Hs, subst_nomatch_app, subst_app_match in F by (done || congruence || (rewrite Ha, <-Hs; done)).
      destruct (decide (length q ≤ i)) as [Hle|Hgt].
      * rewrite <-(starts_with_take _ i) in F by done.
        rewrite <-Ha, take_app_length in F.
        rewrite Hs, <-(starts_with_take _ i), <-Ha, take_app_length in Hnq by done. congruence.
      * apply starts_with_spec in F as [t Ht].
        assert (0 < i) by (destruct i; [destruct a; [|done]; simpl in Hs; rewrite Hs, starts_with_app in E; done|lia]).
        apply (Hub i); [lia|].
        assert (drop i (q ++ t) = q ++ subst p q b) as Hd.
        { rewrite <-Ht, <-Ha, drop_app_length. done. }
        rewrite drop_app_le in Hd by lia.
        apply (f_equal (take (length q - i))) in Hd.
        rewrite take_app_le in Hd by (rewrite length_drop; lia).
        rewrite take_ge in Hd by (rewrite length_drop; lia).
        rewrite Hd, take_app_le by lia. done.
Qed.

(** ** Lemmas on bytes and numerals *)

Lemma byte_val_range c : (byte_val c < 256)%N.
Proof. apply N_ascii_bounded. Qed.

Lemma byte_of_val c : byte_of (byte_val c) = c.
Proof. apply ascii_N_embedding. Qed.

Lemma byte_val_of n : (n < 256)%N → byte_val (byte_of n) = n.
Proof. apply N_ascii_embedding. Qed.

Lemma byte_val_inj c d : byte_val c = byte_val d → c = d.
Proof. intros H. rewrite <-(byte_of_val c), H. apply byte_of_val. Qed.

Lemma digit_val_chr base d : (d < base)%N → (base ≤ 36)%N → digit_val base (digit_chr d) = Some d.
Proof.
  intros Hd Hb. unfold digit_val, digit_chr.
  destruct (d <? 10)%N eqn:E; bool_prop.
  - rewrite byte_val_of by lia.
    replace (48 <=? 48 + d)%N with true by (symmetry; apply N.leb_le; lia).
    replace (48 + d <=? 57)%N with true by (symmetry; apply N.leb_le; lia). simpl.
    replace (48 + d - 48)%N with d by lia.
    by replace (d <? base)%N with true by (symmetry; apply N.ltb_lt; lia).
  - rewrite byte_val_of by lia.
    replace (87 + d <=? 57)%N with false by (symmetry; apply N.leb_gt; lia).
    rewrite andb_false_r.
    replace (97 <=? 87 + d)%N with true by (symmetry; apply N.leb_le; lia).
    replace (87 + d <=? 122)%N with true by (symmetry; apply N.leb_le; lia). simpl.
    replace (87 + d - 87)%N with d by lia.
    by replace (d <? base)%N with true by (symmetry; apply N.ltb_lt; lia).
Qed.

(** a byte that is a digit of some base *)
Definition is_digit (base : N) (c : ascii) : bool := bool_decide (is_Some (digit_val base c)).

Lemma digits_go_S fuel base n acc :
  digits_go (S fuel) base n acc =
    if (n / base =? 0)%N then digit_chr (n mod base) :: acc
    else digits_go fuel base (n / base) (digit_chr (n mod base) :: acc).
Proof. done. Qed.

Lemma digits_go_spec base fuel n acc :
  (2 ≤ base ≤ 36)%N → (n < base ^ N.of_nat fuel)%N →
  ∃ ds, digits_go (S fuel) base n acc = ds ++ acc ∧ ds ≠ [] ∧ Forall (λ c, is_digit base c = true) ds ∧
    ∀ a k, digits_val base a (ds ++ k) = digits_val base (a * base ^ N.of_nat (length ds) + n) k.
Proof.
  intros Hb. revert n acc. induction fuel as [|fuel IH]; intros n acc Hn.
  - assert (n = 0%N) as -> by (simpl in Hn; lia). exists [digit_chr 0].
    cbn [digits_go]. rewrite N.Div0.mod_0_l, N.Div0.div_0_l. split_and!; [done..| |].
    + constructor; [|done]. apply bool_decide_eq_true. rewrite digit_val_chr by lia. by eexists.
    + intros a k. cbn [app digits_val]. rewrite digit_val_chr by lia. simpl; f_equal; lia.
  - assert (Hd : is_digit base (digit_chr (n mod base)) = true).
    { apply bool_decide_eq_true. rewrite digit_val_chr; [by eexists|apply N.mod_lt; lia|lia]. }
    pose proof (N.Div0.div_mod n base) as Hdm.
    rewrite digits_go_S.
    destruct (n / base =? 0)%N eqn:E; bool_prop.
    + exists [digit_chr (n mod base)]. split_and!; [done..|by constructor|].
      intros a k. cbn [app digits_val]. rewrite digit_val_chr by (lia || apply N.mod_lt; lia).
      simpl; f_equal; lia.
    + destruct (IH (n / base)%N (digit_chr (n mod base) :: acc)) as (ds & Heq & Hne & Hall & Hval).
      { rewrite Nat2N.inj_succ, N.pow_succ_r' in Hn. apply N.Div0.div_lt_upper_bound. lia. }
      exists (ds ++ [digit_chr (n mod base)]). split_and!.
      * rewrite <-app_assoc. exact Heq.
      * by destruct ds.
      * apply Forall_app. split; [done|by constructor].
      * intros a k. rewrite <-app_assoc, Hval. cbn [app digits_val].
        rewrite digit_val_chr by (lia || apply N.mod_lt; lia).
        simpl. f_equal. rewrite length_app. simpl.
        rewrite Nat.add_1_r, Nat2N.inj_succ, N.pow_succ_r'. lia.
Qed.

Lemma fmt_uint_spec base n :
  (2 ≤ base ≤ 36)%N →
  fmt_uint base n ≠ [] ∧ Forall (λ c, is_digit base c = true) (fmt_uint base n) ∧
  digits_val base 0 (fmt_uint base n) = Some n.
Proof.
  intros Hb. unfold fmt_uint.
  destruct (decide (n = 0%N)) as [->|Hn0].
  { destruct (digits_go_spec base 0 0 [] Hb) as (ds & Heq & ? & ? & Hval); [simpl; lia|].
    change (N.to_nat (N.log2 0)) with 0. rewrite Heq, app_nil_r. split_and!; [done..|].
    rewrite <-(app_nil_r ds), Hval. simpl; f_equal; lia. }
  assert (n < base ^ N.of_nat (S (N.to_nat (N.log2 n))))%N as Hlt.
  { rewrite Nat2N.inj_succ, N2Nat.id. eapply N.lt_le_trans; [apply N.log2_spec; lia|].
    apply N.pow_le_mono_l. lia. }
  assert (Hmore : ∀ f m acc, (m < base ^ N.of_nat f)%N → 0 < f →
     digits_go (S f) base m acc = digits_go f base m acc).
  { clear -Hb. induction f as [|f IH]; intros m acc Hm Hf; [lia|].
    rewrite (digits_go_S (S f)), (digits_go_S f base m).
    destruct (m / base =? 0)%N eqn:E; [done|]. bool_prop.
    assert (m / base < base ^ N.of_nat f)%N.
    { rewrite Nat2N.inj_succ, N.pow_succ_r' in Hm. apply N.Div0.div_lt_upper_bound. lia. }
    apply IH; [done|]. destruct f; [|lia]. by apply N.lt_1_r in H. }
  rewrite <-Hmore by (done || lia).
  destruct (digits_go_spec base _ n [] Hb Hlt) as (ds & Heq & ? & ? & Hval).
  rewrite Heq, app_nil_r. split_and!; [done..|].
  rewrite <-(app_nil_r ds), Hval. simpl; f_equal; lia.
Qed.

Lemma fmt_uint_inj base n m : (2 ≤ base ≤ 36)%N → fmt_uint base n = fmt_uint base m → n = m.
Proof.
  intros Hb H. destruct (fmt_uint_spec base n Hb) as (_ & _ & Hn).
  destruct (fmt_uint_spec base m Hb) as (_ & _ & Hm). congruence.
Qed.

Lemma to_string_inj n m : to_string n = to_string m → n = m.
Proof. intros H%fmt_uint_inj; lia. Qed.

Lemma fmt_uint_length base n : length (fmt_uint base n) ≤ S (N.to_nat (N.log2 n)).
Proof.
  assert (∀ fuel m acc, length (digits_go fuel base m acc) ≤ fuel + length acc) as H.
  { intros fuel. induction fuel as [|fuel IH]; intros m acc; [done|]. rewrite digits_go_S.
    destruct (_ =? _)%N; [cbn [length]; lia|]. etrans; [apply IH|]. cbn [length]. lia. }
  etrans; [apply H|]. cbn [length]. lia.
Qed.

(** a byte that is no digit does not occur in a numeral *)
Lemma fmt_uint_not_in base n c :
  (2 ≤ base ≤ 36)%N → digit_val base c = None → c ∉ fmt_uint base n.
Proof.
  intros Hb Hc Hin. destruct (fmt_uint_spec base n Hb) as (_ & Hall & _).
  rewrite list.Forall_forall in Hall. specialize (Hall c Hin).
  unfold is_digit in Hall. bool_prop. rewrite Hc in Hall. by destruct Hall.
Qed.

(** ** Lists *)

(** two sequences split by the same separator, which neither head holds *)
Lemma app_sep_inj {A} (x : A) a1 b1 a2 b2 :
  x ∉ a1 → x ∉ a2 → a1 ++ x :: b1 = a2 ++ x :: b2 → a1 = a2 ∧ b1 = b2.
Proof.
  revert a2; induction a1 as [|c a1 IH]; intros [|d a2] H1 H2 Heq; simplify_eq/=; try set_solver.
  destruct (IH a2) as [-> ->]; set_solver.
Qed.

(** ** Pieces *)

Lemma pieces_nonnil sep s : pieces sep s ≠ [].
Proof. destruct s as [|c s]; simpl; [done|]. case_bool_decide; [done|]. by case_match. Qed.

Lemma pieces_free sep s : sep ∉ s → pieces sep s = [s].
Proof.
  induction s as [|c s IH]; [done|]. intros Hs. simpl.
  rewrite bool_decide_eq_false_2 by set_solver. by rewrite IH by set_solver.
Qed.

Lemma pieces_app sep a b : sep ∉ a → pieces sep (a ++ sep :: b) = a :: pieces sep b.
Proof.
  induction a as [|c a IH]; intros Ha; simpl.
  - by rewrite bool_decide_eq_true_2.
  - rewrite bool_decide_eq_false_2 by set_solver. by rewrite IH by set_solver.
Qed.

Lemma pieces_unpieces sep ps :
  ps ≠ [] → Forall (λ p, sep ∉ p) ps → pieces sep (unpieces [sep] ps) = ps.
Proof.
  induction ps as [|p ps IH]; [done|]. intros _ [Hp Hps]%Forall_cons.
  destruct ps as [|q ps]; [by apply pieces_free|].
  cbn [unpieces app]. rewrite pieces_app by done. f_equal. by apply IH.
Qed.

Lemma unpieces_pieces sep s : unpieces [sep] (pieces sep s) = s.
Proof.
  induction s as [|c s IH]; [done|]. simpl. pose proof (pieces_nonnil sep s).
  case_bool_decide as E.
  - subst. destruct (pieces sep s) eqn:F; [done|]. rewrite <-F in *. simpl. rewrite F in *.
    cbn [unpieces app]. by f_equal.
  - destruct (pieces sep s) as [|p [|q ps]]; simplify_eq/=; done.
Qed.

Lemma pieces_sep_free sep s : Forall (λ p, sep ∉ p) (pieces sep s).
Proof.
  induction s as [|c s IH]; simpl; [by repeat constructor; set_solver|].
  case_bool_decide; [constructor; [set_solver|done]|].
  destruct (pieces sep s) as [|p ps]; [repeat constructor; set_solver|].
  inversion IH; subst. constructor; [set_solver|done].
Qed.

Lemma drop_past {A} (c : A) a b : drop (S (length a)) (a ++ [c] ++ b) = b.
Proof. induction a as [|x a IH]; [done|]. exact IH. Qed.

(** *** little-endian integers *)

Lemma le_bytes_length k n : length (le_bytes k n) = k.
Proof. revert n. induction k as [|k IH]; intros n; [done|]. simpl. by rewrite IH. Qed.

Lemma le_val_bytes k n : (n < 256 ^ N.of_nat k)%N → le_val (le_bytes k n) = n.
Proof.
  revert n. induction k as [|k IH]; intros n Hn; [simpl in *; lia|].
  cbn [le_bytes le_val]. rewrite byte_val_of by (apply N.mod_lt; lia).
  rewrite IH.
  - rewrite N.add_comm. symmetry. apply N.div_mod. lia.
  - rewrite Nat2N.inj_succ, N.pow_succ_r' in Hn. apply N.Div0.div_lt_upper_bound. lia.
Qed.

Lemma le_val_bound b : (le_val b < 256 ^ N.of_nat (length b))%N.
Proof.
  induction b as [|c b IH]; [simpl; lia|]. cbn [le_val length].
  rewrite Nat2N.inj_succ, N.pow_succ_r'. pose proof (byte_val_range c). nia.
Qed.

Lemma le_bytes_val b : le_bytes (length b) (le_val b) = b.
Proof.
  induction b as [|c b IH]; [done|]. cbn [le_val length le_bytes].
  pose proof (byte_val_range c).
  replace ((byte_val c + 256 * le_val b) mod 256)%N with (byte_val c).
  2: { rewrite (N.mul_comm 256), N.Div0.mod_add, N.mod_small; done. }
  replace ((byte_val c + 256 * le_val b) / 256)%N with (le_val b).
  2: { rewrite (N.mul_comm 256), N.div_add, N.div_small by lia. lia. }
  by rewrite byte_of_val, IH.
Qed.

Lemma le_bytes_inj k n m :
  (n < 256 ^ N.of_nat k)%N → (m < 256 ^ N.of_nat k)%N → le_bytes k n = le_bytes k m → n = m.
Proof. intros Hn Hm E. by rewrite <-(le_val_bytes k n), <-(le_val_bytes k m), E. Qed.

(** *** shifts and masks as arithmetic *)

Lemma land_mask n k : N.land n (N.shiftl 1 k - 1) = (n mod 2 ^ k)%N.
Proof. rewrite <-N.land_ones. unfold N.ones. by rewrite N.sub_1_r. Qed.

Lemma lor_shiftl n k c : (c < 2 ^ k)%N → N.lor (N.shiftl n k) c = (n * 2 ^ k + c)%N.
Proof.
  intros Hc. assert (Hz : N.land (N.shiftl n k) c = 0%N).
  { apply N.bits_inj_0. intros i. rewrite N.land_spec. destruct (N.ltb_spec i k) as [Hi|Hi].
    - by rewrite N.shiftl_spec_low.
    - rewrite <-(N.mod_small c (2 ^ k)) by done. rewrite N.mod_pow2_bits_high by done. apply andb_false_r. }
  by rewrite <-N.lxor_lor, <-N.add_nocarry_lxor, N.shiftl_mul_pow2.
Qed.
