(* ===== verification/Paths.v ===== *)
(** * Lexical paths

    What the sources use of [std::filesystem::path] on POSIX, with libc++'s behaviour: the element
    iteration, [parent_path], [filename], [operator/], [lexically_normal] and
    [lexically_relative]. Nothing here touches a file system. The lemmas at the end are about
    canonical absolute paths, the shape store paths and build prefixes have. *)

From S2P Require Import Prelude.

Definition chr_slash : ascii := "/"%char.

Definition is_absolute (p : str) : bool := starts_with p "/".

Fixpoint drop_slashes (p : str) : str :=
  match p with
  | c :: p' => if c == chr_slash then drop_slashes p' else p
  | [] => []
  end.

(** the elements of a path as its iterator yields them: "/" for a root directory, the file names,
    and "" after a trailing separator *)
Definition relative_elements (p : str) : list str :=
  List.filter nonempty (pieces chr_slash p) ++
  (if (p != []) && ends_with p "/" then [[]] else []).

Definition elements (p : str) : list str :=
  if is_absolute p then lit "/" :: relative_elements (drop_slashes p) else relative_elements p.

(** [path::operator/] *)
Definition path_append (a b : str) : str :=
  if is_absolute b then b
  else if (a == []) || ends_with a "/" then a ++ b
  else a ++ "/" ++ b.

Infix "/p/" := path_append (at level 40, left associativity) : bytes_scope.

(** [path::filename]: what follows the last separator *)
Definition filename (p : str) : str :=
  match rfind "/" p with
  | Some i => drop (S i) p
  | None => p
  end.

Fixpoint strip_slashes_rev (r : str) : str :=
  match r with
  | c :: r' => if c == chr_slash then strip_slashes_rev r' else r
  | [] => []
  end.

(** [path::parent_path]: the file name goes, then the separators before it; a root stays *)
Definition parent_path (p : str) : str :=
  let dir := take (length p - length (filename p)) p in
  let trimmed := rev (strip_slashes_rev (rev dir)) in
  if trimmed == [] then dir else trimmed.

Inductive part_kind := PK_RootSep | PK_TrailingSep | PK_Dot | PK_DotDot | PK_Filename.

#[global] Instance part_kind_eq_dec : EqDecision part_kind.
Proof. solve_decision. Defined.

Definition classify (e : str) : part_kind :=
  if e == [] then PK_TrailingSep
  else if e == "/" then PK_RootSep
  else if e == "." then PK_Dot
  else if e == ".." then PK_DotDot
  else PK_Filename.

(** the stack of [lexically_normal], last part first, and whether a separator may have to follow *)
Definition normal_step (st : list str * bool) (e : str) : list str * bool :=
  let '(parts, sep) := st in
  match classify e with
  | PK_Filename | PK_RootSep => (e :: parts, false)
  | PK_DotDot =>
      match parts with
      | [] => ([lit ".."], false)
      | top :: rest =>
          match classify top with
          | PK_Filename => (rest, true)
          | PK_RootSep => (parts, false)
          | _ => (lit ".." :: parts, false)
          end
      end
  | PK_Dot | PK_TrailingSep => (parts, true)
  end.

Definition lexically_normal (p : str) : str :=
  if p == [] then []
  else
    let '(parts, sep) := foldl normal_step ([], false) (elements p) in
    match parts with
    | [] => "."
    | top :: _ =>
        let result := foldl path_append [] (rev parts) in
        if sep && (classify top == PK_Filename) then result /p/ [] else result
    end.

Fixpoint common_drop (a b : list str) : list str * list str :=
  match a, b with
  | x :: a', y :: b' => if x == y then common_drop a' b' else (a, b)
  | _, _ => (a, b)
  end.

Definition lexical_element_count (es : list str) : Z :=
  foldr (λ (e : str) n, if e == ".." then (n - 1)%Z
                else if (e == ".") || (e == []) then n else (n + 1)%Z) 0%Z es.

Definition lexically_relative (p base : str) : str :=
  if negb (bool_decide (is_absolute p = is_absolute base)) then []
  else
    let '(a, b) := common_drop (elements p) (elements base) in
    match a, b with
    | [], [] => "."
    | _, _ =>
        let n := lexical_element_count b in
        if (n <? 0)%Z then []
        else if (n =? 0)%Z && match a with [] => true | e :: _ => e == [] end then "."
        else foldl path_append [] (replicate (Z.to_nat n) (lit "..") ++ a)
    end.

(** ** Canonical absolute paths

    "/c1/c2/…" for file names [cs]: what [lexically_normal] leaves as it is. *)

Definition good_name (c : str) : Prop :=
  c ≠ [] ∧ c ≠ lit "." ∧ c ≠ lit ".." ∧ chr_slash ∉ c.

Definition abs_path (cs : list str) : str := chr_slash :: unpieces "/" cs.

(** the paths part ways at once *)
Definition diverge (a b : list str) : Prop :=
  match a, b with
  | x :: _, y :: _ => x ≠ y
  | _, _ => True
  end.

(** an element that is neither a root nor empty *)
Definition plain (e : str) : Prop := e ≠ [] ∧ chr_slash ∉ e.

Lemma good_plain c : good_name c → plain c.
Proof. by intros (? & ? & ? & ?). Qed.
#[export] Hint Resolve good_plain : bytes.

Lemma classify_good c : good_name c → classify c = PK_Filename.
Proof.
  intros (? & ? & ? & Hs). unfold classify.
  rewrite !bool_decide_eq_false_2; try done. intros ->. apply Hs. by left.
Qed.

Lemma ends_with_snoc (s : str) c d : ends_with (s ++ [c]) [d] = (d == c).
Proof. unfold ends_with. rewrite rev_app_distr. simpl. by rewrite andb_true_r. Qed.

Lemma plain_not_ends e : plain e → ends_with e "/" = false.
Proof.
  intros [Hne Hs]. destruct e as [|c e _] using rev_ind; [done|].
  change (lit "/") with [chr_slash].
  rewrite ends_with_snoc. apply bool_decide_eq_false. set_solver.
Qed.

Lemma ends_with_app_plain a e : plain e → ends_with (a ++ e) "/" = false.
Proof.
  intros [Hne Hs]. destruct e as [|c e _] using rev_ind; [done|].
  change (lit "/") with [chr_slash].
  rewrite app_assoc, ends_with_snoc. apply bool_decide_eq_false. set_solver.
Qed.

Lemma plain_not_absolute e b : plain e → is_absolute (e ++ b) = false.
Proof.
  intros [Hne Hs]. destruct e as [|c e]; [done|]. unfold is_absolute. simpl.
  rewrite bool_decide_eq_false_2; [done|]. intros <-. set_solver.
Qed.

Lemma unpieces_cons e es : es ≠ [] → unpieces "/" (e :: es) = e ++ "/" ++ unpieces "/" es.
Proof. by destruct es. Qed.

Lemma unpieces_last es e :
  unpieces "/" (es ++ [e]) = (if es == [] then [] else unpieces "/" es ++ "/") ++ e.
Proof.
  induction es as [|d es IH]; [done|]. rewrite (bool_decide_eq_false_2 (d :: es = [])) by done.
  change ((d :: es) ++ [e]) with (d :: (es ++ [e])). rewrite unpieces_cons by (by destruct es).
  rewrite IH. case_bool_decide as E; [subst; by rewrite <-app_assoc|].
  rewrite unpieces_cons, <-!app_assoc by done. done.
Qed.

Lemma unpieces_plain_head e es : ∃ r, unpieces "/" (e :: es) = e ++ r.
Proof. destruct es; [exists []; by rewrite app_nil_r|by eexists]. Qed.

Lemma unpieces_not_absolute es :
  Forall plain es → is_absolute (unpieces "/" es) = false.
Proof.
  intros H. destruct es as [|e es]; [done|]. inversion H; subst.
  destruct (unpieces_plain_head e es) as [r ->]. by apply plain_not_absolute.
Qed.

Lemma unpieces_not_ends es : Forall plain es → ends_with (unpieces "/" es) "/" = false.
Proof.
  destruct es as [|e es _] using rev_ind; [done|]. intros [_ [H _]%Forall_cons]%Forall_app.
  rewrite unpieces_last. by apply ends_with_app_plain.
Qed.

Lemma filter_nonempty_plain es : Forall plain es → List.filter nonempty es = es.
Proof.
  induction 1 as [|e es [He _] _ IH]; [done|]. simpl. unfold nonempty at 1.
  rewrite bool_decide_eq_false_2 by done. simpl. by rewrite IH.
Qed.

(** joining elements and iterating over the result gives the elements back *)
Lemma relative_elements_join es :
  Forall plain es → relative_elements (unpieces "/" es) = es.
Proof.
  intros H. unfold relative_elements. rewrite unpieces_not_ends, andb_false_r, app_nil_r by done.
  destruct (decide (es = [])) as [->|Hne]; [done|].
  change (lit "/") with [chr_slash].
  rewrite pieces_unpieces; [by apply filter_nonempty_plain|done|].
  eapply Forall_impl; [exact H|]. by intros ? [].
Qed.

Lemma drop_slashes_plain es : Forall plain es → drop_slashes (unpieces "/" es) = unpieces "/" es.
Proof.
  intros H. destruct es as [|e es]; [done|]. inversion H as [|? ? He]; subst.
  destruct (unpieces_plain_head e es) as [r ->]. destruct He as [Hne Hs].
  destruct e as [|c e]; [done|]. simpl. rewrite bool_decide_eq_false_2; [done|set_solver].
Qed.

Lemma elements_abs_path cs : Forall plain cs → elements (abs_path cs) = lit "/" :: cs.
Proof.
  intros H. unfold elements, abs_path.
  change (is_absolute (chr_slash :: unpieces "/" cs)) with true. cbn iota. f_equal.
  cbn [drop_slashes]. rewrite bool_decide_eq_true_2 by done. rewrite drop_slashes_plain by done.
  by apply relative_elements_join.
Qed.

Lemma unpieces_app cs es :
  cs ≠ [] → es ≠ [] → unpieces "/" (cs ++ es) = unpieces "/" cs ++ "/" ++ unpieces "/" es.
Proof.
  intros Hc He. induction cs as [|c cs IH]; [done|]. destruct (decide (cs = [])) as [->|Hn].
  - by apply unpieces_cons.
  - change ((c :: cs) ++ es) with (c :: (cs ++ es)).
    rewrite !unpieces_cons by (by destruct cs). by rewrite IH, <-!app_assoc.
Qed.

(** a canonical path other than the root does not end in a separator *)
Lemma abs_path_not_ends cs : Forall plain cs → cs ≠ [] → ends_with (abs_path cs) "/" = false.
Proof.
  destruct cs as [|c cs _] using rev_ind; [done|]. intros [_ [H _]%Forall_cons]%Forall_app _.
  unfold abs_path. rewrite unpieces_last.
  change (chr_slash :: (if cs == [] then [] else unpieces "/" cs ++ "/") ++ c)
    with ((chr_slash :: (if cs == [] then [] else unpieces "/" cs ++ "/")) ++ c).
  by apply ends_with_app_plain.
Qed.

(** [dir / rel] for a canonical directory and a relative path made of plain elements *)
Lemma path_append_abs cs es :
  Forall plain cs → Forall plain es → es ≠ [] →
  abs_path cs /p/ unpieces "/" es = abs_path (cs ++ es).
Proof.
  intros Hc He Hne. unfold path_append. rewrite unpieces_not_absolute by done.
  rewrite bool_decide_eq_false_2 by done. cbn [orb].
  destruct (decide (cs = [])) as [->|Hn]; [done|].
  rewrite abs_path_not_ends by done. unfold abs_path. by rewrite unpieces_app.
Qed.

Lemma path_append_join acc es :
  acc ≠ [] → ends_with acc "/" = false → Forall plain es →
  foldl path_append acc es = acc ++ (if es == [] then [] else "/" ++ unpieces "/" es).
Proof.
  intros Hne He H. revert acc Hne He. induction H as [|e es Hp Hes IH]; intros acc Hne He.
  { by rewrite app_nil_r. }
  rewrite (bool_decide_eq_false_2 (e :: es = [])) by done. cbn [foldl]. rewrite IH.
  - unfold path_append. rewrite <-(app_nil_r e), plain_not_absolute by done. rewrite app_nil_r.
    rewrite bool_decide_eq_false_2, He by done. simpl orb. cbn iota.
    rewrite <-!app_assoc. f_equal. f_equal.
    case_bool_decide as E; [subst; by rewrite app_nil_r|]. by rewrite unpieces_cons.
  - unfold path_append. rewrite <-(app_nil_r e), plain_not_absolute by done.
    rewrite bool_decide_eq_false_2, He by done. by destruct acc.
  - unfold path_append. rewrite <-(app_nil_r e), plain_not_absolute by done. rewrite app_nil_r.
    rewrite bool_decide_eq_false_2, He by done. simpl orb. cbn iota.
    rewrite app_assoc. by apply ends_with_app_plain.
Qed.

Lemma path_append_all es : Forall plain es → foldl path_append [] es = unpieces "/" es.
Proof.
  intros H. destruct es as [|e es]; [done|]. inversion H as [|? ? He Hes]; subst. cbn [foldl].
  assert (path_append [] e = e) as ->.
  { unfold path_append. by rewrite <-(app_nil_r e), plain_not_absolute. }
  rewrite path_append_join; [|by destruct He|by apply plain_not_ends|done].
  case_bool_decide; [subst; by rewrite app_nil_r|]. by rewrite unpieces_cons.
Qed.

Lemma path_append_root es : Forall plain es → foldl path_append [] (lit "/" :: es) = abs_path es.
Proof.
  intros H. cbn [foldl]. change (path_append [] (lit "/")) with (lit "/").
  destruct es as [|e es]; [done|]. inversion H as [|? ? He Hes]; subst. cbn [foldl].
  assert (path_append (lit "/") e = chr_slash :: e) as ->.
  { unfold path_append. by rewrite <-(app_nil_r e), plain_not_absolute. }
  rewrite path_append_join; [|done| |done].
  - unfold abs_path. cbn [app]. f_equal.
    case_bool_decide; [subst; by rewrite app_nil_r|]. by rewrite unpieces_cons.
  - change (chr_slash :: e) with ([chr_slash] ++ e). by apply ends_with_app_plain.
Qed.

(** *** the stack of [lexically_normal] *)

Lemma normal_fold_names st es :
  Forall good_name es →
  foldl normal_step st es = (rev es ++ st.1, if es == [] then st.2 else false).
Proof.
  intros H. revert st. induction H as [|e es He Hes IH]; intros [parts sep]; [done|].
  cbn [foldl]. unfold normal_step at 2. rewrite classify_good by done. rewrite IH. simpl.
  rewrite <-app_assoc. simpl. f_equal. by case_bool_decide.
Qed.

Lemma normal_fold_up parts ds sep :
  Forall good_name ds →
  foldl normal_step (rev ds ++ parts, sep) (replicate (length ds) (lit ".."))
  = (parts, if ds == [] then sep else true).
Proof.
  intros H. revert sep. induction ds as [|d ds IH] using rev_ind; intros sep; [done|].
  apply Forall_app in H as [Hds [Hd _]%Forall_cons].
  rewrite length_app, Nat.add_1_r, rev_app_distr. cbn [replicate foldl rev app].
  unfold normal_step at 2. change (classify (lit "..")) with PK_DotDot. cbn iota.
  rewrite classify_good by done. rewrite IH by done.
  rewrite (bool_decide_eq_false_2 (ds ++ [d] = [])) by (by destruct ds). by case_bool_decide.
Qed.

Lemma lexically_normal_abs cs : Forall good_name cs → lexically_normal (abs_path cs) = abs_path cs.
Proof.
  intros H. assert (Forall plain cs) as Hp by (eapply Forall_impl; [done|auto with bytes]).
  unfold lexically_normal. rewrite bool_decide_eq_false_2 by done.
  rewrite elements_abs_path by done. cbn [foldl].
  change (normal_step ([], false) (lit "/")) with ([lit "/"], false).
  rewrite normal_fold_names by done. cbn [fst snd].
  destruct (rev cs ++ [lit "/"]) as [|top rest] eqn:E; [by destruct (rev cs)|].
  rewrite <-E, rev_app_distr, rev_involutive. cbn [rev app].
  rewrite path_append_root by done. by case_bool_decide.
Qed.

(** the relative path from [ds] to [ts], both below a common directory [p] *)
Definition rel_elements (d' t' : list str) : list str := replicate (length d') (lit "..") ++ t'.

Lemma rel_elements_plain d' t' : Forall plain t' → Forall plain (rel_elements d' t').
Proof.
  intros H. apply Forall_app. split; [|done]. apply Forall_replicate. split; [done|].
  change (lit "..") with ["."%char; "."%char]. set_solver.
Qed.

Lemma common_drop_app p a b :
  diverge a b →
  common_drop (p ++ a) (p ++ b) = (a, b).
Proof.
  intros H. induction p as [|x p IH]; simpl.
  - destruct a, b; simpl; try done. by rewrite bool_decide_eq_false_2.
  - by rewrite bool_decide_eq_true_2.
Qed.

Lemma element_count_good es : Forall good_name es → lexical_element_count es = Z.of_nat (length es).
Proof.
  induction 1 as [|e es (? & ? & ? & _) _ IH]; [done|]. unfold lexical_element_count in *.
  cbn [foldr length]. rewrite IH. rewrite !bool_decide_eq_false_2 by done. simpl orb. cbn iota. lia.
Qed.

Lemma lexically_relative_abs p t' d' :
  Forall good_name p → Forall good_name t' → Forall good_name d' →
  diverge t' d' →
  lexically_relative (abs_path (p ++ t')) (abs_path (p ++ d')) =
    if (t' == []) && (d' == []) then "." else unpieces "/" (rel_elements d' t').
Proof.
  intros Hp Ht Hd Hne.
  assert (Hpl : ∀ cs, Forall good_name cs → Forall plain cs)
    by (intros; eapply Forall_impl; [done|auto with bytes]).
  unfold lexically_relative. rewrite bool_decide_eq_true_2 by done. cbn [negb].
  rewrite !elements_abs_path by (apply Hpl, Forall_app; done).
  change (lit "/" :: p ++ t') with ((lit "/" :: p) ++ t').
  change (lit "/" :: p ++ d') with ((lit "/" :: p) ++ d').
  rewrite common_drop_app by done. rewrite element_count_good by done.
  rewrite Nat2Z.id.
  replace (Z.of_nat (length d') <? 0)%Z with false by (symmetry; apply Z.ltb_ge; lia).
  destruct t' as [|t t']; destruct d' as [|d d']; try done.
  - rewrite bool_decide_eq_true_2, bool_decide_eq_false_2 by done. cbn [andb].
    replace (Z.of_nat (length (d :: d')) =? 0)%Z with false by (symmetry; apply Z.eqb_neq; simpl; lia).
    cbn [andb]. apply path_append_all, rel_elements_plain; auto.
  - assert (t ≠ []) by (by inversion Ht as [|? ? (? & _)]).
    rewrite !bool_decide_eq_false_2, andb_false_r by done.
    apply path_append_all, rel_elements_plain; auto.
  - assert (t ≠ []) by (by inversion Ht as [|? ? (? & _)]).
    rewrite !bool_decide_eq_false_2, andb_false_r by done.
    apply path_append_all, rel_elements_plain; auto.
Qed.

(** walking the relative path from the directory arrives at the target; a walk that ends by going
    up leaves a trailing separator *)
Lemma normal_of_relative p t' d' :
  Forall good_name p → Forall good_name t' → Forall good_name d' → rel_elements d' t' ≠ [] →
  lexically_normal (abs_path (p ++ d') /p/ unpieces "/" (rel_elements d' t')) =
    abs_path (p ++ t') ++ (if (t' == []) && (p != []) then "/" else []).
Proof.
  intros Hp Ht Hd Hne.
  assert (Hpl : ∀ cs, Forall good_name cs → Forall plain cs)
    by (intros; eapply Forall_impl; [done|auto with bytes]).
  assert (Hre : Forall plain (rel_elements d' t')) by (apply rel_elements_plain; auto).
  rewrite path_append_abs; [|apply Hpl, Forall_app; done|done|done].
  unfold lexically_normal. rewrite bool_decide_eq_false_2 by done.
  rewrite elements_abs_path by (apply Forall_app; split; [apply Hpl, Forall_app|]; done).
  cbn [foldl]. change (normal_step ([], false) (lit "/")) with ([lit "/"], false).
  unfold rel_elements. rewrite !foldl_app. rewrite (normal_fold_names _ p) by done.
  rewrite (normal_fold_names _ d') by done. cbn [fst snd]. rewrite normal_fold_up by done.
  rewrite normal_fold_names by done. cbn [fst snd].
  destruct (rev t' ++ rev p ++ [lit "/"]) as [|top rest] eqn:E.
  { by destruct (rev t'), (rev p). }
  rewrite <-E, !rev_app_distr, !rev_involutive. cbn [rev app].
  rewrite path_append_root by (apply Forall_app; auto).
  destruct t' as [|t t'].
  - rewrite app_nil_r in *. rewrite !bool_decide_eq_true_2 by done. cbn [andb].
    assert (d' ≠ []) by (intros ->; done).
    rewrite (bool_decide_eq_false_2 (d' = [])) by done. cbn [andb].
    destruct p as [|c p _] using rev_ind.
    + simpl in E. injection E as <- <-. done.
    + rewrite rev_app_distr in E. simpl in E. injection E as <- <-.
      apply Forall_app in Hp as [Hp [Hc _]%Forall_cons].
      rewrite classify_good by done. rewrite bool_decide_eq_true_2 by done.
      rewrite bool_decide_eq_false_2 by (by destruct p). cbn [negb].
      unfold path_append. change (is_absolute []) with false. cbn iota.
      rewrite bool_decide_eq_false_2 by done. cbn [orb].
      rewrite abs_path_not_ends; [by rewrite app_nil_r| |by destruct p].
      apply Forall_app; auto with bytes.
  - rewrite !bool_decide_eq_false_2 by done. cbn [andb]. rewrite app_nil_r. done.
Qed.
