(* ===== verification/Base.v ===== *)
(** * base.h, base.cc: the utilities every mode shares

    Reading a file in chunks, the atomic write, the string helpers, number parsing, hex and the
    length-prefixed field stream of [Hasher]. The operating system is explicit: a kernel answers
    [read] as it likes, a file system is a finite map, BLAKE3 is a parameter. *)

From S2P Require Import Prelude Paths.

(** ** Reading a file *)

(** What [read(2)] has left to deliver, and how it will answer: [None] an error, [Some k] at most
    [k + 1] bytes. Past the end of the list it delivers all that was asked for. *)
Record kernel := Kernel { k_rest : str; k_caps : list (option nat) }.

(** one [read] of up to [n] bytes; [None] is a negative result *)
Definition k_read (n : nat) (k : kernel) : option str * kernel :=
  match k_caps k with
  | None :: caps => (None, Kernel (k_rest k) caps)
  | Some c :: caps =>
      let m := Nat.min n (S c) in
      (Some (take m (k_rest k)), Kernel (drop m (k_rest k)) caps)
  | [] => (Some (take n (k_rest k)), Kernel (drop n (k_rest k)) [])
  end.

Definition kReadChunk : nat := Nat.pow 2 16.

(** the lambda of [resize_and_overwrite]: fill up to [capacity]; the flag is [failed] *)
Fixpoint read_fill (fuel capacity : nat) (out : str) (k : kernel) : str * bool * kernel :=
  match fuel with
  | 0 => (out, false, k)
  | S fuel =>
      if (length out <? capacity)%nat then
        match k_read (capacity - length out) k with
        | (None, k') => (out, true, k')
        | (Some [], k') => (out, false, k')
        | (Some got, k') => read_fill fuel capacity (out ++ got) k'
        end
      else (out, false, k)
  end.

Fixpoint read_grow (fuel want : nat) (out : str) (failed : bool) (k : kernel) : str * bool :=
  match fuel with
  | 0 => (out, failed)
  | S fuel =>
      if failed then (out, failed)
      else
        let '(out', failed', k') := read_fill (S want) want out k in
        if (length out' <? want)%nat then (out', failed')
        else read_grow fuel (length out' + kReadChunk) out' failed' k'
  end.

(** [file]: what open(2) gives, with [st_size] as fstat reports it (0 when it fails) *)
Definition ReadFile (file : option (kernel * nat)) : option str :=
  match file with
  | None => None
  | Some (k, known) =>
      let want := if (0 <? known)%nat then known + 1 else kReadChunk in
      let '(out, failed) := read_grow (S (S (length (k_rest k)))) want [] false k in
      if failed then None else Some out
  end.

(** ** Writing a file *)

Abbreviation filesystem := (gmap str str) (only parsing).

(** the temporary next to [path], dot first so that globs on the name do not match it *)
Definition tmp_path (pid : nat) (path : str) : str :=
  parent_path path /p/ (lit ".jig" ++ to_string pid ++ "." ++ filename path).

(** which of the steps that can fail do *)
Record write_faults := WriteFaults { open_fails : bool; short_write : option nat; rename_fails : bool }.

(** the file systems a concurrent reader may observe, in order, and the result *)
Definition WriteFile (pid : nat) (path data : str) (faults : write_faults) (fs : filesystem)
  : list filesystem * bool :=
  let tmp := tmp_path pid path in
  if open_fails faults then ([fs; delete tmp fs], false)
  else
    let opened := <[tmp := []]> fs in
    match short_write faults with
    | Some n =>
        let partial := <[tmp := take n data]> fs in
        ([fs; opened; partial; delete tmp fs], false)
    | None =>
        let full := <[tmp := data]> fs in
        if rename_fails faults then ([fs; opened; full], false)
        else ([fs; opened; full; <[path := data]> (delete tmp fs)], true)
    end.

(** ** Strings *)

Definition is_blank (c : ascii) : bool := (c == " "%char) || (c == chr_tab) || (c == chr_nl).

Fixpoint drop_while (p : ascii → bool) (s : str) : str :=
  match s with
  | c :: s' => if p c then drop_while p s' else s
  | [] => []
  end.
Fixpoint take_while (p : ascii → bool) (s : str) : str :=
  match s with
  | c :: s' => if p c then c :: take_while p s' else []
  | [] => []
  end.

Fixpoint split_ws_loop (fuel : nat) (text : str) (out : list str) : list str :=
  match fuel with
  | 0 => out
  | S fuel =>
      match text with
      | [] => out
      | _ =>
          let text := drop_while is_blank text in
          let word := take_while (negb ∘ is_blank) text in
          split_ws_loop fuel (drop_while (negb ∘ is_blank) text)
            (if word == [] then out else out ++ [word])
      end
  end.
Definition SplitWhitespace (text : str) : list str := split_ws_loop (S (length text)) text [].

(** [std::isspace] in the C locale *)
Definition is_space (c : ascii) : bool :=
  let v := byte_val c in ((9 <=? v) && (v <=? 13) || (v =? 32))%N.

Definition chr_squot : ascii := "'"%char.

(** the words so far, the word under way, whether there is one, and the quote that is open *)
Record tok_state := TokState {
  tk_out : list str; tk_word : str; tk_in_word : bool; tk_quote : option ascii }.

(** [word += chr; in_word = true] *)
Definition tok_literal (st : tok_state) (c : ascii) : tok_state :=
  TokState (tk_out st) (tk_word st ++ [c]) true (tk_quote st).

(** a character that no backslash precedes *)
Definition tok_char (st : tok_state) (c : ascii) : tok_state :=
  if tk_quote st == Some c then TokState (tk_out st) (tk_word st) (tk_in_word st) None
  else if (tk_quote st == None) && ((c == chr_squot) || (c == chr_quot)) then
    TokState (tk_out st) (tk_word st) true (Some c)
  else if (tk_quote st == None) && is_space c then
    if tk_in_word st then TokState (tk_out st ++ [tk_word st]) [] false (tk_quote st)
    else TokState (tk_out st) (tk_word st) false (tk_quote st)
  else tok_literal st c.

Fixpoint tok_loop (st : tok_state) (text : str) : tok_state :=
  match text with
  | [] => st
  | c :: rest =>
      if c == chr_bslash then
        match rest with
        | d :: rest' => tok_loop (tok_literal st d) rest'
        | [] => tok_char st c
        end
      else tok_loop (tok_char st c) rest
  end.

Definition TokenizeGnu (text : str) : list str :=
  let st := tok_loop (TokState [] [] false None) text in
  if tk_in_word st then tk_out st ++ [tk_word st] else tk_out st.

(** [read]: the file a path names, [None] when it is not readable *)
Definition ExpandResponseFiles (read : str → option str) (args : list str) : list str :=
  foldl (λ out arg,
    match (if starts_with arg "@" then read (drop 1 arg) else None) with
    | None => out ++ [arg]
    | Some body => out ++ TokenizeGnu body
    end) [] args.

Fixpoint split_loop (fuel : nat) (text : str) (sep : ascii) (keep_empty : bool) (start : nat)
    (out : list str) : list str :=
  match fuel with
  | 0 => out
  | S fuel =>
      if (start <=? length text)%nat then
        let end_ := default (length text) (find_chr sep text start) in
        let out :=
          if keep_empty || (start <? end_)%nat then out ++ [substr text start (end_ - start)]
          else out in
        split_loop fuel text sep keep_empty (end_ + 1) out
      else out
  end.
Definition Split (text : str) (sep : ascii) (keep_empty : bool) : list str :=
  split_loop (S (S (length text))) text sep keep_empty 0 [].

Definition Join (parts : list str) (sep : str) : str :=
  foldl (λ out part, (if out == [] then out else out ++ sep) ++ part) [] parts.

Definition is_sp_tab (c : ascii) : bool := (c == " "%char) || (c == chr_tab).
Definition Trim (text : str) : str :=
  rev (drop_while is_sp_tab (rev (drop_while is_sp_tab text))).

Definition ReplaceAll (text from replacement : str) : str :=
  if from == [] then text else replace_loop (S (length text)) from replacement 0 text.

(** [std::from_chars] over the whole trimmed text into a [std::uint64_t] *)
Definition ParseUint (text : str) (base : N) : option N :=
  let text := Trim text in
  if text == [] then None
  else digits_val base 0 text ≫= λ v, if (v <? u64_range)%N then Some v else None.

Definition HexEncode (bytes : str) : str :=
  foldl (λ out b, out ++ [digit_chr (byte_val b / 16); digit_chr (byte_val b mod 16)]) [] bytes.

(** ** Hashing *)

(** the bytes a [Hasher] has been fed so far *)
Abbreviation hasher := str (only parsing).

Definition Update (h : hasher) (data : str) : hasher := h ++ data.
Definition Field (h : hasher) (data : str) : hasher :=
  Update (Update h (to_string (length data) ++ ":")) data.

Definition kDigestBytes : nat := 16.

Section Digest.
(** BLAKE3 with an output of 16 bytes *)
Context (blake3 : str → str).

Definition Finish (h : hasher) : str := HexEncode (take kDigestBytes (blake3 h)).
Definition HashOf (data : str) : str := Finish (Update [] data).
End Digest.

(** the stream of a sequence of fields *)
Definition fields (fs : list str) : hasher := foldl Field [] fs.

(** ** Properties *)

(** *** reading *)

Lemma k_read_spec n k got k' :
  k_read n k = (Some got, k') →
  got ++ k_rest k' = k_rest k ∧ length got ≤ n ∧ (0 < n → got = [] → k_rest k = []) ∧
  (Forall is_Some (k_caps k) → Forall is_Some (k_caps k')).
Proof.
  destruct k as [rest [|[c|] caps]]; unfold k_read; simpl; intros [= <- <-]; simpl.
  - rewrite take_drop, length_take. split_and!; [done|lia| |done].
    destruct n, rest; simpl; [lia..|done|done].
  - rewrite take_drop, length_take. split_and!; [done|lia| |by intros [? ?]%Forall_cons].
    destruct n, rest; simpl; [lia..|done|done].
Qed.

Lemma read_fill_spec fuel capacity out k out' failed k' :
  capacity < length out + fuel →
  read_fill fuel capacity out k = (out', failed, k') →
  out' ++ k_rest k' = out ++ k_rest k ∧
  (failed = false → capacity ≤ length out' ∨ k_rest k' = []) ∧
  (Forall is_Some (k_caps k) → failed = false ∧ Forall is_Some (k_caps k')).
Proof.
  revert out k. induction fuel as [|fuel IH]; intros out k Hf; simpl.
  { intros [= <- <- <-]. split_and!; auto. intros _. left. lia. }
  destruct (length out <? capacity)%nat eqn:Hlt; bool_prop.
  2: { intros [= <- <- <-]. split_and!; auto. }
  destruct (k_read (capacity - length out) k) as [[got|] k1] eqn:Hr.
  - apply k_read_spec in Hr as (Happ & Hlen & Hemp & Hcaps).
    destruct got as [|b got].
    + intros [= <- <- <-]. simpl in Happ. rewrite Happ. split_and!; [done| |naive_solver].
      intros _. right. apply Hemp; [lia|done].
    + intros Hrec. apply IH in Hrec as (Ho & Hd & Hc).
      * split_and!; [by rewrite Ho, <-Happ, <-app_assoc|done|naive_solver].
      * rewrite length_app. simpl. lia.
  - intros [= <- <- <-]. destruct k as [rest [|[c|] caps]]; unfold k_read in Hr; simplify_eq/=.
    split_and!; [done|done|]. intros [[? ?] _]%Forall_cons. done.
Qed.

Lemma read_grow_spec fuel want out k res failed :
  length (k_rest k) < fuel → length out < want →
  read_grow fuel want out false k = (res, failed) →
  (failed = false → res = out ++ k_rest k) ∧ (Forall is_Some (k_caps k) → failed = false).
Proof.
  revert want out k. induction fuel as [|fuel IH]; intros want out k Hf Hw; [lia|]. cbn [read_grow].
  destruct (read_fill (S want) want out k) as [[out' failed'] k'] eqn:Hfill.
  apply read_fill_spec in Hfill as (Happ & Hdone & Hcaps); [|lia].
  destruct (length out' <? want)%nat eqn:Hlt; bool_prop.
  - intros [= <- <-]. split; [|naive_solver]. intros Hff.
    destruct (Hdone Hff) as [?|Hnil]; [lia|]. by rewrite <-Happ, Hnil, app_nil_r.
  - destruct failed'.
    { destruct fuel; cbn [read_grow]; intros [= <- <-]; split; naive_solver. }
    intros Hrec. apply IH in Hrec as [Hres Hfail].
    + rewrite <-Happ. naive_solver.
    + apply (f_equal length) in Happ. rewrite !length_app in Happ. lia.
    + unfold kReadChunk. pose proof (Nat.pow_nonzero 2 16). lia.
Qed.

Lemma ReadFile_spec k known :
  (∀ s, ReadFile (Some (k, known)) = Some s → s = k_rest k) ∧
  (Forall is_Some (k_caps k) → ReadFile (Some (k, known)) = Some (k_rest k)).
Proof.
  unfold ReadFile.
  set (want := if (0 <? known)%nat then known + 1 else kReadChunk).
  destruct (read_grow _ want [] false k) as [out failed] eqn:E.
  apply read_grow_spec in E as [Hres Hfail]; [|lia|].
  - destruct failed; [naive_solver|]. split; [intros s [= <-]; auto|intros _; f_equal; auto].
  - subst want. destruct (0 <? known)%nat; simpl; [lia|].
    unfold kReadChunk. pose proof (Nat.pow_nonzero 2 16). lia.
Qed.

(** *** numbers *)

Lemma drop_while_digits base s :
  Forall (λ c, is_digit base c = true) s → is_digit base " " = false → is_digit base chr_tab = false →
  drop_while is_sp_tab s = s.
Proof.
  intros Hd Hs Ht. destruct Hd as [|c s Hc]; [done|]. simpl.
  unfold is_sp_tab. rewrite !bool_decide_eq_false_2; [done|intros ->; congruence..].
Qed.

Lemma Trim_digits base s :
  Forall (λ c, is_digit base c = true) s → is_digit base " " = false → is_digit base chr_tab = false →
  Trim s = s.
Proof.
  intros Hd Hs Ht. unfold Trim. rewrite (drop_while_digits base s) by done.
  rewrite (drop_while_digits base (rev s)) by (done || by apply Forall_rev).
  apply rev_involutive.
Qed.

Lemma ParseUint_fmt base n :
  (2 ≤ base ≤ 36)%N → (n < u64_range)%N → ParseUint (fmt_uint base n) base = Some n.
Proof.
  intros Hb Hn. destruct (fmt_uint_spec base n Hb) as (Hne & Hall & Hval).
  unfold ParseUint. rewrite (Trim_digits base) by done.
  rewrite bool_decide_eq_false_2, Hval by done. simpl.
  by replace (n <? u64_range)%N with true by (symmetry; apply N.ltb_lt; lia).
Qed.

Lemma ParseUint_range text base n : ParseUint text base = Some n → (n < u64_range)%N.
Proof.
  unfold ParseUint. case_bool_decide; [done|].
  destruct (digits_val base 0 (Trim text)) as [v|]; simpl; [|done].
  destruct (v <? u64_range)%N eqn:E; [|done]. intros [= ->]. by bool_prop.
Qed.

(** *** hex *)

Lemma HexEncode_concat bytes :
  HexEncode bytes =
    concat (map (λ b, [digit_chr (byte_val b / 16); digit_chr (byte_val b mod 16)]) bytes).
Proof.
  unfold HexEncode.
  assert (H : ∀ acc, foldl (λ out b, out ++ [digit_chr (byte_val b / 16); digit_chr (byte_val b mod 16)])
     acc bytes = acc ++ concat (map (λ b, [digit_chr (byte_val b / 16); digit_chr (byte_val b mod 16)]) bytes)).
  { induction bytes as [|b bs IH]; intros acc; cbn [foldl map concat]; [by rewrite app_nil_r|].
    rewrite IH, <-app_assoc. done. }
  apply H.
Qed.

Lemma HexEncode_length bytes : length (HexEncode bytes) = 2 * length bytes.
Proof.
  rewrite HexEncode_concat. induction bytes as [|b bs IH]; [done|]. simpl in *. lia.
Qed.

Lemma digit_chr_inj d e : (d < 36)%N → (e < 36)%N → digit_chr d = digit_chr e → d = e.
Proof.
  intros Hd He H. apply (f_equal (digit_val 36)) in H.
  rewrite !digit_val_chr in H by lia. congruence.
Qed.

Lemma HexEncode_inj a b : HexEncode a = HexEncode b → a = b.
Proof.
  rewrite !HexEncode_concat. revert b.
  induction a as [|x a IH]; intros [|y b]; cbn [map concat app]; try done.
  intros [= H1 H2 H3]. f_equal; [|by apply IH].
  pose proof (byte_val_range x). pose proof (byte_val_range y).
  apply digit_chr_inj in H1; [|apply N.Div0.div_lt_upper_bound; lia..].
  apply digit_chr_inj in H2; [|pose proof (N.mod_lt (byte_val x) 16); lia
                              |pose proof (N.mod_lt (byte_val y) 16); lia].
  apply byte_val_inj. rewrite (N.Div0.div_mod (byte_val x) 16), (N.Div0.div_mod (byte_val y) 16). lia.
Qed.

(** *** the field stream *)

Lemma fields_concat fs :
  fields fs = concat (map (λ d, to_string (length d) ++ ":" ++ d) fs).
Proof.
  unfold fields.
  assert (H : ∀ acc, foldl Field acc fs = acc ++ concat (map (λ d, to_string (length d) ++ ":" ++ d) fs)).
  { induction fs as [|d fs IH]; intros acc; cbn [foldl map concat]; [by rewrite app_nil_r|].
    rewrite IH. unfold Field, Update. by rewrite <-!app_assoc. }
  apply H.
Qed.

Lemma colon_not_in_numeral n : ":"%char ∉ to_string n.
Proof. by apply fmt_uint_not_in. Qed.

Lemma fields_inj fs gs : fields fs = fields gs → fs = gs.
Proof.
  rewrite !fields_concat. revert gs.
  induction fs as [|d fs IH]; intros [|e gs]; cbn [map concat]; try done.
  - intros H%(f_equal length). rewrite !length_app in H.
    pose proof (fmt_uint_spec 10 (N.of_nat (length e))) as [Hne _]; [lia|].
    unfold to_string in H. destruct (fmt_uint _ _); [done|simpl in H; lia].
  - intros H%(f_equal length). rewrite !length_app in H.
    pose proof (fmt_uint_spec 10 (N.of_nat (length d))) as [Hne _]; [lia|].
    unfold to_string in H. destruct (fmt_uint _ _); [done|simpl in H; lia].
  - rewrite <-!app_assoc. change (lit ":") with [":"%char]. cbn [app]. intros H.
    apply app_sep_inj in H as [Hlen H]; [|apply colon_not_in_numeral..].
    apply to_string_inj in Hlen. apply app_inj_1 in H as [-> H]; [|done].
    f_equal. by apply IH.
Qed.

(** *** Split, Join, ReplaceAll *)

Lemma pieces_find sep s :
  pieces sep s =
    match find [sep] s with
    | None => [s]
    | Some i => take i s :: pieces sep (drop (S i) s)
    end.
Proof.
  destruct (find [sep] s) as [i|] eqn:E.
  - apply find_Some_app in E as (a & b & -> & <- & Hmin).
    cbn [app]. rewrite take_app_length, pieces_app.
    + f_equal. by rewrite drop_app_ge, Nat.sub_succ_l, Nat.sub_diag by lia.
    + intros (a1 & a2 & ->)%list_elem_of_split. specialize (Hmin (length a1)).
      rewrite <-app_assoc, drop_app_length in Hmin. simpl in Hmin.
      rewrite bool_decide_eq_true_2 in Hmin by done.
      discriminate Hmin. rewrite length_app. simpl. lia.
  - by apply pieces_free, find_chr_None.
Qed.

Definition keep (keep_empty : bool) (ps : list str) : list str :=
  if keep_empty then ps else List.filter nonempty ps.

Lemma split_loop_pieces fuel pre rest sep k out :
  length rest < fuel →
  split_loop fuel (pre ++ rest) sep k (length pre) out = out ++ keep k (pieces sep rest) .
Proof.
  revert pre rest out. induction fuel as [|fuel IH]; intros pre rest out Hf; [lia|].
  cbn [split_loop]. rewrite (proj2 (Nat.leb_le _ _)) by (rewrite length_app; lia).
  unfold find_chr. rewrite find_from_app, pieces_find.
  assert (Hkeep : ∀ p, (if k || (length pre <? length pre + length p)%nat then out ++ [p] else out)
                       = out ++ keep k [p]).
  { intros p. unfold keep. destruct k; [done|]. simpl. unfold nonempty.
    destruct p as [|x p]; simpl; [by rewrite Nat.add_0_r, Nat.ltb_irrefl, app_nil_r|].
    by rewrite (proj2 (Nat.ltb_lt _ _)) by lia. }
  assert (Hcons : ∀ p ps, keep k (p :: ps) = keep k [p] ++ keep k ps).
  { intros p ps. unfold keep. destruct k; [done|]. simpl. by destruct (nonempty p). }
  unfold substr. destruct (find [sep] rest) as [i|] eqn:E; simpl; unfold id.
  - pose proof (find_bound _ _ _ E) as Hb. simpl in Hb. specialize (Hkeep (take i rest)).
    rewrite length_take_le in Hkeep by lia.
    replace (length pre + i - length pre) with i by lia.
    rewrite drop_app_length, Hkeep, (Hcons _ (pieces _ _)), (app_assoc out).
    replace (length pre + i + 1) with (length (pre ++ take (S i) rest))
      by (rewrite length_app, length_take; lia).
    rewrite <-(take_drop (S i) rest) at 1. rewrite app_assoc.
    apply IH. rewrite length_drop. lia.
  - rewrite length_app.
    replace (length pre + length rest - length pre) with (length rest) by lia.
    rewrite drop_app_length, take_ge, Hkeep by lia.
    destruct fuel; [done|]. cbn [split_loop]. rewrite (proj2 (Nat.leb_gt _ _)); [done|].
    rewrite length_app. lia.
Qed.

Lemma Split_pieces text sep k : Split text sep k = keep k (pieces sep text).
Proof. unfold Split. apply (split_loop_pieces _ [] text); lia. Qed.

Lemma Join_unpieces sep ps : Forall (λ p, p ≠ []) ps → Join ps sep = unpieces sep ps.
Proof.
  intros H. unfold Join. set (f := λ (out part : str), (if out == [] then out else out ++ sep) ++ part).
  assert (Hacc : ∀ qs, Forall (λ p, p ≠ []) qs → ∀ acc, acc ≠ [] →
    foldl f acc qs = acc ++ (if qs == [] then [] else sep ++ unpieces sep qs)).
  { induction 1 as [|q qs Hq _ IH]; intros acc Hne; [by rewrite app_nil_r|].
    cbn [foldl]. unfold f at 2. rewrite (bool_decide_eq_false_2 (acc = [])) by done.
    rewrite IH by (by destruct acc). rewrite (bool_decide_eq_false_2 (q :: qs = [])) by done.
    rewrite <-!app_assoc. f_equal. f_equal. case_bool_decide as E; [subst; by rewrite app_nil_r|].
    by destruct qs. }
  destruct H as [|p ps Hp Hps]; [done|]. cbn [foldl]. unfold f at 2.
  rewrite bool_decide_eq_true_2 by done. cbn [app]. rewrite Hacc by done.
  case_bool_decide as E; [subst; by rewrite app_nil_r|]. by destruct ps.
Qed.

Lemma ReplaceAll_subst text from rep :
  from ≠ [] → ReplaceAll text from rep = subst from rep text.
Proof.
  intros Hf. unfold ReplaceAll. rewrite bool_decide_eq_false_2 by done.
  apply (replace_loop_subst from rep [] text); [done|lia].
Qed.

(** *** response files *)

(** a word as GNU quoting writes it: between double quotes, every character escaped *)
Definition gnu_quote (w : str) : str :=
  chr_quot :: concat (map (λ c, [chr_bslash; c]) w) ++ [chr_quot].

Lemma tok_loop_escaped out word rest w :
  tok_loop (TokState out word true (Some chr_quot)) (concat (map (λ c, [chr_bslash; c]) w) ++ rest)
  = tok_loop (TokState out (word ++ w) true (Some chr_quot)) rest.
Proof.
  revert word; induction w as [|c w IH]; intros word; [by rewrite app_nil_r|].
  cbn [map concat app tok_loop]. rewrite bool_decide_eq_true_2 by done.
  unfold tok_literal. cbn [tk_out tk_word tk_quote]. rewrite IH. by rewrite <-app_assoc.
Qed.

Lemma tok_loop_quoted out w rest :
  tok_loop (TokState out [] false None) (gnu_quote w ++ rest) = tok_loop (TokState out w true None) rest.
Proof.
  unfold gnu_quote. cbn [app]. rewrite <-app_assoc. cbn [tok_loop].
  change (chr_quot == chr_bslash) with false. cbn iota.
  change (tok_char (TokState out [] false None) chr_quot)
    with (TokState out [] true (Some chr_quot)).
  rewrite tok_loop_escaped. cbn [app tok_loop].
  change (chr_quot == chr_bslash) with false. cbn iota. unfold tok_char. cbn [tk_quote tk_out tk_word tk_in_word].
  by rewrite bool_decide_eq_true_2.
Qed.

Lemma tok_loop_words out ws :
  ws ≠ [] →
  ∃ w ws', tok_loop (TokState out [] false None) (unpieces " " (map gnu_quote ws))
             = TokState (out ++ ws') w true None ∧ ws = ws' ++ [w].
Proof.
  revert out. induction ws as [|w ws IH]; intros out Hne; [done|].
  destruct (decide (ws = [])) as [->|Hws].
  - exists w, []. cbn [map unpieces]. rewrite <-(app_nil_r (gnu_quote w)), tok_loop_quoted.
    by rewrite app_nil_r.
  - destruct (IH (out ++ [w]) Hws) as (v & ws' & Heq & ->).
    exists v, (w :: ws'). split; [|done].
    rewrite <-app_assoc in Heq. cbn [app] in Heq. rewrite <-Heq.
    cbn [map]. destruct (map gnu_quote (ws' ++ [v])) as [|q qs] eqn:E; [by destruct ws'|].
    cbn [unpieces]. rewrite tok_loop_quoted. done.
Qed.

Lemma TokenizeGnu_quoted ws : TokenizeGnu (unpieces " " (map gnu_quote ws)) = ws.
Proof.
  destruct (decide (ws = [])) as [->|Hne]; [done|]. unfold TokenizeGnu.
  destruct (tok_loop_words [] ws Hne) as (w & ws' & -> & ->). done.
Qed.

(** *** the atomic write *)

Lemma rfind_slash_None p : rfind "/" p = None ↔ chr_slash ∉ p.
Proof.
  change (lit "/") with [chr_slash]. induction p as [|c p IH]; cbn [rfind].
  { split; [set_solver|done]. }
  destruct (rfind [chr_slash] p) as [j|] eqn:F.
  - split; [done|]. intros H. assert (chr_slash ∉ p) by set_solver. by apply IH in H0.
  - simpl. rewrite andb_true_r. case_bool_decide as E.
    + subst. set_solver.
    + split; [|done]. intros _. apply not_elem_of_cons. split; [done|]. by apply IH.
Qed.

Lemma filename_no_slash p : chr_slash ∉ p → filename p = p.
Proof. intros H. unfold filename. by rewrite (proj2 (rfind_slash_None p)). Qed.

Lemma filename_suffix r b : chr_slash ∉ b → filename (r ++ chr_slash :: b) = b.
Proof.
  intros Hb. unfold filename.
  assert (rfind "/" (r ++ chr_slash :: b) = Some (length r)) as ->.
  { induction r as [|c r IH]; cbn [app rfind length]; [|by rewrite IH].
    by rewrite (proj2 (rfind_slash_None b)). }
  replace (S (length r)) with (length (r ++ [chr_slash])) by (rewrite length_app; simpl; lia).
  change (r ++ chr_slash :: b) with (r ++ [chr_slash] ++ b). by rewrite app_assoc, drop_app_length.
Qed.

Lemma filename_has_no_slash p : chr_slash ∉ filename p.
Proof.
  unfold filename. destruct (rfind "/" p) as [i|] eqn:E; [|by apply rfind_slash_None].
  revert i E. induction p as [|c p IH]; intros i; cbn [rfind]; [done|].
  destruct (rfind "/" p) as [j|] eqn:F; [intros [= <-]; by apply (IH j)|].
  case_match; [intros [= <-]|done]. simpl. rewrite drop_0. by apply rfind_slash_None.
Qed.

(** the temporary file never is the file itself: its last component is longer *)
Lemma tmp_path_ne pid path : tmp_path pid path ≠ path.
Proof.
  unfold tmp_path. set (base := lit ".jig" ++ to_string pid ++ "." ++ filename path).
  assert (Hbase : chr_slash ∉ base).
  { subst base. rewrite !not_elem_of_app. split_and!; [|by apply fmt_uint_not_in| |apply filename_has_no_slash].
    - change (lit ".jig") with ["."; "j"; "i"; "g"]%char. set_solver.
    - change (lit ".") with ["."]%char. set_solver. }
  assert (Hrel : is_absolute base = false) by done.
  intros Heq. apply (f_equal (length ∘ filename)) in Heq. simpl in Heq.
  assert (filename (parent_path path /p/ base) = base) as Hf.
  { unfold path_append. rewrite Hrel. destruct (parent_path path) as [|c q _] using rev_ind.
    - simpl. by apply filename_no_slash.
    - rewrite bool_decide_eq_false_2 by (by destruct q). cbn [orb].
      change (lit "/") with [chr_slash].
      rewrite ends_with_snoc. case_bool_decide.
      + subst. rewrite <-app_assoc. by apply filename_suffix.
      + cbn [app]. by apply filename_suffix. }
  rewrite Hf in Heq. subst base. rewrite !length_app in Heq. simpl in Heq. lia.
Qed.

(** ** Theorems *)

(** The bytes a [Hasher] is fed determine the sequence of fields: no byte inside a field can
    fake a boundary between fields, so two requests that differ in any field, or in how the same
    bytes are divided into fields, feed different streams to BLAKE3. *)
Theorem Hasher_fields_injective (fs gs : list str) : fields fs = fields gs → fs = gs.
Proof. apply fields_inj. Qed.

Lemma Hasher_fields_injective_witness :
  fields [lit "ab"; lit "1:c"] = lit "2:ab3:1:c" ∧
  ∀ gs, fields gs = lit "2:ab3:1:c" → gs = [lit "ab"; lit "1:c"].
Proof.
  split; [vm_compute; reflexivity|].
  intros gs H. symmetry. apply (Hasher_fields_injective [lit "ab"; lit "1:c"] gs).
  rewrite H. vm_compute. reflexivity.
Defined.

(** [ReadFile] delivers the whole file or nothing. Whatever [fstat] said about the size, and
    however [read] cuts its answers short, a result is the complete content; if no [read] fails
    there is a result. *)
Theorem ReadFile_whole_or_nothing (k : kernel) (known : nat) :
  (∀ s, ReadFile (Some (k, known)) = Some s → s = k_rest k) ∧
  (Forall is_Some (k_caps k) → ReadFile (Some (k, known)) = Some (k_rest k)).
Proof. apply ReadFile_spec. Qed.

Lemma ReadFile_whole_or_nothing_witness :
  ReadFile (Some (Kernel "hello world" [Some 2; Some 0], 3)) = Some (lit "hello world") ∧
  ReadFile (Some (Kernel "hello world" [Some 2; None], 3)) = None.
Proof.
  split; [|vm_compute; reflexivity].
  apply (proj2 (ReadFile_whole_or_nothing (Kernel "hello world" [Some 2; Some 0]) 3)).
  repeat constructor; by eexists.
Defined.

Lemma WriteFile_spec (pid : nat) (path data : str) (faults : write_faults) (fs : filesystem)
    (trace : list filesystem) (ok : bool) :
  WriteFile pid path data faults fs = (trace, ok) →
  (∀ s, s ∈ trace → s !! path = fs !! path ∨ s !! path = Some data) ∧
  (∃ s, last trace = Some s ∧ s !! path = if ok then Some data else fs !! path) ∧
  (∀ s q, s ∈ trace → q ≠ path → q ≠ tmp_path pid path → s !! q = fs !! q).
Proof.
  pose proof (tmp_path_ne pid path) as Hne. unfold WriteFile.
  set (tmp := tmp_path pid path) in *.
  destruct (open_fails faults); [|destruct (short_write faults); [|destruct (rename_fails faults)]];
    intros [= <- <-]; (split_and!; [apply list.Forall_forall|eexists; split; [reflexivity|]|]);
    try (intros s q Hs Hq Ht; revert s Hs; apply list.Forall_forall);
    rewrite ?Forall_cons; split_and?; try apply Forall_nil_2;
    rewrite ?lookup_insert_eq, ?lookup_insert_ne, ?lookup_delete_ne by done; auto.
Qed.

(** the file system [WriteFile] leaves behind *)
Definition written (pid : nat) (path data : str) (faults : write_faults) (fs : filesystem) : filesystem :=
  default fs (last (WriteFile pid path data faults fs).1).

Lemma written_ok pid path data fs : written pid path data (WriteFaults false None false) fs !! path = Some data.
Proof. unfold written. cbn. by rewrite lookup_insert_eq. Qed.

(** C35. [WriteFile] is atomic for readers of the target: in every state on the way, whichever
    step fails, the target holds its old content or all of the new data, never a part. It ends
    with the new data exactly when it reports success, and no file but the target and the
    temporary is touched. *)
Theorem WriteFile_atomic (pid : nat) (path data : str) (faults : write_faults) (fs : filesystem)
    (trace : list filesystem) (ok : bool) :
  WriteFile pid path data faults fs = (trace, ok) →
  (∀ s, s ∈ trace → s !! path = fs !! path ∨ s !! path = Some data) ∧
  (∃ s, last trace = Some s ∧ s !! path = if ok then Some data else fs !! path) ∧
  (∀ s q, s ∈ trace → q ≠ path → q ≠ tmp_path pid path → s !! q = fs !! q).
Proof. apply WriteFile_spec. Qed.

Lemma WriteFile_atomic_witness :
  ∃ trace, WriteFile 7 "/t/x.o" "new" (WriteFaults false None false) {[ lit "/t/x.o" := lit "old" ]} = (trace, true) ∧
    Forall (λ s, s !! lit "/t/x.o" = Some (lit "old") ∨ s !! lit "/t/x.o" = Some (lit "new")) trace.
Proof.
  eexists. split; [reflexivity|]. apply list.Forall_forall. intros s Hs.
  destruct (WriteFile_atomic 7 "/t/x.o" "new" (WriteFaults false None false)
              {[ lit "/t/x.o" := lit "old" ]} _ true eq_refl) as [H _].
  exact (H s Hs).
Defined.

(** [Split] is the textbook split: it returns the pieces between the separators, all of them
    when [keep_empty] is set and the non-empty ones otherwise; splitting what [Join] made of
    non-empty parts without separators gives the parts back. *)
Theorem Split_Join_pieces (text : str) (sep : ascii) (keep_empty : bool) (parts : list str) :
  Split text sep keep_empty =
    (if keep_empty then pieces sep text else List.filter nonempty (pieces sep text)) ∧
  (Forall (λ p, p ≠ [] ∧ sep ∉ p) parts → Split (Join parts [sep]) sep false = parts).
Proof.
  split; [apply Split_pieces|]. intros H. rewrite Split_pieces.
  assert (H1 : Forall (λ p, p ≠ []) parts) by (eapply Forall_impl; [exact H|naive_solver]).
  rewrite Join_unpieces by done. destruct (decide (parts = [])) as [->|Hne]; [done|].
  rewrite pieces_unpieces; [|done|eapply Forall_impl; [exact H|naive_solver]].
  unfold keep. clear -H1. induction H1 as [|p ps Hp _ IH]; [done|]. simpl. unfold nonempty at 1.
  rewrite bool_decide_eq_false_2 by done. simpl. by rewrite IH.
Qed.

Lemma Split_Join_pieces_witness :
  Split (Join [lit "/a/lib"; lit "$ORIGIN/../b"] ":") ":" false = [lit "/a/lib"; lit "$ORIGIN/../b"].
Proof.
  apply (proj2 (Split_Join_pieces [] ":" false [lit "/a/lib"; lit "$ORIGIN/../b"])).
  repeat constructor; vm_compute; try done; set_solver.
Defined.

(** Response files lose nothing: any argument list, written to a file with GNU quoting (every
    word in double quotes, every character escaped, words separated by a space), comes back from
    the tokenizer word for word, blanks, quotes, backslashes and empty words included. *)
Theorem TokenizeGnu_roundtrip (ws : list str) : TokenizeGnu (unpieces " " (map gnu_quote ws)) = ws.
Proof. apply TokenizeGnu_quoted. Qed.
