(* ===== verification/Handles.v ===== *)
(** * base.h, base.cc: UniqueFd, and the environment

    Who owns a file descriptor. The operations of the class are functions on its one field; a program is a
    sequence of them on named objects, with the kernel's table of open descriptors beside. [Env] and [OnPath]
    close the file. *)

From S2P Require Import Prelude Paths Base.

(** ** The class *)

(** [fd_] of an object that owns nothing *)
Definition kNone : Z := -1.
Definition valid (fd : Z) : bool := (0 <=? fd)%Z.

(** the value returned, and [fd_] afterwards *)
Definition Release (fd : Z) : Z * Z := (fd, kNone).
(** the descriptors closed, and [fd_] afterwards *)
Definition Reset (fd raw_fd : Z) : list Z * Z := (if valid fd then [fd] else [], raw_fd).
(** [operator=(UniqueFd&&)]: what is closed, both fields afterwards; [same]: [this == &other] *)
Definition MoveAssign (same : bool) (self other : Z) : list Z * Z * Z :=
  if same then ([], self, other)
  else
    let '(raw, other) := Release other in
    let '(closed, self) := Reset self raw in (closed, self, other).
Definition Destroy (fd : Z) : list Z := (Reset fd kNone).1.

(** ** Programs *)

(** [raw_fd] is what a call such as open(2) has just returned, or what [Release] gave away *)
Inductive op :=
| New (x : nat)                        (* UniqueFd x; *)
| Own (x : nat) (raw_fd : Z)           (* UniqueFd x(raw_fd); *)
| MoveNew (x y : nat)                  (* UniqueFd x(std::move(y)); *)
| Assign (x y : nat)                   (* x = std::move(y); *)
| ReleaseOf (x : nat)                  (* x.Release() *)
| ResetOf (x : nat) (raw_fd : Z)       (* x.Reset(raw_fd) *)
| Leave (x : nat).                     (* end of the scope of x *)

(** the objects, the descriptors that are open, those that were released to the caller, and whether a
    descriptor was closed that was not open *)
Record heap := Heap { objects : gmap nat Z; is_open : gset Z; loose : gset Z; bad_close : bool }.
Definition empty_heap : heap := Heap ∅ ∅ ∅ false.

Definition close (fd : Z) (h : heap) : heap :=
  Heap (objects h) (is_open h ∖ {[fd]}) (loose h) (bad_close h || negb (bool_decide (fd ∈ is_open h))).
Definition close_all (fds : list Z) (h : heap) : heap := foldl (λ h fd, close fd h) h fds.
Definition set_object (x : nat) (fd : Z) (h : heap) : heap := Heap (<[x := fd]> (objects h)) (is_open h) (loose h) (bad_close h).
Definition drop_object (x : nat) (h : heap) : heap := Heap (delete x (objects h)) (is_open h) (loose h) (bad_close h).

(** a descriptor comes in: one that nobody has, an error, or one that was released *)
Definition arrives (fd : Z) (h : heap) : option heap :=
  if negb (valid fd) then Some h
  else if bool_decide (fd ∈ loose h) then Some (Heap (objects h) (is_open h) (loose h ∖ {[fd]}) (bad_close h))
  else if bool_decide (fd ∈ is_open h) then None
  else Some (Heap (objects h) (is_open h ∪ {[fd]}) (loose h) (bad_close h)).

(** nothing for a program that the compiler refuses (an object used before its definition or defined twice), or
    a descriptor from nowhere *)
Definition step (h : heap) (o : op) : option heap :=
  match o with
  | New x => match objects h !! x with None => Some (set_object x kNone h) | Some _ => None end
  | Own x raw => match objects h !! x with None => set_object x raw <$> arrives raw h | Some _ => None end
  | MoveNew x y =>
      match objects h !! x, objects h !! y with
      | None, Some fy => let '(raw, fy) := Release fy in Some (set_object x raw (set_object y fy h))
      | _, _ => None
      end
  | Assign x y =>
      match objects h !! x, objects h !! y with
      | Some fx, Some fy =>
          let '(closed, fx, fy) := MoveAssign (x =? y)%nat fx fy in Some (set_object x fx (set_object y fy (close_all closed h)))
      | _, _ => None
      end
  | ReleaseOf x =>
      match objects h !! x with
      | Some fx =>
          let '(raw, fx) := Release fx in
          Some (set_object x fx (Heap (objects h) (is_open h) (if valid raw then loose h ∪ {[raw]} else loose h) (bad_close h)))
      | None => None
      end
  | ResetOf x raw =>
      match objects h !! x with
      | Some fx => h ← arrives raw h; let '(closed, fx) := Reset fx raw in Some (set_object x fx (close_all closed h))
      | None => None
      end
  | Leave x => match objects h !! x with Some fx => Some (drop_object x (close_all (Destroy fx) h)) | None => None end
  end.
Fixpoint run_ops (h : heap) (os : list op) : option heap :=
  match os with [] => Some h | o :: os => h ← step h o; run_ops h os end.

(** ** The environment *)

(** [Env] *)
Definition Env (getenv : str → option str) (name fallback : str) : str := default fallback (getenv name).

(** [OnPath]: the first [name] in a directory of $PATH; the name itself if it has a directory part or is not found *)
Definition OnPath (getenv : str → option str) (exists_ : str → bool) (name : str) : str :=
  if negb (contains_chr name chr_slash) then
    match List.find (λ dir, exists_ (dir /p/ name)) (Split (Env getenv "PATH" []) ":" false) with
    | Some dir => dir /p/ name
    | None => name
    end
  else name.

(** ** Properties *)

(** a command that is found is the first of its name: no earlier directory of $PATH has one *)
Lemma OnPath_first (getenv : str → option str) (exists_ : str → bool) (name path : str) :
  chr_slash ∉ name → getenv "PATH" = Some path →
  (∃ before dir after, Split path ":" false = before ++ dir :: after ∧ exists_ (dir /p/ name) = true ∧
     Forall (λ d, exists_ (d /p/ name) = false) before ∧ OnPath getenv exists_ name = dir /p/ name) ∨
  (Forall (λ d, exists_ (d /p/ name) = false) (Split path ":" false) ∧ OnPath getenv exists_ name = name).
Proof.
  intros Hn Hp. unfold OnPath, Env. rewrite Hp. cbn [default]. unfold id. rewrite (proj2 (contains_chr_false name chr_slash)) by done. cbn [negb].
  induction (Split path ":" false) as [|dir dirs IH]; cbn [List.find]; [right; by split|].
  destruct (exists_ (dir /p/ name)) eqn:E; [left; by exists [], dir, dirs|].
  destruct IH as [(before & d & after & -> & Hd & Hb & Heq)|[Hno Heq]].
  - left. exists (dir :: before), d, after. split_and!; [done..|by constructor|done].
  - right. split; [by constructor|done].
Qed.

(** what an object holds is open and its own; what is open is held by an object or was released; nothing was
    closed that was not open *)
Definition owned (h : heap) : Prop :=
  (∀ x fd, objects h !! x = Some fd → valid fd = true → fd ∈ is_open h ∧ fd ∉ loose h) ∧
  (∀ x y fd, objects h !! x = Some fd → objects h !! y = Some fd → valid fd = true → x = y) ∧
  (∀ fd, fd ∈ is_open h → valid fd = true ∧ (fd ∈ loose h ∨ ∃ x, objects h !! x = Some fd)) ∧
  loose h ⊆ is_open h ∧ bad_close h = false.

(** *** with descriptors in flight: in nobody's field for a moment *)

Definition held (h : heap) (F : gset Z) : Prop :=
  (∀ x fd, objects h !! x = Some fd → valid fd = true → fd ∈ is_open h ∧ fd ∉ loose h ∧ fd ∉ F) ∧
  (∀ x y fd, objects h !! x = Some fd → objects h !! y = Some fd → valid fd = true → x = y) ∧
  (∀ fd, fd ∈ is_open h → valid fd = true ∧ (fd ∈ loose h ∨ fd ∈ F ∨ ∃ x, objects h !! x = Some fd)) ∧
  loose h ⊆ is_open h ∧ loose h ## F ∧ F ⊆ is_open h ∧ bad_close h = false.

Definition in_flight (fd : Z) : gset Z := if valid fd then {[ fd ]} else ∅.

Lemma in_flight_elem fd fd' : fd' ∈ in_flight fd ↔ fd' = fd ∧ valid fd = true.
Proof. unfold in_flight. destruct (valid fd); set_solver. Qed.

Lemma owned_held h : owned h ↔ held h ∅.
Proof.
  split.
  - intros (H1 & H2 & H3 & H4 & H5). split_and!; [|done| |done|set_solver|set_solver|done].
    + intros x fd Hx Hv. destruct (H1 x fd Hx Hv). set_solver.
    + intros fd Hfd. destruct (H3 fd Hfd) as [? [?|?]]; auto.
  - intros (H1 & H2 & H3 & H4 & _ & _ & H5). split_and!; [|done| |done|done].
    + intros x fd Hx Hv. destruct (H1 x fd Hx Hv) as (? & ? & _). done.
    + intros fd Hfd. destruct (H3 fd Hfd) as [? [?|[?|?]]]; [by auto|set_solver|by auto].
Qed.

(** the field is emptied: what it held is in flight *)
Lemma held_take x fx h F : held h F → objects h !! x = Some fx → held (set_object x kNone h) (F ∪ in_flight fx).
Proof.
  intros (H1 & H2 & H3 & H4 & H5 & H6 & H7) Hx. split_and!; cbn [objects is_open loose bad_close set_object]; [| | |done| | |done].
  - intros y fd Hy Hv. destruct (decide (x = y)) as [->|Hne]; [rewrite lookup_insert_eq in Hy; by injection Hy as <-|].
    rewrite lookup_insert_ne in Hy by done. destruct (H1 y fd Hy Hv) as (? & ? & ?). split_and!; [done..|].
    rewrite elem_of_union, in_flight_elem. intros [?|[-> _]]; [done|]. apply Hne. by eapply H2.
  - intros y z fd Hy Hz Hv. destruct (decide (x = y)) as [->|Hy']; [rewrite lookup_insert_eq in Hy; by injection Hy as <-|].
    destruct (decide (x = z)) as [->|Hz']; [rewrite lookup_insert_eq in Hz; by injection Hz as <-|].
    rewrite lookup_insert_ne in Hy, Hz by done. by eapply H2.
  - intros fd Hfd. destruct (H3 fd Hfd) as [Hv Hw]. split; [done|]. rewrite elem_of_union, in_flight_elem.
    destruct Hw as [?|[?|[y Hy]]]; [by left|by right; left; left|].
    destruct (decide (x = y)) as [->|Hne]; [right; left; right; split; congruence|].
    right; right. exists y. by rewrite lookup_insert_ne.
  - intros fd Hl. rewrite elem_of_union, in_flight_elem. intros [?|[-> Hv]]; [by apply (H5 fd)|]. by destruct (H1 x fx Hx Hv) as (_ & ? & _).
  - intros fd. rewrite elem_of_union, in_flight_elem. intros [?|[-> Hv]]; [by apply H6|]. by destruct (H1 x fx Hx Hv).
Qed.

(** an empty field takes what is in flight *)
Lemma held_put x raw h F :
  held h (F ∪ in_flight raw) → raw ∉ F → (∀ fx, objects h !! x = Some fx → valid fx = false) → held (set_object x raw h) F.
Proof.
  intros (H1 & H2 & H3 & H4 & H5 & H6 & H7) HF Hx. split_and!; cbn [objects is_open loose bad_close set_object]; [| | |done| | |done].
  - intros y fd Hy Hv. destruct (decide (x = y)) as [->|Hne].
    + rewrite lookup_insert_eq in Hy. injection Hy as <-. assert (raw ∈ F ∪ in_flight raw) as Hin by (rewrite elem_of_union, in_flight_elem; auto).
      split; [by apply H6|]. split; [|done]. intros Hl. by apply (H5 raw).
    + rewrite lookup_insert_ne in Hy by done. destruct (H1 y fd Hy Hv) as (? & ? & ?). split_and!; [done..|set_solver].
  - intros y z fd Hy Hz Hv.
    assert (Hone : ∀ u v, x = u → x ≠ v → <[x:=raw]> (objects h) !! u = Some fd → <[x:=raw]> (objects h) !! v = Some fd → False).
    { intros u v <- Hne Hu Hv'. rewrite lookup_insert_eq in Hu. rewrite lookup_insert_ne in Hv' by done. injection Hu as <-.
      destruct (H1 v raw Hv' Hv) as (_ & _ & Hno). apply Hno. rewrite elem_of_union, in_flight_elem. auto. }
    destruct (decide (x = y)) as [Ey|Hy'], (decide (x = z)) as [Ez|Hz']; [congruence|by destruct (Hone y z)|by destruct (Hone z y)|].
    rewrite lookup_insert_ne in Hy, Hz by done. by eapply H2.
  - intros fd Hfd. destruct (H3 fd Hfd) as [Hv Hw]. split; [done|]. rewrite elem_of_union, in_flight_elem in Hw.
    destruct Hw as [?|[[?|[-> _]]|[y Hy]]]; [by left|by right; left|right; right; exists x; by rewrite lookup_insert_eq|].
    right; right. destruct (decide (x = y)) as [->|Hne]; [by rewrite (Hx fd Hy) in Hv|]. exists y. by rewrite lookup_insert_ne.
  - set_solver.
  - set_solver.
Qed.

(** what is in flight is closed *)
Lemma held_close fd h F : held h (F ∪ {[ fd ]}) → fd ∉ F → held (close fd h) F.
Proof.
  intros (H1 & H2 & H3 & H4 & H5 & H6 & H7) HF. split_and!; cbn [objects is_open loose bad_close close]; [|done| | | | |].
  - intros y fd' Hy Hv. destruct (H1 y fd' Hy Hv) as (? & ? & ?). set_solver.
  - intros fd' Hfd. destruct (H3 fd') as [Hv Hw]; [set_solver|]. split; [done|]. set_solver.
  - set_solver.
  - set_solver.
  - set_solver.
  - rewrite H7. rewrite bool_decide_eq_true_2 by set_solver. done.
Qed.

Lemma held_arrives fd h F h' : held h F → arrives fd h = Some h' →
  held h' (F ∪ in_flight fd) ∧ (valid fd = true → fd ∉ F) ∧ objects h' = objects h.
Proof.
  intros (H1 & H2 & H3 & H4 & H5 & H6 & H7) Ha. unfold arrives in Ha. unfold in_flight. destruct (valid fd) eqn:Hv; cbn [negb] in Ha.
  2: { injection Ha as <-. split; [|done]. by rewrite union_empty_r_L. }
  assert (valid fd = true → fd ∉ is_open h → fd ∉ F) as Hfresh by (intros _ Hn HF; by apply Hn, H6).
  case_bool_decide as Hl; [|case_bool_decide as Ho; [done|]]; injection Ha as <-.
  - split; [|split; [intros _ HF; by apply (H5 fd)|done]]. split_and!; cbn [objects is_open loose bad_close]; [|done| | | | |done].
    + intros y fd' Hy Hv'. destruct (H1 y fd' Hy Hv') as (? & ? & ?). split; [done|]. split; set_solver.
    + intros fd' Hfd. destruct (H3 fd' Hfd) as [Hv' Hw]. split; [done|]. rewrite elem_of_difference, elem_of_union, elem_of_singleton.
      destruct (decide (fd' = fd)); [by right; left; right|]. destruct Hw as [?|[?|?]]; [by left|by right; left; left|by right; right].
    + set_solver.
    + set_solver.
    + set_solver.
  - split; [|split; [by auto|done]]. split_and!; cbn [objects is_open loose bad_close]; [|done| | | | |done].
    + intros y fd' Hy Hv'. destruct (H1 y fd' Hy Hv') as (? & ? & ?). split; [set_solver|]. split; [done|].
      rewrite elem_of_union, elem_of_singleton. intros [?| ->]; done.
    + intros fd' [Hfd|Hfd%elem_of_singleton]%elem_of_union; [|subst fd'; split; [done|]; right; left; set_solver].
      destruct (H3 fd' Hfd) as [Hv' Hw]. split; [done|]. destruct Hw as [?|[?|?]]; [by left|right; left; set_solver|by right; right].
    + set_solver.
    + set_solver.
    + set_solver.
Qed.

Lemma held_drop x fx h F : held h F → objects h !! x = Some fx → valid fx = false → held (drop_object x h) F.
Proof.
  intros (H1 & H2 & H3 & H4 & H5 & H6 & H7) Hx Hn. split_and!; cbn [objects is_open loose bad_close drop_object]; try done.
  - intros y fd [_ Hy]%lookup_delete_Some. by apply (H1 y).
  - intros y z fd [_ Hy]%lookup_delete_Some [_ Hz]%lookup_delete_Some. by apply (H2 y z fd).
  - intros fd Hfd. destruct (H3 fd Hfd) as [Hv Hw]. split; [done|]. destruct Hw as [?|[?|[y Hy]]]; [by left|by right; left|].
    right; right. exists y. apply lookup_delete_Some. split; [|done]. intros ->. congruence.
Qed.

Lemma held_in_flight h F fd : held h (F ∪ in_flight fd) → fd ∉ F → held (close_all (Destroy fd) h) F.
Proof.
  unfold Destroy, Reset, in_flight. destruct (valid fd); cbn [fst close_all foldl]; intros H HF; [by apply held_close|].
  by rewrite union_empty_r_L in H.
Qed.

Lemma objects_close_all fds h : objects (close_all fds h) = objects h.
Proof. unfold close_all. revert h. induction fds as [|fd fds IH]; intros h; [done|]. cbn [foldl]. by rewrite IH. Qed.

Lemma set_object_close x fd fds h : set_object x fd (close_all fds h) = close_all fds (set_object x fd h).
Proof. unfold close_all. revert h. induction fds as [|f fds IH]; intros h; [done|]. cbn [foldl]. by rewrite IH. Qed.

Lemma set_object_twice x fd fd' h : set_object x fd (set_object x fd' h) = set_object x fd h.
Proof. unfold set_object. cbn [objects is_open loose bad_close]. f_equal. apply insert_insert_eq. Qed.

(** a move or a reset: the object gives up what it had, which is closed, and takes what arrived *)
Lemma held_replace x fx raw h : held h (in_flight raw) → objects h !! x = Some fx →
  held (set_object x raw (close_all (Destroy fx) h)) ∅.
Proof.
  intros H Hx.
  assert (fx ∉ in_flight raw ∨ valid fx = false) as Hout.
  { destruct (valid fx) eqn:E; [left|by right]. destruct H as (H1 & _). by destruct (H1 x fx Hx E) as (_ & _ & ?). }
  pose proof (held_take x fx h _ H Hx) as H1.
  assert (held (close_all (Destroy fx) (set_object x kNone h)) (in_flight raw)) as H2.
  { destruct Hout as [Hout|Hinv]; [by apply held_in_flight|]. unfold Destroy, Reset. rewrite Hinv. cbn [fst close_all foldl].
    unfold in_flight in H1 at 2. by rewrite Hinv, union_empty_r_L in H1. }
  rewrite <-(union_empty_l_L (in_flight raw)) in H2. apply (held_put x raw) in H2; [|set_solver|].
  - by rewrite <-set_object_close, set_object_twice in H2.
  - intros f. rewrite objects_close_all. cbn [set_object objects]. rewrite lookup_insert_eq. by intros [= <-].
Qed.

Lemma held_new x raw h : held h (in_flight raw) → objects h !! x = None → held (set_object x raw h) ∅.
Proof. intros H Hx. apply held_put; [by rewrite union_empty_l_L|set_solver|]. intros fx Hfx. congruence. Qed.

Lemma owned_arrives raw h h' : owned h → arrives raw h = Some h' → held h' (in_flight raw) ∧ objects h' = objects h.
Proof.
  intros H%owned_held Ha. destruct (held_arrives raw h ∅ h' H Ha) as (H1 & _ & H2). by rewrite union_empty_l_L in H1.
Qed.

Lemma owned_take x fx h : owned h → objects h !! x = Some fx → held (set_object x kNone h) (in_flight fx).
Proof. intros H%owned_held Hx. pose proof (held_take x fx h ∅ H Hx) as H1. by rewrite union_empty_l_L in H1. Qed.

Lemma set_object_same x fx h : objects h !! x = Some fx → set_object x fx h = h.
Proof. intros H. destruct h as [o io l b]. unfold set_object. cbn in *. by rewrite insert_id. Qed.

Lemma step_owned h o h' : owned h → step h o = Some h' → owned h'.
Proof.
  intros Hh Hs. apply owned_held. destruct o as [x|x raw|x y|x y|x|x raw|x]; cbn [step] in Hs.
  - destruct (objects h !! x) eqn:Hx; [done|]. injection Hs as <-. apply held_new; [|done]. unfold in_flight. by apply owned_held.
  - destruct (objects h !! x) eqn:Hx; [done|]. destruct (arrives raw h) as [h1|] eqn:Ha; [|done]. injection Hs as <-.
    destruct (owned_arrives raw h h1 Hh Ha) as [H1 Ho]. apply held_new; [done|by rewrite Ho].
  - destruct (objects h !! x) eqn:Hx; [done|]. destruct (objects h !! y) as [fy|] eqn:Hy; [|done]. injection Hs as <-.
    apply held_new; [by apply owned_take|]. cbn [set_object objects]. rewrite lookup_insert_ne; [done|congruence].
  - destruct (objects h !! x) as [fx|] eqn:Hx; [|done]. destruct (objects h !! y) as [fy|] eqn:Hy; [|done].
    unfold MoveAssign in Hs. destruct (Nat.eqb_spec x y) as [->|Hne]; cbn [Release Reset] in Hs.
    + injection Hs as <-. cbn [close_all foldl]. assert (fx = fy) as -> by congruence.
      rewrite set_object_twice, (set_object_same y fy) by exact Hy. by apply owned_held.
    + injection Hs as <-. rewrite set_object_close. apply (held_replace x fx); [by apply owned_take|].
      cbn [set_object objects]. by rewrite lookup_insert_ne.
  - destruct (objects h !! x) as [fx|] eqn:Hx; [|done]. injection Hs as <-.
    pose proof (owned_take x fx h Hh Hx) as (H1 & H2 & H3 & H4 & H5 & H6 & H7). unfold in_flight in *.
    destruct (valid fx) eqn:Hv; [|split_and!; try done; cbn [set_object objects is_open loose bad_close] in *; set_solver].
    split_and!; cbn [set_object objects is_open loose bad_close] in *; [|done| |set_solver|set_solver|set_solver|done].
    + intros y fd Hy Hv'. destruct (H1 y fd Hy Hv') as (? & ? & ?). set_solver.
    + intros fd Hfd. destruct (H3 fd Hfd) as [? Hw]. split; [done|]. destruct Hw as [?|[?|?]]; [left; set_solver|left; set_solver|by right; right].
  - destruct (objects h !! x) as [fx|] eqn:Hx; [|done]. destruct (arrives raw h) as [h1|] eqn:Ha; [|done]. cbn [mbind option_bind] in Hs.
    injection Hs as <-. destruct (owned_arrives raw h h1 Hh Ha) as [H1 Ho]. apply (held_replace x fx); [done|by rewrite Ho].
  - destruct (objects h !! x) as [fx|] eqn:Hx; [|done]. injection Hs as <-.
    assert (held (set_object x kNone (close_all (Destroy fx) h)) ∅) as H1.
    { rewrite set_object_close. apply held_in_flight; [|set_solver]. rewrite union_empty_l_L. by apply owned_take. }
    assert (drop_object x (close_all (Destroy fx) h) = drop_object x (set_object x kNone (close_all (Destroy fx) h))) as ->.
    { unfold drop_object, set_object. cbn [objects is_open loose bad_close]. by rewrite delete_insert_eq. }
    eapply held_drop; [done|cbn [set_object objects]; apply lookup_insert_eq|done].
Qed.

(** C25. UniqueFd owns its descriptor. In every program of definitions, moves, resets and releases, with the
    kernel handing out descriptors nobody has: an object that is valid holds an open descriptor that no other
    object holds and that was not given away; no descriptor is ever closed twice or when it is not open; and
    every open descriptor is held by an object or was released to the caller, so that when the last
    object is gone, what is still open is exactly what was released. *)
Theorem UniqueFd_owns (os : list op) (h : heap) :
  run_ops empty_heap os = Some h →
  (∀ x fd, objects h !! x = Some fd → valid fd = true →
     fd ∈ is_open h ∧ fd ∉ loose h ∧ ∀ y, objects h !! y = Some fd → x = y) ∧
  bad_close h = false ∧ (objects h = ∅ → is_open h = loose h).
Proof.
  assert (∀ os h h', owned h → run_ops h os = Some h' → owned h') as Hrun.
  { clear. induction os as [|o os IH]; intros h h' Hh Hr; cbn [run_ops] in Hr; [by injection Hr as <-|].
    destruct (step h o) as [h1|] eqn:E; [|done]. cbn [mbind option_bind] in Hr. eapply IH; [|done]. by eapply step_owned. }
  intros H. apply (Hrun os empty_heap) in H; [|by split_and!; cbn; set_solver].
  destruct H as (H1 & H2 & H3 & H4 & H5). split_and!; [|done|].
  - intros x fd Hx Hv. destruct (H1 x fd Hx Hv). split_and!; [done..|]. intros y Hy. by apply (H2 x y fd).
  - intros Hno. apply set_eq. intros fd. split; [|apply H4]. intros Hfd. destruct (H3 fd Hfd) as [_ [?|[x Hx]]]; [done|].
    by rewrite Hno, lookup_empty in Hx.
Qed.

(** a socket that is moved, replaced and given away, a file that is closed at the end of its scope *)
Lemma UniqueFd_owns_witness :
  is_open <$> run_ops empty_heap [Own 0 3; New 1; Assign 1 0; Own 2 4; ResetOf 2 5; Assign 1 1; ReleaseOf 1; Leave 2; Leave 1; Leave 0] =
  Some {[ 3%Z ]}.
Proof.
  destruct (run_ops empty_heap _) as [h|] eqn:E; [|vm_compute in E; discriminate E].
  destruct (UniqueFd_owns _ h E) as (_ & _ & H). cbn [fmap option_fmap option_map]. f_equal.
  assert (objects h = ∅ ∧ loose h = {[ 3%Z ]}) as [Ho Hl] by (vm_compute in E; injection E as <-; split; reflexivity).
  rewrite (H Ho). exact Hl.
Defined.
