(* ===== verification/Keys.v ===== *)
(** * keys.h: the cache's vocabulary

    Digests, request and result keys, the server-side slot names and the outcome of an
    invocation. *)

From S2P Require Import Prelude Paths Base.

Inductive Tool := kCc | kRustc.

Inductive Outcome :=
| kHit | kHitFail | kMissStored | kMissStoredFail | kMissFail | kMissUnstored
| kPlainCompile | kPlainLink | kPlainNoSource | kPlainQuery | kPlainNoSocket.

Inductive Language := kC | kCxx | kFortran.
Inductive StderrMode := kInherit | kCapture.

#[global] Instance Tool_eq_dec : EqDecision Tool.
Proof. solve_decision. Defined.
#[global] Instance Outcome_eq_dec : EqDecision Outcome.
Proof. solve_decision. Defined.
#[global] Instance Language_eq_dec : EqDecision Language.
Proof. solve_decision. Defined.

(** k1: what the build system asked for *)
Definition RequestKey (tool : Tool) (digest : str) : str :=
  match tool with kRustc => "rs/" | kCc => [] end ++ digest.

(** k2: k1 and every other input *)
Definition ResultKey (digest : str) : str := digest.

(** which artifact of an entry *)
Inductive slot :=
| Manifest (tool : Tool) (digest : str)
| Object (key : str)
| Stderr (key : str)
| Depfile (key : str)
| ExitStatus (key : str)
| GoAction (action_hex : str)
| GoOutput (output_hex : str).

Definition slot_key (s : slot) : str :=
  match s with
  | Manifest tool digest => "m/" ++ RequestKey tool digest
  | Object key => "o/" ++ key
  | Stderr key => "e/" ++ key
  | Depfile key => "d/" ++ key
  | ExitStatus key => "r/" ++ key
  | GoAction hex => "go/a/" ++ hex
  | GoOutput hex => "go/o/" ++ hex
  end.

Definition OutcomeName (o : Outcome) : str :=
  match o with
  | kHit => "cached"
  | kHitFail => "cached-error"
  | kMissStored => "compiled"
  | kMissStoredFail => "compiled-error"
  | kMissFail => "failed"
  | kMissUnstored => "compiled-unstored"
  | kPlainCompile => "uncacheable"
  | kPlainLink => "linked"
  | kPlainNoSource => "uncacheable-nosrc"
  | kPlainQuery => "query"
  | kPlainNoSocket => "no-daemon"
  end.

(** one line of the log: "<tool>\t<outcome>\t<subject>\t<ms>" *)
Definition LogLine (tool : str) (o : Outcome) (subject : str) (ms : nat) : str :=
  tool ++ [chr_tab] ++ OutcomeName o ++ [chr_tab] ++ subject ++ [chr_tab] ++ to_string ms ++ nl.

(** the digests in a slot name are hex, as only [Hasher] makes them *)
Definition slot_ok (s : slot) : Prop :=
  match s with
  | Manifest _ digest => ∃ bytes, digest = HexEncode bytes
  | _ => True
  end.

(** *** Properties *)

Lemma HexEncode_digits bytes : Forall (λ c, is_digit 16 c = true) (HexEncode bytes).
Proof.
  rewrite HexEncode_concat. induction bytes as [|b bs IH]; [constructor|].
  cbn [map concat app]. pose proof (byte_val_range b).
  assert (Hd : ∀ d, (d < 16)%N → is_digit 16 (digit_chr d) = true).
  { intros d Hd. apply bool_decide_eq_true. rewrite digit_val_chr by lia. by eexists. }
  constructor; [apply Hd, N.Div0.div_lt_upper_bound; lia|].
  constructor; [apply Hd, N.mod_lt; lia|done].
Qed.

Lemma HexEncode_not_in bytes c : is_digit 16 c = false → c ∉ HexEncode bytes.
Proof.
  intros Hc Hin. pose proof (HexEncode_digits bytes) as H. rewrite list.Forall_forall in H.
  rewrite (H c Hin) in Hc. done.
Qed.

Lemma RequestKey_inj t1 t2 b1 b2 :
  RequestKey t1 (HexEncode b1) = RequestKey t2 (HexEncode b2) → t1 = t2 ∧ b1 = b2.
Proof.
  assert (Hr : ∀ b r, HexEncode b ≠ "r"%char :: r).
  { intros b r H. eapply (HexEncode_not_in b "r"%char); [done|]. rewrite H. set_solver. }
  unfold RequestKey. destruct t1, t2; cbn [app]; intros H.
  - split; [done|]. by apply HexEncode_inj.
  - exfalso. eapply Hr. exact H.
  - exfalso. eapply Hr. symmetry. exact H.
  - split; [done|]. apply app_inj_1 in H as [_ H]; [|done]. by apply HexEncode_inj.
Qed.

(** No two artifacts share a key on the server: the name of a slot determines which kind of
    artifact it is, of which front end, and under which digest. *)
Theorem slot_key_injective (s1 s2 : slot) :
  slot_ok s1 → slot_ok s2 → slot_key s1 = slot_key s2 → s1 = s2.
Proof.
  destruct s1, s2; simpl; intros H1 H2 H; try (by simplify_eq/=).
  destruct H1 as [b1 ->], H2 as [b2 ->]. injection H as H.
  apply RequestKey_inj in H as [-> ->]. done.
Qed.

Lemma slot_key_injective_witness :
  slot_key (Manifest kRustc (HexEncode "ab")) = lit "m/rs/6162" ∧
  ∀ s, slot_ok s → slot_key s = lit "m/rs/6162" → s = Manifest kRustc (HexEncode "ab").
Proof.
  split; [vm_compute; reflexivity|]. intros s Hs H.
  apply (slot_key_injective s (Manifest kRustc (HexEncode "ab")) Hs); [by eexists|].
  rewrite H. vm_compute. reflexivity.
Defined.
