(* ===== verification/Store.v ===== *)
(** * store.h, store.cc: how store paths enter cache keys

    The [Store] singleton as a record, its constructor as a function of the environment, and its
    methods. [dir_] is the compile-time [JIG_STORE_DIR]. The file system is a pair of parameters:
    what a path reads as, and what it canonicalises to. *)

From S2P Require Import Prelude Paths Base.

Definition kStoreHashLength : nat := 32.

(** what may follow a store root in a depfile, response file or config text *)
Definition kPathEnds : str :=
  [" "%char; chr_tab; chr_nl; chr_bslash; ":"%char; chr_quot; "'"%char; ";"%char; ","%char;
   ")"%char; "]"%char; "}"%char; ">"%char].

Definition kAlphabet32 : str := "0123456789abcdfghijklmnpqrsvwxyz".

Definition IsStoreHash (text : str) : bool :=
  (length text =? kStoreHashLength)%nat && forallb (contains_chr kAlphabet32) text.

Definition IsStorePath_in (dir path : str) : bool :=
  (length dir <? length path)%nat && starts_with path dir && (path !! length dir == Some chr_slash).

(** the test of [MaskHashes] at the first byte after "<store>/" *)
Definition masks_here (rest : str) : bool :=
  (kStoreHashLength <? length rest)%nat && (rest !! kStoreHashLength == Some "-"%char) &&
  IsStoreHash (take kStoreHashLength rest).

Fixpoint mask_loop (fuel : nat) (prefix : str) (pos : nat) (text : str) : str :=
  match fuel with
  | 0 => text
  | S fuel =>
      match find_from prefix text pos with
      | None => text
      | Some p =>
          let hash_start := p + length prefix in
          let text :=
            if masks_here (drop hash_start text) then replace text hash_start kStoreHashLength "*"
            else text in
          mask_loop fuel prefix (hash_start + 1) text
      end
  end.
Definition MaskHashes_in (dir text : str) : str :=
  mask_loop (S (length text)) (dir ++ "/") 0 text.

Record store := Store {
  dir_ : str;
  by_content_ : bool;
  out_ : str;
  out_hash_ : str;
  masked_to_real_ : list (str * str);  (* an unordered_map: some iteration order *)
  known_ids_ : gmap str str;
}.

(** [unordered_map::emplace] keeps what is already there *)
Definition emplace (k v : str) (m : list (str * str)) : list (str * str) :=
  if bool_decide (k ∈ m.*1) then m else m ++ [(k, v)].

Fixpoint assoc (k : str) (m : list (str * str)) : option str :=
  match m with
  | [] => None
  | (k', v) :: m' => if k == k' then Some v else assoc k m'
  end.

(** "<store>/<hash>-<name>" of "<store>/<hash>-<name>[/…]" *)
Definition store_root (dir root : str) : str :=
  take (Nat.min (length root) (default (length root) (find_chr chr_slash root (length dir + 1)))) root.

Definition add_root (dir : str) (m : list (str * str)) (root : str) : list (str * str) :=
  let root := store_root dir root in
  let masked := MaskHashes_in dir root in
  if masked != root then emplace masked root m else m.

(** [Store::Store], from [JIG_STORE_IDENTITY], [out] and [JIG_STORE_ROOTS] *)
Definition MakeStore (dir identity out roots : str) : store :=
  let by_content := identity == lit "content" in
  if negb by_content then Store dir by_content out [] [] ∅
  else
    let at_hash := length dir + 1 in
    let out_hash :=
      if IsStorePath_in dir out && (at_hash + kStoreHashLength <? length out)%nat &&
         (out !! (at_hash + kStoreHashLength) == Some "-"%char)
      then substr out at_hash kStoreHashLength else [] in
    Store dir by_content out out_hash (foldl (add_root dir) [] (Split roots " " false ++ [out])) ∅.

Definition IsStorePath (st : store) (path : str) : bool := IsStorePath_in (dir_ st) path.
Definition MaskHashes (st : store) (text : str) : str := MaskHashes_in (dir_ st) text.
Definition MaskForReplay (st : store) (text : str) : str :=
  if by_content_ st then MaskHashes st text else text.
(** the state directory next to the store *)
Definition StateDir (st : store) : str :=
  take (default (length (dir_ st)) (rfind "/" (dir_ st))) (dir_ st) ++ "/var/nix".

Definition kOutPlaceholder : str := replicate 32 "e"%char.

Definition SwapOutHash (st : store) (bytes : str) (back : bool) : str :=
  if out_hash_ st == [] then bytes
  else
    let real := dir_ st ++ "/" ++ out_hash_ st ++ "-" in
    let placeholder := dir_ st ++ "/" ++ kOutPlaceholder ++ "-" in
    let from := if back then placeholder else real in
    let into := if back then real else placeholder in
    replace_loop (S (length bytes)) from into 0 bytes.
Definition MaskOut (st : store) (bytes : str) : str := SwapOutHash st bytes false.
Definition UnmaskOut (st : store) (bytes : str) : str := SwapOutHash st bytes true.

Definition is_alnum (c : ascii) : bool :=
  let v := byte_val c in
  ((48 <=? v) && (v <=? 57) || (65 <=? v) && (v <=? 90) || (97 <=? v) && (v <=? 122))%N.

Fixpoint mask_random_loop (fuel : nat) (prefix : str) (width pos : nat) (text : str) : str :=
  match fuel with
  | 0 => text
  | S fuel =>
      match find_from prefix text pos with
      | None => text
      | Some p =>
          let start := p + length prefix in
          if (length text <? start + width)%nat then text
          else
            let tail := substr text start width in
            let text :=
              if forallb is_alnum tail then replace text start width (replicate width "#"%char)
              else text in
            mask_random_loop fuel prefix width start text
      end
  end.
Definition kPatterns : list (str * nat) := [(lit "TryCompile-", 6); (lit "cmTC_", 5)].
Definition MaskRandomNames (text : str) : str :=
  foldl (λ t pat, mask_random_loop (S (length t)) pat.1 pat.2 0 t) text kPatterns.

(** the path inside an argument begins here; [None]: the argument holds no path *)
Definition path_arg_start (arg : str) : option nat :=
  if starts_with arg "-D" || starts_with arg "-U" then None
  else if starts_with arg "--" then S <$> find "=" arg
  else if starts_with arg "-" && (2 <? length arg)%nat && (arg !! 1 != Some "-"%char) then
    match find "=" arg with
    | Some equals => if contains_chr (take equals arg) chr_slash then Some 2 else Some (S equals)
    | None => Some 2
    end
  else if starts_with arg "-" then None
  else Some 0.

Definition NormalizePathArg (arg : str) : str :=
  match path_arg_start arg with
  | None => arg
  | Some start =>
      let value := drop start arg in
      if negb (contains_chr value chr_slash) && negb (starts_with value ".") then arg
      else
        let normal := lexically_normal value in
        let normal :=
          if (1 <? length normal)%nat && ends_with normal "/" then take (length normal - 1) normal
          else normal in
        let normal := if normal == [] then lit "." else normal in
        take start arg ++ normal
  end.

Definition Key (st : store) (arg : str) : str :=
  let key := MaskRandomNames (NormalizePathArg arg) in
  if by_content_ st then MaskHashes st key else key.

Definition Resolve (st : store) (path : str) : option str :=
  if negb (starts_with path (dir_ st ++ "/*-")) then Some path
  else
    let slash := find_chr chr_slash path (length (dir_ st) + 3) in
    match assoc (take (default (length path) slash) path) (masked_to_real_ st) with
    | None => None
    | Some real => Some (real ++ match slash with None => [] | Some i => drop i path end)
    end.

Fixpoint resolve_loop (fuel : nat) (masked real : str) (pos : nat) (text : str) : str :=
  match fuel with
  | 0 => text
  | S fuel =>
      match find_from masked text pos with
      | None => text
      | Some p =>
          let end_ := p + length masked in
          match text !! end_ with
          | Some c =>
              if (c != chr_slash) && negb (contains_chr kPathEnds c) then
                resolve_loop fuel masked real end_ text
              else resolve_loop fuel masked real (p + length real) (replace text p (length masked) real)
          | None => resolve_loop fuel masked real (p + length real) (replace text p (length masked) real)
          end
      end
  end.
Definition ResolveAll (st : store) (text : str) : str :=
  foldl (λ t mr, resolve_loop (S (length t)) mr.1 mr.2 0 t) (MaskHashes st text) (masked_to_real_ st).

Definition DaemonMayIdentify (st : store) (path : str) : bool :=
  let under_out :=
    (out_ st != []) && starts_with path (out_ st) &&
    ((length path =? length (out_ st))%nat || (path !! length (out_ st) == Some chr_slash)) in
  by_content_ st && IsStorePath st path && negb under_out.

Definition RememberIdentity (st : store) (path identity : str) : store :=
  Store (dir_ st) (by_content_ st) (out_ st) (out_hash_ st) (masked_to_real_ st)
    (<[path := identity]> (known_ids_ st)).

Section Files.
Context (blake3 : str → str) (read : str → option str) (canonical : str → option str).

Definition ToolId (st : store) (path : str) : str :=
  Key st (match canonical (parent_path path) with
          | None => path
          | Some dir => dir /p/ filename path
          end).

Definition InputId (st : store) (path : str) : option str :=
  if IsStorePath st path && negb (by_content_ st) then Some ("S:" ++ path)
  else
    match known_ids_ st !! path with
    | Some known => Some known
    | None =>
        match read path with
        | None => None
        | Some content =>
            Some ("C:" ++ HashOf blake3 (if IsStorePath st path then content else MaskOut st content))
        end
    end.
End Files.

(** ** Properties *)

(** *** the placeholder *)

(** an absolute store directory that does not itself hold the placeholder as a component *)
Definition valid_dir (dir : str) : Prop :=
  starts_with dir "/" = true ∧ contains dir ("/" ++ kOutPlaceholder ++ "-") = false.

Definition out_pattern (dir hash : str) : str := dir ++ "/" ++ hash ++ "-".

Lemma SwapOutHash_subst st bytes back :
  out_hash_ st ≠ [] →
  SwapOutHash st bytes back =
    if back then subst (out_pattern (dir_ st) kOutPlaceholder) (out_pattern (dir_ st) (out_hash_ st)) bytes
    else subst (out_pattern (dir_ st) (out_hash_ st)) (out_pattern (dir_ st) kOutPlaceholder) bytes.
Proof.
  intros H. unfold SwapOutHash, out_pattern. rewrite bool_decide_eq_false_2 by done.
  assert (Hne : ∀ h, dir_ st ++ "/" ++ h ++ "-" ≠ []) by (intros h; by destruct (dir_ st)).
  destruct back; by apply (replace_loop_subst _ _ []); [|lia].
Qed.

(** a proper suffix of the placeholder pattern that is also a prefix would put the pattern's tail
    "/ee…e-" inside the store directory *)
Lemma placeholder_unbordered dir :
  valid_dir dir → unbordered (out_pattern dir kOutPlaceholder).
Proof.
  intros [Habs Hno] k [Hk0 Hk] Heq.
  apply starts_with_spec in Habs as [dir' ->].
  unfold out_pattern in *. set (tail := lit "/" ++ kOutPlaceholder ++ "-") in *.
  assert (Htail : length tail = 34) by done.
  set (q := (lit "/" ++ dir') ++ tail) in *.
  assert (Hlen : length q = S (length dir') + 34).
  { subst q. rewrite length_app, Htail. done. }
  assert (Hnth : ∀ i, i < length q - k → q !! (k + i) = q !! i).
  { intros i Hi. rewrite <-lookup_drop, Heq, lookup_take_lt by lia. done. }
  assert (Hq0 : q !! 0 = Some chr_slash) by done.
  assert (Hqt : ∀ i, q !! (S (length dir') + i) = tail !! i).
  { intros i. subst q. rewrite lookup_app_r by (simpl; lia). f_equal. simpl. lia. }
  assert (He : ∀ i, 1 ≤ i ≤ 32 → tail !! i = Some "e"%char).
  { intros i Hi. do 33 (destruct i as [|i]; [by (lia || done)|]). lia. }
  assert (Hlast : tail !! 33 = Some "-"%char) by done.
  destruct (decide (k ≤ S (length dir'))) as [Hle|Hgt].
  - (* the last byte, "-", is matched by a byte of the pattern that is not the last *)
    set (j := S (length dir') - k) in *.
    assert (Hsub : ∀ i, i < 34 → q !! (j + i) = tail !! i).
    { intros i Hi. rewrite <-Hqt, <-Hnth by lia. f_equal. lia. }
    destruct (decide (j + 34 ≤ S (length dir'))) as [Hin|Hout].
    + apply contains_false in Hno. rewrite find_None in Hno. specialize (Hno j).
      apply not_true_iff_false in Hno. apply Hno. apply starts_with_spec.
      exists (drop (j + 34) (lit "/" ++ dir')). apply list_eq. intros i.
      rewrite lookup_drop. destruct (decide (i < 34)) as [Hi|Hi].
      * rewrite (lookup_app_l tail) by lia. rewrite <-Hsub by lia. subst q.
        by rewrite (lookup_app_l (lit "/" ++ dir')) by (simpl; lia).
      * rewrite (lookup_app_r tail), Htail, lookup_drop by lia. f_equal. lia.
    + assert (Hj : j + 33 < S (length dir') + 33) by lia.
      specialize (Hsub 33 ltac:(lia)). rewrite Hlast in Hsub.
      set (m := j + 33 - S (length dir')) in *.
      replace (j + 33) with (S (length dir') + m) in Hsub by lia.
      rewrite Hqt in Hsub.
      destruct (decide (m = 0)) as [Hm|Hm]; [by rewrite Hm in Hsub|].
      rewrite He in Hsub by lia. done.
  - specialize (Hnth 0 ltac:(lia)). rewrite Hq0, Nat.add_0_r in Hnth.
    set (m := k - S (length dir')) in *. replace k with (S (length dir') + m) in Hnth by lia.
    rewrite Hqt in Hnth. destruct (decide (m ≤ 32)) as [Hm|Hm].
    + rewrite He in Hnth by lia. done.
    + replace m with 33 in Hnth by lia. rewrite Hlast in Hnth. done.
Qed.

(** *** masking store hashes, as a relation between a text and its masked form *)

Section Masking.
Context (prefix : str) (Hslash : head prefix = Some chr_slash).

Inductive masked_text : str → str → Prop :=
| masked_nil : masked_text [] []
| masked_hash rest t :
    masks_here rest = true → masked_text (drop kStoreHashLength rest) t →
    masked_text (prefix ++ rest) (prefix ++ "*" ++ t)
| masked_skip c rest t :
    masks_here (c :: rest) = false → masked_text rest t →
    masked_text (prefix ++ c :: rest) (prefix ++ c :: t)
| masked_end : masked_text prefix prefix
| masked_chr c s t :
    starts_with (c :: s) prefix = false → masked_text s t → masked_text (c :: s) (c :: t).

Lemma masked_total s : ∃ t, masked_text s t.
Proof.
  remember (length s) as n eqn:Hn. revert s Hn. induction n as [n IH] using lt_wf_ind.
  intros s ->. assert (prefix ≠ []) by (by destruct prefix).
  destruct (starts_with s prefix) eqn:E.
  - apply starts_with_spec in E as [rest ->].
    destruct (masks_here rest) eqn:M.
    + destruct (IH (length (drop kStoreHashLength rest))) with (s := drop kStoreHashLength rest) as [t Ht]; [|done|].
      { rewrite length_drop, length_app. destruct prefix; [done|]. simpl. lia. }
      eexists. by apply masked_hash.
    + destruct rest as [|c rest]; [exists prefix; rewrite app_nil_r; constructor|].
      destruct (IH (length rest)) with (s := rest) as [t Ht]; [|done|].
      { rewrite length_app. simpl. lia. }
      eexists. by apply masked_skip.
  - destruct s as [|c s]; [by exists []; constructor|].
    destruct (IH (length s)) with (s := s) as [t Ht]; [simpl; lia|done|].
    exists (c :: t). by constructor.
Qed.

Lemma mask_loop_chr fuel pre c s :
  starts_with (c :: s) prefix = false →
  mask_loop fuel prefix (length pre) (pre ++ c :: s) =
  mask_loop fuel prefix (length (pre ++ [c])) ((pre ++ [c]) ++ s).
Proof.
  intros H. destruct fuel as [|fuel]; cbn [mask_loop]; [by rewrite <-app_assoc|].
  rewrite !find_from_app. cbn [find]. rewrite H.
  rewrite <-app_assoc. cbn [app]. destruct (find prefix s) as [i|]; simpl; [|done].
  rewrite length_app. simpl. by replace (length pre + S i) with (length pre + 1 + i) by lia.
Qed.

Lemma mask_loop_match fuel pre rest :
  mask_loop (S fuel) prefix (length pre) (pre ++ prefix ++ rest) =
  mask_loop fuel prefix (length (pre ++ prefix) + 1)
    (pre ++ prefix ++ if masks_here rest then lit "*" ++ drop kStoreHashLength rest else rest).
Proof.
  cbn [mask_loop]. rewrite find_from_app.
  assert (find prefix (prefix ++ rest) = Some 0) as ->.
  { destruct prefix as [|c p]; [done|]. cbn [app find].
    change (c :: p ++ rest) with ((c :: p) ++ rest). by rewrite starts_with_app. }
  cbn [fmap option_fmap option_map]. rewrite Nat.add_0_r, <-length_app.
  rewrite !app_assoc, drop_app_length. destruct (masks_here rest) eqn:M; [|done].
  unfold replace. rewrite take_app_length, drop_app_ge by lia.
  replace (length (pre ++ prefix) + kStoreHashLength - length (pre ++ prefix)) with kStoreHashLength by lia.
  done.
Qed.

Lemma mask_loop_masked s t fuel pre :
  masked_text s t → length s < fuel → mask_loop fuel prefix (length pre) (pre ++ s) = pre ++ t.
Proof.
  assert (Hp : 0 < length prefix) by (by destruct prefix; simpl; [|lia]).
  intros H. revert fuel pre. induction H as [|rest t M H IH|c rest t M H IH| |c s t E H IH]; intros fuel pre Hf.
  - destruct fuel; cbn [mask_loop]; [done|]. rewrite find_from_app. by destruct prefix.
  - destruct fuel as [|fuel]; [lia|]. rewrite mask_loop_match, M.
    rewrite length_app, length_drop in *.
    replace (length pre + length prefix + 1) with (length (pre ++ prefix ++ "*"))
      by (rewrite !length_app; simpl; lia).
    replace (pre ++ prefix ++ "*" ++ drop kStoreHashLength rest)
      with ((pre ++ prefix ++ "*") ++ drop kStoreHashLength rest) by (by rewrite <-!app_assoc).
    rewrite IH by lia. by rewrite <-!app_assoc.
  - destruct fuel as [|fuel]; [lia|]. rewrite mask_loop_match, M.
    replace (length (pre ++ prefix) + 1) with (length (pre ++ prefix ++ [c]))
      by (rewrite !length_app; simpl; lia).
    replace (pre ++ prefix ++ c :: rest) with ((pre ++ prefix ++ [c]) ++ rest)
      by (by rewrite <-!app_assoc).
    rewrite IH; [by rewrite <-!app_assoc|]. rewrite length_app in Hf. simpl in Hf. lia.
  - destruct fuel as [|fuel]; [lia|]. rewrite <-(app_nil_r prefix) at 2.
    rewrite mask_loop_match. change (masks_here []) with false. cbn iota. rewrite app_nil_r.
    destruct fuel; [done|]. cbn [mask_loop]. unfold find_from.
    by rewrite (proj2 (Nat.leb_gt _ _)) by (rewrite !length_app; lia).
  - rewrite mask_loop_chr by done. rewrite IH by (simpl in Hf; lia). by rewrite <-app_assoc.
Qed.

Lemma masked_take_prefix s t :
  masked_text s t → take (length prefix) t = take (length prefix) s.
Proof.
  induction 1 as [|rest t M H IH|c rest t M H IH| |c s t E H IH]; try done.
  - by rewrite !take_app_length.
  - by rewrite !take_app_length.
  - destruct (length prefix) as [|n]; [done|]. simpl. f_equal.
    apply (f_equal (take n)) in IH. by rewrite !take_take, Nat.min_l in IH by lia.
Qed.

(** before its first "/", a masked text is the text *)
Lemma masked_take_free s t n :
  masked_text s t → chr_slash ∉ take n t → take n t = take n s.
Proof.
  assert (Hhead : ∀ r n, chr_slash ∉ take n (prefix ++ r) → n = 0).
  { intros r [|m] Hm; [done|]. destruct prefix as [|c p]; simplify_eq/=. set_solver. }
  intros H. revert n. induction H as [|rest t M H IH|c rest t M H IH| |c s t E H IH]; intros n Hn; try done.
  - by rewrite (Hhead _ _ Hn).
  - by rewrite (Hhead _ _ Hn).
  - destruct n as [|n]; [done|]. simpl in *. f_equal. apply IH. set_solver.
Qed.

Lemma masks_here_take rest n :
  kStoreHashLength < n → masks_here rest = masks_here (take n rest).
Proof.
  intros Hn. unfold masks_here. rewrite length_take, take_take.
  rewrite (Nat.min_l kStoreHashLength n) by lia.
  rewrite lookup_take_lt by lia. f_equal. f_equal.
  destruct (Nat.ltb_spec kStoreHashLength (length rest));
    destruct (Nat.ltb_spec kStoreHashLength (n `min` length rest)); try done; lia.
Qed.

Lemma masks_here_no_slash rest :
  masks_here rest = true → chr_slash ∉ take (S kStoreHashLength) rest.
Proof.
  unfold masks_here, IsStoreHash. intros H. bool_prop.
  rewrite (take_S_r _ _ "-"%char) by done. rewrite not_elem_of_app. split; [|set_solver].
  intros Hin. match goal with H : forallb _ _ = true |- _ => rewrite forallb_forall in H; rename H into Hall end.
  apply list_elem_of_In in Hin. apply Hall in Hin. done.
Qed.

Lemma masked_idempotent s t : masked_text s t → masked_text t t.
Proof.
  induction 1 as [|rest t M H IH|c rest t M H IH| |c s t E H IH].
  - constructor.
  - change (prefix ++ "*" ++ t) with (prefix ++ "*"%char :: t). apply masked_skip; [|done].
    unfold masks_here, IsStoreHash. cbn [take kStoreHashLength forallb].
    replace (contains_chr kAlphabet32 "*"%char) with false by done.
    by rewrite andb_false_l, !andb_false_r.
  - apply masked_skip; [|done]. destruct (masks_here (c :: t)) eqn:F; [exfalso|done].
    pose proof (masks_here_no_slash _ F) as Hns.
    change (take (S kStoreHashLength) (c :: t)) with (c :: take kStoreHashLength t) in Hns.
    assert (take kStoreHashLength t = take kStoreHashLength rest) as Ht.
    { eapply masked_take_free; [done|set_solver]. }
    rewrite (masks_here_take _ (S kStoreHashLength)) in M by lia.
    rewrite (masks_here_take _ (S kStoreHashLength)) in F by lia.
    change (take (S kStoreHashLength) (c :: t)) with (c :: take kStoreHashLength t) in F.
    change (take (S kStoreHashLength) (c :: rest)) with (c :: take kStoreHashLength rest) in M.
    congruence.
  - apply masked_end.
  - constructor; [|done].
    assert (masked_text (c :: s) (c :: t)) as Hm by (by constructor).
    rewrite <-(starts_with_take _ (length prefix)) by done.
    rewrite (masked_take_prefix _ _ Hm), starts_with_take by done. done.
Qed.
End Masking.

Lemma MaskHashes_masked dir text :
  starts_with dir "/" = true →
  masked_text (dir ++ "/") text (MaskHashes_in dir text).
Proof.
  intros [r ->]%starts_with_spec.
  destruct (masked_total ((lit "/" ++ r) ++ "/") eq_refl text) as [t Ht].
  unfold MaskHashes_in.
  by rewrite (mask_loop_masked ((lit "/" ++ r) ++ "/") eq_refl text t _ []) by (done || lia).
Qed.

Lemma MaskHashes_of_masked dir text t :
  starts_with dir "/" = true → masked_text (dir ++ "/") text t → MaskHashes_in dir text = t.
Proof.
  intros [r ->]%starts_with_spec Ht.
  unfold MaskHashes_in.
  by rewrite (mask_loop_masked ((lit "/" ++ r) ++ "/") eq_refl text t _ []) by (done || lia).
Qed.

(** a text without "<store>/" is its own masked form *)
Lemma masked_id prefix s : contains s prefix = false → masked_text prefix s s.
Proof.
  induction s as [|c s IH]; intros H; [constructor|]. apply masked_chr.
  - apply (contains_drop _ _ 0 H).
  - apply IH. apply contains_false, find_None. intros j. apply (contains_drop _ _ (S j) H).
Qed.

Lemma IsStoreHash_length h : IsStoreHash h = true → length h = kStoreHashLength.
Proof. unfold IsStoreHash. intros H. by bool_prop. Qed.

Lemma IsStoreHash_no_slash h : IsStoreHash h = true → chr_slash ∉ h.
Proof.
  unfold IsStoreHash. intros H Hin. bool_prop.
  match goal with H : forallb _ _ = true |- _ => rewrite forallb_forall in H; rename H into Hall end.
  apply list_elem_of_In in Hin. by apply Hall in Hin.
Qed.

Lemma masks_here_hash h rest : IsStoreHash h = true → masks_here (h ++ "-" ++ rest) = true.
Proof.
  intros Hh. pose proof (IsStoreHash_length h Hh) as Hl. unfold masks_here.
  assert (take kStoreHashLength (h ++ "-" ++ rest) = h) as -> by (by rewrite <-Hl, take_app_length).
  assert ((h ++ "-" ++ rest) !! kStoreHashLength = Some "-"%char) as ->
    by (by apply list_lookup_middle).
  rewrite Hh, (bool_decide_eq_true_2 (Some _ = Some _)), !andb_true_r by done.
  apply Nat.ltb_lt. rewrite !length_app, Hl. change (length (lit "-")) with 1. lia.
Qed.

Lemma MaskHashes_root dir h rest :
  starts_with dir "/" = true → IsStoreHash h = true → contains ("-" ++ rest) (dir ++ "/") = false →
  MaskHashes_in dir (dir ++ "/" ++ h ++ "-" ++ rest) = dir ++ "/*-" ++ rest.
Proof.
  intros Hd Hh Hr. apply MaskHashes_of_masked; [done|].
  replace (dir ++ "/" ++ h ++ "-" ++ rest) with ((dir ++ "/") ++ h ++ "-" ++ rest) by (by rewrite <-app_assoc).
  replace (dir ++ "/*-" ++ rest) with ((dir ++ "/") ++ "*" ++ "-" ++ rest) by (by rewrite <-app_assoc).
  apply masked_hash; [by apply masks_here_hash|].
  rewrite <-(IsStoreHash_length h Hh), drop_app_length. by apply masked_id.
Qed.

Lemma assoc_emplace k k' v m :
  assoc k (emplace k' v m) =
    match assoc k m with
    | Some x => Some x
    | None => if k == k' then Some v else None
    end.
Proof.
  assert (Hin : ∀ m, k ∈ m.*1 ↔ assoc k m ≠ None).
  { induction m0 as [|[a b] m0 IH]; simpl; [split; [set_solver|done]|].
    rewrite elem_of_cons, IH. case_bool_decide; naive_solver. }
  assert (Happ : ∀ m, assoc k (m ++ [(k', v)]) =
    match assoc k m with Some x => Some x | None => if k == k' then Some v else None end).
  { induction m0 as [|[a b] m0 IH]; simpl; [done|]. by destruct (k == a). }
  unfold emplace. destruct (bool_decide (k' ∈ m.*1)) eqn:E; [bool_prop|apply Happ].
  destruct (assoc k m) eqn:F; [done|]. case_bool_decide; [subst|done].
  exfalso. apply Hin in E. done.
Qed.

Lemma add_root_keeps dir m r k v : assoc k m = Some v → assoc k (add_root dir m r) = Some v.
Proof.
  intros H. unfold add_root. destruct (_ == _); simpl; [done|]. by rewrite assoc_emplace, H.
Qed.

(** a root that shares its masked name with no other root is what the name maps to *)
Lemma add_roots_assoc dir rs m k root :
  MaskHashes_in dir root = k → k ≠ root →
  (∀ r, r ∈ rs → MaskHashes_in dir (store_root dir r) = k → store_root dir r = root) →
  assoc k m = Some root ∨ (assoc k m = None ∧ ∃ r, r ∈ rs ∧ store_root dir r = root) →
  assoc k (foldl (add_root dir) m rs) = Some root.
Proof.
  intros Hk Hne. revert m. induction rs as [|r rs IH]; intros m Huniq Hm.
  { destruct Hm as [?|[_ (r & Hr & _)]]; [done|set_solver]. }
  cbn [foldl]. apply IH; [intros; apply Huniq; set_solver|].
  destruct Hm as [Hm|[Hm (r' & Hr' & Hroot)]]; [left; by apply add_root_keeps|].
  destruct (decide (MaskHashes_in dir (store_root dir r) = k)) as [Hmk|Hmk].
  - left. unfold add_root. rewrite (Huniq r) by (done || set_solver).
    rewrite Hk, bool_decide_eq_false_2 by done. simpl.
    by rewrite assoc_emplace, Hm, bool_decide_eq_true_2.
  - right. split.
    + unfold add_root. destruct (_ == _); simpl; [done|].
      rewrite assoc_emplace, Hm, bool_decide_eq_false_2; [done|congruence].
    + apply elem_of_cons in Hr' as [->|Hr']; [congruence|]. eauto.
Qed.

Lemma MakeStore_dir dir identity out roots : dir_ (MakeStore dir identity out roots) = dir.
Proof. unfold MakeStore. by destruct (identity == _). Qed.

Lemma MakeStore_roots dir out roots :
  masked_to_real_ (MakeStore dir "content" out roots) =
    foldl (add_root dir) [] (Split roots " " false ++ [out]).
Proof. done. Qed.

Lemma find_chr_after dir rest b :
  chr_slash ∉ rest → (b = [] ∨ head b = Some chr_slash) →
  find_chr chr_slash ((dir ++ rest) ++ b) (length dir) =
    match b with [] => None | _ => Some (length (dir ++ rest)) end.
Proof.
  intros Hrest Hb. unfold find_chr. rewrite <-app_assoc, find_from_app.
  destruct b as [|c b].
  - rewrite app_nil_r, (proj2 (find_chr_None _ _)) by done. done.
  - destruct Hb as [?|[= ->]]; [done|]. rewrite find_chr_app by done. simpl. by rewrite length_app.
Qed.

Lemma Resolve_masked st name rest real :
  chr_slash ∉ name → (rest = [] ∨ head rest = Some chr_slash) →
  assoc (dir_ st ++ "/*-" ++ name) (masked_to_real_ st) = Some real →
  Resolve st (dir_ st ++ "/*-" ++ name ++ rest) = Some (real ++ rest).
Proof.
  intros Hn Hr Hm. unfold Resolve.
  replace (dir_ st ++ "/*-" ++ name ++ rest) with ((dir_ st ++ "/*-") ++ name ++ rest) by (by rewrite <-app_assoc).
  rewrite starts_with_app. cbn [negb].
  replace (length (dir_ st) + 3) with (length (dir_ st ++ "/*-")) by (rewrite length_app; done).
  rewrite app_assoc. rewrite find_chr_after by done.
  destruct rest as [|c rest].
  - cbn [default from_option]. rewrite !app_nil_r, take_ge by done. rewrite <-app_assoc, Hm.
    by rewrite !app_nil_r.
  - simpl default. unfold id. rewrite take_app_length, drop_app_length, <-app_assoc, Hm. done.
Qed.

Lemma subst_same_width p q s : length p = length q → p ≠ [] → length (subst p q s) = length s.
Proof.
  intros Hl Hp. remember (length s) as n eqn:Hn. revert s Hn.
  induction n as [n IH] using lt_wf_ind. intros [|c s] ->; [done|].
  destruct (starts_with (c :: s) p) eqn:E.
  - pose proof (starts_with_drop _ _ E) as Hd. rewrite Hd, subst_app_match, !length_app by done.
    rewrite (IH (length (drop (length p) (c :: s)))); [lia| |done].
    rewrite length_drop. destruct p; [done|simpl; lia].
  - rewrite subst_cons_nomatch by done. cbn [length]. f_equal. eapply IH; [|done]. simpl. lia.
Qed.

Lemma swap_relocates (a b : store) (bytes : str) :
  valid_dir (dir_ a) → dir_ b = dir_ a →
  length (out_hash_ a) = kStoreHashLength → length (out_hash_ b) = kStoreHashLength →
  contains bytes (out_pattern (dir_ a) kOutPlaceholder) = false →
  UnmaskOut b (MaskOut a bytes) =
    subst (out_pattern (dir_ a) (out_hash_ a)) (out_pattern (dir_ a) (out_hash_ b)) bytes ∧
  length (MaskOut a bytes) = length bytes ∧
  length (UnmaskOut b (MaskOut a bytes)) = length bytes ∧
  UnmaskOut a (MaskOut a bytes) = bytes.
Proof.
  intros Hd Hab Ha Hb Hc. unfold MaskOut, UnmaskOut.
  assert (Hna : out_hash_ a ≠ []) by (by destruct (out_hash_ a)).
  assert (Hnb : out_hash_ b ≠ []) by (by destruct (out_hash_ b)).
  rewrite !SwapOutHash_subst by done. rewrite Hab.
  assert (Hne : ∀ h, out_pattern (dir_ a) h ≠ []) by (intros h; unfold out_pattern; by destruct (dir_ a)).
  assert (Hw : ∀ h, length h = kStoreHashLength →
    length (out_pattern (dir_ a) h) = length (out_pattern (dir_ a) kOutPlaceholder)).
  { intros h Hh. unfold out_pattern. rewrite !length_app, Hh. done. }
  rewrite !subst_compose by auto using placeholder_unbordered.
  rewrite subst_id by done. split_and!; [done|apply subst_same_width|apply subst_same_width|done]; auto.
  by rewrite (Hw (out_hash_ a)), (Hw (out_hash_ b)).
Qed.

(** ** Theorems *)

(** C11. Relocating cached bytes: what build [a] stores with its own output prefix masked, build [b]
    gets back with [b]'s prefix in every place where [a] had its own and all other bytes as they
    were; both steps keep the width, so offsets in objects stay valid; and a build that replays
    its own entry gets exactly what it stored. The bytes must not already hold the placeholder. *)
Theorem out_prefix_relocates (a b : store) (bytes : str) :
  valid_dir (dir_ a) → dir_ b = dir_ a →
  length (out_hash_ a) = kStoreHashLength → length (out_hash_ b) = kStoreHashLength →
  contains bytes (out_pattern (dir_ a) kOutPlaceholder) = false →
  UnmaskOut b (MaskOut a bytes) =
    subst (out_pattern (dir_ a) (out_hash_ a)) (out_pattern (dir_ a) (out_hash_ b)) bytes ∧
  length (MaskOut a bytes) = length bytes ∧
  length (UnmaskOut b (MaskOut a bytes)) = length bytes ∧
  UnmaskOut a (MaskOut a bytes) = bytes.
Proof. apply swap_relocates. Qed.

Definition sample_hash_a : str := "0123456789abcdfghijklmnpqrsvwxyz".
Definition sample_hash_b : str := "zyxwvsrqpnmlkjihgfdcba9876543210".
Definition sample_store (h : str) : store := MakeStore "/nix/store" "content" ("/nix/store/" ++ h ++ "-curl") [].

Lemma out_prefix_relocates_witness :
  UnmaskOut (sample_store sample_hash_b)
    (MaskOut (sample_store sample_hash_a) ("PREFIX=/nix/store/" ++ sample_hash_a ++ "-curl/etc"))
  = lit "PREFIX=/nix/store/" ++ sample_hash_b ++ "-curl/etc".
Proof.
  destruct (out_prefix_relocates (sample_store sample_hash_a) (sample_store sample_hash_b)
    ("PREFIX=/nix/store/" ++ sample_hash_a ++ "-curl/etc")) as [H _];
    [split; vm_compute; reflexivity|vm_compute; reflexivity..|].
  etransitivity; [exact H|]. vm_compute. reflexivity.
Defined.

(** Masking store hashes is idempotent: a text that went through [MaskHashes], a stored depfile
    or a manifest line for instance, is not changed by a second pass, whatever it holds. *)
Theorem MaskHashes_idempotent (st : store) (text : str) :
  starts_with (dir_ st) "/" = true → MaskHashes st (MaskHashes st text) = MaskHashes st text.
Proof.
  intros Hd. unfold MaskHashes. apply MaskHashes_of_masked; [done|].
  pose proof (MaskHashes_masked _ text Hd) as H.
  apply starts_with_spec in Hd as [r Hr]. rewrite Hr in *.
  eapply masked_idempotent; [|exact H]. done.
Qed.

Lemma MaskHashes_idempotent_witness :
  let st := sample_store sample_hash_a in
  MaskHashes st ("x: /nix/store/" ++ sample_hash_b ++ "-zlib/z.h") = lit "x: /nix/store/*-zlib/z.h" ∧
  MaskHashes st "x: /nix/store/*-zlib/z.h" = lit "x: /nix/store/*-zlib/z.h".
Proof.
  intros st. assert (H : MaskHashes st ("x: /nix/store/" ++ sample_hash_b ++ "-zlib/z.h")
                     = lit "x: /nix/store/*-zlib/z.h") by (vm_compute; reflexivity).
  split; [exact H|]. rewrite <-H. apply (MaskHashes_idempotent st). reflexivity.
Defined.

(** A masked store path finds its way back: in content mode, a path below one of the build's
    roots (listed in [JIG_STORE_ROOTS], or the output itself), masked as it stands in a manifest, resolves to the
    very same path, provided no other root of the build masks to the same name. *)
Theorem Resolve_MaskHashes (dir out roots h name rest : str) :
  let st := MakeStore dir "content" out roots in
  let root := dir ++ "/" ++ h ++ "-" ++ name in
  starts_with dir "/" = true → IsStoreHash h = true → chr_slash ∉ name →
  (rest = [] ∨ head rest = Some chr_slash) →
  contains ("-" ++ name ++ rest) (dir ++ "/") = false →
  (∃ r, r ∈ Split roots " " false ++ [out] ∧ store_root dir r = root) →
  (∀ r, r ∈ Split roots " " false ++ [out] →
     MaskHashes_in dir (store_root dir r) = dir ++ "/*-" ++ name → store_root dir r = root) →
  Resolve st (MaskHashes st (root ++ rest)) = Some (root ++ rest).
Proof.
  intros st root Hd Hh Hn Hr Hc Hin Huniq. subst st root. unfold MaskHashes.
  rewrite MakeStore_dir.
  replace ((dir ++ "/" ++ h ++ "-" ++ name) ++ rest) with (dir ++ "/" ++ h ++ "-" ++ (name ++ rest))
    by (by rewrite <-!app_assoc).
  assert (Hc' : contains ("-" ++ name) (dir ++ "/") = false).
  { apply not_true_iff_false. intros (x & y & Hxy)%contains_spec.
    apply not_true_iff_false in Hc. apply Hc, contains_spec. exists x, (y ++ rest).
    rewrite app_assoc, Hxy. by rewrite <-!app_assoc. }
  rewrite MaskHashes_root by done.
  pose proof (Resolve_masked (MakeStore dir "content" out roots) name rest (dir ++ "/" ++ h ++ "-" ++ name)) as HR.
  rewrite MakeStore_dir, MakeStore_roots in HR.
  rewrite HR; [by rewrite <-!app_assoc|done|done|].
  apply add_roots_assoc; [by apply MaskHashes_root| |done|by right].
  change (lit "/*-") with (lit "/" ++ lit "*-"). rewrite <-app_assoc.
  intros Heq. apply app_inj_1 in Heq as [_ Heq]; [|done]. apply app_inj_1 in Heq as [_ Heq]; [|done].
  unfold IsStoreHash in Hh. destruct h as [|c h]; [done|]. simplify_eq/=.
  by rewrite andb_false_r in Hh.
Qed.

Lemma Resolve_MaskHashes_witness :
  let root := lit "/nix/store/" ++ sample_hash_b ++ "-zlib" in
  let st := MakeStore "/nix/store" "content" ("/nix/store/" ++ sample_hash_a ++ "-curl") (root ++ "/lib") in
  Resolve st (MaskHashes st (root ++ "/include/zlib.h")) = Some (root ++ "/include/zlib.h").
Proof.
  apply (Resolve_MaskHashes "/nix/store" ("/nix/store/" ++ sample_hash_a ++ "-curl")
    ("/nix/store/" ++ sample_hash_b ++ "-zlib/lib") sample_hash_b "zlib" "/include/zlib.h");
    [vm_compute; reflexivity..|vm_compute; set_solver|right; reflexivity|vm_compute; reflexivity| |].
  - exists ("/nix/store/" ++ sample_hash_b ++ "-zlib/lib"). split; [|vm_compute; reflexivity].
    vm_compute. set_solver.
  - intros r Hr. apply list_elem_of_In in Hr. vm_compute in Hr.
    destruct Hr as [<-|[<-|[]]]; vm_compute; (reflexivity || discriminate).
Defined.

(** an occurrence of "<store>/" directly behind another one is passed over: the search goes on one
    byte after the first, and that byte is the slash the second starts with *)
Example MaskHashes_adjacent :
  MaskHashes_in "/nix/store" ("/nix/store//nix/store/" ++ sample_hash_a ++ "-x")
  = lit "/nix/store//nix/store/" ++ sample_hash_a ++ "-x".
Proof. vm_compute. reflexivity. Qed.
