(* ===== verification/Manifest.v ===== *)
(** * manifest.h, manifest.cc: the two-key scheme

    [ParseDepfile], the manifest text, and the pair [BuildManifest] / [ValidateManifest] that
    decides whether a cached result may be replayed. The file system and the daemon's answer to an
    identity request are parameters. *)

From S2P Require Import Prelude Paths Base Keys Store.

(** ** Depfiles *)

Record dep_state := DepState { dp_deps : list str; dp_token : str; dp_after_colon : bool }.

Definition dep_flush (st : dep_state) : dep_state :=
  if dp_token st == [] then st
  else if dp_after_colon st then DepState (dp_deps st ++ [dp_token st]) [] true
  else DepState (dp_deps st) [] (last (dp_token st) == Some ":"%char).

Definition dep_add (st : dep_state) (c : ascii) : dep_state :=
  DepState (dp_deps st) (dp_token st ++ [c]) (dp_after_colon st).

Fixpoint dep_loop (st : dep_state) (text : str) : dep_state :=
  match text with
  | [] => st
  | cur :: rest =>
      let next := default chr_nl (head rest) in
      if (cur == chr_bslash) && (next == chr_nl) then
        match rest with [] => st | _ :: rest' => dep_loop st rest' end
      else if (cur == chr_bslash) && (next == " "%char) then
        match rest with [] => st | _ :: rest' => dep_loop (dep_add st " ") rest' end
      else if cur == chr_nl then
        let st := dep_flush st in
        if dp_after_colon st then st else dep_loop st rest
      else if (cur == " "%char) || (cur == chr_tab) then dep_loop (dep_flush st) rest
      else if (cur == ":"%char) && negb (dp_after_colon st) &&
              ((next == " "%char) || (next == chr_nl) || (next == chr_bslash)) then
        dep_loop (DepState (dp_deps st) [] true) rest
      else dep_loop (dep_add st cur) rest
  end.

Definition ParseDepfile (text : str) : list str :=
  dp_deps (dep_flush (dep_loop (DepState [] [] false) text)).

(** ** Manifests *)

(** [tab] is [None] for a "!" line *)
Record entry := Entry { e_path : str; e_line : str; e_tab : option nat }.

Definition parse_line (st : store) (line : str) : option entry :=
  if starts_with line "!" then Some (Entry (default [] (Resolve st (drop 1 line))) line None)
  else match find [chr_tab] line with
       | Some tab => Some (Entry (default [] (Resolve st (take tab line))) line (Some tab))
       | None => None
       end.

Definition ParseManifest (st : store) (text : str) : list entry :=
  omap (parse_line st) (Split text chr_nl false).

(** std::expected<A, std::string> *)
Inductive expected (A : Type) := Ok (a : A) | Unexpected (why : str).
Arguments Ok {A} a.
Arguments Unexpected {A} why.

Section World.
(** the file system ([read], [exists_]), BLAKE3, and the daemon's reply to an IDS request *)
Context (blake3 : str → str) (read : str → option str) (exists_ : str → bool)
        (identities : list str → list str).

Definition PrefetchIdentities (st : store) (paths : list str) : store :=
  let ask := List.filter (DaemonMayIdentify st) paths in
  foldl (λ st pi, if pi.2 == [] then st else RememberIdentity st pi.1 pi.2)
    st (combine ask (identities ask)).

(** "path\tid" for an input that is neither the primary source nor unreadable *)
Definition input_line (st : store) (primary_source path : str) : option str :=
  if path == primary_source then None
  else (λ id, Key st path ++ [chr_tab] ++ id) <$> InputId blake3 read st path.

(** "!path" for every absent path, once *)
Definition absent_lines (st : store) (absent : list str) : list str :=
  foldl (λ seen path,
    if (path == []) || IsStorePath st path || exists_ path then seen
    else let key := lit "!" ++ Key st path in
         if bool_decide (key ∈ seen) then seen else seen ++ [key]) [] absent.

Definition manifest_lines (st : store) (inputs : list str) (primary_source : str)
    (absent : list str) : list str :=
  omap (input_line st primary_source) inputs ++ absent_lines st absent.

Definition result_key (request_key : str) (lines : list str) : str :=
  ResultKey (Finish blake3 (fields (request_key :: lines))).

(** the manifest's text, its result key, and the store with what the daemon told *)
Definition BuildManifest (st : store) (request_key : str) (inputs : list str) (primary_source : str)
    (absent : list str) : str * str * store :=
  let st := PrefetchIdentities st inputs in
  let lines := manifest_lines st inputs primary_source absent in
  (concat (map (λ l, l ++ nl) lines), result_key request_key lines, st).

Fixpoint validate_loop (st : store) (entries : list entry) (hash : hasher) : expected str :=
  match entries with
  | [] => Ok (ResultKey (Finish blake3 hash))
  | e :: entries =>
      match e_tab e with
      | None =>
          if exists_ (e_path e) then Unexpected ("appeared:" ++ drop 1 (e_line e))
          else validate_loop st entries (Field hash (e_line e))
      | Some tab =>
          if InputId blake3 read st (e_path e) == Some (drop (S tab) (e_line e)) then
            validate_loop st entries (Field hash (e_line e))
          else Unexpected ("inputs-changed:" ++ take tab (e_line e))
      end
  end.

Definition ValidateManifest (st : store) (request_key manifest_text : str) : expected str * store :=
  let entries := ParseManifest st manifest_text in
  let paths := omap (λ e, (λ _, e_path e) <$> e_tab e) entries in
  let st := PrefetchIdentities st paths in
  (validate_loop st entries (Field [] request_key), st).

(** [get]: what the daemon has under a key *)
Definition FindResult (get : str → option str) (st : store) (tool : Tool) (digest : str)
  : expected str * store :=
  match get (slot_key (Manifest tool digest)) with
  | None => (Unexpected "new-key", st)
  | Some text => ValidateManifest st (RequestKey tool digest) text
  end.
End World.

(** ** Properties *)

(** *** a depfile as a compiler writes it *)

Definition dep_escape (path : str) : str :=
  concat (map (λ c, if c == " "%char then [chr_bslash; c] else [c]) path).

(** what may stand between two prerequisites, after the blank that ends the first *)
Inductive filler := blank | tabulator | continuation.
Definition filler_text (f : filler) : str :=
  match f with blank => " " | tabulator => [chr_tab] | continuation => [chr_bslash; chr_nl] end.

Definition print_dep (gd : list filler * str) : str :=
  lit " " ++ concat (map filler_text gd.1) ++ dep_escape gd.2.

(** one rule, and whatever follows it *)
Definition print_rule (target : str) (deps : list (list filler * str)) (phony : str) : str :=
  dep_escape target ++ ":" ++ concat (map print_dep deps) ++ nl ++ phony.

(** a byte that the format can carry in a path *)
Definition dep_chr (c : ascii) : bool := (c != chr_bslash) && (c != chr_nl) && (c != chr_tab).

Lemma dep_loop_escape ds tok ac d rest :
  forallb dep_chr d = true → (ac = true ∨ ":"%char ∉ d) →
  dep_loop (DepState ds tok ac) (dep_escape d ++ rest) = dep_loop (DepState ds (tok ++ d) ac) rest.
Proof.
  revert tok. induction d as [|c d IH]; intros tok Hd Hac; [by rewrite app_nil_r|].
  cbn [forallb] in Hd. apply andb_true_iff in Hd as [Hc Hd].
  assert (Hac' : ac = true ∨ ":"%char ∉ d) by set_solver.
  assert (Hcolon : (c == ":"%char) && negb ac = false).
  { destruct Hac as [->|Hac]; [by rewrite andb_false_r|].
    rewrite bool_decide_eq_false_2; [done|set_solver]. }
  replace (tok ++ c :: d) with ((tok ++ [c]) ++ d) by (by rewrite <-app_assoc).
  rewrite <-IH by done. unfold dep_escape. cbn [map concat]. unfold dep_chr in Hc.
  apply andb_true_iff in Hc as [Hc Ht]. apply andb_true_iff in Hc as [Hb Hn].
  destruct (bool_decide (c = " "%char)) eqn:Hsp.
  - apply bool_decide_eq_true in Hsp as ->. done.
  - cbn [app dep_loop dp_after_colon]. rewrite Hcolon, Hsp.
    apply negb_true_iff in Hb, Hn, Ht. rewrite Hb, Hn, Ht. done.
Qed.

Lemma dep_loop_fillers ds g rest :
  dep_loop (DepState ds [] true) (concat (map filler_text g) ++ rest) = dep_loop (DepState ds [] true) rest.
Proof. by induction g as [|[] g IH]. Qed.

Lemma dep_loop_blank ds tok rest :
  dep_loop (DepState ds tok true) (" "%char :: rest) =
  dep_loop (DepState (if tok == [] then ds else ds ++ [tok]) [] true) rest.
Proof. cbn. unfold dep_flush. simpl. by case_bool_decide; simplify_eq. Qed.

Lemma dep_flush_colon ds tok :
  dep_flush (DepState ds tok true) = DepState (if tok == [] then ds else ds ++ [tok]) [] true.
Proof. unfold dep_flush. simpl. by case_bool_decide; simplify_eq. Qed.

Lemma dep_loop_deps ds tok deps phony :
  Forall (λ gd, gd.2 ≠ [] ∧ forallb dep_chr gd.2 = true) deps →
  dp_deps (dep_flush (dep_loop (DepState ds tok true) (concat (map print_dep deps) ++ nl ++ phony)))
  = (if tok == [] then ds else ds ++ [tok]) ++ map snd deps.
Proof.
  intros H. revert ds tok. induction H as [|[g d] deps [Hne Hd] _ IH]; intros ds tok.
  - change (concat (map print_dep [])) with (@nil ascii). change nl with [chr_nl].
    cbn [app dep_loop]. rewrite (dep_flush_colon ds). simpl. rewrite app_nil_r. done.
  - cbn [map concat]. unfold print_dep at 1. cbn [fst snd] in *. rewrite <-!app_assoc.
    change (lit " ") with [" "%char]. cbn [app].
    rewrite dep_loop_blank, dep_loop_fillers, dep_loop_escape by auto. cbn [app].
    rewrite IH. rewrite (bool_decide_eq_false_2 (d = [])) by done. by rewrite <-app_assoc.
Qed.

Lemma dep_loop_colon target rest :
  (head rest = Some " "%char ∨ head rest = Some chr_nl) →
  dep_loop (DepState [] target false) (":"%char :: rest) = dep_loop (DepState [] [] true) rest.
Proof. destruct rest as [|n rest]; intros [H|H]; simplify_eq/=; reflexivity. Qed.

(** The prerequisites of the first rule of a depfile are read back exactly, in order, whatever
    blanks and line continuations separate them, with escaped spaces undone, and with everything
    after the rule's line (the phony rules of -MP) ignored. *)
Theorem ParseDepfile_roundtrip (target : str) (deps : list (list filler * str)) (phony : str) :
  forallb dep_chr target = true → ":"%char ∉ target →
  Forall (λ gd, gd.2 ≠ [] ∧ forallb dep_chr gd.2 = true) deps →
  ParseDepfile (print_rule target deps phony) = map snd deps.
Proof.
  intros Ht Hc Hd. unfold ParseDepfile, print_rule. rewrite dep_loop_escape by auto.
  change (lit ":") with [":"%char]. cbn [app].
  rewrite dep_loop_colon; [by apply (dep_loop_deps [] [])|].
  destruct deps as [|gd deps]; [by right|by left].
Qed.

Lemma ParseDepfile_roundtrip_witness :
  ParseDepfile (print_rule "x.o" [([], lit "my x.c"); ([continuation; blank], lit "/inc/a:b.h")] "a.h:")
  = [lit "my x.c"; lit "/inc/a:b.h"].
Proof.
  apply (ParseDepfile_roundtrip "x.o" [([], lit "my x.c"); ([continuation; blank], lit "/inc/a:b.h")] "a.h:");
    [reflexivity|vm_compute; set_solver|].
  repeat constructor; done.
Defined.

(** *** the two halves of the two-key scheme agree *)

(** the path a masked line names in the build that reads it *)
Definition here (reader writer : store) (path : str) : str :=
  default [] (Resolve reader (Key writer path)).

Lemma Split_lines lines :
  Forall (λ l, l ≠ [] ∧ chr_nl ∉ l) lines →
  Split (concat (map (λ l, l ++ nl) lines)) chr_nl false = lines.
Proof.
  intros H. rewrite Split_pieces. unfold keep.
  assert (pieces chr_nl (concat (map (λ l, l ++ nl) lines)) = lines ++ [[]]) as ->.
  { induction H as [|l ls [_ Hl] _ IH]; [done|]. cbn [map concat]. rewrite <-app_assoc.
    change (nl ++ ?x) with (chr_nl :: x). by rewrite pieces_app, IH. }
  rewrite List.filter_app. simpl. rewrite app_nil_r.
  induction H as [|l ls [Hl _] _ IH]; [done|]. simpl.
  unfold nonempty. rewrite bool_decide_eq_false_2 by done. simpl. by f_equal.
Qed.

Section Validation.
Context (blake3 : str → str) (read : str → option str) (exists_ : str → bool).

Definition entry_holds (st : store) (e : entry) : bool :=
  match e_tab e with
  | None => negb (exists_ (e_path e))
  | Some tab => InputId blake3 read st (e_path e) == Some (drop (S tab) (e_line e))
  end.

Definition entry_complaint (e : entry) : str :=
  match e_tab e with
  | None => "appeared:" ++ drop 1 (e_line e)
  | Some tab => "inputs-changed:" ++ take tab (e_line e)
  end.

(** the loop stops at the first entry that does not hold *)
Lemma validate_loop_spec st es h :
  validate_loop blake3 read exists_ st es h =
  match List.find (λ e, negb (entry_holds st e)) es with
  | None => Ok (ResultKey (Finish blake3 (foldl Field h (map e_line es))))
  | Some e => Unexpected (entry_complaint e)
  end.
Proof.
  revert h. induction es as [|e es IH]; intros h; [done|].
  cbn [validate_loop List.find map foldl]. unfold entry_holds at 1, entry_complaint.
  destruct (e_tab e) as [tab|] eqn:Et.
  - destruct (InputId blake3 read st (e_path e) == _); [apply IH|]. simpl. by rewrite Et.
  - rewrite negb_involutive. destruct (exists_ (e_path e)); [by rewrite Et|apply IH].
Qed.

Lemma validate_loop_Ok st es h k :
  validate_loop blake3 read exists_ st es h = Ok k ↔
  k = ResultKey (Finish blake3 (foldl Field h (map e_line es))) ∧
  ∀ e, e ∈ es → entry_holds st e = true.
Proof.
  rewrite validate_loop_spec. destruct (List.find _ es) as [e|] eqn:F.
  - apply find_some in F as [Hin He]. split; [done|]. intros [_ H].
    rewrite (H e) in He; [done|by apply list_elem_of_In].
  - split.
    + intros [= <-]. split; [done|]. intros e He.
      apply list_elem_of_In, (find_none _ _ F) in He. by apply negb_false_iff.
    + by intros [-> _].
Qed.
End Validation.

Section Recording.
Context (blake3 : str → str) (read : str → option str) (exists_ : str → bool).

(** what a manifest records of an input and of a path looked up in vain *)
Definition recorded (st : store) (inputs : list str) (primary p id : str) : Prop :=
  p ∈ inputs ∧ p ≠ primary ∧ InputId blake3 read st p = Some id.
Definition recorded_absent (st : store) (absent : list str) (p : str) : Prop :=
  p ∈ absent ∧ p ≠ [] ∧ IsStorePath st p = false ∧ exists_ p = false.

Lemma input_lines_elem st inputs primary l :
  l ∈ omap (input_line blake3 read st primary) inputs ↔
  ∃ p id, recorded st inputs primary p id ∧ l = Key st p ++ [chr_tab] ++ id.
Proof.
  rewrite list_elem_of_omap. unfold input_line, recorded. split.
  - intros (p & Hp & Hl). case_bool_decide; [done|].
    destruct (InputId blake3 read st p) as [id|] eqn:E; simplify_eq/=. by exists p, id.
  - intros (p & id & (Hp & Hne & Hid) & ->). exists p.
    by rewrite bool_decide_eq_false_2, Hid by done.
Qed.

Lemma absent_lines_elem st absent l :
  l ∈ absent_lines exists_ st absent ↔ ∃ p, recorded_absent st absent p ∧ l = lit "!" ++ Key st p.
Proof.
  unfold absent_lines, recorded_absent. set (f := λ (seen : list str) path, _).
  assert (Hf : ∀ seen p, l ∈ f seen p ↔ l ∈ seen ∨
    (p ≠ [] ∧ IsStorePath st p = false ∧ exists_ p = false ∧ l = lit "!" ++ Key st p)).
  { intros seen p. subst f. simpl. case_bool_decide as E1; simpl; [naive_solver|].
    destruct (IsStorePath st p), (exists_ p); simpl; try naive_solver.
    case_bool_decide as E2; [|set_solver]. split; [by left|]. by intros [?|(_&_&_&->)]. }
  assert (∀ seen, l ∈ foldl f seen absent ↔ l ∈ seen ∨ ∃ p, (p ∈ absent ∧ p ≠ [] ∧
    IsStorePath st p = false ∧ exists_ p = false) ∧ l = lit "!" ++ Key st p) as ->.
  { induction absent as [|q absent IH]; intros seen; simpl; [set_solver|].
    rewrite IH, Hf. set_solver. }
  set_solver.
Qed.
End Recording.

Lemma Key_prefetch identities st paths p : Key (PrefetchIdentities identities st paths) p = Key st p.
Proof.
  unfold PrefetchIdentities. set (l := combine _ _). clearbody l.
  assert (∀ st', dir_ st' = dir_ st → by_content_ st' = by_content_ st →
    Key (foldl (λ st pi, if pi.2 == [] then st else RememberIdentity st pi.1 pi.2) st' l) p = Key st p).
  { induction l as [|pi l IH]; intros st' Hd Hb; simpl.
    - unfold Key, MaskHashes. by rewrite Hd, Hb.
    - apply IH; case_bool_decide; done. }
  auto.
Qed.

(** lines that the text format can carry: [manifest.cc] writes paths and identities unescaped *)
Definition line_safe (blake3 : str → str) (read : str → option str) (exists_ : str → bool)
    (st : store) (inputs : list str) (primary : str) (absent : list str) : Prop :=
  (∀ p id, recorded blake3 read st inputs primary p id →
     chr_nl ∉ Key st p ∧ chr_tab ∉ Key st p ∧ starts_with (Key st p) "!" = false ∧ chr_nl ∉ id) ∧
  (∀ p, recorded_absent exists_ st absent p → chr_nl ∉ Key st p).

Lemma parse_input_line reader st p id :
  chr_tab ∉ Key st p → starts_with (Key st p) "!" = false →
  parse_line reader (Key st p ++ [chr_tab] ++ id) =
  Some (Entry (here reader st p) (Key st p ++ [chr_tab] ++ id) (Some (length (Key st p)))).
Proof.
  intros Ht Hb. unfold parse_line. change ([chr_tab] ++ id) with (chr_tab :: id).
  assert (starts_with (Key st p ++ chr_tab :: id) "!" = false) as ->.
  { destruct (Key st p); [done|]. exact Hb. }
  rewrite find_chr_app by done. by rewrite take_app_length.
Qed.

Lemma parse_absent_line reader st p :
  parse_line reader (lit "!" ++ Key st p) = Some (Entry (here reader st p) (lit "!" ++ Key st p) None).
Proof. done. Qed.

Lemma parse_manifest_lines blake3 read exists_ reader st inputs primary absent :
  line_safe blake3 read exists_ st inputs primary absent →
  let lines := manifest_lines blake3 read exists_ st inputs primary absent in
  let entries := ParseManifest reader (concat (map (λ l, l ++ nl) lines)) in
  map e_line entries = lines ∧
  ∀ e, e ∈ entries ↔
    (∃ p id, recorded blake3 read st inputs primary p id ∧
       e = Entry (here reader st p) (Key st p ++ [chr_tab] ++ id) (Some (length (Key st p)))) ∨
    (∃ p, recorded_absent exists_ st absent p ∧
       e = Entry (here reader st p) (lit "!" ++ Key st p) None).
Proof.
  intros [Hin Habs] lines entries.
  assert (Hlines : ∀ l, l ∈ lines ↔
    (∃ p id, recorded blake3 read st inputs primary p id ∧ l = Key st p ++ [chr_tab] ++ id) ∨
    (∃ p, recorded_absent exists_ st absent p ∧ l = lit "!" ++ Key st p)).
  { intros l. unfold lines, manifest_lines. by rewrite elem_of_app, input_lines_elem, absent_lines_elem. }
  assert (Hsplit : entries = omap (parse_line reader) lines).
  { unfold entries, ParseManifest. rewrite Split_lines; [done|].
    apply list.Forall_forall. intros l [(p & id & Hr & ->)|(p & Hr & ->)]%Hlines.
    - destruct (Hin p id Hr) as (H1 & H2 & H3 & H4). split; [by destruct (Key st p)|set_solver].
    - specialize (Habs p Hr). split; [done|]. change (lit "!") with ["!"%char]. set_solver. }
  assert (Hparse : ∀ l, l ∈ lines → ∃ e, parse_line reader l = Some e ∧ e_line e = l).
  { intros l [(p & id & Hr & ->)|(p & Hr & ->)]%Hlines.
    - destruct (Hin p id Hr) as (H1 & H2 & H3 & H4). eexists. split; [by apply parse_input_line|done].
    - eexists. split; [apply parse_absent_line|done]. }
  rewrite Hsplit. split.
  - clear Hlines Hsplit. clearbody lines. induction lines as [|l ls IH]; [done|].
    destruct (Hparse l) as (e & He & Hl); [set_solver|]. cbn. rewrite He. cbn.
    rewrite Hl. f_equal. apply IH. set_solver.
  - intros e. rewrite list_elem_of_omap. split.
    + intros (l & Hl & He). apply Hlines in Hl as [(p & id & Hr & ->)|(p & Hr & ->)].
      * left. exists p, id. destruct (Hin p id Hr) as (H1 & H2 & H3 & H4).
        rewrite parse_input_line in He by done. by simplify_eq.
      * right. exists p. rewrite parse_absent_line in He. by simplify_eq.
    + intros [(p & id & Hr & ->)|(p & Hr & ->)].
      * eexists. split; [apply Hlines; left; by exists p, id|].
        destruct (Hin p id Hr) as (H1 & H2 & H3 & H4). by rewrite parse_input_line.
      * eexists. split; [apply Hlines; right; by exists p|]. done.
Qed.

Lemma manifest_validates (blake3 : str → str) (read1 read2 : str → option str)
    (exists_1 exists_2 : str → bool) (ids1 ids2 : list str → list str) (writer reader : store)
    (request_key : str) (inputs : list str) (primary : str) (absent : list str) (k : str) :
  let '(text, key, st1) := BuildManifest blake3 read1 exists_1 ids1 writer request_key inputs primary absent in
  let '(verdict, st2) := ValidateManifest blake3 read2 exists_2 ids2 reader request_key text in
  line_safe blake3 read1 exists_1 st1 inputs primary absent →
  (verdict = Ok k ↔
     k = key ∧
     (∀ p id, recorded blake3 read1 st1 inputs primary p id →
        InputId blake3 read2 st2 (here reader writer p) = Some id) ∧
     (∀ p, recorded_absent exists_1 st1 absent p → exists_2 (here reader writer p) = false)).
Proof.
  unfold BuildManifest, ValidateManifest.
  set (st1 := PrefetchIdentities ids1 writer inputs).
  set (lines := manifest_lines blake3 read1 exists_1 st1 inputs primary absent).
  set (text := concat (map (λ l, l ++ nl) lines)).
  set (st2 := PrefetchIdentities ids2 reader _). clearbody st2. intros Hsafe.
  assert (Hhere : ∀ p, here reader st1 p = here reader writer p).
  { intros p. unfold here, st1. by rewrite Key_prefetch. }
  destruct (parse_manifest_lines blake3 read1 exists_1 reader st1 inputs primary absent Hsafe) as [Hmap Helem].
  rewrite validate_loop_Ok. unfold text, lines. rewrite Hmap. apply and_iff_compat_l.
  split.
  - intros H. split.
    + intros p id Hr. specialize (H _ (proj2 (Helem _) (or_introl (ex_intro _ p (ex_intro _ id (conj Hr eq_refl)))))).
      unfold entry_holds in H. cbn [e_tab e_path e_line] in H. apply bool_decide_eq_true in H.
      by rewrite <-Hhere, H, drop_past.
    + intros p Hr. specialize (H _ (proj2 (Helem _) (or_intror (ex_intro _ p (conj Hr eq_refl))))).
      unfold entry_holds in H. apply negb_true_iff in H. by rewrite <-Hhere.
  - intros [Hi Ha] e [(p & id & Hr & ->)|(p & Hr & ->)]%Helem; unfold entry_holds; cbn [e_tab e_path e_line].
    + apply bool_decide_eq_true. by rewrite Hhere, (Hi p id Hr), drop_past.
    + by rewrite Hhere, (Ha p Hr).
Qed.

(** C5. A manifest written by one build and read by another yields exactly the result key it was
    written with, and does so if and only if every input recorded then still has its identity now
    and every path recorded as absent is still absent; both looked up where the reading build
    has them. In every other case validation fails. *)
Theorem manifest_validates_iff (blake3 : str → str) (read1 read2 : str → option str)
    (exists_1 exists_2 : str → bool) (ids1 ids2 : list str → list str) (writer reader : store)
    (request_key : str) (inputs : list str) (primary : str) (absent : list str) (k : str) :
  let '(text, key, st1) := BuildManifest blake3 read1 exists_1 ids1 writer request_key inputs primary absent in
  let '(verdict, st2) := ValidateManifest blake3 read2 exists_2 ids2 reader request_key text in
  line_safe blake3 read1 exists_1 st1 inputs primary absent →
  (verdict = Ok k ↔
     k = key ∧
     (∀ p id, recorded blake3 read1 st1 inputs primary p id →
        InputId blake3 read2 st2 (here reader writer p) = Some id) ∧
     (∀ p, recorded_absent exists_1 st1 absent p → exists_2 (here reader writer p) = false)).
Proof. apply manifest_validates. Qed.

Definition sample_read (content path : str) : option str :=
  if path == lit "inc/a.h" then Some content else None.
Definition sample_absent (path : str) : bool := false.
Definition sample_ids (paths : list str) : list str := map (λ _, []) paths.
Definition sample_store : store := MakeStore "/nix/store" "" "" "".
Definition sample_manifest : str * str * store :=
  BuildManifest (λ s, s) (sample_read "int x;") sample_absent sample_ids sample_store "key"
    [lit "a.c"; lit "inc/a.h"] "a.c" [lit "inc/b.h"].

Lemma manifest_validates_iff_witness :
  (ValidateManifest (λ s, s) (sample_read "int x;") sample_absent sample_ids sample_store "key"
     sample_manifest.1.1).1 = Ok sample_manifest.1.2 ∧
  ∀ k, (ValidateManifest (λ s, s) (sample_read "int y;") sample_absent sample_ids sample_store "key"
          sample_manifest.1.1).1 ≠ Ok k.
Proof.
  assert (Hrec : ∀ p id, recorded (λ s, s) (sample_read "int x;") sample_store [lit "a.c"; lit "inc/a.h"] "a.c" p id →
    p = lit "inc/a.h" ∧ id = lit "C:696e7420783b").
  { intros p id (Hp & Hne & Hid). rewrite !elem_of_cons in Hp. destruct Hp as [->|[->|Hp]]; [done| |set_solver].
    vm_compute in Hid. by simplify_eq. }
  assert (Habs : ∀ p, recorded_absent sample_absent sample_store [lit "inc/b.h"] p → p = lit "inc/b.h").
  { intros p (Hp & _). set_solver. }
  assert (Hsafe : line_safe (λ s, s) (sample_read "int x;") sample_absent sample_store
    [lit "a.c"; lit "inc/a.h"] "a.c" [lit "inc/b.h"]).
  { split.
    - intros p id [-> ->]%Hrec. repeat split; vm_compute; set_solver.
    - intros p ->%Habs. vm_compute. set_solver. }
  split.
  - pose proof (manifest_validates_iff (λ s, s) (sample_read "int x;") (sample_read "int x;") sample_absent
      sample_absent sample_ids sample_ids sample_store sample_store "key" [lit "a.c"; lit "inc/a.h"] "a.c"
      [lit "inc/b.h"] sample_manifest.1.2 Hsafe) as H.
    apply H. split; [vm_compute; reflexivity|]. split; [|done].
    intros p id [-> ->]%Hrec. vm_compute. reflexivity.
  - intros k Hk.
    pose proof (manifest_validates_iff (λ s, s) (sample_read "int x;") (sample_read "int y;") sample_absent
      sample_absent sample_ids sample_ids sample_store sample_store "key" [lit "a.c"; lit "inc/a.h"] "a.c"
      [lit "inc/b.h"] k Hsafe) as H.
    apply H in Hk as (_ & Hk & _). specialize (Hk (lit "inc/a.h") (lit "C:696e7420783b")).
    assert (Hr : recorded (λ s, s) (sample_read "int x;") sample_store [lit "a.c"; lit "inc/a.h"] "a.c"
      (lit "inc/a.h") (lit "C:696e7420783b")).
    { split; [by right; left|]. split; [discriminate|vm_compute; reflexivity]. }
    specialize (Hk Hr). vm_compute in Hk. discriminate Hk.
Defined.
