(* ===== verification/CacheClient.v ===== *)
(** * cache_client.h, cache_client.cc: the client of the cache daemon

    The connection is a record: whether the descriptor is valid, the bytes of the last [read] not
    yet consumed, the bytes the peer has sent and the socket still holds, how the next [read]s and
    [send]s will behave (short, or failing), and the peer. The peer is any byte transducer; what
    the protocol of [cache_client.h] says about it is the class [CacheDaemon], against which the
    theorems are proved. zstd is a parameter. *)

From S2P Require Import Prelude Paths Base Keys.

(** ** The peer *)

(** a peer takes bytes and answers with bytes; how they are cut into writes does not matter *)
Class Peer (S : Type) := {
  feed : S → str → S * str;
  feed_nil s : feed s [] = (s, []);
  feed_app s a b :
    feed s (a ++ b) = let '(s1, r1) := feed s a in let '(s2, r2) := feed s1 b in (s2, r1 ++ r2);
}.

Record client (S : Type) := Client {
  c_open : bool;                     (* fd_.valid() *)
  c_pending : str;                   (* pending_ *)
  c_in : str;                        (* sent by the peer, not yet read *)
  c_reads : list (option nat);       (* as [k_caps] *)
  c_writes : list (option nat);      (* [None]: send fails, [Some k]: at most k+1 bytes *)
  c_peer : S;
}.
Arguments Client {S} c_open c_pending c_in c_reads c_writes c_peer.
Arguments c_open {S} _.
Arguments c_pending {S} _.
Arguments c_in {S} _.
Arguments c_reads {S} _.
Arguments c_writes {S} _.
Arguments c_peer {S} _.

Definition kBufSize : nat := Nat.pow 2 16.
(** [std::uint64_t{2} << 30U] *)
Definition kMaxObjectSize : N := N.shiftl 2 30.
(** [sizeof(sockaddr_un::sun_path)] on Linux *)
Definition kSunPath : nat := 108.

(** the socket address refuses a path that does not fit with its terminator; [connects]: whether
    [socket] and [connect] succeed *)
Definition Connect {S} (socket_path : str) (connects : option S) (c : client S) : bool * client S :=
  if (kSunPath <=? length socket_path)%nat then (false, c)
  else match connects with
       | None => (false, c)
       | Some s => (true, Client true (c_pending c) (c_in c) (c_reads c) (c_writes c) s)
       end.

(** ** zstd and the value format *)

Definition kHeader : nat := 4.

Section Zstd.
(** one frame of a value ([None]: [ZSTD_isError]), and the content of a frame *)
Context (zstd_compress zstd_decompress : str → option str).

Definition Compress (value : str) : str :=
  match zstd_compress value with
  | None => []
  | Some frame => le_bytes kHeader (N.of_nat (length value) mod 2 ^ 32) ++ frame
  end.

Definition Decompress (wire : str) : option str :=
  if (length wire <? kHeader)%nat then None
  else
    let size := le_val (take kHeader wire) in
    match zstd_decompress (drop kHeader wire) with
    | Some out => if (N.of_nat (length out) =? size)%N then Some out else None
    | None => None
    end.

Section Client.
Context {S : Type} `{Peer S}.

(** the client's code as state passing *)
Definition io (A : Type) : Type := client S → A * client S.
Definition io_ret {A} (a : A) : io A := λ c, (a, c).
Definition io_bind {A B} (m : io A) (f : A → io B) : io B := λ c, let '(a, c') := m c in f a c'.
Notation "x <- m ;; k" := (io_bind m (λ x, k)) (at level 100, m at next level, right associativity).
Notation "m ;;; k" := (io_bind m (λ _, k)) (at level 100, right associativity).

Fixpoint send_loop (fuel : nat) (data : str) : io bool := λ c,
  match fuel with
  | 0 => (true, c)
  | Datatypes.S fuel =>
      if data == [] then (true, c)
      else if negb (c_open c) then (false, c)
      else match c_writes c with
           | None :: ws => (false, Client (c_open c) (c_pending c) (c_in c) (c_reads c) ws (c_peer c))
           | _ =>
               let sent := match c_writes c with Some k :: _ => Nat.min (length data) (k + 1)
                                               | _ => length data end in
               let '(s, reply) := feed (c_peer c) (take sent data) in
               send_loop fuel (drop sent data)
                 (Client (c_open c) (c_pending c) (c_in c ++ reply) (c_reads c) (tail (c_writes c)) s)
           end
  end.
Definition SendAll (data : str) : io bool := send_loop (Datatypes.S (length data)) data.

Definition Fill : io bool := λ c,
  if negb (c_open c) then (false, c)
  else
    let '(got, k) := k_read kBufSize (Kernel (c_in c) (c_reads c)) in
    match got with
    | None | Some [] =>
        (false, Client (c_open c) (c_pending c) (k_rest k) (k_caps k) (c_writes c) (c_peer c))
    | Some got => (true, Client (c_open c) got (k_rest k) (k_caps k) (c_writes c) (c_peer c))
    end.

Definition set_pending (p : str) : io unit := λ c,
  (tt, Client (c_open c) p (c_in c) (c_reads c) (c_writes c) (c_peer c)).

Fixpoint recv_line_loop (fuel : nat) (line : str) : io (option str) := λ c,
  match fuel with
  | 0 => (None, c)
  | Datatypes.S fuel =>
      match find nl (c_pending c) with
      | Some newline =>
          (set_pending (drop (newline + 1) (c_pending c)) ;;;
           io_ret (Some (line ++ take newline (c_pending c)))) c
      | None =>
          let line := line ++ c_pending c in
          (ok <- Fill ;; if (ok : bool) then recv_line_loop fuel line else io_ret None) c
      end
  end.
(** every [Fill] that succeeds takes a byte off [c_in] *)
Definition RecvLine : io (option str) := λ c, recv_line_loop (Datatypes.S (length (c_in c))) [] c.

Fixpoint recv_exactly_loop (fuel remaining : nat) (out : str) : io (option str) := λ c,
  match fuel with
  | 0 => (None, c)
  | Datatypes.S fuel =>
      if (remaining =? 0)%nat then (Some out, c)
      else
        (ok <- (if c_pending c == [] then Fill else io_ret true) ;;
         if (ok : bool) then λ c,
           let n := Nat.min (length (c_pending c)) remaining in
           (set_pending (drop n (c_pending c)) ;;;
            recv_exactly_loop fuel (remaining - n) (out ++ take n (c_pending c))) c
         else io_ret None) c
  end.
Definition RecvExactly (count : nat) : io (option str) := recv_exactly_loop (Datatypes.S count) count [].

Definition close_fd : io unit := λ c,
  (tt, Client false (c_pending c) (c_in c) (c_reads c) (c_writes c) (c_peer c)).

Definition RecvValue : io (option str) :=
  line <- RecvLine ;;
  match line with
  | None => io_ret None
  | Some line =>
      if negb (starts_with line "OK ") then io_ret None
      else
        match ParseUint (drop 3 line) 10 with
        | None => close_fd ;;; io_ret None
        | Some len =>
            if (kMaxObjectSize <? len)%N then close_fd ;;; io_ret None
            else wire <- RecvExactly (N.to_nat len) ;; io_ret (wire ≫= Decompress)
        end
  end.

(** [fd_.valid() && SendAll(…)] *)
Definition ask (request : str) : io bool := λ c,
  if negb (c_open c) then (false, c) else SendAll request c.

Fixpoint repeat_recv {A} (recv : io A) (n : nat) : io (list A) :=
  match n with
  | 0 => io_ret []
  | Datatypes.S n => x <- recv ;; xs <- repeat_recv recv n ;; io_ret (x :: xs)
  end.

Definition Get (key : str) : io (option str) :=
  ok <- ask ("GET " ++ key ++ nl) ;; if (ok : bool) then RecvValue else io_ret None.

Definition GetMany (keys : list str) : io (list (option str)) :=
  let values := map (λ _, None) keys in
  if keys == [] then io_ret values
  else
    ok <- ask (concat (map (λ key, "GET " ++ key ++ nl) keys)) ;;
    if (ok : bool) then repeat_recv RecvValue (length keys) else io_ret values.

(** stops with an empty vector at the first line that does not come *)
Fixpoint recv_ids (n : nat) (ids : list str) : io (list str) :=
  match n with
  | 0 => io_ret ids
  | Datatypes.S n =>
      line <- RecvLine ;;
      match line with None => io_ret [] | Some line => recv_ids n (ids ++ [line]) end
  end.
Definition Identities (paths : list str) : io (list str) :=
  if paths == [] then io_ret []
  else
    ok <- ask ("IDS " ++ to_string (length paths) ++ nl ++ concat (map (λ p, p ++ nl) paths)) ;;
    if (ok : bool) then recv_ids (length paths) [] else io_ret [].

Definition AcquireSlot (build : str) : io bool :=
  ok <- ask ("SLOT " ++ build ++ nl) ;;
  if (ok : bool) then line <- RecvLine ;; io_ret (line == Some (lit "OK")) else io_ret false.
Definition ReleaseSlot (build : str) : io unit :=
  ok <- ask ("DONE " ++ build ++ nl) ;; if (ok : bool) then RecvLine ;;; io_ret tt else io_ret tt.

(** [!wire.empty() && SendAll(header) && SendAll(wire)] *)
Definition send_put (key value : str) : io bool :=
  let wire := Compress value in
  if wire == [] then io_ret false
  else
    ok <- SendAll ("PUT " ++ key ++ " " ++ to_string (length wire) ++ nl) ;;
    if (ok : bool) then SendAll wire else io_ret false.

Definition Put (key value : str) : io unit := λ c,
  if negb (c_open c) then (tt, c)
  else (ok <- send_put key value ;; if (ok : bool) then RecvLine ;;; io_ret tt else io_ret tt) c.

Fixpoint put_loop (items : list (str * str)) (sent : nat) : io nat :=
  match items with
  | [] => io_ret sent
  | (key, value) :: items =>
      ok <- send_put key value ;; if (ok : bool) then put_loop items (Datatypes.S sent) else io_ret sent
  end.
Definition PutMany (items : list (str * str)) : io unit := λ c,
  if negb (c_open c) || (items == []) then (tt, c)
  else (sent <- put_loop items 0 ;; repeat_recv RecvLine sent ;;; io_ret tt) c.

Definition HasMany (keys : list str) : io (list bool) :=
  let have := map (λ _, false) keys in
  if keys == [] then io_ret have
  else
    ok <- ask (concat (map (λ key, "HAS " ++ key ++ nl) keys)) ;;
    if (ok : bool) then repeat_recv (line <- RecvLine ;; io_ret (line == Some (lit "1"))) (length keys)
    else io_ret have.
End Client.
End Zstd.

(** ** Properties *)

(** *** values *)

Section Values.
Context (zstd_compress zstd_decompress : str → option str).
(** zstd is lossless *)
Context (lossless : ∀ value frame, zstd_compress value = Some frame → zstd_decompress frame = Some value).

Lemma Decompress_Compress value :
  is_Some (zstd_compress value) → (N.of_nat (length value) < 2 ^ 32)%N →
  Decompress zstd_decompress (Compress zstd_compress value) = Some value.
Proof.
  intros [frame Hf] Hlen. unfold Decompress, Compress. rewrite Hf.
  rewrite N.mod_small by done.
  set (header := le_bytes _ _). assert (Hh : length header = kHeader) by done.
  rewrite length_app, Hh. replace (kHeader + length frame <? kHeader)%nat with false
    by (symmetry; apply Nat.ltb_ge; lia).
  rewrite <-Hh, take_app_length, drop_app_length.
  rewrite (lossless _ _ Hf). subst header. rewrite le_val_bytes, N.eqb_refl by done. done.
Qed.

(** a value that does not fit the header is never returned in part *)
Lemma Decompress_sound wire value :
  Decompress zstd_decompress wire = Some value →
  zstd_decompress (drop kHeader wire) = Some value ∧ N.of_nat (length value) = le_val (take kHeader wire).
Proof.
  unfold Decompress. case_match; [done|]. destruct (zstd_decompress _) as [out|]; [|done].
  case_match eqn:E; [|done]. intros [= ->]. by apply N.eqb_eq in E.
Qed.
End Values.

(** *** the receiving side *)

Section Receiving.
Context {S : Type} `{Peer S}.

(** everything the peer has sent and the client has not consumed *)
Definition view (c : client S) : str := c_pending c ++ c_in c.

(** what receiving leaves alone *)
Definition received (c c' : client S) : Prop :=
  c_open c' = c_open c ∧ c_writes c' = c_writes c ∧ c_peer c' = c_peer c ∧
  (Forall is_Some (c_reads c) → Forall is_Some (c_reads c')).

#[export] Instance received_po : PreOrder received.
Proof. split; [done|]. intros a b c (?&?&?&?) (?&?&?&?). split_and!; try congruence. auto. Qed.

Lemma Fill_spec c ok c' :
  Fill c = (ok, c') →
  received c c' ∧
  (ok = true → view c' = c_in c ∧ length (c_in c') < length (c_in c)) ∧
  (ok = false → view c' = view c) ∧
  (c_open c = true → Forall is_Some (c_reads c) → c_in c ≠ [] → ok = true).
Proof.
  unfold Fill, received, view. destruct (c_open c) eqn:Ho; simpl; [|intros [= <- <-]; naive_solver].
  unfold k_read. cbn [k_caps k_rest].
  assert (Hb : 0 < kBufSize) by (unfold kBufSize; apply Nat.neq_0_lt_0, Nat.pow_nonzero; done).
  generalize dependent kBufSize. intros n Hn.
  assert (Hcut : ∀ m, 0 < m → c_in c ≠ [] → ∃ x y, take m (c_in c) = x :: y ∧
    length (drop m (c_in c)) < length (c_in c)).
  { intros m Hm Hne. rewrite length_drop. destruct (c_in c), m; simpl; try done; try lia.
    eexists _, _. split; [done|lia]. }
  destruct (c_reads c) as [|[r|] rs] eqn:Hr; cbn [k_rest k_caps].
  - destruct (decide (c_in c = [])) as [Hi|Hi].
    + rewrite Hi, take_nil, drop_nil. intros [= <- <-]. simpl. naive_solver.
    + destruct (Hcut n Hn Hi) as (x & y & Ht & Hd). rewrite Ht. intros [= <- <-].
      cbn [c_open c_writes c_peer c_reads c_pending c_in]. rewrite <-Ht, take_drop. naive_solver.
  - destruct (decide (c_in c = [])) as [Hi|Hi].
    + rewrite Hi, take_nil, drop_nil. intros [= <- <-]. simpl. rewrite Forall_cons. naive_solver.
    + destruct (Hcut (Nat.min n (Datatypes.S r)) ltac:(lia) Hi) as (x & y & Ht & Hd).
      rewrite Ht. intros [= <- <-]. cbn [c_open c_writes c_peer c_reads c_pending c_in].
      rewrite <-Ht, take_drop, Forall_cons. naive_solver.
  - intros [= <- <-]. simpl. rewrite Forall_cons. split_and!; try done; try naive_solver.
Qed.

Lemma recv_line_spec fuel line c r c' :
  length (c_in c) < fuel → recv_line_loop fuel line c = (r, c') →
  received c c' ∧
  (∀ l, r = Some l → ∃ m, l = line ++ m ∧ view c = m ++ chr_nl :: view c' ∧ chr_nl ∉ m) ∧
  (c_open c = true → Forall is_Some (c_reads c) → chr_nl ∈ view c → is_Some r).
Proof.
  revert line c. induction fuel as [|fuel IH]; intros line c Hfuel; [lia|].
  cbn [recv_line_loop]. destruct (find nl (c_pending c)) as [i|] eqn:F.
  - apply find_Some_app in F as (a & b & Hp & <- & Hfirst).
    unfold io_bind, set_pending, io_ret. intros [= <- <-].
    split; [done|]. split; [|by eexists]. intros l [= <-]. exists a.
    change nl with [chr_nl] in Hp. unfold view. cbn [c_pending c_in]. rewrite Hp, take_app_length.
    split; [done|]. rewrite Nat.add_1_r, drop_past, <-app_assoc. split; [done|].
    intros Hin. apply list_elem_of_split in Hin as (x & y & Ha).
    specialize (Hfirst (length x)). subst a. rewrite !length_app in Hfirst.
    rewrite Hp, <-app_assoc, drop_app_length in Hfirst. simpl in Hfirst. ospecialize (Hfirst _); [lia|].
    done.
  - apply find_chr_None in F. unfold io_bind. destruct (Fill c) as [ok c1] eqn:E.
    apply Fill_spec in E as (Hrec & Hok & Hno & Hprog). destruct ok.
    + destruct Hok as [Hview Hlt]; [done|]. intros E. apply IH in E as (Hr & Hs & Hp); [|lia].
      split; [by etrans|]. split.
      * intros l Hl. destruct (Hs l Hl) as (m & -> & Hm & Hn). exists (c_pending c ++ m).
        rewrite <-app_assoc. split; [done|]. unfold view at 1.
        rewrite <-Hview, Hm, app_assoc. split; [done|]. set_solver.
      * intros Ho Hg Hin. destruct Hrec as (Ho' & _ & _ & Hg').
        apply Hp; [congruence|auto|]. rewrite Hview. unfold view in Hin. set_solver.
    + intros [= <- <-]. split; [done|]. split; [done|]. intros Ho Hg Hin.
      enough (false = true) by done. apply Hprog; try done.
      intros Hnil. unfold view in Hin. rewrite Hnil in Hin. set_solver.
Qed.

Lemma RecvLine_spec c r c' :
  RecvLine c = (r, c') →
  received c c' ∧
  (∀ l, r = Some l → view c = l ++ chr_nl :: view c' ∧ chr_nl ∉ l) ∧
  (c_open c = true → Forall is_Some (c_reads c) → chr_nl ∈ view c → is_Some r).
Proof.
  unfold RecvLine. intros E. apply recv_line_spec in E as (Hr & Hs & Hp); [|lia].
  split; [done|]. split; [|done]. intros l Hl. by destruct (Hs l Hl) as (m & -> & Hm).
Qed.

Lemma recv_exactly_spec fuel remaining out c r c' :
  remaining < fuel → recv_exactly_loop fuel remaining out c = (r, c') →
  received c c' ∧
  (∀ o, r = Some o → ∃ m, o = out ++ m ∧ view c = m ++ view c' ∧ length m = remaining) ∧
  (c_open c = true → Forall is_Some (c_reads c) → remaining ≤ length (view c) → is_Some r).
Proof.
  revert remaining out c. induction fuel as [|fuel IH]; intros remaining out c Hfuel; [lia|].
  cbn [recv_exactly_loop]. destruct (Nat.eqb_spec remaining 0) as [->|Hrem].
  { intros [= <- <-]. split; [done|]. split; [|by eexists]. intros o [= <-]. exists [].
    by rewrite app_nil_r. }
  unfold io_bind. set (step := if c_pending c == [] then Fill else io_ret true).
  destruct (step c) as [ok c1] eqn:E.
  assert (Hstep : received c c1 ∧ (ok = true → view c1 = view c ∧ c_pending c1 ≠ []) ∧
    (c_open c = true → Forall is_Some (c_reads c) → view c ≠ [] → ok = true)).
  { unfold step in E. case_bool_decide as Hp.
    - apply Fill_spec in E as (Hr & Hok & _ & Hprog). split; [done|].
      unfold view in *. rewrite Hp. split; [|done]. intros ->. destruct Hok as [Hv Hl]; [done|].
      split; [done|]. intros Hn. rewrite Hn in Hv. simpl in Hv. rewrite Hv in Hl. lia.
    - injection E as <- <-. split; [done|]. split; [done|]. done. }
  clear E. destruct Hstep as (Hrec & Hok & Hprog). destruct ok.
  - destruct Hok as [Hview Hne]; [done|]. cbn. intros E.
    assert (Hn : 0 < Nat.min (length (c_pending c1)) remaining).
    { destruct (c_pending c1); [done|]. cbn [length]. lia. }
    set (n := Nat.min _ _) in *. assert (n ≤ length (c_pending c1)) by lia.
    apply IH in E as (Hr & Hs & Hp); [|lia].
    unfold view in Hs, Hp. cbn in Hs, Hp.
    assert (Hsplit : view c = take n (c_pending c1) ++ drop n (c_pending c1) ++ c_in c1).
    { rewrite app_assoc, take_drop. by rewrite <-Hview. }
    split; [by etrans|]. split.
    + intros o Ho. destruct (Hs o Ho) as (m & -> & Hm & Hlen).
      exists (take n (c_pending c1) ++ m). rewrite <-!app_assoc. split; [done|].
      rewrite Hsplit, Hm. split; [done|]. rewrite length_app, length_take. lia.
    + intros Ho Hg Hlen. destruct Hrec as (Ho' & _ & _ & Hg'). apply Hp; [congruence|auto|].
      rewrite Hsplit in Hlen. rewrite (length_app (take _ _)), length_take in Hlen. lia.
  - intros [= <- <-]. split; [done|]. split; [done|]. intros Ho Hg Hlen.
    enough (false = true) by done. apply Hprog; try done.
    intros Hnil. rewrite Hnil in Hlen. simpl in Hlen. lia.
Qed.

Lemma RecvExactly_spec n c r c' :
  RecvExactly n c = (r, c') →
  received c c' ∧
  (∀ o, r = Some o → view c = o ++ view c' ∧ length o = n) ∧
  (c_open c = true → Forall is_Some (c_reads c) → n ≤ length (view c) → is_Some r).
Proof.
  unfold RecvExactly. intros E. apply recv_exactly_spec in E as (Hr & Hs & Hp); [|lia].
  split; [done|]. split; [|done]. intros o Ho. by destruct (Hs o Ho) as (m & -> & Hm).
Qed.
End Receiving.

(** *** what the protocol promises about the daemon *)

(** a key, a build or a count: one blank-separated word of a request line *)
Definition word (w : str) : Prop :=
  w ≠ [] ∧ length w ≤ 4096 ∧ forallb (λ c, negb (is_space c)) w = true.
(** a line the daemon's reader accepts *)
Definition short_line (l : str) : Prop := chr_nl ∉ l ∧ length l < kBufSize.

Definition get_reply (v : option str) : str :=
  match v with
  | None => lit "MISS" ++ nl
  | Some wire => lit "OK " ++ to_string (length wire) ++ nl ++ wire
  end.

Class CacheDaemon (S : Type) `{Peer S} := {
  idle : S → Prop;                       (* between two requests *)
  stored : S → gmap str str;
  identity_of : str → str;
  identity_line p : chr_nl ∉ identity_of p;
  stored_bounded s key v : idle s → stored s !! key = Some v → (N.of_nat (length v) ≤ kMaxObjectSize)%N;
  serves_get s key : idle s → word key →
    ∃ s', feed s (lit "GET " ++ key ++ nl) = (s', get_reply (stored s !! key)) ∧ idle s' ∧ stored s' = stored s;
  serves_has s key : idle s → word key →
    ∃ s', feed s (lit "HAS " ++ key ++ nl) =
            (s', (if bool_decide (is_Some (stored s !! key)) then lit "1" else lit "0") ++ nl) ∧
          idle s' ∧ stored s' = stored s;
  serves_put s key v : idle s → word key → (N.of_nat (length v) ≤ kMaxObjectSize)%N →
    ∃ s', feed s ((lit "PUT " ++ key ++ " " ++ to_string (length v) ++ nl) ++ v) = (s', lit "OK" ++ nl) ∧
          idle s' ∧ stored s' = <[key := v]> (stored s);
  serves_ids s paths : idle s → Forall short_line paths → (N.of_nat (length paths) ≤ 2 ^ 20)%N →
    ∃ s', feed s (lit "IDS " ++ to_string (length paths) ++ nl ++ concat (map (λ p, p ++ nl) paths)) =
            (s', concat (map (λ p, identity_of p ++ nl) paths)) ∧
          idle s' ∧ stored s' = stored s;
}.

Section Sending.
Context {S : Type} `{Peer S}.

Definition faultless (c : client S) : Prop := Forall is_Some (c_reads c) ∧ Forall is_Some (c_writes c).

Lemma send_loop_spec fuel data c ok c' :
  length data < fuel → c_open c = true → send_loop fuel data c = (ok, c') →
  c_open c' = true ∧ c_pending c' = c_pending c ∧ c_reads c' = c_reads c ∧
  (ok = true → c_peer c' = (feed (c_peer c) data).1 ∧ c_in c' = c_in c ++ (feed (c_peer c) data).2) ∧
  (Forall is_Some (c_writes c) → ok = true ∧ Forall is_Some (c_writes c')).
Proof.
  revert data c. induction fuel as [|fuel IH]; intros data c Hfuel Ho; [lia|].
  cbn [send_loop]. case_bool_decide as Hd.
  { intros [= <- <-]. subst data. rewrite feed_nil, app_nil_r. done. }
  rewrite Ho. cbn [negb].
  assert (Hgo : ∀ sent ws, 0 < sent → (Forall is_Some (c_writes c) → Forall is_Some ws) →
    (let '(s, reply) := feed (c_peer c) (take sent data) in
     send_loop fuel (drop sent data) (Client true (c_pending c) (c_in c ++ reply) (c_reads c) ws s)) = (ok, c') →
    c_open c' = true ∧ c_pending c' = c_pending c ∧ c_reads c' = c_reads c ∧
    (ok = true → c_peer c' = (feed (c_peer c) data).1 ∧ c_in c' = c_in c ++ (feed (c_peer c) data).2) ∧
    (Forall is_Some (c_writes c) → ok = true ∧ Forall is_Some (c_writes c'))).
  { intros sent ws Hs Hws E. pose proof (feed_app (c_peer c) (take sent data) (drop sent data)) as Happ.
    rewrite take_drop in Happ. destruct (feed (c_peer c) (take sent data)) as [s1 r1].
    apply IH in E as (H1 & H2 & H3 & H4 & H5); [|rewrite length_drop; destruct data; [done|]; cbn [length] in *; lia|done].
    cbn [c_open c_pending c_reads c_writes c_peer c_in] in *. split_and!; try done; [|auto].
    intros Hok. destruct (H4 Hok) as [Hp Hi]. destruct (feed s1 (drop sent data)) as [s2 r2].
    rewrite Happ, Hp, Hi. cbn [fst snd]. by rewrite app_assoc. }
  assert (0 < length data) by (destruct data; simpl; [done|lia]).
  destruct (c_writes c) as [|[k|] ws] eqn:Hw.
  - apply Hgo; [lia|done].
  - apply Hgo; [lia|]. rewrite Forall_cons. by intros [_ ?].
  - intros [= <- <-]. cbn. split_and!; try done. rewrite Forall_cons. by intros [[? [=]] _].
Qed.

Lemma ask_spec data c ok c' :
  c_open c = true → ask data c = (ok, c') →
  c_open c' = true ∧ c_pending c' = c_pending c ∧ c_reads c' = c_reads c ∧
  (ok = true → c_peer c' = (feed (c_peer c) data).1 ∧ c_in c' = c_in c ++ (feed (c_peer c) data).2) ∧
  (Forall is_Some (c_writes c) → ok = true ∧ Forall is_Some (c_writes c')).
Proof. intros Ho. unfold ask. rewrite Ho. by apply send_loop_spec; [lia|]. Qed.
End Sending.

Section Replies.
Context {S : Type} `{Hpeer : Peer S, !CacheDaemon S}.

(** between two requests, with nothing left unread *)
Definition synced (c : client S) : Prop := c_open c = true ∧ view c = [] ∧ idle (c_peer c).

(** the bytes of a reply cut anywhere *)
Lemma RecvLine_reply l rest (c : client S) r c' :
  view c = l ++ nl ++ rest → chr_nl ∉ l → RecvLine c = (r, c') →
  received c c' ∧ (r = None ∨ (r = Some l ∧ view c' = rest)) ∧
  (c_open c = true → Forall is_Some (c_reads c) → r = Some l).
Proof.
  intros Hv Hl E. apply RecvLine_spec in E as (Hr & Hs & Hp).
  assert (r = None ∨ (r = Some l ∧ view c' = rest)) as Hcase.
  { destruct r as [m|]; [|by left]. right. destruct (Hs m eq_refl) as [Hv' Hm].
    rewrite Hv in Hv'. apply app_sep_inj in Hv' as [-> ->]; done. }
  split; [done|]. split; [done|]. intros Ho Hg. destruct Hcase as [->|[-> _]]; [|done].
  destruct (Hp Ho Hg) as [? [=]]. rewrite Hv. change nl with [chr_nl]. set_solver.
Qed.

(** a pipelined batch: the daemon's replies come in the order of the requests *)
Lemma feed_batch {A} (request reply : A → str) (s : S) (xs : list A) :
  (∀ s' x, x ∈ xs → idle s' → stored s' = stored s →
     ∃ s'', feed s' (request x) = (s'', reply x) ∧ idle s'' ∧ stored s'' = stored s') →
  idle s →
  ∃ s', feed s (concat (map request xs)) = (s', concat (map reply xs)) ∧ idle s' ∧ stored s' = stored s.
Proof.
  intros Hreq. assert (Hs : stored s = stored s) by done. revert Hs. generalize s at 1 3 4 5.
  induction xs as [|x xs IH]; intros s0 Hs Hi; cbn [map concat]; [rewrite feed_nil; by eexists|].
  destruct (Hreq s0 x) as (s1 & Hf & Hi1 & Hs1); [set_solver|done|done|].
  destruct (IH ltac:(intros; apply Hreq; set_solver) s1) as (s2 & Hf2 & Hi2 & Hs2); [congruence|done|].
  exists s2. rewrite feed_app, Hf, Hf2. split; [done|]. split; [done|congruence].
Qed.

(** reading the replies of a batch, one by one *)
Lemma repeat_recv_replies {A B} (recv : io B) (reply : A → str) (value : A → B) (xs : list A)
    (rest : str) (c : client S) :
  (∀ x c r c' rest, x ∈ xs → view c = reply x ++ rest → c_open c = true → Forall is_Some (c_reads c) →
     recv c = (r, c') → received c c' ∧ r = value x ∧ view c' = rest) →
  c_open c = true → Forall is_Some (c_reads c) → view c = concat (map reply xs) ++ rest →
  ∃ c', repeat_recv recv (length xs) c = (map value xs, c') ∧ received c c' ∧ view c' = rest.
Proof.
  intros Hrecv. revert c. induction xs as [|x xs IH]; intros c Ho Hg Hv; [by eexists|].
  cbn [length repeat_recv]. unfold io_bind. destruct (recv c) as [r c1] eqn:E.
  cbn [map concat] in Hv. rewrite <-app_assoc in Hv.
  destruct (Hrecv x c r c1 _ ltac:(set_solver) Hv Ho Hg E) as (Hr & -> & Hv1).
  pose proof Hr as (Ho1 & _ & _ & Hg1).
  destruct (IH ltac:(intros; eapply Hrecv; eauto; set_solver) c1) as (c2 & -> & Hr2 & Hv2);
    [congruence|auto|done|].
  exists c2. split; [done|]. split; [by etrans|done].
Qed.

(** what a request leaves behind when nothing fails *)
Lemma ask_synced data reply (c : client S) s' :
  synced c → faultless c → feed (c_peer c) data = (s', reply) → idle s' →
  ∃ c1, ask data c = (true, c1) ∧ c_open c1 = true ∧ view c1 = reply ∧ c_peer c1 = s' ∧ faultless c1.
Proof.
  intros (Ho & Hv & Hi) [Hg Hw] Hf Hi'. destruct (ask data c) as [ok c1] eqn:E.
  apply ask_spec in E as (H1 & H2 & H3 & H4 & H5); [|done].
  destruct (H5 Hw) as [-> Hw1]. destruct (H4 eq_refl) as [H6 H7].
  exists c1. split; [done|]. split; [done|]. rewrite Hf in H6, H7.
  unfold view in *. apply app_eq_nil in Hv as [Hv1 Hv2].
  rewrite H2, H7, Hv1, Hv2. split; [done|]. split; [done|]. by split; [rewrite H3|].
Qed.

Lemma received_synced (c c' : client S) :
  received c c' → faultless c → c_open c = true → idle (c_peer c) → view c' = [] →
  synced c' ∧ faultless c' ∧ c_peer c' = c_peer c.
Proof.
  intros (H1 & H2 & H3 & H4) [Hg Hw] Ho Hi Hv. unfold synced, faultless.
  rewrite H1, H2, H3. auto.
Qed.

Lemma SendAll_ok data (c : client S) :
  c_open c = true → Forall is_Some (c_writes c) →
  ∃ c1, SendAll data c = (true, c1) ∧ c_open c1 = true ∧ c_reads c1 = c_reads c ∧
    Forall is_Some (c_writes c1) ∧ c_peer c1 = (feed (c_peer c) data).1 ∧
    view c1 = view c ++ (feed (c_peer c) data).2.
Proof.
  intros Ho Hw. destruct (SendAll data c) as [ok c1] eqn:E.
  apply send_loop_spec in E as (H1 & H2 & H3 & H4 & H5); [|lia|done].
  destruct (H5 Hw) as [-> Hw1]. destruct (H4 eq_refl) as [H6 H7]. exists c1.
  unfold view. rewrite H2, H7. by rewrite app_assoc.
Qed.

Lemma HasMany_faultless keys (c : client S) :
  synced c → faultless c → Forall word keys →
  ∃ c', HasMany keys c = (map (λ k, bool_decide (is_Some (stored (c_peer c) !! k))) keys, c') ∧
    synced c' ∧ faultless c' ∧ stored (c_peer c') = stored (c_peer c).
Proof.
  intros Hc Hf Hk. unfold HasMany. case_bool_decide as Hnil; [subst; by eexists|].
  set (reply := λ k, (if bool_decide (is_Some (stored (c_peer c) !! k)) then lit "1" else lit "0") ++ nl).
  destruct (feed_batch (λ k, lit "HAS " ++ k ++ nl) reply (c_peer c) keys) as (s' & Hfeed & Hi' & Hs').
  { intros s x Hx Hi Hs. unfold reply. rewrite <-Hs. apply serves_has; [done|].
    rewrite list.Forall_forall in Hk. auto. }
  { apply Hc. }
  destruct (ask_synced _ _ _ _ Hc Hf Hfeed Hi') as (c1 & Hask & Ho1 & Hv1 & Hp1 & Hf1).
  unfold io_bind at 1. rewrite Hask.
  destruct (repeat_recv_replies (io_bind RecvLine (λ line, io_ret (line == Some (lit "1")))) reply
    (λ k, bool_decide (is_Some (stored (c_peer c) !! k))) keys [] c1) as (c2 & -> & Hr & Hv2).
  { intros k c3 r c4 rest Hin Hv Ho Hg. unfold io_bind, io_ret.
    destruct (RecvLine c3) as [line c5] eqn:E. intros [= <- <-].
    apply (RecvLine_reply (if bool_decide (is_Some (stored (c_peer c) !! k)) then lit "1" else lit "0") rest)
      in E as (Hr & Hs & Hp); [|by rewrite Hv; unfold reply; rewrite <-app_assoc|
        case_bool_decide; not_in].
    specialize (Hp Ho Hg). destruct Hs as [->|[-> Hv4]]; [done|].
    split; [done|]. split; [|done]. by case_bool_decide. }
  { done. } { apply Hf1. } { by rewrite app_nil_r. }
  exists c2. split; [done|]. rewrite <-Hp1 in Hi', Hs'.
  destruct (received_synced c1 c2 Hr Hf1 Ho1 Hi' Hv2) as (Hs2 & Hf2 & Hp2). split; [done|].
  split; [done|]. by rewrite Hp2.
Qed.

Lemma recv_ids_replies paths acc (c : client S) :
  c_open c = true → Forall is_Some (c_reads c) → view c = concat (map (λ p, identity_of p ++ nl) paths) →
  ∃ c', recv_ids (length paths) acc c = (acc ++ map identity_of paths, c') ∧ received c c' ∧ view c' = [].
Proof.
  revert acc c. induction paths as [|p paths IH]; intros acc c Ho Hg Hv; cbn [length recv_ids].
  { exists c. by rewrite app_nil_r. }
  unfold io_bind. destruct (RecvLine c) as [line c1] eqn:E.
  apply (RecvLine_reply (identity_of p) (concat (map (λ p, identity_of p ++ nl) paths))) in E as (Hr & Hs & Hp);
    [|rewrite Hv; cbn [map concat]; by rewrite <-app_assoc|apply identity_line].
  specialize (Hp Ho Hg). destruct Hs as [->|[-> Hv1]]; [done|]. pose proof Hr as (Ho1 & _ & _ & Hg1).
  destruct (IH (acc ++ [identity_of p]) c1) as (c2 & -> & Hr2 & Hv2); [congruence|auto|done|].
  exists c2. split; [by rewrite <-app_assoc|]. split; [by etrans|done].
Qed.

Lemma Identities_faultless paths (c : client S) :
  synced c → faultless c → Forall short_line paths → (N.of_nat (length paths) ≤ 2 ^ 20)%N →
  ∃ c', Identities paths c = (map identity_of paths, c') ∧
    synced c' ∧ faultless c' ∧ stored (c_peer c') = stored (c_peer c).
Proof.
  intros Hc Hf Hp Hn. unfold Identities. case_bool_decide as Hnil; [subst; by eexists|].
  destruct (serves_ids (c_peer c) paths ltac:(apply Hc) Hp Hn) as (s' & Hfeed & Hi' & Hs').
  destruct (ask_synced _ _ _ _ Hc Hf Hfeed Hi') as (c1 & Hask & Ho1 & Hv1 & Hp1 & Hf1).
  unfold io_bind. rewrite Hask. destruct (recv_ids_replies paths [] c1 Ho1 ltac:(apply Hf1) Hv1) as (c2 & -> & Hr & Hv2).
  exists c2. split; [done|]. rewrite <-Hp1 in Hi', Hs'.
  destruct (received_synced c1 c2 Hr Hf1 Ho1 Hi' Hv2) as (Hs2 & Hf2 & Hp2). split; [done|].
  split; [done|]. by rewrite Hp2.
Qed.
End Replies.

Section Protocol.
Context (zstd_decompress : str → option str).
Context {S : Type} `{Hpeer : Peer S, !CacheDaemon S}.
Notation Decompress := (Decompress zstd_decompress).

Lemma RecvValue_reply v rest (c : client S) r c' :
  (∀ w, v = Some w → (N.of_nat (length w) ≤ kMaxObjectSize)%N) →
  view c = get_reply v ++ rest → RecvValue zstd_decompress c = (r, c') →
  received c c' ∧ (r = None ∨ r = v ≫= Decompress) ∧
  (c_open c = true → Forall is_Some (c_reads c) → r = v ≫= Decompress ∧ view c' = rest).
Proof.
  intros Hmax Hv. unfold RecvValue, io_bind. destruct (RecvLine c) as [line c1] eqn:E.
  destruct v as [w|].
  - specialize (Hmax w eq_refl).
    assert (Hl : chr_nl ∉ lit "OK " ++ to_string (length w)).
    { apply not_elem_of_app. split; [not_in|]. by apply fmt_uint_not_in. }
    apply (RecvLine_reply (lit "OK " ++ to_string (length w)) (w ++ rest)) in E as (Hr & Hs & Hp);
      [|rewrite Hv; unfold get_reply; by rewrite <-!app_assoc|done].
    destruct Hs as [->|[-> Hv1]].
    { intros [= <- <-]. split; [done|]. split; [by left|]. intros Ho Hg. by specialize (Hp Ho Hg). }
    change (starts_with (lit "OK " ++ ?x) "OK ") with true. cbn [negb].
    change (drop 3 (lit "OK " ++ ?x)) with x.
    assert ((N.of_nat (length w) < u64_range)%N) by (eapply N.le_lt_trans; [exact Hmax|]; by vm_compute).
    unfold to_string. rewrite ParseUint_fmt by lia.
    replace (kMaxObjectSize <? _)%N with false by (symmetry; apply N.ltb_ge; done).
    rewrite Nat2N.id. destruct (RecvExactly (length w) c1) as [wire c2] eqn:E2.
    apply RecvExactly_spec in E2 as (Hr2 & Hs2 & Hp2). unfold io_ret. intros [= <- <-].
    assert (wire = None ∨ (wire = Some w ∧ view c2 = rest)) as Hw.
    { destruct wire as [o|]; [|by left]. right. destruct (Hs2 o eq_refl) as [Hv2 Hlen].
      rewrite Hv1 in Hv2. apply app_inj_1 in Hv2 as [-> ->]; done. }
    split; [by etrans|]. split; [destruct Hw as [->|[-> _]]; [by left|by right]|].
    intros Ho Hg. destruct Hr as (Ho1 & _ & _ & Hg1). destruct Hw as [->|[-> ?]]; [|done].
    destruct Hp2 as [? [=]]; [congruence|auto|]. rewrite Hv1, length_app. lia.
  - apply (RecvLine_reply "MISS" rest) in E as (Hr & Hs & Hp);
      [|by rewrite Hv; unfold get_reply; rewrite <-!app_assoc|not_in].
    destruct Hs as [->|[-> Hv1]]; unfold io_ret; intros [= <- <-]; (split; [done|]; split; [by left|]).
    + intros Ho Hg. by specialize (Hp Ho Hg).
    + done.
Qed.

Lemma GetMany_faultless keys (c : client S) :
  synced c → faultless c → Forall word keys →
  ∃ c', GetMany zstd_decompress keys c = (map (λ k, stored (c_peer c) !! k ≫= Decompress) keys, c') ∧
    synced c' ∧ faultless c' ∧ stored (c_peer c') = stored (c_peer c).
Proof.
  intros Hc Hf Hk. unfold GetMany. case_bool_decide as Hnil; [subst; by eexists|].
  destruct (feed_batch (λ k, lit "GET " ++ k ++ nl) (λ k, get_reply (stored (c_peer c) !! k)) (c_peer c) keys)
    as (s' & Hfeed & Hi' & Hs').
  { intros s x Hx Hi Hs. rewrite <-Hs. apply serves_get; [done|]. rewrite list.Forall_forall in Hk. auto. }
  { apply Hc. }
  destruct (ask_synced _ _ _ _ Hc Hf Hfeed Hi') as (c1 & Hask & Ho1 & Hv1 & Hp1 & Hf1).
  unfold io_bind. rewrite Hask.
  destruct (repeat_recv_replies (RecvValue zstd_decompress) (λ k, get_reply (stored (c_peer c) !! k))
    (λ k, stored (c_peer c) !! k ≫= Decompress) keys [] c1) as (c2 & -> & Hr & Hv2).
  { intros k c3 r c4 rest Hin Hv Ho Hg E. apply (RecvValue_reply (stored (c_peer c) !! k) rest) in E as (Hr & _ & Hgood);
      [|intros w Hw; eapply stored_bounded; [apply Hc|done]|done].
    split; [done|]. auto. }
  { done. } { apply Hf1. } { by rewrite app_nil_r. }
  exists c2. split; [done|]. rewrite <-Hp1 in Hi', Hs'.
  destruct (received_synced c1 c2 Hr Hf1 Ho1 Hi' Hv2) as (Hs2 & Hf2 & Hp2). split; [done|].
  split; [done|]. by rewrite Hp2.
Qed.


Lemma Get_spec (c : client S) key r (c' : client S) :
  synced c → word key → Get zstd_decompress key c = (r, c') →
  let right := stored (c_peer c) !! key ≫= Decompress in
  (r = None ∨ r = right) ∧
  (faultless c → r = right ∧ synced c' ∧ faultless c' ∧ stored (c_peer c') = stored (c_peer c)).
Proof.
  intros (Ho & Hv & Hi) Hk. unfold Get, io_bind. destruct (ask _ c) as [ok c1] eqn:E.
  apply ask_spec in E as (Ho1 & Hp1 & Hr1 & Hf & Hw); [|done].
  destruct (serves_get (c_peer c) key Hi Hk) as (s' & Hfeed & Hi' & Hs'). rewrite Hfeed in Hf. cbn [fst snd] in Hf.
  unfold view in Hv. apply app_eq_nil in Hv as [Hv1 Hv2].
  destruct ok; [|intros [= <- <-]; split; [by left|]; intros [_ Hfw]; by destruct (Hw Hfw)].
  destruct (Hf eq_refl) as [Hpeer1 Hin1]. intros E.
  apply (RecvValue_reply (stored (c_peer c) !! key) []) in E as (Hrec & Hor & Hgood).
  - split; [done|]. intros [Hg Hwr]. destruct (Hw Hwr) as [_ Hw1].
    destruct (Hgood Ho1) as [-> Hv']; [by rewrite Hr1|]. split; [done|].
    destruct (received_synced c1 c' Hrec) as (Hs2 & Hf2 & Hp2); try done.
    { by split; [rewrite Hr1|]. } { by rewrite Hpeer1. }
    split; [done|]. split; [done|]. by rewrite Hp2, Hpeer1.
  - intros w Hlook. exact (stored_bounded _ _ _ Hi Hlook).
  - unfold view. by rewrite Hp1, Hv1, Hin1, Hv2, app_nil_r.
Qed.
End Protocol.

Section Putting.
Context (zstd_compress : str → option str).
Context {S : Type} `{Hpeer : Peer S, !CacheDaemon S}.
Notation Compress := (Compress zstd_compress).

(** a value whose wire form the daemon takes *)
Definition storable (v : str) : Prop :=
  is_Some (zstd_compress v) ∧ (N.of_nat (length (Compress v)) ≤ kMaxObjectSize)%N.

Lemma send_put_ok key value (c : client S) :
  c_open c = true → Forall is_Some (c_writes c) → idle (c_peer c) → word key → storable value →
  ∃ c1, send_put zstd_compress key value c = (true, c1) ∧ c_open c1 = true ∧ c_reads c1 = c_reads c ∧
    Forall is_Some (c_writes c1) ∧ idle (c_peer c1) ∧
    stored (c_peer c1) = <[key := Compress value]> (stored (c_peer c)) ∧
    view c1 = view c ++ lit "OK" ++ nl.
Proof.
  intros Ho Hw Hi Hk [[frame Hz] Hlen]. unfold send_put.
  assert (Hne : Compress value ≠ []) by (unfold CacheClient.Compress; by rewrite Hz).
  rewrite bool_decide_eq_false_2 by done. unfold io_bind.
  set (header := lit "PUT " ++ key ++ " " ++ to_string (length (Compress value)) ++ nl).
  destruct (serves_put (c_peer c) key (Compress value) Hi Hk Hlen) as (s' & Hf & Hi' & Hs').
  fold header in Hf. rewrite feed_app in Hf.
  destruct (SendAll_ok header c Ho Hw) as (c1 & -> & Ho1 & Hr1 & Hw1 & Hp1 & Hv1).
  destruct (SendAll_ok (Compress value) c1 Ho1 Hw1) as (c2 & -> & Ho2 & Hr2 & Hw2 & Hp2 & Hv2).
  destruct (feed (c_peer c) header) as [s1 r1]. cbn [fst snd] in *. rewrite Hp1 in Hp2, Hv2.
  destruct (feed s1 (Compress value)) as [s2 r2]. cbn [fst snd] in *. injection Hf as -> Hr.
  exists c2. rewrite Hp2, Hr2. split_and!; try done. rewrite Hv2, Hv1, <-app_assoc. by rewrite Hr.
Qed.

Definition put_all (items : list (str * str)) (m : gmap str str) : gmap str str :=
  foldl (λ m kv, <[kv.1 := Compress kv.2]> m) m items.

Lemma put_loop_ok items n (c : client S) :
  c_open c = true → Forall is_Some (c_writes c) → idle (c_peer c) →
  Forall (λ kv, word kv.1 ∧ storable kv.2) items →
  ∃ c1, put_loop zstd_compress items n c = (n + length items, c1) ∧ c_open c1 = true ∧
    c_reads c1 = c_reads c ∧ Forall is_Some (c_writes c1) ∧ idle (c_peer c1) ∧
    stored (c_peer c1) = put_all items (stored (c_peer c)) ∧
    view c1 = view c ++ concat (map (λ _, lit "OK" ++ nl) items).
Proof.
  intros Ho Hw Hi Hit. revert n c Ho Hw Hi.
  induction Hit as [|[key value] items [Hk Hv] _ IH]; intros n c Ho Hw Hi; cbn [put_loop].
  { exists c. rewrite Nat.add_0_r, app_nil_r. done. }
  unfold io_bind. destruct (send_put_ok key value c Ho Hw Hi Hk Hv) as (c1 & -> & Ho1 & Hr1 & Hw1 & Hi1 & Hs1 & Hv1).
  destruct (IH (Datatypes.S n) c1 Ho1 Hw1 Hi1) as (c2 & -> & Ho2 & Hr2 & Hw2 & Hi2 & Hs2 & Hv2).
  exists c2. rewrite Hr2, Hs2, Hs1, Hv2, Hv1, <-app_assoc. split_and!; try done.
  f_equal. cbn [length]. lia.
Qed.

Lemma PutMany_faultless items (c : client S) :
  synced c → faultless c → Forall (λ kv, word kv.1 ∧ storable kv.2) items →
  ∃ c', PutMany zstd_compress items c = (tt, c') ∧ synced c' ∧ faultless c' ∧
    stored (c_peer c') = put_all items (stored (c_peer c)).
Proof.
  intros (Ho & Hv & Hi) [Hg Hw] Hit. unfold PutMany. rewrite Ho. cbn [negb orb].
  case_bool_decide as Hnil; [subst; by eexists|]. unfold io_bind.
  destruct (put_loop_ok items 0 c Ho Hw Hi Hit) as (c1 & -> & Ho1 & Hr1 & Hw1 & Hi1 & Hs1 & Hv1).
  cbn [Nat.add]. rewrite Hv in Hv1. cbn [app] in Hv1.
  destruct (repeat_recv_replies RecvLine (λ _, lit "OK" ++ nl) (λ _, Some (lit "OK")) items [] c1)
    as (c2 & -> & Hr & Hv2).
  { intros x c3 r c4 rest _ Hv3 Ho3 Hg3 E.
    apply (RecvLine_reply "OK" rest) in E as (Hr & Hs & Hp); [|done|not_in].
    specialize (Hp Ho3 Hg3). destruct Hs as [->|[-> Hv4]]; done. }
  { done. } { by rewrite Hr1. } { by rewrite app_nil_r. }
  exists c2. split; [done|].
  destruct (received_synced c1 c2 Hr) as (Hs2 & Hf2 & Hp2); try done.
  { by split; [rewrite Hr1|]. }
  split; [done|]. split; [done|]. by rewrite Hp2.
Qed.

Lemma put_all_lookup items m key value :
  NoDup items.*1 → (key, value) ∈ items → put_all items m !! key = Some (Compress value).
Proof.
  assert (Hskip : ∀ items m, key ∉ items.*1 → put_all items m !! key = m !! key).
  { intros its. induction its as [|[k v] its IH]; intros m' Hk; [done|]. cbn in *.
    unfold put_all in *. cbn. rewrite IH by set_solver. by rewrite lookup_insert_ne by set_solver. }
  revert m. induction items as [|[k v] items IH]; intros m Hnd Hin; [set_solver|].
  apply NoDup_cons in Hnd as [Hk Hnd]. apply elem_of_cons in Hin as [[= -> ->]|Hin].
  - unfold put_all. cbn. fold (put_all items (<[k:=Compress v]> m)). rewrite Hskip by done.
    apply lookup_insert_eq.
  - unfold put_all. cbn. by apply IH.
Qed.

Lemma Put_faultless key value (c : client S) :
  synced c → faultless c → word key → storable value →
  ∃ c', Put zstd_compress key value c = (tt, c') ∧ synced c' ∧ faultless c' ∧
    stored (c_peer c') = <[key := Compress value]> (stored (c_peer c)).
Proof.
  intros (Ho & Hv & Hi) [Hg Hw] Hk Hs. unfold Put. rewrite Ho. cbn [negb]. unfold io_bind.
  destruct (send_put_ok key value c Ho Hw Hi Hk Hs) as (c1 & -> & Ho1 & Hr1 & Hw1 & Hi1 & Hs1 & Hv1).
  destruct (RecvLine c1) as [line c2] eqn:E. rewrite Hv in Hv1.
  apply (RecvLine_reply "OK" []) in E as (Hr & Hc & Hp); [|by rewrite Hv1|not_in].
  rewrite <-Hr1 in Hg. specialize (Hp Ho1 Hg). destruct Hc as [->|[-> Hv2]]; [done|].
  exists c2. split; [done|].
  destruct (received_synced c1 c2 Hr) as (Hs2 & Hf2 & Hp2); try done.
  split; [done|]. split; [done|]. by rewrite Hp2.
Qed.
End Putting.

Lemma hex_word prefix bytes :
  forallb (λ c, negb (is_space c)) prefix = true → prefix ≠ [] →
  length prefix + 2 * length bytes ≤ 4096 → word (prefix ++ HexEncode bytes).
Proof.
  intros Hp Hne Hl. split; [by destruct prefix|]. split; [rewrite length_app, HexEncode_length; lia|].
  rewrite forallb_app, Hp. cbn [andb]. apply forallb_forall. intros c Hc. apply list_elem_of_In in Hc.
  pose proof (HexEncode_digits bytes) as Hd. rewrite list.Forall_forall in Hd. specialize (Hd c Hc).
  clear -Hd. revert Hd. byte_cases c; vm_compute; done.
Qed.
