(* ===== verification/Jigd.v ===== *)
(** * jigd/main.go: the daemon's side of the protocol

    [serve] as a byte transducer: the loop that reads a request line, the body of a PUT and the
    path lines of an IDS become the phases of a machine that takes one byte at a time. The pack
    store is a finite map that never fails or evicts, and a slot is granted at once: this is what
    the daemon does for one client when it does answer; PackServe puts the pack store in its place. The
    machine is an instance of [CacheDaemon]; the theorems about client and daemon together are at the end. *)

From S2P Require Import Prelude Paths Base Keys CacheClient.

(** [strings.Fields] on ASCII text *)
Fixpoint Fields_go (s cur : str) : list str :=
  match s with
  | [] => if cur == [] then [] else [cur]
  | c :: s =>
      if is_space c then if cur == [] then Fields_go s [] else cur :: Fields_go s []
      else Fields_go s (cur ++ [c])
  end.
Definition Fields (s : str) : list str := Fields_go s [].

(** [strconv.ParseInt(s, 10, 64)] *)
Definition ParseInt (s : str) : option Z :=
  let '(neg, digits) :=
    match s with
    | c :: s' => if c == "-"%char then (true, s') else if c == "+"%char then (false, s') else (false, s)
    | [] => (false, s)
    end in
  if digits == [] then None
  else digits_val 10 0 digits ≫= λ v,
    let z := if (neg : bool) then (- Z.of_N v)%Z else Z.of_N v in
    if ((- 2 ^ 63 <=? z) && (z <? 2 ^ 63))%Z then Some z else None.

Inductive phase :=
| InLine (buf : str)                         (* readLine *)
| InBody (key : str) (remaining : nat) (body : str)  (* store.Put reading from the connection *)
| InIds (remaining : nat) (buf : str)             (* ids *)
| HungUp.

(** what identifies a file, and the text of STATS *)
Record env := Env { idents : str → str; idents_line : ∀ p, chr_nl ∉ idents p; stats : str }.

Record jigd (e : env) := Jigd { j_phase : phase; j_store : gmap str str; j_held : gmap str nat }.
Arguments Jigd {e} j_phase j_store j_held.
Arguments j_phase {e} _.
Arguments j_store {e} _.
Arguments j_held {e} _.

Section Serve.
Context {e : env}.

Definition goto (p : phase) (d : jigd e) : jigd e := Jigd p (j_store d) (j_held d).
Definition hang_up (d : jigd e) : jigd e * str := (goto HungUp d, []).
Definition answer (d : jigd e) (reply : str) : jigd e * str := (goto (InLine []) d, reply).

Definition finish_put (d : jigd e) (key body : str) : jigd e * str :=
  (Jigd (InLine []) (<[key := body]> (j_store d)) (j_held d), lit "OK" ++ nl).

(** [put] and the checks of [Store.Put] *)
Definition start_put (d : jigd e) (key : str) (size : Z) : jigd e * str :=
  if (key == []) || (4096 <? length key)%nat || contains_chr key chr_nl || contains_chr key " " ||
     (size <? 0)%Z || (Z.of_N kMaxObjectSize <? size)%Z then hang_up d
  else if (size =? 0)%Z then finish_put d key []
  else (goto (InBody key (Z.to_nat size) []) d, []).

Definition dispatch (d : jigd e) (line : str) : jigd e * str :=
  match Fields line with
  | [cmd; arg] =>
      if cmd == lit "GET" then answer d (get_reply (j_store d !! arg))
      else if cmd == lit "HAS" then
        answer d ((if bool_decide (is_Some (j_store d !! arg)) then lit "1" else lit "0") ++ nl)
      else if cmd == lit "IDS" then
        match ParseInt arg with
        | None => hang_up d
        | Some count =>
            if ((count <? 0) || (2 ^ 20 <? count))%Z then hang_up d
            else if (count =? 0)%Z then answer d [] else (goto (InIds (Z.to_nat count) []) d, [])
        end
      else if cmd == lit "SLOT" then
        (Jigd (InLine []) (j_store d) (<[arg := S (default 0 (j_held d !! arg))]> (j_held d)), lit "OK" ++ nl)
      else if cmd == lit "DONE" then
        (Jigd (InLine []) (j_store d) (<[arg := pred (default 0 (j_held d !! arg))]> (j_held d)), lit "OK" ++ nl)
      else hang_up d
  | [cmd; key; size] =>
      if cmd == lit "PUT" then
        match ParseInt size with None => hang_up d | Some size => start_put d key size end
      else hang_up d
  | [cmd] => if cmd == lit "STATS" then answer d (stats e ++ nl) else hang_up d
  | _ => hang_up d
  end.

Definition feed_byte (d : jigd e) (c : ascii) : jigd e * str :=
  match j_phase d with
  | HungUp => (d, [])
  | InLine buf =>
      if c == chr_nl then dispatch d buf
      else if (S (length buf) <? kBufSize)%nat then (goto (InLine (buf ++ [c])) d, []) else hang_up d
  | InBody key remaining body =>
      if (remaining <=? 1)%nat then finish_put d key (body ++ [c])
      else (goto (InBody key (pred remaining) (body ++ [c])) d, [])
  | InIds remaining buf =>
      if c == chr_nl then
        (goto (if (remaining <=? 1)%nat then InLine [] else InIds (pred remaining) []) d, idents e buf ++ nl)
      else if (S (length buf) <? kBufSize)%nat then (goto (InIds remaining (buf ++ [c])) d, []) else hang_up d
  end.

Fixpoint jigd_feed (d : jigd e) (s : str) : jigd e * str :=
  match s with
  | [] => (d, [])
  | c :: s =>
      let '(d1, r1) := feed_byte d c in let '(d2, r2) := jigd_feed d1 s in (d2, r1 ++ r2)
  end.

(** ** The daemon keeps the protocol *)

#[global] Program Instance jigd_peer : Peer (jigd e) := {| feed := jigd_feed |}.
Next Obligation. done. Qed.
Next Obligation.
  intros d a. revert d. induction a as [|c a IH]; intros d b; cbn [app jigd_feed].
  { by destruct (jigd_feed d b). }
  destruct (feed_byte d c) as [d1 r1]. rewrite IH. destruct (jigd_feed d1 a) as [d2 r2].
  destruct (jigd_feed d2 b) as [d3 r3]. by rewrite app_assoc.
Qed.

Lemma Fields_go_word w s cur :
  forallb (λ c, negb (is_space c)) w = true → Fields_go (w ++ s) cur = Fields_go s (cur ++ w).
Proof.
  revert cur. induction w as [|c w IH]; intros cur Hw; [by rewrite app_nil_r|].
  cbn in Hw. apply andb_true_iff in Hw as [Hc Hw]. apply negb_true_iff in Hc.
  cbn [app Fields_go]. rewrite Hc, IH by done. by rewrite <-app_assoc.
Qed.

(** a field of a request line *)
Definition field (w : str) : Prop := w ≠ [] ∧ forallb (λ c, negb (is_space c)) w = true.

Lemma Fields_word w s : field w → Fields (w ++ " "%char :: s) = w :: Fields s.
Proof.
  intros [Hne Hw]. unfold Fields. rewrite Fields_go_word by done. cbn [Fields_go app].
  change (is_space " ") with true. cbn iota. by rewrite bool_decide_eq_false_2.
Qed.
Lemma Fields_last w : field w → Fields w = [w].
Proof.
  intros [Hne Hw]. unfold Fields. rewrite <-(app_nil_r w) at 1. rewrite Fields_go_word by done.
  cbn. by rewrite bool_decide_eq_false_2.
Qed.

Lemma word_field w : word w → field w.
Proof. by intros (? & _ & ?). Qed.

Lemma numeral_field n : field (to_string n).
Proof.
  unfold to_string. destruct (fmt_uint_spec 10 (N.of_nat n) ltac:(lia)) as (Hne & Hall & _).
  split; [done|]. apply forallb_forall. intros c Hc. apply list_elem_of_In in Hc.
  rewrite list.Forall_forall in Hall. specialize (Hall c Hc). clear -Hall. revert Hall.
  byte_cases c; vm_compute; done.
Qed.

Lemma ParseInt_numeral n : (N.of_nat n < 2 ^ 63)%N → ParseInt (to_string n) = Some (Z.of_nat n).
Proof.
  intros Hn. unfold to_string.
  destruct (fmt_uint_spec 10 (N.of_nat n) ltac:(lia)) as (Hne & Hall & Hval).
  unfold ParseInt. destruct (fmt_uint 10 (N.of_nat n)) as [|c s] eqn:E; [done|].
  apply Forall_cons in Hall as [Hc _].
  rewrite !(bool_decide_eq_false_2 (c = _)) by (intros ->; by vm_compute in Hc).
  cbn iota beta. rewrite bool_decide_eq_false_2 by done. rewrite Hval. cbn.
  rewrite nat_N_Z. replace (_ && _)%Z with true; [done|]. symmetry. apply andb_true_iff.
  split; [apply Z.leb_le|apply Z.ltb_lt]; lia.
Qed.

Lemma dispatch_goto p d l : dispatch (goto p d) l = dispatch d l.
Proof. done. Qed.

Lemma feed_line d buf l :
  j_phase d = InLine buf → chr_nl ∉ l → length buf + length l < kBufSize →
  jigd_feed d (l ++ nl) = dispatch d (buf ++ l).
Proof.
  revert d buf. induction l as [|c l IH]; intros d buf Hp Hl Hlen; cbn [app nl jigd_feed];
    unfold feed_byte; rewrite Hp.
  - change (chr_nl == chr_nl) with true. cbn iota. rewrite app_nil_r.
    destruct (dispatch d buf) as [d1 r1]. by rewrite app_nil_r.
  - rewrite bool_decide_eq_false_2 by set_solver. cbn [length] in Hlen.
    rewrite (proj2 (Nat.ltb_lt _ _)) by lia.
    rewrite (IH _ (buf ++ [c])), dispatch_goto, <-app_assoc; [|done|set_solver|rewrite length_app; cbn [length]; lia].
    by destruct (dispatch d _).
Qed.

Lemma feed_body d key n acc body :
  j_phase d = InBody key n acc → 0 < n → length body = n →
  jigd_feed d body = finish_put d key (acc ++ body).
Proof.
  revert d n acc. induction body as [|c body IH]; intros d n acc Hp Hn Hlen; cbn [length] in Hlen; [lia|].
  cbn [jigd_feed]. unfold feed_byte. rewrite Hp. destruct (Nat.leb_spec n 1) as [Hle|Hgt].
  - destruct body; [|cbn [length] in Hlen; lia]. done.
  - rewrite (IH _ (pred n) (acc ++ [c])), <-app_assoc; [done|done|lia|lia].
Qed.

Lemma feed_path d n buf p :
  j_phase d = InIds n buf → chr_nl ∉ p → length buf + length p < kBufSize →
  jigd_feed d (p ++ nl) =
    (goto (if (n <=? 1)%nat then InLine [] else InIds (pred n) []) d, idents e (buf ++ p) ++ nl).
Proof.
  revert d buf. induction p as [|c p IH]; intros d buf Hp Hl Hlen; cbn [app nl jigd_feed];
    unfold feed_byte; rewrite Hp.
  - change (chr_nl == chr_nl) with true. cbn iota. by rewrite !app_nil_r.
  - rewrite bool_decide_eq_false_2 by set_solver. cbn [length] in Hlen.
    rewrite (proj2 (Nat.ltb_lt _ _)) by lia.
    by rewrite (IH _ (buf ++ [c])), <-app_assoc; [|done|set_solver|rewrite length_app; cbn [length]; lia].
Qed.

Lemma feed_paths d paths :
  j_phase d = InIds (length paths) [] → paths ≠ [] → Forall short_line paths →
  jigd_feed d (concat (map (λ p, p ++ nl) paths)) =
    (goto (InLine []) d, concat (map (λ p, idents e p ++ nl) paths)).
Proof.
  intros Hp Hne Hs. revert d Hp Hne.
  induction Hs as [|p paths [Hnl Hlen] _ IH]; intros d Hp Hne; [done|].
  cbn [map concat]. pose proof (feed_app d (p ++ nl) (concat (map (λ p, p ++ nl) paths))) as Happ.
  cbn [feed jigd_peer] in Happ. rewrite Happ, (feed_path d (length (p :: paths)) []) by done.
  destruct paths as [|q paths]; [cbn; by rewrite !app_nil_r|].
  cbn [length Nat.leb pred]. rewrite IH by done. done.
Qed.

(** between two requests; the store holds nothing larger than a PUT may bring *)
Definition jigd_idle (d : jigd e) : Prop :=
  j_phase d = InLine [] ∧ map_Forall (λ _ v, (N.of_nat (length v) ≤ kMaxObjectSize)%N) (j_store d).

Lemma key_fits key cmd : word key → length cmd ≤ 5 → length (cmd ++ key) < kBufSize.
Proof.
  intros (_ & Hlen & _) Hcmd. rewrite length_app.
  apply (Nat.le_lt_trans _ (5 + 4096)); [lia|]. apply Nat.ltb_lt. by vm_compute.
Qed.

Lemma field_nl w : field w → chr_nl ∉ w.
Proof.
  intros [_ Hw] Hin. rewrite forallb_forall in Hw. apply list_elem_of_In, Hw in Hin. by vm_compute in Hin.
Qed.

(** a one-argument request *)
Lemma feed_request d cmd arg :
  j_phase d = InLine [] → field cmd → word arg → length cmd ≤ 4 →
  jigd_feed d ((cmd ++ " ") ++ arg ++ nl) = dispatch d ((cmd ++ " ") ++ arg) ∧
  Fields ((cmd ++ " ") ++ arg) = [cmd; arg].
Proof.
  intros Hp Hc Ha Hlen. split.
  - rewrite app_assoc. apply (feed_line d []); [done| |].
    + apply not_elem_of_app. split; [|by apply field_nl, word_field].
      apply not_elem_of_app. split; [by apply field_nl|not_in].
    + cbn [length Nat.add]. apply key_fits; [done|]. rewrite length_app. change (length (lit " ")) with 1. lia.
  - rewrite <-app_assoc. change (lit " " ++ arg) with (" "%char :: arg).
    rewrite Fields_word by done. by rewrite Fields_last by (by apply word_field).
Qed.

Lemma numeral_word n : (N.of_nat n ≤ kMaxObjectSize)%N → word (to_string n).
Proof.
  intros Hn. destruct (numeral_field n) as [Hne Hf]. split; [done|]. split; [|done].
  etrans; [apply fmt_uint_length|].
  assert (N.log2 (N.of_nat n) ≤ 31)%N; [|lia].
  change 31%N with (N.log2 kMaxObjectSize). by apply N.log2_le_mono.
Qed.

Lemma jigd_serves_put d key v :
  jigd_idle d → word key → (N.of_nat (length v) ≤ kMaxObjectSize)%N →
  ∃ d', jigd_feed d ((lit "PUT " ++ key ++ " " ++ to_string (length v) ++ nl) ++ v) = (d', lit "OK" ++ nl) ∧
    jigd_idle d' ∧ j_store d' = <[key := v]> (j_store d).
Proof.
  intros [Hp Hb] Hk Hv. pose proof (numeral_word _ Hv) as Hnum.
  exists (finish_put d key v).1. split.
  2: { split; [|done]. split; [done|]. by apply map_Forall_insert_2. }
  pose proof (feed_app d (lit "PUT " ++ key ++ " " ++ to_string (length v) ++ nl) v) as Happ.
  cbn [feed jigd_peer] in Happ. rewrite Happ. clear Happ.
  assert (Hline : jigd_feed d (lit "PUT " ++ key ++ " " ++ to_string (length v) ++ nl) =
    start_put d key (Z.of_nat (length v))).
  { replace (lit "PUT " ++ key ++ " " ++ to_string (length v) ++ nl)
      with ((lit "PUT " ++ key ++ " " ++ to_string (length v)) ++ nl) by (by rewrite <-!app_assoc).
    rewrite (feed_line d []); [|done| |].
    - unfold dispatch. cbn [app]. change (lit "PUT " ++ ?x) with (lit "PUT" ++ " "%char :: x).
      change (lit " " ++ ?x) with (" "%char :: x).
      rewrite Fields_word by done. rewrite Fields_word by (by apply word_field).
      rewrite Fields_last by apply numeral_field. cbn iota.
      change (lit "PUT" == lit "PUT") with true. cbn iota.
      rewrite ParseInt_numeral; [done|]. eapply N.le_lt_trans; [exact Hv|]. by vm_compute.
    - rewrite !not_elem_of_app. split_and!; try not_in; apply field_nl;
        [by apply word_field|apply numeral_field].
    - destruct Hk as (_ & Hkl & _), Hnum as (_ & Hnl & _). rewrite !length_app. cbn [length Nat.add].
      apply (Nat.le_lt_trans _ (5 + 4096 + 4096)); [|apply Nat.ltb_lt; by vm_compute].
      change (length (lit "PUT ")) with 4. change (length (lit " ")) with 1. lia. }
  rewrite Hline. unfold start_put.
  pose proof (word_field _ Hk) as Hkf. destruct Hk as (Hkne & Hkl & Hkw).
  assert (Hsp : " "%char ∉ key).
  { intros Hin. rewrite forallb_forall in Hkw. apply list_elem_of_In, Hkw in Hin. by vm_compute in Hin. }
  rewrite bool_decide_eq_false_2 by done.
  rewrite (proj2 (Nat.ltb_ge _ _)) by lia.
  rewrite (proj2 (contains_chr_false _ _)) by (by apply field_nl).
  rewrite (proj2 (contains_chr_false _ _)) by done.
  rewrite (proj2 (Z.ltb_ge _ 0)) by lia. rewrite (proj2 (Z.ltb_ge _ _)) by lia. cbn [orb].
  destruct (Z.eqb_spec (Z.of_nat (length v)) 0) as [Hz|Hz].
  - destruct v; [done|]. cbn [length] in Hz. lia.
  - rewrite (feed_body _ key (Z.to_nat (Z.of_nat (length v))) []); [done|done|lia|lia].
Qed.

Lemma jigd_serves_ids d paths :
  jigd_idle d → Forall short_line paths → (N.of_nat (length paths) ≤ 2 ^ 20)%N →
  ∃ d', jigd_feed d (lit "IDS " ++ to_string (length paths) ++ nl ++ concat (map (λ p, p ++ nl) paths)) =
          (d', concat (map (λ p, idents e p ++ nl) paths)) ∧
    jigd_idle d' ∧ j_store d' = j_store d.
Proof.
  intros [Hp Hb] Hs Hn. exists (goto (InLine []) d). split; [|done].
  assert (Hnum : word (to_string (length paths))).
  { apply numeral_word. etrans; [exact Hn|]. by vm_compute. }
  destruct (feed_request d "IDS" (to_string (length paths)) Hp) as [Hfeed Hfields]; [done|done|by apply Nat.leb_le|].
  pose proof (feed_app d ((lit "IDS" ++ lit " ") ++ to_string (length paths) ++ nl) (concat (map (λ p, p ++ nl) paths))) as Happ.
  cbn [feed jigd_peer] in Happ. rewrite Hfeed in Happ. unfold dispatch in Happ. rewrite Hfields in Happ.
  change (lit "IDS" == lit "GET") with false in Happ. change (lit "IDS" == lit "HAS") with false in Happ.
  change (lit "IDS" == lit "IDS") with true in Happ. cbn iota in Happ.
  rewrite ParseInt_numeral in Happ by (eapply N.le_lt_trans; [exact Hn|]; by vm_compute).
  rewrite (proj2 (Z.ltb_ge _ 0)) in Happ by lia.
  rewrite (proj2 (Z.ltb_ge _ _)) in Happ by lia. cbn [orb] in Happ.
  change (lit "IDS ") with (lit "IDS" ++ lit " ").
  replace ((lit "IDS" ++ lit " ") ++ to_string (length paths) ++ nl ++ concat (map (λ p, p ++ nl) paths))
    with (((lit "IDS" ++ lit " ") ++ to_string (length paths) ++ nl) ++ concat (map (λ p, p ++ nl) paths))
    by (by rewrite <-!app_assoc).
  etrans; [exact Happ|]. destruct (Z.eqb_spec (Z.of_nat (length paths)) 0) as [Hz|Hz].
  - destruct paths; [done|]. cbn [length] in Hz. lia.
  - rewrite feed_paths; [done| |by intros ->|done]. cbn. by rewrite Nat2Z.id.
Qed.

#[global] Program Instance jigd_daemon : CacheDaemon (jigd e) :=
  {| idle := jigd_idle; stored := j_store; identity_of := idents e |}.
Next Obligation. apply idents_line. Qed.
Next Obligation. intros d key v [_ Hb] Hv. by apply (Hb key v). Qed.
Next Obligation.
  intros d key [Hp Hb] Hk. exists (goto (InLine []) d). split; [|done].
  destruct (feed_request d "GET" key Hp) as [Hfeed Hfields]; [done|done|by apply Nat.leb_le|].
  unfold feed; cbn [jigd_peer]. etrans; [exact Hfeed|]. unfold dispatch. by rewrite Hfields.
Qed.
Next Obligation.
  intros d key [Hp Hb] Hk. exists (goto (InLine []) d). split; [|done].
  destruct (feed_request d "HAS" key Hp) as [Hfeed Hfields]; [done|done|by apply Nat.leb_le|].
  unfold feed; cbn [jigd_peer]. etrans; [exact Hfeed|]. unfold dispatch. by rewrite Hfields.
Qed.
Next Obligation. apply jigd_serves_put. Qed.
Next Obligation. apply jigd_serves_ids. Qed.
End Serve.

(** ** Client and daemon together *)

(** a failing [read] while the identities come in gives up on all of them *)
Lemma recv_ids_any {S} `{CacheDaemon S} paths acc (c : client S) r c' :
  view c = concat (map (λ p, identity_of p ++ nl) paths) → recv_ids (length paths) acc c = (r, c') →
  r = [] ∨ r = acc ++ map identity_of paths.
Proof.
  revert acc c. induction paths as [|p paths IH]; intros acc c Hv; cbn [length recv_ids].
  { intros [= <- <-]. right. by rewrite app_nil_r. }
  unfold io_bind. destruct (RecvLine c) as [line c1] eqn:E.
  apply (RecvLine_reply (identity_of p) (concat (map (λ p, identity_of p ++ nl) paths))) in E as (_ & Hs & _);
    [|rewrite Hv; cbn [map concat]; by rewrite <-app_assoc|apply identity_line].
  destruct Hs as [->|[-> Hv1]]; [intros [= <- <-]; by left|].
  intros E. apply IH in E as [->| ->]; [by left|right|done]. by rewrite <-app_assoc.
Qed.

Section EndToEnd.
Context (zstd_compress zstd_decompress : str → option str).
Context (lossless : ∀ value frame, zstd_compress value = Some frame → zstd_decompress frame = Some value).
Context {S : Type} `{Hpeer : Peer S, !CacheDaemon S}.

(** C10. Whatever the kernel does with the client's reads and writes (short, failing), a GET on a
    connection in step with the daemon yields the value stored under the key or a miss, never
    anything else; when no call fails it yields the stored value, and the connection is in step
    again. *)
Theorem Get_right_or_miss (c : client S) (key : str) (r : option str) (c' : client S) :
  synced c → word key → Get zstd_decompress key c = (r, c') →
  let right := stored (c_peer c) !! key ≫= Decompress zstd_decompress in
  (r = None ∨ r = right) ∧
  (faultless c → r = right ∧ synced c' ∧ faultless c' ∧ stored (c_peer c') = stored (c_peer c)).
Proof. apply Get_spec. Qed.

(** Pipelined PUTs followed by pipelined GETs of the same keys give back every value, in
    order, for any pattern of short reads and writes, and leave the connection in step. *)
Theorem PutMany_GetMany_roundtrip (c : client S) (items : list (str * str)) :
  synced c → faultless c → NoDup items.*1 →
  Forall (λ kv, word kv.1 ∧ storable zstd_compress kv.2 ∧ (N.of_nat (length kv.2) < 2 ^ 32)%N) items →
  let '(_, c1) := PutMany zstd_compress items c in
  let '(values, c2) := GetMany zstd_decompress items.*1 c1 in
  values = Some <$> items.*2 ∧ synced c2.
Proof.
  intros Hc Hf Hnd Hit.
  destruct (PutMany_faultless zstd_compress items c Hc Hf) as (c1 & -> & Hc1 & Hf1 & Hs1).
  { eapply Forall_impl; [exact Hit|]. naive_solver. }
  destruct (GetMany_faultless zstd_decompress items.*1 c1 Hc1 Hf1) as (c2 & -> & Hc2 & _ & _).
  { apply Forall_fmap. eapply Forall_impl; [exact Hit|]. naive_solver. }
  split; [|done]. rewrite <-!list_fmap_compose, Hs1. apply map_ext_in.
  intros [key value] Hin. apply list_elem_of_In in Hin. cbn.
  rewrite (put_all_lookup zstd_compress items _ key value) by done. cbn.
  rewrite list.Forall_forall in Hit. destruct (Hit _ Hin) as (_ & [Hz _] & Hlen).
  by apply (Decompress_Compress zstd_compress zstd_decompress lossless).
Qed.

(** The identities of a batch of paths are the daemon's, one per path in order; when anything
    fails the client returns none at all, so no identity is ever paired with another path. *)
Theorem Identities_all_or_nothing (c : client S) (paths : list str) (ids : list str) (c' : client S) :
  synced c → Forall short_line paths → (N.of_nat (length paths) ≤ 2 ^ 20)%N →
  Identities paths c = (ids, c') →
  (ids = [] ∨ ids = map identity_of paths) ∧ (faultless c → ids = map identity_of paths ∧ synced c').
Proof.
  intros Hc Hp Hn E. split.
  - destruct Hc as (Ho & Hv & Hi). revert E. unfold Identities. case_bool_decide; [intros [= <- <-]; by left|].
    unfold io_bind. destruct (ask _ c) as [ok c1] eqn:E.
    apply ask_spec in E as (_ & Hp1 & _ & Hf & _); [|done].
    destruct ok; [|intros [= <- <-]; by left]. destruct (Hf eq_refl) as [_ Hin].
    destruct (serves_ids (c_peer c) paths Hi Hp Hn) as (s' & Hfeed & _). rewrite Hfeed in Hin.
    unfold view in Hv. apply app_eq_nil in Hv as [Hv1 Hv2].
    apply (recv_ids_any paths []). unfold view. by rewrite Hp1, Hv1, Hin, Hv2.
  - intros Hf. destruct (Identities_faultless paths c Hc Hf Hp Hn) as (c2 & E2 & Hs & _).
    rewrite E2 in E. by simplify_eq.
Qed.

(** A reply never makes the client read more than [kMaxObjectSize] bytes: a value it returns is
    the content of one frame of at most that size, taken whole from the stream, and an announced
    length above the bound (or one that is no number) closes the connection instead. *)
Theorem RecvValue_bounded (c : client S) (r : option str) (c' : client S) :
  RecvValue zstd_decompress c = (r, c') →
  (∀ v, r = Some v → ∃ line wire,
     view c = line ++ nl ++ wire ++ view c' ∧ starts_with line "OK " = true ∧
     ParseUint (drop 3 line) 10 = Some (N.of_nat (length wire)) ∧
     (N.of_nat (length wire) ≤ kMaxObjectSize)%N ∧ Decompress zstd_decompress wire = Some v) ∧
  (∀ line rest, view c = line ++ nl ++ rest → chr_nl ∉ line → starts_with line "OK " = true →
     (∀ len, ParseUint (drop 3 line) 10 = Some len → (kMaxObjectSize < len)%N) →
     c_open c = true → Forall is_Some (c_reads c) → r = None ∧ c_open c' = false ∧ view c' = rest).
Proof.
  unfold RecvValue, io_bind. destruct (RecvLine c) as [line c1] eqn:E1. intros E. split.
  - intros v ->. apply RecvLine_spec in E1 as (_ & Hs & _).
    destruct line as [line|]; [|done]. destruct (Hs line eq_refl) as [Hv1 _]. exists line.
    destruct (starts_with line "OK ") eqn:Hok; [|done]. cbn [negb] in E.
    destruct (ParseUint (drop 3 line) 10) as [len|] eqn:Hlen; [|done].
    destruct (N.ltb_spec kMaxObjectSize len) as [|Hle]; [done|].
    destruct (RecvExactly (N.to_nat len) c1) as [wire c2] eqn:E2. injection E as Hd <-.
    apply RecvExactly_spec in E2 as (_ & Hs2 & _). destruct wire as [wire|]; [|done].
    destruct (Hs2 wire eq_refl) as [Hv2 Hl2]. exists wire. rewrite Hv1, Hv2, Hl2, N2Nat.id. done.
  - intros l rest Hv Hl Hok Hbig Ho Hg.
    apply (RecvLine_reply l rest) in E1 as (_ & Hs & Hp); [|done|done].
    specialize (Hp Ho Hg). destruct Hs as [->|[-> Hv1]]; [done|]. rewrite Hok in E. cbn [negb] in E.
    destruct (ParseUint (drop 3 l) 10) as [len|].
    + rewrite (proj2 (N.ltb_lt _ _)) in E by auto. cbn in E. by injection E as <- <-.
    + cbn in E. by injection E as <- <-.
Qed.
End EndToEnd.

(** *** at a concrete client: the daemon above, a codec that stores as is, reads of one or two bytes *)

Program Definition sample_env : env := Env (λ p, lit "C:" ++ lit "ab") _ "gets=0".
Next Obligation. intros p. vm_compute. set_solver. Qed.

Definition sample_daemon : jigd sample_env :=
  Jigd (InLine []) {[ lit "k" := Compress Some "hi" ]} ∅.
Definition sample_client : client (jigd sample_env) :=
  Client true [] [] [Some 0; Some 1] [Some 2; Some 0] sample_daemon.

Lemma sample_synced : synced sample_client.
Proof.
  split; [done|]. split; [done|]. split; [done|]. apply map_Forall_singleton. by vm_compute.
Qed.
Lemma sample_faultless : faultless sample_client.
Proof. split; repeat constructor; by eexists. Qed.

Lemma Get_right_or_miss_witness :
  (Get Some "k" sample_client).1 = Some (lit "hi") ∧ (Get Some "absent" sample_client).1 = None.
Proof.
  split.
  - destruct (Get Some "k" sample_client) as [r c'] eqn:E.
    destruct (Get_right_or_miss Some sample_client "k" r c') as [_ H];
      [apply sample_synced|split_and!; [done|apply Nat.leb_le; done|done]|exact E|].
    destruct (H sample_faultless) as [-> _]. vm_compute. reflexivity.
  - destruct (Get Some "absent" sample_client) as [r c'] eqn:E.
    destruct (Get_right_or_miss Some sample_client "absent" r c') as [[H|H] _];
      [apply sample_synced|split_and!; [done|apply Nat.leb_le; done|done]|exact E|exact H|].
    cbn [fst]. rewrite H. vm_compute. reflexivity.
Defined.

Lemma PutMany_GetMany_roundtrip_witness :
  let '(_, c1) := PutMany Some [(lit "a", lit "one"); (lit "b", lit "")] sample_client in
  let '(values, c2) := GetMany Some [lit "a"; lit "b"] c1 in
  values = [Some (lit "one"); Some (lit "")].
Proof.
  pose proof (PutMany_GetMany_roundtrip Some Some ltac:(by intros ? ? [= ->]) sample_client
    [(lit "a", lit "one"); (lit "b", lit "")] sample_synced sample_faultless) as H.
  destruct (PutMany _ _ _) as [u c1]. destruct (GetMany _ _ _) as [values c2]. apply H.
  - vm_compute. repeat constructor; set_solver.
  - repeat (apply Forall_cons; split); [| |constructor];
      (split; [split; [done|split; [apply Nat.leb_le; reflexivity|reflexivity]]|];
       split; [split; [by eexists|apply N.leb_le; vm_compute; reflexivity]|apply N.ltb_lt; reflexivity]).
Defined.

Lemma Identities_all_or_nothing_witness :
  (Identities [lit "/nix/store/x"] sample_client).1 = [lit "C:ab"].
Proof.
  destruct (Identities _ sample_client) as [ids c'] eqn:E.
  destruct (Identities_all_or_nothing sample_client [lit "/nix/store/x"] ids c') as [_ H];
    [apply sample_synced| |done|exact E|].
  - constructor; [|constructor]. split; [not_in|apply Nat.ltb_lt; vm_compute; reflexivity].
  - destruct (H sample_faultless) as [-> _]. vm_compute. reflexivity.
Defined.

Lemma RecvValue_bounded_witness :
  (RecvValue Some (Client true (lit "OK 4000000000" ++ nl ++ lit "xyz") [] [] [] sample_daemon)).1 = None ∧
  c_open (RecvValue Some (Client true (lit "OK 4000000000" ++ nl ++ lit "xyz") [] [] [] sample_daemon)).2 = false.
Proof.
  set (c := Client true _ [] [] [] sample_daemon).
  destruct (RecvValue Some c) as [r c'] eqn:E.
  destruct (RecvValue_bounded Some c r c' E) as [_ H].
  cbn [fst snd]. destruct (H (lit "OK 4000000000") (lit "xyz")) as (-> & -> & _); try done.
  - not_in.
  - intros len Hl. vm_compute in Hl. injection Hl as <-. vm_compute. reflexivity.
Defined.
