(* ===== verification/JigdSlots.v ===== *)
(** * slots.go and the slot half of main.go: host-wide admission (src/pkgs/ji/jigd/src)

    [Slots] with its waiting queue, and the connections that take and give back tokens: SLOT, DONE, hanging up.
    Every critical section of the mutex is one step; a goroutine that waits on its channel goes on in a step of
    its own, and the deferred releases of a connection that ended are a step each, so other connections come in
    between. *)

From S2P Require Import Prelude.

(** ** Slots *)

(** [ready]: the channel a waiter waits on, named after its connection *)
Record waiter := Waiter { w_build : str; w_ready : nat }.

Record Slots := Slots_ {
  limit : Z;
  out : Z;
  held : gmap str Z;          (* tokens per build *)
  waiting : list waiter;
}.
Definition NewSlots (limit : Z) : Slots := Slots_ limit 0 ∅ [].

(** a map's entry, 0 if there is none *)
Definition count (m : gmap str Z) (build : str) : Z := default 0%Z (m !! build).
Definition incr (m : gmap str Z) (build : str) : gmap str Z := <[build := (count m build + 1)%Z]> m.

(** the loop over the waiters: the index of the first with the fewest tokens *)
Fixpoint best_loop (held : gmap str Z) (all : list waiter) (i best : nat) (rest : list waiter) : nat :=
  match rest with
  | [] => best
  | w :: rest =>
      let best := match all !! best with
                  | Some b => if (count held (w_build w) <? count held (w_build b))%Z then i else best
                  | None => best
                  end in
      best_loop held all (S i) best rest
  end.
Definition best (s : Slots) : nat := best_loop (held s) (waiting s) 0 0 (waiting s).

(** [grant]: the channels it closes, in order; every turn takes a waiter out of the queue *)
Fixpoint grant_loop (fuel : nat) (s : Slots) : Slots * list nat :=
  match fuel with
  | 0 => (s, [])
  | S fuel =>
      if (out s <? limit s)%Z then
        match waiting s !! best s with
        | None => (s, [])
        | Some w =>
            let waiting' := take (best s) (waiting s) ++ drop (S (best s)) (waiting s) in
            let '(s, closed) := grant_loop fuel (Slots_ (limit s) (out s + 1) (incr (held s) (w_build w)) waiting') in
            (s, w_ready w :: closed)
        end
      else (s, [])
  end.
Definition grant (s : Slots) : Slots * list nat := grant_loop (S (length (waiting s))) s.

(** [Acquire] up to where it may block: whether it goes on at once *)
Definition Acquire (build : str) (ready : nat) (s : Slots) : bool * Slots :=
  if (out s <? limit s)%Z && (length (waiting s) =? 0)%nat then
    (true, Slots_ (limit s) (out s + 1) (incr (held s) build) (waiting s))
  else (false, Slots_ (limit s) (out s) (held s) (waiting s ++ [Waiter build ready])).

Definition Release (build : str) (s : Slots) : Slots * list nat :=
  let n := (count (held s) build - 1)%Z in
  grant (Slots_ (limit s) (out s - 1) (if (n <=? 0)%Z then delete build (held s) else <[build := n]> (held s)) (waiting s)).

Definition Stats (s : Slots) : Z * nat := (out s, length (waiting s)).

(** ** Connections *)

(** where the goroutine of a connection is *)
Inductive where_ := Reading | Blocked (build : str) | Ended.

(** [c_held]: the tokens of the connection per build *)
Record conn := Conn { c_held : gmap str Z; c_at : where_ }.

(** [closed]: the channels that were closed and not yet received from *)
Record server := Server { slots : Slots; conns : list conn; closed : list nat }.
Definition start (limit : Z) : server := Server (NewSlots limit) [] [].

Inductive event :=
| Accept                             (* a connection is accepted *)
| Slot (c : nat) (build : str)       (* SLOT <build> *)
| Wake (c : nat)                     (* <-w.ready *)
| Done (c : nat) (build : str)       (* DONE <build> *)
| End (c : nat)                      (* the loop of serve returns *)
| Defer (c : nat) (build : str).     (* one slots.Release of the deferred function *)

Definition set_conn (c : nat) (k : conn) (s : server) : server := Server (slots s) (<[c := k]> (conns s)) (closed s).
Definition set_slots (r : Slots * list nat) (s : server) : server := Server r.1 (conns s) (closed s ++ r.2).
(** [held[build]--] *)
Definition decr (m : gmap str Z) (build : str) : gmap str Z := <[build := (count m build - 1)%Z]> m.

Definition step (s : server) (e : event) : option server :=
  match e with
  | Accept => Some (Server (slots s) (conns s ++ [Conn ∅ Reading]) (closed s))
  | Slot c build =>
      match conns s !! c with
      | Some (Conn h Reading) =>
          let '(at_once, sl) := Acquire build c (slots s) in
          Some (set_conn c (if at_once : bool then Conn (incr h build) Reading else Conn h (Blocked build))
                  (set_slots (sl, []) s))
      | _ => None
      end
  | Wake c =>
      match conns s !! c with
      | Some (Conn h (Blocked build)) =>
          if bool_decide (c ∈ closed s) then
            Some (set_conn c (Conn (incr h build) Reading)
                    (Server (slots s) (conns s) (List.filter (λ r, negb (r =? c)%nat) (closed s))))
          else None
      | _ => None
      end
  | Done c build =>
      match conns s !! c with
      | Some (Conn h Reading) =>
          Some (if (0 <? count h build)%Z
                then set_conn c (Conn (decr h build) Reading) (set_slots (Release build (slots s)) s)
                else s)
      | _ => None
      end
  | End c =>
      match conns s !! c with
      | Some (Conn h Reading) => Some (set_conn c (Conn h Ended) s)
      | _ => None
      end
  | Defer c build =>
      match conns s !! c with
      | Some (Conn h Ended) =>
          if (0 <? count h build)%Z
          then Some (set_conn c (Conn (decr h build) Ended) (set_slots (Release build (slots s)) s))
          else None
      | _ => None
      end
  end.
Fixpoint steps (s : server) (es : list event) : option server :=
  match es with [] => Some s | e :: es => s ← step s e; steps s es end.

(** ** Counting *)

Fixpoint zsum {A} (f : A → Z) (l : list A) : Z := match l with [] => 0 | x :: l => f x + zsum f l end%Z.

Lemma zsum_app {A} (f : A → Z) l k : zsum f (l ++ k) = (zsum f l + zsum f k)%Z.
Proof. induction l as [|x l IH]; cbn [app zsum]; [done|]. rewrite IH. lia. Qed.

Lemma zsum_insert {A} (f : A → Z) l i x y : l !! i = Some x → zsum f (<[i := y]> l) = (zsum f l - f x + f y)%Z.
Proof.
  revert i. induction l as [|z l IH]; intros [|i] Hi; try done.
  - injection Hi as ->. cbn [insert list_insert zsum]. lia.
  - cbn in Hi. change (<[S i := y]> (z :: l)) with (z :: <[i := y]> l). cbn [zsum]. rewrite (IH i Hi). lia.
Qed.

Lemma zsum_ext {A} (f g : A → Z) l : (∀ x, x ∈ l → f x = g x) → zsum f l = zsum g l.
Proof.
  induction l as [|x l IH]; intros H; [done|]. cbn [zsum]. rewrite (H x) by (by left). rewrite IH; [done|].
  intros y Hy. apply H. by right.
Qed.

Lemma zsum_nonneg {A} (f : A → Z) l : (∀ x, x ∈ l → (0 ≤ f x)%Z) → (0 ≤ zsum f l)%Z.
Proof.
  induction l as [|x l IH]; intros H; [done|]. cbn [zsum]. specialize (H x ltac:(by left)) as Hx.
  assert (∀ y, y ∈ l → (0 ≤ f y)%Z) as Hl by (intros y Hy; apply H; by right). specialize (IH Hl). lia.
Qed.

(** all the tokens of a connection *)
Definition total (m : gmap str Z) : Z := map_fold (λ _ n t, (n + t)%Z) 0%Z m.

Lemma total_split m b : total m = (count m b + total (delete b m))%Z.
Proof.
  unfold count, total. destruct (m !! b) as [n|] eqn:E; cbn [default].
  - rewrite (map_fold_delete_L _ _ b n m); [done| |done]. intros j1 j2 z1 z2 y _ _ _. lia.
  - by rewrite delete_id.
Qed.

Lemma count_insert m b n b' : count (<[b := n]> m) b' = if b == b' then n else count m b'.
Proof.
  unfold count. case_bool_decide as E; [subst; by rewrite lookup_insert_eq|by rewrite lookup_insert_ne].
Qed.
Lemma count_delete m b b' : count (delete b m) b' = if b == b' then 0%Z else count m b'.
Proof. unfold count. case_bool_decide as E; [subst; by rewrite lookup_delete_eq|by rewrite lookup_delete_ne]. Qed.

Lemma tokens_insert m b n : total (<[b := n]> m) = (total m - count m b + n)%Z.
Proof.
  rewrite (total_split (<[b := n]> m) b), (total_split m b), count_insert, bool_decide_eq_true_2 by done.
  rewrite delete_insert_eq. lia.
Qed.

(** one token of a build, for that build *)
Definition one (b b' : str) : Z := if b == b' then 1%Z else 0%Z.

Lemma count_incr m b b' : count (incr m b) b' = (count m b' + one b b')%Z.
Proof. unfold incr, one. rewrite count_insert. case_bool_decide; subst; lia. Qed.
Lemma count_decr m b b' : count (decr m b) b' = (count m b' - one b b')%Z.
Proof. unfold decr, one. rewrite count_insert. case_bool_decide; subst; lia. Qed.
Lemma total_incr m b : total (incr m b) = (total m + 1)%Z.
Proof. unfold incr. rewrite tokens_insert. lia. Qed.
Lemma total_decr m b : total (decr m b) = (total m - 1)%Z.
Proof. unfold decr. rewrite tokens_insert. lia. Qed.

(** ** Who is served *)

(** the first of those with the fewest tokens *)
Definition fewest (held : gmap str Z) (all : list waiter) (j : nat) (w : waiter) : Prop :=
  all !! j = Some w ∧
  ∀ k w', all !! k = Some w' →
    (count held (w_build w) ≤ count held (w_build w'))%Z ∧ (k < j → (count held (w_build w) < count held (w_build w'))%Z).

Lemma best_loop_spec held pre rest b wb :
  b < length pre → pre !! b = Some wb →
  (∀ k w, pre !! k = Some w → (count held (w_build wb) ≤ count held (w_build w))%Z ∧ (k < b → (count held (w_build wb) < count held (w_build w))%Z)) →
  ∃ w, fewest held (pre ++ rest) (best_loop held (pre ++ rest) (length pre) b rest) w.
Proof.
  revert pre b wb. induction rest as [|w rest IH]; intros pre b wb Hb Hwb Hmin; cbn [best_loop].
  - rewrite app_nil_r. exists wb. by split.
  - rewrite lookup_app_l, Hwb by done.
    replace (pre ++ w :: rest) with ((pre ++ [w]) ++ rest) by (by rewrite <-app_assoc).
    replace (S (length pre)) with (length (pre ++ [w])) by (rewrite length_app; cbn; lia).
    destruct (Z.ltb_spec (count held (w_build w)) (count held (w_build wb))).
    + apply (IH _ _ w); [rewrite length_app; cbn; lia|by rewrite lookup_app_r, Nat.sub_diag|].
      intros k w' Hk. destruct (decide (k < length pre)).
      * rewrite lookup_app_l in Hk by done. destruct (Hmin k w' Hk). lia.
      * rewrite lookup_app_r in Hk by lia. destruct (k - length pre) eqn:E; [|done]. injection Hk as <-. split; [lia|]. intros. lia.
    + apply (IH _ _ wb); [rewrite length_app; lia|by rewrite lookup_app_l|].
      intros k w' Hk. destruct (decide (k < length pre)).
      * rewrite lookup_app_l in Hk by done. by apply Hmin.
      * rewrite lookup_app_r in Hk by lia. destruct (k - length pre) eqn:E; [|done]. injection Hk as <-. split; [lia|]. intros. lia.
Qed.

Lemma best_spec s : waiting s ≠ [] → ∃ w, fewest (held s) (waiting s) (best s) w.
Proof.
  intros Hne. unfold best. destruct (waiting s) as [|w rest]; [done|]. cbn [best_loop lookup list_lookup].
  rewrite Z.ltb_irrefl. apply (best_loop_spec (held s) [w] rest 0 w); [cbn; lia|done|].
  intros [|k] w' Hk; [injection Hk as <-; split; [lia|]; intros; lia|done].
Qed.

Lemma best_none s : waiting s !! best s = None → waiting s = [].
Proof.
  intros H. destruct (decide (waiting s = [])) as [|Hne]; [done|]. destruct (best_spec s Hne) as (w & Hw & _). congruence.
Qed.

Lemma take_out {A} (l : list A) j x : l !! j = Some x → l ≡ₚ x :: (take j l ++ drop (S j) l).
Proof. intros H. rewrite <-(take_drop_middle l j x H) at 1. by rewrite Permutation_middle. Qed.

(** what [grant] does: it takes waiters out of the queue, and stops only when the pool is empty or nobody waits *)
Lemma grant_loop_spec fuel s :
  let '(s', woken) := grant_loop fuel s in
  ∃ granted, woken = map w_ready granted ∧ waiting s ≡ₚ granted ++ waiting s' ∧
    limit s' = limit s ∧ out s' = (out s + Z.of_nat (length granted))%Z ∧
    (∀ b, count (held s') b = (count (held s) b + zsum (λ w, one (w_build w) b) granted)%Z) ∧
    ((out s ≤ limit s)%Z → (out s' ≤ limit s)%Z) ∧
    (length (waiting s) < fuel → waiting s' ≠ [] → (limit s ≤ out s')%Z).
Proof.
  revert s. induction fuel as [|fuel IH]; intros s; cbn [grant_loop].
  { exists []. cbn. split_and!; [done|done|done|lia|intros b; lia|done|lia]. }
  destruct (Z.ltb_spec (out s) (limit s)) as [Hlt|Hge].
  2: { exists []. cbn. split_and!; [done|done|done|lia|intros b; lia|lia|lia]. }
  destruct (waiting s !! best s) as [w|] eqn:E.
  2: { exists []. cbn. split_and!; [done|done|done|lia|intros b; lia|lia|]. intros _ Hne. by apply best_none in E. }
  set (waiting' := take (best s) (waiting s) ++ drop (S (best s)) (waiting s)).
  specialize (IH (Slots_ (limit s) (out s + 1) (incr (held s) (w_build w)) waiting')).
  destruct (grant_loop fuel _) as [s' woken]. destruct IH as (granted & -> & Hperm & Hlim & Hout & Hcount & Hmax & Hmin).
  cbn [limit out held waiting] in *. pose proof (take_out _ _ _ E) as Hp. fold waiting' in Hp.
  exists (w :: granted). split_and!; [done| |done| | |intros; apply Hmax; lia|].
  - rewrite Hp. cbn [app]. by rewrite Hperm.
  - rewrite Hout. cbn [length]. lia.
  - intros b. rewrite Hcount, count_incr. cbn [zsum]. lia.
  - intros Hf. apply Hmin. apply Permutation_length in Hp. cbn [length] in Hp. lia.
Qed.

(** ** The invariant *)

Definition blocked (cs : list conn) (c : nat) (b : str) : Prop := ∃ h, cs !! c = Some (Conn h (Blocked b)).
(** the token that a connection was granted and has not taken yet *)
Definition credit (cs : list conn) (b : str) (r : nat) : Z :=
  match cs !! r with Some (Conn _ (Blocked b')) => one b' b | _ => 0%Z end.

(** all but the guarantee that nobody waits while a token is free *)
Record accounted (S : Slots) (cs : list conn) (R : list nat) : Prop := Accounted {
  ac_once : NoDup (map w_ready (waiting S) ++ R);
  ac_queue : ∀ w, w ∈ waiting S → blocked cs (w_ready w) (w_build w);
  ac_closed : ∀ r, r ∈ R → ∃ b, blocked cs r b;
  ac_waits : ∀ c b, blocked cs c b → c ∈ R ∨ Waiter b c ∈ waiting S;
  ac_out : out S = (zsum (λ k, total (c_held k)) cs + Z.of_nat (length R))%Z;
  ac_held : ∀ b, count (held S) b = (zsum (λ k, count (c_held k) b) cs + zsum (credit cs b) R)%Z;
  ac_limit : (out S ≤ limit S)%Z;
  ac_nonneg : ∀ k b, k ∈ cs → (0 ≤ count (c_held k) b)%Z;
}.
Definition busy (S : Slots) : Prop := waiting S ≠ [] → (limit S ≤ out S)%Z.
Definition ok (s : server) : Prop := accounted (slots s) (conns s) (closed s) ∧ busy (slots s).

Lemma blocked_credit cs c b b' : blocked cs c b → credit cs b' c = one b b'.
Proof. intros [h H]. unfold credit. by rewrite H. Qed.

Lemma grant_accounted S cs R : accounted S cs R →
  let '(S', woken) := grant S in accounted S' cs (R ++ woken) ∧ busy S'.
Proof.
  intros [Honce Hqueue Hclosed Hwaits Hout Hheld Hlimit Hnn]. unfold grant. pose proof (grant_loop_spec (Datatypes.S (length (waiting S))) S) as H.
  destruct (grant_loop _ S) as [S' woken]. destruct H as (granted & -> & Hperm & Hlim & Hout' & Hcount & Hmax & Hmin).
  assert (Hin : ∀ w, w ∈ waiting S ↔ w ∈ granted ∨ w ∈ waiting S') by (intros w; rewrite Hperm; apply elem_of_app).
  split; [|unfold busy; rewrite Hlim; intros; apply Hmin; [lia|done]]. split.
  - assert (map w_ready (waiting S) ++ R ≡ₚ map w_ready (waiting S') ++ R ++ map w_ready granted) as <-; [|done].
    rewrite Hperm, map_app. rewrite (app_assoc _ R), (Permutation_app_comm (map w_ready granted)), <-!app_assoc.
    apply Permutation_app_head, Permutation_app_comm.
  - intros w Hw. apply Hqueue, Hin. by right.
  - intros r [Hr|Hr]%elem_of_app; [by apply Hclosed|]. apply list_elem_of_fmap in Hr as (w & -> & Hw). exists (w_build w). apply Hqueue, Hin. by left.
  - intros c b Hb. destruct (Hwaits c b Hb) as [?|Hw]; [left; apply elem_of_app; by left|].
    apply Hin in Hw as [Hw|Hw]; [left|by right]. apply elem_of_app. right. apply list_elem_of_fmap. by exists (Waiter b c).
  - rewrite Hout', Hout, length_app, length_map. lia.
  - intros b. rewrite Hcount, Hheld, zsum_app. rewrite (Z.add_assoc _ _ (zsum _ (map _ _))). f_equal.
    assert (∀ w, w ∈ granted → credit cs b (w_ready w) = one (w_build w) b) as Hc by (intros w Hw; apply blocked_credit, Hqueue, Hin; by left).
    clear -Hc. induction granted as [|w granted IH]; [done|]. cbn [map zsum]. rewrite (Hc w) by (by left). rewrite IH; [done|].
    intros v Hv. apply Hc. by right.
  - rewrite Hlim. by apply Hmax.
  - done.
Qed.

(** *** one connection changes *)

Section Change.
Context (cs : list conn) (c : nat) (k k' : conn) (Hc : cs !! c = Some k).

Lemma blocked_other c' b : c ≠ c' → blocked (<[c := k']> cs) c' b ↔ blocked cs c' b.
Proof using Type. intros Hne. unfold blocked. by rewrite list_lookup_insert_ne. Qed.

Lemma lookup_changed : <[c := k']> cs !! c = Some k'.
Proof using Hc. apply list_lookup_insert_eq. by eapply lookup_lt_Some. Qed.

(** neither waits *)
Lemma blocked_free : (∀ b, c_at k ≠ Blocked b) → (∀ b, c_at k' ≠ Blocked b) →
  (∀ c' b, blocked (<[c := k']> cs) c' b ↔ blocked cs c' b) ∧ (∀ b r, credit (<[c := k']> cs) b r = credit cs b r).
Proof using Hc.
  intros Hk Hk'. split.
  - intros c' b. destruct (decide (c = c')) as [<-|Hne]; [|by apply blocked_other]. unfold blocked. rewrite lookup_changed, Hc.
    split; intros [h [= E]]; exfalso; [by apply (Hk' b); rewrite E|by apply (Hk b); rewrite E].
  - intros b r. destruct (decide (c = r)) as [<-|Hne]; [|unfold credit; by rewrite list_lookup_insert_ne].
    unfold credit. rewrite lookup_changed, Hc. destruct k as [h []], k' as [h' []]; try done; naive_solver.
Qed.

Lemma conn_changed (P : conn → Prop) : (∀ x, x ∈ cs → P x) → P k' → ∀ x, x ∈ <[c := k']> cs → P x.
Proof using Type.
  intros Hall Hk' x (i & Hi)%list_elem_of_lookup. destruct (decide (c = i)) as [<-|Hne].
  - destruct (decide (c < length cs)); [rewrite list_lookup_insert_eq in Hi by done; by injection Hi as <-|].
    rewrite list_insert_ge in Hi by lia. apply Hall. by eapply list_elem_of_lookup_2.
  - rewrite list_lookup_insert_ne in Hi by done. apply Hall. by eapply list_elem_of_lookup_2.
Qed.
End Change.

Lemma zsum_credit_other cs c k' b R : c ∉ R → zsum (credit (<[c := k']> cs) b) R = zsum (credit cs b) R.
Proof.
  intros Hc. apply zsum_ext. intros r Hr. unfold credit. rewrite list_lookup_insert_ne; [done|]. intros ->. done.
Qed.

(** a connection that does not wait is in no queue *)
Lemma reading_absent S cs R c h : accounted S cs R → cs !! c = Some (Conn h Reading) →
  c ∉ map w_ready (waiting S) ++ R.
Proof.
  intros Hac Hc [H|H]%elem_of_app.
  - apply list_elem_of_fmap in H as (w & -> & Hw). destruct (ac_queue _ _ _ Hac w Hw) as [h' H']. congruence.
  - destruct (ac_closed _ _ _ Hac c H) as (b & h' & H'). congruence.
Qed.

(** a token comes back: the state that [grant] starts from *)
Lemma give_back S cs R c h at_ b :
  accounted S cs R → cs !! c = Some (Conn h at_) → (∀ x, at_ ≠ Blocked x) → (0 < count h b)%Z →
  let n := (count (held S) b - 1)%Z in
  accounted (Slots_ (limit S) (out S - 1) (if (n <=? 0)%Z then delete b (held S) else <[b := n]> (held S)) (waiting S))
    (<[c := Conn (decr h b) at_]> cs) R.
Proof.
  intros Hac Hc Hat Hpos n. pose proof Hac as [Honce Hqueue Hclosed Hwaits Hout Hheld Hlimit Hnn].
  destruct (blocked_free cs c (Conn h at_) (Conn (decr h b) at_) Hc Hat Hat) as [Hbl Hcr].
  assert (Hn : (0 ≤ n)%Z).
  { unfold n. rewrite Hheld.
    assert (count h b ≤ zsum (λ k, count (c_held k) b) cs)%Z as H1.
    { pose proof (zsum_insert (λ k, count (c_held k) b) cs c _ (Conn ∅ at_) Hc) as H. cbn [c_held] in H.
      assert (0 ≤ zsum (λ k, count (c_held k) b) (<[c := Conn ∅ at_]> cs))%Z as H2
        by (apply zsum_nonneg; apply conn_changed; [by intros k Hk; apply Hnn|done]).
      change (count ∅ b) with 0%Z in H. lia. }
    assert (0 ≤ zsum (credit cs b) R)%Z as H2
      by (apply zsum_nonneg; intros r _; unfold credit, one; destruct (cs !! r) as [[? []]|]; try done; by case_bool_decide).
    lia. }
  split; cbn [limit out held waiting].
  - done.
  - intros w Hw. by apply Hbl, Hqueue.
  - intros r Hr. destruct (Hclosed r Hr) as [x Hx]. exists x. by apply Hbl.
  - intros c' x Hx. by apply Hwaits, Hbl.
  - rewrite (zsum_insert _ _ _ _ _ Hc). cbn [c_held]. rewrite total_decr. lia.
  - intros x. rewrite (zsum_insert _ _ _ _ _ Hc). cbn [c_held]. rewrite count_decr.
    rewrite (zsum_ext (credit (<[c := _]> cs) x) (credit cs x)) by (intros; apply Hcr).
    assert (count (if (n <=? 0)%Z then delete b (held S) else <[b := n]> (held S)) x = count (held S) x - one b x)%Z as ->.
    { unfold one. destruct (Z.leb_spec n 0); [rewrite count_delete|rewrite count_insert]; case_bool_decide; subst; lia. }
    rewrite Hheld. lia.
  - lia.
  - intros k x. apply (conn_changed cs c (Conn (decr h b) at_) (λ k, (0 ≤ count (c_held k) x)%Z)); [intros; by apply Hnn|].
    cbn [c_held]. rewrite count_decr. unfold one. pose proof (Hnn (Conn h at_) x ltac:(by eapply list_elem_of_lookup_2)) as Hx. cbn [c_held] in Hx.
    case_bool_decide; subst; lia.
Qed.

Lemma start_ok n : (0 ≤ n)%Z → ok (start n).
Proof.
  intros Hn. split; [|intros Hw; by destruct Hw]. split; cbn; try done; [apply NoDup_nil_2|set_solver|set_solver|by intros c b [h Hh]|set_solver].
Qed.

Lemma accept_ok s : ok s → ok (Server (slots s) (conns s ++ [Conn ∅ Reading]) (closed s)).
Proof.
  intros [[Honce Hqueue Hclosed Hwaits Hout Hheld Hlimit Hnn] Hb]. split; [|done].
  assert (Hbl : ∀ c b, blocked (conns s ++ [Conn ∅ Reading]) c b ↔ blocked (conns s) c b).
  { intros c b. unfold blocked. split; intros [h Hh]; exists h.
    - apply lookup_app_Some in Hh as [?|[_ Hh]]; [done|]. destruct (c - length (conns s)) as [|[|?]]; done.
    - by apply lookup_app_l_Some. }
  split; cbn [slots conns closed]; try done.
  - intros w Hw. by apply Hbl, Hqueue.
  - intros r Hr. destruct (Hclosed r Hr) as [b H]. exists b. by apply Hbl.
  - intros c b Hc. by apply Hwaits, Hbl.
  - rewrite zsum_app, Hout. change (zsum _ [Conn ∅ Reading]) with (total ∅ + 0)%Z. change (total ∅) with 0%Z. lia.
  - intros b. rewrite zsum_app, Hheld. change (zsum _ [Conn ∅ Reading]) with (count ∅ b + 0)%Z. change (count ∅ b) with 0%Z.
    rewrite (zsum_ext (credit (conns s ++ [_]) b) (credit (conns s) b)); [lia|].
    intros r Hr. destruct (Hclosed r Hr) as (x & h & Hx). unfold credit. rewrite lookup_app_l; [done|by eapply lookup_lt_Some].
  - intros k b [Hk|Hk]%elem_of_app; [by apply Hnn|]. apply list_elem_of_singleton in Hk as ->. done.
Qed.

Lemma slot_ok s c h b : ok s → conns s !! c = Some (Conn h Reading) →
  let '(at_once, sl) := Acquire b c (slots s) in
  ok (set_conn c (if at_once : bool then Conn (incr h b) Reading else Conn h (Blocked b)) (set_slots (sl, []) s)).
Proof.
  intros [Hac Hbusy] Hc. pose proof (reading_absent _ _ _ _ _ Hac Hc) as Habs. pose proof Hac as [Honce Hqueue Hclosed Hwaits Hout Hheld Hlimit Hnn].
  apply not_elem_of_app in Habs as [Hab1 Hab2]. unfold Acquire.
  destruct ((out (slots s) <? limit (slots s))%Z && (length (waiting (slots s)) =? 0)%nat) eqn:E; unfold set_conn, set_slots; cbn [slots conns closed fst snd]; rewrite app_nil_r.
  - apply andb_true_iff in E as [E1%Z.ltb_lt E2%Nat.eqb_eq]. apply length_zero_iff_nil in E2.
    destruct (blocked_free (conns s) c _ (Conn (incr h b) Reading) Hc ltac:(done) ltac:(done)) as [Hbl Hcr].
    split; [|unfold busy; cbn; intros Hw; by destruct Hw]. split; cbn [limit out held waiting slots conns closed]; try done.
    + intros w Hw. by apply Hbl, Hqueue.
    + intros r Hr. destruct (Hclosed r Hr) as [x Hx]. exists x. by apply Hbl.
    + intros c' x Hx. by apply Hwaits, Hbl.
    + rewrite (zsum_insert _ _ _ _ _ Hc). cbn [c_held]. rewrite total_incr. lia.
    + intros x. rewrite (zsum_insert _ _ _ _ _ Hc). cbn [c_held]. rewrite !count_incr, Hheld.
      rewrite (zsum_ext (credit (<[c := _]> (conns s)) x) (credit (conns s) x)) by (intros; apply Hcr). lia.
    + lia.
    + intros k x. apply (conn_changed _ c (Conn (incr h b) Reading) (λ k, (0 ≤ count (c_held k) x)%Z)); [intros; by apply Hnn|].
      cbn [c_held]. rewrite count_incr. pose proof (Hnn _ x (list_elem_of_lookup_2 _ _ _ Hc)) as Hx. cbn [c_held] in Hx. unfold one. case_bool_decide; lia.
  - assert (Hbl : ∀ c' x, blocked (<[c := Conn h (Blocked b)]> (conns s)) c' x ↔ (c' = c ∧ x = b) ∨ blocked (conns s) c' x).
    { intros c' x. destruct (decide (c = c')) as [<-|Hne].
      - unfold blocked. rewrite (lookup_changed _ _ _ _ Hc), Hc. split; [intros [h' [= _ ->]]; by left|].
        intros [[_ ->]|[h' H']]; [by eexists|done].
      - rewrite blocked_other by done. split; [by right|]. intros [[-> _]|H]; done. }
    split; [|unfold busy; cbn [waiting limit out slots]; intros _; apply andb_false_iff in E as [E%Z.ltb_ge|E%Nat.eqb_neq];
      [done|apply Hbusy; by destruct (waiting (slots s))]].
    split; cbn [limit out held waiting slots conns closed]; try done.
    + rewrite map_app, <-app_assoc. cbn [map w_ready app]. rewrite <-Permutation_middle. apply NoDup_cons. split; [|done].
      rewrite elem_of_app. tauto.
    + intros w [Hw|Hw]%elem_of_app; apply Hbl; [right; by apply Hqueue|]. apply list_elem_of_singleton in Hw as ->. by left.
    + intros r Hr. destruct (Hclosed r Hr) as [x Hx]. exists x. apply Hbl. by right.
    + intros c' x [[-> ->]|Hx]%Hbl; [right; apply elem_of_app; right; by left|].
      destruct (Hwaits c' x Hx); [by left|right; apply elem_of_app; by left].
    + rewrite (zsum_insert _ _ _ _ _ Hc). cbn [c_held]. lia.
    + intros x. rewrite (zsum_insert _ _ _ _ _ Hc). cbn [c_held]. rewrite zsum_credit_other, Hheld by done. lia.
    + intros k x. apply (conn_changed _ c (Conn h (Blocked b)) (λ k, (0 ≤ count (c_held k) x)%Z)); [intros; by apply Hnn|].
      apply (Hnn (Conn h Reading) x). by eapply list_elem_of_lookup_2.
Qed.

Lemma filter_closed (R : list nat) c : NoDup R → c ∈ R → R ≡ₚ c :: List.filter (λ r, negb (r =? c)%nat) R.
Proof.
  induction 1 as [|r R Hr Hnd IH]; intros Hc; [by apply elem_of_nil in Hc|]. cbn [List.filter].
  destruct (Nat.eqb_spec r c) as [->|Hne]; cbn [negb].
  - f_equiv. assert (List.filter (λ r, negb (r =? c)%nat) R = R) as ->; [|done].
    clear IH Hnd Hc. induction R as [|x R IH]; [done|]. cbn [List.filter]. apply not_elem_of_cons in Hr as [Hx Hr].
    rewrite (proj2 (Nat.eqb_neq _ _)) by done. cbn [negb]. by rewrite IH.
  - apply elem_of_cons in Hc as [->|Hc]; [done|]. rewrite IH at 1 by done. apply Permutation_swap.
Qed.

Lemma wake_ok s c h b : ok s → conns s !! c = Some (Conn h (Blocked b)) → c ∈ closed s →
  ok (set_conn c (Conn (incr h b) Reading) (Server (slots s) (conns s) (List.filter (λ r, negb (r =? c)%nat) (closed s)))).
Proof.
  intros [[Honce Hqueue Hclosed Hwaits Hout Hheld Hlimit Hnn] Hbusy] Hc Hin.
  pose proof (proj1 (NoDup_app _ _) Honce) as (HndW & Hdisj & HndR). pose proof (filter_closed _ _ HndR Hin) as Hp.
  set (R' := List.filter _ (closed s)) in *. assert (Hc' : c ∉ R') by (rewrite Hp in HndR; by apply NoDup_cons in HndR as [? _]).
  assert (HcW : ∀ w, w ∈ waiting (slots s) → w_ready w ≠ c).
  { intros w Hw Heq. apply (Hdisj (w_ready w)); [apply list_elem_of_fmap; by exists w|by rewrite Heq]. }
  assert (Hsub : ∀ r, r ∈ R' → r ∈ closed s ∧ r ≠ c) by (intros r Hr; split; [rewrite Hp; by right|by intros ->]).
  unfold set_conn. cbn [slots conns closed]. split; [|done]. split; cbn [slots conns closed]; try done.
  - rewrite Hp in Honce. rewrite <-Permutation_middle in Honce. by apply NoDup_cons in Honce as [_ ?].
  - intros w Hw. apply blocked_other; [intros E; by apply (HcW w Hw)|by apply Hqueue].
  - intros r Hr. destruct (Hsub r Hr) as [Hr1 Hr2]. destruct (Hclosed r Hr1) as [x Hx]. exists x. by apply blocked_other.
  - intros c' x Hx. destruct (decide (c = c')) as [<-|Hne].
    { destruct Hx as [h' Hx]. rewrite (lookup_changed _ _ _ _ Hc) in Hx. done. }
    apply blocked_other in Hx; [|done]. destruct (Hwaits c' x Hx) as [Hr|Hw]; [left|by right].
    rewrite Hp in Hr. by apply elem_of_cons in Hr as [->|?].
  - rewrite (zsum_insert _ _ _ _ _ Hc). cbn [c_held]. rewrite total_incr. rewrite Hout. apply Permutation_length in Hp. rewrite Hp. cbn [length]. lia.
  - intros x. rewrite (zsum_insert _ _ _ _ _ Hc). cbn [c_held]. rewrite count_incr, zsum_credit_other, Hheld by done.
    assert (zsum (credit (conns s) x) (closed s) = one b x + zsum (credit (conns s) x) R')%Z as ->.
    { assert (∀ l l' : list nat, l ≡ₚ l' → zsum (credit (conns s) x) l = zsum (credit (conns s) x) l') as Hperm
        by (induction 1; cbn [zsum]; lia).
      rewrite (Hperm _ _ Hp). cbn [zsum]. f_equal. unfold credit. by rewrite Hc. }
    lia.
  - intros k x. apply (conn_changed _ c (Conn (incr h b) Reading) (λ k, (0 ≤ count (c_held k) x)%Z)); [intros; by apply Hnn|].
    cbn [c_held]. rewrite count_incr. pose proof (Hnn _ x (list_elem_of_lookup_2 _ _ _ Hc)) as Hx. cbn [c_held] in Hx. unfold one. case_bool_decide; lia.
Qed.

Lemma release_ok s c h at_ b : ok s → conns s !! c = Some (Conn h at_) → (∀ x, at_ ≠ Blocked x) → (0 < count h b)%Z →
  ok (set_conn c (Conn (decr h b) at_) (set_slots (Release b (slots s)) s)).
Proof.
  intros [Hac _] Hc Hat Hpos. pose proof (give_back _ _ _ _ _ _ b Hac Hc Hat Hpos) as Hg. cbv zeta in Hg.
  apply grant_accounted in Hg. unfold Release. cbv zeta. destruct (grant _) as [S' woken]. destruct Hg as [Hg Hb]. by split.
Qed.

Lemma end_ok s c h : ok s → conns s !! c = Some (Conn h Reading) → ok (set_conn c (Conn h Ended) s).
Proof.
  intros [[Honce Hqueue Hclosed Hwaits Hout Hheld Hlimit Hnn] Hbusy] Hc.
  destruct (blocked_free (conns s) c _ (Conn h Ended) Hc ltac:(done) ltac:(done)) as [Hbl Hcr].
  split; [|done]. split; cbn [set_conn slots conns closed]; try done.
  - intros w Hw. by apply Hbl, Hqueue.
  - intros r Hr. destruct (Hclosed r Hr) as [x Hx]. exists x. by apply Hbl.
  - intros c' x Hx. by apply Hwaits, Hbl.
  - rewrite (zsum_insert _ _ _ _ _ Hc). cbn [c_held]. lia.
  - intros x. rewrite (zsum_insert _ _ _ _ _ Hc). cbn [c_held].
    rewrite (zsum_ext (credit (<[c := _]> (conns s)) x) (credit (conns s) x)) by (intros; apply Hcr). rewrite Hheld. lia.
  - intros k x. apply (conn_changed _ c (Conn h Ended) (λ k, (0 ≤ count (c_held k) x)%Z)); [intros; by apply Hnn|].
    apply (Hnn (Conn h Reading) x). by eapply list_elem_of_lookup_2.
Qed.

Lemma step_ok s e s' : ok s → step s e = Some s' → ok s'.
Proof.
  intros Hok Hs. destruct e as [|c b|c|c b|c|c b]; cbn [step] in Hs.
  - injection Hs as <-. by apply accept_ok.
  - destruct (conns s !! c) as [[h []]|] eqn:Hc; try done. pose proof (slot_ok s c h b Hok Hc) as H.
    destruct (Acquire b c (slots s)) as [at_once sl]. by injection Hs as <-.
  - destruct (conns s !! c) as [[h [|b|]]|] eqn:Hc; try done. case_bool_decide as Hin; [|done]. injection Hs as <-. by apply wake_ok.
  - destruct (conns s !! c) as [[h []]|] eqn:Hc; try done. injection Hs as <-. destruct (Z.ltb_spec 0 (count h b)); [|done]. by apply (release_ok s c h Reading).
  - destruct (conns s !! c) as [[h []]|] eqn:Hc; try done. injection Hs as <-. by apply end_ok.
  - destruct (conns s !! c) as [[h []]|] eqn:Hc; try done. destruct (Z.ltb_spec 0 (count h b)); [|done]. injection Hs as <-. by apply (release_ok s c h Ended).
Qed.

Lemma steps_ok es s s' : ok s → steps s es = Some s' → ok s'.
Proof.
  revert s. induction es as [|e es IH]; intros s Hok Hs; cbn [steps] in Hs; [by injection Hs as <-|].
  destruct (step s e) as [s1|] eqn:E; [|done]. cbn [mbind option_bind] in Hs. eapply IH; [|done]. by eapply step_ok.
Qed.

Lemma grant_limit s : limit (grant s).1 = limit s.
Proof.
  unfold grant. pose proof (grant_loop_spec (Datatypes.S (length (waiting s))) s) as H. destruct (grant_loop _ s) as [s' woken].
  by destruct H as (granted & _ & _ & Hl & _).
Qed.

Lemma step_limit s e s' : step s e = Some s' → limit (slots s') = limit (slots s).
Proof.
  intros Hs. destruct e as [|c b|c|c b|c|c b]; cbn [step] in Hs; [by injection Hs as <-|..];
    destruct (conns s !! c) as [[h []]|] eqn:Hc; try done.
  - destruct (Acquire b c (slots s)) as [at_once sl] eqn:E. injection Hs as <-. unfold Acquire in E.
    destruct (_ && _); by injection E as <- <-.
  - case_bool_decide; [|done]. by injection Hs as <-.
  - injection Hs as <-. destruct (_ <? _)%Z; [|done]. unfold set_conn, set_slots, Release. cbn [slots]. by rewrite grant_limit.
  - by injection Hs as <-.
  - destruct (_ <? _)%Z; [|done]. injection Hs as <-. unfold set_conn, set_slots, Release. cbn [slots]. by rewrite grant_limit.
Qed.

Lemma steps_limit es s s' : steps s es = Some s' → limit (slots s') = limit (slots s).
Proof.
  revert s. induction es as [|e es IH]; intros s Hs; cbn [steps] in Hs; [by injection Hs as <-|].
  destruct (step s e) as [s1|] eqn:E; [|done]. cbn [mbind option_bind] in Hs. rewrite (IH s1 Hs). by eapply step_limit.
Qed.

Lemma total_zero m : (∀ b, count m b = 0%Z) → total m = 0%Z.
Proof.
  induction m as [|b n m Hb IH] using map_ind; intros H; [done|]. rewrite (total_split _ b), delete_insert_id by done.
  rewrite H, IH; [done|]. intros b'. specialize (H b'). rewrite count_insert in H. case_bool_decide; [|done].
  subst. unfold count. by rewrite Hb.
Qed.

(** all the tokens of all connections: the compilers that may be running *)
Definition tokens (s : server) : Z := zsum (λ k, total (c_held k)) (conns s).

(** C13. The host admits at most [n] compilers and wastes no slot. Whatever the connections do, in any order and
    with any interleaving of their goroutines (asking for slots, giving back more than they have, hanging up
    while they hold tokens or wait for one): together they never hold more than [n] tokens; a connection
    waits for a token only while all [n] are out or on their way to a waiter; the tokens counted for a
    build are those its connections hold or were granted; and when every connection has ended and its deferred
    releases ran, no token is out and nobody is in the queue. *)
Theorem slots_admit (n : Z) (es : list event) (s : server) :
  (0 ≤ n)%Z → steps (start n) es = Some s →
  (tokens s + Z.of_nat (length (closed s)) ≤ n)%Z ∧
  (∀ c b, blocked (conns s) c b → c ∉ closed s → (tokens s + Z.of_nat (length (closed s)) = n)%Z) ∧
  (∀ b, count (held (slots s)) b = (zsum (λ k, count (c_held k) b) (conns s) + zsum (credit (conns s) b) (closed s))%Z) ∧
  ((∀ k, k ∈ conns s → c_at k = Ended ∧ ∀ b, count (c_held k) b = 0%Z) → Stats (slots s) = (0%Z, 0)).
Proof.
  intros Hn Hs. pose proof (steps_limit _ _ _ Hs) as Hlim. cbn in Hlim. destruct (steps_ok _ _ _ (start_ok n Hn) Hs) as [[Honce Hqueue Hclosed Hwaits Hout Hheld Hlimit Hnn] Hbusy].
  unfold tokens. rewrite <-Hout. split; [lia|]. split.
  { intros c b Hb Hc. destruct (Hwaits c b Hb) as [?|Hw]; [done|].
    assert (waiting (slots s) ≠ []) as Hne by (intros E; rewrite E in Hw; by apply elem_of_nil in Hw). specialize (Hbusy Hne). lia. }
  split; [done|]. intros Hend.
  assert (∀ c b, ¬ blocked (conns s) c b) as Hno.
  { intros c b [h Hc]. destruct (Hend _ (list_elem_of_lookup_2 _ _ _ Hc)) as [? _]. done. }
  assert (closed s = []) as Ec.
  { destruct (closed s) as [|r R]; [done|]. destruct (Hclosed r) as [b Hb]; [by left|]. by apply Hno in Hb. }
  assert (waiting (slots s) = []) as Ew.
  { destruct (waiting (slots s)) as [|w W]; [done|]. destruct (Hno (w_ready w) (w_build w)). apply Hqueue. by left. }
  unfold Stats. rewrite Ew, Hout, Ec. cbn [length]. f_equal.
  rewrite (zsum_ext _ (λ _, 0%Z)) by (intros k Hk; apply total_zero; by apply Hend). clear. induction (conns s) as [|k l IH]; [done|]. cbn [zsum] in *. lia.
Qed.

(** A slot that comes back goes to exactly one waiter, one whose build holds the fewest slots (counted after
    the return), and among equals to the one that has waited longest; with nobody waiting it goes back to the
    pool. *)
Theorem Release_serves (b : str) (s : Slots) :
  out s = limit s →
  let '(s', woken) := Release b s in
  (waiting s = [] → woken = [] ∧ out s' = (limit s - 1)%Z) ∧
  (waiting s ≠ [] → ∃ held' j w, (∀ b', count held' b' = if b == b' then Z.max 0 (count (held s) b - 1) else count (held s) b') ∧
     fewest held' (waiting s) j w ∧ woken = [w_ready w] ∧
     waiting s' = take j (waiting s) ++ drop (S j) (waiting s) ∧ out s' = limit s ∧ held s' = incr held' (w_build w)).
Proof.
  intros Hout. unfold Release. cbv zeta. set (n := (count (held s) b - 1)%Z). set (held' := if (n <=? 0)%Z then _ else _).
  unfold grant. cbn [waiting]. destruct (waiting s) as [|w0 rest] eqn:Ew.
  { cbn [length grant_loop out limit waiting]. destruct (_ <? _)%Z; cbn; (split; [intros _; split; [done|lia]|done]). }
  cbn [length]. cbn [grant_loop]. cbn [out limit waiting held]. rewrite (proj2 (Z.ltb_lt _ _)) by lia.
  destruct (best_spec (Slots_ (limit s) (out s - 1) held' (w0 :: rest))) as (w & Hfew); [done|]. cbn [held waiting] in Hfew.
  pose proof Hfew as [Hw _]. rewrite Hw. rewrite (proj2 (Z.ltb_ge (out s - 1 + 1) (limit s))) by lia.
  split; [done|]. intros _. exists held', (best (Slots_ (limit s) (out s - 1) held' (w0 :: rest))), w.
  split; [|split; [done|split; [done|split; [done|split; [cbn [out]; lia|done]]]]].
  intros b'. unfold held'. destruct (Z.leb_spec n 0); [rewrite count_delete|rewrite count_insert]; case_bool_decide; subst; unfold n in *; lia.
Qed.

(** the vector of slots_test.go: two slots, both with one build; the build without slots is served first *)
Definition fewest_first : list event :=
  [Accept; Accept; Accept; Accept; Slot 0 "big"; Slot 1 "big"; Slot 2 "big"; Slot 3 "small"; Done 0 "big"; Wake 3].

Lemma slots_admit_witness :
  ∃ s, steps (start 2) fewest_first = Some s ∧ tokens s = 2%Z ∧ closed s = [] ∧ blocked (conns s) 2 "big" ∧
    (tokens s + Z.of_nat (length (closed s)) ≤ 2)%Z.
Proof.
  destruct (steps (start 2) fewest_first) as [s|] eqn:E; [|vm_compute in E; discriminate E].
  exists s. destruct (slots_admit 2 fewest_first s ltac:(lia) E) as (H & _).
  vm_compute in E. injection E as <-. split_and!; [done|vm_compute; reflexivity|reflexivity|by eexists|exact H].
Defined.

Lemma Release_serves_witness :
  let s := Slots_ 2 2 {[ lit "big" := 2%Z ]} [Waiter "big" 2; Waiter "small" 3] in
  (Release "big" s).2 = [3].
Proof.
  cbv zeta. pose proof (Release_serves "big" (Slots_ 2 2 {[ lit "big" := 2%Z ]} [Waiter "big" 2; Waiter "small" 3]) eq_refl) as H.
  destruct (Release _ _) as [s' woken]. destruct H as [_ H]. destruct (H ltac:(done)) as (held' & j & w & Hh & [Hw Hmin] & -> & _).
  cbn [snd]. destruct j as [|[|j]]; [|by injection Hw as <-|done]. injection Hw as <-.
  destruct (Hmin 1 (Waiter "small" 3) eq_refl) as [Hle _]. cbn [w_build] in Hle. rewrite !Hh in Hle. vm_compute in Hle. by destruct Hle.
Defined.
