(* ===== verification/JigdIds.v ===== *)
(** * jigd/identity.go: what identifies a file of the store

    [Identities] answers IDS for any sandboxed build: a file under the store is identified by the hash of its
    bytes, as jig itself does it (store.cc), and remembered by path with the stamp of the file that was read. What
    the file system says is an input of each call, so it may change between calls, and between the look-ups of
    one call. [fdUnder] is that of Linux (peer_linux.go); elsewhere the kernel is not asked. *)

From S2P Require Import Prelude Paths Base Store Jigd.

(** ** filepath.Clean *)

(** [acc]: the elements so far, the last one first *)
Fixpoint clean_loop (rooted : bool) (acc ps : list str) : list str :=
  match ps with
  | [] => rev acc
  | p :: ps =>
      clean_loop rooted
        (if (p == []) || (p == lit ".") then acc
         else if p == lit ".." then
           match acc with
           | [] => if rooted then [] else [p]
           | q :: acc' => if q == lit ".." then p :: acc else acc'
           end
         else p :: acc) ps
  end.
Definition Clean (path : str) : str :=
  let rooted := starts_with path "/" in
  let path := (if rooted then lit "/" else []) ++ unpieces "/" (clean_loop rooted [] (pieces chr_slash path)) in
  if path == [] then lit "." else path.

(** the vectors of Go's documentation and tests *)
Example Clean_vectors : map Clean [lit "a//b/./c"; lit "/../a"; lit "a/../../b"; lit "/a/b/.."; lit ""; lit "/"] =
  [lit "a/b/c"; lit "/a"; lit "../b"; lit "/a"; lit "."; lit "/"].
Proof. reflexivity. Qed.

(** ** State *)

Record fileStamp := Stamp { ino : N; f_size : nat; mtime : Z }.
#[global] Instance fileStamp_eq_dec : EqDecision fileStamp.
Proof. solve_decision. Defined.
Record identEntry := Entry { e_stamp : fileStamp; e_id : str }.
Record Identities := Ids { store_ : str; realStore : str; known : gmap str identEntry }.

(** an open file: whether it is a regular one and its stamp, where the kernel says it lies, what reading it gives *)
Record opened := Opened { o_info : option (bool * fileStamp); o_at : option str; o_bytes : str }.
(** the file system during a call *)
Record world := World { EvalSymlinks : str → option str; Open : str → option opened }.

(** ** Operations *)

Definition NewIdentities (w : world) (storeDir : str) : Identities :=
  let real := default storeDir (EvalSymlinks w storeDir) in
  Ids (Clean storeDir ++ "/") (Clean real ++ "/") ∅.

Definition fdUnder (f : opened) (dir : str) : bool := match o_at f with Some at_ => starts_with at_ dir | None => false end.

Section Of.
Context (blake3 : str → str).

(** a regular file under the store, with its stamp *)
Definition identifiable (w : world) (ids : Identities) (path : str) : option (opened * fileStamp) :=
  if negb (starts_with path (store_ ids)) || negb (Clean path == path) then None
  else
    match EvalSymlinks w path with
    | None => None
    | Some real =>
        if negb (starts_with real (realStore ids)) then None
        else
          match Open w real with
          | None => None
          | Some f =>
              match o_info f with
              | Some (true, stamp) => if fdUnder f (realStore ids) then Some (f, stamp) else None
              | _ => None
              end
          end
    end.
(** [io.ReadFull] of as many bytes as the file had *)
Definition read_stamped (f : opened) (stamp : fileStamp) : option str :=
  if (length (o_bytes f) <? f_size stamp)%nat then None else Some (take (f_size stamp) (o_bytes f)).

Definition Of (w : world) (path : str) (ids : Identities) : Identities * str :=
  match identifiable w ids path with
  | None => (ids, [])
  | Some (f, stamp) =>
      let remembered :=
        match known ids !! path with
        | Some entry => if bool_decide (e_stamp entry = stamp) then Some (e_id entry) else None
        | None => None
        end in
      match remembered with
      | Some id => (ids, id)
      | None =>
          match read_stamped f stamp with
          | None => (ids, [])
          | Some data =>
              let id := "C:" ++ HexEncode (take 16 (blake3 data)) in
              (Ids (store_ ids) (realStore ids) (<[path := Entry stamp id]> (known ids)), id)
          end
      end
  end.
Definition Len (ids : Identities) : nat := size (known ids).

(** the daemon answers one question after the other *)
Fixpoint asked (calls : list (world * str)) (ids : Identities) : Identities * list str :=
  match calls with
  | [] => (ids, [])
  | (w, path) :: calls =>
      let '(ids, id) := Of w path ids in
      let '(ids, rest) := asked calls ids in (ids, id :: rest)
  end.

(** ** What an answer means *)

(** a file that was read for the path in one of the calls *)
Definition read_in (ids : Identities) (calls : list (world * str)) (path : str) (stamp : fileStamp) (data : str) : Prop :=
  ∃ w f, (w, path) ∈ calls ∧ identifiable w ids path = Some (f, stamp) ∧ read_stamped f stamp = Some data.
(** the same stamp means the same bytes *)
Definition stable (ids : Identities) (calls : list (world * str)) : Prop :=
  ∀ path stamp data data', read_in ids calls path stamp data → read_in ids calls path stamp data' → data = data'.

Definition identity (data : str) : str := "C:" ++ HashOf blake3 data.

Lemma admitted_known w ids ids' path : store_ ids' = store_ ids → realStore ids' = realStore ids →
  identifiable w ids' path = identifiable w ids path.
Proof. intros E1 E2. unfold identifiable. by rewrite E1, E2. Qed.

(** what is remembered was read *)
Definition remembers (ids0 : Identities) (before : list (world * str)) (ids : Identities) : Prop :=
  store_ ids = store_ ids0 ∧ realStore ids = realStore ids0 ∧
  ∀ path entry, known ids !! path = Some entry → ∃ data, read_in ids0 before path (e_stamp entry) data ∧ e_id entry = identity data.

Lemma read_in_more ids calls calls' path stamp data : (∀ c, c ∈ calls → c ∈ calls') →
  read_in ids calls path stamp data → read_in ids calls' path stamp data.
Proof. intros Hc (w & f & Hw & H). exists w, f. auto. Qed.

Lemma Of_spec ids0 before w path ids : remembers ids0 before ids →
  let '(ids', id) := Of w path ids in
  remembers ids0 (before ++ [(w, path)]) ids' ∧
  (id = [] ∨ ∃ f stamp data, identifiable w ids0 path = Some (f, stamp) ∧ read_in ids0 (before ++ [(w, path)]) path stamp data ∧ id = identity data) ∧
  (∀ f stamp data, identifiable w ids0 path = Some (f, stamp) → read_stamped f stamp = Some data → id ≠ []).
Proof.
  intros (E1 & E2 & Hk). assert (∀ c, c ∈ before → c ∈ before ++ [(w, path)]) as Hmore by (intros c Hc; apply elem_of_app; by left).
  assert (remembers ids0 (before ++ [(w, path)]) ids) as Hsame.
  { split_and!; [done | done |]. intros p entry Hp. destruct (Hk p entry Hp) as (data & Hd & Hid). exists data. split; [by eapply read_in_more | done]. }
  unfold Of. rewrite (admitted_known w ids0 ids path E1 E2). destruct (identifiable w ids0 path) as [[f stamp] |] eqn:Ha.
  2:{ split_and!; [done | by left | done]. }
  destruct (match known ids !! path with Some entry => _ | None => None end) as [id |] eqn:Er.
  - destruct (known ids !! path) as [entry |] eqn:Ek; [| done]. case_bool_decide as Hst; [| done]. injection Er as <-.
    destruct (Hk _ _ Ek) as (data & Hd & Hid). rewrite Hst in Hd. split_and!; [done | right | by rewrite Hid].
    exists f, stamp, data. split_and!; [done | by eapply read_in_more | done].
  - destruct (read_stamped f stamp) as [data |] eqn:Hr.
    + assert (read_in ids0 (before ++ [(w, path)]) path stamp data) as Hin.
      { exists w, f. split_and!; [apply elem_of_app; right; by left | done | done]. }
      split_and!; [| right; by exists f, stamp, data | done].
      split_and!; [done | done |]. cbn [known]. intros p entry. destruct (decide (p = path)) as [-> | Hp].
      * rewrite lookup_insert_eq. intros [= <-]. by exists data.
      * rewrite lookup_insert_ne by done. apply Hsame.
    + split_and!; [done | by left |]. intros f' stamp' data' [= <- <-]. congruence.
Qed.

Lemma asked_spec ids0 calls before ids : remembers ids0 before ids →
  ∀ i w path, calls !! i = Some (w, path) → ∃ id, (asked calls ids).2 !! i = Some id ∧
    (id = [] ∨ ∃ f stamp data, identifiable w ids0 path = Some (f, stamp) ∧ read_in ids0 (before ++ take (S i) calls) path stamp data ∧ id = identity data) ∧
    (∀ f stamp data, identifiable w ids0 path = Some (f, stamp) → read_stamped f stamp = Some data → id ≠ []).
Proof.
  revert before ids. induction calls as [| [w0 p0] calls IH]; intros before ids Hr i w path; [done |].
  cbn [asked]. pose proof (Of_spec ids0 before w0 p0 ids Hr) as H. destruct (Of w0 p0 ids) as [ids1 id1]. destruct H as (Hr1 & H1 & H2).
  specialize (IH _ _ Hr1). destruct (asked calls ids1) as [ids2 rest]. cbn [snd]. destruct i as [| i]; cbn [lookup list_lookup].
  - intros [= -> ->]. exists id1. by split_and!.
  - intros Hi. destruct (IH i w path Hi) as (id & H3 & H4 & H5). exists id. split_and!; [done | | done].
    change (take (S (S i)) ((w0, p0) :: calls)) with ((w0, p0) :: take (S i) calls). by rewrite <-app_assoc in H4.
Qed.

Lemma identifiable_under w ids path f stamp : identifiable w ids path = Some (f, stamp) →
  starts_with path (store_ ids) = true ∧ Clean path = path ∧ o_info f = Some (true, stamp) ∧
  ∃ at_, o_at f = Some at_ ∧ starts_with at_ (realStore ids) = true.
Proof.
  unfold identifiable. destruct (starts_with path (store_ ids)) eqn:E1; [| done]. case_bool_decide as E2; [| done]. cbn [negb orb].
  destruct (EvalSymlinks w path) as [real |]; [| done]. destruct (starts_with real (realStore ids)); [| done]. cbn [negb].
  destruct (Open w real) as [f' |]; [| done]. destruct (o_info f') as [[[] stamp'] |] eqn:E3; try done.
  unfold fdUnder. destruct (o_at f') as [at_ |] eqn:E4; [| done]. destruct (starts_with at_ _) eqn:E5; [| done]. intros [= <- <-].
  split_and!; [done | done | done |]. by exists at_.
Qed.

(** C28. The identity that jigd gives a file of the store is the one jig computes itself. For any questions in any
    order, over a file system that may change between and during them: an answer is empty, or it is the identity of
    bytes read, for that path and in one of the calls so far, from a regular file which the kernel says lies under
    the store, whatever symlinks a build has put in the way, so IDS tells nothing about other files. When a stamp
    stands for the same bytes throughout, a file that can be identified gets the hash of its present bytes, whether
    remembered or not, and a jig that remembers the answer identifies the file as if it had read it. *)
Theorem identity_is_jigs (w0 : world) (storeDir : str) (calls : list (world * str)) i w path
    (Hcall : calls !! i = Some (w, path)) :
  let ids := NewIdentities w0 storeDir in
  ∃ id, (asked calls ids).2 !! i = Some id ∧
  (id = [] ∨ ∃ w' f stamp data at_, (w', path) ∈ take (S i) calls ∧ identifiable w' ids path = Some (f, stamp) ∧
     starts_with path (Clean storeDir ++ "/") = true ∧ Clean path = path ∧
     o_info f = Some (true, stamp) ∧ o_at f = Some at_ ∧ starts_with at_ (realStore ids) = true ∧
     read_stamped f stamp = Some data ∧ id = identity data) ∧
  (stable ids calls → ∀ f stamp data, identifiable w ids path = Some (f, stamp) → read_stamped f stamp = Some data →
     id = identity data ∧
     ∀ st read, DaemonMayIdentify st path = true → known_ids_ st !! path = None → read path = Some data →
       InputId blake3 read (RememberIdentity st path id) path = InputId blake3 read st path).
Proof.
  intros ids. assert (remembers ids [] ids) as Hr by (split_and!; [done | done | intros p entry Hp; cbn in Hp; by rewrite lookup_empty in Hp]).
  destruct (asked_spec ids calls [] ids Hr i w path Hcall) as (id & H1 & H2 & H3). exists id. split; [done |]. split.
  - destruct H2 as [-> | (f & stamp & data & _ & (w' & f' & Hw & Hi & Hd) & ->)]; [by left | right].
    destruct (identifiable_under _ _ _ _ _ Hi) as (E1 & E2 & E3 & at_ & E4 & E5). by exists w', f', stamp, data, at_.
  - intros Hst f stamp data Hi Hd. assert (id = identity data) as ->.
    { destruct H2 as [-> | (f' & stamp' & data' & Hi' & Hin & ->)]; [by destruct (H3 _ _ _ Hi Hd) |]. f_equal.
      assert (stamp' = stamp) as -> by congruence. apply (Hst path stamp); [| exists w, f; split_and!; [by eapply list_elem_of_lookup_2 | done | done]].
      eapply read_in_more; [| exact Hin]. intros c Hc. cbn [app] in Hc. apply elem_of_take in Hc as (k & Hk & _). by eapply list_elem_of_lookup_2. }
    split; [done |]. intros st read Hmay Hno Hread. unfold InputId, RememberIdentity. cbn [known_ids_ by_content_].
    unfold DaemonMayIdentify in Hmay. apply andb_true_iff in Hmay as [Hmay _]. apply andb_true_iff in Hmay as [Hbc Hsp].
    rewrite Hbc, Hno, Hread, Hsp, lookup_insert_eq. change (IsStorePath (Store _ _ _ _ _ _) path) with (IsStorePath st path).
    by rewrite Hsp.
Qed.
End Of.

(** one file asked for twice, and one that a symlink leads out of the store *)
Definition sample_world : world :=
  World (λ p, if p == lit "/nix/store/link" then Some (lit "/root/secret") else Some p)
    (λ p, Some (Opened (Some (true, Stamp 7 3 1)) (Some p) "abc")).
Definition sample_calls : list (world * str) :=
  [(sample_world, lit "/nix/store/a.h"); (sample_world, lit "/nix/store/link"); (sample_world, lit "/nix/store/a.h")].
Lemma identity_is_jigs_witness :
  let hash := λ data : str, data ++ lit "0123456789abcdef" in
  let ids := NewIdentities sample_world "/nix/store" in
  (asked hash sample_calls ids).2 !! 1 = Some [] ∧ (asked hash sample_calls ids).2 !! 2 = Some (identity hash "abc") ∧
  Len (asked hash sample_calls ids).1 = 1 ∧ stable ids sample_calls.
Proof.
  intros hash ids.
  assert (stable ids sample_calls) as Hst.
  { intros path stamp data data' (w1 & f1 & H1 & H2 & H3) (w2 & f2 & H4 & H5 & H6).
    assert (∀ w f, (w, path) ∈ sample_calls → identifiable w ids path = Some (f, stamp) → o_bytes f = lit "abc" ∧ stamp = Stamp 7 3 1) as Hone.
    { intros w f Hin Hi. destruct (identifiable_under _ _ _ _ _ Hi) as (_ & _ & Hinfo & _). unfold sample_calls in Hin.
      rewrite !elem_of_cons in Hin. destruct Hin as [[= -> ->] | [[= -> ->] | [[= -> ->] | Hin%elem_of_nil]]]; [| | | done];
        vm_compute in Hi; simplify_eq; done. }
    destruct (Hone _ _ H1 H2) as [E1 ->]. destruct (Hone _ _ H4 H5) as [E2 _]. unfold read_stamped in *. rewrite E1 in H3. rewrite E2 in H6. congruence. }
  split; [vm_compute; reflexivity |]. split; [| split; [vm_compute; reflexivity | exact Hst]].
  destruct (identity_is_jigs hash sample_world "/nix/store" sample_calls 2 sample_world "/nix/store/a.h" eq_refl) as (id & H1 & _ & H2).
  destruct (H2 Hst (Opened (Some (true, Stamp 7 3 1)) (Some (lit "/nix/store/a.h")) "abc") (Stamp 7 3 1) "abc") as [-> _];
    [vm_compute; reflexivity | vm_compute; reflexivity |]. exact H1.
Defined.
