(* ===== verification/PackFormat.v ===== *)
(** * The files of the pack store (src/pkgs/ji/jigd/src/store.go)

    A pack is a sequence of records (key, value), the last one perhaps torn; a hint file lists the records of a
    sealed pack without their values. [scan] and [read_hints] are the two loops of [load], [record] and
    [hint_record] what [Put] and [seal] write. Offsets and lengths are 32 bits wide, the offset in a hint 64. *)

From S2P Require Import Prelude.

Definition recHeader : N := 8.
Definition packLimit : N := N.shiftl 256 20.

Record loc := Loc { l_pack : N; l_off : N; l_len : N }.
#[global] Instance loc_eq_dec : EqDecision loc.
Proof. solve_decision. Defined.

Definition u32 (n : N) : N := (n mod 2 ^ 32)%N.
Definition add32 (a b : N) : N := u32 (a + b).
Definition sub32 (a b : N) : N := u32 (a + 2 ^ 32 - b).
(** [int64(off)] *)
Definition int64 (n : N) : Z := if (n <? 2 ^ 63)%N then Z.of_N n else (Z.of_N n - 2 ^ 64)%Z.

(** [io.ReadFull] of [n] bytes *)
Definition read_full (n : N) (s : str) : option (str * str) :=
  if (n <=? N.of_nat (length s))%N then Some (take (N.to_nat n) s, drop (N.to_nat n) s) else None.

(** ** Packs *)

Definition header (key : str) (size : N) : str := le_bytes 4 (N.of_nat (length key)) ++ le_bytes 4 size ++ key.
Definition record (e : str * str) : str := header e.1 (N.of_nat (length e.2)) ++ e.2.

(** the loop over an unsealed pack: the records in it, and where the last whole one ends *)
Fixpoint scan (fuel : nat) (id : N) (rest : str) (off : N) : list (str * loc) * N :=
  match fuel with
  | 0 => ([], off)
  | S fuel =>
      match read_full recHeader rest with
      | None => ([], off)
      | Some (hdr, rest) =>
          let klen := le_val (take 4 hdr) in
          let vlen := le_val (drop 4 hdr) in
          match read_full klen rest with
          | None => ([], off)
          | Some (key, rest) =>
              match read_full vlen rest with
              | None => ([], off)
              | Some (_, rest) =>
                  let '(es, stop) := scan fuel id rest (off + (recHeader + klen + vlen))%N in
                  ((key, Loc id (add32 (add32 (u32 off) recHeader) klen) vlen) :: es, stop)
              end
          end
      end
  end.
Definition scan_pack (id : N) (file : str) : list (str * loc) * N := scan (S (length file)) id file 0.

(** ** Hints *)

Definition hint_record (e : str * loc) : str :=
  let '(key, l) := e in
  le_bytes 4 (N.of_nat (length key)) ++ le_bytes 4 (l_len l) ++
  le_bytes 8 (sub32 (sub32 (l_off l) recHeader) (u32 (N.of_nat (length key)))) ++ key.

(** the loop over a hint file; entries that reach beyond the pack are passed over *)
Fixpoint hints (fuel : nat) (id size : N) (rest : str) : list (str * loc) :=
  match fuel with
  | 0 => []
  | S fuel =>
      match read_full (recHeader + 8) rest with
      | None => []
      | Some (hdr, rest) =>
          let klen := le_val (take 4 hdr) in
          let vlen := le_val (take 4 (drop 4 hdr)) in
          let off := le_val (drop 8 hdr) in
          match read_full klen rest with
          | None => []
          | Some (key, rest) =>
              if (Z.of_N size <? int64 off + Z.of_N recHeader + Z.of_N klen + Z.of_N vlen)%Z then hints fuel id size rest
              else (key, Loc id (add32 (add32 (u32 off) recHeader) klen) vlen) :: hints fuel id size rest
          end
      end
  end.
Definition read_hints (id size : N) (hint : str) : list (str * loc) := hints (S (length hint)) id size hint.

(** ** What a pack holds *)

(** a record that [Put] writes: the key and the value have their lengths in 32 bits *)
Definition fits (e : str * str) : Prop := (N.of_nat (length e.1) < 2 ^ 32)%N ∧ (N.of_nat (length e.2) < 2 ^ 32)%N.
Definition pack_bytes (es : list (str * str)) : str := mjoin (record <$> es).
Definition record_size (e : str * str) : N := (recHeader + N.of_nat (length e.1) + N.of_nat (length e.2))%N.

(** where each record's value lies *)
Fixpoint placed (id : N) (es : list (str * str)) (off : N) : list (str * loc) :=
  match es with
  | [] => []
  | e :: es =>
      (e.1, Loc id (off + recHeader + N.of_nat (length e.1)) (N.of_nat (length e.2))) :: placed id es (off + record_size e)
  end.

(** the end of a pack in which no whole record starts *)
Definition torn (t : str) : Prop := ∀ fuel id off, scan fuel id t off = ([], off).

(** ** Lemmas *)

Lemma read_full_app a b n : n = N.of_nat (length a) → read_full n (a ++ b) = Some (a, b).
Proof.
  intros ->. unfold read_full. rewrite length_app, (proj2 (N.leb_le _ _)) by lia.
  by rewrite Nat2N.id, take_app_length, drop_app_length.
Qed.
Lemma read_full_short n s : (N.of_nat (length s) < n)%N → read_full n s = None.
Proof. intros H. unfold read_full. by rewrite (proj2 (N.leb_gt _ _)). Qed.

Lemma header_length key size : N.of_nat (length (header key size)) = (recHeader + N.of_nat (length key))%N.
Proof. unfold header. rewrite !length_app, !le_bytes_length. unfold recHeader. lia. Qed.
Lemma record_length e : N.of_nat (length (record e)) = record_size e.
Proof. unfold record, record_size. rewrite length_app. pose proof (header_length e.1 (N.of_nat (length e.2))). lia. Qed.

Lemma u32_small n : (n < 2 ^ 32)%N → u32 n = n.
Proof. apply N.mod_small. Qed.
Lemma add32_small a b : (a + b < 2 ^ 32)%N → add32 a b = (a + b)%N.
Proof. apply N.mod_small. Qed.
Lemma sub32_small a b : (b ≤ a)%N → (a < 2 ^ 32)%N → sub32 a b = (a - b)%N.
Proof.
  intros H1 H2. unfold sub32, u32. replace (a + 2 ^ 32 - b)%N with (a - b + 1 * 2 ^ 32)%N by lia.
  rewrite N.Div0.mod_add. apply N.mod_small. lia.
Qed.
Lemma le_val4 n : (n < 2 ^ 32)%N → le_val (le_bytes 4 n) = n.
Proof. intros H. apply le_val_bytes. exact H. Qed.

Lemma take_le4 n s : take 4 (le_bytes 4 n ++ s) = le_bytes 4 n.
Proof. done. Qed.
Lemma drop_le4 n s : drop 4 (le_bytes 4 n ++ s) = s.
Proof. done. Qed.

(** a record is read back, and the scan goes on behind it *)
Lemma scan_record fuel id e rest off : fits e → (off + record_size e < 2 ^ 32)%N →
  scan (S fuel) id (record e ++ rest) off =
    let '(es, stop) := scan fuel id rest (off + record_size e) in
    ((e.1, Loc id (off + recHeader + N.of_nat (length e.1)) (N.of_nat (length e.2))) :: es, stop).
Proof.
  intros [Hk Hv] Hoff. unfold record, header. rewrite <-!app_assoc. cbn [scan].
  rewrite (app_assoc (le_bytes 4 _)).
  rewrite read_full_app by (rewrite length_app, !le_bytes_length; done).
  rewrite !take_le4, !drop_le4, !le_val4 by done. rewrite read_full_app by done. rewrite read_full_app by done.
  unfold record_size in *. rewrite u32_small by lia. rewrite (add32_small off) by lia. rewrite add32_small by lia. done.
Qed.

Lemma pack_bytes_cons e es : pack_bytes (e :: es) = record e ++ pack_bytes es.
Proof. done. Qed.
Lemma pack_bytes_app es es' : pack_bytes (es ++ es') = pack_bytes es ++ pack_bytes es'.
Proof. unfold pack_bytes. by rewrite fmap_app, join_app. Qed.

(** a scan finds the whole records and stops at the torn end *)
Lemma scan_pack_bytes fuel id es t off : Forall fits es → torn t → (length es ≤ fuel)%nat →
  (off + N.of_nat (length (pack_bytes es)) < 2 ^ 32)%N →
  scan fuel id (pack_bytes es ++ t) off = (placed id es off, (off + N.of_nat (length (pack_bytes es)))%N).
Proof.
  intros HF Ht. revert fuel off. induction HF as [| e es He HF IH]; intros fuel off Hfuel Hoff.
  - cbn [pack_bytes placed app length]. rewrite Ht. change (length (pack_bytes [])) with 0%nat. f_equal. lia.
  - destruct fuel as [| fuel]; [cbn in Hfuel; lia |]. rewrite pack_bytes_cons, length_app in Hoff.
    pose proof (record_length e). rewrite pack_bytes_cons, <-app_assoc, scan_record by (try done; lia).
    rewrite IH by (cbn in Hfuel; lia). cbn [placed]. f_equal. rewrite length_app. lia.
Qed.

Lemma pack_bytes_fuel es t : (length es ≤ length (pack_bytes es ++ t))%nat.
Proof.
  induction es as [| e es IH]; cbn [length]; [lia |]. rewrite pack_bytes_cons, <-app_assoc, length_app.
  pose proof (record_length e). unfold record_size, recHeader in *. lia.
Qed.
Lemma scan_pack_records id es t : Forall fits es → torn t → (N.of_nat (length (pack_bytes es)) < 2 ^ 32)%N →
  scan_pack id (pack_bytes es ++ t) = (placed id es 0, N.of_nat (length (pack_bytes es))).
Proof. intros HF Ht Hl. unfold scan_pack. pose proof (pack_bytes_fuel es t). rewrite scan_pack_bytes; try done; lia. Qed.

Lemma torn_nil : torn [].
Proof. intros [| fuel] id off; done. Qed.

(** a record that was only begun is torn *)
Lemma torn_prefix e n : fits e → (n < length (record e))%nat → torn (take n (record e)).
Proof.
  intros [Hk Hv] Hn [| fuel] id off; [done |]. pose proof (record_length e) as Hl. unfold record_size in Hl.
  cbn [scan]. destruct (decide (n < 8)%nat) as [Hh | Hh].
  { by rewrite read_full_short by (rewrite length_take; unfold recHeader; lia). }
  set (a := le_bytes 4 (N.of_nat (length e.1)) ++ le_bytes 4 (N.of_nat (length e.2))).
  assert (length a = 8%nat) as Ha by (unfold a; by rewrite length_app, !le_bytes_length).
  assert (record e = a ++ (e.1 ++ e.2)) as Er by (unfold record, header, a; by rewrite <-!app_assoc).
  rewrite Er, take_app_ge, Ha by lia. rewrite read_full_app by (rewrite Ha; done).
  unfold a. rewrite !take_le4, !drop_le4, !le_val4 by done. destruct (decide (n - 8 < length e.1)%nat) as [Hkey | Hkey].
  { by rewrite read_full_short by (rewrite length_take; lia). }
  rewrite take_app_ge by lia. rewrite read_full_app by done.
  rewrite read_full_short; [done |]. rewrite length_take. unfold recHeader in Hl. lia.
Qed.

(** ** Hints are read back *)

(** an entry that names a record inside a pack of [size] bytes *)
Definition inside (id size : N) (e : str * loc) : Prop :=
  l_pack e.2 = id ∧ (recHeader + N.of_nat (length e.1) ≤ l_off e.2)%N ∧ (l_off e.2 + l_len e.2 ≤ size)%N.
Definition hint_bytes (hs : list (str * loc)) : str := mjoin (hint_record <$> hs).

Lemma hint_read fuel id size e rest : (size < 2 ^ 32)%N → inside id size e →
  hints (S fuel) id size (hint_record e ++ rest) = e :: hints fuel id size rest.
Proof.
  destruct e as [key [pack off len]]. unfold inside. cbn [fst snd l_pack l_off l_len]. intros Hsize (-> & Hlow & Hhigh).
  unfold recHeader in *. unfold hint_record. cbn [l_off l_len]. rewrite u32_small by lia.
  rewrite (sub32_small off) by (unfold recHeader; lia). rewrite sub32_small by (unfold recHeader; lia).
  set (o := (off - recHeader - N.of_nat (length key))%N).
  rewrite <-!app_assoc, (app_assoc (le_bytes 4 len)), (app_assoc (le_bytes 4 _)). cbn [hints].
  rewrite read_full_app by (rewrite !length_app, !le_bytes_length; done).
  rewrite take_le4, drop_le4, take_le4, !le_val4 by lia.
  change (drop 8 (?a ++ ?b ++ ?c)) with c. rewrite le_val_bytes by (unfold o; change (256 ^ N.of_nat 8)%N with (2 ^ 64)%N; lia).
  rewrite read_full_app by done. unfold int64. rewrite (proj2 (N.ltb_lt o _)) by (unfold o; lia).
  rewrite (proj2 (Z.ltb_ge _ _)) by (unfold o, recHeader; lia).
  rewrite u32_small by (unfold o; lia). rewrite (add32_small o) by (unfold o, recHeader; lia).
  rewrite add32_small by (unfold o, recHeader; lia). unfold o, recHeader. do 3 f_equal. lia.
Qed.
Lemma hint_bytes_cons e hs : hint_bytes (e :: hs) = hint_record e ++ hint_bytes hs.
Proof. done. Qed.
Lemma hint_record_pos e : (0 < length (hint_record e))%nat.
Proof. destruct e as [key l]. unfold hint_record. rewrite length_app, le_bytes_length. lia. Qed.
Lemma read_hints_bytes id size hs : (size < 2 ^ 32)%N → Forall (inside id size) hs →
  read_hints id size (hint_bytes hs) = hs.
Proof.
  intros Hsize HF. unfold read_hints. assert (length hs ≤ length (hint_bytes hs))%nat as Hlen.
  { clear HF. induction hs as [| e hs IH]; [done |]. rewrite hint_bytes_cons, length_app. pose proof (hint_record_pos e). cbn [length]. lia. }
  assert (∀ fuel, (length hs ≤ fuel)%nat → hints (S fuel) id size (hint_bytes hs) = hs) as H; [| by apply H].
  clear Hlen. induction HF as [| e hs He HF IH]; intros fuel Hfuel; [done |].
  destruct fuel as [| fuel]; [cbn in Hfuel; lia |]. rewrite hint_bytes_cons.
  rewrite hint_read by done. f_equal. apply IH. cbn in Hfuel. lia.
Qed.

(** ** Where the records lie *)

Lemma placed_app id es es' off :
  placed id (es ++ es') off = placed id es off ++ placed id es' (off + N.of_nat (length (pack_bytes es))).
Proof.
  revert off. induction es as [| e es IH]; intros off; cbn [placed app].
  - change (length (pack_bytes [])) with 0%nat. f_equal. lia.
  - rewrite IH, pack_bytes_cons, length_app. pose proof (record_length e). f_equal. f_equal. f_equal. lia.
Qed.
(** the value is in the file where its entry says *)
Lemma placed_value id es off k l t : (k, l) ∈ placed id es off →
  ∃ v, (k, v) ∈ es ∧ l_pack l = id ∧ N.of_nat (length v) = l_len l ∧ (off + recHeader + N.of_nat (length k) ≤ l_off l)%N ∧
    (l_off l + l_len l ≤ off + N.of_nat (length (pack_bytes es)))%N ∧
    substr (pack_bytes es ++ t) (N.to_nat (l_off l - off)) (N.to_nat (l_len l)) = v.
Proof.
  revert off. induction es as [| e es IH]; intros off; cbn [placed]; [by intros ?%elem_of_nil |].
  pose proof (record_length e) as Hr. rewrite pack_bytes_cons, length_app. intros [[= -> ->] | Hin]%elem_of_cons.
  - exists e.2. cbn [l_pack l_off l_len]. split; [rewrite <-surjective_pairing; by left |]. unfold record_size in Hr.
    split_and!; [done.. | lia | lia |]. unfold substr. rewrite Nat2N.id.
    replace (N.to_nat _) with (length (header e.1 (N.of_nat (length e.2))))
      by (pose proof (header_length e.1 (N.of_nat (length e.2))); lia).
    unfold record. by rewrite <-!app_assoc, drop_app_length, take_app_length.
  - destruct (IH _ Hin) as (v & Hv & Hid & Hlen & Hlow & Hhigh & Hsub). exists v. unfold record_size in *.
    split_and!; [by right | done | done | lia | lia |]. rewrite <-app_assoc. unfold substr in *.
    rewrite drop_app_ge by lia. rewrite <-Hsub. f_equal. f_equal. lia.
Qed.
Lemma placed_inside id es k l : (k, l) ∈ placed id es 0 → inside id (N.of_nat (length (pack_bytes es))) (k, l).
Proof. intros H. destruct (placed_value id es 0 k l [] H) as (v & _ & Hid & Hlen & Hlow & Hhigh & _). split; [done |]. cbn. lia. Qed.

(** ** Files that were cut *)

Definition within (size : N) (e : str * loc) : Prop := (l_off e.2 + l_len e.2 ≤ size)%N.
#[global] Instance within_dec size e : Decision (within size e).
Proof. unfold within. apply _. Defined.

(** an entry that reaches beyond the file is passed over *)
Lemma hint_skipped fuel id total size e rest : (total < 2 ^ 32)%N → inside id total e → ¬ within size e →
  hints (S fuel) id size (hint_record e ++ rest) = hints fuel id size rest.
Proof.
  destruct e as [key [pack off len]]. unfold inside, within. cbn [fst snd l_pack l_off l_len]. intros Htotal (-> & Hlow & Hhigh) Hout.
  unfold recHeader in *. unfold hint_record. cbn [l_off l_len]. rewrite u32_small by lia.
  rewrite (sub32_small off) by (unfold recHeader; lia). rewrite sub32_small by (unfold recHeader; lia).
  set (o := (off - recHeader - N.of_nat (length key))%N).
  rewrite <-!app_assoc, (app_assoc (le_bytes 4 len)), (app_assoc (le_bytes 4 _)). cbn [hints].
  rewrite read_full_app by (rewrite !length_app, !le_bytes_length; done).
  rewrite take_le4, drop_le4, take_le4, !le_val4 by lia.
  change (drop 8 (?a ++ ?b ++ ?c)) with c. rewrite le_val_bytes by (unfold o; change (256 ^ N.of_nat 8)%N with (2 ^ 64)%N; lia).
  rewrite read_full_app by done. unfold int64. rewrite (proj2 (N.ltb_lt o _)) by (unfold o; lia).
  by rewrite (proj2 (Z.ltb_lt _ _)) by (unfold o, recHeader; lia).
Qed.
Lemma read_hints_cut id total size hs : (total < 2 ^ 32)%N → (size ≤ total)%N → Forall (inside id total) hs →
  read_hints id size (hint_bytes hs) = filter (within size) hs.
Proof.
  intros Htotal Hsize HF. unfold read_hints. assert (length hs ≤ length (hint_bytes hs))%nat as Hlen.
  { clear HF. induction hs as [| e hs IH]; [done |]. rewrite hint_bytes_cons, length_app. pose proof (hint_record_pos e). cbn [length]. lia. }
  assert (∀ fuel, (length hs ≤ fuel)%nat → hints (S fuel) id size (hint_bytes hs) = filter (within size) hs) as H; [| by apply H].
  clear Hlen. induction HF as [| e hs He HF IH]; intros fuel Hfuel; [done |].
  destruct fuel as [| fuel]; [cbn in Hfuel; lia |]. rewrite hint_bytes_cons, filter_cons. cbn in Hfuel. destruct (decide (within size e)) as [Hw | Hw].
  - rewrite hint_read by (try lia; destruct He as (H1 & H2 & _); by split_and!). f_equal. apply IH. lia.
  - rewrite (hint_skipped _ _ total) by done. apply IH. lia.
Qed.

(** the whole records of a file that was cut, and the torn one *)
Lemma cut_pack es m : Forall fits es → ∃ es1 es2 tail, es = es1 ++ es2 ∧ take m (pack_bytes es) = pack_bytes es1 ++ tail ∧ torn tail ∧
  match es2 with [] => True | e :: _ => (m < length (pack_bytes es1) + length (record e))%nat end.
Proof.
  intros HF. revert m. induction HF as [| e es He HF IH]; intros m.
  - exists [], [], []. split_and!; [done | apply take_nil | apply torn_nil | done].
  - destruct (decide (m < length (record e))%nat) as [Hm | Hm].
    + exists [], (e :: es), (take m (record e)). split_and!; [done | | by apply torn_prefix | exact Hm].
      rewrite pack_bytes_cons, take_app_le by lia. done.
    + destruct (IH (m - length (record e))%nat) as (es1 & es2 & tail & -> & Ht & Htorn & Hlen). exists (e :: es1), es2, tail.
      split_and!; [done | | done |].
      * rewrite !pack_bytes_cons, take_app_ge by lia. by rewrite Ht, <-app_assoc.
      * destruct es2 as [| e' es2]; [done |]. rewrite pack_bytes_cons, length_app. lia.
Qed.

(** C26. A pack that was cut anywhere, by a process that stopped in a write or by a system that lost its end, is read
    as far as it goes and no further. Without a hint the scan finds exactly the records that are whole and stops
    where the torn one starts; with a hint, which may outlive the end of the pack, exactly the entries whose value
    is still in the file are taken. Every entry that is taken, with its 32-bit offset and length, names the bytes
    that were put under its key. *)
Theorem cut_pack_reads_back id es hs m (Hfit : Forall fits es) (Hlen : (N.of_nat (length (pack_bytes es)) < 2 ^ 32)%N)
    (Hhint : ∀ e, e ∈ hs → e ∈ placed id es 0) :
  let file := take m (pack_bytes es) in
  let size := N.of_nat (length file) in
  ∃ es1 es2, es = es1 ++ es2 ∧
    (match es2 with [] => True | e :: _ => (m < length (pack_bytes es1) + length (record e))%nat end) ∧
    scan_pack id file = (placed id es1 0, N.of_nat (length (pack_bytes es1))) ∧
    read_hints id size (hint_bytes hs) = filter (within size) hs ∧
    ∀ k l, (k, l) ∈ placed id es1 0 ++ filter (within size) hs →
      l_pack l = id ∧ ∃ v, (k, v) ∈ es ∧ substr file (N.to_nat (l_off l)) (N.to_nat (l_len l)) = v.
Proof.
  intros file size. destruct (cut_pack es m Hfit) as (es1 & es2 & tail & Ees & Hfile & Htorn & Hm). fold file in Hfile.
  pose proof Hfit as Hfit'. rewrite Ees in Hfit'. apply Forall_app in Hfit' as [Hfit1 _].
  assert (size ≤ N.of_nat (length (pack_bytes es)))%N as Hsz by (unfold size, file; rewrite length_take; lia).
  exists es1, es2. split_and!; [done | done | | |].
  - rewrite Hfile. apply scan_pack_records; [done | done |]. unfold size in Hsz. rewrite Hfile, length_app in Hsz. lia.
  - apply (read_hints_cut id (N.of_nat (length (pack_bytes es)))); [done | done |].
    apply list.Forall_forall. intros [k l] Hkl. by apply placed_inside, Hhint.
  - intros k l [Hkl | [Hw Hkl]%list_elem_of_filter]%elem_of_app.
    + destruct (placed_value id es1 0 k l tail Hkl) as (v & Hv & Hid & _ & _ & _ & Hsub). rewrite N.sub_0_r in Hsub.
      split; [done |]. exists v. rewrite Hfile, Ees. split; [apply elem_of_app; by left | done].
    + destruct (placed_value id es 0 k l [] (Hhint _ Hkl)) as (v & Hv & Hid & _ & _ & _ & Hsub). rewrite N.sub_0_r, app_nil_r in Hsub.
      split; [done |]. exists v. split; [done |]. rewrite <-Hsub. unfold within, size, file in *. cbn [snd] in Hw. rewrite length_take in Hw.
      unfold substr. rewrite !skipn_firstn_comm, take_take. f_equal. lia.
Qed.

(** a pack of two records, cut inside the second value; the hint still names both *)
Lemma cut_pack_reads_back_witness :
  let es := [(lit "a", lit "one"); (lit "b", lit "three")] in
  let file := take 24 (pack_bytes es) in
  scan_pack 1 file = ([(lit "a", Loc 1 9 3)], 12%N) ∧
  read_hints 1 24 (hint_bytes (placed 1 es 0)) = [(lit "a", Loc 1 9 3)] ∧
  ∃ es1 es2, es = es1 ++ es2 ∧ scan_pack 1 file = (placed 1 es1 0, N.of_nat (length (pack_bytes es1))).
Proof.
  intros es file. split; [reflexivity |]. split; [reflexivity |].
  destruct (cut_pack_reads_back 1 es (placed 1 es 0) 24) as (es1 & es2 & H1 & _ & H2 & _);
    [repeat constructor | reflexivity | done |]. exists es1, es2. split; [exact H1 | exact H2].
Defined.
