(* ===== verification/PackStore.v ===== *)
(** * The pack store of jigd (src/pkgs/ji/jigd/src/store.go)

    [Store] with its index, its packs in tiers and the files behind them: opening with the recovery of a torn
    pack, Put, Get, sealing, rotation, the choice of the pack to demote and its move or eviction. The demoter
    works beside the requests, so a move is the steps it makes between them. What the operating system refuses
    is an input of an operation; the order in which Go walks a map or a directory's names are sorted is a
    permutation. *)

From S2P Require Import Prelude PackFormat.

Definition touchEvery : N := 60000000000.

(** ** State *)

Record tier := Tier { t_budget : Z; t_total : Z }.
Record pack := Pack { p_tier : nat; p_size : N; p_live : Z; p_used : N; p_touched : N }.
Record store := Store {
  tiers : list tier; index : gmap str loc; packs : gmap N pack; active : option N; closed : bool
}.
(** the directories of the tiers: packs and hints by tier and id, and when the packs were changed *)
Record disk := Disk { d_packs : gmap (nat * N) str; d_hints : gmap (nat * N) str; d_mtimes : gmap (nat * N) N }.

Definition set_total (t : nat) (n : Z) (s : store) : store :=
  Store (alter (λ x, Tier (t_budget x) (t_total x + n)) t (tiers s)) (index s) (packs s) (active s) (closed s).
Definition set_packs (ps : gmap N pack) (s : store) : store := Store (tiers s) (index s) ps (active s) (closed s).
Definition write_pack (at_ : nat * N) (file : str) (d : disk) : disk := Disk (<[at_ := file]> (d_packs d)) (d_hints d) (d_mtimes d).
Definition write_hint (at_ : nat * N) (hint : str) (d : disk) : disk := Disk (d_packs d) (<[at_ := hint]> (d_hints d)) (d_mtimes d).
Definition set_mtime (at_ : nat * N) (t : N) (d : disk) : disk := Disk (d_packs d) (d_hints d) (<[at_ := t]> (d_mtimes d)).
Definition remove_pack (at_ : nat * N) (d : disk) : disk := Disk (delete at_ (d_packs d)) (d_hints d) (d_mtimes d).
Definition remove_hint (at_ : nat * N) (d : disk) : disk := Disk (d_packs d) (delete at_ (d_hints d)) (d_mtimes d).

(** [live += n] *)
Definition bump (id : N) (n : Z) (ps : gmap N pack) : gmap N pack :=
  alter (λ p, Pack (p_tier p) (p_size p) (p_live p + n) (p_used p) (p_touched p)) id ps.
(** the index points to [l], and the bytes it pointed to are no longer live *)
Definition point (key : str) (l : loc) (s : store) : store :=
  let ps := match index s !! key with Some old => bump (l_pack old) (- Z.of_N (l_len old)) (packs s) | None => packs s end in
  Store (tiers s) (<[key := l]> (index s)) (bump (l_pack l) (Z.of_N (l_len l)) ps) (active s) (closed s).

Section Store.
(** the order of a walk over the index, and of the ids in a directory by their names *)
Context (walk : list (str * loc) → list (str * loc)) (by_name : list N → list N).

(** ** Opening *)

(** newest pack id wins whatever the load order *)
Definition add (e : str * loc) (s : store) : store :=
  match index s !! e.1 with
  | Some old => if (l_pack e.2 <? l_pack old)%N then s else point e.1 e.2 s
  | None => point e.1 e.2 s
  end.

Definition own_entries (s : store) (id : N) : list (str * loc) := filter (λ e, l_pack e.2 = id) (map_to_list (index s)).
(** the hint, put in place by a rename; [ok]: everything about it was allowed *)
Definition seal (ok : bool) (id : N) (s : store) (d : disk) : disk * bool :=
  match packs s !! id with
  | Some p => if ok then (write_hint (p_tier p, id) (hint_bytes (walk (own_entries s id))) d, true) else (d, false)
  | None => (d, false)
  end.

Record load_faults := LoadFaults { opened : bool; truncated : bool; sealed : bool }.

Definition load (f : load_faults) (t : nat) (id : N) (s : store) (d : disk) : store * disk * bool :=
  match (if opened f then d_packs d !! (t, id) else None) with
  | None => (s, d, false)
  | Some file =>
      let mtime := default 0%N (d_mtimes d !! (t, id)) in
      let size := N.of_nat (length file) in
      let s := set_packs (<[id := Pack t size 0 mtime mtime]> (packs s)) s in
      match d_hints d !! (t, id) with
      | Some hint => (set_total t (Z.of_N size) (foldl (λ s e, add e s) s (read_hints id size hint)), d, true)
      | None =>
          let '(es, off) := scan_pack id file in
          let s := foldl (λ s e, add e s) s es in
          if negb (off =? size)%N && negb (truncated f) then (s, d, false)
          else
            let d := if (off =? size)%N then d else write_pack (t, id) (take (N.to_nat off) file) d in
            let s := set_packs (alter (λ p, Pack (p_tier p) off (p_live p) (p_used p) (p_touched p)) id (packs s)) s in
            let s := set_total t (Z.of_N off) s in
            let '(d, ok) := seal (sealed f) id s d in
            (s, d, ok)
      end
  end.

(** seals the active pack and starts the next *)
Definition rotate (sealed created : bool) (now id : N) (s : store) (d : disk) : store * disk * bool :=
  let '(d, ok) := match active s with Some a => seal sealed a s d | None => (d, true) end in
  if negb ok then (s, d, false)
  else if negb created || bool_decide (is_Some (d_packs d !! (0, id))) then (s, d, false)
  else
    (Store (tiers s) (index s) (<[id := Pack 0 0 0 now now]> (packs s)) (Some id) (closed s),
     set_mtime (0, id) now (write_pack (0, id) [] d), true).

Definition ids_in (d : disk) (t : nat) : list N := elements (set_map snd (filter (λ x, x.1 = t) (dom (d_packs d))) : gset N).

(** one name of a directory; [last]: the highest id that was loaded *)
Definition open_one (f : nat * N → load_faults) (t : nat) (x : store * disk * N) (id : N) : store * disk * N :=
  let '(s, d, last) := x in
  if bool_decide (is_Some (packs s !! id)) then (s, remove_hint (t, id) (remove_pack (t, id) d), last)
  else
    let '(s, d, ok) := load (f (t, id)) t id s d in
    (s, d, if ok then N.max last id else last).
Definition open_tier (f : nat * N → load_faults) (x : store * disk * N) (t : nat) : store * disk * N :=
  foldl (open_one f t) x (by_name (ids_in x.1.2 t)).
Definition OpenStore (f : nat * N → load_faults) (created : bool) (now : N) (budgets : list Z) (d : disk) : option (store * disk) :=
  let s := Store (map (λ b, Tier b 0) budgets) ∅ ∅ None false in
  let '(s, d, last) := foldl (open_tier f) (s, d, 0%N) (seq 0 (length budgets)) in
  let '(s, d, ok) := rotate true created now (last + 1)%N s d in
  if ok then Some (s, d) else None.

(** ** Requests *)

(** the value's bytes, and the moment of the read *)
Definition Get (now : N) (key : str) (s : store) (d : disk) : option str * store * disk :=
  match index s !! key with
  | None => (None, s, d)
  | Some l =>
      match packs s !! l_pack l with
      | None => (None, s, d)
      | Some p =>
          let touch := (Z.of_N touchEvery <? Z.of_N now - Z.of_N (p_touched p))%Z in
          let p' := Pack (p_tier p) (p_size p) (p_live p) now (if touch then now else p_touched p) in
          let d' := if touch then set_mtime (p_tier p, l_pack l) now d else d in
          ((λ file, substr file (N.to_nat (l_off l)) (N.to_nat (l_len l))) <$> d_packs d !! (p_tier p, l_pack l),
           set_packs (<[l_pack l := p']> (packs s)) s, d')
      end
  end.

Definition kMaxKey : nat := 4096.
Definition kMaxValue : Z := Z.shiftl 2 30.
Definition bad_put (key : str) (size : Z) : bool :=
  (key == []) || (kMaxKey <? length key)%nat || contains_chr key chr_nl || contains_chr key " " ||
  (size <? 0)%Z || (kMaxValue <? size)%Z.

(** [spooled]: the temporary file for a large body; [written]: how much of the record reaches the file when a
    write fails *)
Record put_faults := PutFaults {
  spooled : bool; put_sealed : bool; put_created : bool; written : option nat; put_truncated : bool
}.
Definition spoolMin : Z := Z.shiftl 4 20.

(** [WriteAt] *)
Definition write_at (file : str) (off : nat) (bytes : str) : str := take off file ++ bytes ++ drop (off + length bytes) file.

Definition Put (f : put_faults) (now : N) (key : str) (size : Z) (body : str) (s : store) (d : disk) : store * disk * bool :=
  if bad_put key size then (s, d, false)
  else if (Z.of_nat (length body) <? size)%Z || ((spoolMin <=? size)%Z && negb (spooled f)) then (s, d, false)
  else if closed s then (s, d, false)
  else
    match active s with
    | None => (s, d, false)
    | Some a =>
        match packs s !! a with
        | None => (s, d, false)
        | Some p =>
            let value := take (Z.to_nat size) body in
            let recLen := (recHeader + N.of_nat (length key) + Z.to_N size)%N in
            let '(s, d, ok) :=
              if (packLimit <? p_size p + recLen)%N && (0 <? p_size p)%N
              then rotate (put_sealed f) (put_created f) now (a + 1)%N s d else (s, d, true) in
            if negb ok then (s, d, false)
            else
              let a := default a (active s) in
              let off := default 0%N (p_size <$> packs s !! a) in
              let file := default [] (d_packs d !! (0, a)) in
              let bytes := header key (Z.to_N size) ++ value in
              match written f with
              | Some n =>
                  let file := write_at file (N.to_nat off) (take n bytes) in
                  (s, write_pack (0, a) (if put_truncated f then take (N.to_nat off) file else file) d, false)
              | None =>
                  let l := Loc a (add32 (add32 (u32 off) recHeader) (u32 (N.of_nat (length key)))) (u32 (Z.to_N size)) in
                  let s := point key l s in
                  let s := set_packs (alter (λ p, Pack (p_tier p) (p_size p + recLen)%N (p_live p) (p_used p) (p_touched p)) a (packs s)) s in
                  (set_total 0 (Z.of_N recLen) s, write_pack (0, a) (write_at file (N.to_nat off) bytes) d, true)
              end
        end
    end.

(** ** The demoter *)

Definition stale (p : pack) : bool := (p_live p * 2 <? Z.of_N (p_size p))%Z.
Definition before (x y : N * pack) : bool :=
  if eqb (stale x.2) (stale y.2)
  then (p_used x.2 <? p_used y.2)%N || ((p_used x.2 =? p_used y.2)%N && (x.1 <? y.1)%N)
  else stale x.2.
Definition first_of (x : N * pack) (out : list (N * pack)) : N * pack := foldl (λ x y, if before y x then y else x) x out.
Definition candidates (s : store) (t : nat) : list (N * pack) :=
  filter (λ x, p_tier x.2 = t ∧ Some x.1 ≠ active s) (map_to_list (packs s)).
Fixpoint victim_from (s : store) (t : nat) (ts : list tier) : option N :=
  match ts with
  | [] => None
  | x :: ts =>
      if (t_budget x <=? 0)%Z || (t_total x <=? t_budget x)%Z then victim_from s (S t) ts
      else match candidates s t with
           | [] => victim_from s (S t) ts
           | y :: out => Some (first_of y out).1
           end
  end.
Definition victim (s : store) : option N := victim_from s 0 (tiers s).

(** where the demoter is: waiting; with a pack to move; behind the first and the second [moveFile] *)
Inductive mover := Resting | Chosen (id : N) | PackMoved (id : N) | HintMoved (id : N).
Record daemon := Daemon { st : store; dk : disk; mv : mover }.

(** the target may be there; [ok]: whether linking or copying is allowed *)
Definition moveFile (ok : bool) (files : gmap (nat * N) str) (from to : nat * N) : option (gmap (nat * N) str) :=
  match files !! to with
  | Some _ => Some files
  | None => match files !! from with
            | Some bytes => if ok then Some (<[to := bytes]> files) else None
            | None => None
            end
  end.

(** from the last tier a pack is deleted *)
Definition evict (id : N) (p : pack) (s : store) (d : disk) : store * disk :=
  (set_total (p_tier p) (- Z.of_N (p_size p))
     (Store (tiers s) (filter (λ e, l_pack e.2 ≠ id) (index s)) (delete id (packs s)) (active s) (closed s)),
   remove_hint (p_tier p, id) (remove_pack (p_tier p, id) d)).
(** the switch to the lower tier, the files of the upper one removed *)
Definition switch (id : N) (p : pack) (s : store) (d : disk) : store * disk :=
  (set_total (S (p_tier p)) (Z.of_N (p_size p)) (set_total (p_tier p) (- Z.of_N (p_size p))
     (set_packs (<[id := Pack (S (p_tier p)) (p_size p) (p_live p) (p_used p) (p_touched p)]> (packs s)) s)),
   remove_hint (p_tier p, id) (remove_pack (p_tier p, id) (set_mtime (S (p_tier p), id) (p_used p) d))).

Inductive event :=
| EPut (f : put_faults) (now : N) (key : str) (size : Z) (body : str)
| EGet (now : N) (key : str)
| EPick                        (* victim *)
| EMovePack (ok : bool)        (* the first moveFile, or the eviction *)
| EMoveHint (ok : bool)
| ESwitch (ok : bool)          (* [ok]: the moved pack opens *)
| EClose (ok : bool).

Definition step (e : event) (d : daemon) : daemon :=
  let '(Daemon s k m) := d in
  match e with
  | EPut f now key size body => let '(s, k, _) := Put f now key size body s k in Daemon s k m
  | EGet now key => let '(_, s, k) := Get now key s k in Daemon s k m
  | EPick =>
      match m with
      | Resting => Daemon s k (match victim s with Some id => Chosen id | None => Resting end)
      | _ => d
      end
  | EMovePack ok =>
      match m with
      | Chosen id =>
          match packs s !! id with
          | None => d
          | Some p =>
              if (S (p_tier p) =? length (tiers s))%nat then let '(s, k) := evict id p s k in Daemon s k Resting
              else match moveFile ok (d_packs k) (p_tier p, id) (S (p_tier p), id) with
                   | Some files => Daemon s (Disk files (d_hints k) (d_mtimes k)) (PackMoved id)
                   | None => Daemon s k Resting
                   end
          end
      | _ => d
      end
  | EMoveHint ok =>
      match m with
      | PackMoved id =>
          match packs s !! id with
          | None => d
          | Some p =>
              match moveFile ok (d_hints k) (p_tier p, id) (S (p_tier p), id) with
              | Some files => Daemon s (Disk (d_packs k) files (d_mtimes k)) (HintMoved id)
              | None => Daemon s k Resting
              end
          end
      | _ => d
      end
  | ESwitch ok =>
      match m with
      | HintMoved id =>
          match packs s !! id with
          | None => d
          | Some p => if ok then let '(s, k) := switch id p s k in Daemon s k Resting else Daemon s k Resting
          end
      | _ => d
      end
  | EClose ok =>
      match (if closed s then None else active s) with
      | None => d   (* closing the channel again panics *)
      | Some a =>
          let s := Store (tiers s) (index s) (packs s) (active s) true in
          Daemon s (seal ok a s k).1 m
      end
  end.

(** [Stats]: keys, packs, bytes, live bytes *)
Definition Stats (s : store) : nat * nat * Z * Z :=
  (size (index s), size (packs s), foldr (λ t n, (t_total t + n)%Z) 0%Z (tiers s), map_fold (λ _ p n, (p_live p + n)%Z) 0%Z (packs s)).
End Store.
