(* ===== verification/PackRecovery.v ===== *)
(** * The pack store keeps its values (src/pkgs/ji/jigd/src/store.go)

    The invariant between the index in memory and the files on disk, its preservation by every request and
    every step of the demoter, and what opening makes of the files a crash leaves behind. *)

From S2P Require Import Prelude PackFormat PackStore.

(** ** Entries *)

(** the last entry for a key: the one a load leaves in the index *)
Definition last_of (k : str) (es : list (str * loc)) : option loc :=
  foldl (λ acc e, if e.1 == k then Some e.2 else acc) None es.

Lemma last_of_snoc k es e : last_of k (es ++ [e]) = if e.1 == k then Some e.2 else last_of k es.
Proof. unfold last_of. by rewrite foldl_app. Qed.
Lemma last_of_elem k es l : last_of k es = Some l → (k, l) ∈ es.
Proof.
  induction es as [| [k' l'] es IH] using rev_ind; [done |]. rewrite last_of_snoc. cbn [fst snd].
  case_bool_decide as Hk; [intros [= ->]; subst; set_solver | intros ?%IH; set_solver].
Qed.
Lemma last_of_is_Some k l es : (k, l) ∈ es → is_Some (last_of k es).
Proof.
  induction es as [| [k' l'] es IH] using rev_ind; [by intros ?%elem_of_nil |].
  rewrite last_of_snoc. cbn [fst snd]. case_bool_decide as Hk; [by eexists |].
  intros [H | [= -> ->]%list_elem_of_singleton]%elem_of_app; [by apply IH | done].
Qed.
Lemma last_of_None k es : last_of k es = None ↔ ∀ l, (k, l) ∉ es.
Proof.
  split.
  - intros E l Hl. apply last_of_is_Some in Hl. rewrite E in Hl. by destruct Hl.
  - intros H. destruct (last_of k es) eqn:E; [| done]. by apply last_of_elem, H in E.
Qed.
(** with one entry per key the order does not matter *)
Lemma last_of_unique k l es : (∀ l', (k, l') ∈ es → l' = l) → (k, l) ∈ es → last_of k es = Some l.
Proof.
  intros Hu Hin. destruct (last_of_is_Some _ _ _ Hin) as [l' E]. rewrite E. f_equal. by apply Hu, last_of_elem.
Qed.

(** ** What loading does to the index *)

(** tier and size of a pack *)
Definition shape (s : store) (id : N) : option (nat * N) := (λ p, (p_tier p, p_size p)) <$> packs s !! id.

Lemma bump_shape id n ps i :
  (λ p, (p_tier p, p_size p)) <$> bump id n ps !! i = (λ p, (p_tier p, p_size p)) <$> ps !! i.
Proof.
  unfold bump. destruct (decide (i = id)) as [-> | Hi].
  - rewrite lookup_alter_eq. by destruct (ps !! id).
  - by rewrite lookup_alter_ne.
Qed.
Lemma point_shape key l s id : shape (point key l s) id = shape s id.
Proof. unfold shape, point. cbn [packs]. rewrite bump_shape. destruct (index s !! key); [apply bump_shape | done]. Qed.

(** a step that leaves everything but index and live bytes *)
Record kept (s s' : store) : Prop := Kept {
  kept_shape : ∀ id, shape s' id = shape s id;
  kept_active : active s' = active s;
  kept_closed : closed s' = closed s;
  kept_tiers : length (tiers s') = length (tiers s)
}.
Lemma kept_refl s : kept s s.
Proof. done. Qed.
Lemma kept_trans s1 s2 s3 : kept s1 s2 → kept s2 s3 → kept s1 s3.
Proof. intros [H1 H2 H3 H4] [H5 H6 H7 H8]. split; [intros id; by rewrite H5 | congruence..]. Qed.
Lemma point_kept key l s : kept s (point key l s).
Proof. split; [apply point_shape | done..]. Qed.
Lemma add_kept e s : kept s (add e s).
Proof. unfold add. destruct (index s !! e.1); [destruct (_ <? _)%N |]; try apply point_kept. apply kept_refl. Qed.
Lemma foldl_add_kept es s : kept s (foldl (λ s e, add e s) s es).
Proof.
  revert s. induction es as [| e es IH]; intros s; [apply kept_refl |]. eapply kept_trans; [apply add_kept | apply IH].
Qed.

Lemma add_index e s k : index (add e s) !! k =
  if e.1 == k then
    match index s !! k with Some old => if (l_pack e.2 <? l_pack old)%N then Some old else Some e.2 | None => Some e.2 end
  else index s !! k.
Proof.
  unfold add. case_bool_decide as Hk; [subst k |].
  - destruct (index s !! e.1) as [old |] eqn:E; [destruct (_ <? _)%N; [done |] |]; cbn; by rewrite lookup_insert_eq.
  - destruct (index s !! e.1) as [old |] eqn:E; [destruct (_ <? _)%N; [done |] |]; cbn; by rewrite lookup_insert_ne.
Qed.
(** the entries of one pack: the last one for a key, unless a newer pack has the key *)
Lemma foldl_add_index id es s k : Forall (λ e, l_pack e.2 = id) es →
  index (foldl (λ s e, add e s) s es) !! k =
    match last_of k es with
    | None => index s !! k
    | Some l => match index s !! k with Some old => if (id <? l_pack old)%N then Some old else Some l | None => Some l end
    end.
Proof.
  induction es as [| e es IH] using rev_ind; [done |]. intros [HF [He _]%list.Forall_cons]%Forall_app.
  rewrite foldl_app, last_of_snoc. cbn [foldl]. rewrite add_index, IH by done. rewrite He.
  case_bool_decide as Hk; [| done]. destruct (last_of k es) as [l |] eqn:El.
  - apply last_of_elem in El. rewrite list.Forall_forall in HF. apply HF in El. cbn in El.
    destruct (index s !! k) as [old |]; [destruct (id <? l_pack old)%N eqn:Ho; [by rewrite Ho |] |]; by rewrite El, N.ltb_irrefl.
  - done.
Qed.

(** ** The files *)

Definition entries_at (d : disk) (x : nat * N) : list (str * loc) :=
  match d_packs d !! x with
  | None => []
  | Some file => match d_hints d !! x with
                 | Some hint => read_hints x.2 (N.of_nat (length file)) hint
                 | None => (scan_pack x.2 file).1
                 end
  end.

(** a pack holds whole records that were asked for, then perhaps a torn one; its hint names some of them *)
Definition file_ok (asked : list (str * str)) (id : N) (file : str) (hint : option str) : Prop :=
  ∃ es tail, file = pack_bytes es ++ tail ∧ Forall fits es ∧ torn tail ∧ (N.of_nat (length file) < 2 ^ 32)%N ∧
    (∀ e, e ∈ es → e ∈ asked) ∧
    match hint with None => True | Some h => ∃ hs, h = hint_bytes hs ∧ ∀ e, e ∈ hs → e ∈ placed id es 0 end.

(** the copy of a pack that an opening takes: the one in the fastest tier *)
Definition chosen (d : disk) (id : N) (t : nat) : Prop :=
  is_Some (d_packs d !! (t, id)) ∧ ∀ t', t' < t → d_packs d !! (t', id) = None.
Definition seen (d : disk) (id : N) (es : list (str * loc)) : Prop := ∃ t, chosen d id t ∧ es = entries_at d (t, id).
(** the entry for a key in the newest pack that has one *)
Definition newest (d : disk) (k : str) (l : loc) : Prop :=
  (∃ es, seen d (l_pack l) es ∧ last_of k es = Some l) ∧
  ∀ id es, seen d id es → (l_pack l < id)%N → last_of k es = None.

Record sound (n : nat) (asked : list (str * str)) (d : disk) : Prop := Sound {
  s_files : ∀ x file, d_packs d !! x = Some file → file_ok asked x.2 file (d_hints d !! x);
  s_copies : ∀ t t' id f f', d_packs d !! (t, id) = Some f → d_packs d !! (t', id) = Some f' → f = f';
  s_hints : ∀ t t' id h h', d_hints d !! (t, id) = Some h → d_hints d !! (t', id) = Some h' → h = h';
  s_chosen : ∀ t t' id, chosen d id t → is_Some (d_hints d !! (t', id)) → is_Some (d_hints d !! (t, id));
  s_ids : ∀ t id, is_Some (d_hints d !! (t, id)) → ∃ t' id', (id ≤ id')%N ∧ is_Some (d_packs d !! (t', id'));
  s_sealed : ∀ t t' id, chosen d id t → is_Some (d_packs d !! (t', id)) → t' ≠ t → is_Some (d_hints d !! (t, id));
  s_tiers : ∀ t id, is_Some (d_packs d !! (t, id)) → t < n
}.

Lemma chosen_unique d id t t' : chosen d id t → chosen d id t' → t = t'.
Proof.
  intros [[f Hf] H1] [[f' Hf'] H2]. destruct (Nat.lt_trichotomy t t') as [H | [-> | H]]; [| done |].
  - rewrite H2 in Hf by done. done.
  - rewrite H1 in Hf' by done. done.
Qed.
Lemma chosen_exists d id t : is_Some (d_packs d !! (t, id)) → ∃ t', chosen d id t' ∧ t' ≤ t.
Proof.
  induction t as [t IH] using (well_founded_induction lt_wf). intros Ht.
  destruct (decide (Exists (λ t', is_Some (d_packs d !! (t', id))) (seq 0 t))) as [Hex | Hno].
  - apply Exists_exists in Hex as (t' & Hlt%elem_of_seq & Hs). destruct (IH t' ltac:(lia) Hs) as (t0 & Hc & Hle).
    exists t0. split; [done | lia].
  - exists t. split; [| lia]. split; [done |]. intros t' Hlt. apply eq_None_not_Some. intros Hs. apply Hno.
    apply Exists_exists. exists t'. split; [apply elem_of_seq; lia | done].
Qed.
Lemma seen_unique d id es es' : seen d id es → seen d id es' → es = es'.
Proof. intros (t & Hc & ->) (t' & Hc' & ->). by rewrite (chosen_unique _ _ _ _ Hc Hc'). Qed.
Lemma newest_unique d k l l' : newest d k l → newest d k l' → l = l'.
Proof.
  intros [(es & Hs & Hl) H1] [(es' & Hs' & Hl') H2].
  destruct (N.lt_trichotomy (l_pack l) (l_pack l')) as [H | [H | H]].
  - by rewrite (H1 _ _ Hs' H) in Hl'.
  - rewrite H in Hs. rewrite (seen_unique _ _ _ _ Hs Hs') in Hl. congruence.
  - by rewrite (H2 _ _ Hs H) in Hl.
Qed.

(** what the entries of a good file are *)
Lemma entries_of_file asked d x file : d_packs d !! x = Some file → file_ok asked x.2 file (d_hints d !! x) →
  ∃ es tail, file = pack_bytes es ++ tail ∧ Forall fits es ∧ torn tail ∧ (∀ e, e ∈ es → e ∈ asked) ∧
    (∀ e, e ∈ entries_at d x → e ∈ placed x.2 es 0) ∧ (d_hints d !! x = None → entries_at d x = placed x.2 es 0).
Proof.
  intros Hf (es & tail & -> & Hfit & Htorn & Hlen & Hask & Hh). exists es, tail.
  unfold entries_at. rewrite Hf. rewrite length_app in Hlen.
  split_and!; try done; destruct (d_hints d !! x) as [h |] eqn:E; try done.
  - destruct Hh as (hs & -> & Hin). rewrite read_hints_bytes; [done | by rewrite length_app |].
    apply list.Forall_forall. intros [k l] Hkl. destruct (placed_inside _ _ _ _ (Hin _ Hkl)) as (H1 & H2 & H3).
    split; [done |]. rewrite length_app. cbn in *. lia.
  - rewrite scan_pack_records by (done || lia). done.
  - intros _. by rewrite scan_pack_records by (done || lia).
Qed.
(** an entry names a value that was asked for under its key *)
Lemma entry_value n asked d x file k l : sound n asked d → d_packs d !! x = Some file → (k, l) ∈ entries_at d x →
  l_pack l = x.2 ∧ (k, substr file (N.to_nat (l_off l)) (N.to_nat (l_len l))) ∈ asked.
Proof.
  intros Hd Hf Hin. destruct (entries_of_file asked d x file Hf (s_files _ _ _ Hd _ _ Hf)) as (es & tail & -> & _ & _ & Hask & Hent & _).
  destruct (placed_value _ _ _ _ _ tail (Hent _ Hin)) as (v & Hv & Hid & _ & _ & _ & Hsub).
  split; [done |]. rewrite N.sub_0_r in Hsub. rewrite Hsub. by apply Hask.
Qed.

(** *** changes of the files *)

(** nothing changes about a pack *)
Definition agree (d d' : disk) (id : N) : Prop :=
  ∀ t, d_packs d' !! (t, id) = d_packs d !! (t, id) ∧ (is_Some (d_packs d !! (t, id)) → d_hints d' !! (t, id) = d_hints d !! (t, id)).
Lemma agree_chosen d d' id t : agree d d' id → chosen d' id t ↔ chosen d id t.
Proof.
  intros Ha. unfold chosen. rewrite (proj1 (Ha t)). split; intros [H1 H2]; (split; [done |]); intros t' Ht; specialize (H2 t' Ht);
    by rewrite ?(proj1 (Ha t')) in *.
Qed.
Lemma agree_seen d d' id es : agree d d' id → seen d' id es ↔ seen d id es.
Proof.
  intros Ha. unfold seen. apply exist_proper. intros t. rewrite agree_chosen by done.
  split; intros [[Hs Hc] ->]; (split; [by split |]); unfold entries_at; destruct (Ha t) as [-> Hh];
    destruct (d_packs d !! (t, id)); [by rewrite Hh | done | by rewrite Hh | done].
Qed.
Lemma newest_mono d d' k l :
  (∀ es, seen d (l_pack l) es → last_of k es = Some l → ∃ es', seen d' (l_pack l) es' ∧ last_of k es' = Some l) →
  (∀ id es', seen d' id es' → (l_pack l < id)%N → (∀ es, seen d id es → last_of k es = None) → last_of k es' = None) →
  newest d k l → newest d' k l.
Proof.
  intros H1 H2 [(es & Hs & Hl) Hn]. split; [by eapply H1 |]. intros id es' Hs' Hlt. apply (H2 _ _ Hs' Hlt).
  intros es0 Hs0. by apply (Hn id).
Qed.
(** only one pack changes, and its entries keep what is newest and gain nothing *)
Lemma newest_one d d' id k l : (∀ i, i ≠ id → agree d d' i) →
  (∀ es', seen d' id es' → ∃ es, seen d id es ∧ (last_of k es = None → last_of k es' = None)) →
  (l_pack l = id → ∀ es, seen d id es → last_of k es = Some l → ∃ es', seen d' id es' ∧ last_of k es' = Some l) →
  newest d k l → newest d' k l.
Proof.
  intros Ha H1 H2. apply newest_mono.
  - intros es Hs Hl. destruct (decide (l_pack l = id)) as [E | E]; [rewrite E in Hs |- *; by apply (H2 E es) |].
    exists es. split; [| done]. apply (agree_seen d d'); [by apply Ha | done].
  - intros i es' Hs Hlt Hn. destruct (decide (i = id)) as [-> | E].
    + destruct (H1 _ Hs) as (es & Hs0 & Himp). by apply Himp, Hn.
    + apply Hn. apply (agree_seen d d'); [by apply Ha | done].
Qed.

(** some pack has the key *)
Definition says (d : disk) (k : str) : Prop := ∃ id es, seen d id es ∧ is_Some (last_of k es).
Definition no_more (d d' : disk) : Prop := ∀ k, says d' k → says d k.

Lemma no_more_trans d1 d2 d3 : no_more d1 d2 → no_more d2 d3 → no_more d1 d3.
Proof. intros H1 H2 k Hk. by apply H1, H2. Qed.
(** what is seen of each pack stays *)
Lemma no_more_same d d' : (∀ i t, chosen d' i t → chosen d i t ∧ entries_at d' (t, i) = entries_at d (t, i)) → no_more d d'.
Proof. intros H k (id & es & (t & Hc & ->) & Hs). destruct (H _ _ Hc) as [Hc' E]. exists id, (entries_at d (t, id)). split; [by exists t | by rewrite <-E]. Qed.
(** only one pack changes *)
Lemma says_one d d' id t k : (∀ i, i ≠ id → agree d d' i) → chosen d' id t → says d' k → says d k ∨ is_Some (last_of k (entries_at d' (t, id))).
Proof.
  intros Ha Hc (i & es & Hse & Hs). destruct (decide (i = id)) as [-> | Hi].
  - right. destruct Hse as (t' & Hc' & ->). by rewrite (chosen_unique _ _ _ _ Hc Hc').
  - left. exists i, es. split; [| done]. apply (agree_seen d d'); [by apply Ha | done].
Qed.
Lemma no_more_one d d' id t : (∀ i, i ≠ id → agree d d' i) → chosen d' id t → chosen d id t →
  (∀ e, e ∈ entries_at d' (t, id) → e ∈ entries_at d (t, id)) → no_more d d'.
Proof.
  intros Ha Hc' Hc Hsub k Hk. destruct (says_one d d' id t k Ha Hc' Hk) as [? | [l Hl]]; [done |].
  exists id, (entries_at d (t, id)). split; [by exists t |]. by eapply last_of_is_Some, Hsub, last_of_elem.
Qed.

(** writing the hint of a pack that has none *)
Lemma seal_sound n asked d id t hs : sound n asked d → chosen d id t → d_hints d !! (t, id) = None →
  (∀ e, e ∈ hs → e ∈ entries_at d (t, id)) →
  let d' := write_hint (t, id) (hint_bytes hs) d in
  sound n asked d' ∧ entries_at d' (t, id) = hs ∧
  ∀ k l, newest d k l → (l_pack l = id → last_of k hs = Some l) → newest d' k l.
Proof.
  intros Hd Hc Hno Hin d'. pose proof Hc as [[file Hf] Hlow].
  pose proof (s_files _ _ _ Hd _ _ Hf) as Hok. rewrite Hno in Hok.
  destruct Hok as (es & tail & Efile & Hfit & Htorn & Hlen & Hask & _).
  assert (entries_at d (t, id) = placed id es 0) as Eent.
  { unfold entries_at. rewrite Hf, Hno. cbn [snd]. rewrite Efile in Hlen |- *. rewrite length_app in Hlen.
    rewrite scan_pack_records; [done | done | done | lia]. }
  rewrite Eent in Hin.
  assert (∀ i t', (t', i) ≠ (t, id) → d_hints d' !! (t', i) = d_hints d !! (t', i)) as Hother.
  { intros i t' Hne. cbn. by rewrite lookup_insert_ne. }
  assert (d_hints d' !! (t, id) = Some (hint_bytes hs)) as Hnew by (cbn; by rewrite lookup_insert_eq).
  assert (∀ t', d_hints d !! (t', id) = None) as Hnone.
  { intros t'. apply eq_None_not_Some. intros Hs. apply (s_chosen _ _ _ Hd t t' id Hc) in Hs. rewrite Hno in Hs. by destruct Hs. }
  assert (entries_at d' (t, id) = hs) as Ehs.
  { unfold entries_at. change (d_packs d') with (d_packs d). rewrite Hf, Hnew. cbn [snd]. apply read_hints_bytes; [lia |].
    apply list.Forall_forall. intros [k l] Hkl. destruct (placed_inside _ _ _ _ (Hin _ Hkl)) as (H1 & H2 & H3). split; [done |].
    rewrite Efile, length_app. cbn in *. lia. }
  split; [| split; [exact Ehs |]].
  - split.
    + intros [t' i] f' Hf'. destruct (decide ((t', i) = (t, id))) as [[= -> ->] | Hne].
      * change (d_packs d !! (t, id) = Some f') in Hf'. rewrite Hf in Hf'. injection Hf' as <-.
        rewrite Hnew. exists es, tail. split_and!; try done. by exists hs.
      * rewrite Hother by done. apply (s_files _ _ _ Hd _ _ Hf').
    + apply (s_copies _ _ _ Hd).
    + intros t1 t2 i h h' H1 H2. destruct (decide (i = id)) as [-> | Hi].
      * assert (∀ t', d_hints d' !! (t', id) = Some h ∨ d_hints d' !! (t', id) = Some h' → t' = t) as Honly.
        { intros t' Hs. destruct (decide (t' = t)) as [| Ht]; [done |]. rewrite Hother, Hnone in Hs by congruence. naive_solver. }
        rewrite (Honly t1) in H1 by auto. rewrite (Honly t2) in H2 by auto. congruence.
      * rewrite Hother in H1, H2 by congruence. eapply (s_hints _ _ _ Hd); done.
    + intros t1 t2 i Hc1 Hs. destruct (decide (i = id)) as [-> | Hi].
      * assert (t1 = t) as -> by (by eapply (chosen_unique d id)). by rewrite Hnew.
      * rewrite Hother in Hs |- * by congruence. by eapply (s_chosen _ _ _ Hd).
    + intros t1 i Hs. destruct (decide ((t1, i) = (t, id))) as [[= -> ->] | Hne].
      * exists t, id. split; [done |]. by exists file.
      * rewrite Hother in Hs by done. by apply (s_ids _ _ _ Hd) in Hs.
    + intros t1 t2 i Hc1 Hs Hne. destruct (decide ((t1, i) = (t, id))) as [[= -> ->] | Hne']; [by rewrite Hnew |].
      rewrite Hother by done. by eapply (s_sealed _ _ _ Hd).
    + apply (s_tiers _ _ _ Hd).
  - intros k l Hk Hl. apply (newest_one d d' id); [| | |done].
    + intros i Hi t'. split; [done |]. intros _. by rewrite Hother by congruence.
    + intros es' (t' & Hc' & ->). assert (t' = t) as -> by (by eapply (chosen_unique d id)). exists (placed id es 0).
      split; [exists t; by rewrite Eent |]. rewrite Ehs, !last_of_None. intros Hn l' Hl'. by apply (Hn l'), Hin.
    + intros El es' _ _. exists hs. split; [exists t; by rewrite Ehs | by apply Hl].
Qed.

(** a pack without a hint has no second copy, and no hint of it lies anywhere *)
Lemma unsealed_alone n asked d id t : sound n asked d → chosen d id t → d_hints d !! (t, id) = None →
  ∀ t', (is_Some (d_packs d !! (t', id)) → t' = t) ∧ d_hints d !! (t', id) = None.
Proof.
  intros Hd Hc Hno t'. split.
  - intros Hs. destruct (decide (t' = t)) as [| Hne]; [done |]. pose proof (s_sealed _ _ _ Hd t t' id Hc Hs Hne) as H.
    rewrite Hno in H. by destruct H.
  - apply eq_None_not_Some. intros Hs. apply (s_chosen _ _ _ Hd t t' id Hc) in Hs. rewrite Hno in Hs. by destruct Hs.
Qed.

(** other bytes for a pack that has no hint: a record more, a torn one, or the torn one cut off *)
Lemma rewrite_sound n asked asked' d id t es tail : sound n asked d → chosen d id t → d_hints d !! (t, id) = None →
  (∀ e, e ∈ asked → e ∈ asked') → Forall fits es → torn tail → (N.of_nat (length (pack_bytes es ++ tail)) < 2 ^ 32)%N →
  (∀ e, e ∈ es → e ∈ asked') →
  let d' := write_pack (t, id) (pack_bytes es ++ tail) d in
  sound n asked' d' ∧ chosen d' id t ∧ entries_at d' (t, id) = placed id es 0 ∧
  ∀ k l, newest d k l → last_of k (placed id es 0) = last_of k (entries_at d (t, id)) → newest d' k l.
Proof.
  intros Hd Hc Hno Hask Hfit Htorn Hlen Hes d'. pose proof (unsealed_alone _ _ _ _ _ Hd Hc Hno) as Halone.
  assert (d_packs d' !! (t, id) = Some (pack_bytes es ++ tail)) as Hnew by (cbn; by rewrite lookup_insert_eq).
  assert (∀ x, x ≠ (t, id) → d_packs d' !! x = d_packs d !! x) as Hother by (intros x Hx; cbn; by rewrite lookup_insert_ne).
  assert (∀ x, is_Some (d_packs d' !! x) ↔ is_Some (d_packs d !! x)) as Hsome.
  { intros x. destruct (decide (x = (t, id))) as [-> | Hx]; [| by rewrite Hother]. rewrite Hnew. split; intros; [apply Hc | by eexists]. }
  assert (∀ i t', chosen d' i t' ↔ chosen d i t') as Hch.
  { intros i t'. unfold chosen. rewrite Hsome. split; intros [H1 H2]; (split; [done |]); intros t1 Ht1; specialize (H2 t1 Ht1);
      rewrite eq_None_not_Some in *; by rewrite Hsome in *. }
  assert (entries_at d' (t, id) = placed id es 0) as Eent.
  { unfold entries_at. rewrite Hnew. change (d_hints d') with (d_hints d). rewrite Hno. cbn [snd].
    rewrite length_app in Hlen. rewrite scan_pack_records; [done | done | done | lia]. }
  split; [| split; [by apply Hch | split; [exact Eent |]]].
  - split.
    + intros x f Hf. destruct (decide (x = (t, id))) as [-> | Hx].
      * rewrite Hnew in Hf. injection Hf as <-. change (d_hints d') with (d_hints d). rewrite Hno. by exists es, tail.
      * rewrite Hother in Hf by done. destruct (s_files _ _ _ Hd _ _ Hf) as (es1 & tail1 & H1 & H2 & H3 & H4 & H5 & H6).
        exists es1, tail1. split_and!; try done. intros e He. by apply Hask, H5.
    + intros t1 t2 i f f' H1 H2. destruct (decide (i = id)) as [-> | Hi].
      * rewrite (proj1 (Halone t1)) in H1 by (apply Hsome; by eexists).
        rewrite (proj1 (Halone t2)) in H2 by (apply Hsome; by eexists). congruence.
      * rewrite Hother in H1, H2 by congruence. by eapply (s_copies _ _ _ Hd).
    + apply (s_hints _ _ _ Hd).
    + intros t1 t2 i Hc1 Hs. apply Hch in Hc1. by eapply (s_chosen _ _ _ Hd).
    + intros t1 i Hs. destruct (s_ids _ _ _ Hd t1 i Hs) as (t' & id' & Hle & Hp). exists t', id'. split; [done | by apply Hsome].
    + intros t1 t2 i Hc1 Hs Hne. apply Hch in Hc1. apply Hsome in Hs. by eapply (s_sealed _ _ _ Hd).
    + intros t1 i Hs. apply Hsome in Hs. by eapply (s_tiers _ _ _ Hd).
  - intros k l Hk Hl. apply (newest_one d d' id); [| | |done].
    + intros i Hi t'. split; [apply Hother; congruence | done].
    + intros es' (t' & Hc' & ->). apply Hch in Hc'. assert (t' = t) as -> by (by eapply (chosen_unique d id)).
      exists (entries_at d (t, id)). split; [by exists t |]. by rewrite Eent, Hl.
    + intros El es' (t' & Hc' & ->) Hl'. assert (t' = t) as -> by (by eapply (chosen_unique d id)).
      exists (placed id es 0). split; [exists t; by rewrite Eent, Hch |]. by rewrite Hl.
Qed.

(** the clock of a file is no part of this *)
Lemma mtime_sound n asked d x t : sound n asked d → sound n asked (set_mtime x t d).
Proof. intros [H1 H2 H3 H4 H5 H6 H7]. by split. Qed.
Lemma mtime_newest d x t k l : newest d k l → newest (set_mtime x t d) k l.
Proof. done. Qed.

(** a new pack *)
Lemma create_sound n asked d id : sound n asked d → 0 < n → (∀ t, d_packs d !! (t, id) = None ∧ d_hints d !! (t, id) = None) →
  let d' := write_pack (0, id) [] d in
  sound n asked d' ∧ chosen d' id 0 ∧ ∀ k l, newest d k l → newest d' k l.
Proof.
  intros Hd Hn Hfresh d'.
  assert (d_packs d' !! (0, id) = Some []) as Hnew by (cbn; by rewrite lookup_insert_eq).
  assert (∀ x, x ≠ (0, id) → d_packs d' !! x = d_packs d !! x) as Hother by (intros x Hx; cbn; by rewrite lookup_insert_ne).
  assert (∀ t f, d_packs d' !! (t, id) = Some f → t = 0) as Honly.
  { intros t f Hf. destruct (decide (t = 0)) as [| Ht]; [done |]. rewrite Hother, (proj1 (Hfresh t)) in Hf by congruence. done. }
  assert (∀ i, i ≠ id → agree d d' i) as Hagree by (intros i Hi t; split; [apply Hother; congruence | done]).
  assert (chosen d' id 0) as Hc by (split; [by eexists | intros t' Ht; lia]).
  assert (∀ i t', chosen d' i t' → (i = id ∧ t' = 0) ∨ (i ≠ id ∧ chosen d i t')) as Hch.
  { intros i t' Hc'. destruct (decide (i = id)) as [-> | Hi]; [left; split; [done | by eapply (chosen_unique d' id)] |].
    right. split; [done |]. apply (agree_chosen d d'); [by apply Hagree | done]. }
  split; [| split; [exact Hc |]].
  - split.
    + intros x f Hf. destruct (decide (x = (0, id))) as [-> | Hx].
      * rewrite Hnew in Hf. injection Hf as <-. change (d_hints d') with (d_hints d). rewrite (proj2 (Hfresh 0)).
        exists [], []. split_and!; [done | by apply Forall_nil_2 | apply torn_nil | done | by intros e ?%elem_of_nil | done].
      * rewrite Hother in Hf by done. apply (s_files _ _ _ Hd _ _ Hf).
    + intros t1 t2 i f f' H1 H2. destruct (decide (i = id)) as [-> | Hi].
      * pose proof (Honly _ _ H1) as ->. pose proof (Honly _ _ H2) as ->. congruence.
      * rewrite Hother in H1, H2 by congruence. by eapply (s_copies _ _ _ Hd).
    + apply (s_hints _ _ _ Hd).
    + intros t1 t2 i [[-> ->] | [Hi Hc1]]%Hch Hs.
      * change (is_Some (d_hints d !! (t2, id))) in Hs. rewrite (proj2 (Hfresh t2)) in Hs. by destruct Hs.
      * by eapply (s_chosen _ _ _ Hd).
    + intros t1 i Hs. destruct (s_ids _ _ _ Hd t1 i Hs) as (t' & id' & Hle & Hp). exists t', id'. split; [done |].
      destruct (decide ((t', id') = (0, id))) as [E | Hx]; [rewrite E, Hnew; by eexists | by rewrite Hother].
    + intros t1 t2 i [[-> ->] | [Hi Hc1]]%Hch Hs Hne.
      * destruct Hs as [f Hf]. by apply Honly in Hf.
      * rewrite Hother in Hs by congruence. by eapply (s_sealed _ _ _ Hd).
    + intros t1 i Hs. destruct (decide ((t1, i) = (0, id))) as [[= -> ->] | Hx]; [done |].
      rewrite Hother in Hs by done. by eapply (s_tiers _ _ _ Hd).
  - intros k l Hk. pose proof Hk as [(es & (t & [Hs _] & _) & _) _]. apply (newest_mono d d'); [| |done].
    + intros es' Hs' Hl. exists es'. split; [| done]. apply (agree_seen d d'); [| done]. apply Hagree. intros E.
      rewrite E, (proj1 (Hfresh t)) in Hs. by destruct Hs.
    + intros i es' Hs' Hlt Hn'. destruct (decide (i = id)) as [-> | Hi].
      * destruct Hs' as (t' & Hc' & ->). assert (t' = 0) as -> by (by eapply (chosen_unique d' id)).
        unfold entries_at. rewrite Hnew. change (d_hints d') with (d_hints d). by rewrite (proj2 (Hfresh 0)).
      * apply Hn'. apply (agree_seen d d'); [by apply Hagree | done].
Qed.

(** [newest] depends on what is seen of each pack *)
Lemma newest_seen d d' k l : (∀ id es, seen d' id es → seen d id es) → (∀ es, seen d (l_pack l) es → seen d' (l_pack l) es) →
  newest d k l → newest d' k l.
Proof. intros H1 H2. apply newest_mono; [intros es Hs Hl; exists es; auto | intros id es' Hs _ Hn; by apply Hn, H1]. Qed.

(** a copy of a pack in a slower tier *)
Lemma copy_pack_sound n asked d id t t' file : sound n asked d → chosen d id t → t < t' → t' < n →
  d_packs d !! (t, id) = Some file → is_Some (d_hints d !! (t, id)) →
  let d' := Disk (<[(t', id) := file]> (d_packs d)) (d_hints d) (d_mtimes d) in
  sound n asked d' ∧ (∀ i t1, chosen d' i t1 ↔ chosen d i t1) ∧ ∀ k l, newest d k l → newest d' k l.
Proof.
  intros Hd Hc Hlt Hn Hf Hh d'.
  assert (∀ x, x ≠ (t', id) → d_packs d' !! x = d_packs d !! x) as Hother by (intros x Hx; cbn; by rewrite lookup_insert_ne).
  assert (d_packs d' !! (t', id) = Some file) as Hnew by (cbn; by rewrite lookup_insert_eq).
  assert (∀ i t1, chosen d' i t1 ↔ chosen d i t1) as Hch.
  { intros i t1. destruct (decide (i = id)) as [-> | Hi].
    - assert (chosen d' id t) as Hc'.
      { split; [rewrite Hother by (intros [= E]; lia); by eexists |]. intros t2 Ht2. rewrite Hother by (intros [= E]; lia). by apply Hc. }
      split; intros Hc1; [by rewrite (chosen_unique _ _ _ _ Hc1 Hc') | by rewrite (chosen_unique _ _ _ _ Hc1 Hc)].
    - apply (agree_chosen d d'). intros t2. split; [apply Hother; congruence | done]. }
  split; [| split; [exact Hch |]].
  - split.
    + intros x f Hfx. destruct (decide (x = (t', id))) as [-> | Hx]; [| rewrite Hother in Hfx by done; by apply (s_files _ _ _ Hd)].
      rewrite Hnew in Hfx. injection Hfx as <-. change (d_hints d') with (d_hints d). cbn [snd].
      pose proof (s_files _ _ _ Hd _ _ Hf) as Hok. cbn [snd] in Hok. destruct Hh as [h Hh]. rewrite Hh in Hok.
      destruct (d_hints d !! (t', id)) as [h' |] eqn:E; [by rewrite (s_hints _ _ _ Hd _ _ _ _ _ E Hh) |].
      destruct Hok as (es & tail & H1 & H2 & H3 & H4 & H5 & _). by exists es, tail.
    + intros t1 t2 i f f' H1 H2. destruct (decide (i = id)) as [-> | Hi].
      * assert (∀ t3 f3, d_packs d' !! (t3, id) = Some f3 → f3 = file) as Hall.
        { intros t3 f3 H3. destruct (decide (t3 = t')) as [-> | Hne]; [congruence |]. rewrite Hother in H3 by congruence.
          by eapply (s_copies _ _ _ Hd). }
        by rewrite (Hall _ _ H1), (Hall _ _ H2).
      * rewrite Hother in H1, H2 by congruence. by eapply (s_copies _ _ _ Hd).
    + apply (s_hints _ _ _ Hd).
    + intros t1 t2 i Hc1 Hs. apply Hch in Hc1. by eapply (s_chosen _ _ _ Hd).
    + intros t1 i Hs. destruct (s_ids _ _ _ Hd t1 i Hs) as (t2 & id2 & Hle & Hp). exists t2, id2. split; [done |].
      destruct (decide ((t2, id2) = (t', id))) as [E | Hx]; [rewrite E, Hnew; by eexists | by rewrite Hother].
    + intros t1 t2 i Hc1 Hs Hne. apply Hch in Hc1. destruct (decide (i = id)) as [-> | Hi].
      * by rewrite (chosen_unique _ _ _ _ Hc1 Hc).
      * rewrite Hother in Hs by congruence. by eapply (s_sealed _ _ _ Hd).
    + intros t1 i Hs. destruct (decide ((t1, i) = (t', id))) as [[= -> ->] | Hx]; [done |]. rewrite Hother in Hs by done. by eapply (s_tiers _ _ _ Hd).
  - intros k l. assert (∀ i es, seen d' i es ↔ seen d i es) as Hseen.
    { intros i es. unfold seen. apply exist_proper. intros t1. rewrite Hch. split; intros [Hc1 ->]; (split; [done |]);
        unfold entries_at; destruct (decide ((t1, i) = (t', id))) as [[= -> ->] | Hx];
        [pose proof (chosen_unique _ _ _ _ Hc1 Hc); lia | by rewrite Hother | pose proof (chosen_unique _ _ _ _ Hc1 Hc); lia | by rewrite Hother]. }
    apply newest_seen; [intros i es; by apply Hseen | intros es; by apply Hseen].
Qed.

(** a copy of its hint *)
Lemma copy_hint_sound n asked d id t t' hint : sound n asked d → chosen d id t → t < t' →
  d_hints d !! (t, id) = Some hint →
  let d' := Disk (d_packs d) (<[(t', id) := hint]> (d_hints d)) (d_mtimes d) in
  sound n asked d' ∧ ∀ k l, newest d k l → newest d' k l.
Proof.
  intros Hd Hc Hlt Hh d'.
  assert (∀ x, x ≠ (t', id) → d_hints d' !! x = d_hints d !! x) as Hother by (intros x Hx; cbn; by rewrite lookup_insert_ne).
  assert (d_hints d' !! (t', id) = Some hint) as Hnew by (cbn; by rewrite lookup_insert_eq).
  assert (∀ t3 h3, d_hints d' !! (t3, id) = Some h3 → h3 = hint) as Hall.
  { intros t3 h3 H3. destruct (decide (t3 = t')) as [-> | Hne]; [congruence |]. rewrite Hother in H3 by congruence.
    by eapply (s_hints _ _ _ Hd). }
  split.
  - split.
    + intros x f Hf. destruct (decide (x = (t', id))) as [-> | Hx]; [| rewrite Hother by done; by apply (s_files _ _ _ Hd)].
      rewrite Hnew. cbn [snd]. pose proof Hc as [[f0 Hf0] _]. pose proof (s_files _ _ _ Hd _ _ Hf0) as Hok. rewrite Hh in Hok.
      by rewrite (s_copies _ _ _ Hd _ _ _ _ _ Hf Hf0).
    + apply (s_copies _ _ _ Hd).
    + intros t1 t2 i h h' H1 H2. destruct (decide (i = id)) as [-> | Hi]; [by rewrite (Hall _ _ H1), (Hall _ _ H2) |].
      rewrite Hother in H1, H2 by congruence. by eapply (s_hints _ _ _ Hd).
    + intros t1 t2 i Hc1 Hs. destruct (decide (i = id)) as [-> | Hi].
      * rewrite (chosen_unique d id _ _ Hc1 Hc), Hother by (intros [= E]; lia). by eexists.
      * rewrite Hother in Hs |- * by congruence. by eapply (s_chosen _ _ _ Hd).
    + intros t1 i Hs. destruct (decide (i = id)) as [-> | Hi]; [exists t, id; split; [done | apply Hc] |].
      rewrite Hother in Hs by congruence. by apply (s_ids _ _ _ Hd) in Hs.
    + intros t1 t2 i Hc1 Hs Hne. destruct (decide ((t1, i) = (t', id))) as [E | Hx]; [rewrite E, Hnew; by eexists |].
      rewrite Hother by done. by eapply (s_sealed _ _ _ Hd).
    + apply (s_tiers _ _ _ Hd).
  - intros k l. assert (∀ i es, seen d' i es ↔ seen d i es) as Hseen.
    { intros i es. unfold seen. apply exist_proper. intros t1. change (chosen d' i t1) with (chosen d i t1).
      split; intros [Hc1 ->]; (split; [done |]); unfold entries_at; change (d_packs d') with (d_packs d);
        (destruct (decide ((t1, i) = (t', id))) as [[= -> ->] | Hx]; [pose proof (chosen_unique _ _ _ _ Hc1 Hc); lia | by rewrite Hother]). }
    apply newest_seen; [intros i es; by apply Hseen | intros es; by apply Hseen].
Qed.

(** a file that goes *)
Lemma remove_pack_sound n asked d t id : sound n asked d →
  (∀ t1, chosen (remove_pack (t, id) d) id t1 → chosen d id t1 ∨ is_Some (d_hints d !! (t1, id))) →
  (∃ t1 id1, (t1, id1) ≠ (t, id) ∧ (id ≤ id1)%N ∧ is_Some (d_packs d !! (t1, id1))) →
  sound n asked (remove_pack (t, id) d).
Proof.
  intros Hd Hch (t0 & id0 & Hne0 & Hle0 & Hp0). set (d' := remove_pack (t, id) d).
  assert (∀ x, x ≠ (t, id) → d_packs d' !! x = d_packs d !! x) as Hother by (intros x Hx; cbn; by rewrite lookup_delete_ne).
  assert (∀ x f, d_packs d' !! x = Some f → d_packs d !! x = Some f) as Hin by (intros x f Hf; cbn in Hf; by apply lookup_delete_Some in Hf as [_ Hf]).
  assert (∀ i t1, chosen d' i t1 → chosen d i t1 ∨ is_Some (d_hints d !! (t1, i))) as Hch'.
  { intros i t1 Hc. destruct (decide (i = id)) as [-> | Hi]; [by apply Hch |]. left.
    apply (agree_chosen d d'); [| done]. intros t2. split; [apply Hother; congruence | done]. }
  split.
  - intros x f Hf%Hin. by apply (s_files _ _ _ Hd).
  - intros t1 t2 i f f' H1%Hin H2%Hin. by eapply (s_copies _ _ _ Hd).
  - apply (s_hints _ _ _ Hd).
  - intros t1 t2 i [Hc | Hs]%Hch' Hs2; [by eapply (s_chosen _ _ _ Hd) | done].
  - intros t1 i Hs. destruct (s_ids _ _ _ Hd t1 i Hs) as (t2 & id2 & Hle & Hp).
    destruct (decide ((t2, id2) = (t, id))) as [[= -> ->] | Hx].
    + exists t0, id0. split; [lia | by rewrite Hother].
    + exists t2, id2. by rewrite Hother.
  - intros t1 t2 i [Hc | Hs]%Hch' [f Hf%Hin] Hne; [| done]. eapply (s_sealed _ _ _ Hd); [done | by eexists | done].
  - intros t1 i [f Hf%Hin]. apply (s_tiers _ _ _ Hd t1 i). by eexists.
Qed.
Lemma remove_hint_sound n asked d x : sound n asked d → d_packs d !! x = None →
  sound n asked (remove_hint x d) ∧ ∀ k l, newest d k l → newest (remove_hint x d) k l.
Proof.
  intros Hd Hx. set (d' := remove_hint x d).
  assert (∀ y, y ≠ x → d_hints d' !! y = d_hints d !! y) as Hother by (intros y Hy; cbn; by rewrite lookup_delete_ne).
  assert (∀ y h, d_hints d' !! y = Some h → d_hints d !! y = Some h) as Hin by (intros y h Hf; cbn in Hf; by apply lookup_delete_Some in Hf as [_ Hf]).
  assert (∀ y, is_Some (d_packs d !! y) → d_hints d' !! y = d_hints d !! y) as Hpack.
  { intros y Hy. apply Hother. intros ->. rewrite Hx in Hy. by destruct Hy. }
  split.
  - split.
    + intros y f Hf. rewrite Hpack by (by eexists). by apply (s_files _ _ _ Hd).
    + apply (s_copies _ _ _ Hd).
    + intros t1 t2 i h h' H1%Hin H2%Hin. by eapply (s_hints _ _ _ Hd).
    + intros t1 t2 i Hc [h Hh%Hin]. rewrite Hpack by apply Hc. eapply (s_chosen _ _ _ Hd); [done | by eexists].
    + intros t1 i [h Hh%Hin]. apply (s_ids _ _ _ Hd t1). by eexists.
    + intros t1 t2 i Hc Hs Hne. rewrite Hpack by apply Hc. by eapply (s_sealed _ _ _ Hd).
    + apply (s_tiers _ _ _ Hd).
  - intros k l. assert (∀ i, agree d d' i) as Ha by (intros i t; split; [done | apply Hpack]).
    apply newest_seen; [intros i es Hs; by apply (agree_seen d d') | intros es Hs; by apply (agree_seen d d')].
Qed.

(** ** What a pack's bytes say *)

Definition content (d : disk) (l : loc) (v : str) : Prop :=
  ∃ t file, chosen d (l_pack l) t ∧ d_packs d !! (t, l_pack l) = Some file ∧ (l_off l + l_len l ≤ N.of_nat (length file))%N ∧
    substr file (N.to_nat (l_off l)) (N.to_nat (l_len l)) = v.

(** a pack is still there, with what it had *)
Definition keeps (d d' : disk) (id : N) : Prop := ∀ t file, chosen d id t → d_packs d !! (t, id) = Some file →
  ∃ t' file', chosen d' id t' ∧ d_packs d' !! (t', id) = Some file' ∧ file `prefix_of` file'.

Lemma substr_prefix file file' (off len : N) : file `prefix_of` file' → (off + len ≤ N.of_nat (length file))%N →
  substr file' (N.to_nat off) (N.to_nat len) = substr file (N.to_nat off) (N.to_nat len).
Proof. intros [x ->] Hle. unfold substr. rewrite drop_app_le by lia. by rewrite take_app_le by (rewrite length_drop; lia). Qed.
Lemma content_keeps d d' l v : keeps d d' (l_pack l) → content d l v → content d' l v.
Proof.
  intros Hk (t & file & Hc & Hf & Hle & Hv). destruct (Hk t file Hc Hf) as (t' & file' & Hc' & Hf' & Hpre).
  exists t', file'. split_and!; [done | done | |].
  - apply prefix_length in Hpre. lia.
  - by rewrite (substr_prefix file file').
Qed.
Lemma content_unique d l v v' : content d l v → content d l v' → v = v'.
Proof.
  intros (t & f & Hc & Hf & _ & <-) (t' & f' & Hc' & Hf' & _ & <-). pose proof (chosen_unique _ _ _ _ Hc Hc') as <-. congruence.
Qed.
Lemma agree_keeps d d' id : agree d d' id → keeps d d' id.
Proof. intros Ha t file Hc Hf. exists t, file. split_and!; [by apply (agree_chosen d d') | by rewrite (proj1 (Ha t)) | done]. Qed.
Lemma newest_content n asked d k l : sound n asked d → newest d k l → ∃ v, content d l v ∧ (k, v) ∈ asked.
Proof.
  intros Hd [(es & (t & Hc & ->) & Hl) _]. apply last_of_elem in Hl. pose proof Hc as [[file Hf] _].
  destruct (entries_of_file asked d _ file Hf (s_files _ _ _ Hd _ _ Hf)) as (es & tail & Efile & _ & _ & Hask & Hent & _).
  destruct (placed_value _ _ _ _ _ tail (Hent _ Hl)) as (v & Hv & Hid & Hlen & _ & Hhigh & Hsub). rewrite N.sub_0_r in Hsub. subst v.
  exists (substr file (N.to_nat (l_off l)) (N.to_nat (l_len l))). rewrite <-Efile in *. split; [| by apply Hask].
  exists t, file. split_and!; [done | done | | done]. rewrite Efile, length_app. lia.
Qed.

(** ** The running store *)

(** the answer of [Get], whenever it is asked *)
Definition value_of (s : store) (d : disk) (k : str) : option str := (Get 0 k s d).1.1.

Record holds (n : nat) (asked : list (str * str)) (s : store) (d : disk) : Prop := Holds {
  h_sound : sound n asked d;
  h_tiers : length (tiers s) = n;
  h_packs : ∀ id t size, shape s id = Some (t, size) →
    chosen d id t ∧ ∃ file, d_packs d !! (t, id) = Some file ∧ size = N.of_nat (length file);
  h_all : ∀ t id, is_Some (d_packs d !! (t, id)) → is_Some (shape s id);
  h_index : ∀ k l, index s !! k = Some l → newest d k l;
  h_active : ∃ a es, active s = Some a ∧ (∀ id, is_Some (shape s id) → (id ≤ a)%N) ∧
    shape s a = Some (0, N.of_nat (length (pack_bytes es))) ∧ d_packs d !! (0, a) = Some (pack_bytes es) ∧ Forall fits es ∧
    (∀ e, e ∈ es → e ∈ asked) ∧ (∀ t, is_Some (d_packs d !! (t, a)) → t = 0) ∧ (closed s = false → d_hints d !! (0, a) = None);
  h_hints : ∀ id t size, shape s id = Some (t, size) → active s ≠ Some id → is_Some (d_hints d !! (t, id))
}.

Lemma holds_kept n asked s s' d : holds n asked s d → kept s s' → (∀ k, index s' !! k = index s !! k) → holds n asked s' d.
Proof.
  intros [H1 H2 H3 H4 H5 H6 H7] [K1 K2 K3 K4] Hi. split.
  - done.
  - congruence.
  - intros id t size. rewrite K1. apply H3.
  - intros t id. rewrite K1. apply H4.
  - intros k l. rewrite Hi. apply H5.
  - rewrite K2, K3. destruct H6 as (a & es & Ha & Hmax & Hs & Hrest). exists a, es. rewrite K1. split; [done |]. split; [| done].
    intros id. rewrite K1. apply Hmax.
  - intros id t size. rewrite K1, K2. apply H7.
Qed.
Lemma holds_index n asked s d k l : holds n asked s d → index s !! k = Some l →
  ∃ v, value_of s d k = Some v ∧ content d l v ∧ (k, v) ∈ asked.
Proof.
  intros Hh Hl. pose proof (h_index _ _ _ _ Hh _ _ Hl) as Hn.
  destruct (newest_content _ _ _ _ _ (h_sound _ _ _ _ Hh) Hn) as (v & Hc & Hask). exists v. split_and!; [| done | done].
  destruct Hc as (t & file & Hc & Hf & _ & Hsub). unfold value_of, Get. rewrite Hl.
  destruct (h_all _ _ _ _ Hh t (l_pack l)) as [[t' size] Hs]; [by eexists |].
  destruct (h_packs _ _ _ _ Hh _ _ _ Hs) as [Hc' _]. pose proof (chosen_unique _ _ _ _ Hc Hc') as <-.
  unfold shape in Hs. destruct (packs s !! l_pack l) as [p |]; [| done]. cbn in Hs. injection Hs as Ht _.
  cbn [fst]. rewrite Ht, Hf. cbn. by rewrite Hsub.
Qed.
Lemma value_of_index n asked s d k v : holds n asked s d → value_of s d k = Some v →
  ∃ l, index s !! k = Some l ∧ content d l v ∧ (k, v) ∈ asked.
Proof.
  intros Hh Hv. destruct (index s !! k) as [l |] eqn:E; [| unfold value_of, Get in Hv; by rewrite E in Hv].
  destruct (holds_index _ _ _ _ _ _ Hh E) as (v' & Hv' & Hc & Hask). assert (v' = v) as -> by congruence. by exists l.
Qed.
Lemma value_of_none s d k : index s !! k = None → value_of s d k = None.
Proof. intros E. unfold value_of, Get. by rewrite E. Qed.
(** two states with the same index entry and the same bytes behind it *)
Lemma value_of_same n asked asked' s d s' d' k : holds n asked s d → holds n asked' s' d' → index s' !! k = index s !! k →
  (∀ l, index s !! k = Some l → keeps d d' (l_pack l)) → value_of s' d' k = value_of s d k.
Proof.
  intros Hh Hh' Hi Hk. destruct (index s !! k) as [l |] eqn:E.
  - destruct (holds_index _ _ _ _ _ _ Hh E) as (v & Hv & Hc & _). destruct (holds_index _ _ _ _ _ _ Hh' Hi) as (v' & Hv' & Hc' & _).
    rewrite Hv, Hv'. f_equal. eapply content_unique; [done |]. by eapply content_keeps; [apply Hk |].
  - by rewrite !value_of_none.
Qed.

Section Operations.
Context (walk : list (str * loc) → list (str * loc)) (by_name : list N → list N).
Context (Hwalk : ∀ es, walk es ≡ₚ es) (Hname : ∀ ids, by_name ids ≡ₚ ids).
Context (n : nat) (Hn : 0 < n).

Lemma own_entries_elem s id e : e ∈ walk (own_entries s id) ↔ index s !! e.1 = Some e.2 ∧ l_pack e.2 = id.
Proof using Hwalk.
  rewrite Hwalk. unfold own_entries. rewrite list_elem_of_filter. destruct e as [k l]. cbn [fst snd].
  rewrite elem_of_map_to_list. tauto.
Qed.
Lemma own_entries_last s id k l : index s !! k = Some l → l_pack l = id → last_of k (walk (own_entries s id)) = Some l.
Proof using Hwalk.
  intros Hk Hl. apply last_of_unique; [| by apply own_entries_elem].
  intros l' [Hk' _]%own_entries_elem. cbn in Hk'. congruence.
Qed.

(** *** reading *)

Lemma mtime_holds asked s d x t : holds n asked s d → holds n asked s (set_mtime x t d).
Proof. intros [H1 H2 H3 H4 H5 H6 H7]. split; try done. by apply mtime_sound. Qed.
Lemma Get_holds asked now k s d : holds n asked s d →
  let r := Get now k s d in
  holds n asked r.1.2 r.2 ∧ index r.1.2 = index s ∧ d_packs r.2 = d_packs d ∧ r.1.1 = value_of s d k ∧ kept s r.1.2.
Proof using.
  intros Hh r. unfold r, value_of, Get. destruct (index s !! k) as [l |]; [| done].
  destruct (packs s !! l_pack l) as [p |] eqn:Hp; [| done]. cbn [fst snd].
  match goal with |- holds _ _ ?s' _ ∧ _ => assert (kept s s') as Hkept end.
  { split; try done. intros id. unfold shape, set_packs. cbn [packs]. destruct (decide (id = l_pack l)) as [-> | Hne].
    - by rewrite lookup_insert_eq, Hp.
    - by rewrite lookup_insert_ne. }
  split_and!; [| done | by destruct (_ <? _)%Z | done | done].
  assert (holds n asked (set_packs (<[l_pack l := Pack (p_tier p) (p_size p) (p_live p) now
    (if (Z.of_N touchEvery <? Z.of_N now - Z.of_N (p_touched p))%Z then now else p_touched p)]> (packs s)) s) d) as H
    by (by eapply holds_kept).
  destruct (_ <? _)%Z; [by apply mtime_holds | done].
Qed.

(** *** writing *)

Lemma placed_snoc id es e : placed id (es ++ [e]) 0 =
  placed id es 0 ++ [(e.1, Loc id (N.of_nat (length (pack_bytes es)) + recHeader + N.of_nat (length e.1)) (N.of_nat (length e.2)))].
Proof using. by rewrite placed_app. Qed.
Lemma pack_bytes_snoc es e : pack_bytes (es ++ [e]) = pack_bytes es ++ record e.
Proof using. rewrite pack_bytes_app, pack_bytes_cons. change (pack_bytes []) with (@nil ascii). by rewrite app_nil_r. Qed.

(** what the active pack is while the store takes writes *)
Lemma active_pack asked s d a : holds n asked s d → active s = Some a → closed s = false →
  ∃ es, d_packs d !! (0, a) = Some (pack_bytes es) ∧ Forall fits es ∧ (∀ e, e ∈ es → e ∈ asked) ∧
    shape s a = Some (0, N.of_nat (length (pack_bytes es))) ∧ chosen d a 0 ∧ d_hints d !! (0, a) = None ∧
    entries_at d (0, a) = placed a es 0 ∧ (∀ id, is_Some (shape s id) → (id ≤ a)%N) ∧ (∀ t, is_Some (d_packs d !! (t, a)) → t = 0) ∧
    (N.of_nat (length (pack_bytes es)) < 2 ^ 32)%N.
Proof using.
  intros Hh Ha Hcl. destruct (h_active _ _ _ _ Hh) as (a' & es & Ha' & Hmax & Hsa & Hfa & Hfit & Hask & Honly & Hnoh).
  assert (a' = a) as -> by congruence. specialize (Hnoh Hcl). destruct (h_packs _ _ _ _ Hh _ _ _ Hsa) as [Hca _].
  pose proof (s_files _ _ _ (h_sound _ _ _ _ Hh) _ _ Hfa) as (_ & _ & _ & _ & _ & Hlen & _).
  exists es. split_and!; try done. unfold entries_at. rewrite Hfa, Hnoh. cbn [snd]. rewrite <-(app_nil_r (pack_bytes es)).
  rewrite scan_pack_records; [done | done | apply torn_nil | done].
Qed.

(** the hint of the active pack *)
Lemma seal_active asked s d a : holds n asked s d → active s = Some a → closed s = false →
  let d1 := write_hint (0, a) (hint_bytes (walk (own_entries s a))) d in
  seal walk true a s d = (d1, true) ∧ sound n asked d1 ∧ (∀ k l, index s !! k = Some l → newest d1 k l) ∧ (∀ id, keeps d d1 id) ∧ no_more d d1.
Proof using Hwalk.
  intros Hh Ha Hcl d1. destruct (active_pack _ _ _ _ Hh Ha Hcl) as (es & Hfa & Hfit & Hask & Hsa & Hca & Hnoh & Hent & Hmax & Honly & _).
  assert (∀ e, e ∈ walk (own_entries s a) → e ∈ entries_at d (0, a)) as Hsub.
  { intros [k l] [Hk Hl]%own_entries_elem. cbn [fst snd] in *. destruct (h_index _ _ _ _ Hh _ _ Hk) as [(es' & (t & Hc & ->) & Hlast) _].
    rewrite Hl in *. rewrite (chosen_unique _ _ _ _ Hc Hca) in Hlast. by apply last_of_elem in Hlast. }
  destruct (seal_sound n asked d a 0 (walk (own_entries s a)) (h_sound _ _ _ _ Hh) Hca Hnoh Hsub) as (Hd1 & Hent1 & Hnew1).
  split_and!; [| exact Hd1 | | |].
  - unfold seal. unfold shape in Hsa. destruct (packs s !! a) as [p |]; [| done]. cbn in Hsa. injection Hsa as -> _. done.
  - intros k l Hk. apply Hnew1; [by apply (h_index _ _ _ _ Hh) |]. by apply own_entries_last.
  - intros id t f Hc Hf. by exists t, f.
  - apply (no_more_one d d1 a 0); [| done | done | unfold d1; by rewrite Hent1].
    intros i Hi t. split; [done |]. intros _. cbn. by rewrite lookup_insert_ne by congruence.
Qed.

(** a new pack behind packs that all have their hints *)
Definition begun (now id : N) (s : store) : store :=
  Store (tiers s) (index s) (<[id := Pack 0 0 0 now now]> (packs s)) (Some id) (closed s).
Definition with_empty (now id : N) (d : disk) : disk := set_mtime (0, id) now (write_pack (0, id) [] d).

Lemma begun_shape now id s i : shape (begun now id s) i = if (i =? id)%N then Some (0, 0%N) else shape s i.
Proof using.
  unfold shape, begun. cbn [packs]. destruct (i =? id)%N eqn:E; [apply N.eqb_eq in E as -> | apply N.eqb_neq in E].
  - by rewrite lookup_insert_eq.
  - by rewrite lookup_insert_ne.
Qed.

Lemma begin_holds asked s d now id : sound n asked d → length (tiers s) = n →
  (∀ i t size, shape s i = Some (t, size) → (i < id)%N ∧ chosen d i t ∧ is_Some (d_hints d !! (t, i)) ∧
    ∃ file, d_packs d !! (t, i) = Some file ∧ size = N.of_nat (length file)) →
  (∀ t i, is_Some (d_packs d !! (t, i)) → is_Some (shape s i)) → (∀ k l, index s !! k = Some l → newest d k l) →
  let d' := with_empty now id d in
  d_packs d !! (0, id) = None ∧ holds n asked (begun now id s) d' ∧ (∀ i, keeps d d' i) ∧ no_more d d' ∧ ∀ k l, newest d k l → newest d' k l.
Proof using Hn.
  intros Hd Htiers Hpacks Hall Hindex.
  assert (∀ i, is_Some (shape s i) → (i < id)%N) as Hmax by (intros i [[t size] Hs]; by eapply Hpacks).
  assert (∀ t, d_packs d !! (t, id) = None ∧ d_hints d !! (t, id) = None) as Hfresh.
  { intros t. split; apply eq_None_not_Some; intros Hs; [by apply Hall, Hmax, N.lt_irrefl in Hs |].
    destruct (s_ids _ _ _ Hd _ _ Hs) as (t' & id' & Hle & Hp%Hall%Hmax). lia. }
  destruct (create_sound n asked d id Hd Hn Hfresh) as (Hd2 & Hc2 & Hnew2). set (d2 := write_pack (0, id) [] d) in *.
  assert (∀ i, i ≠ id → agree d d2 i) as Hag by (intros i Hi t; split; [cbn; by rewrite lookup_insert_ne by congruence | done]).
  intros d'. split_and!; [apply Hfresh | refine (mtime_holds asked _ d2 (0, id) now _) | | |].
  - split; [done | done | | | by intros k l Hk%Hindex; apply Hnew2 | |].
    + intros i t size. rewrite begun_shape. destruct (i =? id)%N eqn:E; [apply N.eqb_eq in E as -> | apply N.eqb_neq in E].
      * intros [= <- <-]. split; [done |]. exists []. split; [cbn; by rewrite lookup_insert_eq | done].
      * intros Hs. destruct (Hpacks _ _ _ Hs) as (_ & Hc & _ & Hf).
        split; [apply (agree_chosen d d2); [by apply Hag | done] | by rewrite (proj1 (Hag _ E t))].
    + intros t i Hs. rewrite begun_shape. destruct (i =? id)%N eqn:E; [by eexists |]. apply N.eqb_neq in E.
      rewrite (proj1 (Hag _ E t)) in Hs. by apply Hall in Hs.
    + exists id, []. split_and!; [done | | by rewrite begun_shape, N.eqb_refl | cbn; by rewrite lookup_insert_eq | by apply Forall_nil_2
        | by intros e ?%elem_of_nil | | intros _; apply (Hfresh 0)].
      * intros i. rewrite begun_shape. destruct (i =? id)%N eqn:E; [apply N.eqb_eq in E; lia |]. intros Hs%Hmax. lia.
      * intros t Hs. destruct (decide (t = 0)) as [| Ht]; [done |]. cbn in Hs. rewrite lookup_insert_ne in Hs by congruence.
        rewrite (proj1 (Hfresh t)) in Hs. by destruct Hs.
    + intros i t size. rewrite begun_shape. destruct (i =? id)%N eqn:E; [by apply N.eqb_eq in E as ->; intros |].
      intros Hs _. by destruct (Hpacks _ _ _ Hs) as (_ & _ & ? & _).
  - intros i t file Hc Hf. destruct (decide (i = id)) as [-> | Hi]; [by rewrite (proj1 (Hfresh t)) in Hf |]. exact (agree_keeps d d2 i (Hag i Hi) t file Hc Hf).
  - intros k Hk. destruct (says_one d d2 id 0 k Hag Hc2 Hk) as [? | [l Hl]]; [done |].
    unfold entries_at in Hl. change (d_hints d2) with (d_hints d) in Hl. rewrite (proj2 (Hfresh 0)) in Hl. cbn in Hl. by rewrite lookup_insert_eq in Hl.
  - exact Hnew2.
Qed.

(** sealing the active pack and starting the next *)
Lemma rotate_holds asked s d a now : holds n asked s d → active s = Some a → closed s = false →
  ∃ s' d', rotate walk true true now (a + 1) s d = (s', d', true) ∧ holds n asked s' d' ∧ index s' = index s ∧ closed s' = false ∧
    active s' = Some (a + 1)%N ∧ shape s' (a + 1) = Some (0, 0%N) ∧ d_packs d' !! (0, (a + 1)%N) = Some [] ∧ (∀ id, keeps d d' id) ∧ no_more d d'.
Proof using Hn Hwalk.
  intros Hh Ha Hcl. pose proof Hh as [Hd Htiers Hpacks Hall Hindex Hact Hhints].
  destruct (active_pack _ _ _ _ Hh Ha Hcl) as (es & _ & _ & _ & Hsa & _ & _ & _ & Hmax & _).
  destruct (seal_active asked s d a Hh Ha Hcl) as (Hseal & Hd1 & Hnew1 & _ & Hmore1).
  set (d1 := write_hint (0, a) (hint_bytes (walk (own_entries s a))) d) in *.
  destruct (begin_holds asked s d1 now (a + 1) Hd1 Htiers) as (Hnone & Hh2 & Hk2 & Hm2 & _); [| done | done |].
  { intros id t size Hs. destruct (Hpacks _ _ _ Hs) as [Hc Hf]. pose proof (Hmax id (mk_is_Some _ _ Hs)). split_and!; [lia | done | | done].
    cbn. destruct (decide ((t, id) = (0, a))) as [-> | Hne]; [rewrite lookup_insert_eq; by eexists | rewrite lookup_insert_ne by done].
    apply (Hhints _ _ _ Hs). intros E. assert (id = a) as -> by congruence. congruence. }
  exists (begun now (a + 1) s), (with_empty now (a + 1) d1). split_and!; try done.
  - unfold rotate. rewrite Ha, Hseal. cbn [negb orb]. by rewrite bool_decide_eq_false_2 by (rewrite Hnone; by intros [? ?]).
  - by rewrite begun_shape, N.eqb_refl.
  - cbn. by rewrite lookup_insert_eq.
  - by eapply no_more_trans.
Qed.

(** the active pack with one record more *)
Definition appended (a off : N) (e : str * str) (s : store) : store :=
  let s := point e.1 (Loc a (off + recHeader + N.of_nat (length e.1)) (N.of_nat (length e.2))) s in
  set_total 0 (Z.of_N (record_size e))
    (set_packs (alter (λ p, Pack (p_tier p) (p_size p + record_size e)%N (p_live p) (p_used p) (p_touched p)) a (packs s)) s).

Lemma appended_shape a off e s id : shape (appended a off e s) id =
  if (id =? a)%N then (λ x, (x.1, x.2 + record_size e)%N) <$> shape s a else shape s id.
Proof using.
  unfold appended. set (s1 := point _ _ s). pose proof (point_kept e.1 (Loc a (off + recHeader + N.of_nat (length e.1)) (N.of_nat (length e.2))) s) as [K _ _ _].
  fold s1 in K. rewrite <-!K. unfold shape, set_total, set_packs. cbn [packs]. destruct (id =? a)%N eqn:E.
  - apply N.eqb_eq in E as ->. rewrite lookup_alter_eq. by destruct (packs s1 !! a).
  - apply N.eqb_neq in E. by rewrite lookup_alter_ne.
Qed.

Lemma append_holds asked s d a file e : holds n asked s d → active s = Some a → closed s = false →
  d_packs d !! (0, a) = Some file → fits e → (N.of_nat (length file) + record_size e < 2 ^ 32)%N →
  let off := N.of_nat (length file) in
  let l := Loc a (off + recHeader + N.of_nat (length e.1)) (N.of_nat (length e.2)) in
  let s' := appended a off e s in
  let d' := write_pack (0, a) (file ++ record e) d in
  holds n (e :: asked) s' d' ∧ index s' = <[e.1 := l]> (index s) ∧ (∀ id, keeps d d' id) ∧ content d' l e.2 ∧ ∀ k, says d' k → says d k ∨ k = e.1.
Proof using Hn.
  intros Hh Ha Hcl Hfa He Hsize off l s'. pose proof Hh as [Hd Htiers Hpacks Hall Hindex _ Hhints].
  destruct (active_pack _ _ _ _ Hh Ha Hcl) as (es & Hfa' & Hfit & Hask & Hsa & Hca & Hnoh & Hent & Hmax & Honly & _).
  assert (file = pack_bytes es) as -> by congruence. clear Hfa'. rewrite <-pack_bytes_snoc. intros d'.
  assert (Forall fits (es ++ [e])) as Hfit' by (by apply Forall_app; split; [| apply Forall_cons; split; [| apply Forall_nil_2]]).
  assert (N.of_nat (length (pack_bytes (es ++ [e]))) = off + record_size e)%N as Hlen'.
  { rewrite pack_bytes_snoc, length_app, Nat2N.inj_add, record_length. done. }
  destruct (rewrite_sound n asked (e :: asked) d a 0 (es ++ [e]) [] Hd Hca Hnoh) as (Hd' & Hca' & Hent' & Hnew).
  { intros x Hx. by right. } { done. } { apply torn_nil. } { rewrite app_nil_r. lia. }
  { intros x [Hx | ->%list_elem_of_singleton]%elem_of_app; [right; by apply Hask | by left]. }
  rewrite app_nil_r in Hd', Hca', Hent', Hnew. fold d' in Hd', Hca', Hent', Hnew.
  rewrite placed_snoc in Hent', Hnew. fold off l in Hent', Hnew. rewrite Hent in Hnew.
  assert (∀ id, id ≠ a → agree d d' id) as Hag by (intros id Hid t; split; [cbn; by rewrite lookup_insert_ne by congruence | done]).
  assert (∀ k, index s' !! k = <[e.1 := l]> (index s) !! k) as Hidx by done.
  assert (∀ id, shape s' id = if (id =? a)%N then Some (0, (off + record_size e)%N) else shape s id) as Hshape.
  { intros id. unfold s'. rewrite appended_shape, Hsa. done. }
  assert (newest d' e.1 l) as Hnl.
  { split.
    - exists (placed a es 0 ++ [(e.1, l)]). split; [exists 0; split; [exact Hca' | exact (eq_sym Hent')] |]. by rewrite last_of_snoc, bool_decide_eq_true_2.
    - intros id es' (t & Hc & ->) Hlt. cbn [l_pack l] in Hlt. assert (id ≠ a) as Hid by lia.
      apply (agree_chosen d d') in Hc; [| by apply Hag]. destruct Hc as [Hs _]. apply Hall, Hmax in Hs. lia. }
  assert (d_packs d' !! (0, a) = Some (pack_bytes (es ++ [e]))) as Hfa' by (cbn; by rewrite lookup_insert_eq).
  assert (∀ id, keeps d d' id) as Hkeeps.
  { intros id t f Hc Hf. destruct (decide (id = a)) as [-> | Hid]; [| by apply (agree_keeps d d' id (Hag id Hid) t f Hc Hf)].
    assert (t = 0) as -> by (by eapply (chosen_unique d a)). exists 0, (pack_bytes (es ++ [e])). split_and!; [done | done |].
    assert (f = pack_bytes es) as -> by congruence. rewrite pack_bytes_snoc. by eexists. }
  split_and!; [| done | done | |].
  - split.
    + done.
    + unfold s', appended, set_total, set_packs. cbn [tiers]. by rewrite length_alter.
    + intros id t size. rewrite Hshape. destruct (id =? a)%N eqn:E; [apply N.eqb_eq in E as -> |].
      * intros [= <- <-]. split; [done |]. by eexists.
      * apply N.eqb_neq in E. intros Hs. destruct (Hpacks _ _ _ Hs) as [Hc Hf].
        split; [apply (agree_chosen d d'); [by apply Hag | done] | by rewrite (proj1 (Hag _ E t))].
    + intros t id Hs. rewrite Hshape. destruct (id =? a)%N eqn:E; [by eexists |]. apply N.eqb_neq in E.
      rewrite (proj1 (Hag _ E t)) in Hs. by apply Hall in Hs.
    + intros k l'. rewrite Hidx. destruct (decide (k = e.1)) as [-> | Hk]; [rewrite lookup_insert_eq; by intros [= <-] |].
      rewrite lookup_insert_ne by done. intros Hi%Hindex. apply Hnew; [done |].
      by rewrite last_of_snoc, bool_decide_eq_false_2 by (cbn; congruence).
    + exists a, (es ++ [e]). split_and!; [done | | | done | done | | | done].
      * intros id. rewrite Hshape. destruct (id =? a)%N eqn:E; [apply N.eqb_eq in E; lia | apply Hmax].
      * by rewrite Hshape, N.eqb_refl, Hlen'.
      * intros x [Hx | ->%list_elem_of_singleton]%elem_of_app; [right; by apply Hask | by left].
      * intros t Hs. destruct (decide (t = 0)) as [| Ht]; [done |]. cbn in Hs. rewrite lookup_insert_ne in Hs by congruence. by apply Honly.
    + intros id t size. rewrite Hshape. destruct (id =? a)%N eqn:E; [apply N.eqb_eq in E as -> |]; [intros _ Hne; by destruct Hne | apply Hhints].
  - exists 0, (pack_bytes (es ++ [e])). split_and!; [done | done | cbn [l l_off l_len]; rewrite Hlen'; unfold off, record_size; lia |].
    cbn [l l_off l_len]. unfold substr. rewrite Nat2N.id, pack_bytes_snoc. unfold record.
    rewrite app_assoc. replace (N.to_nat _) with (length (pack_bytes es ++ header e.1 (N.of_nat (length e.2)))).
    + by rewrite drop_app_length, firstn_all.
    + rewrite length_app. pose proof (header_length e.1 (N.of_nat (length e.2))). unfold off. lia.
  - intros k Hk. destruct (says_one d d' a 0 k Hag Hca' Hk) as [? | [l' Hl']]; [by left |]. rewrite Hent', last_of_snoc in Hl'.
    case_bool_decide as Ek; [right; by rewrite <-Ek | left]. exists a, (placed a es 0). split; [exists 0; by rewrite Hent | by eexists].
Qed.

(** a record of which only a part arrived, or all of it but not the change of the index *)
Lemma torn_sound asked s d a file e m : holds n asked s d → active s = Some a → closed s = false →
  d_packs d !! (0, a) = Some file → fits e → (N.of_nat (length file) + record_size e < 2 ^ 32)%N →
  let d' := write_pack (0, a) (file ++ take m (record e)) d in
  sound n (e :: asked) d' ∧ (∀ k l, k ≠ e.1 → newest d k l → newest d' k l) ∧ (∀ id, keeps d d' id) ∧
  ((∀ l, newest d e.1 l → newest d' e.1 l) ∨ ∃ l, newest d' e.1 l ∧ content d' l e.2).
Proof using Hn.
  intros Hh Ha Hcl Hfa He Hsize. pose proof (h_sound _ _ _ _ Hh) as Hd.
  destruct (active_pack _ _ _ _ Hh Ha Hcl) as (es & Hfa' & Hfit & Hask & Hsa & Hca & Hnoh & Hent & Hmax & Honly & _).
  assert (file = pack_bytes es) as -> by congruence. clear Hfa'. intros d'.
  assert (∀ id, keeps d d' id) as Hkeeps.
  { intros id t f Hc Hf. destruct (decide (id = a)) as [-> | Hid].
    - assert (t = 0) as -> by (by eapply (chosen_unique d a)). eexists 0, _. split_and!; [| cbn; by rewrite lookup_insert_eq |].
      + split; [cbn; rewrite lookup_insert_eq; by eexists | intros t' Ht; lia].
      + assert (f = pack_bytes es) as -> by congruence. by eexists.
    - refine (agree_keeps d d' id _ t f Hc Hf). intros t'. split; [cbn; by rewrite lookup_insert_ne by congruence | done]. }
  pose proof (record_length e) as Hre.
  destruct (decide (m < length (record e))) as [Hm | Hm].
  - destruct (rewrite_sound n asked (e :: asked) d a 0 es (take m (record e)) Hd Hca Hnoh) as (Hd' & _ & _ & Hnew);
      [by right | done | by apply torn_prefix | rewrite length_app, length_take; lia | intros x Hx; right; by apply Hask |].
    fold d' in Hd', Hnew. assert (∀ k l, newest d k l → newest d' k l) as Hall by (intros k l Hk; apply Hnew; [done | by rewrite Hent]).
    split_and!; [exact Hd' | auto | exact Hkeeps | left; auto].
  - assert (d' = write_pack (0, a) (pack_bytes (es ++ [e]) ++ []) d) as E by (unfold d'; by rewrite app_nil_r, pack_bytes_snoc, (take_ge (record e)) by lia).
    destruct (rewrite_sound n asked (e :: asked) d a 0 (es ++ [e]) [] Hd Hca Hnoh) as (Hd' & _ & _ & Hnew).
    { intros x Hx. by right. } { by apply Forall_app; split; [| apply Forall_cons; split; [| apply Forall_nil_2]]. } { apply torn_nil. }
    { rewrite app_nil_r, pack_bytes_snoc, length_app. lia. }
    { intros x [Hx | ->%list_elem_of_singleton]%elem_of_app; [right; by apply Hask | by left]. }
    rewrite <-E in Hd', Hnew. split_and!; [exact Hd' | | exact Hkeeps |].
    + intros k l Hne Hk. apply Hnew; [done |].
      rewrite placed_snoc, last_of_snoc, bool_decide_eq_false_2 by (cbn; congruence). by rewrite Hent.
    + right. destruct (append_holds asked s d a (pack_bytes es) e Hh Ha Hcl Hfa He Hsize) as (Hh2 & Hidx & _ & Hc2 & _).
      rewrite <-pack_bytes_snoc in Hh2, Hc2. rewrite app_nil_r in E. rewrite <-E in Hh2, Hc2. eexists. split; [| exact Hc2].
      apply (h_index _ _ _ _ Hh2). rewrite Hidx. by rewrite lookup_insert_eq.
Qed.
End Operations.
