(* ===== verification/PackHistory.v ===== *)
(** * The pack store through its life (src/pkgs/ji/jigd/src/store.go)

    Every request and every step of the demoter keeps the invariant of PackRecovery; opening restores it from the
    files of a store that stopped at any moment. So a value is read as it was put, until its pack is evicted. *)

From S2P Require Import Prelude PackFormat PackStore PackRecovery.

Section Life.
Context (walk : list (str * loc) → list (str * loc)) (by_name : list N → list N).
Context (Hwalk : ∀ es, walk es ≡ₚ es) (Hname : ∀ ids, by_name ids ≡ₚ ids).
Context (n : nat) (Hn : 0 < n).

(** ** Put *)

(** the faults the store survives: a pack that was sealed is followed by the next one, and what a failed write
    left is cut off *)
Definition mild (f : put_faults) : Prop :=
  (put_sealed f = true → put_created f = true) ∧ (written f ≠ None → put_truncated f = true).

(** a request that gets as far as the write *)
Definition accepted (f : put_faults) (key : str) (size : Z) (body : str) (s : store) : bool :=
  negb (bad_put key size) && (size <=? Z.of_nat (length body))%Z && ((size <? spoolMin)%Z || spooled f) && negb (closed s).
Definition put_value (size : Z) (body : str) : str := take (Z.to_nat size) body.

Lemma write_at_end file bytes : write_at file (length file) bytes = file ++ bytes.
Proof using. clear Hn. unfold write_at. rewrite firstn_all, drop_ge by lia. by rewrite app_nil_r. Qed.

Lemma bad_put_bounds key size : bad_put key size = false → (length key ≤ 4096)%nat ∧ (0 ≤ size ≤ 2 ^ 31)%Z.
Proof using.
  clear Hn. unfold bad_put. intros H. repeat (apply orb_false_iff in H as [H ?]). split.
  - by apply Nat.ltb_ge.
  - change (2 ^ 31)%Z with kMaxValue. lia.
Qed.

Lemma holds_asked asked asked' s d : (∀ e, e ∈ asked → e ∈ asked') → holds n asked s d → holds n asked' s d.
Proof using.
  clear Hn. intros Hask [[S1 S2 S3 S4 S5 S6 S7] H2 H3 H4 H5 H6 H7]. split; try done.
  - split; try done. intros x file Hf. destruct (S1 _ _ Hf) as (es & tail & E1 & E2 & E3 & E4 & E5 & E6).
    exists es, tail. split_and!; auto.
  - destruct H6 as (a & es & E1 & E2 & E3 & E4 & E5 & E6 & E7). exists a, es. split_and!; auto; naive_solver.
Qed.

(** the pack a record of a size goes to *)
Definition make_room (f : put_faults) (now : N) (recLen : N) (a : N) (p : pack) (s : store) (d : disk) : store * disk * bool :=
  if (packLimit <? p_size p + recLen)%N && (0 <? p_size p)%N
  then rotate walk (put_sealed f) (put_created f) now (a + 1)%N s d else (s, d, true).

Lemma make_room_holds asked f now recLen a p s d : holds n asked s d → active s = Some a → packs s !! a = Some p → closed s = false →
  (recLen ≤ 2 ^ 31 + 2 ^ 13)%N →
  (∃ d', make_room f now recLen a p s d = (s, d', false) ∧ sound n asked d' ∧ (∀ k l, index s !! k = Some l → newest d' k l) ∧
    (∀ id, keeps d d' id) ∧ (mild f → d' = d)) ∨
  ∃ s' d' a' file, make_room f now recLen a p s d = (s', d', true) ∧ holds n asked s' d' ∧ index s' = index s ∧ closed s' = false ∧
    active s' = Some a' ∧ shape s' a' = Some (0, N.of_nat (length file)) ∧ d_packs d' !! (0, a') = Some file ∧
    (N.of_nat (length file) + recLen < 2 ^ 32)%N ∧ (∀ id, keeps d d' id) ∧ no_more d d'.
Proof using Hn Hwalk.
  intros Hh Ha Hp Hcl Hrec. destruct (active_pack _ _ _ _ _ Hh Ha Hcl) as (es & Hfa & _ & _ & Hsa & _ & _ & _ & _ & _ & Hlen).
  assert (p_size p = N.of_nat (length (pack_bytes es))) as Hsz by (unfold shape in Hsa; rewrite Hp in Hsa; by injection Hsa).
  assert (∀ id, keeps d d id) as Hrefl by (intros id t file Hc Hf; by exists t, file).
  unfold make_room. destruct (_ && _) eqn:Hfull.
  - destruct (put_sealed f) eqn:Hseal; [destruct (put_created f) eqn:Hcr |].
    + right. destruct (rotate_holds walk Hwalk n Hn asked s d a now Hh Ha Hcl) as (s' & d' & -> & H1 & H2 & H3 & H4 & H5 & H6 & H7 & H8).
      exists s', d', (a + 1)%N, []. split_and!; try done. cbn [length]. lia.
    + left. destruct (seal_active walk Hwalk n asked s d a Hh Ha Hcl) as (Hs & Hd1 & Hnew & Hk & _). eexists. split.
      { unfold rotate. rewrite Ha, Hs. reflexivity. }
      split_and!; [done.. |]. intros [Hm _]. by rewrite Hm in Hcr.
    + left. exists d. split_and!; [| apply Hh | apply Hh | done | done]. unfold rotate, seal. by rewrite Ha, Hp.
  - right. exists s, d, a, (pack_bytes es). split_and!; try done; [| by intros k]. rewrite <-Hsz. apply andb_false_iff in Hfull as [H | H].
    + apply N.ltb_ge in H. change packLimit with (2 ^ 28)%N in H. lia.
    + apply N.ltb_ge in H. lia.
Qed.

(** what a Put comes to, with the pack it goes to *)
Lemma Put_room f now key size body s d a p : accepted f key size body s = true → active s = Some a → packs s !! a = Some p →
  Put walk f now key size body s d =
    let recLen := (recHeader + N.of_nat (length key) + Z.to_N size)%N in
    let value := put_value size body in
    let '(s, d, ok) := make_room f now recLen a p s d in
    if negb ok then (s, d, false)
    else
      let a := default a (active s) in
      let off := default 0%N (p_size <$> packs s !! a) in
      let file := default [] (d_packs d !! (0, a)) in
      let bytes := header key (Z.to_N size) ++ value in
      match written f with
      | Some k =>
          let file := write_at file (N.to_nat off) (take k bytes) in
          (s, write_pack (0, a) (if put_truncated f then take (N.to_nat off) file else file) d, false)
      | None =>
          let l := Loc a (add32 (add32 (u32 off) recHeader) (u32 (N.of_nat (length key)))) (u32 (Z.to_N size)) in
          let s := point key l s in
          let s := set_packs (alter (λ p, Pack (p_tier p) (p_size p + recLen)%N (p_live p) (p_used p) (p_touched p)) a (packs s)) s in
          (set_total 0 (Z.of_N recLen) s, write_pack (0, a) (write_at file (N.to_nat off) bytes) d, true)
      end.
Proof using.
  unfold accepted, Put. intros H Ha Hp. apply andb_true_iff in H as [H Hcl]. apply andb_true_iff in H as [H Hsp].
  apply andb_true_iff in H as [Hbad Hsz]. rewrite (proj1 (negb_true_iff _) Hbad), (proj1 (negb_true_iff _) Hcl), Ha, Hp.
  assert ((Z.of_nat (length body) <? size)%Z = false) as -> by (apply Z.ltb_ge, Z.leb_le, Hsz).
  assert (((spoolMin <=? size)%Z && negb (spooled f)) = false) as ->; [| reflexivity].
  apply orb_true_iff in Hsp as [Hs | ->]; [| apply andb_false_r]. apply Z.ltb_lt in Hs. by rewrite (proj2 (Z.leb_gt _ _) Hs).
Qed.
Lemma Put_rejected f now key size body s d : accepted f key size body s = false → Put walk f now key size body s d = (s, d, false).
Proof using.
  unfold accepted, Put. intros H. destruct (bad_put key size); [done |]. cbn [negb andb] in H.
  destruct (Z.of_nat (length body) <? size)%Z eqn:Hs; [done |]. rewrite (proj2 (Z.leb_le _ _)) in H by (by apply Z.ltb_ge).
  destruct (size <? spoolMin)%Z eqn:Hsp; cbn [andb orb] in H.
  - apply Z.ltb_lt in Hsp. rewrite (proj2 (Z.leb_gt _ _)) by done. cbn. by destruct (closed s).
  - destruct (spooled f); cbn [andb orb] in H; [| by rewrite (proj2 (Z.leb_le _ _)) by (by apply Z.ltb_ge)].
    rewrite andb_false_r. cbn. by destruct (closed s).
Qed.

Lemma write_pack_id x file d : d_packs d !! x = Some file → write_pack x file d = d.
Proof using. destruct d as [ps h m]. cbn. intros H. unfold write_pack. cbn. by rewrite insert_id. Qed.

(** the numbers of an accepted Put *)
Lemma accepted_fits f key size body s : accepted f key size body s = true →
  let e := (key, put_value size body) in
  fits e ∧ N.of_nat (length (put_value size body)) = Z.to_N size ∧
  record_size e = (recHeader + N.of_nat (length key) + Z.to_N size)%N ∧ (record_size e ≤ 2 ^ 31 + 2 ^ 13)%N ∧ closed s = false ∧
  header key (Z.to_N size) ++ put_value size body = record e.
Proof using.
  clear Hn. unfold accepted. intros H. apply andb_true_iff in H as [H Hcl%negb_true_iff]. apply andb_true_iff in H as [H _].
  apply andb_true_iff in H as [Hbad%negb_true_iff Hsz%Z.leb_le]. destruct (bad_put_bounds _ _ Hbad) as [Hk Hs].
  assert (N.of_nat (length (put_value size body)) = Z.to_N size) as Hlen by (unfold put_value; rewrite length_take; lia).
  cbn [fst snd]. unfold fits, record_size, record. cbn [fst snd]. rewrite Hlen. unfold recHeader.
  split_and!; try done; lia.
Qed.

Lemma content_value asked s d k l v : holds n asked s d → index s !! k = Some l → content d l v → value_of s d k = Some v.
Proof using.
  intros Hh Hl Hc. destruct (holds_index _ _ _ _ _ _ Hh Hl) as (v' & -> & Hc' & _). f_equal. by eapply content_unique.
Qed.

Lemma Put_holds asked f now key size body s d : holds n asked s d → mild f →
  let r := Put walk f now key size body s d in
  holds n ((key, put_value size body) :: asked) r.1.1 r.1.2 ∧
  (∀ k, value_of r.1.1 r.1.2 k = if r.2 && (k == key) then Some (put_value size body) else value_of s d k) ∧
  (∀ k, says r.1.2 k → says d k ∨ r.2 = true ∧ k = key) ∧ (bad_put key size = true → r = (s, d, false)).
Proof using Hn Hwalk.
  intros Hh Hm r. assert (∀ s' d', holds n asked s' d' → holds n ((key, put_value size body) :: asked) s' d') as Hmore.
  { intros s' d'. apply holds_asked. intros e He. by right. }
  destruct (accepted f key size body s) eqn:Hacc; [| unfold r; rewrite Put_rejected by done; split_and!; [by apply Hmore | done | by intros k; left | done]].

  destruct (accepted_fits _ _ _ _ _ Hacc) as (Hfit & Hval & Hrs & Hmax & Hcl & Hrec). set (e := (key, put_value size body)) in *.
  destruct (h_active _ _ _ _ Hh) as (a & es & Ha & _ & Hsa & _). unfold shape in Hsa.
  destruct (packs s !! a) as [p |] eqn:Hp; [| done]. clear Hsa es.
  unfold r. rewrite (Put_room f now key size body s d a p Hacc Ha Hp). cbv zeta. rewrite <-Hrs.
  destruct (make_room_holds asked f now (record_size e) a p s d Hh Ha Hp Hcl Hmax)
    as [(d0 & -> & _ & _ & _ & Hd0) | (s1 & d1 & a1 & file & -> & Hh1 & Hi1 & Hcl1 & Ha1 & Hsa1 & Hfa1 & Hroom & Hkeep & Hsays)]; [rewrite Hd0 by done; split_and!; [by apply Hmore | done | by intros k; left | by unfold accepted in Hacc; intros Hb; rewrite Hb in Hacc] |].
  cbn [negb]. rewrite Ha1. cbn [default]. unfold id. rewrite Hfa1. cbn [default]. unfold id.
  assert (p_size <$> packs s1 !! a1 = Some (N.of_nat (length file))) as Hsz.
  { unfold shape in Hsa1. destruct (packs s1 !! a1); [| done]. cbn in *. by injection Hsa1 as _ ->. }
  rewrite Hsz. cbn [default]. unfold id. rewrite Nat2N.id, Hrec.
  assert (∀ k, value_of s1 d1 k = value_of s d k) as Hval1.
  { intros k. eapply value_of_same; [exact Hh | exact Hh1 | by rewrite Hi1 | intros l _; apply Hkeep]. }
  destruct (written f) as [m |] eqn:Hw.
  - rewrite (proj2 Hm) by (by rewrite Hw). cbn [fst snd andb]. rewrite write_at_end, take_app_length, (write_pack_id _ _ _ Hfa1).
    split_and!; [by apply Hmore | done | intros k Hk; left; by apply Hsays | by unfold accepted in Hacc; intros Hb; rewrite Hb in Hacc].
  - cbn [fst snd andb]. rewrite write_at_end. pose proof Hroom as Hoff. unfold e, record_size, recHeader in Hoff. cbn [fst snd] in Hoff. rewrite Hval in Hoff.
    rewrite (u32_small (N.of_nat (length file))) by lia. rewrite (add32_small (N.of_nat (length file))) by (unfold recHeader; lia).
    rewrite (u32_small (N.of_nat (length key))) by lia. rewrite add32_small by (unfold recHeader; lia). rewrite (u32_small (Z.to_N size)) by lia.
    destruct (append_holds n Hn asked s1 d1 a1 file e Hh1 Ha1 Hcl1 Hfa1 Hfit Hroom) as (Hh2 & Hidx & Hk2 & Hc2 & Hs2).
    rewrite <-Hval. match goal with |- holds _ _ ?x _ ∧ _ => change x with (appended a1 (N.of_nat (length file)) e s1) end.
    split_and!; [exact Hh2 | | | by unfold accepted in Hacc; intros Hb; rewrite Hb in Hacc].
    2:{ intros k [Hk | ->]%Hs2; [left; by apply Hsays | by right]. }
    intros k. rewrite <-Hval1. case_bool_decide as Hkey.
    + subst k. eapply content_value; [exact Hh2 | rewrite Hidx; by rewrite lookup_insert_eq | exact Hc2].
    + eapply value_of_same; [exact Hh1 | exact Hh2 | rewrite Hidx; by rewrite lookup_insert_ne | intros l _; apply Hk2].
Qed.

(** a Put that is cut short anywhere *)
Lemma sound_asked asked asked' d : (∀ e, e ∈ asked → e ∈ asked') → sound n asked d → sound n asked' d.
Proof using.
  clear Hn. intros Hask [S1 S2 S3 S4 S5 S6 S7]. split; try done. intros x file Hf.
  destruct (S1 _ _ Hf) as (es & tail & E1 & E2 & E3 & E4 & E5 & E6). exists es, tail. split_and!; auto.
Qed.
Lemma Put_stopped asked f now key size body s d : holds n asked s d →
  let d' := (Put walk f now key size body s d).1.2 in
  sound n ((key, put_value size body) :: asked) d' ∧ (∀ k l, k ≠ key → index s !! k = Some l → newest d' k l) ∧ (∀ id, keeps d d' id) ∧
  ((∀ l, index s !! key = Some l → newest d' key l) ∨ ∃ l, newest d' key l ∧ content d' l (put_value size body)).
Proof using Hn Hwalk.
  intros Hh d'. set (e := (key, put_value size body)). assert (∀ d1, sound n asked d1 → sound n (e :: asked) d1) as Hmore.
  { intros d1. apply sound_asked. intros x Hx. by right. }
  assert (sound n (e :: asked) d ∧ (∀ k l, k ≠ key → index s !! k = Some l → newest d k l) ∧ (∀ id, keeps d d id) ∧
    ((∀ l, index s !! key = Some l → newest d key l) ∨ ∃ l, newest d key l ∧ content d l (put_value size body))) as Hsame.
  { split_and!; [apply Hmore, Hh | intros k l _; apply Hh | intros id t file Hc Hf; by exists t, file | left; apply Hh]. }
  destruct (accepted f key size body s) eqn:Hacc; [| unfold d'; by rewrite Put_rejected].
  destruct (accepted_fits _ _ _ _ _ Hacc) as (Hfit & Hval & Hrs & Hmax & Hcl & Hrec). fold e in Hfit, Hrs, Hmax, Hrec.
  destruct (h_active _ _ _ _ Hh) as (a & es & Ha & _ & Hsa & _). unfold shape in Hsa.
  destruct (packs s !! a) as [p |] eqn:Hp; [| done]. clear Hsa es.
  unfold d'. rewrite (Put_room f now key size body s d a p Hacc Ha Hp). cbv zeta. rewrite <-Hrs.
  destruct (make_room_holds asked f now (record_size e) a p s d Hh Ha Hp Hcl Hmax)
    as [(d0 & -> & Hd0 & Hn0 & Hk0 & _) | (s1 & d1 & a1 & file & -> & Hh1 & Hi1 & Hcl1 & Ha1 & Hsa1 & Hfa1 & Hroom & Hkeep & _)].
  { cbn [negb fst snd]. split_and!; [by apply Hmore | by intros k l _; apply Hn0 | exact Hk0 | left; apply Hn0]. }
  cbn [negb]. rewrite Ha1. cbn [default]. unfold id. rewrite Hfa1. cbn [default]. unfold id.
  assert (p_size <$> packs s1 !! a1 = Some (N.of_nat (length file))) as Hsz.
  { unfold shape in Hsa1. destruct (packs s1 !! a1); [| done]. cbn in *. by injection Hsa1 as _ ->. }
  rewrite Hsz. cbn [default]. unfold id. rewrite Nat2N.id, Hrec.
  assert (∀ m, let d2 := write_pack (0, a1) (file ++ take m (record e)) d1 in
    sound n (e :: asked) d2 ∧ (∀ k l, k ≠ key → index s !! k = Some l → newest d2 k l) ∧ (∀ id, keeps d d2 id) ∧
    ((∀ l, index s !! key = Some l → newest d2 key l) ∨ ∃ l, newest d2 key l ∧ content d2 l (put_value size body))) as Htorn.
  { intros m d2. destruct (torn_sound n Hn asked s1 d1 a1 file e m Hh1 Ha1 Hcl1 Hfa1 Hfit Hroom) as (Hd2 & Hn2 & Hk2 & Hown). fold d2 in Hd2, Hn2, Hk2, Hown.
    split_and!; [exact Hd2 | | |].
    - intros k l Hk Hl. apply Hn2; [done |]. apply (h_index _ _ _ _ Hh1). by rewrite Hi1.
    - intros id t f0 Hc Hf. destruct (Hkeep id t f0 Hc Hf) as (t1 & f1 & Hc1 & Hf1 & Hpre).
      destruct (Hk2 id t1 f1 Hc1 Hf1) as (t2 & f2 & Hc2 & Hf2 & Hpre2). exists t2, f2. split_and!; [done | done | by trans f1].
    - destruct Hown as [Hold | Hnew]; [left | by right]. intros l Hl. apply Hold. apply (h_index _ _ _ _ Hh1). by rewrite Hi1. }
  destruct (written f) as [m |]; cbn [fst snd]; rewrite write_at_end.
  - destruct (put_truncated f); [| apply Htorn]. rewrite take_app_length. specialize (Htorn 0). cbn [take] in Htorn. by rewrite app_nil_r in Htorn.
  - specialize (Htorn (length (record e))). by rewrite firstn_all in Htorn.
Qed.

(** ** The demoter *)

Lemma first_of_elem x out : first_of x out ∈ x :: out.
Proof using.
  unfold first_of. revert x. induction out as [| y out IH]; intros x; cbn [foldl]; [by left |].
  destruct (before y x); [right; apply IH |]. destruct (proj1 (elem_of_cons _ _ _) (IH x)) as [E | E]; [rewrite E; by left | by right; right].
Qed.
Lemma victim_spec s id : victim s = Some id → is_Some (shape s id) ∧ active s ≠ Some id.
Proof using.
  unfold victim. generalize 0%nat. induction (tiers s) as [| x ts IH]; intros t; cbn [victim_from]; [done |].
  destruct (_ || _); [apply IH |]. destruct (candidates s t) as [| y out] eqn:E; [apply IH |]. intros [= <-].
  pose proof (first_of_elem y out) as Hin. rewrite <-E in Hin. unfold candidates in Hin.
  destruct (first_of y out) as [i p]. apply list_elem_of_filter in Hin as [[_ Hne] Hp%elem_of_map_to_list]. cbn [fst].
  split; [| done]. unfold shape. rewrite Hp. by eexists.
Qed.

(** what the removal of a pack leaves of the others *)
Lemma remove_agree d t id i : i ≠ id → agree d (remove_hint (t, id) (remove_pack (t, id) d)) i.
Proof using. intros Hi t'. cbn. by rewrite !lookup_delete_ne by congruence. Qed.

Lemma h_active_elsewhere asked s d id : holds n asked s d → is_Some (shape s id) → active s ≠ Some id →
  ∃ a, active s = Some a ∧ a ≠ id ∧ (id ≤ a)%N ∧ is_Some (d_packs d !! (0, a)).
Proof using.
  clear Hn. intros Hh Hs Hne. destruct (h_active _ _ _ _ Hh) as (a & es & Ha & Hmax & _ & Hfa & _). exists a.
  split_and!; [done | congruence | by apply Hmax | by eexists].
Qed.

Definition evicted (id : N) (t : nat) (size : N) (s : store) : store :=
  set_total t (- Z.of_N size) (Store (tiers s) (filter (λ e, l_pack e.2 ≠ id) (index s)) (delete id (packs s)) (active s) (closed s)).

Lemma evict_sound asked s d id t size : holds n asked s d → shape s id = Some (t, size) → active s ≠ Some id → S t = n →
  sound n asked (remove_pack (t, id) d) ∧ (∀ t', d_packs (remove_pack (t, id) d) !! (t', id) = None) ∧
  ∀ k l, l_pack l ≠ id → newest d k l → newest (remove_pack (t, id) d) k l.
Proof using Hn.
  intros Hh Hs Hne Hlast. destruct (h_packs _ _ _ _ Hh _ _ _ Hs) as [Hc _]. pose proof (h_sound _ _ _ _ Hh) as Hd.
  assert (∀ t', d_packs (remove_pack (t, id) d) !! (t', id) = None) as Hgone.
  { intros t'. destruct (decide (t' = t)) as [-> | Ht]; [cbn; by rewrite lookup_delete_eq |]. cbn. rewrite lookup_delete_ne by congruence.
    destruct (decide (t' < t)) as [Hlt | Hge]; [by apply Hc |]. apply eq_None_not_Some. intros Hsome.
    apply (s_tiers _ _ _ Hd) in Hsome. lia. }
  destruct (h_active_elsewhere _ _ _ _ Hh (mk_is_Some _ _ Hs) Hne) as (a & _ & Ha & Hle & Hfa).
  assert (∀ i, i ≠ id → agree d (remove_pack (t, id) d) i) as Hag by (intros i Hi t'; cbn; by rewrite !lookup_delete_ne by congruence).
  split_and!; [apply remove_pack_sound; [done | | exists 0, a; split_and!; [congruence | done | done]] | exact Hgone |].
  - intros t1 [Hsome _]. rewrite Hgone in Hsome. by destruct Hsome.
  - intros k l Hl. apply newest_seen.
    + intros i es Hse. destruct (decide (i = id)) as [-> | Hi].
      * destruct Hse as (t1 & [Hsome _] & _). rewrite Hgone in Hsome. by destruct Hsome.
      * apply (agree_seen d (remove_pack (t, id) d)); [by apply Hag | done].
    + intros es Hse. apply (agree_seen d (remove_pack (t, id) d)); [by apply Hag | done].
Qed.
Lemma evict_holds asked s d id t size : holds n asked s d → shape s id = Some (t, size) → active s ≠ Some id → S t = n →
  let d' := remove_hint (t, id) (remove_pack (t, id) d) in
  holds n asked (evicted id t size s) d' ∧ ∀ i, i ≠ id → keeps d d' i.
Proof using Hn.
  intros Hh Hs Hne Hlast d'. destruct (evict_sound _ _ _ _ _ _ Hh Hs Hne Hlast) as (Hd1 & Hgone & Hn1).
  destruct (remove_hint_sound n asked _ (t, id) Hd1 (Hgone t)) as [Hd2 Hn2]. fold d' in Hd2, Hn2.
  assert (∀ i, shape (evicted id t size s) i = if (i =? id)%N then None else shape s i) as Hshape.
  { intros i. unfold shape, evicted, set_total. cbn [packs]. destruct (i =? id)%N eqn:E; [apply N.eqb_eq in E as -> | apply N.eqb_neq in E].
    - by rewrite lookup_delete_eq.
    - by rewrite lookup_delete_ne. }
  assert (∀ i, i ≠ id → agree d d' i) as Hag by (intros i Hi; by apply remove_agree).
  split; [| intros i Hi; by apply agree_keeps, Hag].
  destruct (h_active_elsewhere _ _ _ _ Hh (mk_is_Some _ _ Hs) Hne) as (a & Ha & Hai & Hle & Hfa).
  split.
  - exact Hd2.
  - unfold evicted, set_total. cbn [tiers]. rewrite length_alter. apply Hh.
  - intros i t1 sz. rewrite Hshape. destruct (i =? id)%N eqn:E; [done |]. apply N.eqb_neq in E. intros Hs1.
    destruct (h_packs _ _ _ _ Hh _ _ _ Hs1) as [Hc1 Hf1].
    split; [apply (agree_chosen d d'); [by apply Hag | done] | by rewrite (proj1 (Hag i E t1))].
  - intros t1 i Hsome. rewrite Hshape. destruct (i =? id)%N eqn:E.
    + apply N.eqb_eq in E as ->. change (d_packs d') with (d_packs (remove_pack (t, id) d)) in Hsome. rewrite Hgone in Hsome. by destruct Hsome.
    + apply N.eqb_neq in E. rewrite (proj1 (Hag i E t1)) in Hsome. by apply (h_all _ _ _ _ Hh) in Hsome.
  - intros k l Hl. cbn in Hl. apply map_lookup_filter_Some in Hl as [Hl Hp]. cbn in Hp. apply Hn2, Hn1; [done | by apply (h_index _ _ _ _ Hh)].
  - destruct (h_active _ _ _ _ Hh) as (a' & es & Ha' & Hmax & Hsa & Hf & Hfit & Hask & Honly & Hnoh). assert (a' = a) as -> by congruence.
    exists a, es. split_and!; [done | | | by rewrite (proj1 (Hag a Hai 0)) | done | done | |].
    + intros i. rewrite Hshape. destruct (i =? id)%N; [by intros [] | apply Hmax].
    + rewrite Hshape. by rewrite (proj2 (N.eqb_neq _ _) Hai).
    + intros t1. rewrite (proj1 (Hag a Hai t1)). apply Honly.
    + intros Hcl. rewrite (proj2 (Hag a Hai 0)) by done. by apply Hnoh.
  - intros i t1 sz. rewrite Hshape. destruct (i =? id)%N eqn:E; [done |]. apply N.eqb_neq in E. intros Hs1 Hi1.
    destruct (h_packs _ _ _ _ Hh _ _ _ Hs1) as [[Hp1 _] _]. rewrite (proj2 (Hag i E t1)) by done.
    by apply (h_hints _ _ _ _ Hh _ _ _ Hs1).
Qed.

(** the copy in the slower tier takes over *)
Lemma switch_sound asked s d id t size : holds n asked s d → shape s id = Some (t, size) → active s ≠ Some id →
  is_Some (d_packs d !! (S t, id)) → is_Some (d_hints d !! (S t, id)) →
  let d1 := remove_pack (t, id) d in
  sound n asked d1 ∧ chosen d1 id (S t) ∧ d_packs d1 !! (S t, id) = d_packs d !! (t, id) ∧
  (∀ k l, newest d k l → newest d1 k l) ∧ (∀ i, keeps d d1 i) ∧ no_more d d1.
Proof using Hn.
  intros Hh Hs Hne [f Hf] Hhint d1. destruct (h_packs _ _ _ _ Hh _ _ _ Hs) as [Hc (file & Hfile & _)]. pose proof (h_sound _ _ _ _ Hh) as Hd.
  assert (f = file) as -> by (by eapply (s_copies _ _ _ Hd)).
  destruct (h_active_elsewhere _ _ _ _ Hh (mk_is_Some _ _ Hs) Hne) as (a & _ & Ha & Hle & Hfa).
  assert (∀ x, x ≠ (t, id) → d_packs d1 !! x = d_packs d !! x) as Hother by (intros x Hx; cbn; by rewrite lookup_delete_ne).
  assert (∀ i, i ≠ id → agree d d1 i) as Hag by (intros i Hi t'; split; [apply Hother; congruence | done]).
  assert (d_packs d1 !! (S t, id) = Some file) as Hnew by (by rewrite Hother by (intros [= E]; lia)).
  assert (chosen d1 id (S t)) as Hc1.
  { split; [by rewrite Hnew |]. intros t' Ht. destruct (decide (t' = t)) as [-> | Hx]; [cbn; by rewrite lookup_delete_eq |].
    rewrite Hother by congruence. apply Hc. lia. }
  assert (sound n asked d1) as Hd1.
  { apply remove_pack_sound; [done | | exists 0, a; split_and!; [congruence | done | done]].
    intros t1 Hc'. rewrite (chosen_unique _ _ _ _ Hc' Hc1). by right. }
  assert (entries_at d1 (S t, id) = entries_at d (t, id)) as Hent.
  { pose proof (s_chosen _ _ _ Hd t (S t) id Hc Hhint) as [h Hh1]. destruct Hhint as [h' Hh2].
    assert (h' = h) as -> by (by eapply (s_hints _ _ _ Hd)).
    unfold entries_at. rewrite Hnew, Hfile. change (d_hints d1) with (d_hints d). by rewrite Hh1, Hh2. }
  assert (∀ i es, seen d1 i es ↔ seen d i es) as Hseen.
  { intros i es. destruct (decide (i = id)) as [-> | Hi]; [| by apply agree_seen, Hag]. split; intros (t' & Hc' & ->).
    - rewrite (chosen_unique _ _ _ _ Hc' Hc1), Hent. by exists t.
    - rewrite (chosen_unique _ _ _ _ Hc' Hc), <-Hent. by exists (S t). }
  split_and!; [done | done | by rewrite Hnew, Hfile | | |].
  3:{ intros k (i & es & Hse%Hseen & Hsm). by exists i, es. }
  - intros k l. apply newest_seen; intros; by apply Hseen.
  - intros i. destruct (decide (i = id)) as [-> | Hi]; [| by apply agree_keeps, Hag]. intros t' f' Hc' Hf'.
    rewrite (chosen_unique _ _ _ _ Hc' Hc) in Hf'. exists (S t), file. split_and!; [done | done |]. assert (f' = file) as -> by congruence. done.
Qed.

Definition switched (id : N) (p : pack) (s : store) : store :=
  set_total (S (p_tier p)) (Z.of_N (p_size p)) (set_total (p_tier p) (- Z.of_N (p_size p))
    (set_packs (<[id := Pack (S (p_tier p)) (p_size p) (p_live p) (p_used p) (p_touched p)]> (packs s)) s)).

Lemma switch_holds asked s d id p : holds n asked s d → packs s !! id = Some p → active s ≠ Some id →
  is_Some (d_packs d !! (S (p_tier p), id)) → is_Some (d_hints d !! (S (p_tier p), id)) →
  let d' := remove_hint (p_tier p, id) (remove_pack (p_tier p, id) d) in
  holds n asked (switched id p s) d' ∧ ∀ i, keeps d d' i.
Proof using Hn.
  intros Hh Hp Hne Hcopy Hhint d'. set (t := p_tier p) in *.
  assert (shape s id = Some (t, p_size p)) as Hs by (unfold shape; by rewrite Hp).
  destruct (switch_sound _ _ _ _ _ _ Hh Hs Hne Hcopy Hhint) as (Hd1 & Hc1 & Hsame & Hn1 & Hk1 & _).
  destruct (remove_hint_sound n asked (remove_pack (t, id) d) (t, id) Hd1) as [Hd2 Hn2]; [cbn; by rewrite lookup_delete_eq |].
  fold d' in Hd2, Hn2.
  assert (∀ i, i ≠ id → agree d d' i) as Hag by (intros i Hi; by apply remove_agree).
  assert (∀ i, shape (switched id p s) i = if (i =? id)%N then Some (S t, p_size p) else shape s i) as Hshape.
  { intros i. unfold shape, switched, set_total, set_packs. cbn [packs]. destruct (i =? id)%N eqn:E; [apply N.eqb_eq in E as -> | apply N.eqb_neq in E].
    - by rewrite lookup_insert_eq.
    - by rewrite lookup_insert_ne. }
  split; [| intros i; exact (Hk1 i)].
  destruct (h_active_elsewhere _ _ _ _ Hh (mk_is_Some _ _ Hs) Hne) as (a & Ha & Hai & Hle & Hfa).
  split.
  - exact Hd2.
  - unfold switched, set_total. cbn [tiers]. rewrite !length_alter. apply Hh.
  - intros i t1 sz. rewrite Hshape. destruct (i =? id)%N eqn:E.
    + apply N.eqb_eq in E as ->. intros [= <- <-]. split; [exact Hc1 |].
      destruct (h_packs _ _ _ _ Hh _ _ _ Hs) as [_ (file & Hf & Hsz)]. exists file. split; [| done]. by rewrite <-Hf, <-Hsame.
    + apply N.eqb_neq in E. intros Hs1. destruct (h_packs _ _ _ _ Hh _ _ _ Hs1) as [Hc2 Hf1].
      split; [apply (agree_chosen d d'); [by apply Hag | done] | by rewrite (proj1 (Hag i E t1))].
  - intros t1 i Hsome. rewrite Hshape. destruct (i =? id)%N eqn:E; [by eexists |]. apply N.eqb_neq in E.
    rewrite (proj1 (Hag i E t1)) in Hsome. by apply (h_all _ _ _ _ Hh) in Hsome.
  - intros k l Hl. apply Hn2, Hn1. by apply (h_index _ _ _ _ Hh).
  - destruct (h_active _ _ _ _ Hh) as (a' & es & Ha' & Hmax & Hsa & Hf & Hfit & Hask & Honly & Hnoh). assert (a' = a) as -> by congruence.
    exists a, es. split_and!; [done | | | by rewrite (proj1 (Hag a Hai 0)) | done | done | |].
    + intros i. rewrite Hshape. destruct (i =? id)%N eqn:E; [apply N.eqb_eq in E as ->; done | apply Hmax].
    + rewrite Hshape. by rewrite (proj2 (N.eqb_neq _ _) Hai).
    + intros t1. rewrite (proj1 (Hag a Hai t1)). apply Honly.
    + intros Hcl. rewrite (proj2 (Hag a Hai 0)) by done. by apply Hnoh.
  - intros i t1 sz. rewrite Hshape. destruct (i =? id)%N eqn:E.
    + apply N.eqb_eq in E as ->. intros [= <- <-] _. cbn. rewrite lookup_delete_ne by (intros [= E]; lia). done.
    + apply N.eqb_neq in E. intros Hs1 Hi1. destruct (h_packs _ _ _ _ Hh _ _ _ Hs1) as [[Hp1 _] _].
      rewrite (proj2 (Hag i E t1)) by done. by apply (h_hints _ _ _ _ Hh _ _ _ Hs1).
Qed.

(** *** the copies *)

Lemma copies_hold asked s d d' : holds n asked s d → sound n asked d' → (∀ k l, newest d k l → newest d' k l) →
  (∀ i t, chosen d' i t ↔ chosen d i t) → (∀ i t, chosen d i t → d_packs d' !! (t, i) = d_packs d !! (t, i) ∧ d_hints d' !! (t, i) = d_hints d !! (t, i)) →
  (∀ x, is_Some (d_packs d' !! x) → is_Some (d_packs d !! x) ∨ is_Some (shape s x.2) ∧ active s ≠ Some x.2) →
  holds n asked s d' ∧ ∀ i, keeps d d' i.
Proof using.
  clear Hn. intros Hh Hd' Hnew Hch Hsame Hall. split.
  - split.
    + exact Hd'.
    + apply Hh.
    + intros i t sz Hs. destruct (h_packs _ _ _ _ Hh _ _ _ Hs) as [Hc (f & Hf & Hsz)]. split; [by apply Hch |].
      exists f. by rewrite (proj1 (Hsame _ _ Hc)).
    + intros t i Hs. apply Hall in Hs as [Hs | [Hs _]]; [by apply (h_all _ _ _ _ Hh) in Hs | done].
    + intros k l Hl. by apply Hnew, (h_index _ _ _ _ Hh).
    + destruct (h_active _ _ _ _ Hh) as (a & es & Ha & Hmax & Hsa & Hf & Hfit & Hask & Honly & Hnoh).
      destruct (h_packs _ _ _ _ Hh _ _ _ Hsa) as [Hc _]. destruct (Hsame _ _ Hc) as [E1 E2].
      exists a, es. rewrite E1, E2. split_and!; try done. intros t Hs. apply Hall in Hs as [Hs | [_ Hs]]; [by apply Honly | done].
    + intros i t sz Hs Hne. destruct (h_packs _ _ _ _ Hh _ _ _ Hs) as [Hc _]. rewrite (proj2 (Hsame _ _ Hc)). by apply (h_hints _ _ _ _ Hh _ _ _ Hs).
  - intros i t f Hc Hf. exists t, f. split_and!; [by apply Hch | by rewrite (proj1 (Hsame _ _ Hc)) | done].
Qed.

(** *** a request leaves the other packs alone *)

Definition quiet (s : store) (d : disk) (s' : store) (d' : disk) (id : N) : Prop :=
  shape s' id = shape s id ∧ active s' ≠ Some id ∧ ∀ t, d_packs d' !! (t, id) = d_packs d !! (t, id) ∧ d_hints d' !! (t, id) = d_hints d !! (t, id).

Lemma make_room_quiet f now recLen a p s d id : active s = Some a → (id < a)%N →
  let r := make_room f now recLen a p s d in
  quiet s d r.1.1 r.1.2 id ∧ (active r.1.1 = Some a ∨ active r.1.1 = Some (a + 1)%N).
Proof using.
  clear Hn. intros Ha Hid r.
  assert (quiet s d s d id) as Hsame by (split_and!; [done | rewrite Ha; intros [= ->]; lia | done]).
  unfold r, make_room. destruct (_ && _); [| split; [exact Hsame | by left]]. unfold rotate, seal. rewrite Ha.
  destruct (packs s !! a) as [q |]; [| split; [exact Hsame | by left]].
  destruct (put_sealed f); [| split; [exact Hsame | by left]]. cbn [negb orb].
  assert (∀ t, d_hints (write_hint (p_tier q, a) (hint_bytes (walk (own_entries s a))) d) !! (t, id) = d_hints d !! (t, id)) as Hh.
  { intros t. cbn. rewrite lookup_insert_ne; [done |]. intros [= _ E]. lia. }
  destruct (negb (put_created f) || _); cbn [fst snd].
  - split; [| by left]. split_and!; [done | rewrite Ha; intros [= ->]; lia |]. intros t. split; [done | apply Hh].
  - split; [| by right]. split_and!.
    + unfold shape. cbn [packs]. by rewrite lookup_insert_ne by lia.
    + intros [= E]. lia.
    + intros t. split; [| apply Hh]. cbn. rewrite lookup_insert_ne; [done |]. intros [= _ E]. lia.
Qed.

Lemma Put_quiet f now key size body s d a id : active s = Some a → (id < a)%N →
  let r := Put walk f now key size body s d in quiet s d r.1.1 r.1.2 id.
Proof using.
  clear Hn. intros Ha Hid r. assert (quiet s d s d id) as Hsame by (split_and!; [done | rewrite Ha; intros [= ->]; lia | done]).
  destruct (accepted f key size body s) eqn:Hacc; [| unfold r; by rewrite Put_rejected].
  destruct (packs s !! a) as [p |] eqn:Hp.
  2:{ unfold r, Put. rewrite Ha, Hp. destruct (bad_put key size); [done |]. destruct (_ || _); [done |]. by destruct (closed s). }
  unfold r. rewrite (Put_room f now key size body s d a p Hacc Ha Hp). cbv zeta.
  set (recLen := (recHeader + N.of_nat (length key) + Z.to_N size)%N).
  pose proof (make_room_quiet f now recLen a p s d id Ha Hid) as Hroom. cbv zeta in Hroom.
  destruct (make_room f now recLen a p s d) as [[s1 d1] ok]. cbn [fst snd] in Hroom. destruct Hroom as [(Hs1 & Ha1 & Hd1) Hact].
  destruct ok; cbn [negb]; [| by split_and!].
  assert (∃ a1, active s1 = Some a1 ∧ (id < a1)%N) as (a1 & Hact1 & Hlt1) by (destruct Hact as [-> | ->]; eexists; (split; [done | lia])).
  rewrite Hact1. cbn [default].
  assert (∀ file d2, (∀ t, d_packs d2 !! (t, id) = d_packs d !! (t, id) ∧ d_hints d2 !! (t, id) = d_hints d !! (t, id)) →
    ∀ t, d_packs (write_pack (0, a1) file d2) !! (t, id) = d_packs d !! (t, id) ∧
         d_hints (write_pack (0, a1) file d2) !! (t, id) = d_hints d !! (t, id)) as Hw.
  { intros file d2 H t. split; [| apply H]. cbn. rewrite lookup_insert_ne; [apply H |]. intros [= _ E]. lia. }
  destruct (written f) as [m |]; cbn [fst snd]; (split_and!; [| | by apply Hw]).
  - exact Hs1.
  - exact Ha1.
  - match goal with |- context [point key ?l s1] => set (l0 := l) end.
    pose proof (point_shape key l0 s1 id) as Hps. rewrite <-Hs1, <-Hps. unfold shape, set_total, set_packs. cbn [packs].
    rewrite lookup_alter_ne; [done |]. unfold Datatypes.id. lia.
  - exact Ha1.
Qed.

(** ** Every step *)

Definition mover_ok (s : store) (d : disk) (m : mover) : Prop :=
  match m with
  | Resting => True
  | PackStore.Chosen id => ∃ t size, shape s id = Some (t, size) ∧ active s ≠ Some id
  | PackMoved id => ∃ t size, shape s id = Some (t, size) ∧ active s ≠ Some id ∧ is_Some (d_packs d !! (S t, id))
  | HintMoved id => ∃ t size, shape s id = Some (t, size) ∧ active s ≠ Some id ∧ is_Some (d_packs d !! (S t, id)) ∧ is_Some (d_hints d !! (S t, id))
  end.
Definition valid (asked : list (str * str)) (d : daemon) : Prop := holds n asked (st d) (dk d) ∧ mover_ok (st d) (dk d) (mv d).

Lemma mover_ok_quiet s d s' d' m : (∀ id, is_Some (shape s id) → active s ≠ Some id → quiet s d s' d' id) → mover_ok s d m → mover_ok s' d' m.
Proof using.
  clear Hn. intros Hq.
  assert (∀ id t size, shape s id = Some (t, size) → active s ≠ Some id → shape s' id = Some (t, size) ∧ active s' ≠ Some id ∧
    d_packs d' !! (S t, id) = d_packs d !! (S t, id) ∧ d_hints d' !! (S t, id) = d_hints d !! (S t, id)) as H.
  { intros id t size Hs Hne. destruct (Hq id (mk_is_Some _ _ Hs) Hne) as (Hs' & Hne' & Hd'). destruct (Hd' (S t)). by rewrite Hs'. }
  destruct m as [| id | id | id]; cbn [mover_ok]; [done | | |].
  - intros (t & size & Hs & Hne). exists t, size. by destruct (H _ _ _ Hs Hne) as (? & ? & _).
  - intros (t & size & Hs & Hne & Hp). exists t, size. by destruct (H _ _ _ Hs Hne) as (? & ? & -> & _).
  - intros (t & size & Hs & Hne & Hp & Hi). exists t, size. by destruct (H _ _ _ Hs Hne) as (? & ? & -> & ->).
Qed.

Definition mild_event (e : event) : Prop := match e with EPut f _ _ _ _ => mild f | _ => True end.
Definition asked_by (e : event) : list (str * str) :=
  match e with EPut _ _ key size body => if bad_put key size then [] else [(key, put_value size body)] | _ => [] end.

(** the pack a step deletes *)
Definition evicts (e : event) (d : daemon) : option N :=
  match e, mv d with
  | EMovePack _, PackStore.Chosen id => t ← p_tier <$> packs (st d) !! id; if (S t =? length (tiers (st d)))%nat then Some id else None
  | _, _ => None
  end.
(** the values after a step: a Put that reports success has stored its value, an eviction forgets those of its
    pack, and nothing else changes *)
Definition expected (e : event) (d : daemon) (k : str) : option str :=
  let now := value_of (st d) (dk d) k in
  match e with
  | EPut f t key size body => if (Put walk f t key size body (st d) (dk d)).2 && (k == key) then Some (put_value size body) else now
  | _ => match evicts e d with
         | Some id => if bool_decide (l_pack <$> index (st d) !! k = Some id) then None else now
         | None => now
         end
  end.

Lemma same_values asked asked' s d s' d' : holds n asked s d → holds n asked' s' d' → index s' = index s → (∀ i, keeps d d' i) →
  ∀ k, value_of s' d' k = value_of s d k.
Proof using.
  clear Hn. intros Hh Hh' Hi Hk k. eapply value_of_same; [exact Hh | exact Hh' | by rewrite Hi | intros l _; apply Hk].
Qed.
Lemma keeps_refl d i : keeps d d i.
Proof using. intros t f Hc Hf. by exists t, f. Qed.

(** a copy of a sealed pack one tier down *)
Lemma move_pack asked s d id t size ok files : holds n asked s d → shape s id = Some (t, size) → active s ≠ Some id → S t ≠ n →
  moveFile ok (d_packs d) (t, id) (S t, id) = Some files →
  let d' := Disk files (d_hints d) (d_mtimes d) in
  holds n asked s d' ∧ is_Some (d_packs d' !! (S t, id)) ∧ ∀ i, keeps d d' i.
Proof using Hn.
  intros Hh Hs Hne HSt Hmove d'. destruct (h_packs _ _ _ _ Hh _ _ _ Hs) as [Hc (file & Hf & _)]. pose proof (h_sound _ _ _ _ Hh) as Hd.
  unfold moveFile in Hmove. destruct (d_packs d !! (S t, id)) as [f |] eqn:Hto.
  - injection Hmove as <-. assert (d' = d) as -> by (by destruct d). split_and!; [done | by rewrite Hto | apply keeps_refl].
  - rewrite Hf in Hmove. destruct ok; [| done]. injection Hmove as <-.
    assert (S t < n) as Hlt by (pose proof (s_tiers _ _ _ Hd t id (mk_is_Some _ _ Hf)); lia).
    destruct (copy_pack_sound n asked d id t (S t) file Hd Hc ltac:(lia) Hlt Hf (h_hints _ _ _ _ Hh _ _ _ Hs Hne)) as (Hd' & Hch & Hnew).
    fold d' in Hd', Hch, Hnew. assert (∀ x, x ≠ (S t, id) → d_packs d' !! x = d_packs d !! x) as Hother by (intros x Hx; cbn; by rewrite lookup_insert_ne).
    destruct (copies_hold asked s d d' Hh Hd' Hnew Hch) as [Hh' Hk].
    + intros i t1 Hc1. split; [| done]. apply Hother. intros [= -> ->]. pose proof (chosen_unique _ _ _ _ Hc Hc1). lia.
    + intros x Hx. destruct (decide (x = (S t, id))) as [-> | Hne']; [right; cbn [snd]; rewrite Hs; by split | left; by rewrite Hother in Hx].
    + split_and!; [done | cbn; rewrite lookup_insert_eq; by eexists | done].
Qed.
Lemma move_hint asked s d id t size ok files : holds n asked s d → shape s id = Some (t, size) → active s ≠ Some id →
  moveFile ok (d_hints d) (t, id) (S t, id) = Some files →
  let d' := Disk (d_packs d) files (d_mtimes d) in
  holds n asked s d' ∧ is_Some (d_hints d' !! (S t, id)) ∧ ∀ i, keeps d d' i.
Proof using Hn.
  intros Hh Hs Hne Hmove d'. destruct (h_packs _ _ _ _ Hh _ _ _ Hs) as [Hc _]. pose proof (h_sound _ _ _ _ Hh) as Hd.
  unfold moveFile in Hmove. destruct (d_hints d !! (S t, id)) as [f |] eqn:Hto.
  - injection Hmove as <-. assert (d' = d) as -> by (by destruct d). split_and!; [done | by rewrite Hto | apply keeps_refl].
  - destruct (d_hints d !! (t, id)) as [hint |] eqn:Hf; [| done]. destruct ok; [| done]. injection Hmove as <-.
    destruct (copy_hint_sound n asked d id t (S t) hint Hd Hc ltac:(lia) Hf) as (Hd' & Hnew). fold d' in Hd', Hnew.
    destruct (copies_hold asked s d d' Hh Hd' Hnew) as [Hh' Hk]; [done | | by left | split_and!; [done | cbn; rewrite lookup_insert_eq; by eexists | done]].
    intros i t1 Hc1. split; [done |]. cbn. rewrite lookup_insert_ne; [done |]. intros [= <- <-]. pose proof (chosen_unique _ _ _ _ Hc Hc1). lia.
Qed.
(** closing seals the active pack, and no Put follows *)
Lemma close_holds asked s d a ok : holds n asked s d → active s = Some a → closed s = false →
  let s' := Store (tiers s) (index s) (packs s) (active s) true in
  let d' := (seal walk ok a s' d).1 in
  holds n asked s' d' ∧ (∀ i, keeps d d' i) ∧ ∀ id, id ≠ a → ∀ t, d_packs d' !! (t, id) = d_packs d !! (t, id) ∧ d_hints d' !! (t, id) = d_hints d !! (t, id).
Proof using Hwalk.
  clear Hn. intros Hh Ha Hcl s' d'. destruct (seal_active walk Hwalk n asked s d a Hh Ha Hcl) as (Hseal & Hd1 & Hn1 & Hk1 & Hm1).
  assert (d' = if ok then write_hint (0, a) (hint_bytes (walk (own_entries s a))) d else d) as E.
  { unfold d'. destruct ok; [| unfold seal; by destruct (packs s' !! a)]. change (seal walk true a s' d) with (seal walk true a s d). by rewrite Hseal. }
  rewrite E. clear d' E.
  assert (∀ d2, d_packs d2 = d_packs d → sound n asked d2 → (∀ k l, index s !! k = Some l → newest d2 k l) →
    (∀ id t, id ≠ a → d_hints d2 !! (t, id) = d_hints d !! (t, id)) → holds n asked s' d2) as Hgo.
  { intros d2 Hp Hd2 Hn2 Hhn. destruct Hh as [_ H2 H3 H4 _ H6 H7]. split; try done.
    - intros id t size Hs. unfold chosen. rewrite Hp. by apply (H3 id).
    - intros t id. rewrite Hp. apply H4.
    - destruct H6 as (a' & es & E1 & E2 & E3 & E4 & E5 & E6 & E7 & _). exists a', es. rewrite Hp. by split_and!.
    - intros id t size Hs Hne. rewrite Hhn by (intros ->; by apply Hne). by apply (H7 id t size). }
  destruct ok.
  - split; [apply Hgo; [done | done | done |] | split; [exact Hk1 |]].
    + intros id t Hid. cbn. by rewrite lookup_insert_ne by congruence.
    + intros id Hid t. cbn. by rewrite lookup_insert_ne by congruence.
  - split; [apply Hgo; [done | apply Hh | apply Hh | done] | split; [apply keeps_refl | done]].
Qed.

Lemma step_valid asked e d : valid asked d → mild_event e →
  valid (asked_by e ++ asked) (step walk e d) ∧ ∀ k, value_of (st (step walk e d)) (dk (step walk e d)) k = expected e d k.
Proof using Hn Hwalk.
  intros [Hh Hm] He. destruct d as [s d m]. cbn [st dk mv] in Hh, Hm.
  destruct (h_active _ _ _ _ Hh) as (a & es0 & Ha & Hmax & Hsa & _). clear es0 Hsa.
  assert (∀ id, is_Some (shape s id) → active s ≠ Some id → (id < a)%N) as Hbelow.
  { intros id Hs Hne. pose proof (Hmax id Hs). assert (id ≠ a) by congruence. lia. }
  assert (∀ asked' s' d', holds n asked' s' d' → index s' = index s → (∀ i, keeps d d' i) → ∀ k, value_of s' d' k = value_of s d k) as Hvals.
  { intros asked' s' d' Hh'. by apply (same_values asked asked'). }
  destruct e as [f now key size body | now key | | ok | ok | ok | ok]; cbn [step asked_by app].
  - cbn [mild_event] in He. destruct (Put_holds asked f now key size body s d Hh He) as (Hh' & Hv & _ & Hbad).
    assert (mover_ok (Put walk f now key size body s d).1.1 (Put walk f now key size body s d).1.2 m) as Hm'.
    { apply (mover_ok_quiet s d); [| done]. intros id Hs Hne. apply (Put_quiet f now key size body s d a); [done | by apply Hbelow]. }
    unfold expected. cbn [st dk]. destruct (Put walk f now key size body s d) as [[s' d'] ok]. cbn [fst snd] in *. split; [| exact Hv].
    destruct (bad_put key size); [| by split]. injection (Hbad eq_refl) as -> -> ->. by split.
  - destruct (Get_holds n asked now key s d Hh) as (Hh' & Hi & Hp & _ & Hk).
    assert (d_hints (Get now key s d).2 = d_hints d) as Hhn.
    { unfold Get. destruct (index s !! key) as [l |]; [| done]. destruct (packs s !! l_pack l); [| done]. cbn. by destruct (_ <? _)%Z. }
    unfold expected. cbn [st dk evicts]. destruct (Get now key s d) as [[v s'] d']. cbn [fst snd] in *. split; [split; [done |] |].
    + cbn [st dk mv]. apply (mover_ok_quiet s d); [| done]. intros id Hs Hne. split_and!; [by apply Hk | by rewrite (kept_active _ _ Hk) | by rewrite Hp, Hhn].
    + apply (Hvals _ _ _ Hh' Hi). intros i t f Hc Hf. exists t, f. unfold chosen. by rewrite Hp.
  - unfold expected. cbn [st dk evicts]. destruct m; (split; [| done]); try by split. split; [done |]. cbn [st dk mv].
    destruct (victim s) as [id |] eqn:Hv; [| done]. destruct (victim_spec s id Hv) as [[[t size] Hs] Hne]. by exists t, size.
  - unfold expected, evicts. cbn [st dk mv]. destruct m as [| id | id | id]; try by split. destruct Hm as (t & size & Hs & Hne).
    unfold shape in Hs. destruct (packs s !! id) as [p |] eqn:Hp; [| done]. cbn in Hs. injection Hs as Ht Hsz.
    assert (shape s id = Some (t, size)) as Hs by (unfold shape; rewrite Hp; cbn; by rewrite Ht, Hsz).
    cbn [fmap option_fmap option_map mbind option_bind]. rewrite Ht, (h_tiers _ _ _ _ Hh). destruct (S t =? n)%nat eqn:Hlast.
    + apply Nat.eqb_eq in Hlast. destruct (evict_holds asked s d id t size Hh Hs Hne Hlast) as [Hh' Hk].
      unfold evict. rewrite Ht, Hsz. cbn [st dk mv]. split; [by split |]. intros k.
      case_bool_decide as Hl.
      * apply value_of_none. cbn. apply map_lookup_filter_None. right. intros l Hi. rewrite Hi in Hl. cbn in Hl. intros Hx. apply Hx. cbn. congruence.
      * destruct (index s !! k) as [l |] eqn:Hi.
        -- eapply value_of_same; [exact Hh | exact Hh' | |].
           ++ rewrite Hi. cbn. apply map_lookup_filter_Some. split; [done |]. cbn. intros E. apply Hl. cbn. by rewrite E.
           ++ intros l' Hl'. apply Hk. rewrite Hi in Hl'. injection Hl' as <-. intros E. apply Hl. cbn. by rewrite E.
        -- rewrite !value_of_none; [done | done |]. cbn. apply map_lookup_filter_None. by left.
    + apply Nat.eqb_neq in Hlast. destruct (moveFile ok (d_packs d) (t, id) (S t, id)) as [files |] eqn:Hmove; cbn [st dk mv]; [| by split].
      destruct (move_pack asked s d id t size ok files Hh Hs Hne Hlast Hmove) as (Hh' & Hcopy & Hk).
      split; [split; [done |]; by exists t, size | by apply (Hvals _ _ _ Hh')].
  - unfold expected. cbn [st dk evicts]. destruct m as [| id | id | id]; try by split. destruct Hm as (t & size & Hs & Hne & Hcopy).
    unfold shape in Hs. destruct (packs s !! id) as [p |] eqn:Hp; [| done]. cbn in Hs. injection Hs as Ht Hsz. rewrite Ht.
    assert (shape s id = Some (t, size)) as Hs by (unfold shape; rewrite Hp; cbn; by rewrite Ht, Hsz).
    destruct (moveFile ok (d_hints d) (t, id) (S t, id)) as [files |] eqn:Hmove; cbn [st dk mv]; [| by split].
    destruct (move_hint asked s d id t size ok files Hh Hs Hne Hmove) as (Hh' & Hcopy' & Hk).
    split; [split; [done |]; by exists t, size | by apply (Hvals _ _ _ Hh')].
  - unfold expected. cbn [st dk evicts]. destruct m as [| id | id | id]; try by split. destruct Hm as (t & size & Hs & Hne & Hcopy & Hhint).
    unfold shape in Hs. destruct (packs s !! id) as [p |] eqn:Hp; [| done]. cbn in Hs. injection Hs as Ht Hsz. subst t.
    destruct ok; cbn [st dk mv]; [| by split].
    destruct (switch_holds asked s d id p Hh Hp Hne Hcopy Hhint) as [Hh' Hk]. unfold switch. cbn [st dk mv].
    pose proof (mtime_holds n asked (switched id p s) _ (S (p_tier p), id) (p_used p) Hh') as Hh2.
    split; [split; [exact Hh2 | done] |]. exact (Hvals _ _ _ Hh2 eq_refl Hk).
  - unfold expected. cbn [st dk evicts]. destruct (closed s) eqn:Hcl; [by split |]. rewrite Ha. cbn [st dk mv].
    destruct (close_holds asked s d a ok Hh Ha Hcl) as (Hh' & Hk & Hq). rewrite Ha in Hh', Hk, Hq. split; [split; [exact Hh' |] | by apply (Hvals _ _ _ Hh')].
    cbn [st dk mv]. apply (mover_ok_quiet s d); [| done]. intros id Hs Hne. split_and!; [done | by rewrite Ha in Hne |]. apply Hq. specialize (Hbelow id Hs Hne). lia.
Qed.

(** no step brings a key back *)
Lemma step_says asked e d : valid asked d → mild_event e → ∀ k, says (dk (step walk e d)) k →
  says (dk d) k ∨ match e with EPut f now key size body => (Put walk f now key size body (st d) (dk d)).2 = true ∧ k = key | _ => False end.
Proof using Hn Hwalk.
  intros [Hh Hm] He. destruct d as [s d m]. cbn [st dk mv] in *. assert (∀ d', no_more d d' → ∀ k, says d' k → says d k ∨ False) as Hgo by (intros d' H k Hk; left; by apply H).
  assert (∀ d', d_packs d' = d_packs d → (∀ i t, chosen d i t → d_hints d' !! (t, i) = d_hints d !! (t, i)) → no_more d d') as Hsame.
  { intros d' Hp Hhn. apply no_more_same. intros i t Hc. unfold chosen in Hc. rewrite Hp in Hc. split; [done |]. unfold entries_at. by rewrite Hp, Hhn. }
  destruct e as [f now key size body | now key | | ok | ok | ok | ok]; cbn [step].
  - destruct (Put_holds asked f now key size body s d Hh He) as (_ & _ & Hs & _). by destruct (Put walk f now key size body s d) as [[s' d'] ok].
  - unfold Get. destruct (index s !! key) as [l |]; [| by apply Hgo, Hsame]. destruct (packs s !! l_pack l); [| by apply Hgo, Hsame].
    cbn [dk]. apply Hgo, Hsame; by destruct (_ <? _)%Z.
  - by destruct m; apply Hgo, Hsame.
  - destruct m as [| id | id | id]; try by apply Hgo, Hsame. destruct Hm as (t & size & Hs & Hne). destruct (packs s !! id) as [p |] eqn:Hp; [| by apply Hgo, Hsame].
    pose proof Hs as Hs'. unfold shape in Hs'. rewrite Hp in Hs'. cbn in Hs'. injection Hs' as Ht Hsz. rewrite Ht, (h_tiers _ _ _ _ Hh).
    destruct (h_packs _ _ _ _ Hh _ _ _ Hs) as [Hc (file & Hf & _)]. destruct (S t =? n)%nat eqn:Hlast.
    + apply Nat.eqb_eq in Hlast. destruct (evict_sound asked s d id t size Hh Hs Hne Hlast) as (_ & Hgone & _). unfold evict. rewrite Ht. cbn [dk].
      apply Hgo. intros k (i & es & Hse & Hsm). destruct (decide (i = id)) as [-> | Hi].
      * destruct Hse as (t1 & [Hsome _] & _). change (is_Some (d_packs (remove_pack (t, id) d) !! (t1, id))) in Hsome. rewrite Hgone in Hsome. by destruct Hsome.
      * exists i, es. split; [| done]. apply (agree_seen d (remove_hint (t, id) (remove_pack (t, id) d))); [by apply remove_agree | done].
    + apply Nat.eqb_neq in Hlast. destruct (moveFile ok (d_packs d) (t, id) (S t, id)) as [files |] eqn:Hmove; cbn [dk]; [| by apply Hgo, Hsame].
      apply Hgo. unfold moveFile in Hmove. destruct (d_packs d !! (S t, id)) as [f |] eqn:Hto; [injection Hmove as <-; destruct d; by intros k |].
      rewrite Hf in Hmove. destruct ok; [| done]. injection Hmove as <-.
      assert (S t < n) as Hlt by (pose proof (s_tiers _ _ _ (h_sound _ _ _ _ Hh) t id (mk_is_Some _ _ Hf)); lia).
      destruct (copy_pack_sound n asked d id t (S t) file (h_sound _ _ _ _ Hh) Hc ltac:(lia) Hlt Hf (h_hints _ _ _ _ Hh _ _ _ Hs Hne)) as (_ & Hch & _).
      apply no_more_same. intros i t1 Hc1%Hch. split; [done |]. unfold entries_at. cbn [d_packs d_hints]. rewrite lookup_insert_ne; [done |].
      intros [= <- <-]. by destruct Hc1 as [[? E] _]; rewrite Hto in E.
  - destruct m as [| id | id | id]; try by apply Hgo, Hsame. destruct Hm as (t & size & Hs & Hne & _). destruct (packs s !! id) as [p |] eqn:Hp; [| by apply Hgo, Hsame].
    pose proof Hs as Hs'. unfold shape in Hs'. rewrite Hp in Hs'. cbn in Hs'. injection Hs' as Ht Hsz. rewrite Ht.
    destruct (h_packs _ _ _ _ Hh _ _ _ Hs) as [Hc _]. destruct (moveFile ok (d_hints d) (t, id) (S t, id)) as [files |] eqn:Hmove; cbn [dk]; [| by apply Hgo, Hsame].
    apply Hgo, Hsame; [done |]. intros i t1 Hc1. cbn [d_hints]. unfold moveFile in Hmove. destruct (d_hints d !! (S t, id)); [by injection Hmove as <- |].
    destruct (d_hints d !! (t, id)); [| done]. destruct ok; [| done]. injection Hmove as <-. rewrite lookup_insert_ne; [done |].
    intros [= <- <-]. pose proof (chosen_unique _ _ _ _ Hc Hc1). lia.
  - destruct m as [| id | id | id]; try by apply Hgo, Hsame. destruct Hm as (t & size & Hs & Hne & Hcopy & Hhint). destruct (packs s !! id) as [p |] eqn:Hp; [| by apply Hgo, Hsame].
    pose proof Hs as Hs'. unfold shape in Hs'. rewrite Hp in Hs'. cbn in Hs'. injection Hs' as Ht Hsz.
    destruct ok; [| by apply Hgo, Hsame]. unfold switch. rewrite Ht. cbn [dk]. apply Hgo.
    destruct (switch_sound asked s d id t size Hh Hs Hne Hcopy Hhint) as (_ & _ & _ & _ & _ & Hmore). eapply no_more_trans; [exact Hmore |].
    apply no_more_same. intros i t1 Hc1. split; [done |]. unfold entries_at. cbn [d_packs d_hints remove_hint remove_pack set_mtime].
    rewrite (lookup_delete_ne (d_hints d)); [done |]. intros [= <- <-]. destruct Hc1 as [[? E] _]. cbn in E. by rewrite lookup_delete_eq in E.
  - destruct (closed s) eqn:Hcl; [by apply Hgo, Hsame |]. destruct (h_active _ _ _ _ Hh) as (a & es & Ha & _). rewrite Ha. cbn [dk].
    destruct (seal_active walk Hwalk n asked s d a Hh Ha Hcl) as (Hseal & _ & _ & _ & Hmore). apply Hgo. destruct ok.
    + match goal with |- no_more d ?x.1 => change x with (seal walk true a s d) end. by rewrite Hseal.
    + unfold seal. destruct (packs _ !! a); by intros k.
Qed.

End Life.
