(* ===== verification/PackOpen.v ===== *)
(** * Opening the pack store (src/pkgs/ji/jigd/src/store.go)

    [OpenStore] on any files that a store leaves when it stops, at rest or in the middle of a step: every pack is
    loaded once, a torn one is cut, those without a hint get one, and the index has every value the files hold in
    their newest pack. With the steps of PackHistory this is the life of the store over any number of restarts. *)

From S2P Require Import Prelude PackFormat PackStore PackRecovery PackHistory.

(** everything about the files is allowed *)
Definition fine : nat * N → load_faults := λ _, LoadFaults true true true.

Section Open.
Context (walk : list (str * loc) → list (str * loc)) (by_name : list N → list N).
Context (Hwalk : ∀ es, walk es ≡ₚ es) (Hname : ∀ ids, by_name ids ≡ₚ ids).
Context (n : nat) (Hn : 0 < n) (asked : list (str * str)) (d0 : disk).

(** nothing that the files say is lost *)
Definition outlives (d d' : disk) : Prop := ∀ k l v, newest d k l → content d l v → newest d' k l ∧ content d' l v.

(** while the packs of [done] have been loaded *)
Record opening (done : nat * N → Prop) (s : store) (d : disk) : Prop := Opening {
  o_sound : sound n asked d;
  o_fresh : closed s = false ∧ active s = None;
  o_tiers : length (tiers s) = n;
  o_packs : ∀ id t size, shape s id = Some (t, size) → done (t, id) ∧ chosen d id t ∧ is_Some (d_hints d !! (t, id)) ∧
    ∃ file, d_packs d !! (t, id) = Some file ∧ size = N.of_nat (length file);
  o_done : ∀ t id, done (t, id) → is_Some (d_packs d !! (t, id)) → is_Some (shape s id);
  o_index : ∀ k l, index s !! k = Some l → ∃ t size, shape s (l_pack l) = Some (t, size) ∧
    last_of k (entries_at d (t, l_pack l)) = Some l ∧
    ∀ id t' size', shape s id = Some (t', size') → (l_pack l < id)%N → last_of k (entries_at d (t', id)) = None;
  o_complete : ∀ id t size k l, shape s id = Some (t, size) → last_of k (entries_at d (t, id)) = Some l →
    ∃ l', index s !! k = Some l' ∧ (id ≤ l_pack l')%N;
  o_values : outlives d0 d;
  o_more : no_more d0 d
}.

Lemma outlives_trans d1 d2 d3 : outlives d1 d2 → outlives d2 d3 → outlives d1 d3.
Proof using. intros H1 H2 k l v Hk Hv. destruct (H1 k l v Hk Hv). by apply H2. Qed.

(** the end of a pack without a hint is cut off *)
Lemma trim_sound d id t file : sound n asked d → chosen d id t → d_hints d !! (t, id) = None → d_packs d !! (t, id) = Some file →
  let '(es, off) := scan_pack id file in
  let d' := if (off =? N.of_nat (length file))%N then d else write_pack (t, id) (take (N.to_nat off) file) d in
  sound n asked d' ∧ es = entries_at d (t, id) ∧ entries_at d' (t, id) = entries_at d (t, id) ∧
  d_packs d' !! (t, id) = Some (take (N.to_nat off) file) ∧ off = N.of_nat (length (take (N.to_nat off) file)) ∧
  (∀ i t', chosen d' i t' ↔ chosen d i t') ∧ (∀ i, i ≠ id → agree d d' i) ∧ d_hints d' = d_hints d ∧
  (∀ x, is_Some (d_packs d' !! x) ↔ is_Some (d_packs d !! x)) ∧
  outlives d d' ∧ no_more d d'.
Proof using Hn.
  intros Hd Hc Hno Hf. pose proof (s_files _ _ _ Hd _ _ Hf) as (es & tail & -> & Hfit & Htorn & Hlen & Hask & _).
  rewrite length_app in Hlen. assert (scan_pack id (pack_bytes es ++ tail) = (placed id es 0, N.of_nat (length (pack_bytes es)))) as Hscan.
  { by rewrite scan_pack_records by (done || lia). }
  rewrite Hscan. assert (entries_at d (t, id) = placed id es 0) as Hent by (unfold entries_at; rewrite Hf, Hno; cbn [snd]; by rewrite Hscan).
  rewrite Hent, Nat2N.id, take_app_length. intros d'.
  destruct (N.of_nat (length (pack_bytes es)) =? N.of_nat (length (pack_bytes es ++ tail)))%N eqn:E.
  { apply N.eqb_eq in E. rewrite length_app in E. assert (tail = []) as -> by (apply length_zero_iff_nil; lia).
    rewrite app_nil_r in Hf. unfold d'. split_and!; try done; by intros k. }
  destruct (rewrite_sound n asked asked d id t es [] Hd Hc Hno) as (Hd' & Hc' & Hent' & Hnew);
    [done | done | apply torn_nil | rewrite app_nil_r; lia | done |]. rewrite app_nil_r in Hd', Hc', Hent', Hnew.
  fold d' in Hd', Hc', Hent', Hnew. assert (d_packs d' !! (t, id) = Some (pack_bytes es)) as Hf' by (cbn; by rewrite lookup_insert_eq).
  assert (∀ i, i ≠ id → agree d d' i) as Hag by (intros i Hi t'; split; [cbn; by rewrite lookup_insert_ne by congruence | done]).
  assert (∀ x, is_Some (d_packs d' !! x) ↔ is_Some (d_packs d !! x)) as Hsome.
  { intros x. destruct (decide (x = (t, id))) as [-> | Hx]; [rewrite Hf', Hf; split; by eexists |]. cbn. by rewrite lookup_insert_ne. }
  assert (∀ i t', chosen d' i t' ↔ chosen d i t') as Hch.
  { intros i t'. destruct (decide (i = id)) as [-> | Hi]; [| by apply (agree_chosen d d'), Hag].
    split; intros H; [by rewrite (chosen_unique _ _ _ _ H Hc') | by rewrite (chosen_unique _ _ _ _ H Hc)]. }
  split_and!; try done; [| apply (no_more_one d d' id t); [done | done | done | by rewrite Hent', Hent]].
  intros k l v Hk Hv. assert (newest d' k l) as Hk' by (apply Hnew; [done | by rewrite Hent]).
  split; [done |]. destruct (decide (l_pack l = id)) as [Hl | Hl]; [| by eapply content_keeps; [apply agree_keeps, Hag |]].
  pose proof (newest_content _ _ _ _ _ Hd' Hk') as (v' & Hv' & _). assert (v' = v) as ->; [| done].
  destruct Hv as (t1 & f1 & H1 & H2 & _ & <-). destruct Hv' as (t2 & f2 & H3 & H4 & H5 & <-). rewrite Hl in *.
  rewrite (chosen_unique _ _ _ _ H1 Hc) in H2. rewrite (chosen_unique _ _ _ _ H3 Hc') in H4.
  assert (f2 = pack_bytes es) as -> by congruence. assert (f1 = pack_bytes es ++ tail) as -> by congruence.
  symmetry. apply substr_prefix; [by eexists | done].
Qed.

(** *** one pack more *)

(** [s'] is [s] with the pack [id], read from [es] *)
Lemma loaded_index s s' id es k l : (∀ k, index s' !! k = index (foldl (λ s e, add e s) s es) !! k) →
  Forall (λ e, l_pack e.2 = id) es → (∀ k l, index s !! k = Some l → l_pack l ≠ id) →
  index s' !! k = Some l →
  (l_pack l = id ∧ last_of k es = Some l) ∨ (index s !! k = Some l ∧ l_pack l ≠ id ∧ ((l_pack l < id)%N → last_of k es = None)).
Proof using.
  clear Hn. intros Hi HF Hne. rewrite Hi, (foldl_add_index id) by done. destruct (last_of k es) as [l1 |] eqn:El.
  - destruct (index s !! k) as [old |] eqn:Eo.
    + destruct (id <? l_pack old)%N eqn:Hlt; intros [= <-].
      * right. apply N.ltb_lt in Hlt. split_and!; [done | by eapply Hne | lia].
      * left. split; [| done]. apply last_of_elem in El. rewrite list.Forall_forall in HF. by apply HF in El.
    + intros [= <-]. left. split; [| done]. apply last_of_elem in El. rewrite list.Forall_forall in HF. by apply HF in El.
  - intros Hl. right. split_and!; [done | by eapply Hne | done].
Qed.
Lemma loaded_complete s s' id es k l : (∀ k, index s' !! k = index (foldl (λ s e, add e s) s es) !! k) →
  Forall (λ e, l_pack e.2 = id) es → (last_of k es = Some l ∨ index s !! k = Some l) → ∃ l', index s' !! k = Some l' ∧ (l_pack l ≤ l_pack l')%N.
Proof using.
  clear Hn. intros Hi HF Hor. rewrite Hi, (foldl_add_index id) by done.
  assert (∀ l1, last_of k es = Some l1 → l_pack l1 = id) as Hid.
  { intros l1 E%last_of_elem. rewrite list.Forall_forall in HF. by apply HF in E. }
  destruct (last_of k es) as [l1 |].
  - specialize (Hid l1 eq_refl). destruct (index s !! k) as [old |].
    + destruct (id <? l_pack old)%N eqn:Hlt; [apply N.ltb_lt in Hlt | apply N.ltb_ge in Hlt]; eexists; (split; [done |]);
        destruct Hor as [[= <-] | [= <-]]; lia.
    + exists l1. split; [done |]. destruct Hor as [[= <-] | ?]; [lia | done].
  - destruct Hor as [? | ->]; [done |]. by exists l.
Qed.

Lemma load_opening done done' s d s' d' t id es' : opening done s d → chosen d id t → shape s id = None →
  (∀ k, index s' !! k = index (foldl (λ s e, add e s) s (entries_at d (t, id))) !! k) →
  (∀ i, shape s' i = if (i =? id)%N then (λ file, (t, N.of_nat (length file))) <$> d_packs d' !! (t, id) else shape s i) →
  closed s' = closed s → active s' = active s → length (tiers s') = length (tiers s) →
  sound n asked d' → (∀ i, i ≠ id → agree d d' i) → (∀ x, is_Some (d_packs d' !! x) ↔ is_Some (d_packs d !! x)) →
  is_Some (d_hints d' !! (t, id)) → outlives d d' → (∀ x, done' x ↔ done x ∨ x = (t, id)) → entries_at d' (t, id) = es' →
  (∀ k l, index s' !! k = Some l → l_pack l = id → last_of k es' = Some l) → (∀ e, e ∈ es' → e ∈ entries_at d (t, id)) →
  (∀ k l, last_of k es' = Some l → is_Some (index s' !! k)) →
  opening done' s' d'.
Proof using.
  clear Hn. intros Ho Hc Hs Hi Hshape Hcl Hac Hti Hd' Hag Hsome Hhint Hout Hdone Hes' Hown Hsub Hin.
  destruct Ho as [Hd [Ofr1 Ofr2] Oti Opk Odo Oix Oco Oval Omo]. pose proof Hc as [[file Hf] _].
  assert (Forall (λ e, l_pack e.2 = id) (entries_at d (t, id))) as HF.
  { apply list.Forall_forall. intros [k l] Hkl. by destruct (entry_value n asked d (t, id) file k l Hd Hf Hkl). }
  assert (∀ k l, index s !! k = Some l → l_pack l ≠ id) as Hne.
  { intros k l Hk E. destruct (Oix _ _ Hk) as (t1 & sz & H1 & _). rewrite E, Hs in H1. done. }
  assert (∀ i t1, chosen d' i t1 ↔ chosen d i t1) as Hch.
  { intros i t1. unfold chosen. rewrite Hsome. split; intros [H1 H2]; (split; [done |]); intros t2 Ht2; specialize (H2 t2 Ht2);
      rewrite eq_None_not_Some in *; by rewrite Hsome in *. }
  assert (∀ i t1 sz, i ≠ id → shape s i = Some (t1, sz) → entries_at d' (t1, i) = entries_at d (t1, i)) as Hent.
  { intros i t1 sz Hi1 Hs1. destruct (Opk _ _ _ Hs1) as (_ & [Hp _] & _). destruct (Hag i Hi1 t1) as [E1 E2]. unfold entries_at.
    by rewrite E1, E2. }
  assert (∀ i t1 sz, shape s' i = Some (t1, sz) → (i = id ∧ t1 = t) ∨ (i ≠ id ∧ shape s i = Some (t1, sz))) as Hcase.
  { intros i t1 sz. rewrite Hshape. destruct (i =? id)%N eqn:E; [apply N.eqb_eq in E as -> | apply N.eqb_neq in E; by right].
    destruct (d_packs d' !! (t, id)); [intros [= <- _]; by left | done]. }
  split.
  - done.
  - by rewrite Hcl, Hac.
  - by rewrite Hti.
  - intros i t1 sz Hs1. destruct (Hcase _ _ _ Hs1) as [[-> ->] | [Hi1 Hs2]].
    + split_and!; [apply Hdone; by right | by apply Hch | done |]. rewrite Hshape, N.eqb_refl in Hs1.
      destruct (d_packs d' !! (t, id)) as [f |]; [| done]. injection Hs1 as <-. by exists f.
    + destruct (Opk _ _ _ Hs2) as (H1 & H2 & H3 & H4). destruct (Hag i Hi1 t1) as [E1 E2].
      split_and!; [apply Hdone; by left | by apply Hch | by rewrite E2 by apply H2 | by rewrite E1].
  - intros t1 i [Hx | [= -> ->]]%Hdone Hp; rewrite Hshape.
    + destruct (i =? id)%N eqn:E; [apply N.eqb_eq in E as -> | by apply (Odo t1), Hsome].
      apply Hsome in Hp. destruct (Odo _ _ Hx Hp) as [? E]. rewrite Hs in E. done.
    + rewrite N.eqb_refl. destruct Hp as [f ->]. by eexists.
  - intros k l Hk. destruct (loaded_index s s' id _ k l Hi HF Hne Hk) as [[El Hl] | (Hl & Hl1 & Hnew)].
    + exists t. rewrite El, Hshape, N.eqb_refl. destruct (proj2 (Hsome (t, id)) ltac:(by eexists)) as [f ->]. eexists. split; [done |].
      rewrite Hes'. split; [by apply Hown |]. intros i t1 sz Hs1 Hlt.
      destruct (Hcase _ _ _ Hs1) as [[-> _] | [Hi1 Hs2]]; [lia |]. rewrite (Hent i t1 sz Hi1 Hs2).
      destruct (last_of k (entries_at d (t1, i))) as [l1 |] eqn:E1; [| done].
      destruct (Oco _ _ _ _ _ Hs2 E1) as (l2 & Hl2 & Hle). rewrite Hi, (foldl_add_index id) in Hk by done.
      rewrite Hl, Hl2, (proj2 (N.ltb_lt _ _)) in Hk by lia. injection Hk as <-. lia.
    + destruct (Oix _ _ Hl) as (t1 & sz & H1 & H2 & H3). exists t1, sz. rewrite Hshape, (proj2 (N.eqb_neq _ _) Hl1). split; [done |].
      rewrite (Hent _ _ _ Hl1 H1). split; [done |]. intros i t2 sz2 Hs2 Hlt.
      destruct (Hcase _ _ _ Hs2) as [[-> ->] | [Hi1 Hs3]]; [| rewrite (Hent _ _ _ Hi1 Hs3); by eapply H3].
      rewrite Hes'. apply last_of_None. intros l1 Hl2%Hsub. pose proof (proj1 (last_of_None k _) (Hnew Hlt)) as Hno. by apply Hno in Hl2.
  - intros i t1 sz k l Hs1 Hl. destruct (Hcase _ _ _ Hs1) as [[-> ->] | [Hi1 Hs2]].
    + rewrite Hes' in Hl. destruct (Hin _ _ Hl) as [l' Hl']. exists l'. split; [done |].
      apply last_of_elem, Hsub, last_of_is_Some in Hl as [l1 Hl1].
      destruct (loaded_complete s s' id (entries_at d (t, id)) k l1 Hi HF (or_introl Hl1)) as (l2 & Hl2 & Hle).
      apply last_of_elem in Hl1. rewrite list.Forall_forall in HF. apply HF in Hl1. cbn in Hl1. assert (l2 = l') as -> by congruence. lia.
    + rewrite (Hent _ _ _ Hi1 Hs2) in Hl. destruct (Oco _ _ _ _ _ Hs2 Hl) as (l1 & Hl1 & Hle).
      destruct (loaded_complete s s' id (entries_at d (t, id)) k l1 Hi HF (or_intror Hl1)) as (l2 & Hl2 & Hle2). exists l2. split; [done | lia].
  - by eapply outlives_trans.
  - eapply no_more_trans; [exact Omo |]. apply (no_more_one d d' id t); [done | by apply Hch | done | by rewrite Hes'].
Qed.

(** the pack as [load] enters it *)
Definition entered (t : nat) (id : N) (size mtime : N) (s : store) : store := set_packs (<[id := Pack t size 0 mtime mtime]> (packs s)) s.
Lemma entered_shape t id size mtime s i : shape (entered t id size mtime s) i = if (i =? id)%N then Some (t, size) else shape s i.
Proof using.
  unfold shape, entered, set_packs. cbn [packs]. destruct (i =? id)%N eqn:E; [apply N.eqb_eq in E as -> | apply N.eqb_neq in E].
  - by rewrite lookup_insert_eq.
  - by rewrite lookup_insert_ne.
Qed.
Lemma entered_index t id size mtime s es k :
  index (foldl (λ s e, add e s) (entered t id size mtime s) es) !! k = index (foldl (λ s e, add e s) s es) !! k.
Proof using.
  induction es as [| e es IH] using rev_ind; [done |]. rewrite !foldl_app. cbn [foldl]. by rewrite !add_index, IH.
Qed.

Lemma load_sealed done done' s d t id : opening done s d → chosen d id t → shape s id = None → is_Some (d_hints d !! (t, id)) →
  (∀ x, done' x ↔ done x ∨ x = (t, id)) →
  ∃ s', load walk (fine (t, id)) t id s d = (s', d, true) ∧ opening done' s' d ∧ ∀ i, is_Some (shape s' i) ↔ is_Some (shape s i) ∨ i = id.
Proof using.
  clear Hn. intros Ho Hc Hs [hint Hh] Hdone. pose proof Hc as [[file Hf] _]. eexists. split.
  { unfold load. cbn [fine opened]. rewrite Hf, Hh. reflexivity. }
  set (mtime := default 0%N _). fold (entered t id (N.of_nat (length file)) mtime s). set (s0 := entered _ _ _ _ s).
  assert (entries_at d (t, id) = read_hints id (N.of_nat (length file)) hint) as Hent by (unfold entries_at; by rewrite Hf, Hh).
  rewrite <-Hent. set (s1 := foldl _ s0 _). pose proof (foldl_add_kept (entries_at d (t, id)) s0) as [K1 K2 K3 K4]. fold s1 in K1, K2, K3, K4.
  assert (∀ i, shape (set_total t (Z.of_N (N.of_nat (length file))) s1) i = if (i =? id)%N then Some (t, N.of_nat (length file)) else shape s i) as Hshape.
  { intros i. change (shape (set_total _ _ s1) i) with (shape s1 i). rewrite K1. apply entered_shape. }
  assert (∀ k, index (set_total t (Z.of_N (N.of_nat (length file))) s1) !! k = index (foldl (λ s e, add e s) s (entries_at d (t, id))) !! k) as Hidx
    by (intros k; apply entered_index).
  split.
  - pose proof Ho as [Hd _ _ _ _ Oix _ _ _]. assert (Forall (λ e, l_pack e.2 = id) (entries_at d (t, id))) as HF.
    { apply list.Forall_forall. intros [k l] Hkl. by destruct (entry_value n asked d (t, id) file k l Hd Hf Hkl). }
    assert (∀ k l, index s !! k = Some l → l_pack l ≠ id) as Hne.
    { intros k l Hk E. destruct (Oix _ _ Hk) as (t1 & sz & H1 & _). rewrite E, Hs in H1. done. }
    eapply (load_opening done done' s d _ d t id (entries_at d (t, id)) Ho Hc Hs Hidx); try done.
    + intros i. by rewrite Hshape, Hf.
    + unfold set_total. cbn [tiers]. by rewrite length_alter.
    + intros k l Hk Hl. by destruct (loaded_index s _ id _ k l Hidx HF Hne Hk) as [[_ ?] | (_ & ? & _)].
    + intros k l Hl. destruct (loaded_complete s _ id _ k l Hidx HF (or_introl Hl)) as (l' & -> & _). by eexists.
  - intros i. rewrite Hshape. destruct (i =? id)%N eqn:E; [apply N.eqb_eq in E as -> | apply N.eqb_neq in E; naive_solver].
    split; [by right | by eexists].
Qed.

(** a pack without a hint is cut and gets one *)
Lemma load_unsealed done done' s d t id : opening done s d → chosen d id t → shape s id = None → d_hints d !! (t, id) = None →
  (∀ x, done' x ↔ done x ∨ x = (t, id)) →
  ∃ s' d', load walk (fine (t, id)) t id s d = (s', d', true) ∧ opening done' s' d' ∧ (∀ i, is_Some (shape s' i) ↔ is_Some (shape s i) ∨ i = id) ∧
    ∀ x, is_Some (d_packs d' !! x) ↔ is_Some (d_packs d !! x).
Proof using Hn Hwalk.
  intros Ho Hc Hs Hno Hdone. pose proof Hc as [[file Hf] _]. pose proof Ho as [Hd _ _ _ _ Oix _ _ _].
  pose proof (trim_sound d id t file Hd Hc Hno Hf) as Htrim. cbv zeta in Htrim. destruct (scan_pack id file) as [es off] eqn:Hscan.
  set (d1 := if (off =? N.of_nat (length file))%N then d else write_pack (t, id) (take (N.to_nat off) file) d) in *.
  destruct Htrim as (Hd1 & -> & Hent1 & Hf1 & Hoff & Hch1 & Hag1 & Hh1 & Hsome1 & Hout1 & _).
  set (s1 := foldl (λ s e, add e s) (entered t id (N.of_nat (length file)) (default 0%N (d_mtimes d !! (t, id))) s) (entries_at d (t, id))).
  set (s2 := set_packs (alter (λ p, Pack (p_tier p) off (p_live p) (p_used p) (p_touched p)) id (packs s1)) s1).
  set (s3 := set_total t (Z.of_N off) s2).
  assert (∀ i, shape s3 i = if (i =? id)%N then Some (t, off) else shape s i) as Hshape.
  { intros i. change (shape s3 i) with (shape s2 i). unfold shape, s2, set_packs. cbn [packs].
    pose proof (kept_shape _ _ (foldl_add_kept (entries_at d (t, id)) (entered t id (N.of_nat (length file)) (default 0%N (d_mtimes d !! (t, id))) s)) i) as K.
    fold s1 in K. rewrite entered_shape in K. unfold shape in K. destruct (i =? id)%N eqn:E; [apply N.eqb_eq in E as -> | apply N.eqb_neq in E].
    - rewrite lookup_alter_eq. destruct (packs s1 !! id) as [p |]; [| done]. cbn in *. by injection K as ->.
    - by rewrite lookup_alter_ne. }
  set (hs := walk (own_entries s3 id)).
  assert (seal walk true id s3 d1 = (write_hint (t, id) (hint_bytes hs) d1, true)) as Hseal.
  { unfold seal. pose proof (Hshape id) as E. rewrite N.eqb_refl in E. unfold shape in E. destruct (packs s3 !! id) as [p |]; [| done].
    cbn in E. by injection E as -> _. }
  assert (∀ k, index s3 !! k = index (foldl (λ s e, add e s) s (entries_at d (t, id))) !! k) as Hidx by (intros k; apply entered_index).
  assert (Forall (λ e, l_pack e.2 = id) (entries_at d (t, id))) as HF.
  { apply list.Forall_forall. intros [k l] Hkl. by destruct (entry_value n asked d (t, id) file k l Hd Hf Hkl). }
  assert (∀ k l, index s !! k = Some l → l_pack l ≠ id) as Hne.
  { intros k l Hk E. destruct (Oix _ _ Hk) as (t1 & sz & H1 & _). rewrite E, Hs in H1. done. }
  assert (∀ k l, index s3 !! k = Some l → l_pack l = id → last_of k (entries_at d (t, id)) = Some l) as Hlast.
  { intros k l Hk Hl. by destruct (loaded_index s _ id _ k l Hidx HF Hne Hk) as [[_ ?] | (_ & ? & _)]. }
  assert (∀ e, e ∈ hs → e ∈ entries_at d (t, id)) as Hsub.
  { intros [k l] [Hk Hl]%(own_entries_elem walk Hwalk). by eapply last_of_elem, Hlast. }
  assert (d_hints d1 !! (t, id) = None) as Hno1 by (by rewrite Hh1).
  destruct (seal_sound n asked d1 id t hs Hd1 (proj2 (Hch1 _ _) Hc) Hno1) as (Hd2 & Hent2 & Hnew2); [by rewrite Hent1 |].
  set (d2 := write_hint (t, id) (hint_bytes hs) d1) in *.
  assert (∀ i, i ≠ id → agree d1 d2 i) as Hag2 by (intros i Hi t'; split; [done | intros _; cbn; by rewrite lookup_insert_ne by congruence]).
  exists s3, d2. split_and!.
  - unfold load. cbn [fine opened truncated sealed]. rewrite Hf, Hno, Hscan. cbn [negb]. rewrite andb_false_r.
    fold (entered t id (N.of_nat (length file)) (default 0%N (d_mtimes d !! (t, id))) s). fold s1. fold s2. fold s3. fold d1. by rewrite Hseal.
  - pose proof (foldl_add_kept (entries_at d (t, id)) (entered t id (N.of_nat (length file)) (default 0%N (d_mtimes d !! (t, id))) s)) as [_ K2 K3 K4].
    fold s1 in K2, K3, K4.
    eapply (load_opening done done' s d s3 d2 t id hs Ho Hc Hs Hidx); try done.
    + intros i. rewrite Hshape. destruct (i =? id)%N; [| done]. change (d_packs d2) with (d_packs d1). rewrite Hf1. cbn. by rewrite <-Hoff.
    + unfold s3, s2, set_total, set_packs. cbn [tiers]. by rewrite length_alter.
    + intros i Hi t'. destruct (Hag1 i Hi t') as [E1 E2]. destruct (Hag2 i Hi t') as [E3 E4]. rewrite E3, E1. split; [done |].
      intros Hp. rewrite E4 by (by rewrite E1). by apply E2.
    + cbn. rewrite lookup_insert_eq. by eexists.
    + intros k l v Hk Hv. destruct (Hout1 k l v Hk Hv) as [Hk1 Hv1]. split.
      * apply Hnew2; [done |]. intros Hl. apply own_entries_last; [done | | done].
        destruct Hk1 as [(es1 & (t1 & Hc1 & ->) & Hl1) Hnewer]. rewrite Hl in *. rewrite (chosen_unique _ _ _ _ Hc1 (proj2 (Hch1 _ _) Hc)), Hent1 in Hl1.
        rewrite Hidx, (foldl_add_index id) by done. rewrite Hl1. destruct (index s !! k) as [old |] eqn:Eo; [| done].
        destruct (id <? l_pack old)%N eqn:Hlt; [| done]. apply N.ltb_lt in Hlt. destruct (Oix _ _ Eo) as (t2 & sz & H1 & H2 & _).
        destruct (o_packs _ _ _ Ho _ _ _ H1) as (_ & Hc2 & _). destruct Hk as [_ Hnewest].
        rewrite (Hnewest (l_pack old) (entries_at d (t2, l_pack old))) in H2; [done | by exists t2 | lia].
      * eapply content_keeps; [| exact Hv1]. intros t1 f1 Hc1 Hf2. by exists t1, f1.
    + intros k l. by apply own_entries_last.
    + intros k l Hl. apply last_of_elem in Hl. apply (own_entries_elem walk Hwalk) in Hl as [Hk _]. by eexists.
  - intros i. rewrite Hshape. destruct (i =? id)%N eqn:E; [apply N.eqb_eq in E as -> | apply N.eqb_neq in E; naive_solver].
    split; [by right | by eexists].
  - exact Hsome1.
Qed.

(** a copy in a slower tier goes *)
Lemma drop_copy done done' s d t id : opening done s d → is_Some (shape s id) → ¬ done (t, id) →
  (∀ x, done' x ↔ done x ∨ x = (t, id)) →
  opening done' s (remove_hint (t, id) (remove_pack (t, id) d)).
Proof using.
  clear Hn. intros Ho [[t0 sz0] Hs] Hnd Hdone. pose proof Ho as [Hd Ofr Oti Opk Odo Oix Oco Oval Omo].
  destruct (Opk _ _ _ Hs) as (Hdn & Hc & Hh & file & Hf & _). assert (t0 ≠ t) as Ht by congruence.
  set (d1 := remove_pack (t, id) d). set (d2 := remove_hint (t, id) d1).
  assert (∀ x, x ≠ (t, id) → d_packs d1 !! x = d_packs d !! x) as Hother by (intros x Hx; cbn; by rewrite lookup_delete_ne).
  assert (d_packs d1 !! (t, id) = None) as Hgone by (cbn; by rewrite lookup_delete_eq).
  assert (chosen d1 id t0) as Hc1.
  { split; [rewrite Hother by congruence; by eexists |]. intros t' Hlt. destruct (decide (t' = t)) as [-> | Hx]; [done |].
    rewrite Hother by congruence. by apply Hc. }
  assert (sound n asked d1) as Hd1.
  { apply remove_pack_sound; [done | |].
    - intros t1 H1. rewrite (chosen_unique _ _ _ _ H1 Hc1). by left.
    - exists t0, id. split_and!; [congruence | done | by eexists]. }
  destruct (remove_hint_sound n asked d1 (t, id) Hd1 Hgone) as [Hd2 Hn2]. fold d2 in Hd2, Hn2.
  assert (∀ i t', chosen d2 i t' ↔ chosen d i t') as Hch.
  { intros i t'. change (chosen d2 i t') with (chosen d1 i t'). destruct (decide (i = id)) as [-> | Hi].
    - split; intros H; [by rewrite (chosen_unique _ _ _ _ H Hc1) | by rewrite (chosen_unique _ _ _ _ H Hc)].
    - apply (agree_chosen d d1). intros t1. split; [apply Hother; congruence | done]. }
  assert (∀ i t', chosen d i t' → d_packs d2 !! (t', i) = d_packs d !! (t', i) ∧ d_hints d2 !! (t', i) = d_hints d !! (t', i)) as Hsame.
  { intros i t' Hci. assert ((t', i) ≠ (t, id)) as Hx by (intros [= -> ->]; apply Ht; by eapply (chosen_unique d id)).
    split; [by apply Hother | cbn; by rewrite lookup_delete_ne]. }
  assert (∀ i t', chosen d i t' → entries_at d2 (t', i) = entries_at d (t', i)) as Hent.
  { intros i t' Hci. destruct (Hsame _ _ Hci) as [E1 E2]. unfold entries_at. by rewrite E1, E2. }
  assert (∀ i es, seen d2 i es ↔ seen d i es) as Hseen.
  { intros i es. unfold seen. apply exist_proper. intros t'. rewrite Hch. split; intros [H1 ->]; (split; [done |]); by rewrite Hent. }
  split; [done | done | done | | | | | |].
  - intros i t1 sz H1. destruct (Opk _ _ _ H1) as (H2 & H3 & H4 & H5). destruct (Hsame _ _ H3) as [E1 E2]. rewrite E1, E2.
    split_and!; [apply Hdone; by left | by apply Hch | done | done].
  - intros t1 i [Hx | [= -> ->]]%Hdone Hp.
    + apply (Odo t1); [done |]. destruct (decide ((t1, i) = (t, id))) as [[= -> ->] | Hne]; [by destruct (Hnd Hx) |].
      change (is_Some (d_packs d1 !! (t1, i))) in Hp. by rewrite Hother in Hp.
    + change (is_Some (d_packs d1 !! (t, id))) in Hp. rewrite Hgone in Hp. by destruct Hp.
  - intros k l Hk. destruct (Oix _ _ Hk) as (t1 & sz & H1 & H2 & H3). exists t1, sz. split; [done |].
    rewrite Hent by (by eapply Opk). split; [done |]. intros i t2 sz2 Hs2 Hlt. rewrite Hent by (by eapply Opk). by eapply H3.
  - intros i t1 sz k l Hs1. rewrite Hent by (by eapply Opk). by apply (Oco _ t1 sz).
  - eapply outlives_trans; [exact Oval |]. intros k l v Hk Hv. split.
    + revert Hk. apply newest_seen; [intros i es; by apply Hseen | intros es; by apply Hseen].
    + eapply content_keeps; [| exact Hv]. intros t1 f1 Hc2 Hf2. exists t1, f1. split_and!; [by apply Hch | by rewrite (proj1 (Hsame _ _ Hc2)) | done].
  - eapply no_more_trans; [exact Omo |]. intros k (i & es & Hse%Hseen & Hsm). by exists i, es.
Qed.

(** *** the directories *)

(** one file name *)
Lemma open_one_opening done done' s d last t id : opening done s d → is_Some (d_packs d !! (t, id)) → ¬ done (t, id) →
  (∀ t', t' < t → done (t', id)) → (∀ i, is_Some (shape s i) → (i ≤ last)%N) → (∀ x, done' x ↔ done x ∨ x = (t, id)) →
  let '(s', d', last') := open_one walk fine t (s, d, last) id in
  opening done' s' d' ∧ (∀ i, is_Some (shape s' i) → (i ≤ last')%N) ∧
  (∀ x, is_Some (d_packs d' !! x) → is_Some (d_packs d !! x)) ∧
  ∀ x, x ≠ (t, id) → is_Some (d_packs d' !! x) ↔ is_Some (d_packs d !! x).
Proof using Hn Hwalk.
  intros Ho Hp Hnd Hfast Hmax Hdone. unfold open_one. destruct (packs s !! id) as [p |] eqn:Epk.
  - rewrite bool_decide_eq_true_2 by (by eexists). split_and!; [| done | |].
    + eapply drop_copy; [done | | done | done]. unfold shape. rewrite Epk. by eexists.
    + intros x. cbn. by intros [? [_ H]%lookup_delete_Some].
    + intros x Hx. cbn. by rewrite lookup_delete_ne.
  - rewrite bool_decide_eq_false_2 by (by intros []). assert (shape s id = None) as Hs by (unfold shape; by rewrite Epk).
    assert (chosen d id t) as Hc.
    { split; [done |]. intros t' Hlt. apply eq_None_not_Some. intros H. destruct (o_done _ _ _ Ho t' id (Hfast _ Hlt) H) as [? E].
      by rewrite Hs in E. }
    destruct (d_hints d !! (t, id)) as [h |] eqn:Eh.
    + destruct (load_sealed done done' s d t id Ho Hc Hs ltac:(by eexists) Hdone) as (s' & -> & Ho' & Hsh). split_and!; [done | | done | done].
      intros i [Hi | ->]%Hsh; [apply Hmax in Hi |]; lia.
    + destruct (load_unsealed done done' s d t id Ho Hc Hs Eh Hdone) as (s' & d' & -> & Ho' & Hsh & Hsome). split_and!; [done | | by intros x ?%Hsome | by intros x _].
      intros i [Hi | ->]%Hsh; [apply Hmax in Hi |]; lia.
Qed.

Lemma open_ids_opening ids done done' s d last t : NoDup ids → opening done s d →
  (∀ id, id ∈ ids → is_Some (d_packs d !! (t, id)) ∧ ¬ done (t, id) ∧ ∀ t', t' < t → done (t', id)) →
  (∀ i, is_Some (shape s i) → (i ≤ last)%N) → (∀ x, done' x ↔ done x ∨ ∃ id, id ∈ ids ∧ x = (t, id)) →
  let '(s', d', last') := foldl (open_one walk fine t) (s, d, last) ids in
  opening done' s' d' ∧ (∀ i, is_Some (shape s' i) → (i ≤ last')%N) ∧
  ∀ x, is_Some (d_packs d' !! x) → is_Some (d_packs d !! x).
Proof using Hn Hwalk.
  intros Hnodup. revert done s d last. induction Hnodup as [| id ids Hid Hnodup IH]; intros done s d last Ho Hids Hmax Hdone.
  - cbn [foldl]. split_and!; [| done | done]. assert (∀ x, done' x ↔ done x) as E.
    { intros x. rewrite Hdone. split; [| by left]. intros [? | (id & Hx%elem_of_nil & _)]; done. }
    destruct Ho as [H1 H2 H3 H4 H5 H6 H7 H8 H9]. split; try done.
    + intros i t1 sz Hs. rewrite E. by apply (H4 i).
    + intros t1 i. rewrite E. apply H5.
  - cbn [foldl]. destruct (Hids id) as (Hp & Hnd & Hfast); [by left |].
    set (done1 := λ x, done x ∨ x = (t, id)).
    pose proof (open_one_opening done done1 s d last t id Ho Hp Hnd Hfast Hmax ltac:(done)) as H.
    destruct (open_one walk fine t (s, d, last) id) as [[s1 d1] last1]. destruct H as (Ho1 & Hmax1 & Hin1 & Hsome1).
    specialize (IH done1 s1 d1 last1 Ho1). destruct (foldl _ (s1, d1, last1) ids) as [[s2 d2] last2].
    destruct IH as (Ho2 & Hmax2 & Hsome2); [| done | |].
    + intros i Hi. assert (i ≠ id) as Hne by (by intros ->). destruct (Hids i) as (Hp' & Hnd' & Hfast'); [by right |].
      split_and!; [apply Hsome1; [congruence | done] | intros [? | [= ?]]; done | intros t' Ht'; left; by apply Hfast'].
    + intros x. rewrite Hdone. unfold done1. split.
      * intros [Hx | (i & [-> | Hi]%elem_of_cons & ->)]; [by left; left | by left; right | right; by exists i].
      * intros [[Hx | ->] | (i & Hi & ->)]; [by left | right; exists id; split; [by left | done] | right; exists i; split; [by right | done]].
    + split_and!; [done | done |]. intros x Hx%Hsome2. by apply Hin1.
Qed.

Lemma ids_in_elem d t id : id ∈ ids_in d t ↔ is_Some (d_packs d !! (t, id)).
Proof using.
  unfold ids_in. rewrite elem_of_elements, elem_of_map. split.
  - intros ([t' i] & -> & [E H]%elem_of_filter). cbn in *. subst t'. by apply elem_of_dom.
  - intros H. exists (t, id). split; [done |]. apply elem_of_filter. split; [done | by apply elem_of_dom].
Qed.

(** the tiers below [t] *)
Definition upper (t : nat) : nat * N → Prop := λ x, x.1 < t.
Lemma open_tiers_opening m s d last : opening (upper 0) s d → (∀ i, is_Some (shape s i) → (i ≤ last)%N) →
  let '(s', d', last') := foldl (open_tier walk by_name fine) (s, d, last) (seq 0 m) in
  opening (upper m) s' d' ∧ (∀ i, is_Some (shape s' i) → (i ≤ last')%N).
Proof using Hn Hwalk Hname.
  intros Ho Hmax. induction m as [| m IH]; [done |].
  rewrite seq_S, foldl_app. cbn [foldl]. destruct (foldl _ (s, d, last) (seq 0 m)) as [[s1 d1] last1]. destruct IH as [Ho1 Hmax1].
  unfold open_tier. cbn [fst snd Nat.add].
  assert (∀ id, id ∈ by_name (ids_in d1 m) ↔ is_Some (d_packs d1 !! (m, id))) as Hel by (intros id; rewrite Hname; apply ids_in_elem).
  (* the tier counts as done where it has a file *)
  pose proof (open_ids_opening (by_name (ids_in d1 m)) (upper m) (λ x, upper m x ∨ ∃ id, id ∈ by_name (ids_in d1 m) ∧ x = (m, id)) s1 d1 last1 m) as H.
  destruct (foldl (open_one walk fine m) (s1, d1, last1) (by_name (ids_in d1 m))) as [[s2 d2] last2].
  destruct H as (Ho2 & Hmax2 & Hsome2); [| exact Ho1 | | exact Hmax1 | done |].
  - rewrite Hname. apply NoDup_elements.
  - intros id Hid. apply Hel in Hid. split_and!; [done | unfold upper; cbn; lia | intros t' Ht'; exact Ht'].
  - split; [| done]. destruct Ho2 as [H1 H2 H3 H4 H5 H6 H7 H8 H9]. split; try done.
    + intros i t sz Hs. destruct (H4 _ _ _ Hs) as (Hdn & Hrest). split; [| done].
      destruct Hdn as [Hx | (id & _ & [= -> _])]; unfold upper in *; cbn in *; lia.
    + intros t i Ht Hp. apply (H5 t i); [| done]. unfold upper in Ht. cbn in Ht. destruct (decide (t = m)) as [-> | Hne].
      * right. exists i. split; [| done]. by apply Hel, Hsome2.
      * left. unfold upper. cbn. lia.
Qed.

(** ** Opening *)

Lemma OpenStore_holds now budgets : sound n asked d0 → length budgets = n →
  ∃ s d, OpenStore walk by_name fine true now budgets d0 = Some (s, d) ∧ holds n asked s d ∧ outlives d0 d ∧ closed s = false ∧
    (∀ k l, newest d0 k l → index s !! k = Some l) ∧ no_more d0 d ∧ ∀ k, says d k → is_Some (index s !! k).
Proof using Hn Hwalk Hname.
  intros Hd Hb. unfold OpenStore. set (s0 := Store _ ∅ ∅ None false).
  assert (opening (upper 0) s0 d0) as Ho.
  { split; [done | done | cbn; by rewrite length_map | done | | done | done | done | by intros k].
    intros t id Hx. unfold upper in Hx. cbn in Hx. lia. }
  pose proof (open_tiers_opening (length budgets) s0 d0 0%N Ho) as H.
  destruct (foldl _ (s0, d0, 0%N) _) as [[s d] last]. destruct H as [[Hd1 [Hcl Hac] Hti Hpk Hdo Hix Hco Hout Hmo] Hmax].
  { intros i. unfold shape. cbn. rewrite lookup_empty. by intros []. }
  assert (∀ t id, is_Some (d_packs d !! (t, id)) → is_Some (shape s id)) as Hall.
  { intros t id Hp. apply (Hdo t id); [| done]. unfold upper. cbn. rewrite Hb. by apply (s_tiers _ _ _ Hd1 t id). }
  assert (∀ k l, index s !! k = Some l → newest d k l) as Hnew.
  { intros k l Hk. destruct (Hix _ _ Hk) as (t & sz & H1 & H2 & H3). split.
    - eexists. split; [| done]. exists t. split; [by eapply Hpk | done].
    - intros id es (t' & Hc & ->) Hlt. destruct (Hall t' id) as [[t1 sz1] Hs1]; [apply Hc |].
      destruct (Hpk _ _ _ Hs1) as (_ & Hc1 & _). rewrite (chosen_unique _ _ _ _ Hc Hc1). by eapply H3. }
  assert (∀ k l, newest d k l → index s !! k = Some l) as Hcomp.
  { intros k l Hk. pose proof Hk as [(es & (t & Hc & ->) & Hl) Hn0]. destruct (Hall t (l_pack l)) as [[t1 sz1] Hs1]; [apply Hc |].
    destruct (Hpk _ _ _ Hs1) as (_ & Hc1 & _). rewrite (chosen_unique _ _ _ _ Hc Hc1) in Hl.
    destruct (Hco _ _ _ _ _ Hs1 Hl) as (l' & Hl' & _). rewrite Hl'. f_equal. by eapply newest_unique; [apply Hnew |]. }
  destruct (begin_holds n Hn asked s d now (last + 1) Hd1 Hti) as (Hnone & Hh & Hk & Hm & Hn2); [| done | done |].
  { intros id t size Hs. destruct (Hpk _ _ _ Hs) as (_ & Hc & Hhint & Hf). pose proof (Hmax id (mk_is_Some _ _ Hs)). split_and!; [lia | done..]. }
  exists (begun now (last + 1) s), (with_empty now (last + 1) d). split.
  { unfold rotate. rewrite Hac. cbn [negb orb]. rewrite bool_decide_eq_false_2; [done |]. rewrite Hnone. by intros []. }
  split_and!; [done | | done | | by eapply no_more_trans |].
  - eapply outlives_trans; [exact Hout |]. intros k l v Hkl Hv. split; [by apply Hn2 | by eapply content_keeps].
  - intros k l Hkl. apply Hcomp. destruct (newest_content _ _ _ _ _ Hd Hkl) as (v & Hv & _). by destruct (Hout k l v Hkl Hv).
  - intros k (id & es & (t & Hc & ->) & l & Hl)%Hm. destruct (Hall t id) as [[t1 sz] Hs]; [apply Hc |].
    destruct (Hpk _ _ _ Hs) as (_ & Hc1 & _). rewrite (chosen_unique _ _ _ _ Hc Hc1) in Hl. destruct (Hco _ _ _ _ _ Hs Hl) as (l' & Hl' & _).
    cbn. rewrite Hl'. by eexists.
Qed.
End Open.
