(* ===== verification/PackLife.v ===== *)
(** * The lives of a pack store (src/pkgs/ji/jigd/src/store.go)

    A store is opened, takes requests and moves its packs until its process stops, perhaps in the middle of a
    step, and is opened again on the files that are left; this is [life]. The files are those the process wrote:
    what an operating system loses that stops itself is not part of it. *)

From S2P Require Import Prelude PackFormat PackStore PackRecovery PackHistory PackOpen.

Section Lives.
Context (walk : list (str * loc) → list (str * loc)) (by_name : list N → list N).

(** the files when the process stops at rest or in a step: in a [Put] after any part of what it does, in an
    eviction or a switch between the two files that go *)
Inductive left_by (d : daemon) : option event → disk → Prop :=
| left_at_rest : left_by d None (dk d)
| left_in_put f now key size body :
    left_by d (Some (EPut f now key size body)) (Put walk f now key size body (st d) (dk d)).1.2
| left_in_evict ok id p : mv d = PackStore.Chosen id → packs (st d) !! id = Some p → S (p_tier p) = length (tiers (st d)) →
    left_by d (Some (EMovePack ok)) (remove_pack (p_tier p, id) (dk d))
| left_in_switch ok id p : mv d = HintMoved id → packs (st d) !! id = Some p →
    left_by d (Some (ESwitch ok)) (remove_pack (p_tier p, id) (set_mtime (S (p_tier p), id) (p_used p) (dk d))).

Definition asked_in (e : option event) : list (str * str) := match e with Some e => asked_by e | None => [] end.

(** everything a store with [n] tiers comes to, and what it was asked to put *)
Inductive life (n : nat) : list (str * str) → daemon → Prop :=
| life_new now budgets s k : length budgets = n → OpenStore walk by_name fine true now budgets (Disk ∅ ∅ ∅) = Some (s, k) →
    life n [] (Daemon s k Resting)
| life_step asked d e : life n asked d → mild_event e → life n (asked_by e ++ asked) (step walk e d)
| life_restart asked d e k now budgets s' k' : life n asked d → left_by d e k → length budgets = n →
    OpenStore walk by_name fine true now budgets k = Some (s', k') → life n (asked_in e ++ asked) (Daemon s' k' Resting).

Definition value (d : daemon) (key : str) : option str := value_of (st d) (dk d) key.

(** the key whose value a stop in a step may change or lose *)
Definition at_stake (d : daemon) (e : option event) (key : str) : Prop :=
  match e with
  | Some (EPut _ _ k _ _) => key = k
  | Some e => match evicts e d with Some id => l_pack <$> index (st d) !! key = Some id | None => False end
  | None => False
  end.

(** ** What stopping leaves *)

Context (Hwalk : ∀ es, walk es ≡ₚ es) (Hname : ∀ ids, by_name ids ≡ₚ ids) (n : nat) (Hn : 0 < n).

Lemma left_sound asked d e k : valid n asked d → left_by d e k →
  sound n (asked_in e ++ asked) k ∧
  ∀ key l v, index (st d) !! key = Some l → content (dk d) l v →
    (∃ l', newest k key l' ∧ content k l' v) ∨
    at_stake d e key ∧ match e with
      | Some (EPut _ _ _ size body) => ∃ l', newest k key l' ∧ content k l' (put_value size body)
      | _ => True
      end.
Proof using Hwalk Hn.
  intros [Hh Hm] Hleft. destruct Hleft as [| f now key size body | ok id p Hmv Hp Hlast | ok id p Hmv Hp]; cbn [asked_in asked_by app].
  - split; [apply Hh |]. intros key l v Hl Hv. left. exists l. split; [by apply (h_index _ _ _ _ Hh) | done].
  - destruct (bad_put key size) eqn:Hbad.
    { rewrite (Put_rejected walk f now key size body) by (unfold accepted; by rewrite Hbad). split; [apply Hh |].
      intros k l v Hl Hv. left. exists l. split; [by apply (h_index _ _ _ _ Hh) | done]. }
    destruct (Put_stopped walk Hwalk n Hn asked f now key size body _ _ Hh) as (Hk & Hothers & Hkeep & Hown). split; [exact Hk |].
    intros k1 l v Hl Hv. destruct (decide (k1 = key)) as [-> | Hne].
    + destruct Hown as [Hold | Hnew]; [left | right; by split]. exists l. split; [by apply Hold | by eapply content_keeps].
    + left. exists l. split; [by apply Hothers | by eapply content_keeps].
  - rewrite Hmv in Hm. destruct Hm as (t & size & Hs & Hne). pose proof Hs as Hs'. unfold shape in Hs'. rewrite Hp in Hs'.
    cbn in Hs'. injection Hs' as Ht _. rewrite Ht in *. rewrite (h_tiers _ _ _ _ Hh) in Hlast.
    destruct (evict_sound n Hn asked _ _ id t size Hh Hs Hne Hlast) as (Hk & _ & Hnew). split; [exact Hk |].
    intros key l v Hl Hv. destruct (decide (l_pack l = id)) as [<- | Hid].
    + right. split; [| done]. unfold at_stake, evicts. rewrite Hmv, Hp. cbn [fmap option_fmap option_map mbind option_bind].
      rewrite Ht, (h_tiers _ _ _ _ Hh), Hlast, Nat.eqb_refl. by rewrite Hl.
    + left. exists l. split; [by apply Hnew, (h_index _ _ _ _ Hh) |]. eapply content_keeps; [| exact Hv]. apply agree_keeps.
      intros t'. cbn. by rewrite lookup_delete_ne by congruence.
  - rewrite Hmv in Hm. destruct Hm as (t & size & Hs & Hne & Hcopy & Hhint). pose proof Hs as Hs'. unfold shape in Hs'. rewrite Hp in Hs'.
    cbn in Hs'. injection Hs' as Ht _. rewrite Ht in *.
    destruct (switch_sound n Hn asked _ _ id t size Hh Hs Hne Hcopy Hhint) as (Hk & _ & _ & Hnew & Hkeep & _).
    split; [by apply (mtime_sound n asked (remove_pack (t, id) (dk d)) (S t, id) (p_used p)) |].
    intros key l v Hl Hv. left. exists l. split; [by apply Hnew, (h_index _ _ _ _ Hh) |]. exact (content_keeps (dk d) (remove_pack (t, id) (dk d)) l v (Hkeep _) Hv).
Qed.

Lemma empty_sound : sound n [] (Disk ∅ ∅ ∅).
Proof using.
  assert (∀ x, ¬ is_Some ((∅ : gmap (nat * N) str) !! x)) as He by (intros x []; done).
  split; cbn [d_packs d_hints]; try done; intros; exfalso; naive_solver.
Qed.
Lemma life_valid asked d : life n asked d → valid n asked d.
Proof using Hwalk Hname Hn.
  induction 1 as [now budgets s k Hb Ho | asked d e Hd IH He | asked d e k now budgets s' k' Hd IH Hleft Hb Ho].
  - destruct (OpenStore_holds walk by_name Hwalk Hname n Hn [] _ now budgets empty_sound Hb) as (s1 & k1 & E & Hh & _).
    rewrite E in Ho. by injection Ho as <- <-.
  - by apply step_valid.
  - destruct (left_sound asked d e k IH Hleft) as [Hk _].
    destruct (OpenStore_holds walk by_name Hwalk Hname n Hn _ _ now budgets Hk Hb) as (s1 & k1 & E & Hh & _).
    rewrite E in Ho. by injection Ho as <- <-.
Qed.

(** what was asked for is within the limits of a Put *)
Lemma life_bounded asked d : life n asked d → Forall (λ e, Z.of_nat (length e.2) ≤ kMaxValue)%Z asked.
Proof using.
  clear Hn. assert (∀ e, Forall (λ x, Z.of_nat (length x.2) ≤ kMaxValue)%Z (asked_by e)) as Hby.
  { intros [f now key size body | | | | | |]; try apply Forall_nil_2. cbn [asked_by]. destruct (bad_put key size) eqn:Hb; [apply Forall_nil_2 |].
    pose proof (bad_put_bounds _ _ Hb) as [_ Hs]. repeat constructor. cbn [snd]. unfold put_value. rewrite length_take.
    change kMaxValue with (2 ^ 31)%Z. lia. }
  induction 1 as [| asked d e _ IH _ | asked d e k now budgets s' k' _ IH _ _ _]; [apply Forall_nil_2 | by apply Forall_app |].
  apply Forall_app. split; [destruct e; [apply Hby | apply Forall_nil_2] | done].
Qed.

(** every key of every pack is in the index: so it is as long as nothing was evicted *)
Definition complete (d : daemon) : Prop := ∀ key, says (dk d) key → is_Some (value d key).

Lemma index_value asked s d key : holds n asked s d → is_Some (index s !! key) → is_Some (value_of s d key).
Proof using. intros Hh [l Hl]. destruct (holds_index _ _ _ _ _ _ Hh Hl) as (v & -> & _). by eexists. Qed.
Lemma complete_step asked d e : life n asked d → mild_event e → evicts e d = None → complete d → complete (step walk e d).
Proof using Hwalk Hname Hn.
  intros Hd He Hno Hc key Hk. pose proof (life_valid _ _ Hd) as Hv. destruct (step_valid walk Hwalk n Hn asked e d Hv He) as [_ Hexp].
  unfold value. rewrite Hexp. unfold expected. rewrite Hno.
  destruct (step_says walk Hwalk n Hn asked e d Hv He key Hk) as [Hold | Hnew].
  - apply Hc in Hold. destruct e; try exact Hold. by destruct (_ && _).
  - destruct e; try done. destruct Hnew as [-> ->]. cbn [andb]. by rewrite bool_decide_eq_true_2.
Qed.

(** opened on empty directories, or again after a stop at rest *)
Lemma complete_new now budgets s k : length budgets = n → OpenStore walk by_name fine true now budgets (Disk ∅ ∅ ∅) = Some (s, k) →
  complete (Daemon s k Resting).
Proof using Hwalk Hname Hn.
  intros Hb Ho. destruct (OpenStore_holds walk by_name Hwalk Hname n Hn [] _ now budgets empty_sound Hb) as (s1 & k1 & E & Hh & _ & _ & _ & _ & Hc).
  rewrite E in Ho. injection Ho as <- <-. intros key Hk. by apply (index_value [] s1 k1 key Hh), Hc.
Qed.
Lemma restart_same asked d now budgets : life n asked d → length budgets = n → complete d →
  ∃ s' k', OpenStore walk by_name fine true now budgets (dk d) = Some (s', k') ∧ life n asked (Daemon s' k' Resting) ∧ closed s' = false ∧
    complete (Daemon s' k' Resting) ∧ ∀ key, value (Daemon s' k' Resting) key = value d key.
Proof using Hwalk Hname Hn.
  intros Hd Hb Hc. pose proof (life_valid _ _ Hd) as [Hh _].
  destruct (OpenStore_holds walk by_name Hwalk Hname n Hn _ _ now budgets (h_sound _ _ _ _ Hh) Hb) as (s' & k' & E & Hh' & Hout & Hcl & Hidx & Hmore & Hc').
  exists s', k'. split_and!; [done | exact (life_restart n asked d None (dk d) now budgets s' k' Hd (left_at_rest d) Hb E) | done | |].
  - intros key Hk. by apply (index_value asked s' k' key Hh'), Hc'.
  - intros key. unfold value. cbn [st dk]. destruct (value_of (st d) (dk d) key) as [v |] eqn:Ev.
    + destruct (value_of_index _ _ _ _ _ _ Hh Ev) as (l & Hl & Hv & _). pose proof (h_index _ _ _ _ Hh _ _ Hl) as Hnew.
      eapply content_value; [exact Hh' | by apply Hidx | by eapply Hout].
    + destruct (value_of s' k' key) as [v |] eqn:Ev'; [exfalso | done].
      destruct (value_of_index _ _ _ _ _ _ Hh' Ev') as (l & Hl & _). destruct (h_index _ _ _ _ Hh' _ _ Hl) as [(es & Hse & Hlast) _].
      destruct (Hc key) as [v' Hv']; [apply Hmore; exists (l_pack l), es; split; [done | by eexists] |]. unfold value in Hv'. congruence.
Qed.

(** after a stop and a new start *)
Lemma reopened asked d e k now budgets : life n asked d → left_by d e k → length budgets = n →
  ∃ s' k', OpenStore walk by_name fine true now budgets k = Some (s', k') ∧ life n (asked_in e ++ asked) (Daemon s' k' Resting) ∧
  ∀ key v, value d key = Some v → value (Daemon s' k' Resting) key = Some v ∨
    at_stake d e key ∧ match e with
      | Some (EPut _ _ _ size body) => value (Daemon s' k' Resting) key = Some (put_value size body)
      | _ => True
      end.
Proof using Hwalk Hname Hn.
  intros Hd Hleft Hb. pose proof (life_valid _ _ Hd) as Hv. destruct (left_sound asked d e k Hv Hleft) as [Hk Hkept].
  destruct (OpenStore_holds walk by_name Hwalk Hname n Hn _ _ now budgets Hk Hb) as (s' & k' & E & Hh & Hout & _ & Hidx & _).
  exists s', k'. split; [done |]. split; [by eapply life_restart |]. unfold value. cbn [st dk].
  assert (∀ key l v, newest k key l → content k l v → value_of s' k' key = Some v) as Hval.
  { intros key l v Hl Hc. eapply content_value; [exact Hh | by apply Hidx | by eapply Hout]. }
  intros key v Hkey. destruct (value_of_index _ _ _ _ _ _ (proj1 Hv) Hkey) as (l & Hl & Hc & _).
  destruct (Hkept key l v Hl Hc) as [(l' & H1 & H2) | [Hst Hrest]]; [left; by eapply Hval | right; split; [done |]].
  destruct e as [[] |]; try done. destruct Hrest as (l' & H1 & H2). by eapply Hval.
Qed.

(** ** A map that may forget *)

Inductive reply := Stored (ok : bool) | Read (v : option str) | Quiet.
Definition reply_to (e : event) (d : daemon) : reply :=
  match e with
  | EPut f now key size body => Stored (Put walk f now key size body (st d) (dk d)).2
  | EGet now key => Read (Get now key (st d) (dk d)).1.1
  | _ => Quiet
  end.

(** what a client may rely on: a stored value replaces the one under its key, a refused one changes nothing, a read
    gives what is there; only the demoter forgets *)
Inductive cache_step : gmap str str → event → reply → gmap str str → Prop :=
| cache_put m f now key size body : cache_step m (EPut f now key size body) (Stored true) (<[key := put_value size body]> m)
| cache_refuse m f now key size body : cache_step m (EPut f now key size body) (Stored false) m
| cache_get m now key : cache_step m (EGet now key) (Read (m !! key)) m
| cache_forget m ok (keys : gset str) : cache_step m (EMovePack ok) Quiet (filter (λ x, x.1 ∉ keys) m)
| cache_quiet m e : match e with EPut _ _ _ _ _ | EGet _ _ => False | _ => True end → cache_step m e Quiet m.

Definition represents (m : gmap str str) (d : daemon) : Prop := ∀ key, value d key = m !! key.

Lemma represents_step asked d e m : life n asked d → mild_event e → represents m d →
  ∃ m', cache_step m e (reply_to e d) m' ∧ represents m' (step walk e d).
Proof using Hwalk Hname Hn.
  intros Hd He Hm. pose proof (life_valid _ _ Hd) as Hv. destruct (step_valid walk Hwalk n Hn asked e d Hv He) as [_ Hexp].
  assert (∀ m', (∀ key, expected walk e d key = m' !! key) → represents m' (step walk e d)) as Hrep.
  { intros m' H key. unfold value. by rewrite Hexp. }
  destruct e as [f now key size body | now key | | ok | ok | ok | ok]; cbn [reply_to]; try (exists m; split; [by apply cache_quiet | by apply Hrep]).
  - destruct (Put walk f now key size body (st d) (dk d)).2 eqn:Eok; eexists; (split; [constructor |]); apply Hrep; intros k; cbn [expected].
    + rewrite Eok. cbn [andb]. case_bool_decide as Hk; [subst; by rewrite lookup_insert_eq | rewrite lookup_insert_ne by done; apply Hm].
    + rewrite Eok. apply Hm.
  - exists m. split; [| by apply Hrep]. destruct (Get_holds n asked now key _ _ (proj1 Hv)) as (_ & _ & _ & -> & _).
    change (value_of (st d) (dk d) key) with (value d key). rewrite Hm. constructor.
  - cbn [expected] in Hrep. destruct (evicts (EMovePack ok) d) as [id |] eqn:Ee; [| exists m; split; [by apply cache_quiet | by apply Hrep]].
    set (keys := dom (filter (λ x, l_pack x.2 = id) (index (st d)))). exists (filter (λ x, x.1 ∉ keys) m). split; [constructor |].
    assert (∀ k, k ∈ keys ↔ l_pack <$> index (st d) !! k = Some id) as Hkeys.
    { intros k. unfold keys. rewrite elem_of_dom. split.
      - intros [l [Hl Hid]%map_lookup_filter_Some]. cbn in Hid. by rewrite Hl, <-Hid.
      - destruct (index (st d) !! k) as [l |] eqn:El; [| done]. cbn. intros [= Hid]. exists l. by apply map_lookup_filter_Some. }
    apply Hrep. intros k. case_bool_decide as Hk.
    + symmetry. apply map_lookup_filter_None. right. intros v _ Hx. apply Hx. by apply Hkeys.
    + change (value_of (st d) (dk d) k) with (value d k). rewrite Hm. destruct (m !! k) as [v |] eqn:Ev; symmetry.
      * apply map_lookup_filter_Some. split; [done |]. cbn. by rewrite Hkeys.
      * apply map_lookup_filter_None. by left.
Qed.

(** without a fault a request that is not refused is stored *)
Definition no_fault : put_faults := PutFaults true true true None true.
Lemma Put_stores asked d now key size body : life n asked d → accepted no_fault key size body (st d) = true →
  (Put walk no_fault now key size body (st d) (dk d)).2 = true.
Proof using Hwalk Hname Hn.
  intros Hd Hacc. destruct (life_valid _ _ Hd) as [Hh _]. destruct (accepted_fits _ _ _ _ _ Hacc) as (_ & _ & Hrs & Hmax & Hcl & _).
  destruct (h_active _ _ _ _ Hh) as (a & es & Ha & _ & Hsa & _). unfold shape in Hsa.
  destruct (packs (st d) !! a) as [p |] eqn:Hp; [| done]. rewrite (Put_room walk no_fault now key size body _ _ a p Hacc Ha Hp). cbv zeta.
  rewrite <-Hrs. destruct (make_room_holds walk Hwalk n Hn asked no_fault now (record_size (key, put_value size body)) a p _ _ Hh Ha Hp Hcl Hmax)
    as [(d0 & E & _ & _ & _ & Hd0) | (s1 & d1 & a1 & file & -> & _)]; [| done].
  exfalso. unfold make_room in E. destruct (_ && _); [| done]. cbn [put_sealed put_created no_fault] in E.
  destruct (rotate_holds walk Hwalk n Hn asked _ _ a now Hh Ha Hcl) as (s' & d' & E' & _). by rewrite E' in E.
Qed.
End Lives.

(** ** Claims *)

(** C6. The pack store of jigd loses nothing when its process stops. Take any history of a store: opened on empty
    directories, requests with failing writes (cut off again) and failing moves, packs sealed, demoted and evicted, the process
    stopped at any point of any step and opened again, any number of times, with the index walked and the directory
    names visited in any order. Wherever it stops next, even with a record half written, between the two files of
    an eviction or between those of a demotion, the store opens again, and every value that a Get would have
    returned is returned after it, with two exceptions: the key of an interrupted Put has its old or its new value,
    and the pack that was being evicted may be gone. *)
Theorem pack_store_survives_stops (walk : list (str * loc) → list (str * loc)) (by_name : list N → list N) (n : nat)
    (Hwalk : ∀ es, walk es ≡ₚ es) (Hname : ∀ ids, by_name ids ≡ₚ ids) (Hn : 0 < n) asked d e k now budgets
    (Hlife : life walk by_name n asked d) (Hleft : left_by walk d e k) (Hb : length budgets = n) :
  ∃ s' k', OpenStore walk by_name fine true now budgets k = Some (s', k') ∧
    life walk by_name n (asked_in e ++ asked) (Daemon s' k' Resting) ∧
    ∀ key v, value d key = Some v → value (Daemon s' k' Resting) key = Some v ∨
      at_stake d e key ∧ match e with
        | Some (EPut _ _ _ size body) => value (Daemon s' k' Resting) key = Some (put_value size body)
        | _ => True
        end.
Proof. by apply (reopened walk by_name Hwalk Hname n Hn asked d e k now budgets). Qed.


(** ** A life *)

Definition as_is {A} (xs : list A) : list A := xs.
Definition sample_budgets : list Z := [20; 0]%Z.
Definition sample_open (k : disk) : daemon :=
  match OpenStore as_is as_is fine true 7 sample_budgets k with
  | Some (s, k) => Daemon s k Resting
  | None => Daemon (Store [] ∅ ∅ None false) k Resting
  end.
Definition sample_put (key body : string) : event := EPut no_fault 8 (lit key) (Z.of_nat (length (lit body))) (lit body).
Definition sample_first : daemon := step as_is (sample_put "key" "one") (sample_open (Disk ∅ ∅ ∅)).
Definition sample_steps : list event := [sample_put "other" "a longer value"; EPick; EMovePack true; EMoveHint true].
Definition run (es : list event) (d : daemon) : daemon := foldl (λ d e, step as_is e d) d es.
(** a restart seals the first pack; the next Put is too much for the fast tier, and the first pack is on its way down *)
Definition sample_moving : daemon := run sample_steps (sample_open (dk sample_first)).

Lemma sample_open_life asked d e k : life as_is as_is 2 asked d → left_by as_is d e k → life as_is as_is 2 (asked_in e ++ asked) (sample_open k).
Proof.
  intros Hd He. destruct (reopened as_is as_is ltac:(done) ltac:(done) 2 ltac:(lia) _ _ _ _ 7 sample_budgets Hd He eq_refl) as (s & k' & E & H & _).
  unfold sample_open. by rewrite E.
Qed.
Lemma run_life asked d es : life as_is as_is 2 asked d → Forall mild_event es → ∃ asked', life as_is as_is 2 asked' (run es d).
Proof.
  intros Hd HF. revert asked d Hd. induction HF as [| e es He HF IH]; intros asked d Hd; [by exists asked |].
  by eapply IH, (life_step as_is as_is 2).
Qed.
Lemma no_fault_mild : mild no_fault.
Proof. split; [done | intros H; by destruct H]. Qed.
Lemma sample_first_life : ∃ asked, life as_is as_is 2 asked sample_first.
Proof.
  eapply (run_life [] _ [sample_put "key" "one"]); [| repeat constructor; apply no_fault_mild].
  destruct (OpenStore_holds as_is as_is ltac:(done) ltac:(done) 2 ltac:(lia) [] _ 7 sample_budgets (empty_sound 2) eq_refl) as (s & k & E & _).
  unfold sample_open. rewrite E. by eapply (life_new as_is as_is 2 7 sample_budgets).
Qed.
Lemma sample_moving_life : ∃ asked, life as_is as_is 2 asked sample_moving.
Proof.
  destruct sample_first_life as [asked H]. eapply run_life; [eapply (sample_open_life _ _ None), left_at_rest; exact H |].
  repeat constructor; try done; apply no_fault_mild.
Qed.

(** the process stops between the two files of the demotion *)
Definition sample_pack : option pack := packs (st sample_moving) !! 1%N.
Lemma pack_store_survives_stops_witness : ∃ asked d k p, mv d = HintMoved 1 ∧ packs (st d) !! 1%N = Some p ∧
  left_by as_is d (Some (ESwitch true)) k ∧ value d "key" = Some (lit "one") ∧
  ∃ s' k', OpenStore as_is as_is fine true 9 sample_budgets k = Some (s', k') ∧
    life as_is as_is 2 (asked_in (Some (ESwitch true)) ++ asked) (Daemon s' k' Resting) ∧
    ∀ key v, value d key = Some v → value (Daemon s' k' Resting) key = Some v ∨ at_stake d (Some (ESwitch true)) key ∧ True.
Proof.
  destruct sample_moving_life as [asked Hlife].
  destruct (packs (st sample_moving) !! 1%N) as [p |] eqn:Hp; [| vm_compute in Hp; discriminate Hp].
  assert (mv sample_moving = HintMoved 1) as Hmv by (vm_compute; reflexivity).
  pose proof (left_in_switch as_is sample_moving true 1 p Hmv Hp) as Hleft.
  exists asked, sample_moving, (remove_pack (p_tier p, 1%N) (set_mtime (S (p_tier p), 1%N) (p_used p) (dk sample_moving))), p.
  split_and!; [exact Hmv | exact Hp | exact Hleft | vm_compute; reflexivity |].
  refine (pack_store_survives_stops as_is as_is 2 _ _ _ asked sample_moving _ _ 9 sample_budgets Hlife Hleft eq_refl); [done | done | lia].
Defined.

(** its keys *)
Definition sample_map : gmap str str := list_to_map [(lit "key", lit "one"); (lit "other", lit "a longer value")].
Lemma sample_represents : represents sample_map sample_moving.
Proof.
  intros k. unfold sample_map. cbn [list_to_map foldr fst snd uncurry]. destruct (decide (k = lit "key")) as [-> | H1]; [vm_compute; reflexivity |].
  destruct (decide (k = lit "other")) as [-> | H2]; [vm_compute; reflexivity |].
  rewrite !lookup_insert_ne, lookup_empty by congruence.
  assert (map_Forall (λ k _, k = lit "key" ∨ k = lit "other") (index (st sample_moving))) as HF.
  { apply (bool_decide_unpack _). vm_compute. done. }
  apply value_of_none. destruct (index (st sample_moving) !! k) as [l |] eqn:E; [| done]. by destruct (HF k l E).
Qed.
