(* ===== verification/PackServe.v ===== *)
(** * jigd over its pack store (src/pkgs/ji/jigd/src/main.go and store.go)

    The connection of Jigd with the store of PackStore behind it instead of a map: a GET is a [Get], a PUT a [Put]
    at the moment its last byte arrives, and the demoter works between the bytes. With a last tier without a
    budget, the default of a cold directory, no value is ever forgotten, and the client cannot tell the two apart. *)

From S2P Require Import Prelude Paths Base Keys CacheClient Jigd PackFormat PackStore PackRecovery PackHistory PackOpen PackLife.

Section Serve.
Context {e : env} (walk : list (str * loc) → list (str * loc)).

Record packed := Packed { q_phase : phase; q_store : daemon; q_held : gmap str nat }.

Definition q_goto (p : phase) (d : packed) : packed := Packed p (q_store d) (q_held d).
Definition q_answer (d : packed) (reply : str) : packed * str := (q_goto (InLine []) d, reply).
Definition q_hang_up (d : packed) : packed * str := (q_goto HungUp d, []).
(** a request to the store *)
Definition q_ask (ev : event) (d : packed) : packed * reply := (Packed (q_phase d) (step walk ev (q_store d)) (q_held d), reply_to walk ev (q_store d)).

Definition q_finish_put (now : N) (d : packed) (key body : str) : packed * str :=
  let '(d, r) := q_ask (EPut no_fault now key (Z.of_nat (length body)) body) d in
  match r with Stored true => q_answer d (lit "OK" ++ nl) | _ => q_hang_up d end.
Definition q_start_put (now : N) (d : packed) (key : str) (size : Z) : packed * str :=
  if bad_put key size then q_hang_up d
  else if (size =? 0)%Z then q_finish_put now d key []
  else (q_goto (InBody key (Z.to_nat size) []) d, []).
Definition q_get (now : N) (d : packed) (key : str) : packed * option str :=
  let '(d, r) := q_ask (EGet now key) d in (d, match r with Read v => v | _ => None end).

Definition q_dispatch (now : N) (d : packed) (line : str) : packed * str :=
  match Fields line with
  | [cmd; arg] =>
      if cmd == lit "GET" then let '(d, v) := q_get now d arg in q_answer d (get_reply v)
      else if cmd == lit "HAS" then
        let '(d, v) := q_get now d arg in q_answer d ((if bool_decide (is_Some v) then lit "1" else lit "0") ++ nl)
      else if cmd == lit "IDS" then
        match ParseInt arg with
        | None => q_hang_up d
        | Some count =>
            if ((count <? 0) || (2 ^ 20 <? count))%Z then q_hang_up d
            else if (count =? 0)%Z then q_answer d [] else (q_goto (InIds (Z.to_nat count) []) d, [])
        end
      else if cmd == lit "SLOT" then
        (Packed (InLine []) (q_store d) (<[arg := S (default 0 (q_held d !! arg))]> (q_held d)), lit "OK" ++ nl)
      else if cmd == lit "DONE" then
        (Packed (InLine []) (q_store d) (<[arg := pred (default 0 (q_held d !! arg))]> (q_held d)), lit "OK" ++ nl)
      else q_hang_up d
  | [cmd; key; size] =>
      if cmd == lit "PUT" then
        match ParseInt size with None => q_hang_up d | Some size => q_start_put now d key size end
      else q_hang_up d
  | [cmd] => if cmd == lit "STATS" then q_answer d (stats e ++ nl) else q_hang_up d
  | _ => q_hang_up d
  end.

Definition packed_byte (now : N) (d : packed) (c : ascii) : packed * str :=
  match q_phase d with
  | HungUp => (d, [])
  | InLine buf =>
      if c == chr_nl then q_dispatch now d buf
      else if (S (length buf) <? kBufSize)%nat then (q_goto (InLine (buf ++ [c])) d, []) else q_hang_up d
  | InBody key remaining body =>
      if (remaining <=? 1)%nat then q_finish_put now d key (body ++ [c])
      else (q_goto (InBody key (pred remaining) (body ++ [c])) d, [])
  | InIds remaining buf =>
      if c == chr_nl then
        (q_goto (if (remaining <=? 1)%nat then InLine [] else InIds (pred remaining) []) d, idents e buf ++ nl)
      else if (S (length buf) <? kBufSize)%nat then (q_goto (InIds remaining (buf ++ [c])) d, []) else q_hang_up d
  end.

(** what the demoter does between two bytes *)
Definition background (ev : event) : bool :=
  match ev with EPick | EMovePack _ | EMoveHint _ | ESwitch _ => true | _ => false end.
Definition demote (evs : list event) (d : packed) : packed :=
  Packed (q_phase d) (foldl (λ s ev, step walk ev s) (q_store d) evs) (q_held d).

(** bytes with the steps of the demoter before them and the time they arrive *)
Fixpoint packed_feed (d : packed) (input : list (list event * N * ascii)) : packed * str :=
  match input with
  | [] => (d, [])
  | (evs, now, c) :: input =>
      let '(d1, r1) := packed_byte now (demote evs d) c in
      let '(d2, r2) := packed_feed d1 input in (d2, r1 ++ r2)
  end.

(** ** Without a budget nothing is forgotten *)

Context (by_name : list N → list N) (Hwalk : ∀ es, walk es ≡ₚ es) (Hname : ∀ ids, by_name ids ≡ₚ ids) (n : nat) (Hn : 0 < n).

Definition unbounded (d : daemon) : Prop :=
  (∃ b, last (t_budget <$> tiers (st d)) = Some b ∧ (b ≤ 0)%Z) ∧
  ∀ id t size, mv d = PackStore.Chosen id → shape (st d) id = Some (t, size) → S t ≠ length (tiers (st d)).

Lemma set_total_budgets t m s : t_budget <$> tiers (set_total t m s) = t_budget <$> tiers s.
Proof using.
  apply list_eq. intros i. rewrite !list_lookup_fmap. unfold set_total. cbn [tiers]. destruct (decide (i = t)) as [-> | Hi].
  - rewrite list_lookup_alter_eq. by destruct (tiers s !! t).
  - by rewrite list_lookup_alter_ne.
Qed.
Lemma rotate_budgets ok1 ok2 now a s d : t_budget <$> tiers (rotate walk ok1 ok2 now a s d).1.1 = t_budget <$> tiers s.
Proof using.
  unfold rotate. destruct (active s); [destruct (seal _ _ _ _ _) as [d' []] |]; cbn [negb fst snd]; try done; by destruct (_ || _).
Qed.
Lemma Put_budgets f now key size body s d : t_budget <$> tiers (Put walk f now key size body s d).1.1 = t_budget <$> tiers s.
Proof using.
  unfold Put. destruct (bad_put key size); [done |]. destruct (_ || _); [done |]. destruct (closed s); [done |].
  destruct (active s) as [a |]; [| done]. destruct (packs s !! a) as [p |]; [| done].
  pose proof (rotate_budgets (put_sealed f) (put_created f) now (a + 1)%N s d) as Hr. destruct (_ && _).
  - destruct (rotate walk _ _ now _ s d) as [[s1 d1] []]; cbn [negb fst] in *; [| done].
    destruct (written f); cbn [fst]; [done |]. by rewrite set_total_budgets.
  - cbn [negb]. destruct (written f); cbn [fst]; [done |]. by rewrite set_total_budgets.
Qed.
Lemma step_budgets ev d : t_budget <$> tiers (st (step walk ev d)) = t_budget <$> tiers (st d).
Proof using.
  destruct d as [s k m]. destruct ev as [f now key size body | now key | | ok | ok | ok | ok]; cbn [step].
  - pose proof (Put_budgets f now key size body s k) as H. by destruct (Put walk f now key size body s k) as [[]].
  - unfold Get. destruct (index s !! key) as [l |]; [| done]. by destruct (packs s !! l_pack l).
  - by destruct m.
  - destruct m; try done. destruct (packs s !! id); [| done]. destruct (_ =? _)%nat; [unfold evict; cbn [st]; by rewrite set_total_budgets |].
    by destruct (moveFile _ _ _ _).
  - destruct m; try done. destruct (packs s !! id); [| done]. by destruct (moveFile _ _ _ _).
  - destruct m; try done. destruct (packs s !! id); [| done]. destruct ok; [| done]. cbn [st switch]. by rewrite !set_total_budgets.
  - destruct (if closed s then None else active s); [| done]. done.
Qed.

(** the demoter takes a pack from a tier that has a budget *)
Lemma victim_budget s id : victim s = Some id → ∃ t size b, shape s id = Some (t, size) ∧ (t_budget <$> tiers s) !! t = Some b ∧ (0 < b)%Z.
Proof using.
  unfold victim. assert (∀ ts t, (∀ i, tiers s !! (t + i)%nat = ts !! i) → victim_from s t ts = Some id →
    ∃ t size b, shape s id = Some (t, size) ∧ (t_budget <$> tiers s) !! t = Some b ∧ (0 < b)%Z) as H; [| by apply H].
  induction ts as [| x ts IH]; intros t Ht; cbn [victim_from]; [done |].
  assert (∀ i, tiers s !! (S t + i)%nat = ts !! i) as Ht' by (intros i; rewrite Nat.add_succ_comm; apply (Ht (S i))).
  destruct (_ || _) eqn:Eb; [by apply IH |]. destruct (candidates s t) as [| y out] eqn:Ec; [by apply IH |]. intros [= <-].
  apply orb_false_iff in Eb as [Eb _]. apply Z.leb_gt in Eb.
  pose proof (first_of_elem y out) as Hin. rewrite <-Ec in Hin. unfold candidates in Hin. destruct (first_of y out) as [i p].
  apply list_elem_of_filter in Hin as [[Hpt _] Hp%elem_of_map_to_list]. cbn [fst snd] in *.
  exists t, (p_size p), (t_budget x). split_and!; [unfold shape; by rewrite Hp, <-Hpt | | done].
  specialize (Ht 0). rewrite Nat.add_0_r in Ht. by rewrite list_lookup_fmap, Ht.
Qed.

Lemma unbounded_step asked d ev : life walk by_name n asked d → mild_event ev → unbounded d → unbounded (step walk ev d).
Proof using Hwalk Hname Hn.
  intros Hl He [(b & Hb & Hb0) Hm]. pose proof (life_valid walk by_name Hwalk Hname n Hn _ _ Hl) as [Hh Hmv].
  pose proof (step_budgets ev d) as Hbs. split; [exists b; by rewrite Hbs |].
  assert (length (tiers (st (step walk ev d))) = length (tiers (st d))) as Hlen.
  { apply (f_equal length) in Hbs. by rewrite !length_fmap in Hbs. }
  intros id t size Hid Hs. rewrite Hlen. clear Hlen Hbs. destruct d as [s k m].
  destruct ev as [f now key sz body | now key | | ok | ok | ok | ok]; cbn [step st dk mv] in *.
  - destruct (h_active _ _ _ _ Hh) as (a & es & Ha & Hmax & _).
    pose proof (Put_quiet walk f now key sz body s k a id Ha) as Hq. destruct (Put walk f now key sz body s k) as [[s1 k1] ok].
    cbn [st mv fst snd] in *. subst m. destruct Hmv as (t0 & sz0 & Hs0 & Hne). destruct Hq as (Hq & _).
    { pose proof (Hmax id (mk_is_Some _ _ Hs0)). assert (id ≠ a) by congruence. lia. }
    apply (Hm id t size eq_refl). by rewrite <-Hq.
  - destruct (Get_holds n asked now key s k Hh) as (_ & _ & _ & _ & Hk). destruct (Get now key s k) as [[v s1] k1]. cbn [st mv fst snd] in *.
    apply (Hm id t size Hid). by rewrite <-(kept_shape _ _ Hk).
  - destruct m; cbn [st mv] in *; try done; [| by apply (Hm id t size)]. destruct (victim s) as [id' |] eqn:Ev; [| done]. injection Hid as ->.
    destruct (victim_budget _ _ Ev) as (t' & sz' & b' & Hs' & Hb' & Hpos). rewrite Hs' in Hs. injection Hs as -> _.
    intros Hlast. rewrite last_lookup, length_fmap, <-Hlast in Hb. cbn in Hb. rewrite Hb' in Hb. injection Hb as ->. lia.
  - destruct m; cbn [st mv] in *; try done. destruct (packs s !! id0) as [p |] eqn:Hp; [| exact (Hm id t size Hid Hs)].
    destruct (_ =? _)%nat; [done |]. by destruct (moveFile _ _ _ _).
  - destruct m; cbn [st mv] in *; try done; [by apply (Hm id t size) |].
    destruct (packs s !! id0) as [p |] eqn:Hp; [| done]. by destruct (moveFile _ _ _ _).
  - destruct m; cbn [st mv] in *; try done; [by apply (Hm id t size) |].
    destruct (packs s !! id0) as [p |] eqn:Hp; [| done]. by destruct ok.
  - destruct (if closed s then None else active s); [| by apply (Hm id t size)]. cbn [st mv] in *. by apply (Hm id t size).
Qed.

Lemma unbounded_evicts ev d : unbounded d → evicts ev d = None.
Proof using.
  intros [_ H]. destruct ev; try done. cbn [evicts]. destruct (mv d) eqn:Em; try done. destruct (packs (st d) !! id) as [p |] eqn:Hp; [| done].
  cbn [fmap option_fmap option_map mbind option_bind]. destruct (_ =? _)%nat eqn:E; [| done]. apply Nat.eqb_eq in E.
  exfalso. apply (H id (p_tier p) (p_size p) eq_refl); [| done]. unfold shape. by rewrite Hp.
Qed.

Definition after_event (ev : event) (r : reply) (m : gmap str str) : gmap str str :=
  match ev, r with EPut _ _ key size body, Stored true => <[key := put_value size body]> m | _, _ => m end.
Lemma represents_unbounded asked d ev m : life walk by_name n asked d → mild_event ev → unbounded d → represents m d →
  represents (after_event ev (reply_to walk ev d) m) (step walk ev d).
Proof using Hwalk Hname Hn.
  intros Hl He Hu Hm key. pose proof (life_valid walk by_name Hwalk Hname n Hn _ _ Hl) as Hv.
  destruct (step_valid walk Hwalk n Hn asked ev d Hv He) as [_ Hexp]. unfold value. rewrite Hexp. unfold expected.
  rewrite (unbounded_evicts ev d Hu). change (value_of (st d) (dk d) key) with (value d key). rewrite Hm.
  destruct ev as [f now k size body | | | | | |]; cbn [after_event reply_to]; try done.
  destruct (Put walk f now k size body (st d) (dk d)).2; cbn [andb]; [| done].
  case_bool_decide as Hk; [subst; by rewrite lookup_insert_eq | by rewrite lookup_insert_ne].
Qed.

Lemma closed_step ev d : match ev with EClose _ => False | _ => True end → closed (st d) = false → closed (st (step walk ev d)) = false.
Proof using.
  destruct d as [s k m]. intros He Hc. cbn [st] in Hc. destruct ev as [f now key size body | now key | | ok | ok | ok | ok]; cbn [step]; try done.
  - unfold Put, rotate. repeat (case_match; cbn [st closed set_total set_packs point] in *; try done); naive_solver.
  - unfold Get. by destruct (index s !! key) as [l |]; [destruct (packs s !! l_pack l) |].
  - by destruct m.
  - destruct m; try done. destruct (packs s !! id); [| done]. destruct (_ =? _)%nat; [done |]. by destruct (moveFile _ _ _ _).
  - destruct m; try done. destruct (packs s !! id); [| done]. by destruct (moveFile _ _ _ _).
  - destruct m; try done. destruct (packs s !! id); [| done]. by destruct ok.
Qed.

(** ** The two daemons side by side *)

(** a body that is on its way was announced with a length that [Put] takes *)
Definition expected_body (p : phase) : Prop :=
  match p with InBody key remaining body => bad_put key (Z.of_nat (length body + remaining)) = false ∧ 0 < remaining | _ => True end.
Record alike (asked : list (str * str)) (j : jigd e) (q : packed) : Prop := Alike {
  al_phase : q_phase q = j_phase j;
  al_held : q_held q = j_held j;
  al_store : represents (j_store j) (q_store q);
  al_life : life walk by_name n asked (q_store q);
  al_unbounded : unbounded (q_store q);
  al_open : closed (st (q_store q)) = false;
  al_body : expected_body (j_phase j);
  al_complete : complete (q_store q)
}.

Lemma alike_goto asked j q p : expected_body p → alike asked j q → alike asked (goto p j) (q_goto p q).
Proof using. intros Hp [H1 H2 H3 H4 H5 H6 H7 H8]. by split. Qed.

Lemma alike_ask asked j q ev : alike asked j q → mild_event ev → match ev with EClose _ => False | _ => True end →
  let '(q', r) := q_ask ev q in
  r = reply_to walk ev (q_store q) ∧
  alike (asked_by ev ++ asked) (Jigd (j_phase j) (after_event ev r (j_store j)) (j_held j)) q'.
Proof using Hwalk Hname Hn.
  intros [H1 H2 H3 H4 H5 H6 H7 H8] He Hc. split; [done |]. split; try done; cbn [q_store j_store j_phase].
  - by apply (represents_unbounded asked).
  - by apply life_step.
  - by apply (unbounded_step asked).
  - by apply closed_step.
  - apply (complete_step walk by_name Hwalk Hname n Hn asked); [done | done | by apply unbounded_evicts | done].
Qed.

Lemma alike_get asked j q now key : alike asked j q →
  let '(q', v) := q_get now q key in v = j_store j !! key ∧ alike asked j q'.
Proof using Hwalk Hname Hn.
  intros Ha. pose proof (alike_ask asked j q (EGet now key) Ha I I) as H. unfold q_get. destruct (q_ask (EGet now key) q) as [q' r].
  destruct H as [-> H]. cbn [after_event asked_by app reply_to] in *. split; [| by destruct j].
  destruct (life_valid walk by_name Hwalk Hname n Hn _ _ (al_life _ _ _ Ha)) as [Hh _].
  destruct (Get_holds n asked now key _ _ Hh) as (_ & _ & _ & -> & _). apply (al_store _ _ _ Ha).
Qed.

Lemma alike_put asked j q now key body : alike asked j q → bad_put key (Z.of_nat (length body)) = false →
  let '(q', r) := q_finish_put now q key body in
  (q_phase q' = InLine [] ∧ r = lit "OK" ++ nl) ∧ alike ((key, body) :: asked) (finish_put j key body).1 q'.
Proof using Hwalk Hname Hn.
  intros Ha Hb. pose proof (alike_ask asked j q (EPut no_fault now key (Z.of_nat (length body)) body) Ha no_fault_mild I) as H.
  unfold q_finish_put. destruct (q_ask _ q) as [q' r]. destruct H as [-> H].
  assert (accepted no_fault key (Z.of_nat (length body)) body (st (q_store q)) = true) as Hacc.
  { unfold accepted. rewrite Hb, (al_open _ _ _ Ha), Z.leb_refl. cbn [spooled no_fault]. by rewrite orb_true_r. }
  pose proof (Put_stores walk by_name Hwalk Hname n Hn asked (q_store q) now _ _ _ (al_life _ _ _ Ha) Hacc) as Hok.
  cbn [reply_to] in *. rewrite Hok in *. cbn [after_event asked_by app] in H. rewrite Hb in H. unfold put_value in H. rewrite Nat2Z.id, firstn_all in H.
  split; [done |]. by apply (alike_goto _ _ _ (InLine []) I) in H.
Qed.

Lemma start_put_alike asked j q now key size : alike asked j q →
  let '(q', r) := q_start_put now q key size in
  ∃ asked', r = (start_put j key size).2 ∧ alike asked' (start_put j key size).1 q'.
Proof using Hwalk Hname Hn.
  intros Ha. unfold q_start_put, start_put. change (Z.of_N kMaxObjectSize) with kMaxValue. change 4096 with kMaxKey. fold (bad_put key size).
  destruct (bad_put key size) eqn:Hb; [exists asked; split; [done | by apply alike_goto] |].
  pose proof (bad_put_bounds _ _ Hb) as [_ Hsz]. destruct (size =? 0)%Z eqn:Hz.
  - apply Z.eqb_eq in Hz as ->. pose proof (alike_put asked j q now key [] Ha Hb) as H. destruct (q_finish_put now q key []) as [q' r].
    destruct H as [[_ ->] H]. by eexists.
  - apply Z.eqb_neq in Hz. exists asked. split; [done |]. apply alike_goto; [| done]. cbn. split; [| lia]. by rewrite Z2Nat.id by lia.
Qed.

Lemma dispatch_alike asked j q now line : alike asked j q →
  let '(q', r) := q_dispatch now q line in ∃ asked', r = (dispatch j line).2 ∧ alike asked' (dispatch j line).1 q'.
Proof using Hwalk Hname Hn.
  intros Ha. unfold q_dispatch, dispatch. destruct (Fields line) as [| cmd [| arg [| key' [| ? ?]]]];
    try (exists asked; split; [done | by apply alike_goto]).
  - destruct (cmd == lit "STATS"); exists asked; (split; [done | by apply alike_goto]).
  - destruct (cmd == lit "GET").
    { pose proof (alike_get asked j q now arg Ha) as H. destruct (q_get now q arg) as [q' v]. destruct H as [-> H]. exists asked.
      split; [done | by apply alike_goto]. }
    destruct (cmd == lit "HAS").
    { pose proof (alike_get asked j q now arg Ha) as H. destruct (q_get now q arg) as [q' v]. destruct H as [-> H]. exists asked.
      split; [done | by apply alike_goto]. }
    destruct (cmd == lit "IDS").
    { destruct (ParseInt arg) as [count |]; [| exists asked; split; [done | by apply alike_goto]].
      destruct (_ || _); [exists asked; split; [done | by apply alike_goto] |].
      destruct (count =? 0)%Z; exists asked; (split; [done | by apply alike_goto]). }
    destruct Ha as [H1 H2 H3 H4 H5 H6 H7 H8].
    destruct (cmd == lit "SLOT"); [exists asked; split; [done | split; try done; cbn; by rewrite H2] |].
    destruct (cmd == lit "DONE"); [exists asked; split; [done | split; try done; cbn; by rewrite H2] |].
    exists asked; split; [done | by apply alike_goto].
  - destruct (cmd == lit "PUT"); [| exists asked; split; [done | by apply alike_goto]].
    destruct (ParseInt key') as [size |]; [by apply (start_put_alike asked) | exists asked; split; [done | by apply alike_goto]].
Qed.

Lemma byte_alike asked j q now c : alike asked j q →
  let '(q', r) := packed_byte now q c in ∃ asked', r = (feed_byte j c).2 ∧ alike asked' (feed_byte j c).1 q'.
Proof using Hwalk Hname Hn.
  intros Ha. unfold packed_byte, feed_byte. rewrite (al_phase _ _ _ Ha). pose proof (al_body _ _ _ Ha) as Hbody.
  destruct (j_phase j) as [buf | key remaining body | remaining buf |].
  - destruct (c == chr_nl); [by apply (dispatch_alike asked) |]. destruct (_ <? _)%nat; exists asked; (split; [done | by apply alike_goto]).
  - destruct Hbody as [Hb Hpos]. destruct (remaining <=? 1)%nat eqn:E.
    + apply Nat.leb_le in E. pose proof (alike_put asked j q now key (body ++ [c]) Ha) as H. destruct (q_finish_put now q key (body ++ [c])) as [q' r].
      destruct H as [[_ ->] H]; [| by eexists]. rewrite length_app. cbn [length]. by replace (length body + 1) with (length body + remaining) by lia.
    + apply Nat.leb_gt in E. exists asked. split; [done |]. apply alike_goto; [| done]. cbn [expected_body]. rewrite length_app. cbn [length].
      split; [| lia]. by replace (length body + 1 + pred remaining) with (length body + remaining) by lia.
  - destruct (c == chr_nl); [| destruct (_ <? _)%nat; exists asked; (split; [done | by apply alike_goto])].
    destruct (_ <=? _)%nat; exists asked; (split; [done | by apply alike_goto]).
  - by exists asked.
Qed.

Lemma demote_alike asked j q evs : alike asked j q → Forall (λ ev, background ev = true) evs → ∃ asked', alike asked' j (demote evs q).
Proof using Hwalk Hname Hn.
  intros Ha HF. revert asked q Ha. induction HF as [| ev evs He HF IH]; intros asked q Ha; [exists asked; by destruct q |].
  assert (mild_event ev ∧ match ev with EClose _ => False | _ => True end ∧ ∀ r m, after_event ev r m = m) as (H1 & H2 & H3) by (by destruct ev).
  pose proof (alike_ask asked j q ev Ha H1 H2) as H. unfold q_ask in H. destruct H as [_ H]. rewrite H3 in H.
  assert (Jigd (j_phase j) (j_store j) (j_held j) = j) as E by (by destruct j). rewrite E in H. destruct (IH _ _ H) as [asked' H'].
  by exists asked'.
Qed.

Lemma feed_alike asked j q input : alike asked j q → Forall (λ x, Forall (λ ev, background ev = true) x.1.1) input →
  let '(q', r) := packed_feed q input in ∃ asked', r = (jigd_feed j (input.*2)).2 ∧ alike asked' (jigd_feed j (input.*2)).1 q'.
Proof using Hwalk Hname Hn.
  intros Ha HF. revert asked j q Ha. induction HF as [| [[evs now] c] input He HF IH]; intros asked j q Ha; cbn [packed_feed fmap list_fmap jigd_feed fst snd] in *.
  - by exists asked.
  - destruct (demote_alike asked j q evs Ha He) as [asked1 Ha1]. pose proof (byte_alike asked1 j (demote evs q) now c Ha1) as Hb.
    destruct (packed_byte now (demote evs q) c) as [q1 r1]. destruct (feed_byte j c) as [j1 s1]. destruct Hb as (asked2 & -> & Ha2).
    cbn [fst snd] in *. pose proof (IH asked2 j1 q1 Ha2) as Hf. destruct (packed_feed q1 input) as [q2 r2]. destruct (jigd_feed j1 _) as [j2 s2].
    destruct Hf as (asked3 & -> & Ha3). by exists asked3.
Qed.
End Serve.

(** ** Starting *)

Definition int64_of (z : Z) : Z := ((z + 2 ^ 63) mod 2 ^ 64 - 2 ^ 63)%Z.
Definition gib (env : str) (def : Z) : Z :=
  match ParseInt env with Some k => int64_of (Z.shiftl k 30) | None => Z.shiftl def 30 end.
(** the directories of the tiers and their budgets; the arguments are the variables of the environment *)
Definition tiers_of (cache jigd_size jigd_cold jigd_cold_size : str) : list (str * Z) :=
  (cache /p/ "jigd" /p/ "packs", gib jigd_size 50) :: if jigd_cold == [] then [] else [(jigd_cold, gib jigd_cold_size 0)].

(** a cold directory whose size is not set takes everything *)
Lemma cold_unbounded cache jigd_size jigd_cold : jigd_cold ≠ [] → last ((tiers_of cache jigd_size jigd_cold []).*2) = Some 0%Z.
Proof. intros H. unfold tiers_of. by rewrite bool_decide_eq_false_2. Qed.

Section Start.
Context {e : env} (walk : list (str * loc) → list (str * loc)) (by_name : list N → list N).
Context (Hwalk : ∀ es, walk es ≡ₚ es) (Hname : ∀ ids, by_name ids ≡ₚ ids) (n : nat) (Hn : 0 < n).

Lemma add_tiers es s : tiers (foldl (λ s e, add e s) s es) = tiers s.
Proof using.
  revert s. induction es as [| x es IH]; intros s; [done |]. cbn [foldl]. rewrite IH. unfold add.
  by destruct (index s !! x.1); [destruct (_ <? _)%N |].
Qed.
Lemma load_budgets f t id s d : t_budget <$> tiers (load walk f t id s d).1.1 = t_budget <$> tiers s.
Proof using.
  unfold load. destruct (if opened f then _ else None) as [file |]; [| done]. destruct (d_hints d !! (t, id)).
  - cbn [fst]. by rewrite set_total_budgets, add_tiers.
  - destruct (scan_pack id file) as [es off]. destruct (_ && _); cbn [fst]; [by rewrite add_tiers |].
    destruct (seal _ _ _ _ _) as [d' ok]. cbn [fst]. rewrite set_total_budgets. unfold set_packs. cbn [tiers]. by rewrite add_tiers.
Qed.
Lemma OpenStore_budgets f created now budgets d s k : OpenStore walk by_name f created now budgets d = Some (s, k) → t_budget <$> tiers s = budgets.
Proof using.
  unfold OpenStore. set (s0 := Store _ ∅ ∅ None false).
  assert (∀ ids t x, t_budget <$> tiers (foldl (open_one walk f t) x ids).1.1 = t_budget <$> tiers x.1.1) as Hids.
  { induction ids as [| id ids IH]; intros t x; [done |]. cbn [foldl]. rewrite IH. destruct x as [[s1 d1] last]. unfold open_one.
    destruct (bool_decide _); [done |]. pose proof (load_budgets (f (t, id)) t id s1 d1). by destruct (load _ _ _ _ s1 d1) as [[] []]. }
  assert (∀ ts x, t_budget <$> tiers (foldl (open_tier walk by_name f) x ts).1.1 = t_budget <$> tiers x.1.1) as Hts.
  { induction ts as [| t ts IH]; intros x; [done |]. cbn [foldl]. rewrite IH. apply Hids. }
  specialize (Hts (seq 0 (length budgets)) (s0, d, 0%N)). destruct (foldl _ _ _) as [[s1 d1] last]. cbn [fst] in Hts.
  pose proof (rotate_budgets walk true created now (last + 1)%N s1 d1) as Hr. destruct (rotate _ _ _ _ _ s1 d1) as [[s2 d2] []]; [| done].
  intros [= <- <-]. cbn [fst] in Hr. rewrite Hr, Hts. unfold s0. cbn [tiers]. rewrite <-list_fmap_compose. apply list_fmap_id.
Qed.

(** on empty directories the two daemons start alike *)
Lemma start_alike now budgets : length budgets = n → (∃ b, last budgets = Some b ∧ (b ≤ 0)%Z) →
  ∃ s k, OpenStore walk by_name fine true now budgets (Disk ∅ ∅ ∅) = Some (s, k) ∧
    alike (e := e) walk by_name n [] (Jigd (InLine []) ∅ ∅) (Packed (InLine []) (Daemon s k Resting) ∅).
Proof using Hwalk Hname Hn.
  intros Hb (b & Hlast & Hb0).
  destruct (OpenStore_holds walk by_name Hwalk Hname n Hn [] _ now budgets (empty_sound n) Hb) as (s & k & E & Hh & _ & Hcl & _).
  exists s, k. split; [done |]. split; [done | done | | by eapply life_new | | done | done | by eapply (complete_new walk by_name Hwalk Hname n Hn)].
  - intros key. cbn [j_store q_store]. rewrite lookup_empty. unfold value. cbn [st dk]. destruct (value_of s k key) as [v |] eqn:Ev; [| done].
    destruct (value_of_index _ _ _ _ _ _ Hh Ev) as (_ & _ & _ & Hin). by apply elem_of_nil in Hin.
  - cbn [q_store]. split; [| done]. cbn [st]. rewrite (OpenStore_budgets _ _ _ _ _ _ _ E). by exists b.
Qed.
End Start.


(** the store of PackLife in the middle of a demotion, which goes on between the bytes of two requests *)
Definition sample_input : list (list event * N * ascii) :=
  map (λ c, ([ESwitch true; EPick; EMovePack true], 9%N, c)) (lit "GET key" ++ nl ++ "PUT key 3" ++ nl ++ "twoGET key" ++ nl).
(** a store without a budget in its last tier, from which nothing was evicted *)
Definition settled (asked : list (str * str)) (d : daemon) : Prop := life as_is as_is 2 asked d ∧ complete d ∧ unbounded d.
Lemma run_settled asked d es : settled asked d → Forall mild_event es → ∃ asked', settled asked' (run es d).
Proof.
  intros Hd HF. revert asked d Hd. induction HF as [| e es He HF IH]; intros asked d (H1 & H2 & H3); [by exists asked |].
  apply (IH (asked_by e ++ asked)). split_and!.
  - by apply (life_step as_is as_is 2).
  - apply (complete_step as_is as_is ltac:(done) ltac:(done) 2 ltac:(lia) asked); [done | done | by apply unbounded_evicts | done].
  - by apply (unbounded_step as_is as_is ltac:(done) ltac:(done) 2 ltac:(lia) asked).
Qed.
Lemma sample_open_unbounded k s k' : OpenStore as_is as_is fine true 7 sample_budgets k = Some (s, k') → unbounded (Daemon s k' Resting).
Proof. intros E. split; [| done]. exists 0%Z. split; [| done]. cbn [st]. by rewrite (OpenStore_budgets _ _ _ _ _ _ _ _ _ E). Qed.
Lemma sample_moving_settled : ∃ asked, settled asked sample_moving.
Proof.
  destruct (OpenStore_holds as_is as_is ltac:(done) ltac:(done) 2 ltac:(lia) [] _ 7 sample_budgets (empty_sound 2) eq_refl) as (s & k & E & _).
  assert (sample_open (Disk ∅ ∅ ∅) = Daemon s k Resting) as E1 by (unfold sample_open; by rewrite E).
  destruct (run_settled [] (Daemon s k Resting) [sample_put "key" "one"]) as (asked & Hl & Hc & Hu).
  { split_and!; [by eapply (life_new as_is as_is 2 7 sample_budgets) | | by eapply sample_open_unbounded].
    exact (complete_new as_is as_is ltac:(done) ltac:(done) 2 ltac:(lia) 7 sample_budgets s k eq_refl E). }
  { repeat constructor; apply no_fault_mild. }
  destruct (restart_same as_is as_is ltac:(done) ltac:(done) 2 ltac:(lia) asked _ 7 sample_budgets Hl eq_refl Hc) as (s' & k' & E' & Hl' & _ & Hc' & _).
  unfold sample_moving, sample_first. rewrite E1. change (step as_is (sample_put "key" "one") ?d) with (run [sample_put "key" "one"] d).
  unfold sample_open. rewrite E'. apply (run_settled asked); [| repeat constructor; try done; apply no_fault_mild].
  split_and!; [done | done | by eapply sample_open_unbounded].
Qed.
