(* ===== verification/PackPeer.v ===== *)
(** * jigd over its pack store, as the client sees it (src/pkgs/ji/jigd)

    The process of PackServe with a clock and a demoter that work between any two bytes is a [CacheDaemon], so what
    CacheClient and the files above it prove of any daemon holds of jigd with its files; and it is the same daemon
    after its process was stopped and started again. *)

From S2P Require Import Prelude Paths Base Keys CacheClient Jigd PackFormat PackStore PackRecovery PackHistory PackOpen PackLife PackServe.

(** what the process does not choose: orders, the environment, and for each byte the time it arrives and the steps
    of the demoter before it *)
Record setting := Setting {
  g_walk : list (str * loc) → list (str * loc);
  g_by_name : list N → list N;
  g_walk_perm : ∀ es, g_walk es ≡ₚ es;
  g_name_perm : ∀ ids, g_by_name ids ≡ₚ ids;
  g_tiers : nat;
  g_some : 0 < g_tiers;
  g_env : env;
  g_schedule : nat → list event * N;
  g_background : ∀ i, Forall (λ ev, background ev = true) (g_schedule i).1
}.

Record jigd_process (g : setting) := Process_ { seat : packed; ticks : nat }.
Arguments Process_ {g} seat ticks.
Arguments seat {g} _.
Arguments ticks {g} _.

Lemma packed_feed_app {e : env} walk (d : packed) a b :
  packed_feed (e := e) walk d (a ++ b) =
    let '(d1, r1) := packed_feed (e := e) walk d a in let '(d2, r2) := packed_feed (e := e) walk d1 b in (d2, r1 ++ r2).
Proof.
  revert d. induction a as [| [[evs now] c] a IH]; intros d; cbn [app packed_feed]; [by destruct (packed_feed _ d b) |].
  destruct (packed_byte _ _ _ c) as [d1 r1]. rewrite IH. destruct (packed_feed _ d1 a) as [d2 r2].
  destruct (packed_feed _ d2 b) as [d3 r3]. by rewrite app_assoc.
Qed.

Section Peer.
Context {g : setting}.

Definition arrivals (i : nat) (bytes : str) : list (list event * N * ascii) := imap (λ k c, (g_schedule g (i + k), c)) bytes.
Definition process_feed (s : jigd_process g) (bytes : str) : jigd_process g * str :=
  let '(q, r) := packed_feed (e := g_env g) (g_walk g) (seat s) (arrivals (ticks s) bytes) in (Process_ q (ticks s + length bytes), r).

Lemma arrivals_app i a b : arrivals i (a ++ b) = arrivals i a ++ arrivals (i + length a) b.
Proof. unfold arrivals. rewrite imap_app. f_equal. apply imap_ext. intros k c _. cbn. by rewrite Nat.add_assoc. Qed.
Lemma arrivals_bytes i bytes : (arrivals i bytes).*2 = bytes.
Proof.
  unfold arrivals. revert i. induction bytes as [| c bytes IH]; intros i; [done |]. rewrite imap_cons. cbn [fmap list_fmap snd]. f_equal.
  rewrite <-(IH (S i)) at 2. f_equal. apply imap_ext. intros k c' _. cbn. by rewrite Nat.add_succ_r.
Qed.
Lemma arrivals_background i bytes : Forall (λ x, Forall (λ ev, background ev = true) x.1.1) (arrivals i bytes).
Proof. apply list.Forall_forall. intros x (k & c & -> & _)%elem_of_lookup_imap_1. apply g_background. Qed.

#[global] Program Instance process_peer : Peer (jigd_process g) := {| feed := process_feed |}.
Next Obligation. intros [q t]. unfold process_feed. cbn. by rewrite Nat.add_0_r. Qed.
Next Obligation.
  intros [q t] a b. unfold process_feed. cbn [seat ticks]. rewrite arrivals_app, packed_feed_app.
  destruct (packed_feed _ q _) as [q1 r1]. cbn [seat ticks]. destruct (packed_feed _ q1 _) as [q2 r2].
  by rewrite length_app, Nat.add_assoc.
Qed.

(** ** What it holds *)

Definition contents (d : daemon) : gmap str str := map_imap (λ k _, value d k) (index (st d)).
Lemma represents_contents d : represents (contents d) d.
Proof.
  intros k. unfold contents. rewrite map_lookup_imap. destruct (index (st d) !! k) as [l |] eqn:E; [done |]. by apply value_of_none.
Qed.
Lemma contents_unique m d : represents m d → m = contents d.
Proof. intros H. apply map_eq. intros k. by rewrite <-(H k), <-(represents_contents d k). Qed.

(** the daemon with a map that it cannot be told from *)
Definition shadow (s : jigd_process g) : jigd (g_env g) := Jigd (InLine []) (contents (q_store (seat s))) (q_held (seat s)).
Definition process_idle (s : jigd_process g) : Prop := ∃ asked, alike (g_walk g) (g_by_name g) (g_tiers g) asked (shadow s) (seat s).

Lemma shadow_idle s : process_idle s → idle (shadow s).
Proof.
  intros [asked Ha]. split; [done |]. intros k v Hv. cbn [j_store shadow] in Hv. rewrite <-(represents_contents _ k) in Hv.
  destruct (life_valid _ _ (g_walk_perm g) (g_name_perm g) _ (g_some g) _ _ (al_life _ _ _ _ _ _ Ha)) as [Hh _].
  destruct (value_of_index _ _ _ _ _ _ Hh Hv) as (_ & _ & _ & Hin). pose proof (life_bounded _ _ _ _ _ (al_life _ _ _ _ _ _ Ha)) as HF.
  rewrite list.Forall_forall in HF. apply HF in Hin. cbn [snd] in Hin. change kMaxValue with (Z.of_N kMaxObjectSize) in Hin. lia.
Qed.

(** it serves what its shadow serves *)
Lemma process_serves s bytes reply m : process_idle s →
  (∃ j, feed (shadow s) bytes = (j, reply) ∧ idle j ∧ stored j = m) →
  ∃ s', process_feed s bytes = (s', reply) ∧ process_idle s' ∧ contents (q_store (seat s')) = m.
Proof.
  intros [asked Ha] (j & Hj & [Hphase _] & <-). unfold process_feed.
  pose proof (feed_alike (g_walk g) (g_by_name g) (g_walk_perm g) (g_name_perm g) (g_tiers g) (g_some g) asked (shadow s) (seat s)
    (arrivals (ticks s) bytes) Ha (arrivals_background _ _)) as H.
  destruct (packed_feed _ (seat s) _) as [q r]. rewrite arrivals_bytes in H. cbn [feed jigd_peer] in Hj. rewrite Hj in H.
  destruct H as (asked' & -> & Ha'). cbn [fst snd] in *. eexists. split; [done |]. cbn [seat].
  pose proof (contents_unique _ _ (al_store _ _ _ _ _ _ Ha')) as Hc. split; [| by rewrite <-Hc].
  exists asked'. assert (shadow (Process_ q (ticks s + length bytes)) = j) as ->; [| done].
  unfold shadow. cbn [seat]. rewrite <-Hc, (al_held _ _ _ _ _ _ Ha'), <-Hphase. by destruct j.
Qed.

#[global] Program Instance process_daemon : CacheDaemon (jigd_process g) :=
  {| idle := process_idle; stored := λ s, contents (q_store (seat s)); identity_of := idents (g_env g) |}.
Next Obligation. apply idents_line. Qed.
Next Obligation. intros s key v Hi Hv. apply (stored_bounded (shadow s) key v); [by apply shadow_idle | exact Hv]. Qed.
Next Obligation. intros s key Hi Hw. apply process_serves; [done |]. exact (serves_get (shadow s) key (shadow_idle s Hi) Hw). Qed.
Next Obligation. intros s key Hi Hw. apply process_serves; [done |]. exact (serves_has (shadow s) key (shadow_idle s Hi) Hw). Qed.
Next Obligation. intros s key v Hi Hw Hv. apply process_serves; [done |]. exact (serves_put (shadow s) key v (shadow_idle s Hi) Hw Hv). Qed.
Next Obligation. intros s paths Hi Hp Hl. apply process_serves; [done |]. exact (serves_ids (shadow s) paths (shadow_idle s Hi) Hp Hl). Qed.

(** ** Starting *)

(** a process that has just opened its store *)
Definition started (s : PackStore.store) (k : disk) (i : nat) : jigd_process g := Process_ (Packed (InLine []) (Daemon s k Resting) ∅) i.
Definition no_last_budget (budgets : list Z) : Prop := ∃ b, last budgets = Some b ∧ (b ≤ 0)%Z.

Lemma process_starts now budgets i : length budgets = g_tiers g → no_last_budget budgets →
  ∃ s k, OpenStore (g_walk g) (g_by_name g) fine true now budgets (Disk ∅ ∅ ∅) = Some (s, k) ∧
    idle (started s k i) ∧ stored (started s k i) = ∅.
Proof.
  intros Hb Hlast. destruct (start_alike (e := g_env g) _ _ (g_walk_perm g) (g_name_perm g) (g_tiers g) (g_some g) now budgets Hb Hlast) as (s & k & E & Ha).
  exists s, k. split; [done |]. pose proof (contents_unique _ _ (al_store _ _ _ _ _ _ Ha)) as Hc. cbn [j_store q_store] in Hc.
  split; [| by symmetry]. exists []. unfold shadow. cbn [seat started q_store q_held]. by rewrite <-Hc.
Qed.

(** stopped between two requests and started again *)
Lemma process_restarts (s : jigd_process g) now budgets i : idle s → length budgets = g_tiers g → no_last_budget budgets →
  ∃ s' k', OpenStore (g_walk g) (g_by_name g) fine true now budgets (dk (q_store (seat s))) = Some (s', k') ∧
    idle (started s' k' i) ∧ stored (started s' k' i) = stored s.
Proof.
  intros [asked Ha] Hb Hlast.
  destruct (restart_same _ _ (g_walk_perm g) (g_name_perm g) (g_tiers g) (g_some g) asked (q_store (seat s)) now budgets
    (al_life _ _ _ _ _ _ Ha) Hb (al_complete _ _ _ _ _ _ Ha)) as (s' & k' & E & Hl & Hcl & Hc & Hv).
  assert (contents (Daemon s' k' Resting) = contents (q_store (seat s))) as Hsame.
  { symmetry. apply contents_unique. intros key. rewrite Hv. apply represents_contents. }
  exists s', k'. split_and!; [done | | exact Hsame]. exists asked. split; [done | done | apply represents_contents | done | | done | done | done].
  split; [| done]. cbn [st q_store started seat]. by rewrite (OpenStore_budgets _ _ _ _ _ _ _ _ _ E).
Qed.
End Peer.
