(* ===== verification/GoCache.v ===== *)
(** * gocache_mode.cc: jig as GOCACHEPROG

    Base64 at the source's 32-bit accumulator, the line reader over stdin, the JSON field scan and
    the get/put/close loop of [RunGoCacheProg]. Standard output is a list of lines, the disk a
    finite map, the daemon behind a [CacheClient]. *)

From S2P Require Import Prelude Paths Base Keys CacheClient Jigd.

(** ** Base64 *)

Definition kAlphabet : str := "ABCDEFGHIJKLMNOPQRSTUVWXYZabcdefghijklmnopqrstuvwxyz0123456789+/".
Definition kSextetBits : N := 6.
Definition kSextetMask : N := 63.
Definition kOctetBits : N := 8.
Definition kOctetMask : N := 255.
Definition kInvalid : N := 255.

(** [unsigned] arithmetic *)
Definition u32 (n : N) : N := n mod 2 ^ 32.
Definition u32_shl (n k : N) : N := u32 (N.shiftl n k).

Definition MakeDecodeTable : list N :=
  foldl (λ table ic, <[N.to_nat (byte_val ic.2) := ic.1]> table) (replicate 256 kInvalid)
    (imap (λ i c, (N.of_nat i, c)) kAlphabet).
Definition kDecode : list N := Eval vm_compute in MakeDecodeTable.

Definition alphabet_at (i : N) : ascii := default "A"%char (kAlphabet !! N.to_nat i).
Definition decode_at (c : ascii) : N := default kInvalid (kDecode !! N.to_nat (byte_val c)).

Record codec := Codec { cd_out : str; cd_acc : N; cd_bits : N }.

Fixpoint emit (fuel : nat) (st : codec) : codec :=
  match fuel with
  | 0 => st
  | S fuel =>
      if (kSextetBits <=? cd_bits st)%N then
        let bits := (cd_bits st - kSextetBits)%N in
        emit fuel (Codec (cd_out st ++ [alphabet_at (N.land (N.shiftr (cd_acc st) bits) kSextetMask)])
                     (cd_acc st) bits)
      else st
  end.

Definition encode_byte (st : codec) (chr : ascii) : codec :=
  let acc := N.lor (u32_shl (cd_acc st) kOctetBits) (byte_val chr) in
  let bits := (cd_bits st + kOctetBits)%N in
  let st := emit (N.to_nat bits) (Codec (cd_out st) acc bits) in
  Codec (cd_out st) (N.land (cd_acc st) (u32_shl 1 (cd_bits st) - 1)) (cd_bits st).

Fixpoint pad (fuel : nat) (out : str) : str :=
  match fuel with
  | 0 => out
  | S fuel => if (length out mod 4 =? 0)%nat then out else pad fuel (out ++ ["="%char])
  end.

Definition Base64Encode (bytes : str) : str :=
  let st := foldl encode_byte (Codec [] 0 0) bytes in
  let out :=
    if (0 <? cd_bits st)%N then
      cd_out st ++ [alphabet_at (N.land (u32_shl (cd_acc st) (kSextetBits - cd_bits st)) kSextetMask)]
    else cd_out st in
  pad 4 out.

Definition decode_char (st : codec) (chr : ascii) : codec :=
  let sextet := decode_at chr in
  if (sextet =? kInvalid)%N then st
  else
    let acc := N.lor (u32_shl (cd_acc st) kSextetBits) sextet in
    let bits := (cd_bits st + kSextetBits)%N in
    let '(out, bits) :=
      if (kOctetBits <=? bits)%N then
        (cd_out st ++ [byte_of (N.land (N.shiftr acc (bits - kOctetBits)) kOctetMask)], (bits - kOctetBits)%N)
      else (cd_out st, bits) in
    Codec out (N.land acc (u32_shl 1 bits - 1)) bits.

Definition Base64Decode (text : str) : str := cd_out (foldl decode_char (Codec [] 0 0) text).

(** ** Requests *)

(** [std::string_view::find_first_of] *)
Fixpoint find_first_of (chars s : str) : option nat :=
  match s with
  | [] => None
  | c :: s => if contains_chr chars c then Some 0 else S <$> find_first_of chars s
  end.

Definition JsonField (line key : str) : str :=
  let pattern := [chr_quot] ++ key ++ [chr_quot] ++ lit ":" in
  match find pattern line with
  | None => []
  | Some pos =>
      let pos := pos + length pattern in
      if line !! pos == Some chr_quot then
        match find_chr chr_quot line (pos + 1) with
        | None => []
        | Some end_ => substr line (pos + 1) (end_ - pos - 1)
        end
      else
        match find_first_of ",}" (drop pos line) with
        | None => drop pos line
        | Some n => substr line pos n
        end
  end.

(** [static_cast<std::int64_t>] of a [std::uint64_t] *)
Definition to_int64 (n : N) : Z := if (n <? 2 ^ 63)%N then Z.of_N n else (Z.of_N n - 2 ^ 64)%Z.
Definition JsonInt (line key : str) : Z := to_int64 (default 0%N (ParseUint (JsonField line key) 10)).

Definition fmt_int (z : Z) : str :=
  if (z <? 0)%Z then "-" ++ fmt_uint 10 (Z.to_N (- z)) else fmt_uint 10 (Z.to_N z).

(** ** stdin *)

Definition kLineBuf : nat := Nat.pow 2 20.

(** [buf_] between [pos_] and [end_], and the rest of stdin *)
Record line_reader := LineReader { lr_pending : str; lr_stdin : kernel }.

Fixpoint next_loop (fuel : nat) (line : str) (r : line_reader) : bool * str * line_reader :=
  match fuel with
  | 0 => (false, line, r)
  | S fuel =>
      match find nl (lr_pending r) with
      | Some newline =>
          (true, line ++ take newline (lr_pending r),
           LineReader (drop (newline + 1) (lr_pending r)) (lr_stdin r))
      | None =>
          let line := line ++ lr_pending r in
          let '(got, k) := k_read kLineBuf (lr_stdin r) in
          match got with
          | None | Some [] => (negb (line == []), line, LineReader [] k)
          | Some got => next_loop fuel line (LineReader got k)
          end
      end
  end.
Definition Next (r : line_reader) : bool * str * line_reader :=
  next_loop (S (length (k_rest (lr_stdin r)))) [] r.

(** ** The session *)

Section Session.
Context (zstd_compress zstd_decompress : str → option str).
Context {P : Type} `{Peer P}.
(** the process id and what goes wrong when a path is written, for [WriteFile] *)
Context (pid : nat) (faults : str → write_faults).

Record session := Session {
  s_cache : client P;
  s_live : bool;
  s_dir : str;
  s_disk : filesystem;
  s_out : list str;             (* lines on stdout *)
  s_log : list (Outcome * str); (* LogOutcome *)
}.

Definition set_cache (s : session) (c : client P) : session :=
  Session c (s_live s) (s_dir s) (s_disk s) (s_out s) (s_log s).
Definition say (s : session) (line : str) : session :=
  Session (s_cache s) (s_live s) (s_dir s) (s_disk s) (s_out s ++ [line]) (s_log s).
Definition log (s : session) (o : Outcome) (subject : str) : session :=
  Session (s_cache s) (s_live s) (s_dir s) (s_disk s) (s_out s) (s_log s ++ [(o, subject)]).
Definition write (s : session) (path data : str) : session :=
  Session (s_cache s) (s_live s) (s_dir s) (written pid path data (faults path) (s_disk s)) (s_out s) (s_log s).

Definition disk_path (s : session) (output_id : str) : str := s_dir s /p/ HexEncode output_id.

(** a string in quotes *)
Definition quoted (x : str) : str := [chr_quot] ++ x ++ [chr_quot].
Definition miss_line (id : Z) : str := lit "{" ++ quoted "ID" ++ ":" ++ fmt_int id ++ "," ++ quoted "Miss" ++ ":true}".
Definition hit_line (id : Z) (output_id : str) (size : nat) (path : str) : str :=
  lit "{" ++ quoted "ID" ++ ":" ++ fmt_int id ++ "," ++ quoted "OutputID" ++ ":" ++ quoted (Base64Encode output_id) ++
  "," ++ quoted "Size" ++ ":" ++ to_string size ++ "," ++ quoted "DiskPath" ++ ":" ++ quoted path ++ "}".
Definition put_line (id : Z) (path : str) : str :=
  lit "{" ++ quoted "ID" ++ ":" ++ fmt_int id ++ "," ++ quoted "DiskPath" ++ ":" ++ quoted path ++ "}".
Definition err_line (id : Z) (got : nat) (want : Z) : str :=
  lit "{" ++ quoted "ID" ++ ":" ++ fmt_int id ++ "," ++ quoted "Err" ++ ":" ++
  quoted (lit "body: got " ++ to_string got ++ " of " ++ fmt_int want ++ " bytes") ++ "}".
Definition known_line : str :=
  lit "{" ++ quoted "ID" ++ ":0," ++ quoted "KnownCommands" ++ ":[" ++ quoted "get" ++ "," ++ quoted "put" ++ "," ++
  quoted "close" ++ "]}".
Definition close_line (id : Z) : str := lit "{" ++ quoted "ID" ++ ":" ++ fmt_int id ++ "}".

Definition HandleGet (s : session) (id : Z) (action : str) : session :=
  let '(output_id, s) :=
    if s_live s then
      let '(v, c) := Get zstd_decompress (slot_key (GoAction action)) (s_cache s) in (v, set_cache s c)
    else (None, s) in
  let '(body, s) :=
    match output_id with
    | Some o =>
        let '(v, c) := Get zstd_decompress (slot_key (GoOutput (HexEncode o))) (s_cache s) in (v, set_cache s c)
    | None => (None, s)
    end in
  match output_id, body with
  | Some o, Some body =>
      let s := log s kHit action in
      let path := disk_path s o in
      let s := if bool_decide (is_Some (s_disk s !! path)) then s else write s path body in
      say s (hit_line id o (length body) path)
  | _, _ => say s (miss_line id)
  end.

(** [while (body_line.empty() && input.Next(body_line))] *)
Fixpoint body_line_loop (fuel : nat) (line : str) (r : line_reader) : str * line_reader :=
  match fuel with
  | 0 => (line, r)
  | S fuel =>
      if line == [] then
        let '(more, line, r) := Next r in if (more : bool) then body_line_loop fuel line r else (line, r)
      else (line, r)
  end.
(** every line read takes a byte off the input *)
Definition body_line (r : line_reader) : str * line_reader :=
  body_line_loop (S (S (length (lr_pending r) + length (k_rest (lr_stdin r))))) [] r.

Definition body_of_line (line : str) : str :=
  if (2 <=? length line)%nat && (head line == Some chr_quot) && (last line == Some chr_quot)
  then Base64Decode (substr line 1 (length line - 2)) else [].

(** storing a complete body *)
Definition put_store (s : session) (id : Z) (action output_id body : str) : session :=
  let path := disk_path s output_id in
  let s := write s path body in
  let s :=
    if s_live s then
      let c := (Put zstd_compress (slot_key (GoOutput (HexEncode output_id))) body (s_cache s)).2 in
      let c := (Put zstd_compress (slot_key (GoAction action)) output_id c).2 in
      set_cache s c
    else s in
  say (log s kMissStored action) (put_line id path).

Definition HandlePut (s : session) (input : line_reader) (id : Z) (action req : str) : session * line_reader :=
  let output_id := Base64Decode (JsonField req "OutputID") in
  let body_size := JsonInt req "BodySize" in
  if (0 <? body_size)%Z then
    let '(line, input) := body_line input in
    let body := body_of_line line in
    if (Z.of_nat (length body) =? body_size)%Z then (put_store s id action output_id body, input)
    else (say s (err_line id (length body) body_size), input)
  else (put_store s id action output_id [], input).

Fixpoint serve_loop (fuel : nat) (s : session) (input : line_reader) : session :=
  match fuel with
  | 0 => s
  | S fuel =>
      let '(more, line, input) := Next input in
      if negb more then s
      else if line == [] then serve_loop fuel s input
      else
        let id := JsonInt line "ID" in
        let command := JsonField line "Command" in
        if command == lit "close" then say s (close_line id)
        else
          let action := HexEncode (Base64Decode (JsonField line "ActionID")) in
          let '(s, input) :=
            if command == lit "get" then (HandleGet s id action, input)
            else if command == lit "put" then HandlePut s input id action line
            else (s, input) in
          serve_loop fuel s input
  end.

(** [s] comes with [live] as [Connect] left it and [dir] from the environment *)
Definition RunGoCacheProg (s : session) (stdin : kernel) : session :=
  serve_loop (S (length (k_rest stdin))) (say s known_line) (LineReader [] stdin).
End Session.

(** ** Properties *)

(** *** Base64: both directions keep the value of the bits read so far *)

(** bytes and sextets as big-endian numbers *)
Definition be_val (s : str) : N := foldl (λ a c, a * 256 + byte_val c)%N 0%N s.
Definition sextets_val (s : str) : N := foldl (λ a c, a * 64 + decode_at c)%N 0%N s.

Lemma be_val_snoc s c : be_val (s ++ [c]) = (be_val s * 256 + byte_val c)%N.
Proof. unfold be_val. by rewrite foldl_app. Qed.
Lemma sextets_val_snoc s c : sextets_val (s ++ [c]) = (sextets_val s * 64 + decode_at c)%N.
Proof. unfold sextets_val. by rewrite foldl_app. Qed.

Lemma be_val_inj s t : length s = length t → be_val s = be_val t → s = t.
Proof.
  revert t. induction s as [|c s IH] using rev_ind; intros t.
  { by destruct t. }
  destruct t as [|d t _] using rev_ind; [by rewrite length_app; cbn; lia|].
  rewrite !length_app, !be_val_snoc. cbn [length]. intros Hl Hv.
  pose proof (byte_val_range c). pose proof (byte_val_range d).
  assert (be_val s = be_val t ∧ byte_val c = byte_val d) as [Hs Hc] by lia.
  by rewrite (IH t), (byte_val_inj c d) by (done || lia).
Qed.

Lemma decode_alphabet i : (i < 64)%N → decode_at (alphabet_at i) = i.
Proof.
  intros Hi. assert (Forall (λ n, decode_at (alphabet_at (N.of_nat n)) = N.of_nat n) (seq 0 64)) as H.
  { rewrite Forall_forall. intros n Hn. apply elem_of_seq in Hn. by do 64 (destruct n as [|n]; [done|]); lia. }
  rewrite Forall_forall in H. specialize (H (N.to_nat i)). rewrite N2Nat.id in H. apply H.
  apply elem_of_seq. lia.
Qed.

(** the encoder: what it put out, scaled by the bits it still holds, plus those bits *)
Definition encoded (p : str) (st : codec) : Prop :=
  (sextets_val (cd_out st) * 2 ^ cd_bits st + cd_acc st mod 2 ^ cd_bits st = be_val p)%N ∧
  (6 * N.of_nat (length (cd_out st)) + cd_bits st = 8 * N.of_nat (length p))%N ∧
  Forall (λ c, decode_at c < 64)%N (cd_out st).

Lemma emit_encoded fuel p st :
  (cd_bits st ≤ N.of_nat fuel)%N → encoded p st →
  encoded p (emit fuel st) ∧ (cd_bits (emit fuel st) < 6)%N ∧ cd_acc (emit fuel st) = cd_acc st ∧
  (cd_bits (emit fuel st) ≤ cd_bits st)%N.
Proof.
  revert st. induction fuel as [|fuel IH]; intros st Hf He; cbn [emit]; [split; [done|]; lia|].
  unfold kSextetBits. destruct (N.leb_spec 6 (cd_bits st)) as [Hb|Hb]; [|split; [done|]; lia].
  destruct st as [out acc bits]. cbn [cd_out cd_acc cd_bits] in *.
  set (b := (bits - 6)%N) in *. replace bits with (b + 6)%N in * by lia. clearbody b. clear bits.
  destruct He as (Hv & Hl & Hall). cbn [cd_out cd_acc cd_bits] in *.
  unfold kSextetMask. change 63%N with (N.shiftl 1 6 - 1)%N. rewrite land_mask, N.shiftr_div_pow2.
  set (x := ((acc / 2 ^ b) mod 2 ^ 6)%N). assert (Hx : (x < 64)%N) by (apply N.mod_lt; done).
  destruct (IH (Codec (out ++ [alphabet_at x]) acc b)) as (H1 & H2 & H3 & H4);
    [cbn [cd_bits]; lia| |cbn [cd_acc cd_bits] in *; split; [done|]; lia].
  split; [|split]; cbn [cd_out cd_acc cd_bits].
  - rewrite sextets_val_snoc, decode_alphabet by done. rewrite <-Hv, N.pow_add_r.
    rewrite N.Div0.mod_mul_r. fold x. change (2 ^ 6)%N with 64%N. lia.
  - rewrite length_app. cbn [length]. lia.
  - apply Forall_app. split; [done|]. constructor; [|done]. by rewrite decode_alphabet.
Qed.

Lemma encode_byte_encoded p st c :
  (cd_bits st < 6)%N → (cd_acc st < 2 ^ cd_bits st)%N → encoded p st →
  let st' := encode_byte st c in
  encoded (p ++ [c]) st' ∧ (cd_bits st' < 6)%N ∧ (cd_acc st' < 2 ^ cd_bits st')%N.
Proof.
  intros Hb Ha (Hv & Hl & Hall) st'. pose proof (byte_val_range c) as Hc.
  assert (Hacc : (cd_acc st < 64)%N).
  { eapply N.lt_le_trans; [exact Ha|]. change 64%N with (2 ^ 6)%N. apply N.pow_le_mono_r; lia. }
  unfold st', encode_byte, u32_shl, kOctetBits. clear st'.
  assert (Hu : u32 (N.shiftl (cd_acc st) 8) = N.shiftl (cd_acc st) 8).
  { apply N.mod_small. rewrite N.shiftl_mul_pow2. lia. }
  rewrite Hu, lor_shiftl by done.
  set (acc := (cd_acc st * 2 ^ 8 + byte_val c)%N). set (bits := (cd_bits st + 8)%N).
  assert (Hsmall : (acc < 2 ^ bits)%N).
  { subst acc bits. rewrite N.pow_add_r. change (2 ^ 8)%N with 256%N. nia. }
  destruct (emit_encoded (N.to_nat bits) (p ++ [c]) (Codec (cd_out st) acc bits)) as (He & Hb' & Hacc' & _).
  { cbn [cd_bits]. lia. }
  { split; [|split]; cbn [cd_out cd_acc cd_bits]; [|rewrite length_app; cbn [length]; subst bits; lia|done].
    rewrite N.mod_small by done. rewrite be_val_snoc, <-Hv, (N.mod_small (cd_acc st)) by done.
    subst acc bits. rewrite N.pow_add_r. change (2 ^ 8)%N with 256%N. lia. }
  set (st' := emit _ _) in *. clearbody st'. destruct He as (Hv' & Hl' & Hall').
  assert (Hu1 : u32 (N.shiftl 1 (cd_bits st')) = N.shiftl 1 (cd_bits st')).
  { apply N.mod_small. rewrite N.shiftl_mul_pow2, N.mul_1_l. apply N.pow_lt_mono_r; lia. }
  rewrite Hu1, land_mask. pose proof (N.pow_nonzero 2 (cd_bits st') ltac:(lia)).
  cbn [cd_out cd_acc cd_bits]. split; [|split; [done|by apply N.mod_lt]].
  split; [|by split]. cbn [cd_out cd_acc cd_bits]. by rewrite N.Div0.mod_mod.
Qed.

Lemma encode_fold bytes :
  let st := foldl encode_byte (Codec [] 0 0) bytes in
  encoded bytes st ∧ (cd_bits st < 6)%N ∧ (cd_acc st < 2 ^ cd_bits st)%N.
Proof.
  induction bytes as [|c bytes IH] using rev_ind; [by repeat split; constructor|].
  rewrite foldl_app. cbn [foldl]. destruct IH as (He & Hb & Ha). by apply encode_byte_encoded.
Qed.

(** the decoder, after the sextets [t] *)
Definition decoded (t : str) (st : codec) : Prop :=
  (be_val (cd_out st) * 2 ^ cd_bits st + cd_acc st = sextets_val t)%N ∧
  (8 * N.of_nat (length (cd_out st)) + cd_bits st = 6 * N.of_nat (length t))%N ∧
  (cd_acc st < 2 ^ cd_bits st)%N ∧ (cd_bits st < 8)%N.

Lemma decode_char_decoded t st c :
  (decode_at c < 64)%N → decoded t st → decoded (t ++ [c]) (decode_char st c).
Proof.
  intros Hc (Hv & Hl & Ha & Hb). unfold decode_char, u32_shl, kInvalid, kSextetBits, kOctetBits, kOctetMask.
  rewrite (proj2 (N.eqb_neq _ _)) by lia.
  assert (Hacc : (cd_acc st < 256)%N).
  { eapply N.lt_le_trans; [exact Ha|]. change 256%N with (2 ^ 8)%N. apply N.pow_le_mono_r; lia. }
  assert (u32 (N.shiftl (cd_acc st) 6) = N.shiftl (cd_acc st) 6) as ->.
  { apply N.mod_small. rewrite N.shiftl_mul_pow2. lia. }
  rewrite lor_shiftl by done. change (2 ^ 6)%N with 64%N.
  set (acc := (cd_acc st * 64 + decode_at c)%N).
  assert (Hu1 : ∀ b, (b < 16)%N → u32 (N.shiftl 1 b) = N.shiftl 1 b).
  { intros b Hb16. apply N.mod_small. rewrite N.shiftl_mul_pow2, N.mul_1_l. apply N.pow_lt_mono_r; lia. }
  assert (Hsmall : (acc < 2 ^ (cd_bits st + 6))%N).
  { subst acc. rewrite N.pow_add_r. change (2 ^ 6)%N with 64%N. nia. }
  assert (Hval : (be_val (cd_out st) * 2 ^ (cd_bits st + 6) + acc = sextets_val (t ++ [c]))%N).
  { rewrite sextets_val_snoc, <-Hv. subst acc. rewrite N.pow_add_r. change (2 ^ 6)%N with 64%N. lia. }
  destruct (N.leb_spec 8 (cd_bits st + 6)) as [H8|H8].
  - set (b := (cd_bits st + 6 - 8)%N). assert (Hb8 : (cd_bits st + 6 = b + 8)%N) by lia.
    rewrite Hb8 in Hsmall, Hval. clearbody b. rewrite Hu1, !land_mask by lia. unfold decoded. cbn [cd_out cd_acc cd_bits].
    pose proof (N.pow_nonzero 2 b ltac:(lia)) as Hnz.
    change 255%N with (N.shiftl 1 8 - 1)%N. rewrite land_mask, N.shiftr_div_pow2.
    assert (Hd : (acc / 2 ^ b < 256)%N).
    { apply N.Div0.div_lt_upper_bound. rewrite N.pow_add_r in Hsmall. exact Hsmall. }
    rewrite (N.mod_small (acc / 2 ^ b)) by done.
    rewrite be_val_snoc, byte_val_of, !length_app by done. cbn [length].
    split_and!; [|lia|by apply N.mod_lt|lia].
    rewrite <-Hval, N.pow_add_r. change (2 ^ 8)%N with 256%N.
    pose proof (N.div_mod acc (2 ^ b) Hnz). nia.
  - rewrite Hu1, land_mask, N.mod_small by (done || lia). unfold decoded. cbn [cd_out cd_acc cd_bits].
    rewrite length_app. cbn [length]. split_and!; [done|lia|done|lia].
Qed.

Lemma decode_fold t :
  Forall (λ c, decode_at c < 64)%N t → decoded t (foldl decode_char (Codec [] 0 0) t).
Proof.
  induction t as [|c t IH] using rev_ind; intros Ht; [done|].
  apply Forall_app in Ht as [Ht Hc]. apply Forall_cons in Hc as [Hc _].
  rewrite foldl_app. by apply decode_char_decoded; [|apply IH].
Qed.

Lemma decode_pad fuel out :
  foldl decode_char (Codec [] 0 0) (pad fuel out) = foldl decode_char (Codec [] 0 0) out.
Proof.
  revert out. induction fuel as [|fuel IH]; intros out; cbn [pad]; [done|].
  case_match; [done|]. rewrite IH, foldl_app. done.
Qed.

Lemma Base64_decode_encode bytes : Base64Decode (Base64Encode bytes) = bytes.
Proof.
  unfold Base64Decode, Base64Encode. rewrite decode_pad.
  destruct (encode_fold bytes) as ((Hv & Hl & Hall) & Hb & Ha).
  set (st := foldl encode_byte _ _) in *. clearbody st. rewrite (N.mod_small (cd_acc st)) in Hv by done.
  set (k := if (0 <? cd_bits st)%N then (6 - cd_bits st)%N else 0%N).
  set (out := if (0 <? cd_bits st)%N then _ else _).
  assert (Hout : (sextets_val out = be_val bytes * 2 ^ k ∧
    6 * N.of_nat (length out) = 8 * N.of_nat (length bytes) + k)%N ∧ Forall (λ c, decode_at c < 64)%N out).
  { subst out k. destruct (N.ltb_spec 0 (cd_bits st)) as [Hpos|Hz].
    - unfold u32_shl, kSextetBits, kSextetMask. change 63%N with (N.shiftl 1 6 - 1)%N. rewrite land_mask.
      assert (Hacc : (cd_acc st * 2 ^ (6 - cd_bits st) < 64)%N).
      { change 64%N with (2 ^ 6)%N. replace (2 ^ 6)%N with (2 ^ cd_bits st * 2 ^ (6 - cd_bits st))%N
          by (rewrite <-N.pow_add_r; f_equal; lia).
        apply N.mul_lt_mono_pos_r; [|done]. apply N.neq_0_lt_0, N.pow_nonzero. lia. }
      rewrite N.shiftl_mul_pow2. assert (u32 (cd_acc st * 2 ^ (6 - cd_bits st)) = cd_acc st * 2 ^ (6 - cd_bits st))%N as ->
        by (apply N.mod_small; eapply N.lt_trans; [exact Hacc|done]).
      rewrite N.mod_small by done.
      rewrite sextets_val_snoc, decode_alphabet, length_app by done. cbn [length].
      split; [split; [|lia]|apply Forall_app; split; [done|]; constructor; [by rewrite decode_alphabet|done]].
      rewrite <-Hv, N.mul_add_distr_r, <-N.mul_assoc, <-N.pow_add_r. f_equal. f_equal.
      replace (cd_bits st + (6 - cd_bits st))%N with 6%N by lia. done.
    - assert (cd_bits st = 0)%N as H0 by lia. rewrite H0 in *. cbn in Ha, Hv |- *. split; [|done]. split; lia. }
  destruct Hout as [[Hov Hol] Hoa]. assert (Hk : (k < 6)%N) by (subst k; destruct (N.ltb_spec 0 (cd_bits st)); lia).
  destruct (decode_fold out Hoa) as (Hdv & Hdl & Hda & Hdb). set (dt := foldl decode_char _ _) in *. clearbody dt.
  assert (Hbits : cd_bits dt = k) by lia. rewrite Hbits in *.
  apply be_val_inj; [lia|]. rewrite Hov in Hdv.
  pose proof (N.pow_nonzero 2 k ltac:(lia)). nia.
Qed.

(** Base64 decoding undoes encoding on every byte string: the 32-bit accumulator never loses a
    bit, and the padding is ignored on the way back. *)
Theorem Base64_roundtrip (bytes : str) : Base64Decode (Base64Encode bytes) = bytes.
Proof. apply Base64_decode_encode. Qed.

(** *** the line reader *)

Definition lr_view (r : line_reader) : str := lr_pending r ++ k_rest (lr_stdin r).
Definition lr_good (r : line_reader) : Prop := Forall is_Some (k_caps (lr_stdin r)).

(** what one call returns on the bytes still to come *)
Definition next_line (text : str) : bool * str * str :=
  match find nl text with
  | Some i => (true, take i text, drop (S i) text)
  | None => (negb (text == []), text, [])
  end.

Lemma k_read_good n k :
  0 < n → Forall is_Some (k_caps k) →
  ∃ got k', k_read n k = (Some got, k') ∧ got ++ k_rest k' = k_rest k ∧ Forall is_Some (k_caps k') ∧
    (got = [] → k_rest k = []) ∧ (got ≠ [] → length (k_rest k') < length (k_rest k)).
Proof.
  intros Hn Hg. destruct (k_read n k) as [got k'] eqn:E.
  destruct got as [got|].
  - destruct (k_read_spec _ _ _ _ E) as (H1 & _ & H3 & H4). exists got, k'. split; [done|].
    split; [done|]. split; [auto|]. split; [auto|]. intros Hne. rewrite <-H1, length_app.
    destruct got; [done|]. cbn [length]. lia.
  - unfold k_read in E. destruct (k_caps k) as [|[c|] caps]; try done.
    apply Forall_cons in Hg as [[? [=]] _].
Qed.

Lemma next_loop_spec fuel line r :
  length (k_rest (lr_stdin r)) < fuel → lr_good r →
  ∃ r', next_loop fuel line r =
    (let '(more, l, _) := next_line (lr_view r) in (more || negb (line == []), line ++ l, r')) ∧
    lr_view r' = (next_line (lr_view r)).2 ∧ lr_good r'.
Proof.
  revert line r. induction fuel as [|fuel IH]; intros line r Hfuel Hg; [lia|].
  cbn [next_loop]. unfold next_line. change nl with [chr_nl].
  destruct (find [chr_nl] (lr_pending r)) as [i|] eqn:F.
  - assert (Hv : find [chr_nl] (lr_view r) = Some i) by (by apply find_chr_stop).
    apply find_chr_Some in F as (a & b & Hp & <- & Ha). unfold lr_view in *. rewrite Hv, Hp.
    exists (LineReader (drop (length a + 1) (a ++ chr_nl :: b)) (lr_stdin r)).
    split; [|split; [|exact Hg]]; cbn [lr_pending lr_stdin orb].
    + rewrite <-app_assoc. by rewrite !take_app_length.
    + rewrite Nat.add_1_r, <-app_assoc. cbn [app].
      change (chr_nl :: b) with ([chr_nl] ++ b). rewrite drop_past.
      change (chr_nl :: b ++ ?x) with ([chr_nl] ++ (b ++ x)). by rewrite drop_past.
  - apply find_chr_None in F.
    assert (Hbuf : 0 < kLineBuf) by (apply Nat.neq_0_lt_0, Nat.pow_nonzero; done).
    destruct (k_read_good kLineBuf (lr_stdin r) Hbuf Hg) as (got & k & -> & Hgot & Hgk & Hend & Hlt).
    assert (Hv : lr_view r = lr_pending r ++ got ++ k_rest k) by (unfold lr_view; by rewrite Hgot).
    rewrite Hv, find_chr_skip by done.
    destruct got as [|c got]; [|].
    + specialize (Hend eq_refl). cbn [app] in Hgot |- *. rewrite Hgot, Hend. cbn. rewrite app_nil_r.
      exists (LineReader [] k). split; [|split; [unfold lr_view; cbn; by rewrite Hgot|done]].
      f_equal. f_equal. by destruct (lr_pending r), line.
    + ospecialize (Hlt _); [done|]. destruct (IH (line ++ lr_pending r) (LineReader (c :: got) k)) as (r' & -> & Hv' & Hg');
        [cbn [lr_stdin]; lia|done|].
      change (lr_view (LineReader (c :: got) k)) with ((c :: got) ++ k_rest k) in *.
      exists r'. unfold next_line in *. change nl with [chr_nl] in *.
      destruct (find [chr_nl] ((c :: got) ++ k_rest k)) as [i|] eqn:F2; cbn [fmap option_fmap option_map].
      * split; [|split; [|done]].
        -- cbn [orb]. by rewrite take_app_add, <-app_assoc.
        -- rewrite Hv'. cbn [snd]. by rewrite <-Nat.add_succ_r, drop_app_add.
      * split; [|by split]. rewrite <-app_assoc. f_equal. f_equal. by destruct line, (lr_pending r).
Qed.

Lemma Next_spec r :
  lr_good r →
  ∃ r', Next r = (let '(more, l, _) := next_line (lr_view r) in (more, l, r')) ∧
    lr_view r' = (next_line (lr_view r)).2 ∧ lr_good r'.
Proof.
  intros Hg. unfold Next. destruct (next_loop_spec (S (length (k_rest (lr_stdin r)))) [] r) as (r' & -> & H);
    [lia|done|].
  exists r'. split; [|done]. destruct (next_line (lr_view r)) as [[more l] t]. by rewrite orb_false_r.
Qed.

(** calling [Next] until it says there is no more *)
Fixpoint all_lines (fuel : nat) (r : line_reader) : list str :=
  match fuel with
  | 0 => []
  | S fuel => let '(more, line, r) := Next r in if (more : bool) then line :: all_lines fuel r else []
  end.

(** the lines of a text; a last line without newline counts unless it is empty *)
Definition lines_of (text : str) : list str :=
  let ps := pieces chr_nl text in if last ps == Some [] then removelast ps else ps.

Lemma next_line_pieces text :
  let '(more, l, rest) := next_line text in
  length rest ≤ length text - (if (more : bool) then 1 else 0) ∧
  lines_of text = if (more : bool) then l :: lines_of rest else [].
Proof.
  unfold next_line. change nl with [chr_nl]. destruct (find [chr_nl] text) as [i|] eqn:F.
  - apply find_chr_Some in F as (a & b & -> & <- & Ha).
    rewrite take_app_length. change (chr_nl :: b) with ([chr_nl] ++ b). rewrite drop_past.
    split; [rewrite !length_app; cbn [length]; lia|]. unfold lines_of. cbn [app].
    rewrite pieces_app by done. pose proof (pieces_nonnil chr_nl b).
    destruct (pieces chr_nl b) as [|p ps]; [done|]. change (last (a :: p :: ps)) with (last (p :: ps)).
    by case_bool_decide.
  - apply find_chr_None in F. split; [cbn; lia|]. unfold lines_of. rewrite pieces_free by done.
    cbn [last]. by destruct text.
Qed.

Lemma all_lines_spec m r :
  lr_good r → length (lr_view r) < m → all_lines m r = lines_of (lr_view r).
Proof.
  revert r. induction m as [|m IH]; intros r Hg Hm; [lia|]. cbn [all_lines].
  destruct (Next_spec r Hg) as (r' & -> & Hv & Hg'). pose proof (next_line_pieces (lr_view r)) as Hp.
  destruct (next_line (lr_view r)) as [[more l] rest] eqn:E. cbn [snd] in Hv. subst rest.
  destruct Hp as [Hlen ->]. destruct more; [|done]. f_equal. apply IH; [done|].
  destruct (lr_view r); [by vm_compute in E|]. cbn [length] in *. lia.
Qed.

(** However [read] cuts standard input into chunks, repeated calls of the line reader return
    the lines of the input, each whole and in order (a last line without newline included), and
    then report the end: the loop over it terminates. *)
Theorem LineReader_lines (r : line_reader) :
  lr_good r → all_lines (S (length (lr_view r))) r = lines_of (lr_view r).
Proof. intros Hg. apply all_lines_spec; [done|lia]. Qed.

Lemma LineReader_lines_witness :
  all_lines 13 (LineReader "get" (Kernel (lit " a" ++ nl ++ nl ++ lit "put b") [Some 0; Some 1; Some 4]))
  = [lit "get a"; lit ""; lit "put b"].
Proof.
  apply (LineReader_lines (LineReader "get" (Kernel (lit " a" ++ nl ++ nl ++ lit "put b") [Some 0; Some 1; Some 4]))).
  repeat constructor; by eexists.
Defined.

(** *** put and get *)

Lemma Base64Encode_chars bytes : Forall (λ c, (decode_at c < 64)%N ∨ c = "="%char) (Base64Encode bytes).
Proof.
  unfold Base64Encode. destruct (encode_fold bytes) as ((_ & _ & Hall) & _ & _).
  set (st := foldl encode_byte _ _) in *. clearbody st.
  assert (Hpad : ∀ fuel out, Forall (λ c, (decode_at c < 64)%N ∨ c = "="%char) out →
    Forall (λ c, (decode_at c < 64)%N ∨ c = "="%char) (pad fuel out)).
  { intros fuel. induction fuel as [|fuel IH]; intros out Hout; cbn [pad]; [done|].
    case_match; [done|]. apply IH, Forall_app. split; [done|]. constructor; [by right|done]. }
  assert (Hout : Forall (λ c, (decode_at c < 64)%N ∨ c = "="%char) (cd_out st)).
  { eapply Forall_impl; [exact Hall|]. by left. }
  apply Hpad. case_match; [|done]. apply Forall_app. split; [done|]. constructor; [left|done].
  rewrite decode_alphabet; [|]; unfold kSextetMask; change 63%N with (N.shiftl 1 6 - 1)%N; rewrite land_mask;
    by apply N.mod_lt.
Qed.

Lemma Base64Encode_not_in bytes c :
  decode_at c = kInvalid → c ≠ "="%char → c ∉ Base64Encode bytes.
Proof.
  intros Hc Hne Hin. pose proof (Base64Encode_chars bytes) as H. rewrite list.Forall_forall in H.
  destruct (H c Hin) as [Hlt|Heq]; [|done]. rewrite Hc in Hlt. done.
Qed.

Lemma quoted_one_line bytes : chr_nl ∉ quoted (Base64Encode bytes).
Proof. unfold quoted. rewrite !not_elem_of_app. split_and!; [not_in|by apply Base64Encode_not_in|not_in]. Qed.

Lemma body_of_quoted body : body_of_line (quoted (Base64Encode body)) = body.
Proof.
  unfold body_of_line, quoted. set (e := Base64Encode body).
  assert (Hl : length ([chr_quot] ++ e ++ [chr_quot]) = length e + 2) by (rewrite !length_app; cbn [length]; lia).
  rewrite Hl, (proj2 (Nat.leb_le _ _)) by lia. change (head ([chr_quot] ++ e ++ [chr_quot])) with (Some chr_quot).
  rewrite app_assoc, last_snoc. rewrite bool_decide_eq_true_2 by done. cbn [andb app].
  unfold substr. rewrite Nat.add_sub. cbn [drop]. rewrite drop_0, take_app_length. apply Base64_decode_encode.
Qed.

(** a line that comes after blank ones *)
Lemma body_line_after blanks line rest r :
  lr_good r → line ≠ [] → chr_nl ∉ line →
  (lr_view r = replicate blanks chr_nl ++ line ++ nl ++ rest ∨
   (rest = [] ∧ lr_view r = replicate blanks chr_nl ++ line)) →
  ∃ r', body_line r = (line, r') ∧ lr_view r' = rest ∧ lr_good r'.
Proof.
  intros Hg Hne Hnl Hv. unfold body_line.
  change (lr_pending r ++ k_rest (lr_stdin r)) with (lr_view r).
  rewrite <-length_app. fold (lr_view r).
  assert (Hm : blanks + 2 ≤ S (S (length (lr_view r)))).
  { destruct Hv as [->|[_ ->]]; rewrite !length_app, length_replicate; lia. }
  generalize dependent (S (S (length (lr_view r)))). intros fuel Hm. revert fuel Hm r Hg Hv.
  induction blanks as [|blanks IH]; intros [|fuel] Hm r Hg Hv; try lia; cbn [body_line_loop].
  - change (([] : str) == []) with true. cbn iota.
    destruct (Next_spec r Hg) as (r' & -> & Hv' & Hg').
    assert (next_line (lr_view r) = (true, line, rest)) as Hnext.
    { unfold next_line. change nl with [chr_nl]. cbn [replicate app] in Hv. destruct Hv as [->|[-> ->]].
      - change nl with [chr_nl]. change ([chr_nl] ++ rest) with (chr_nl :: rest) at 1. rewrite find_chr_app by done.
        by rewrite take_app_length, drop_past.
      - rewrite (proj2 (find_chr_None _ _)) by done. by rewrite bool_decide_eq_false_2. }
    rewrite Hnext in Hv' |- *. exists r'. destruct fuel; [lia|]. cbn [body_line_loop].
    by rewrite bool_decide_eq_false_2.
  - change (([] : str) == []) with true. cbn iota.
    destruct (Next_spec r Hg) as (r' & -> & Hv' & Hg').
    assert (∃ t, next_line (lr_view r) = (true, [], t) ∧ lr_view r = chr_nl :: t) as (t & Hnext & Ht).
    { cbn [replicate app] in Hv. destruct Hv as [Hv|[_ Hv]]; rewrite Hv; by eexists. }
    rewrite Hnext in Hv' |- *. cbn [snd] in Hv'. apply IH; [lia|done|]. rewrite Hv'.
    destruct Hv as [Hv|[-> Hv]]; rewrite Hv in Ht; cbn [replicate app] in Ht; injection Ht as <-; auto.
Qed.

Lemma body_line_eof blanks r :
  lr_good r → lr_view r = replicate blanks chr_nl → ∃ r', body_line r = ([], r').
Proof.
  intros Hg Hv. unfold body_line. rewrite <-length_app. fold (lr_view r).
  generalize (S (S (length (lr_view r)))). intros fuel. revert fuel r Hg Hv.
  induction blanks as [|blanks IH]; intros [|fuel] r Hg Hv; cbn [body_line_loop]; try by eexists.
  - change (([] : str) == []) with true. cbn iota.
    destruct (Next_spec r Hg) as (r' & -> & _). rewrite Hv. by eexists.
  - change (([] : str) == []) with true. cbn iota.
    destruct (Next_spec r Hg) as (r' & -> & Hv' & Hg'). rewrite Hv in Hv' |- *. cbn in Hv' |- *.
    by apply IH.
Qed.

(** a body line cut short is no quoted string *)
Lemma body_of_cut k body :
  k < length (quoted (Base64Encode body)) → body_of_line (take k (quoted (Base64Encode body))) = [].
Proof.
  intros Hk. unfold body_of_line. destruct (_ && _) eqn:E; [|done]. exfalso.
  apply andb_true_iff in E as [E Hlast]. apply andb_true_iff in E as [Hlen _]. bool_prop.
  unfold quoted in *. set (e := Base64Encode body) in *. rewrite !length_app in Hk. cbn [length] in Hk.
  rewrite length_take in Hlen. destruct k as [|[|k]]; [lia|lia|].
  cbn [app take] in Hlast. rewrite take_app_le in Hlast by lia. rewrite last_cons in Hlast.
  assert (Hq : last (take (S k) e) ≠ Some chr_quot).
  { intros Hin. apply last_Some_elem_of in Hin. eapply (Base64Encode_not_in body chr_quot); [done|done|].
    fold e. rewrite <-(take_drop (S k) e). set_solver. }
  destruct (last (take (S k) e)) eqn:El; [congruence|].
  apply last_None in El. destruct e; cbn in *; [lia|done].
Qed.

Section Session_properties.
Context (zstd_compress zstd_decompress : str → option str).
Context (lossless : ∀ value frame, zstd_compress value = Some frame → zstd_decompress frame = Some value).
Context {P : Type} `{Hpeer : Peer P, !CacheDaemon P}.
Context (pid : nat) (faults : str → write_faults).
Notation HandleGet := (HandleGet zstd_decompress pid faults).
Notation HandlePut := (HandlePut zstd_compress pid faults).

Definition fits (v : str) : Prop := storable zstd_compress v ∧ (N.of_nat (length v) < 2 ^ 32)%N.

Lemma go_words action output_id :
  length action ≤ 2000 → length output_id ≤ 2000 →
  word (slot_key (GoAction (HexEncode action))) ∧ word (slot_key (GoOutput (HexEncode output_id))).
Proof using Type.
  intros Ha Ho. split; apply (hex_word _ _); try done.
  - change (length (lit "go/a/")) with 5. lia.
  - change (length (lit "go/o/")) with 5. lia.
Qed.

(** after [put_store], the two keys lead back to the body *)
Lemma put_store_stored s id action output_id body :
  s_live s = true → synced (s_cache s) → faultless (s_cache s) →
  length action ≤ 2000 → length output_id ≤ 2000 → fits body → fits output_id →
  let s' := put_store zstd_compress pid faults s id (HexEncode action) output_id body in
  s_live s' = true ∧ s_dir s' = s_dir s ∧ synced (s_cache s') ∧ faultless (s_cache s') ∧
  s_disk s' = written pid (disk_path s output_id) body (faults (disk_path s output_id)) (s_disk s) ∧
  stored (c_peer (s_cache s')) !! slot_key (GoAction (HexEncode action)) = Some (Compress zstd_compress output_id) ∧
  stored (c_peer (s_cache s')) !! slot_key (GoOutput (HexEncode output_id)) = Some (Compress zstd_compress body).
Proof using Type.
  intros Hl Hs Hf Ha Ho [Hb _] [Hi _]. unfold put_store. cbn [write s_live s_cache]. rewrite Hl.
  destruct (go_words action output_id Ha Ho) as [Hwa Hwo].
  destruct (Put_faultless zstd_compress _ _ _ Hs Hf Hwo Hb) as (c1 & -> & Hs1 & Hf1 & Hm1). cbn [snd].
  destruct (Put_faultless zstd_compress _ _ _ Hs1 Hf1 Hwa Hi) as (c2 & -> & Hs2 & Hf2 & Hm2).
  cbn. split_and!; try done.
  - by rewrite Hm2, lookup_insert_eq.
  - rewrite Hm2, lookup_insert_ne, Hm1, lookup_insert_eq by (cbn; intros [=]). done.
Qed.

Lemma Get_faultless key v (c : client P) :
  synced c → faultless c → word key → fits v → stored (c_peer c) !! key = Some (Compress zstd_compress v) →
  ∃ c', Get zstd_decompress key c = (Some v, c') ∧ synced c' ∧ faultless c' ∧
    stored (c_peer c') = stored (c_peer c).
Proof using lossless.
  intros Hs Hf Hw [[Hz _] Hl] Hst. destruct (Get zstd_decompress key c) as [r c'] eqn:E.
  destruct (Get_spec zstd_decompress c key r c' Hs Hw E) as [_ H].
  destruct (H Hf) as (-> & Hs' & Hf' & Hm). exists c'. rewrite Hst. cbn.
  rewrite (Decompress_Compress zstd_compress zstd_decompress lossless v Hz Hl). done.
Qed.

Lemma HandleGet_stored s id action output_id body :
  s_live s = true → synced (s_cache s) → faultless (s_cache s) →
  length action ≤ 2000 → length output_id ≤ 2000 → fits body → fits output_id →
  stored (c_peer (s_cache s)) !! slot_key (GoAction (HexEncode action)) = Some (Compress zstd_compress output_id) →
  stored (c_peer (s_cache s)) !! slot_key (GoOutput (HexEncode output_id)) = Some (Compress zstd_compress body) →
  let path := disk_path s output_id in
  let s' := HandleGet s id (HexEncode action) in
  s_out s' = s_out s ++ [hit_line id output_id (length body) path] ∧
  s_disk s' = (if bool_decide (is_Some (s_disk s !! path)) then s_disk s
               else written pid path body (faults path) (s_disk s)).
Proof using lossless.
  intros Hl Hs Hf Ha Ho Hb Hi Hsa Hso. unfold GoCache.HandleGet. rewrite Hl.
  destruct (go_words action output_id Ha Ho) as [Hwa Hwo].
  destruct (Get_faultless _ output_id _ Hs Hf Hwa Hi Hsa) as (c1 & -> & Hs1 & Hf1 & Hm1).
  cbn [set_cache s_cache]. rewrite <-Hm1 in Hso.
  destruct (Get_faultless _ body _ Hs1 Hf1 Hwo Hb Hso) as (c2 & -> & Hs2 & Hf2 & Hm2).
  cbn [log set_cache s_disk s_dir s_out s_cache s_live s_log].
  change (disk_path (log _ _ _) output_id) with (disk_path s output_id).
  destruct (bool_decide (is_Some (s_disk s !! disk_path s output_id))); done.
Qed.


(** When the stream ends anywhere inside the body line (the go command was killed), the PUT is
    refused with an error reply and neither the disk nor the daemon is touched. *)
Theorem go_torn_put (s : session (P := P)) (input : line_reader) (id : Z) (action body req : str) (blanks k : nat) :
  lr_good input → (0 < JsonInt req "BodySize")%Z → k < length (quoted (Base64Encode body)) →
  lr_view input = replicate blanks chr_nl ++ take k (quoted (Base64Encode body)) →
  let s' := (HandlePut s input id action req).1 in
  s_cache s' = s_cache s ∧ s_disk s' = s_disk s ∧ s_log s' = s_log s ∧
  s_out s' = s_out s ++ [err_line id 0 (JsonInt req "BodySize")].
Proof using Type.
  intros Hg Hsize Hk Hview. unfold GoCache.HandlePut. rewrite (proj2 (Z.ltb_lt _ _)) by done.
  assert (∃ r', body_line input = (take k (quoted (Base64Encode body)), r')) as (r' & ->).
  { destruct (decide (take k (quoted (Base64Encode body)) = [])) as [Hnil|Hne].
    - rewrite Hnil in *. rewrite app_nil_r in Hview. by eapply body_line_eof.
    - destruct (body_line_after blanks (take k (quoted (Base64Encode body))) [] input) as (r' & -> & _); eauto.
      intros Hin%elem_of_take. destruct Hin as (i & Hi & _). apply list_elem_of_lookup_2 in Hi.
      by apply quoted_one_line in Hi. }
  rewrite body_of_cut by done. cbn [length Z.of_nat]. rewrite (proj2 (Z.eqb_neq _ _)) by lia. done.
Qed.
End Session_properties.

(** *** at a concrete session *)

Definition sample_session : session :=
  Session sample_client true (lit "/tmp/go") ∅ [] [].
Definition sample_faults (path : str) : write_faults := WriteFaults false None false.
Definition sample_req : str :=
  lit "{" ++ quoted "ID" ++ ":7," ++ quoted "Command" ++ ":" ++ quoted "put" ++ "," ++
  quoted "OutputID" ++ ":" ++ quoted (Base64Encode "out") ++ "," ++ quoted "BodySize" ++ ":4}".
Definition sample_input (body : str) : line_reader :=
  LineReader nl (Kernel (quoted body ++ nl) [Some 0; Some 2]).

Lemma sample_input_good body : lr_good (sample_input body).
Proof. repeat constructor; by eexists. Qed.
Lemma sample_fits (v : str) : (N.of_nat (length v) < 2 ^ 20)%N → fits Some v.
Proof.
  intros Hl. split; [split; [by eexists|]|].
  - change (Compress Some v) with (le_bytes kHeader (N.of_nat (length v) mod 2 ^ 32) ++ v).
    rewrite length_app, le_bytes_length. unfold kHeader.
    replace kMaxObjectSize with (2 ^ 31)%N by done. lia.
  - lia.
Qed.


Lemma go_torn_put_witness :
  s_out (HandlePut Some 9 sample_faults sample_session
    (LineReader nl (Kernel (take 5 (quoted (Base64Encode "body"))) [])) 7 (HexEncode "act") sample_req).1
  = [err_line 7 0 4].
Proof.
  destruct (go_torn_put Some 9 sample_faults sample_session
    (LineReader nl (Kernel (take 5 (quoted (Base64Encode "body"))) [])) 7 (HexEncode "act") "body" sample_req 1 5)
    as (_ & _ & _ & H); [constructor|vm_compute; reflexivity|apply Nat.ltb_lt; vm_compute; reflexivity|
      vm_compute; reflexivity|].
  rewrite H. vm_compute. reflexivity.
Defined.
