(* ===== verification/NixHash.v ===== *)
(** * nix_store_mode.cc: SHA-256, Nix32 and store paths

    The hash functions store paths are defined over, at the source's word width, and the paths
    derived from them. *)

From S2P Require Import Prelude Paths Base Store.

(** ** SHA-256 *)

Definition w32 (n : N) : N := n mod 2 ^ 32.
Definition add32 (a b : N) : N := w32 (a + b).
(** [std::rotr] on 32 bits, and [~] *)
Definition rotr (x : N) (k : N) : N := N.lor (N.shiftr x k) (w32 (N.shiftl x (32 - k))).
Definition not32 (x : N) : N := N.lxor x (2 ^ 32 - 1).

(** eight array elements of 32 bits, the first one in the highest bits *)
Definition row (n : N) : list N := map (λ i, w32 (N.shiftr n (32 * (7 - N.of_nat i)))) (seq 0 8).

Definition kRoundConstants : list N := Eval vm_compute in concat (map row [
  0x428a2f9871374491b5c0fbcfe9b5dba53956c25b59f111f1923f82a4ab1c5ed5;
  0xd807aa9812835b01243185be550c7dc372be5d7480deb1fe9bdc06a7c19bf174;
  0xe49b69c1efbe47860fc19dc6240ca1cc2de92c6f4a7484aa5cb0a9dc76f988da;
  0x983e5152a831c66db00327c8bf597fc7c6e00bf3d5a7914706ca635114292967;
  0x27b70a852e1b21384d2c6dfc53380d13650a7354766a0abb81c2c92e92722c85;
  0xa2bfe8a1a81a664bc24b8b70c76c51a3d192e819d6990624f40e3585106aa070;
  0x19a4c1161e376c082748774c34b0bcb5391c0cb34ed8aa4a5b9cca4f682e6ff3;
  0x748f82ee78a5636f84c878148cc7020890befffaa4506cebbef9a3f7c67178f2]%N).
Definition kInitialState : list N := Eval vm_compute in row
  0x6a09e667bb67ae853c6ef372a54ff53a510e527f9b05688c1f83d9ab5be0cd19.
Definition kBlockBytes : nat := 64.

(** element of a fixed-size array *)
Definition at_ (xs : list N) (i : nat) : N := default 0%N (xs !! i).
Definition byte_at (s : str) (i : nat) : N := default 0%N (byte_val <$> s !! i).

(** the first sixteen words of the schedule *)
Definition block_word (block : str) (i : nat) : N :=
  N.lor (N.lor (N.lor (N.shiftl (byte_at block (i * 4)) 24) (N.shiftl (byte_at block (i * 4 + 1)) 16))
               (N.shiftl (byte_at block (i * 4 + 2)) 8)) (byte_at block (i * 4 + 3)).
(** [schedule[i]] for i = 16 … 63, appended in order *)
Definition schedule_step (schedule : list N) (i : nat) : list N :=
  let s0 := N.lxor (N.lxor (rotr (at_ schedule (i - 15)) 7) (rotr (at_ schedule (i - 15)) 18))
                   (N.shiftr (at_ schedule (i - 15)) 3) in
  let s1 := N.lxor (N.lxor (rotr (at_ schedule (i - 2)) 17) (rotr (at_ schedule (i - 2)) 19))
                   (N.shiftr (at_ schedule (i - 2)) 10) in
  schedule ++ [add32 (add32 (add32 (at_ schedule (i - 16)) s0) (at_ schedule (i - 7))) s1].
Definition make_schedule (block : str) : list N :=
  foldl schedule_step (map (block_word block) (seq 0 16)) (seq 16 48).

Definition round (schedule : list N) (work : list N) (i : nat) : list N :=
  let w := at_ work in
  let s1 := N.lxor (N.lxor (rotr (w 4) 6) (rotr (w 4) 11)) (rotr (w 4) 25) in
  let choose := N.lxor (N.land (w 4) (w 5)) (N.land (not32 (w 4)) (w 6)) in
  let temp1 := add32 (add32 (add32 (add32 (w 7) s1) choose) (at_ kRoundConstants i)) (at_ schedule i) in
  let s0 := N.lxor (N.lxor (rotr (w 0) 2) (rotr (w 0) 13)) (rotr (w 0) 22) in
  let majority := N.lxor (N.lxor (N.land (w 0) (w 1)) (N.land (w 0) (w 2))) (N.land (w 1) (w 2)) in
  let temp2 := add32 s0 majority in
  [add32 temp1 temp2; w 0; w 1; w 2; add32 (w 3) temp1; w 4; w 5; w 6].

Definition CompressBlock (state : list N) (block : str) : list N :=
  let schedule := make_schedule block in
  let work := foldl (round schedule) state (seq 0 64) in
  map (λ i, add32 (at_ state i) (at_ work i)) (seq 0 8).

(** whole blocks first; returns the state and what is left *)
Fixpoint blocks_loop (fuel : nat) (state : list N) (data : str) : list N * str :=
  match fuel with
  | 0 => (state, data)
  | S fuel =>
      if (kBlockBytes <=? length data)%nat then
        blocks_loop fuel (CompressBlock state (take kBlockBytes data)) (drop kBlockBytes data)
      else (state, data)
  end.

(** the [tail] array: remaining bytes, 0x80, zeros, and the bit length written over the last eight *)
Definition sha_tail (rest : str) (size : nat) : str :=
  let tail_len := if (length rest + 1 + 8 <=? kBlockBytes)%nat then kBlockBytes else kBlockBytes * 2 in
  let bit_length := ((N.of_nat size * 8) mod 2 ^ 64)%N in
  let body := rest ++ [byte_of 128] ++ replicate (tail_len - length rest - 1) chr_nul in
  foldl (λ tail i, <[tail_len - 1 - i := byte_of (N.land (N.shiftr bit_length (N.of_nat i * 8)) 255)]> tail)
    body (seq 0 8).

Definition Sha256 (data : str) : str :=
  let '(state, rest) := blocks_loop (S (length data)) kInitialState data in
  let '(state, _) := blocks_loop 2 state (sha_tail rest (length data)) in
  concat (map (λ word, map (λ shift, byte_of (N.land (N.shiftr word shift) 255)) [24; 16; 8; 0]%N) state).

(** ** Nix32 *)

Definition kBits : nat := 5.
(** [((bytes.size() * 8 - 1) / kBits) + 1] on [size_t] *)
Definition nix32_length (n : nat) : nat :=
  N.to_nat ((N.of_nat n * 8 + (2 ^ 64 - 1)) mod 2 ^ 64 / N.of_nat kBits + 1).

Definition nix32_char (bytes : str) (length idx : nat) : ascii :=
  let bit := (length - 1 - idx) * kBits in
  let pair := N.lor (byte_at bytes (bit / 8)) (N.shiftl (byte_at bytes (bit / 8 + 1)) 8) in
  default "0"%char (kAlphabet32 !! N.to_nat (N.land (N.shiftr pair (N.of_nat (bit mod 8))) 31)).

Definition Nix32 (bytes : str) : str :=
  let len := nix32_length (length bytes) in map (nix32_char bytes len) (seq 0 len).

(** ** Store paths *)

Definition kStorePathHashBytes : nat := 20.

Definition CompressHash (digest : str) : str :=
  foldl (λ out ic,
    <[(ic.1 mod kStorePathHashBytes)%nat :=
        byte_of (N.lxor (byte_at out (ic.1 mod kStorePathHashBytes)) (byte_val ic.2))]> out)
    (replicate kStorePathHashBytes chr_nul) (imap pair digest).

Definition MakeStorePath (store_dir type inner_fingerprint name : str) : str :=
  let fingerprint :=
    type ++ lit ":sha256:" ++ HexEncode (Sha256 inner_fingerprint) ++ ":" ++ store_dir ++ ":" ++ name in
  store_dir ++ "/" ++ Nix32 (CompressHash (Sha256 fingerprint)) ++ "-" ++ name.

Definition FixedOutputPath (store_dir name algo hex : str) : str :=
  MakeStorePath store_dir "output:out" (lit "fixed:out:" ++ algo ++ ":" ++ hex ++ ":") name.

(** [std::ranges::sort] on strings: bytes compared as unsigned, a prefix first *)
Fixpoint str_leb (a b : str) : bool :=
  match a, b with
  | [], _ => true
  | _ :: _, [] => false
  | c :: a, d :: b =>
      if (byte_val c <? byte_val d)%N then true else if (byte_val d <? byte_val c)%N then false else str_leb a b
  end.
Fixpoint insert_sorted (x : str) (xs : list str) : list str :=
  match xs with
  | [] => [x]
  | y :: ys => if str_leb x y then x :: xs else y :: insert_sorted x ys
  end.
Definition sort_strings (xs : list str) : list str := foldr insert_sorted [] xs.

Definition TextPath (store_dir name : str) (references : list str) (contents : str) : str :=
  let type := foldl (λ type ref, type ++ lit ":" ++ ref) (lit "text") (sort_strings references) in
  MakeStorePath store_dir type contents name.

(** ** Properties *)

(** *** FIPS 180-4 test vectors *)

Example Sha256_empty :
  HexEncode (Sha256 []) = lit "e3b0c44298fc1c149afbf4c8996fb92427ae41e4649b934ca495991b7852b855".
Proof. vm_compute. reflexivity. Qed.
Example Sha256_abc :
  HexEncode (Sha256 "abc") = lit "ba7816bf8f01cfea414140de5dae2223b00361a396177a9cb410ff61f20015ad".
Proof. vm_compute. reflexivity. Qed.
Example Sha256_two_blocks :
  HexEncode (Sha256 "abcdbcdecdefdefgefghfghighijhijkijkljklmklmnlmnomnopnopq")
  = lit "248d6a61d20638b8e5c026930c3e6039a33ce45964ff2167f6ecedd419db06c1".
Proof. vm_compute. reflexivity. Qed.
Example Sha256_a1000 :
  HexEncode (Sha256 (replicate 1000 "a"%char)) = lit "41edece42d63e8d9bf515a9ba6932e1c20cbc9f5a5d134645adb5db1b9737ea3".
Proof. vm_compute. reflexivity. Qed.
Example Nix32_abc : Nix32 (Sha256 "abc") = lit "1b8m03r63zqhnjf7l5wnldhh7c134ap5vpj0850ymkq1iyzicy5s".
Proof. vm_compute. reflexivity. Qed.
Example FixedOutputPath_empty :
  FixedOutputPath "/nix/store" "e" "sha256" "e3b0c44298fc1c149afbf4c8996fb92427ae41e4649b934ca495991b7852b855"
  = lit "/nix/store/3hc40wwijh4im7g2i31nk75qappbjw9i-e".
Proof. vm_compute. reflexivity. Qed.

(** *** SHA-256 hashes the padded message of FIPS 180-4, 5.1.1 *)

(** [n] blocks off the front *)
Fixpoint chunks (n : nat) (msg : str) : list str :=
  match n with
  | 0 => []
  | S n => take kBlockBytes msg :: chunks n (drop kBlockBytes msg)
  end.

Definition be64 (n : N) : str :=
  map (λ i, byte_of (N.land (N.shiftr n (i * 8)) 255)) [7; 6; 5; 4; 3; 2; 1; 0]%N.

(** one bit, then zeros up to 448 mod 512 bits, then the length in bits *)
Definition fips_pad (data : str) : str :=
  data ++ [byte_of 128] ++ replicate ((119 - length data mod 64) mod 64) chr_nul ++
  be64 ((N.of_nat (length data) * 8) mod 2 ^ 64).

(** the digest as the standard defines it, over the blocks of the padded message *)
Definition fips_digest (data : str) : str :=
  let msg := fips_pad data in
  let state := foldl CompressBlock kInitialState (chunks (length msg / kBlockBytes) msg) in
  concat (map (λ word, map (λ shift, byte_of (N.land (N.shiftr word shift) 255)) [24; 16; 8; 0]%N) state).

Lemma blocks_loop_spec fuel state data :
  length data / kBlockBytes ≤ fuel →
  blocks_loop fuel state data =
    (foldl CompressBlock state (chunks (length data / kBlockBytes) data),
     drop (kBlockBytes * (length data / kBlockBytes)) data).
Proof.
  assert (Hz : kBlockBytes ≠ 0) by done.
  revert state data. induction fuel as [|fuel IH]; intros state data Hf; cbn [blocks_loop].
  { replace (length data / kBlockBytes) with 0 by lia. by rewrite Nat.mul_0_r. }
  destruct (Nat.leb_spec kBlockBytes (length data)) as [Hl|Hl].
  - assert (Hd : length data / kBlockBytes = S (length (drop kBlockBytes data) / kBlockBytes)).
    { rewrite length_drop. replace (length data) with (length data - kBlockBytes + 1 * kBlockBytes) at 1 by lia.
      rewrite Nat.div_add by done. lia. }
    rewrite Hd in Hf |- *. rewrite IH by lia. cbn [chunks foldl]. rewrite drop_drop. do 2 f_equal. lia.
  - rewrite Nat.div_small by done. by rewrite Nat.mul_0_r.
Qed.

Lemma chunks_app n k a b :
  length a = kBlockBytes * n → chunks (n + k) (a ++ b) = chunks n a ++ chunks k b.
Proof.
  revert a. induction n as [|n IH]; intros a Ha; cbn [Nat.add chunks].
  { destruct a; [done|]. cbn [length] in Ha. lia. }
  rewrite take_app_le, drop_app_le by lia. cbn [app]. f_equal. apply IH. rewrite length_drop. lia.
Qed.

Lemma sha_tail_spec rest size :
  length rest < kBlockBytes →
  sha_tail rest size = rest ++ [byte_of 128] ++ replicate ((119 - length rest mod 64) mod 64) chr_nul ++
    be64 ((N.of_nat size * 8) mod 2 ^ 64).
Proof.
  intros Hr. unfold kBlockBytes in Hr. unfold sha_tail, kBlockBytes.
  set (n := ((N.of_nat size * 8) mod 2 ^ 64)%N). set (tl := if (length rest + 1 + 8 <=? 64)%nat then 64 else 64 * 2).
  set (k := (119 - length rest mod 64) mod 64).
  assert (Htl : tl = length rest + 1 + k + 8).
  { subst tl k. rewrite (Nat.mod_small (length rest)) by done.
    destruct (Nat.leb_spec (length rest + 1 + 8) 64).
    - replace (119 - length rest) with (55 - length rest + 1 * 64) by lia.
      rewrite Nat.Div0.mod_add, Nat.mod_small by lia. lia.
    - rewrite Nat.mod_small by lia. lia. }
  replace (tl - length rest - 1) with (k + 8) by lia. rewrite replicate_add.
  replace (rest ++ [byte_of 128] ++ replicate k chr_nul ++ replicate 8 chr_nul)
    with ((rest ++ [byte_of 128] ++ replicate k chr_nul) ++ replicate 8 chr_nul) by (by rewrite <-!app_assoc).
  replace (rest ++ [byte_of 128] ++ replicate k chr_nul ++ be64 n)
    with ((rest ++ [byte_of 128] ++ replicate k chr_nul) ++ be64 n) by (by rewrite <-!app_assoc).
  set (pre := rest ++ _ ++ _). assert (Hpre : tl = length pre + 8).
  { subst pre. rewrite !length_app, length_replicate. cbn [length]. lia. }
  rewrite Hpre. clearbody n pre. clear.
  assert (Hins : ∀ (xs : str) i c, i < 8 → <[length pre + 8 - 1 - i := c]> (pre ++ xs) = pre ++ <[7 - i := c]> xs).
  { intros xs i c Hi. rewrite insert_app_r_alt by lia. do 2 f_equal. lia. }
  cbn [seq foldl]. rewrite !Hins by lia. done.
Qed.

Lemma Sha256_fips_eq data : Sha256 data = fips_digest data.
Proof.
  unfold Sha256, fips_digest. rewrite blocks_loop_spec by (apply Nat.Div0.div_le_upper_bound; unfold kBlockBytes; lia).
  set (q := length data / kBlockBytes). set (rest := drop (kBlockBytes * q) data).
  assert (Hq : length data = kBlockBytes * q + length rest ∧ length rest < kBlockBytes).
  { subst q rest. rewrite length_drop. unfold kBlockBytes.
    pose proof (Nat.div_mod (length data) 64 ltac:(lia)). pose proof (Nat.mod_upper_bound (length data) 64 ltac:(lia)). lia. }
  destruct Hq as [Hlen Hrest].
  assert (Hmod : length data mod 64 = length rest mod 64).
  { rewrite Hlen. unfold kBlockBytes. rewrite Nat.add_comm, Nat.mul_comm. by rewrite Nat.Div0.mod_add. }
  set (tail := sha_tail rest (length data)).
  assert (Hpad : fips_pad data = take (kBlockBytes * q) data ++ tail).
  { unfold fips_pad. rewrite Hmod. subst tail. rewrite sha_tail_spec by done.
    rewrite (app_assoc (take _ _)). subst rest. by rewrite take_drop. }
  assert (Hta : length (take (kBlockBytes * q) data) = kBlockBytes * q) by (rewrite length_take; lia).
  assert (Htl : length tail = kBlockBytes ∨ length tail = 2 * kBlockBytes).
  { subst tail. rewrite sha_tail_spec by done. unfold kBlockBytes in *. rewrite !length_app, length_replicate.
    cbn [length be64 map]. rewrite (Nat.mod_small (length rest)) by done.
    destruct (decide (length rest < 56)).
    - left. replace (119 - length rest) with (55 - length rest + 1 * 64) by lia.
      rewrite Nat.Div0.mod_add, Nat.mod_small by lia. lia.
    - right. rewrite Nat.mod_small by lia. lia. }
  assert (Hk : ∃ k, length tail = kBlockBytes * k ∧ k ≤ 2) by (destruct Htl; [exists 1|exists 2]; lia).
  destruct Hk as (k & Hk & Hk2).
  assert (Hdiv : length tail / kBlockBytes = k) by (rewrite Hk, Nat.mul_comm; by apply Nat.div_mul).
  rewrite blocks_loop_spec by lia. rewrite Hdiv.
  rewrite Hpad, length_app, Hta, Hk, <-Nat.mul_add_distr_l, (Nat.mul_comm kBlockBytes (q + k)), Nat.div_mul by done.
  rewrite chunks_app by done. rewrite foldl_app.
  assert (chunks q data = chunks q (take (kBlockBytes * q) data)) as ->; [|done].
  rewrite <-(take_drop (kBlockBytes * q) data) at 1. rewrite <-(Nat.add_0_r q) at 1.
  rewrite chunks_app by done. by rewrite app_nil_r.
Qed.

Lemma digest_length (state : list N) :
  length state = 8 →
  length (concat (map (λ word, map (λ shift, byte_of (N.land (N.shiftr word shift) 255)) [24; 16; 8; 0]%N) state)) = 32.
Proof. intros H. do 8 (destruct state as [|? state]; [done|]). by destruct state. Qed.

Lemma Sha256_length data : length (Sha256 data) = 32.
Proof.
  rewrite Sha256_fips_eq. unfold fips_digest. apply digest_length.
  set (bs := chunks _ _). destruct bs as [|b bs _] using rev_ind; [done|]. rewrite foldl_app. done.
Qed.


(** *** Nix32 writes the bytes as one little-endian number in base 32 *)

Lemma byte_at_drop s i : byte_at (drop i s) 0 = byte_at s i.
Proof. unfold byte_at. by rewrite lookup_drop, Nat.add_0_r. Qed.

Lemma le_val_split s : le_val s = (byte_at s 0 + 256 * le_val (drop 1 s))%N.
Proof. by destruct s. Qed.

Lemma le_val_drop s q : (le_val s / 2 ^ (8 * N.of_nat q) = le_val (drop q s))%N.
Proof.
  revert s. induction q as [|q IH]; intros s; [by rewrite N.div_1_r|].
  replace (8 * N.of_nat (S q))%N with (8 + 8 * N.of_nat q)%N by lia.
  rewrite N.pow_add_r, <-N.Div0.div_div. change (2 ^ 8)%N with 256%N.
  destruct s as [|c s]; [reflexivity|].
  cbn [le_val drop]. pose proof (byte_val_range c).
  replace ((byte_val c + 256 * le_val s) / 256)%N with (le_val s); [apply IH|].
  rewrite (N.mul_comm 256), N.div_add, N.div_small by lia. lia.
Qed.

Lemma byte_at_range s i : (byte_at s i < 256)%N.
Proof. unfold byte_at. destruct (s !! i); cbn; [apply byte_val_range|lia]. Qed.

Lemma nix32_digit bytes len idx :
  nix32_char bytes len idx =
  default "0"%char (kAlphabet32 !! N.to_nat (le_val bytes / 32 ^ N.of_nat (len - 1 - idx) mod 32)).
Proof.
  unfold nix32_char, kBits. set (d := len - 1 - idx). set (bit := d * 5). do 3 f_equal.
  change 31%N with (N.shiftl 1 5 - 1)%N. rewrite land_mask, N.shiftr_div_pow2.
  set (q := bit / 8). set (r := bit mod 8).
  assert (Hbit : bit = 8 * q + r ∧ r < 8).
  { subst q r. pose proof (Nat.div_mod bit 8 ltac:(lia)). pose proof (Nat.mod_upper_bound bit 8 ltac:(lia)). lia. }
  destruct Hbit as [Hbit Hr].
  replace (32 ^ N.of_nat d)%N with (2 ^ (8 * N.of_nat q) * 2 ^ N.of_nat r)%N.
  2: { rewrite <-N.pow_add_r. change 32%N with (2 ^ 5)%N. rewrite <-N.pow_mul_r. f_equal. lia. }
  rewrite <-N.Div0.div_div, le_val_drop.
  rewrite N.lor_comm, lor_shiftl by apply byte_at_range. change (2 ^ 8)%N with 256%N.
  rewrite (le_val_split (drop q bytes)), byte_at_drop, (le_val_split (drop 1 _)), drop_drop, byte_at_drop.
  set (a := byte_at bytes q). set (b := byte_at bytes (q + 1)). set (x := le_val _).
  replace (a + 256 * (b + 256 * x))%N with (b * 256 + a + x * 2 ^ 16)%N by (change (2 ^ 16)%N with 65536%N; lia).
  clearbody a b x. clear -Hr.
  replace (2 ^ 16)%N with (2 ^ (11 - N.of_nat r) * 2 ^ 5 * 2 ^ N.of_nat r)%N.
  2: { rewrite <-!N.pow_add_r. f_equal. lia. }
  rewrite !N.mul_assoc, N.div_add by (apply N.pow_nonzero; lia).
  by rewrite N.Div0.mod_add.
Qed.

Lemma nix32_char_ok bytes len idx : contains_chr kAlphabet32 (nix32_char bytes len idx) = true.
Proof.
  rewrite nix32_digit. pose proof (N.mod_lt (le_val bytes / 32 ^ N.of_nat (len - 1 - idx)) 32 ltac:(lia)) as Hm.
  set (d := (_ mod 32)%N) in *. clearbody d. assert (N.to_nat d < 32) as Hd by lia.
  generalize dependent (N.to_nat d). intros n Hn. do 32 (destruct n as [|n]; [vm_compute; done|]). lia.
Qed.

Lemma alphabet32_inj i j :
  (i < 32)%N → (j < 32)%N →
  default "0"%char (kAlphabet32 !! N.to_nat i) = default "0"%char (kAlphabet32 !! N.to_nat j) → i = j.
Proof.
  intros Hi Hj. rewrite <-(N2Nat.id i), <-(N2Nat.id j). rewrite !Nat2N.id.
  assert (N.to_nat i < 32) as Hi' by lia. assert (N.to_nat j < 32) as Hj' by lia.
  generalize dependent (N.to_nat i). generalize dependent (N.to_nat j). intros m Hm n Hn.
  do 32 (destruct m as [|m]; [do 32 (destruct n as [|n]; [vm_compute; congruence|]); lia|]). lia.
Qed.

(** a number below 32^n is its n base-32 digits *)
Lemma digits32_inj n (x y : N) :
  (x < 32 ^ N.of_nat n)%N → (y < 32 ^ N.of_nat n)%N →
  (∀ d, d < n → (x / 32 ^ N.of_nat d mod 32 = y / 32 ^ N.of_nat d mod 32)%N) → x = y.
Proof.
  revert x y. induction n as [|n IH]; intros x y Hx Hy H; [change (32 ^ N.of_nat 0)%N with 1%N in *; lia|].
  rewrite Nat2N.inj_succ, N.pow_succ_r' in Hx, Hy.
  pose proof (H 0 ltac:(lia)) as H0. cbn in H0. rewrite !N.div_1_r in H0.
  assert (x / 32 = y / 32)%N as Hq.
  { apply IH; [by apply N.Div0.div_lt_upper_bound..|]. intros d Hd.
    specialize (H (S d) ltac:(lia)). rewrite Nat2N.inj_succ, N.pow_succ_r' in H. by rewrite <-!N.Div0.div_div in H. }
  rewrite (N.div_mod x 32), (N.div_mod y 32) by lia. by rewrite Hq, H0.
Qed.

Lemma nix32_length_bits n :
  0 < n → (N.of_nat n < 2 ^ 60)%N → 8 * n ≤ 5 * nix32_length n ∧ 5 * nix32_length n < 8 * n + 5.
Proof.
  intros Hn Hmax. unfold nix32_length, kBits. change (N.of_nat 5) with 5%N.
  replace ((N.of_nat n * 8 + (2 ^ 64 - 1)) mod 2 ^ 64)%N with (N.of_nat n * 8 - 1)%N.
  2: { replace (N.of_nat n * 8 + (2 ^ 64 - 1))%N with (N.of_nat n * 8 - 1 + 1 * 2 ^ 64)%N by lia.
       rewrite N.Div0.mod_add, N.mod_small by lia. done. }
  pose proof (N.div_mod (N.of_nat n * 8 - 1) 5 ltac:(lia)).
  pose proof (N.mod_lt (N.of_nat n * 8 - 1) 5 ltac:(lia)).
  set (q := ((N.of_nat n * 8 - 1) / 5)%N) in *. set (r := ((N.of_nat n * 8 - 1) mod 5)%N) in *.
  clearbody q r. clear Hmax. lia.
Qed.

(** Nix32 loses nothing: two hashes of the same size with the same Nix32 text are equal, and the
    text has ⌈8n/5⌉ characters, all of the store's alphabet. *)
Theorem Nix32_injective (a b : str) :
  length a = length b → a ≠ [] → (N.of_nat (length a) < 2 ^ 60)%N →
  8 * length a ≤ 5 * length (Nix32 a) < 8 * length a + 5 ∧
  forallb (contains_chr kAlphabet32) (Nix32 a) = true ∧
  (Nix32 a = Nix32 b → a = b).
Proof.
  intros Hlen Hne Hmax. assert (Hpos : 0 < length a) by (destruct a; [done|cbn; lia]).
  pose proof (nix32_length_bits (length a) Hpos Hmax) as Hbits.
  unfold Nix32. rewrite length_map, length_seq. split; [done|]. split.
  - apply forallb_forall. intros c (i & <- & Hi)%in_map_iff. apply nix32_char_ok.
  - rewrite <-Hlen. set (len := nix32_length (length a)) in *. clearbody len. intros Heq.
    rewrite <-(le_bytes_val a), <-(le_bytes_val b), <-Hlen. f_equal.
    assert (Hb : ∀ s, length s = length a → (le_val s < 32 ^ N.of_nat len)%N).
    { intros s Hs. eapply N.lt_le_trans; [apply le_val_bound|]. rewrite Hs. change 256%N with (2 ^ 8)%N.
      change 32%N with (2 ^ 5)%N. rewrite <-!N.pow_mul_r. apply N.pow_le_mono_r; lia. }
    apply (digits32_inj len); [by apply Hb..|]. intros d Hd.
    assert (Hi : nix32_char a len (len - 1 - d) = nix32_char b len (len - 1 - d)).
    { apply (f_equal (λ l, l !! (len - 1 - d))) in Heq. rewrite !list_lookup_fmap in Heq.
      rewrite !lookup_seq_lt in Heq by lia. cbn in Heq. by simplify_eq. }
    rewrite !nix32_digit in Hi. replace (len - 1 - (len - 1 - d)) with d in Hi by lia.
    apply alphabet32_inj in Hi; [done| |]; apply N.mod_lt; lia.
Qed.

Lemma Nix32_injective_witness :
  length (Nix32 (lit "0123456789abcdefghij")) = 32 ∧
  ∀ b, length b = 20 → Nix32 (lit "0123456789abcdefghij") = Nix32 b → lit "0123456789abcdefghij" = b.
Proof.
  split; [vm_compute; reflexivity|]. intros b Hb.
  apply (Nix32_injective (lit "0123456789abcdefghij") b); [by rewrite Hb|done|by vm_compute].
Defined.

(** *** store paths *)

Lemma CompressHash_length digest : length (CompressHash digest) = kStorePathHashBytes.
Proof.
  unfold CompressHash. generalize (imap pair digest). intros l.
  assert (∀ out : str, length out = kStorePathHashBytes →
    length (foldl (λ out ic, <[(ic.1 mod kStorePathHashBytes)%nat :=
      byte_of (N.lxor (byte_at out (ic.1 mod kStorePathHashBytes)) (byte_val ic.2))]> out) out l) = kStorePathHashBytes) as H.
  { induction l as [|ic l IH]; intros out Ho; [done|]. cbn [foldl]. apply IH. by rewrite length_insert. }
  apply H. done.
Qed.

Lemma hash_part_ok digest : IsStoreHash (Nix32 (CompressHash digest)) = true.
Proof.
  unfold IsStoreHash, Nix32. rewrite CompressHash_length. change (nix32_length kStorePathHashBytes) with 32.
  rewrite length_map, length_seq. cbn [andb Nat.eqb kStoreHashLength].
  apply forallb_forall. intros c (i & <- & Hi)%in_map_iff. apply nix32_char_ok.
Qed.

(** A path the builder computes itself has the shape the cache expects of a store path:
    "<store>/<32 characters of the Nix alphabet>-<name>". [IsStorePath] recognises it and
    [MaskHashes] masks exactly its hash, so two computed paths of the same name get the same key. *)
Theorem MakeStorePath_masked (dir type inner name : str) :
  starts_with dir "/" = true → contains ("-" ++ name) (dir ++ "/") = false →
  IsStorePath_in dir (MakeStorePath dir type inner name) = true ∧
  MaskHashes_in dir (MakeStorePath dir type inner name) = dir ++ "/*-" ++ name.
Proof.
  intros Hd Hn. unfold MakeStorePath. set (h := Nix32 _). split.
  - unfold IsStorePath_in. rewrite starts_with_app. rewrite length_app.
    change (lit "/" ++ ?x) with (chr_slash :: x). cbn [length].
    rewrite (proj2 (Nat.ltb_lt _ _)) by lia. by rewrite list_lookup_middle.
  - apply MaskHashes_root; [done|apply hash_part_ok|done].
Qed.

Lemma MakeStorePath_masked_witness :
  MaskHashes_in "/nix/store" (MakeStorePath "/nix/store" "output:out" "fixed:out:sha256:00:" "crate-1.0")
  = lit "/nix/store/*-crate-1.0".
Proof. apply (MakeStorePath_masked "/nix/store" "output:out" "fixed:out:sha256:00:" "crate-1.0"); reflexivity. Defined.
