(* ===== verification/Aterm.v ===== *)
(** * nix_store_mode.cc: derivations as ATerms

    JSON documents as nlohmann holds them (objects sorted by key, without duplicates), the
    extraction of a derivation from one, its ATerm text, and the fetchurl derivation. Parsing and
    printing JSON are parameters. A JSON value of the wrong type where the code calls [get] or
    [value] aborts the process: [Aborts]. *)

From Stdlib Require Import Sorted.
From stdpp Require Import sorting.
From S2P Require Import Prelude Paths Base Store NixHash.

Inductive json :=
| JNull
| JBool (b : bool)
| JNumber (text : str)
| JString (s : str)
| JArray (items : list json)
| JObject (members : list (str * json)).

Inductive outcome (A : Type) := Done (a : A) | Aborts.
Arguments Done {A} a.
Arguments Aborts {A}.
Definition o_bind {A B} (m : outcome A) (f : A → outcome B) : outcome B :=
  match m with Done a => f a | Aborts => Aborts end.
Notation "x <~ m ;; k" := (o_bind m (λ x, k)) (at level 100, m at next level, right associativity).

Fixpoint o_map {A B} (f : A → outcome B) (xs : list A) : outcome (list B) :=
  match xs with
  | [] => Done []
  | x :: xs => y <~ f x ;; ys <~ o_map f xs ;; Done (y :: ys)
  end.

(** [std::map::emplace]: ordered by key, an existing key stays *)
Fixpoint map_emplace {A} (k : str) (v : A) (m : list (str * A)) : list (str * A) :=
  match m with
  | [] => [(k, v)]
  | (k', v') :: m' =>
      if k == k' then m
      else if str_leb k k' then (k, v) :: m else (k', v') :: map_emplace k v m'
  end.
Definition map_of {A} (kvs : list (str * A)) : list (str * A) :=
  foldl (λ m kv, map_emplace kv.1 kv.2 m) [] kvs.

(** [items()]: an array has its indices as keys, a scalar one empty key *)
Definition items (j : json) : list (str * json) :=
  match j with
  | JObject ms => ms
  | JArray xs => imap (λ i x, (to_string i, x)) xs
  | JNull => []
  | _ => [([], j)]
  end.

(** [get<std::string>()], [get<std::vector<std::string>>()] *)
Definition get_string (j : json) : outcome str := match j with JString s => Done s | _ => Aborts end.
Definition get_strings (j : json) : outcome (list str) :=
  match j with JArray xs => o_map get_string xs | _ => Aborts end.

Fixpoint member {A} (key : str) (ms : list (str * A)) : option A :=
  match ms with
  | [] => None
  | (k, v) :: ms => if key == k then Some v else member key ms
  end.

(** [value(key, fallback)] *)
Definition value {A} (get : json → outcome A) (fallback : A) (key : str) (j : json) : outcome A :=
  match j with
  | JObject ms => match member key ms with Some v => get v | None => Done fallback end
  | _ => Aborts
  end.

(** ** The ATerm text *)

Definition quote_chr (c : ascii) : str :=
  if c == chr_quot then [chr_bslash; chr_quot]
  else if c == chr_bslash then [chr_bslash; chr_bslash]
  else if c == chr_nl then [chr_bslash; "n"%char]
  else if c == chr_cr then [chr_bslash; "r"%char]
  else if c == chr_tab then [chr_bslash; "t"%char]
  else [c].
Definition Quote (text : str) : str := [chr_quot] ++ concat (map quote_chr text) ++ [chr_quot].

(** the loop over [first] *)
Definition List_ {A} (items : list A) (render : A → str) : str :=
  let '(out, _) :=
    foldl (λ '(out, first) item, ((if (first : bool) then out else out ++ lit ",") ++ render item, false))
      (lit "[", true) items in
  out ++ lit "]".

Record output := Output { o_name : str; o_path : str; o_hashAlgo : str; o_hash : str }.

(** what the code has taken out of the JSON when it starts to print *)
Record derivation := Derivation {
  d_outputs : list output;
  d_input_drvs : list (str * list str);
  d_input_srcs : list str;
  d_system : str;
  d_builder : str;
  d_args : list str;
  d_env : list (str * str);
}.

Definition render_output (o : output) : str :=
  lit "(" ++ Quote (o_name o) ++ "," ++ Quote (o_path o) ++ "," ++ Quote (o_hashAlgo o) ++ "," ++
  Quote (o_hash o) ++ ")".
Definition render_input (i : str * list str) : str := lit "(" ++ Quote i.1 ++ "," ++ List_ i.2 Quote ++ ")".
Definition render_env (e : str * str) : str := lit "(" ++ Quote e.1 ++ "," ++ Quote e.2 ++ ")".

Definition render (d : derivation) : str :=
  lit "Derive(" ++ List_ (d_outputs d) render_output ++ "," ++ List_ (d_input_drvs d) render_input ++ "," ++
  List_ (d_input_srcs d) Quote ++ "," ++ Quote (d_system d) ++ "," ++ Quote (d_builder d) ++ "," ++
  List_ (d_args d) Quote ++ "," ++ List_ (d_env d) render_env ++ ")".

(** [None]: a value of "env" is no string and the function returns "" *)
Definition string_env (env : list (str * json)) : option (list (str * str)) :=
  mapM (λ kv, match kv.2 with JString s => Some (kv.1, s) | _ => None end) env.

Definition read_output (ns : str * json) : outcome output :=
  path <~ value get_string [] "path" ns.2 ;;
  algo <~ value get_string [] "hashAlgo" ns.2 ;;
  hash <~ value get_string [] "hash" ns.2 ;;
  Done (Output ns.1 path algo hash).

(** the statements in the source's order: what aborts, and what returns "" *)
Definition extract (drv : json) : outcome (option derivation) :=
  outputs <~ value Done (JObject []) "outputs" drv ;;
  input_drvs <~ value Done (JObject []) "inputDrvs" drv ;;
  input_drvs <~ o_map (λ po, names <~ get_strings po.2 ;; Done (po.1, sort_strings names)) (items input_drvs) ;;
  input_srcs <~ value get_strings [] "inputSrcs" drv ;;
  env <~ value Done (JObject []) "env" drv ;;
  match string_env (items env) with
  | None => Done None
  | Some env =>
      args <~ value get_strings [] "args" drv ;;
      outputs <~ o_map read_output (map_of (items outputs)) ;;
      system <~ value get_string [] "system" drv ;;
      builder <~ value get_string [] "builder" drv ;;
      Done (Some (Derivation outputs (map_of input_drvs) (sort_strings input_srcs) system builder args (map_of env)))
  end.

Section Json.
(** nlohmann's parser ([None]: discarded) and printer *)
Context (json_parse : str → option json) (json_dump : json → str).

Definition DerivationToATerm (json_text : str) : outcome str :=
  match json_parse json_text with
  | Some (JObject ms) =>
      d <~ extract (JObject ms) ;;
      Done (match d with None => [] | Some d => render d end)
  | _ => Done []
  end.

(** an object from an initializer list *)
Definition obj (ms : list (str * json)) : json := JObject (map_of ms).

Definition fetchurl_json (name algo sri url hex out : str) : json :=
  obj [ (lit "name", JString name);
        (lit "system", JString "builtin");
        (lit "builder", JString "builtin:fetchurl");
        (lit "args", JArray []);
        (lit "outputs", obj [(lit "out", obj [(lit "path", JString out); (lit "hashAlgo", JString algo);
                                              (lit "hash", JString hex)])]);
        (lit "inputDrvs", JObject []);
        (lit "inputSrcs", JArray []);
        (lit "env", obj [
          (lit "name", JString name);
          (lit "out", JString out);
          (lit "outputHash", JString sri);
          (lit "outputHashAlgo", JString (if starts_with sri (algo ++ "-") then [] else algo));
          (lit "outputHashMode", JString "flat");
          (lit "url", JString url);
          (lit "urls", JString url);
          (lit "executable", JString []);
          (lit "unpack", JString []);
          (lit "impureEnvVars", JString "http_proxy https_proxy ftp_proxy all_proxy no_proxy");
          (lit "preferLocalBuild", JString "1");
          (lit "system", JString "builtin");
          (lit "builder", JString "builtin:fetchurl")]) ].

Definition FetchurlDerivation (file : json) (out : str) : outcome str :=
  name <~ value get_string [] "name" file ;;
  algo <~ value get_string [] "algo" file ;;
  sri <~ value get_string [] "sri" file ;;
  url <~ value get_string [] "url" file ;;
  hex <~ value get_string [] "hex" file ;;
  DerivationToATerm (json_dump (fetchurl_json name algo sri url hex out)).
End Json.

(** ** Properties *)

(** *** self-delimiting texts *)

(** what follows does not matter: a rendered value ends where it says it does *)
Definition delimited {A} (f : A → str) : Prop :=
  ∀ a b r s, f a ++ r = f b ++ s → a = b ∧ r = s.

Lemma delimited_inj {A} (f : A → str) a b : delimited f → f a = f b → a = b.
Proof. intros Hf H. apply (Hf a b [] []). by rewrite !app_nil_r. Qed.

Lemma quote_chr_cases c :
  (∃ e, quote_chr c = [chr_bslash; e]) ∨ (quote_chr c = [c] ∧ c ≠ chr_quot ∧ c ≠ chr_bslash).
Proof. unfold quote_chr. repeat case_bool_decide; eauto. Qed.

Lemma quote_chr_delimited : delimited quote_chr.
Proof.
  intros a b r s H. unfold quote_chr in H.
  repeat case_bool_decide; subst; simplify_eq/=; auto; by injection H as <- <-.
Qed.

Lemma Quote_delimited : delimited Quote.
Proof.
  intros a b r s. unfold Quote. rewrite <-!app_assoc. intros H. injection H as H.
  revert b H. induction a as [|c a IH]; intros [|d b]; cbn [map concat app]; intros H.
  - by injection H as ->.
  - exfalso. destruct (quote_chr_cases d) as [[e He]|(He & Hq & Hb)]; rewrite He in H; by simplify_eq/=.
  - exfalso. destruct (quote_chr_cases c) as [[e He]|(He & Hq & Hb)]; rewrite He in H; by simplify_eq/=.
  - rewrite <-!app_assoc in H. apply quote_chr_delimited in H as [-> H].
    destruct (IH b H) as [-> ->]. done.
Qed.

(** an item that cannot be taken for the end of its list *)
Definition starts_item {A} (f : A → str) : Prop := ∀ a, ∃ c t, f a = c :: t ∧ c ≠ "]"%char ∧ c ≠ ","%char.

Lemma List_unfold {A} (f : A → str) x xs :
  List_ (x :: xs) f = lit "[" ++ f x ++ concat (map (λ y, lit "," ++ f y) xs) ++ "]".
Proof.
  unfold List_. cbn [foldl].
  assert (∀ acc, foldl (λ '(out, first) item, ((if (first : bool) then out else out ++ lit ",") ++ f item, false))
    (acc, false) xs = (acc ++ concat (map (λ y, lit "," ++ f y) xs), false)) as H.
  { induction xs as [|y xs IH]; intros acc; cbn [foldl map concat]; [by rewrite app_nil_r|].
    rewrite IH. by rewrite <-!app_assoc. }
  rewrite H. by rewrite <-!app_assoc.
Qed.

Lemma List_delimited {A} (f : A → str) : delimited f → starts_item f → delimited (λ xs, List_ xs f).
Proof.
  intros Hf Hs.
  assert (Htail : ∀ xs ys r s, concat (map (λ y, lit "," ++ f y) xs) ++ lit "]" ++ r =
    concat (map (λ y, lit "," ++ f y) ys) ++ lit "]" ++ s → xs = ys ∧ r = s).
  { induction xs as [|x xs IH]; intros [|y ys] r s H; cbn [map concat] in H; rewrite <-?app_assoc in H.
    - by injection H as ->.
    - by simplify_eq/=.
    - by simplify_eq/=.
    - change (lit ",") with [","%char] in H. cbn [app] in H. injection H as H.
      apply Hf in H as [-> H]. destruct (IH _ _ _ H) as [-> ->]. done. }
  intros xs ys r s. destruct xs as [|x xs], ys as [|y ys]; rewrite ?List_unfold, <-?app_assoc; intros H.
  - by injection H as ->.
  - exfalso. destruct (Hs y) as (c & t & E & H1 & _). rewrite E in H. by simplify_eq/=.
  - exfalso. destruct (Hs x) as (c & t & E & H1 & _). rewrite E in H. by simplify_eq/=.
  - change (lit "[") with ["["%char] in H. cbn [app] in H. injection H as H.
    apply Hf in H as [-> H]. destruct (Htail _ _ _ _ H) as [-> ->]. done.
Qed.

Lemma Quote_starts : starts_item Quote.
Proof. intros a. by eexists _, _. Qed.

(** the pieces of a text in turn: cut a literal off the front, or a delimited value *)
Ltac cut_literal H := apply app_inj_1 in H as [_ H]; [|reflexivity].
Ltac cut_value H L := apply L in H as [? H].

Lemma render_output_delimited : delimited render_output.
Proof.
  intros [n p a h] [n' p' a' h'] r s. unfold render_output. cbn [o_name o_path o_hashAlgo o_hash].
  rewrite <-!app_assoc. intros H. cut_literal H. cut_value H Quote_delimited. cut_literal H.
  cut_value H Quote_delimited. cut_literal H. cut_value H Quote_delimited. cut_literal H.
  cut_value H Quote_delimited. cut_literal H. by subst.
Qed.

Lemma strings_delimited : delimited (λ xs, List_ xs Quote).
Proof. apply List_delimited; [apply Quote_delimited|apply Quote_starts]. Qed.

Lemma render_input_delimited : delimited render_input.
Proof.
  intros [p ns] [p' ns'] r s. unfold render_input. cbn [fst snd]. rewrite <-!app_assoc. intros H.
  cut_literal H. cut_value H Quote_delimited. cut_literal H. cut_value H strings_delimited. cut_literal H.
  by subst.
Qed.

Lemma render_env_delimited : delimited render_env.
Proof.
  intros [k v] [k' v'] r s. unfold render_env. cbn [fst snd]. rewrite <-!app_assoc. intros H.
  cut_literal H. cut_value H Quote_delimited. cut_literal H. cut_value H Quote_delimited. cut_literal H.
  by subst.
Qed.

Lemma render_inj d e : render d = render e → d = e.
Proof.
  destruct d as [o i s y b a v], e as [o' i' s' y' b' a' v']. unfold render.
  cbn [d_outputs d_input_drvs d_input_srcs d_system d_builder d_args d_env]. intros H.
  assert (Ho : delimited (λ xs, List_ xs render_output)).
  { apply List_delimited; [apply render_output_delimited|]. intros x. by eexists _, _. }
  assert (Hi : delimited (λ xs, List_ xs render_input)).
  { apply List_delimited; [apply render_input_delimited|]. intros x. by eexists _, _. }
  assert (He : delimited (λ xs, List_ xs render_env)).
  { apply List_delimited; [apply render_env_delimited|]. intros x. by eexists _, _. }
  cut_literal H. cut_value H Ho. cut_literal H. cut_value H Hi. cut_literal H. cut_value H strings_delimited.
  cut_literal H. cut_value H Quote_delimited. cut_literal H. cut_value H Quote_delimited. cut_literal H.
  cut_value H strings_delimited. cut_literal H. cut_value H He. by subst.
Qed.

(** *** sorting *)

Definition str_le (a b : str) : Prop := str_leb a b = true.

#[global] Instance str_le_antisymm : AntiSymm (=) str_le.
Proof.
  intros a. unfold str_le. induction a as [|c a IH]; intros [|d b]; cbn; try done.
  destruct (N.ltb_spec (byte_val c) (byte_val d)), (N.ltb_spec (byte_val d) (byte_val c)); try done; try lia.
  intros H1 H2. f_equal; [apply byte_val_inj; lia|auto].
Qed.
Lemma str_le_total a b : str_le a b ∨ str_le b a.
Proof.
  unfold str_le. revert b. induction a as [|c a IH]; intros [|d b]; cbn; auto.
  destruct (N.ltb_spec (byte_val c) (byte_val d)), (N.ltb_spec (byte_val d) (byte_val c)); auto.
Qed.
#[global] Instance str_le_trans : Transitive str_le.
Proof.
  intros a. unfold str_le. induction a as [|c a IH]; intros [|d b] [|e t]; cbn; try done.
  destruct (N.ltb_spec (byte_val c) (byte_val d)), (N.ltb_spec (byte_val d) (byte_val c)),
    (N.ltb_spec (byte_val d) (byte_val e)), (N.ltb_spec (byte_val e) (byte_val d)),
    (N.ltb_spec (byte_val c) (byte_val e)), (N.ltb_spec (byte_val e) (byte_val c)); try done; try lia.
  apply IH.
Qed.

Lemma insert_sorted_perm x xs : insert_sorted x xs ≡ₚ x :: xs.
Proof.
  induction xs as [|y xs IH]; cbn; [done|]. destruct (str_leb x y); [done|]. rewrite IH. constructor.
Qed.
Lemma sort_strings_perm xs : sort_strings xs ≡ₚ xs.
Proof. induction xs as [|x xs IH]; cbn; [done|]. by rewrite insert_sorted_perm, IH. Qed.

Lemma insert_sorted_sorted x xs : StronglySorted str_le xs → StronglySorted str_le (insert_sorted x xs).
Proof.
  induction 1 as [|y ys Hs IH Hy]; cbn; [repeat constructor|].
  destruct (str_leb x y) eqn:E.
  - constructor; [by constructor|]. constructor; [done|].
    eapply Forall_impl; [exact Hy|]. intros z Hz. by etrans.
  - constructor; [done|]. rewrite insert_sorted_perm. constructor; [|done].
    destruct (str_le_total x y) as [Hxy|]; [|done]. unfold str_le in Hxy. congruence.
Qed.
Lemma sort_strings_sorted xs : StronglySorted str_le (sort_strings xs).
Proof. induction xs; cbn; [constructor|by apply insert_sorted_sorted]. Qed.

Lemma sort_strings_unique xs ys : xs ≡ₚ ys → sort_strings xs = sort_strings ys.
Proof.
  intros H. apply (StronglySorted_unique str_le); [apply sort_strings_sorted..|].
  by rewrite !sort_strings_perm.
Qed.

Section Claims.
Context (json_parse : str → option json) (json_dump : json → str).

(** C33. The ATerm determines the derivation: when two JSON documents give the same text, they
    describe the same outputs, inputs, builder, arguments and environment. Nothing inside a string
    can move a boundary, so no two different derivations share a store path's fingerprint. *)
Theorem ATerm_injective (t1 t2 : str) (j1 j2 : list (str * json)) (d1 d2 : derivation) :
  json_parse t1 = Some (JObject j1) → extract (JObject j1) = Done (Some d1) →
  json_parse t2 = Some (JObject j2) → extract (JObject j2) = Done (Some d2) →
  DerivationToATerm json_parse t1 ≠ Done [] ∧
  (DerivationToATerm json_parse t1 = DerivationToATerm json_parse t2 → d1 = d2).
Proof.
  intros P1 E1 P2 E2. unfold DerivationToATerm. rewrite P1, P2, E1, E2. cbn [o_bind].
  split; [done|]. intros H. apply render_inj. generalize dependent (render d1).
  generalize dependent (render d2). intros b a H. by simplify_eq.
Qed.

(** The text is canonical in the order of the source inputs: documents that differ only in how
    "inputSrcs" is ordered give the same result, and the printed list is sorted. *)
Theorem ATerm_sources_sorted (m1 m2 : list (str * json)) (xs ys : list str) :
  (∀ key, key ≠ lit "inputSrcs" → member key m1 = member key m2) →
  member (lit "inputSrcs") m1 = Some (JArray (map JString xs)) →
  member (lit "inputSrcs") m2 = Some (JArray (map JString ys)) → xs ≡ₚ ys →
  extract (JObject m1) = extract (JObject m2) ∧
  ∀ d, extract (JObject m1) = Done (Some d) → StronglySorted str_le (d_input_srcs d) ∧ d_input_srcs d ≡ₚ xs.
Proof.
  intros Hsame H1 H2 Hperm.
  assert (Hget : ∀ zs, o_map get_string (map JString zs) = Done zs).
  { induction zs as [|z zs IH]; [done|]. cbn. by rewrite IH. }
  assert (Hv1 : value get_strings [] (lit "inputSrcs") (JObject m1) = Done xs) by (cbn; rewrite H1; apply Hget).
  assert (Hv2 : value get_strings [] (lit "inputSrcs") (JObject m2) = Done ys) by (cbn; rewrite H2; apply Hget).
  split.
  - unfold extract. rewrite Hv1, Hv2. unfold value. rewrite !Hsame by discriminate. cbn [o_bind].
    by rewrite (sort_strings_unique xs ys).
  - intros d. unfold extract. rewrite Hv1.
    destruct (value Done _ "outputs" _); [|done]. cbn [o_bind].
    destruct (value Done _ "inputDrvs" _); [|done]. cbn [o_bind].
    destruct (o_map _ (items _)); [|done]. cbn [o_bind].
    destruct (value Done _ "env" _); [|done]. cbn [o_bind]. destruct (string_env _); [|done].
    destruct (value get_strings [] "args" _); [|done]. cbn [o_bind].
    destruct (o_map read_output _); [|done]. cbn [o_bind].
    destruct (value get_string [] "system" _); [|done]. cbn [o_bind].
    destruct (value get_string [] "builder" _); [|done]. cbn [o_bind]. intros [= <-]. cbn.
    split; [apply sort_strings_sorted|apply sort_strings_perm].
Qed.

(** The fetchurl derivation of a lock file entry is the one [builtin:fetchurl] expects: one
    fixed output "out" at the given path with the entry's hash, no inputs, and an environment
    whose [out] is that path, whose [url] is the entry's, and that leaves [outputHashAlgo] empty
    exactly when the SRI hash names the algorithm itself. *)
Theorem FetchurlDerivation_shape (ms : list (str * json)) (name algo sri url hex out : str) :
  json_parse (json_dump (fetchurl_json name algo sri url hex out)) = Some (fetchurl_json name algo sri url hex out) →
  member (lit "name") ms = Some (JString name) → member (lit "algo") ms = Some (JString algo) →
  member (lit "sri") ms = Some (JString sri) → member (lit "url") ms = Some (JString url) →
  member (lit "hex") ms = Some (JString hex) →
  FetchurlDerivation json_parse json_dump (JObject ms) out =
  Done (render (Derivation [Output "out" out algo hex] [] [] "builtin" "builtin:fetchurl" []
    [(lit "builder", lit "builtin:fetchurl"); (lit "executable", []);
     (lit "impureEnvVars", lit "http_proxy https_proxy ftp_proxy all_proxy no_proxy");
     (lit "name", name); (lit "out", out); (lit "outputHash", sri);
     (lit "outputHashAlgo", if starts_with sri (algo ++ "-") then [] else algo);
     (lit "outputHashMode", lit "flat"); (lit "preferLocalBuild", lit "1"); (lit "system", lit "builtin");
     (lit "unpack", []); (lit "url", url); (lit "urls", url)])).
Proof.
  intros Hrt Hn Ha Hs Hu Hh. unfold FetchurlDerivation, value. rewrite Hn, Ha, Hs, Hu, Hh. cbn [o_bind get_string].
  unfold DerivationToATerm. rewrite Hrt. unfold fetchurl_json.
  generalize (if starts_with sri (algo ++ "-") then [] else algo : str). intros hash_algo.
  match goal with |- match obj ?m with _ => _ end = Done (render ?d) =>
    assert (extract (obj m) = Done (Some d)) as He by (vm_compute; reflexivity) end.
  unfold obj at 1. unfold obj at 1 in He. by rewrite He.
Qed.
End Claims.

(** *** at concrete documents *)

Definition sample_drv : list (str * json) :=
  [(lit "builder", JString "/b"); (lit "inputSrcs", JArray (map JString [lit "/s2"; lit "/s1"]));
   (lit "system", JString "x86_64-linux")].
Definition sample_drv' : list (str * json) :=
  [(lit "builder", JString "/b"); (lit "inputSrcs", JArray (map JString [lit "/s1"; lit "/s2"]));
   (lit "system", JString "x86_64-linux")].
Definition sample_derivation : derivation :=
  Derivation [] [] [lit "/s1"; lit "/s2"] "x86_64-linux" "/b" [] [].

Lemma ATerm_injective_witness :
  DerivationToATerm (λ _, Some (JObject sample_drv)) [] ≠ Done [] ∧ sample_derivation = sample_derivation.
Proof.
  destruct (ATerm_injective (λ t, Some (JObject (if t == [] then sample_drv else sample_drv'))) [] "x"
    sample_drv sample_drv' sample_derivation sample_derivation) as [H1 H2];
    [reflexivity|vm_compute; reflexivity|reflexivity|vm_compute; reflexivity|].
  split; [exact H1|]. apply H2. vm_compute. reflexivity.
Defined.

Lemma ATerm_sources_sorted_witness : extract (JObject sample_drv) = extract (JObject sample_drv').
Proof.
  apply (ATerm_sources_sorted sample_drv sample_drv' [lit "/s2"; lit "/s1"] [lit "/s1"; lit "/s2"]);
    [|reflexivity|reflexivity|apply Permutation_swap].
  intros key Hkey. unfold sample_drv, sample_drv'. cbn [member].
  rewrite (bool_decide_eq_false_2 (key = lit "inputSrcs")) by exact Hkey. reflexivity.
Defined.

Definition sample_file : list (str * json) :=
  [(lit "algo", JString "sha256"); (lit "hex", JString "00"); (lit "name", JString "n");
   (lit "sri", JString "sha256-x"); (lit "url", JString "u")].

Lemma FetchurlDerivation_shape_witness :
  ∃ d, FetchurlDerivation (λ _, Some (fetchurl_json "n" "sha256" "sha256-x" "u" "00" "/o")) (λ _, [])
         (JObject sample_file) "/o" = Done (render d) ∧ d_outputs d = [Output "out" "/o" "sha256" "00"].
Proof.
  eexists. split.
  - apply (FetchurlDerivation_shape (λ _, Some (fetchurl_json "n" "sha256" "sha256-x" "u" "00" "/o")) (λ _, [])
      sample_file "n" "sha256" "sha256-x" "u" "00" "/o"); reflexivity.
  - reflexivity.
Defined.
