(* ===== verification/Worker.v ===== *)
(** * nix_store_mode.cc: the worker protocol client and the nix-store verbs

    [DaemonConnection] as a record (the output buffer, the bytes written so far, the daemon's bytes
    still to be read, how [read] and [write] behave, and what was printed on stderr), one function
    per method, the [Store] that is the daemon or offline, and [RunNixStoreMode]. *)

From S2P Require Import Prelude Paths Base Store NixHash Aterm.

Definition kWorkerMagic1 : N := 0x6e697863.
Definition kWorkerMagic2 : N := 0x6478696f.
Definition kProtocolVersion : N := N.lor (N.shiftl 1 8) 38.
Definition kStderrNext : N := 0x6f6c6d67.
Definition kStderrLast : N := 0x616c7473.
Definition kStderrError : N := 0x63787470.
Definition kStderrStartActivity : N := 0x53545254.
Definition kStderrStopActivity : N := 0x53544f50.
Definition kStderrResult : N := 0x52534c54.
Definition kOpAddToStore : N := 7.
Definition kOpSubmitOutput : N := 1000.
Definition kWordBytes : nat := 8.
Definition kMaxString : N := N.shiftl 64 20.

Record conn := Conn {
  w_out : str;                  (* out_ *)
  w_sent : str;                 (* written to the socket *)
  w_in : kernel;                (* what the daemon sends *)
  w_writes : list (option nat); (* [None]: write fails, [Some k]: at most k+1 bytes *)
  w_err : list str;             (* lines on stderr *)
}.

Definition wio (A : Type) : Type := conn → A * conn.
Definition w_ret {A} (a : A) : wio A := λ c, (a, c).
Definition w_bind {A B} (m : wio A) (f : A → wio B) : wio B := λ c, let '(a, c') := m c in f a c'.
Notation "x <- m ;; k" := (w_bind m (λ x, k)) (at level 100, m at next level, right associativity).
Notation "m ;;; k" := (w_bind m (λ _, k)) (at level 100, right associativity).

Definition eprint (line : str) : wio unit := λ c,
  (tt, Conn (w_out c) (w_sent c) (w_in c) (w_writes c) (w_err c ++ [line])).

(** the eight bytes of a word, and a string padded to words *)
Definition word_bytes (value : N) : str := le_bytes kWordBytes value.
Definition padding (size : nat) : nat := (kWordBytes - size mod kWordBytes) mod kWordBytes.
Definition string_bytes (text : str) : str :=
  word_bytes (N.of_nat (length text)) ++ text ++ replicate (padding (length text)) chr_nul.

Definition put_out (bytes : str) : wio unit := λ c,
  (tt, Conn (w_out c ++ bytes) (w_sent c) (w_in c) (w_writes c) (w_err c)).
Definition WriteWord (value : N) : wio unit := put_out (word_bytes value).
Definition WriteString (text : str) : wio unit :=
  WriteWord (N.of_nat (length text)) ;;; put_out text ;;;
  put_out (replicate (padding (length text)) chr_nul).

Fixpoint flush_loop (fuel : nat) (pending : str) : wio bool := λ c,
  match fuel with
  | 0 => (true, c)
  | S fuel =>
      if pending == [] then (true, Conn [] (w_sent c) (w_in c) (w_writes c) (w_err c))
      else match w_writes c with
           | None :: ws => (false, Conn (w_out c) (w_sent c) (w_in c) ws (w_err c))
           | _ =>
               let sent := match w_writes c with Some k :: _ => Nat.min (length pending) (k + 1)
                                               | _ => length pending end in
               flush_loop fuel (drop sent pending)
                 (Conn (w_out c) (w_sent c ++ take sent pending) (w_in c) (tail (w_writes c)) (w_err c))
           end
  end.
Definition Flush : wio bool := λ c, flush_loop (S (length (w_out c))) (w_out c) c.

Fixpoint read_bytes_loop (fuel remaining : nat) (buf : str) : wio (option str) := λ c,
  match fuel with
  | 0 => (None, c)
  | S fuel =>
      if (remaining =? 0)%nat then (Some buf, c)
      else
        let '(got, k) := k_read remaining (w_in c) in
        let c := Conn (w_out c) (w_sent c) k (w_writes c) (w_err c) in
        match got with
        | None | Some [] => (None, c)
        | Some got => read_bytes_loop fuel (remaining - length got) (buf ++ got) c
        end
  end.
(** every successful [read] takes a byte off the stream *)
Definition ReadBytes (count : nat) : wio (option str) := λ c,
  read_bytes_loop (S (S (length (k_rest (w_in c))))) count [] c.

Definition ReadWord : wio (option N) :=
  bytes <- ReadBytes kWordBytes ;; w_ret (le_val <$> bytes).

Definition ReadString : wio (option str) :=
  size <- ReadWord ;;
  match size with
  | None => w_ret None
  | Some size =>
      if (kMaxString <? size)%N then w_ret None
      else
        text <- ReadBytes (N.to_nat size) ;;
        match text with
        | None => w_ret None
        | Some text =>
            pad <- ReadBytes (padding (N.to_nat size)) ;;
            w_ret (match pad with None => None | Some _ => Some text end)
        end
  end.

Fixpoint skip_strings_loop (fuel : nat) (count : N) : wio bool :=
  match fuel with
  | 0 => w_ret false
  | S fuel =>
      if (count =? 0)%N then w_ret true
      else s <- ReadString ;;
           match s with None => w_ret false | Some _ => skip_strings_loop fuel (count - 1) end
  end.
(** every string read is at least a word *)
Definition SkipStrings : wio bool :=
  count <- ReadWord ;;
  match count with
  | None => w_ret false
  | Some count => λ c, skip_strings_loop (S (S (length (k_rest (w_in c))))) count c
  end.

(** a failed read does not stop the loop; once the stream and the list of answers are used up,
    further rounds change nothing *)
Fixpoint skip_fields_loop (fuel : nat) (count : N) : wio unit :=
  match fuel with
  | 0 => w_ret tt
  | S fuel =>
      if (count =? 0)%N then w_ret tt
      else type <- ReadWord ;;
           (if (default 0 type =? 1)%N then ReadString ;;; w_ret tt else ReadWord ;;; w_ret tt) ;;;
           skip_fields_loop fuel (count - 1)
  end.
Definition SkipFields : wio unit :=
  count <- ReadWord ;;
  λ c, skip_fields_loop (S (length (k_rest (w_in c)) + length (k_caps (w_in c)))) (default 0%N count) c.

Fixpoint drain_loop (fuel : nat) : wio bool :=
  match fuel with
  | 0 => w_ret false
  | S fuel =>
      msg <- ReadWord ;;
      match msg with
      | None => w_ret false
      | Some msg =>
          if (msg =? kStderrLast)%N then w_ret true
          else if (msg =? kStderrError)%N then
            ReadString ;;; ReadWord ;;; ReadString ;;;
            text <- ReadString ;; eprint (lit "nix-daemon: " ++ default (lit "?") text) ;;; w_ret false
          else if (msg =? kStderrNext)%N then
            text <- ReadString ;; eprint (default [] text) ;;; drain_loop fuel
          else if (msg =? kStderrStartActivity)%N then
            ReadWord ;;; ReadWord ;;; ReadWord ;;; ReadString ;;; SkipFields ;;; ReadWord ;;; drain_loop fuel
          else if (msg =? kStderrStopActivity)%N then ReadWord ;;; drain_loop fuel
          else if (msg =? kStderrResult)%N then
            ReadWord ;;; ReadWord ;;; SkipFields ;;; drain_loop fuel
          else
            eprint (lit "jig nix-store: unexpected daemon message 0x" ++ fmt_uint 16 msg) ;;; w_ret false
      end
  end.
Definition DrainStderr : wio bool := λ c, drain_loop (S (length (k_rest (w_in c)))) c.

Definition kFeatures : list str :=
  [lit "realisation-with-path-not-hash"; lit "disable-set-options"; lit "add-to-store-scanning"; lit "submit-output"].

Fixpoint write_strings (xs : list str) : wio unit :=
  match xs with [] => w_ret tt | x :: xs => WriteString x ;;; write_strings xs end.

Definition Handshake : wio bool :=
  WriteWord kWorkerMagic1 ;;; WriteWord kProtocolVersion ;;;
  flushed <- Flush ;;
  magic <- (if (flushed : bool) then ReadWord else w_ret None) ;;
  if negb (magic == Some kWorkerMagic2) then
    eprint "jig nix-store: bad daemon magic" ;;; w_ret false
  else
    daemon_version <- ReadWord ;;
    if match daemon_version with None => true | Some v => (N.min v kProtocolVersion <? kProtocolVersion)%N end then
      eprint (lit "jig nix-store: daemon protocol " ++ fmt_uint 10 (default 0%N daemon_version) ++ " too old") ;;;
      w_ret false
    else
      WriteWord (N.of_nat (length kFeatures)) ;;; write_strings kFeatures ;;;
      flushed <- Flush ;;
      skipped <- (if (flushed : bool) then SkipStrings else w_ret false) ;;
      if negb skipped then w_ret false
      else
        WriteWord 0 ;;; WriteWord 0 ;;;
        flushed <- Flush ;;
        version <- (if (flushed : bool) then ReadString else w_ret None) ;;
        match version with
        | None => w_ret false
        | Some _ =>
            trust <- ReadWord ;;
            match trust with None => w_ret false | Some _ => DrainStderr end
        end.

(** [!a || !b || …] over reads whose values are not used *)
Fixpoint all_of (checks : list (wio bool)) : wio bool :=
  match checks with
  | [] => w_ret true
  | check :: checks => ok <- check ;; if (ok : bool) then all_of checks else w_ret false
  end.
Definition some_word : wio bool := w <- ReadWord ;; w_ret (bool_decide (is_Some w)).
Definition some_string : wio bool := s <- ReadString ;; w_ret (bool_decide (is_Some s)).

(** framed source: one chunk + terminator *)
Definition WriteFramed (contents : str) : wio unit :=
  WriteWord (N.of_nat (length contents)) ;;; put_out contents ;;; WriteWord 0.

Definition write_add (name method : str) (references : list str) (contents : str) : wio unit :=
  WriteWord kOpAddToStore ;;; WriteString name ;;; WriteString method ;;;
  (let refs := sort_strings references in
   WriteWord (N.of_nat (length refs)) ;;; write_strings refs) ;;;
  WriteWord 0 ;;; WriteFramed contents.

(** log traffic, then ValidPathInfo: path, deriver, narHash, refs, regtime, narSize, ultimate, sigs, ca *)
Definition add_response : wio (option str) :=
  drained <- DrainStderr ;;
  if negb drained then w_ret None
  else
    path <- ReadString ;;
    match path with
    | None => w_ret None
    | Some path =>
        ok <- all_of [some_string; some_string; SkipStrings; some_word; some_word; some_word; SkipStrings; some_string] ;;
        w_ret (if (ok : bool) then Some path else None)
    end.

Definition AddToStore (name method : str) (references : list str) (contents : str) : wio (option str) :=
  write_add name method references contents ;;;
  flushed <- Flush ;; if (flushed : bool) then add_response else w_ret None.

Definition SubmitOutput (path output : str) : wio bool :=
  WriteWord kOpSubmitOutput ;;; WriteWord 0 ;;; WriteString path ;;; WriteString output ;;;
  flushed <- Flush ;;
  drained <- (if (flushed : bool) then DrainStderr else w_ret false) ;;
  if negb drained then w_ret false else some_word.

Definition kScheme : str := "unix://".

(** [Connect]; [socket]: the daemon's side once [connect] succeeded *)
Definition ConnectDaemon (remote : str) (socket : option (kernel * list (option nat))) : bool * conn :=
  let none := Conn [] [] (Kernel [] []) [] [] in
  if negb (starts_with remote kScheme) then
    (false, (eprint (lit "jig nix-store: NIX_REMOTE=" ++ remote ++ " is not a unix:// socket (builder-rpc-v0 missing?)") none).2)
  else
    let remote := drop (length kScheme) remote in
    if (108 <=? length remote)%nat then (false, none)
    else match socket with
         | None => (false, (eprint (lit "jig nix-store: cannot connect to " ++ remote) none).2)
         | Some (k, ws) => Handshake (Conn [] [] k ws [])
         end.

(** ** class Store: the daemon, or paths computed here *)

Record nix_store := NixStore { offline_ : bool; daemon_ : conn }.

(** what the process starts with *)
Record nix_env := NixEnv {
  ne_offline : str;                                  (* JIG_NIX_STORE_OFFLINE *)
  ne_remote : str;                                   (* NIX_REMOTE *)
  ne_socket : option (kernel * list (option nat));
  ne_store_dir : str;                                (* JIG_STORE_DIR *)
  ne_stdin : str;
}.

Definition Open (e : nix_env) : bool * nix_store :=
  if negb (ne_offline e == []) then (true, NixStore true (Conn [] [] (Kernel [] []) [] []))
  else let '(ok, c) := ConnectDaemon (ne_remote e) (ne_socket e) in (ok, NixStore false c).

Definition AddText (dir : str) (s : nix_store) (name : str) (references : list str) (contents : str)
  : option str * nix_store :=
  if offline_ s then (Some (TextPath dir name references contents), s)
  else let '(p, c) := AddToStore name "text:sha256" references contents (daemon_ s) in
       (p, NixStore (offline_ s) c).

Definition Submit (s : nix_store) (drv output : str) : bool * nix_store :=
  if offline_ s then (true, s)
  else let '(ok, c) := SubmitOutput drv output (daemon_ s) in (ok, NixStore (offline_ s) c).

Section Mode.
Context (json_parse : str → option json) (json_dump : json → str).

(** one entry of fetchurls; [None]: the store refused it *)
Fixpoint fetchurls_loop (dir : str) (s : nix_store) (files : list json) (result : list json)
  : outcome (option (list json) * nix_store) :=
  match files with
  | [] => Done (Some result, s)
  | file :: files =>
      name <~ value get_string [] "name" file ;;
      algo <~ value get_string [] "algo" file ;;
      hex <~ value get_string [] "hex" file ;;
      let out := FixedOutputPath dir name algo hex in
      contents <~ FetchurlDerivation json_parse json_dump file out ;;
      let '(drv, s) := AddText dir s (name ++ lit ".drv") [] contents in
      match drv with
      | None => Done (None, s)
      | Some drv => fetchurls_loop dir s files (result ++ [obj [(lit "drv", JString drv); (lit "out", JString out)]])
      end
  end.

(** the exit status, the lines on stdout, and the store where it was opened *)
Definition RunNixStoreMode (e : nix_env) (args : list str) : outcome (N * list str * nix_store) :=
  match args with
  | [] => Done (2%N, [], NixStore false (Conn [] [] (Kernel [] []) [] []))
  | verb :: rest =>
      let '(opened, s) := Open e in
      if negb opened then Done (1%N, [], s)
      else if ((verb == lit "add-text") || (verb == lit "add-drv")) && (1 <=? length rest)%nat then
        contents <~ (if verb == lit "add-drv" then DerivationToATerm json_parse (ne_stdin e) else Done (ne_stdin e)) ;;
        if (verb == lit "add-drv") && (contents == []) then Done (1%N, [], s)
        else
          let '(path, s) := AddText (ne_store_dir e) s (default [] (head rest)) (tail rest) contents in
          match path with None => Done (1%N, [], s) | Some path => Done (0%N, [path], s) end
      else if (verb == lit "fetchurls") && (length rest =? 0)%nat then
        match json_parse (ne_stdin e) with
        | Some (JArray files) =>
            r <~ fetchurls_loop (ne_store_dir e) s files [] ;;
            match r.1 with
            | None => Done (1%N, [], r.2)
            | Some result => Done (0%N, [json_dump (JArray result)], r.2)
            end
        | _ => Done (1%N, [], s)
        end
      else if (verb == lit "submit") && (length rest =? 2)%nat then
        let '(ok, s) := Submit s (default [] (rest !! 0)) (default [] (rest !! 1)) in
        Done (if (ok : bool) then 0%N else 1%N, [], s)
      else Done (2%N, [], s)
  end.
End Mode.

(** ** Properties *)

(** *** reading what was written *)

Definition stream (c : conn) : str := k_rest (w_in c).
Definition reads_well (c : conn) : Prop := Forall is_Some (k_caps (w_in c)).

(** reading changes nothing but the position in the stream, and what is printed *)
Definition same_but_read (c c' : conn) (printed : list str) : Prop :=
  w_out c' = w_out c ∧ w_sent c' = w_sent c ∧ w_writes c' = w_writes c ∧
  w_err c' = w_err c ++ printed ∧ reads_well c'.

(** a reader that consumes exactly [bytes], prints [printed] and returns [a] *)
Definition consumes {A} (m : wio A) (bytes : str) (printed : list str) (a : A) : Prop :=
  ∀ c rest, reads_well c → stream c = bytes ++ rest →
    ∃ c', m c = (a, c') ∧ stream c' = rest ∧ same_but_read c c' printed.

Lemma consumes_bind {A B} (m : wio A) (f : A → wio B) b1 b2 p1 p2 a b :
  consumes m b1 p1 a → consumes (f a) b2 p2 b → consumes (w_bind m f) (b1 ++ b2) (p1 ++ p2) b.
Proof.
  intros Hm Hf c rest Hg Hs. rewrite <-app_assoc in Hs.
  destruct (Hm c _ Hg Hs) as (c1 & E1 & Hs1 & H1). destruct H1 as (H11 & H12 & H13 & H14 & Hg1).
  destruct (Hf c1 _ Hg1 Hs1) as (c2 & E2 & Hs2 & (H21 & H22 & H23 & H24 & Hg2)).
  exists c2. unfold w_bind. rewrite E1. split; [done|]. split; [done|].
  unfold same_but_read. rewrite H24, H14, app_assoc. split_and!; congruence || done.
Qed.

Lemma consumes_ret {A} (a : A) : consumes (w_ret a) [] [] a.
Proof. intros c rest Hg Hs. exists c. unfold same_but_read. by rewrite app_nil_r. Qed.

(** a read that prints nothing, then the rest *)
Lemma consumes_then {A B} (m : wio A) (f : A → wio B) b1 b2 p a b :
  consumes m b1 [] a → consumes (f a) b2 p b → consumes (w_bind m f) (b1 ++ b2) p b.
Proof. intros Hm Hf. by apply (consumes_bind m f b1 b2 [] p a b). Qed.

Lemma consumes_bind_ret {A B} (m : wio A) (f : A → wio B) bytes p a b :
  consumes m bytes p a → f a = w_ret b → consumes (w_bind m f) bytes p b.
Proof.
  intros Hm Hf. rewrite <-(app_nil_r bytes), <-(app_nil_r p). eapply consumes_bind; [exact Hm|].
  rewrite Hf. apply consumes_ret.
Qed.

Lemma consumes_eprint line : consumes (eprint line) [] [line] tt.
Proof. intros c rest Hg Hs. eexists. split; [done|]. split; [done|]. done. Qed.

Lemma read_bytes_loop_spec fuel n buf c bytes rest :
  length (stream c) + 1 < fuel → reads_well c → stream c = bytes ++ rest → length bytes = n →
  ∃ c', read_bytes_loop fuel n buf c = (Some (buf ++ bytes), c') ∧ stream c' = rest ∧ same_but_read c c' [].
Proof.
  revert n buf c bytes. induction fuel as [|fuel IH]; intros n buf c bytes Hf Hg Hs Hl; [lia|].
  cbn [read_bytes_loop]. destruct (Nat.eqb_spec n 0) as [->|Hn].
  { destruct bytes; [|done]. exists c. unfold same_but_read. by rewrite !app_nil_r. }
  unfold k_read. fold (stream c).
  assert (Hgo : ∀ m caps, 0 < m → m ≤ n → Forall is_Some caps →
    ∃ c', match Some (take m (stream c)) with
      | None | Some [] => (None, Conn (w_out c) (w_sent c) (Kernel (drop m (stream c)) caps) (w_writes c) (w_err c))
      | Some got => read_bytes_loop fuel (n - length got) (buf ++ got)
          (Conn (w_out c) (w_sent c) (Kernel (drop m (stream c)) caps) (w_writes c) (w_err c))
      end = (Some (buf ++ bytes), c') ∧ stream c' = rest ∧ same_but_read c c' []).
  { intros m caps Hm Hmn Hcaps.
    assert (Ht : take m (stream c) = take m bytes) by (rewrite Hs; apply take_app_le; lia).
    assert (Hd : drop m (stream c) = drop m bytes ++ rest) by (rewrite Hs; apply drop_app_le; lia).
    rewrite Ht. destruct (take m bytes) as [|x got] eqn:Et.
    { apply (f_equal length) in Et. rewrite length_take in Et. cbn in Et. lia. }
    rewrite <-Et. rewrite length_take.
    destruct (IH (n - Nat.min m (length bytes)) (buf ++ take m bytes)
      (Conn (w_out c) (w_sent c) (Kernel (drop m (stream c)) caps) (w_writes c) (w_err c)) (drop m bytes))
      as (c' & -> & Hs' & H').
    - unfold stream at 1. cbn [w_in k_rest]. rewrite length_drop. assert (length (stream c) ≠ 0).
      { rewrite Hs, length_app. lia. } lia.
    - exact Hcaps.
    - exact Hd.
    - rewrite length_drop. lia.
    - exists c'. rewrite <-app_assoc, take_drop. done. }
  unfold reads_well in Hg. destruct (k_caps (w_in c)) as [|[k|] caps] eqn:Hk.
  - apply Hgo; [lia|lia|constructor].
  - apply Forall_cons in Hg as [_ Hg]. apply Hgo; [lia|lia|done].
  - by apply Forall_cons in Hg as [[? [=]] _].
Qed.

Lemma ReadBytes_consumes bytes : consumes (ReadBytes (length bytes)) bytes [] (Some bytes).
Proof. intros c rest Hg Hs. unfold ReadBytes. eapply (read_bytes_loop_spec _ _ []); [fold (stream c); lia|done..]. Qed.

Lemma ReadWord_consumes n : (n < 2 ^ 64)%N → consumes ReadWord (word_bytes n) [] (Some n).
Proof.
  intros Hn. unfold ReadWord. eapply consumes_bind_ret; [apply (ReadBytes_consumes (word_bytes n))|].
  change (le_val <$> Some (word_bytes n)) with (Some (le_val (word_bytes n))).
  unfold word_bytes. by rewrite le_val_bytes.
Qed.

Lemma ReadString_consumes t :
  (N.of_nat (length t) ≤ kMaxString)%N → consumes ReadString (string_bytes t) [] (Some t).
Proof.
  intros Ht. unfold ReadString, string_bytes.
  eapply consumes_then; [apply ReadWord_consumes; eapply N.le_lt_trans; [exact Ht|]; by vm_compute|].
  cbn iota beta. rewrite (proj2 (N.ltb_ge _ _)) by done. rewrite Nat2N.id.
  eapply consumes_then; [apply ReadBytes_consumes|]. cbn iota.
  set (zeros := replicate (padding (length t)) chr_nul).
  replace (padding (length t)) with (length zeros) by apply length_replicate.
  eapply consumes_bind_ret; [apply ReadBytes_consumes|done].
Qed.

(** *** the daemon's side of the format *)

Inductive log_field := FInt (n : N) | FString (s : str).
Inductive log_msg :=
| LogNext (text : str)
| LogStart (id level type : N) (text : str) (fields : list log_field) (parent : N)
| LogStop (id : N)
| LogResult (id type : N) (fields : list log_field).

Definition strings_bytes (xs : list str) : str :=
  word_bytes (N.of_nat (length xs)) ++ concat (map string_bytes xs).
Definition field_bytes (f : log_field) : str :=
  match f with FInt n => word_bytes 0 ++ word_bytes n | FString s => word_bytes 1 ++ string_bytes s end.
Definition fields_bytes (fs : list log_field) : str :=
  word_bytes (N.of_nat (length fs)) ++ concat (map field_bytes fs).
Definition msg_bytes (m : log_msg) : str :=
  match m with
  | LogNext t => word_bytes kStderrNext ++ string_bytes t
  | LogStart i l t s fs p =>
      word_bytes kStderrStartActivity ++ word_bytes i ++ word_bytes l ++ word_bytes t ++ string_bytes s ++
      fields_bytes fs ++ word_bytes p
  | LogStop i => word_bytes kStderrStopActivity ++ word_bytes i
  | LogResult i t fs => word_bytes kStderrResult ++ word_bytes i ++ word_bytes t ++ fields_bytes fs
  end.
Definition msg_prints (m : log_msg) : list str := match m with LogNext t => [t] | _ => [] end.

Definition word_ok (n : N) : Prop := (n < 2 ^ 64)%N.
Definition string_ok (t : str) : Prop := (N.of_nat (length t) ≤ kMaxString)%N.
Definition strings_ok (xs : list str) : Prop := (N.of_nat (length xs) < 2 ^ 64)%N ∧ Forall string_ok xs.
Definition field_ok (f : log_field) : Prop := match f with FInt n => word_ok n | FString s => string_ok s end.
Definition fields_ok (fs : list log_field) : Prop := (N.of_nat (length fs) < 2 ^ 64)%N ∧ Forall field_ok fs.
Definition msg_ok (m : log_msg) : Prop :=
  match m with
  | LogNext t => string_ok t
  | LogStart i l t s fs p => word_ok i ∧ word_ok l ∧ word_ok t ∧ string_ok s ∧ fields_ok fs ∧ word_ok p
  | LogStop i => word_ok i
  | LogResult i t fs => word_ok i ∧ word_ok t ∧ fields_ok fs
  end.

Lemma word_bytes_length n : length (word_bytes n) = 8.
Proof. apply le_bytes_length. Qed.

Lemma skip_strings_loop_consumes xs fuel :
  Forall string_ok xs → length xs < fuel →
  consumes (skip_strings_loop fuel (N.of_nat (length xs))) (concat (map string_bytes xs)) [] true.
Proof.
  intros Hxs. revert fuel. induction Hxs as [|x xs Hx _ IH]; intros [|fuel] Hf; cbn [length] in Hf; try lia;
    cbn [skip_strings_loop length map concat].
  - apply consumes_ret.
  - rewrite (proj2 (N.eqb_neq _ _)) by lia. eapply consumes_then; [by apply ReadString_consumes|]. cbn iota.
    replace (N.of_nat (S (length xs)) - 1)%N with (N.of_nat (length xs)) by lia. apply IH. lia.
Qed.

(** the fuel is taken from the stream, which the items themselves make long enough *)
Lemma consumes_fuelled {A} (m : nat → wio A) (fuel : conn → nat) bytes p a :
  (∀ c rest, stream c = bytes ++ rest → consumes (m (fuel c)) bytes p a) →
  consumes (λ c, m (fuel c) c) bytes p a.
Proof. intros H c rest Hg Hs. by apply (H c rest Hs). Qed.

Lemma concat_length_ge {A} (f : A → str) (xs : list A) : (∀ x, 0 < length (f x)) → length xs ≤ length (concat (map f xs)).
Proof. intros Hf. induction xs as [|x xs IH]; [done|]. cbn. rewrite length_app. specialize (Hf x). lia. Qed.

Lemma string_bytes_pos x : 0 < length (string_bytes x).
Proof. unfold string_bytes. rewrite length_app, word_bytes_length. lia. Qed.
Lemma field_bytes_pos f : 0 < length (field_bytes f).
Proof. destruct f; cbn [field_bytes]; rewrite length_app, word_bytes_length; lia. Qed.
Lemma msg_bytes_pos m : 0 < length (msg_bytes m).
Proof. destruct m; cbn [msg_bytes]; rewrite length_app, word_bytes_length; lia. Qed.

Lemma SkipStrings_consumes xs : strings_ok xs → consumes SkipStrings (strings_bytes xs) [] true.
Proof.
  intros [Hn Hxs]. unfold SkipStrings, strings_bytes.
  eapply consumes_then; [by apply ReadWord_consumes|]. cbn iota.
  apply (consumes_fuelled (λ f, skip_strings_loop f _)). intros c rest Hs.
  apply skip_strings_loop_consumes; [done|]. fold (stream c). rewrite Hs, length_app.
  pose proof (concat_length_ge string_bytes xs string_bytes_pos). lia.
Qed.

Lemma skip_fields_loop_consumes fs fuel :
  Forall field_ok fs → length fs ≤ fuel →
  consumes (skip_fields_loop fuel (N.of_nat (length fs))) (concat (map field_bytes fs)) [] tt.
Proof.
  intros Hfs. revert fuel. induction Hfs as [|f fs Hf _ IH]; intros [|fuel] Hle; cbn [length] in Hle; try lia;
    cbn [skip_fields_loop length map concat]; try apply consumes_ret.
  rewrite (proj2 (N.eqb_neq _ _)) by lia.
  assert (Hrest : consumes (skip_fields_loop fuel (N.of_nat (S (length fs)) - 1)) (concat (map field_bytes fs)) [] tt).
  { replace (N.of_nat (S (length fs)) - 1)%N with (N.of_nat (length fs)) by lia. apply IH. lia. }
  destruct f as [n|s]; cbn [field_bytes]; rewrite <-app_assoc.
  - eapply consumes_then; [by apply ReadWord_consumes|]. cbn [default]. change (0 =? 1)%N with false. cbn iota.
    eapply consumes_then; [|exact Hrest]. eapply consumes_bind_ret; [by apply ReadWord_consumes|done].
  - eapply consumes_then; [by apply ReadWord_consumes|]. cbn [default]. change (1 =? 1)%N with true. cbn iota.
    eapply consumes_then; [|exact Hrest]. eapply consumes_bind_ret; [by apply ReadString_consumes|done].
Qed.

Lemma SkipFields_consumes fs : fields_ok fs → consumes SkipFields (fields_bytes fs) [] tt.
Proof.
  intros [Hn Hfs]. unfold SkipFields, fields_bytes. eapply consumes_then; [by apply ReadWord_consumes|].
  apply (consumes_fuelled (λ f, skip_fields_loop f _)). intros c rest Hs.
  apply skip_fields_loop_consumes; [done|]. fold (stream c). rewrite Hs, length_app.
  pose proof (concat_length_ge field_bytes fs field_bytes_pos). lia.
Qed.

Lemma drain_loop_consumes ms fuel tail p r :
  Forall msg_ok ms → length ms < fuel →
  (∀ f, 0 < f → consumes (drain_loop f) tail p r) →
  consumes (drain_loop fuel) (concat (map msg_bytes ms) ++ tail) (concat (map msg_prints ms) ++ p) r.
Proof.
  intros Hms Hf Htail. revert fuel Hf. induction Hms as [|m ms Hm _ IH]; intros fuel Hf; cbn [length] in Hf.
  { apply Htail. lia. }
  destruct fuel as [|fuel]; [lia|]. specialize (IH fuel ltac:(lia)).
  cbn [drain_loop map concat]. rewrite <-!app_assoc.
  destruct m as [t|i l t s fs q|i|i t fs]; cbn [msg_bytes msg_prints msg_ok] in *; rewrite <-!app_assoc;
    (eapply consumes_then; [by apply ReadWord_consumes|]); cbn iota beta.
  - change (kStderrNext =? kStderrLast)%N with false. change (kStderrNext =? kStderrError)%N with false.
    change (kStderrNext =? kStderrNext)%N with true. cbn iota.
    eapply consumes_then; [by apply ReadString_consumes|]. cbn [default].
    eapply (consumes_bind _ _ [] _ [t]); [apply consumes_eprint|exact IH].
  - change (kStderrStartActivity =? kStderrLast)%N with false. change (kStderrStartActivity =? kStderrError)%N with false.
    change (kStderrStartActivity =? kStderrNext)%N with false.
    change (kStderrStartActivity =? kStderrStartActivity)%N with true. cbn iota.
    destruct Hm as (Hi & Hl & Ht & Hs & Hfs & Hq).
    do 3 (eapply consumes_then; [by apply ReadWord_consumes|]).
    eapply consumes_then; [by apply ReadString_consumes|].
    eapply consumes_then; [by apply SkipFields_consumes|].
    eapply consumes_then; [by apply ReadWord_consumes|]. exact IH.
  - change (kStderrStopActivity =? kStderrLast)%N with false. change (kStderrStopActivity =? kStderrError)%N with false.
    change (kStderrStopActivity =? kStderrNext)%N with false.
    change (kStderrStopActivity =? kStderrStartActivity)%N with false.
    change (kStderrStopActivity =? kStderrStopActivity)%N with true. cbn iota.
    eapply consumes_then; [by apply ReadWord_consumes|]. exact IH.
  - change (kStderrResult =? kStderrLast)%N with false. change (kStderrResult =? kStderrError)%N with false.
    change (kStderrResult =? kStderrNext)%N with false. change (kStderrResult =? kStderrStartActivity)%N with false.
    change (kStderrResult =? kStderrStopActivity)%N with false. change (kStderrResult =? kStderrResult)%N with true.
    cbn iota. destruct Hm as (Hi & Ht & Hfs).
    do 2 (eapply consumes_then; [by apply ReadWord_consumes|]).
    eapply consumes_then; [by apply SkipFields_consumes|]. exact IH.
Qed.

Lemma drain_last f : 0 < f → consumes (drain_loop f) (word_bytes kStderrLast) [] true.
Proof.
  intros Hf. destruct f as [|f]; [lia|]. cbn [drain_loop].
  eapply consumes_bind_ret; [by apply ReadWord_consumes|done].
Qed.

Definition error_bytes (type name msg : str) (level : N) : str :=
  word_bytes kStderrError ++ string_bytes type ++ word_bytes level ++ string_bytes name ++ string_bytes msg.
Lemma drain_error type name msg level f :
  string_ok type → string_ok name → string_ok msg → word_ok level → 0 < f →
  consumes (drain_loop f) (error_bytes type name msg level) [lit "nix-daemon: " ++ msg] false.
Proof.
  intros Ht Hn Hm Hl Hf. destruct f as [|f]; [lia|]. cbn [drain_loop]. unfold error_bytes.
  eapply consumes_then; [by apply ReadWord_consumes|]. cbn iota beta.
  change (kStderrError =? kStderrLast)%N with false. change (kStderrError =? kStderrError)%N with true. cbn iota.
  eapply consumes_then; [by apply ReadString_consumes|]. eapply consumes_then; [by apply ReadWord_consumes|].
  eapply consumes_then; [by apply ReadString_consumes|]. rewrite <-(app_nil_r (string_bytes msg)).
  eapply consumes_then; [by apply ReadString_consumes|]. cbn [default].
  eapply consumes_bind_ret; [apply consumes_eprint|done].
Qed.

Lemma DrainStderr_consumes ms tail p r :
  Forall msg_ok ms → 0 < length tail → (∀ f, 0 < f → consumes (drain_loop f) tail p r) →
  consumes DrainStderr (concat (map msg_bytes ms) ++ tail) (concat (map msg_prints ms) ++ p) r.
Proof.
  intros Hms Hpos Ht. unfold DrainStderr. apply (consumes_fuelled drain_loop). intros c rest Hs.
  apply drain_loop_consumes; [done| |done]. fold (stream c). rewrite Hs, !length_app.
  pose proof (concat_length_ge msg_bytes ms msg_bytes_pos). lia.
Qed.

(** *** writing *)

Definition writes_well (c : conn) : Prop := Forall is_Some (w_writes c).

(** appends to the buffer and does nothing else *)
Definition produces (m : wio unit) (bytes : str) : Prop :=
  ∀ c, m c = (tt, Conn (w_out c ++ bytes) (w_sent c) (w_in c) (w_writes c) (w_err c)).

Lemma produces_put bytes : produces (put_out bytes) bytes.
Proof. done. Qed.
Lemma produces_word n : produces (WriteWord n) (word_bytes n).
Proof. done. Qed.
Lemma produces_bind m k b1 b2 : produces m b1 → produces k b2 → produces (m ;;; k) (b1 ++ b2).
Proof. intros H1 H2 c. unfold w_bind. rewrite H1, H2. cbn. by rewrite app_assoc. Qed.
Lemma produces_string t : produces (WriteString t) (string_bytes t).
Proof. apply produces_bind; [done|]. by apply produces_bind. Qed.
Lemma produces_strings xs : produces (write_strings xs) (concat (map string_bytes xs)).
Proof.
  induction xs as [|x xs IH]; [intros c; cbn; rewrite app_nil_r; by destruct c|].
  apply produces_bind; [apply produces_string|exact IH].
Qed.
Definition framed (contents : str) : str := word_bytes (N.of_nat (length contents)) ++ contents ++ word_bytes 0.
Lemma produces_framed contents : produces (WriteFramed contents) (framed contents).
Proof. apply produces_bind; [done|]. by apply produces_bind. Qed.

Lemma flush_loop_spec fuel pending c :
  length pending < fuel → writes_well c →
  ∃ ws, flush_loop fuel pending c = (true, Conn [] (w_sent c ++ pending) (w_in c) ws (w_err c)).
Proof.
  revert pending c. induction fuel as [|fuel IH]; intros pending c Hf Hw; [lia|]. cbn [flush_loop].
  case_bool_decide as Hp; [subst; rewrite app_nil_r; by eexists|].
  assert (Hgo : ∀ sent ws, 0 < sent → Forall is_Some ws →
    ∃ ws', flush_loop fuel (drop sent pending)
      (Conn (w_out c) (w_sent c ++ take sent pending) (w_in c) ws (w_err c)) =
      (true, Conn [] (w_sent c ++ pending) (w_in c) ws' (w_err c))).
  { intros sent ws Hs Hws. assert (0 < length pending) by (destruct pending; [done|cbn; lia]).
    destruct (IH (drop sent pending) (Conn (w_out c) (w_sent c ++ take sent pending) (w_in c) ws (w_err c)))
      as (ws' & ->); [rewrite length_drop; lia|done|].
    exists ws'. cbn. by rewrite <-app_assoc, take_drop. }
  assert (0 < length pending) by (destruct pending; [done|cbn; lia]).
  unfold writes_well in Hw. destruct (w_writes c) as [|[k|] ws].
  - apply Hgo; [lia|constructor].
  - apply Forall_cons in Hw as [_ Hw]. apply Hgo; [lia|done].
  - by apply Forall_cons in Hw as [[? [=]] _].
Qed.

Lemma Flush_spec c :
  writes_well c → ∃ ws, Flush c = (true, Conn [] (w_sent c ++ w_out c) (w_in c) ws (w_err c)).
Proof. intros Hw. apply flush_loop_spec; [lia|done]. Qed.

(** *** AddToStore *)

Definition add_request (name method : str) (references : list str) (contents : str) : str :=
  word_bytes kOpAddToStore ++ string_bytes name ++ string_bytes method ++
  strings_bytes (sort_strings references) ++ word_bytes 0 ++ framed contents.

(** the daemon's answers: ValidPathInfo, or an error *)
Inductive add_reply :=
| Added (path deriver nar_hash : str) (refs : list str) (regtime nar_size ultimate : N) (sigs : list str) (ca : str)
| Refused (type name msg : str) (level : N).

Definition reply_bytes (r : add_reply) : str :=
  match r with
  | Added p d h refs t n u sigs ca =>
      word_bytes kStderrLast ++ string_bytes p ++ string_bytes d ++ string_bytes h ++ strings_bytes refs ++
      word_bytes t ++ word_bytes n ++ word_bytes u ++ strings_bytes sigs ++ string_bytes ca
  | Refused type name msg level => error_bytes type name msg level
  end.
Definition reply_ok (r : add_reply) : Prop :=
  match r with
  | Added p d h refs t n u sigs ca =>
      string_ok p ∧ string_ok d ∧ string_ok h ∧ strings_ok refs ∧ word_ok t ∧ word_ok n ∧ word_ok u ∧
      strings_ok sigs ∧ string_ok ca
  | Refused type name msg level => string_ok type ∧ string_ok name ∧ string_ok msg ∧ word_ok level
  end.
Definition reply_result (r : add_reply) : option str :=
  match r with Added p _ _ _ _ _ _ _ _ => Some p | Refused _ _ _ _ => None end.
Definition reply_prints (r : add_reply) : list str :=
  match r with Added _ _ _ _ _ _ _ _ _ => [] | Refused _ _ msg _ => [lit "nix-daemon: " ++ msg] end.

Lemma all_of_consumes (checks : list (wio bool)) (bs : list str) :
  Forall2 (λ m b, consumes m b [] true) checks bs → consumes (all_of checks) (concat bs) [] true.
Proof.
  induction 1 as [|m b ms bs Hm _ IH]; cbn [all_of concat]; [apply consumes_ret|].
  eapply consumes_then; [exact Hm|]. exact IH.
Qed.

Lemma some_word_consumes n : word_ok n → consumes some_word (word_bytes n) [] true.
Proof. intros Hn. eapply consumes_bind_ret; [by apply ReadWord_consumes|done]. Qed.
Lemma some_string_consumes t : string_ok t → consumes some_string (string_bytes t) [] true.
Proof. intros Ht. eapply consumes_bind_ret; [by apply ReadString_consumes|done]. Qed.

Lemma add_response_consumes ms r :
  Forall msg_ok ms → reply_ok r →
  consumes add_response (concat (map msg_bytes ms) ++ reply_bytes r)
    (concat (map msg_prints ms) ++ reply_prints r) (reply_result r).
Proof.
  intros Hms Hr. unfold add_response. destruct r as [p d h refs t n u sigs ca|type name msg level];
    cbn [reply_bytes reply_ok reply_result reply_prints] in *.
  - destruct Hr as (Hp & Hd & Hh & Hrefs & Ht & Hn & Hu & Hsigs & Hca).
    rewrite (app_assoc (concat _) (word_bytes _)).
    replace (concat (map msg_prints ms) ++ []) with ((concat (map msg_prints ms) ++ []) ++ [])
      by (by rewrite !app_nil_r).
    eapply consumes_bind; [apply DrainStderr_consumes; [done|rewrite word_bytes_length; lia|apply drain_last]|].
    cbn [negb]. eapply consumes_then; [by apply ReadString_consumes|]. cbn iota.
    replace (string_bytes d ++ _) with (concat [string_bytes d; string_bytes h; strings_bytes refs; word_bytes t;
      word_bytes n; word_bytes u; strings_bytes sigs; string_bytes ca]) by (cbn [concat]; by rewrite app_nil_r).
    eapply (consumes_bind_ret _ _ _ _ true); [|done]. apply all_of_consumes.
    repeat constructor; auto using some_word_consumes, some_string_consumes, SkipStrings_consumes.
  - destruct Hr as (Ht & Hn & Hm & Hl). eapply (consumes_bind_ret _ _ _ _ false); [|done].
    apply DrainStderr_consumes; [done|unfold error_bytes; rewrite length_app, word_bytes_length; lia|].
    intros f Hf. by apply drain_error.
Qed.


Definition sample_conn : conn :=
  Conn [] [] (Kernel (msg_bytes (LogNext "adding") ++ msg_bytes (LogResult 1 101 [FInt 5; FString "x"]) ++
    reply_bytes (Added "/nix/store/p" [] "h" [lit "/nix/store/r"] 0 120 0 [] [])) [Some 2; Some 0; Some 100])
    [Some 3; Some 0] [].

Lemma string_ok_small (t : str) : (length t <=? 100)%nat = true → string_ok t.
Proof.
  intros H%Nat.leb_le. unfold string_ok. apply (N.le_trans _ 100); [lia|]. by vm_compute.
Qed.

Lemma strings_ok_small (xs : list str) :
  (length xs <=? 100)%nat && forallb (λ t, (length t <=? 100)%nat) xs = true → strings_ok xs.
Proof.
  intros [Hl Hall]%andb_true_iff. apply Nat.leb_le in Hl. split; [lia|].
  rewrite forallb_forall in Hall. apply list.Forall_forall. intros t Ht%list_elem_of_In.
  by apply string_ok_small, Hall.
Qed.


(** *** the framed source *)

(** how the daemon reads a framed source: chunks up to one of length zero *)
Fixpoint unframe (fuel : nat) (bytes : str) : option (str * str) :=
  match fuel with
  | 0 => None
  | S fuel =>
      if (length bytes <? kWordBytes)%nat then None
      else
        let n := N.to_nat (le_val (take kWordBytes bytes)) in
        let rest := drop kWordBytes bytes in
        if (n =? 0)%nat then Some ([], rest)
        else if (length rest <? n)%nat then None
        else '(more, tail) ← unframe fuel (drop n rest); Some (take n rest ++ more, tail)
  end.

Lemma unframe_word n bytes fuel :
  (n < 2 ^ 64)%N →
  unframe (S fuel) (word_bytes n ++ bytes) =
    if (N.to_nat n =? 0)%nat then Some ([], bytes)
    else if (length bytes <? N.to_nat n)%nat then None
    else '(more, tail) ← unframe fuel (drop (N.to_nat n) bytes); Some (take (N.to_nat n) bytes ++ more, tail).
Proof.
  intros Hn. cbn [unframe]. rewrite length_app, word_bytes_length. unfold kWordBytes.
  rewrite (proj2 (Nat.ltb_ge _ _)) by lia.
  rewrite <-(word_bytes_length n), take_app_length, drop_app_length. unfold word_bytes.
  by rewrite le_val_bytes.
Qed.

(** The daemon gets back from the framed source exactly the contents, and is left at the next
    request, for all contents but the empty one; for empty contents the chunk's own length is the
    terminator, and the extra zero word that follows is left in the stream, in front of the next
    operation. *)
Theorem framed_source (contents rest : str) :
  (N.of_nat (length contents) < 2 ^ 64)%N →
  unframe 2 (framed contents ++ rest) =
    Some (contents, if contents == [] then word_bytes 0 ++ rest else rest) ∧
  ∀ c, w_out (WriteFramed contents c).2 = w_out c ++ framed contents.
Proof.
  intros Hn. split; [|intros c; by rewrite produces_framed].
  unfold framed. rewrite <-!app_assoc, unframe_word by done. rewrite Nat2N.id.
  case_bool_decide as Hz; [by subst|]. destruct (Nat.eqb_spec (length contents) 0); [by destruct contents|].
  rewrite (proj2 (Nat.ltb_ge _ _)) by (rewrite length_app; lia).
  rewrite drop_app_length, take_app_length, unframe_word by done.
  change (N.to_nat 0 =? 0)%nat with true. cbn. by rewrite app_nil_r.
Qed.

Lemma framed_source_witness : unframe 2 (framed "abc" ++ "next") = Some (lit "abc", lit "next").
Proof. apply (framed_source "abc" "next"). by vm_compute. Defined.
