(* ===== verification/Image.v ===== *)
(** * fixup_mode.h, fixup_mode.cc: the binary image and the paths of reloc-fixup

    [BinaryImage] as the string it holds, with its checked reads and writes; [FixupContext] with
    [Final], [OnDisk] and [RelativeTo]; the --deny check. Offsets are 64-bit and stay so. *)

From S2P Require Import Prelude Paths Base Store.

(** ** BinaryImage *)

Definition image := str.
Definition img_size (img : image) : N := N.of_nat (length img).

(** [offset > bytes_.size() || bytes_.size() - offset < n] *)
Definition out_of_range (img : image) (offset n : N) : bool :=
  ((img_size img <? offset) || (img_size img - offset <? n))%N.

(** [Read<T>]: the [sizeof(T)] bytes at an offset *)
Definition Read (img : image) (offset : N) (size : nat) : option str :=
  if out_of_range img offset (N.of_nat size) then None
  else Some (substr img (N.to_nat offset) size).

(** [Write<T>] and [Overwrite] *)
Definition Overwrite (img : image) (offset : N) (bytes : str) : option image :=
  if out_of_range img offset (N.of_nat (length bytes)) then None
  else Some (replace img (N.to_nat offset) (length bytes) bytes).

(** a store that is refused leaves the image alone *)
Definition Write (img : image) (offset : N) (bytes : str) : image := default img (Overwrite img offset bytes).

Definition CString (img : image) (offset : N) : str :=
  if (img_size img <=? offset)%N then []
  else
    let tail := drop (N.to_nat offset) img in
    match find [chr_nul] tail with
    | None => tail
    | Some n => take n tail
    end.

Definition WritePadded (img : image) (offset capacity : N) (text : str) : option image :=
  if (capacity <? N.of_nat (length text) + 1)%N || out_of_range img offset capacity then None
  else Some (replace img (N.to_nat offset) (N.to_nat capacity)
               (text ++ replicate (N.to_nat capacity - length text) chr_nul)).

(** unsigned 64-bit addition *)
Definition add64 (a b : N) : N := ((a + b) mod 2 ^ 64)%N.
Definition sub64 (a b : N) : N := ((a + 2 ^ 64 - b) mod 2 ^ 64)%N.

(** a little-endian field of a structure read as bytes *)
Definition field_at (raw : str) (off size : nat) : N := le_val (substr raw off size).
Definition set_field (raw : str) (off size : nat) (v : N) : str := replace raw off size (le_bytes size v).

(** ** FixupContext *)

Record context := Context_ {
  prefix : str;
  dest : str;
  own_lib_dirs : list str;
  denied : list str;
  sdk : str;
  errors : nat;
}.

Definition bump (ctx : context) : context :=
  Context_ (prefix ctx) (dest ctx) (own_lib_dirs ctx) (denied ctx) (sdk ctx) (S (errors ctx)).

(** a path below [from] moved below [to_] *)
Definition move_below (from to_ path : str) : str :=
  let rel := lexically_relative (lexically_normal path) from in
  if (rel == []) || starts_with rel ".." then path else lexically_normal (to_ /p/ rel).
Definition Final (ctx : context) (path : str) : str := move_below (prefix ctx) (dest ctx) path.
Definition OnDisk (ctx : context) (path : str) : str := move_below (dest ctx) (prefix ctx) path.

Definition RelativeTo (dir target anchor : str) : str :=
  let rel := lexically_relative (lexically_normal target) dir in
  if anchor == [] then rel
  else if rel == lit "." then anchor else anchor ++ "/" ++ rel.

(** [CheckDenied]: one error per hash found *)
Definition CheckDenied (ctx : context) (data : str) : context :=
  foldl (λ c hash, if contains data hash then bump c else c) ctx (denied ctx).

(** ** Properties *)

Lemma out_of_range_false img offset n :
  out_of_range img offset (N.of_nat n) = false ↔ N.to_nat offset + n ≤ length img.
Proof.
  unfold out_of_range, img_size. rewrite orb_false_iff, N.ltb_ge, N.ltb_ge. lia.
Qed.

Lemma replace_length s pos n rep :
  pos + n ≤ length s → length rep = n → length (replace s pos n rep) = length s.
Proof. intros Hp Hr. unfold replace. rewrite !length_app, length_take, length_drop. lia. Qed.

Lemma replace_lookup s pos n rep i :
  pos + n ≤ length s → length rep = n →
  replace s pos n rep !! i = if (pos <=? i)%nat && (i <? pos + n)%nat then rep !! (i - pos) else s !! i.
Proof.
  intros Hp Hr. unfold replace. destruct (Nat.leb_spec pos i), (Nat.ltb_spec i (pos + n)); cbn [andb].
  - rewrite lookup_app_r, length_take by (rewrite length_take; lia).
    rewrite lookup_app_l by lia. f_equal. lia.
  - rewrite lookup_app_r, length_take by (rewrite length_take; lia).
    rewrite lookup_app_r by lia. rewrite lookup_drop. f_equal. lia.
  - rewrite lookup_app_l by (rewrite length_take; lia). by rewrite lookup_take_lt by lia.
  - lia.
Qed.

(** the bytes of a range *)
Lemma substr_lookup s pos n i : substr s pos n !! i = if (i <? n)%nat then s !! (pos + i) else None.
Proof.
  unfold substr. destruct (Nat.ltb_spec i n); [rewrite lookup_take_lt by done|rewrite lookup_take_ge by done; done].
  apply lookup_drop.
Qed.

(** outside [pos, pos+n) *)
Definition outside (pos n i : nat) : Prop := i < pos ∨ pos + n ≤ i.

Lemma replace_outside s pos n rep i :
  pos + n ≤ length s → length rep = n → outside pos n i → replace s pos n rep !! i = s !! i.
Proof.
  intros Hp Hr Ho. rewrite replace_lookup by done.
  destruct (Nat.leb_spec pos i), (Nat.ltb_spec i (pos + n)); try done. unfold outside in Ho. lia.
Qed.

Lemma replace_substr s pos n rep :
  pos + n ≤ length s → length rep = n → substr (replace s pos n rep) pos n = rep.
Proof.
  intros Hp Hr. apply list_eq. intros i. rewrite substr_lookup.
  destruct (Nat.ltb_spec i n).
  - rewrite replace_lookup by done. destruct (Nat.leb_spec pos (pos + i)), (Nat.ltb_spec (pos + i) (pos + n)); try lia.
    cbn. f_equal. lia.
  - symmetry. apply lookup_ge_None. lia.
Qed.

Lemma substr_ext s t pos n :
  (∀ i, i < n → s !! (pos + i) = t !! (pos + i)) → substr s pos n = substr t pos n.
Proof.
  intros H. apply list_eq. intros i. rewrite !substr_lookup. destruct (Nat.ltb_spec i n); [auto|done].
Qed.

Lemma substr_app s off n m : substr s off (n + m) = substr s off n ++ substr s (off + n) m.
Proof. unfold substr. by rewrite <-(take_take_drop _ n m), drop_drop. Qed.

Lemma Overwrite_Some img offset bytes img' :
  Overwrite img offset bytes = Some img' ↔
  N.to_nat offset + length bytes ≤ length img ∧ img' = replace img (N.to_nat offset) (length bytes) bytes.
Proof.
  unfold Overwrite. destruct (out_of_range img offset (N.of_nat (length bytes))) eqn:E.
  - split; [done|]. intros [H _]. apply out_of_range_false in H. congruence.
  - apply out_of_range_false in E. split; [by intros [= <-]|by intros [_ ->]].
Qed.

Lemma Write_length img offset bytes : length (Write img offset bytes) = length img.
Proof.
  unfold Write. destruct (Overwrite img offset bytes) as [img'|] eqn:E; [|done].
  apply Overwrite_Some in E as [Hl ->]. by apply replace_length.
Qed.

Lemma Write_outside img offset bytes i :
  outside (N.to_nat offset) (length bytes) i → Write img offset bytes !! i = img !! i.
Proof.
  intros Ho. unfold Write. destruct (Overwrite img offset bytes) as [img'|] eqn:E; [|done].
  apply Overwrite_Some in E as [Hl ->]. by apply replace_outside.
Qed.

Lemma WritePadded_Some img offset capacity text img' :
  WritePadded img offset capacity text = Some img' ↔
  length text < N.to_nat capacity ∧ N.to_nat offset + N.to_nat capacity ≤ length img ∧
  img' = replace img (N.to_nat offset) (N.to_nat capacity)
           (text ++ replicate (N.to_nat capacity - length text) chr_nul).
Proof.
  unfold WritePadded. rewrite <-(N2Nat.id capacity) at 2.
  destruct (N.ltb_spec capacity (N.of_nat (length text) + 1)); cbn [orb]; [split; [done|lia]|].
  destruct (out_of_range img offset _) eqn:E.
  - split; [done|]. intros (_ & Hb & _). apply out_of_range_false in Hb. congruence.
  - apply out_of_range_false in E. split; [intros [= <-]; split_and!; [lia|done|done]|by intros (_ & _ & ->)].
Qed.

Lemma WritePadded_fits img offset capacity text :
  length text < N.to_nat capacity → N.to_nat offset + N.to_nat capacity ≤ length img →
  ∃ img', WritePadded img offset capacity text = Some img' ∧ length img' = length img.
Proof.
  intros Ht Hl. eexists. split; [apply WritePadded_Some; by split_and!|].
  apply replace_length; [done|]. rewrite length_app, length_replicate. lia.
Qed.

(** a NUL-terminated string lies at an offset *)
Definition string_at (img : image) (offset : nat) (text : str) : Prop :=
  substr img offset (length text + 1) = text ++ [chr_nul].

Lemma CString_string_at img offset text :
  chr_nul ∉ text → string_at img (N.to_nat offset) text → CString img offset = text.
Proof.
  intros Ht Hs. unfold string_at in Hs. assert (Hlen : N.to_nat offset + length text < length img).
  { apply (f_equal length) in Hs. unfold substr in Hs. rewrite length_take, length_drop, length_app in Hs.
    cbn in Hs. lia. }
  unfold CString, img_size. destruct (N.leb_spec (N.of_nat (length img)) offset); [lia|].
  unfold substr in Hs. set (tail := drop (N.to_nat offset) img) in *.
  assert (Htail : tail = text ++ chr_nul :: drop (length text + 1) tail).
  { rewrite <-(take_drop (length text + 1) tail) at 1. rewrite Hs, <-app_assoc. done. }
  rewrite Htail, find_chr_app by done. by rewrite take_app_length.
Qed.

Lemma string_at_ext img img' offset text :
  (∀ i, i ≤ length text → img' !! (offset + i) = img !! (offset + i)) →
  string_at img offset text → string_at img' offset text.
Proof.
  intros H. unfold string_at. intros <-. apply substr_ext. intros i Hi. apply H. lia.
Qed.

(** A string stored in a fixed-size slot of a binary is read back as it was, the file keeps its
    size, no byte outside the slot changes, and the store is refused exactly when the text with its
    terminator exceeds the slot or the slot exceeds the file. *)
Theorem WritePadded_slot (img : image) (offset capacity : N) (text : str) :
  match WritePadded img offset capacity text with
  | None => N.to_nat capacity ≤ length text ∨ length img < N.to_nat offset + N.to_nat capacity
  | Some img' =>
      length img' = length img ∧
      (∀ i, outside (N.to_nat offset) (N.to_nat capacity) i → img' !! i = img !! i) ∧
      (chr_nul ∉ text → CString img' offset = text)
  end.
Proof.
  destruct (WritePadded img offset capacity text) as [img'|] eqn:E.
  - apply WritePadded_Some in E as (Ht & Hl & ->).
    assert (Hr : length (text ++ replicate (N.to_nat capacity - length text) chr_nul) = N.to_nat capacity)
      by (rewrite length_app, length_replicate; lia).
    split; [by apply replace_length|]. split; [intros i Hi; by apply replace_outside|].
    intros Hn. apply CString_string_at; [done|]. unfold string_at. apply list_eq. intros i.
    rewrite substr_lookup, replace_lookup by done.
    destruct (Nat.ltb_spec i (length text + 1)).
    + rewrite (proj2 (Nat.leb_le _ _)), (proj2 (Nat.ltb_lt _ _)) by lia. cbn [andb].
      replace (N.to_nat offset + i - N.to_nat offset) with i by lia.
      destruct (decide (i < length text)); [by rewrite !lookup_app_l by done|].
      rewrite !lookup_app_r by lia. replace (i - length text) with 0 by lia.
      destruct (N.to_nat capacity - length text) eqn:E2; [lia|done].
    + symmetry. apply lookup_ge_None. rewrite length_app. cbn. lia.
  - destruct (decide (N.to_nat capacity ≤ length text)) as [|Hc]; [by left|]. right.
    destruct (decide (length img < N.to_nat offset + N.to_nat capacity)) as [|Hl]; [done|]. exfalso.
    destruct (WritePadded_fits img offset capacity text) as (x & Hx & _); [lia..|congruence].
Qed.

(** *** relative references lead back *)

(** what the loader does with an entry: the anchor stands for the directory of the file *)
Definition expand (anchor dir entry : str) : str :=
  if entry == anchor then dir else lexically_normal (dir /p/ drop (length anchor + 1) entry).

Lemma RelativeTo_names p t d :
  Forall good_name p → Forall good_name t → Forall good_name d → diverge t d →
  RelativeTo (abs_path (p ++ d)) (abs_path (p ++ t)) [] =
    if (t == []) && (d == []) then lit "." else unpieces "/" (rel_elements d t).
Proof.
  intros Hp Ht Hd Hdiv. unfold RelativeTo. rewrite lexically_normal_abs by (by apply Forall_app).
  rewrite lexically_relative_abs by done. done.
Qed.

(** A reference made relative to a file's directory leads back to its target: expanding the
    anchor ($ORIGIN, @loader_path) to the directory and normalising gives the absolute target again
    (with the slash of a directory where the target is an ancestor), for any two absolute paths. *)
Theorem RelativeTo_resolves (anchor : str) (p t d : list str) :
  anchor ≠ [] → Forall good_name p → Forall good_name t → Forall good_name d → diverge t d →
  expand anchor (abs_path (p ++ d)) (RelativeTo (abs_path (p ++ d)) (abs_path (p ++ t)) anchor) =
    abs_path (p ++ t) ++ (if (t == []) && (d != []) && (p != []) then "/" else []).
Proof.
  intros Ha Hp Ht Hd Hdiv. pose proof (RelativeTo_names p t d Hp Ht Hd Hdiv) as Hrel.
  unfold RelativeTo in *. change (([] : str) == []) with true in Hrel. cbn iota in Hrel. rewrite Hrel.
  rewrite bool_decide_eq_false_2 by done. unfold expand.
  destruct (decide (t = [] ∧ d = [])) as [[-> ->]|Hnil].
  - change (([] : list str) == []) with true. cbn [andb negb].
    rewrite (bool_decide_eq_true_2 (lit "." = lit ".")) by done.
    rewrite bool_decide_eq_true_2 by done. symmetry. apply app_nil_r.
  - assert ((t == []) && (d == []) = false) as Hb.
    { apply andb_false_iff. destruct (decide (t = [])) as [->|]; [right|left]; apply bool_decide_eq_false_2; naive_solver. }
    rewrite Hb. set (rel := unpieces "/" (rel_elements d t)).
    assert (Hne : rel_elements d t ≠ []).
    { unfold rel_elements. destruct d; [|done]. destruct t; [|done]. naive_solver. }
    assert (rel ≠ lit ".") as Hdot.
    { intros H. apply (f_equal (pieces chr_slash)) in H. unfold rel in H.
      change (lit "/") with [chr_slash] in H. rewrite pieces_unpieces in H; [|done|].
      - vm_compute in H. destruct d as [|x d].
        + destruct t as [|y t]; [done|]. cbn in H. simplify_eq. apply Forall_cons in Ht as [(_ & Hy & _) _]. done.
        + by destruct d.
      - eapply Forall_impl; [apply rel_elements_plain; eapply Forall_impl; [exact Ht|auto with bytes]|]. by intros e [_ ?]. }
    rewrite (bool_decide_eq_false_2 (rel = lit ".")) by done.
    rewrite bool_decide_eq_false_2.
    2: { intros H. apply (f_equal length) in H. rewrite length_app in H. change (lit "/" ++ rel) with (chr_slash :: rel) in H.
         cbn [length] in H. lia. }
    replace (drop (length anchor + 1) (anchor ++ "/" ++ rel)) with rel
      by (rewrite Nat.add_1_r; symmetry; apply drop_past).
    unfold rel. rewrite normal_of_relative by done. f_equal.
    destruct (decide (t = [])) as [->|]; [|by rewrite bool_decide_eq_false_2].
    rewrite (bool_decide_eq_false_2 (d = [])) by naive_solver. done.
Qed.

Lemma RelativeTo_resolves_witness :
  expand "$ORIGIN" "/nix/store/a/bin" (RelativeTo "/nix/store/a/bin" "/nix/store/b/lib" "$ORIGIN")
  = lit "/nix/store/b/lib".
Proof.
  apply (RelativeTo_resolves "$ORIGIN" [lit "nix"; lit "store"] [lit "b"; lit "lib"] [lit "a"; lit "bin"]);
    [discriminate|..|vm_compute; discriminate];
    repeat (apply Forall_cons; split; [split_and!; [discriminate..|not_in]|]); constructor.
Defined.

(** *** between the build prefix and the final place *)

Lemma move_below_names from to_ t :
  Forall good_name from → Forall good_name to_ → Forall good_name t → t ≠ [] →
  starts_with (unpieces "/" t) ".." = false →
  move_below (abs_path from) (abs_path to_) (abs_path (from ++ t)) = abs_path (to_ ++ t).
Proof.
  intros Hf Hto Ht Hne Hdots. unfold move_below. rewrite lexically_normal_abs by (by apply Forall_app).
  pose proof (lexically_relative_abs from t [] Hf Ht (Forall_nil_2 _)) as Hrel. rewrite app_nil_r in Hrel.
  rewrite Hrel by (by destruct t). rewrite (bool_decide_eq_false_2 (t = [])) by done. cbn [andb].
  unfold rel_elements. cbn [length replicate app]. rewrite Hdots.
  assert (Hpl : ∀ cs, Forall good_name cs → Forall plain cs)
    by (intros; eapply Forall_impl; [done|auto with bytes]).
  rewrite bool_decide_eq_false_2; cbn [orb].
  - rewrite path_append_abs by auto. rewrite lexically_normal_abs; [done|by apply Forall_app].
  - destruct t as [|x t]; [done|]. apply Forall_cons in Ht as [(Hx & _) _]. destruct x; [done|]. by destruct t.
Qed.

(** [Final] takes a file below the build prefix to the same place below its destination, and
    [OnDisk] takes it back: what the loader will find there is what the fixer looks at here. *)
Theorem Final_OnDisk (pre dst t : list str) (ctx : context) :
  prefix ctx = abs_path pre → dest ctx = abs_path dst →
  Forall good_name pre → Forall good_name dst → Forall good_name t → t ≠ [] →
  starts_with (unpieces "/" t) ".." = false →
  Final ctx (abs_path (pre ++ t)) = abs_path (dst ++ t) ∧
  OnDisk ctx (Final ctx (abs_path (pre ++ t))) = abs_path (pre ++ t).
Proof.
  intros Hpre Hdst Hp Hd Ht Hne Hdots.
  assert (Final ctx (abs_path (pre ++ t)) = abs_path (dst ++ t)) as HF
    by (unfold Final; rewrite Hpre, Hdst; by apply move_below_names).
  split; [done|]. rewrite HF. unfold OnDisk. rewrite Hpre, Hdst. by apply move_below_names.
Qed.

Lemma Final_OnDisk_witness :
  Final (Context_ "/build/out" "/nix/store/x" [] [] [] 0) "/build/out/bin/sh" = lit "/nix/store/x/bin/sh".
Proof.
  apply (Final_OnDisk [lit "build"; lit "out"] [lit "nix"; lit "store"; lit "x"] [lit "bin"; lit "sh"]
    (Context_ "/build/out" "/nix/store/x" [] [] [] 0)); try reflexivity; try discriminate;
    repeat (apply Forall_cons; split; [split_and!; [discriminate..|not_in]|]); constructor.
Defined.
