(* ===== verification/ElfFixup.v ===== *)
(** * elf_fixup.cc: the ELF half of reloc-fixup

    Structures are their bytes, with one accessor per field the code uses. The file system is the
    parameter [exists_]. Messages on stderr are left out; the error count, the log, the dirty flag
    and the image are all there. *)

From S2P Require Import Prelude Paths Base Store Image.

(** ** elf.h: sizes and fields of the little-endian 64-bit structures *)

Definition sizeof_Ehdr : nat := 64.
Definition e_type (h : str) : N := field_at h 16 2.
Definition e_entry (h : str) : N := field_at h 24 8.
Definition e_phoff (h : str) : N := field_at h 32 8.
Definition e_shoff (h : str) : N := field_at h 40 8.
Definition e_phentsize (h : str) : N := field_at h 54 2.
Definition e_phnum (h : str) : N := field_at h 56 2.
Definition e_shentsize (h : str) : N := field_at h 58 2.
Definition e_shnum (h : str) : N := field_at h 60 2.

Definition sizeof_Phdr : nat := 56.
Definition p_type (h : str) : N := field_at h 0 4.
Definition p_offset (h : str) : N := field_at h 8 8.
Definition p_vaddr (h : str) : N := field_at h 16 8.
Definition p_filesz (h : str) : N := field_at h 32 8.

Definition sizeof_Shdr : nat := 64.
Definition sizeof_Dyn : nat := 16.
Definition sizeof_Verneed : nat := 16.
Definition sizeof_Sym : nat := 24.
Definition offsetof_d_un : N := 8.
Definition offsetof_vn_file : N := 4.

Definition ET_EXEC : N := 2.
Definition ET_DYN : N := 3.
Definition PT_NULL : N := 0.
Definition PT_LOAD : N := 1.
Definition PT_INTERP : N := 3.
Definition SHT_DYNAMIC : N := 6.
Definition SHT_NOBITS : N := 8.
Definition SHT_DYNSYM : N := 11.
Definition SHT_GNU_verneed : N := 0x6ffffffe.
Definition DT_NULL : N := 0.
Definition DT_NEEDED : N := 1.
Definition DT_RPATH : N := 15.
Definition DT_RUNPATH : N := 29.

(** ** Reading *)

Record section := Section_ { type : N; offset : N; size : N; link : N; entsize : N }.

Definition SectionEnd (elf : image) (s : section) : N :=
  if (img_size elf <=? offset s)%N then 0
  else (offset s + N.min (size s) (img_size elf - offset s))%N.

Record runpath_dir := RunpathDir { entry : str; dir : str; keep : bool }.

(** [i] counts up to [e_shnum]; the loop ends at the first header that is not in the file *)
Fixpoint read_sections_loop (elf : image) (ehdr : str) (i n : nat) : list section :=
  match n with
  | 0 => []
  | S n =>
      match Read elf (add64 (e_shoff ehdr) (N.of_nat i * e_shentsize ehdr)) sizeof_Shdr with
      | None => []
      | Some shdr =>
          Section_ (field_at shdr 4 4) (field_at shdr 24 8) (field_at shdr 32 8) (field_at shdr 40 4)
            (field_at shdr 56 8) :: read_sections_loop elf ehdr (S i) n
      end
  end.
Definition ReadSections (elf : image) (ehdr : str) : list section :=
  read_sections_loop elf ehdr 0 (N.to_nat (e_shnum ehdr)).

Record needed := Needed { name : str; val_offset : N; vn_files : list N }.
Record dynamic_info := DynamicInfo { di_needed : list needed; di_dynstr : N; di_runpath_offset : option N }.

Definition find_section (sections : list section) (t : N) : option section :=
  List.find (λ s, (type s =? t)%N) sections.

(** the entries of .dynamic; one step reads 16 bytes inside the file *)
Fixpoint dyn_loop (fuel : nat) (elf : image) (dynstr off end_ : N) (info : dynamic_info) : dynamic_info :=
  match fuel with
  | 0 => info
  | S fuel =>
      if (off <? end_)%N then
        match Read elf off sizeof_Dyn with
        | None => info
        | Some dyn =>
            let d_tag := field_at dyn 0 8 in
            let d_val := field_at dyn 8 8 in
            if (d_tag =? DT_NULL)%N then info
            else
              let info :=
                if (d_tag =? DT_NEEDED)%N then
                  DynamicInfo (di_needed info ++ [Needed (CString elf (add64 dynstr d_val)) (off + offsetof_d_un) []])
                    (di_dynstr info) (di_runpath_offset info)
                else info in
              let info :=
                if (d_tag =? DT_RUNPATH)%N || (d_tag =? DT_RPATH)%N then
                  DynamicInfo (di_needed info) (di_dynstr info) (Some (add64 dynstr d_val))
                else info in
              dyn_loop fuel elf dynstr (add64 off (N.of_nat sizeof_Dyn)) end_ info
        end
      else info
  end.

Definition note_vn_file (file : str) (at_ : N) (lib : needed) : needed :=
  if name lib == file then Needed (name lib) (val_offset lib) (vn_files lib ++ [at_]) else lib.

(** the version requirements, a linked list inside the file *)
Fixpoint verneed_loop (fuel : nat) (elf : image) (dynstr off : N) (libs : list needed) : list needed :=
  match fuel with
  | 0 => libs
  | S fuel =>
      if (off =? 0)%N then libs
      else
        match Read elf off sizeof_Verneed with
        | None => libs
        | Some ent =>
            let vn_file := field_at ent 4 4 in
            let vn_next := field_at ent 12 4 in
            let file := CString elf (add64 dynstr vn_file) in
            let libs := map (note_vn_file file (off + offsetof_vn_file)) libs in
            verneed_loop fuel elf dynstr (if (vn_next =? 0)%N then 0%N else add64 off vn_next) libs
        end
  end.

Definition ReadDynamic (elf : image) (sections : list section) : dynamic_info :=
  let none := DynamicInfo [] 0 None in
  match find_section sections SHT_DYNAMIC with
  | None => none
  | Some dynamic =>
      match sections !! N.to_nat (link dynamic) with
      | None => none
      | Some dynstr =>
          if (type dynstr =? SHT_NOBITS)%N then none
          else
            let info := dyn_loop (S (length elf)) elf (offset dynstr) (offset dynamic) (SectionEnd elf dynamic)
                          (DynamicInfo [] (offset dynstr) None) in
            let start := match find_section sections SHT_GNU_verneed with None => 0%N | Some v => offset v end in
            DynamicInfo (verneed_loop (S (length elf)) elf (offset dynstr) start (di_needed info))
              (di_dynstr info) (di_runpath_offset info)
      end
  end.

(** symbols whose name begins strictly inside (begin, end) *)
Fixpoint symbol_inside_loop (fuel : nat) (elf : image) (strtab step off end_sec begin end_ : N) : option str :=
  match fuel with
  | 0 => None
  | S fuel =>
      if (off <? end_sec)%N then
        let next := symbol_inside_loop fuel elf strtab step (add64 off step) end_sec begin end_ in
        match Read elf off sizeof_Sym with
        | None => next
        | Some sym =>
            let at_ := add64 strtab (field_at sym 0 4) in
            if ((begin <? at_) && (at_ <? end_))%N then Some (CString elf at_) else next
        end
      else None
  end.
Definition SymbolInside (elf : image) (sections : list section) (begin end_ : N) : option str :=
  match find_section sections SHT_DYNSYM with
  | None => None
  | Some dynsym =>
      if (entsize dynsym <? N.of_nat sizeof_Sym)%N then None
      else match sections !! N.to_nat (link dynsym) with
           | None => None
           | Some strtab =>
               symbol_inside_loop (S (length elf)) elf (offset strtab) (entsize dynsym) (offset dynsym)
                 (SectionEnd elf dynsym) begin end_
           end
  end.

(** vaddr -> file offset through the PT_LOADs *)
Fixpoint file_offset_loop (elf : image) (ehdr : str) (vaddr : N) (i n : nat) : option N :=
  match n with
  | 0 => None
  | S n =>
      let next := file_offset_loop elf ehdr vaddr (S i) n in
      match Read elf (add64 (e_phoff ehdr) (N.of_nat i * e_phentsize ehdr)) sizeof_Phdr with
      | None => next
      | Some ph =>
          if ((p_type ph =? PT_LOAD) && (p_vaddr ph <=? vaddr) && (vaddr - p_vaddr ph <? p_filesz ph))%N
          then Some (add64 (p_offset ph) (vaddr - p_vaddr ph)) else next
      end
  end.
Definition FileOffset (elf : image) (ehdr : str) (vaddr : N) : option N :=
  file_offset_loop elf ehdr vaddr 0 (N.to_nat (e_phnum ehdr)).

Definition kRelocStubMagic : str := "RELOCSTB".
Definition kRelocStubHeader : N := 16.

Fixpoint reloc_start_loop (fuel : nat) (elf : image) (strtab step off end_sec : N) : option N :=
  match fuel with
  | 0 => None
  | S fuel =>
      if (off <? end_sec)%N then
        match Read elf off sizeof_Sym with
        | None => None
        | Some sym =>
            if CString elf (add64 strtab (field_at sym 0 4)) == lit "__reloc_start" then Some (field_at sym 8 8)
            else reloc_start_loop fuel elf strtab step (add64 off step) end_sec
        end
      else None
  end.
(** the outer [None]: [std::string_view::substr] from beyond the end of the file throws *)
Definition FindRelocStart (elf : image) (ehdr : str) (sections : list section) : option (option N) :=
  let by_symbol :=
    match find_section sections SHT_DYNSYM with
    | None => None
    | Some dynsym =>
        if (entsize dynsym <? N.of_nat sizeof_Sym)%N then None
        else match sections !! N.to_nat (link dynsym) with
             | None => None
             | Some strtab =>
                 reloc_start_loop (S (length elf)) elf (offset strtab) (entsize dynsym) (offset dynsym)
                   (SectionEnd elf dynsym)
             end
    end in
  if (kRelocStubHeader <=? e_entry ehdr)%N then
    match FileOffset elf ehdr (e_entry ehdr - kRelocStubHeader) with
    | Some off =>
        if (img_size elf <? off)%N then None
        else if substr elf (N.to_nat off) (length kRelocStubMagic) == kRelocStubMagic then Some (Some (e_entry ehdr))
        else Some by_symbol
    | None => Some by_symbol
    end
  else Some by_symbol.

(** ** RUNPATH *)

Definition kOrigin : str := "$ORIGIN".

Section Fixing.
(** [fs::exists] *)
Context (exists_ : str → bool).

Definition IsLibc (d : runpath_dir) : bool := exists_ (dir d /p/ lit "libc.so.6").

(** where an entry of the old RUNPATH will finally be *)
Definition final_dir (ctx : context) (final_here ent : str) : str :=
  if (ent == kOrigin) || starts_with ent (kOrigin ++ "/") then
    lexically_normal (final_here /p/ drop (Nat.min (length ent) (length kOrigin + 1)) ent)
  else Final ctx ent.

Definition RelativizeRunpath (ctx : context) (st : store) (old here : str) : list runpath_dir :=
  let final_here := Final ctx here in
  omap (λ ent,
    let d := final_dir ctx final_here ent in
    if IsStorePath st d then Some (RunpathDir (RelativeTo final_here d kOrigin) (OnDisk ctx d) true) else None)
    (Split old ":" false) ++
  map (λ own, RunpathDir (RelativeTo final_here (Final ctx own) kOrigin) own false) (own_lib_dirs ctx).

Definition RenderRunpath (runpath : list runpath_dir) : str :=
  Join (foldl (λ kept d, if keep d && negb (bool_decide (entry d ∈ kept)) then kept ++ [entry d] else kept) [] runpath) ":".

(** index of the first directory that has the library *)
Fixpoint find_dir (runpath : list runpath_dir) (lib : str) : option nat :=
  match runpath with
  | [] => None
  | d :: ds => if exists_ (dir d /p/ lib) then Some 0 else S <$> find_dir ds lib
  end.

Definition set_keep (b : bool) (i : nat) (runpath : list runpath_dir) : list runpath_dir :=
  alter (λ d, RunpathDir (entry d) (dir d) b) i runpath.

(** [direct]: a needed library and the index of its directory *)
Record plan := Plan { pl_runpath : list runpath_dir; pl_direct : list (needed * nat); pl_ctx : context }.

Definition plan_one (p : plan) (lib : needed) : plan :=
  if contains_chr (name lib) chr_slash || starts_with (name lib) "ld-linux" || starts_with (name lib) "linux-vdso" then p
  else
    match find_dir (pl_runpath p) (name lib) with
    | None => Plan (pl_runpath p) (pl_direct p) (bump (pl_ctx p))
    | Some i =>
        match pl_runpath p !! i with
        | Some d =>
            if IsLibc d then p
            else Plan (set_keep false i (pl_runpath p)) (pl_direct p ++ [(lib, i)]) (pl_ctx p)
        | None => p
        end
    end.

Definition target (runpath : list runpath_dir) (dep : needed * nat) : str :=
  match runpath !! dep.2 with Some d => entry d | None => [] end ++ "/" ++ name dep.1.

(** the RUNPATH and behind it, each after a NUL, the direct names *)
Definition blob_of (neu : str) (targets : list str) : str :=
  neu ++ concat (map (λ t, chr_nul :: t) targets).

(** point one library's entry, and the version records that name it, at [s] *)
Definition point_at (elf : image) (lib : needed) (s : N) : image :=
  foldl (λ elf vn_file, Write elf vn_file (le_bytes 4 (s mod 2 ^ 32)))
    (Write elf (val_offset lib) (le_bytes 8 s)) (vn_files lib).

Fixpoint point_all (elf : image) (deps : list (needed * str)) (s : N) : image :=
  match deps with
  | [] => elf
  | (lib, t) :: deps => point_all (point_at elf lib s) deps (add64 s (N.of_nat (length t) + 1))
  end.

Record fix_state := FixState { fx_ctx : context; fx_elf : image; fx_log : list str; fx_dirty : bool }.

Definition plan_of (ctx : context) (st : store) (path old : str) (libs : list needed) : plan :=
  foldl plan_one (Plan (RelativizeRunpath ctx st old (parent_path path)) [] ctx) libs.

Definition FixRunpath (st : store) (path : str) (sections : list section) (fx : fix_state) : bool * fix_state :=
  let elf := fx_elf fx in
  let dynamic := ReadDynamic elf sections in
  match di_runpath_offset dynamic with
  | None => (true, fx)
  | Some runpath_offset =>
      let old := CString elf runpath_offset in
      let p := plan_of (fx_ctx fx) st path old (di_needed dynamic) in
      let ctx := pl_ctx p in
      let targets := map (target (pl_runpath p)) (pl_direct p) in
      let neu := RenderRunpath (pl_runpath p) in
      let blob := blob_of neu targets in
      (* no room for the direct names: the sonames and their directories stay *)
      let '(neu, blob, deps) :=
        if (length old <? length blob)%nat then
          let neu := RenderRunpath (foldl (λ rp dep, set_keep true dep.2 rp) (pl_runpath p) (pl_direct p)) in
          (neu, neu, [])
        else (neu, blob, combine (map fst (pl_direct p)) targets) in
      let log := fx_log fx ++ (lit "RUNPATH " ++ neu) :: map (λ d, lit "NEEDED " ++ d.2) deps in
      if blob == old then (true, FixState ctx elf log (fx_dirty fx))
      else
        match SymbolInside elf sections runpath_offset (add64 runpath_offset (N.of_nat (length old))) with
        | Some _ => (false, FixState (bump ctx) elf (fx_log fx) (fx_dirty fx))
        | None =>
            match WritePadded elf runpath_offset (N.of_nat (length old) + 1) blob with
            | None => (false, FixState (bump ctx) elf (fx_log fx) (fx_dirty fx))
            | Some elf =>
                let s := ((runpath_offset + N.of_nat (length neu) + 1 + (2 ^ 64 - di_dynstr dynamic)) mod 2 ^ 64)%N in
                (true, FixState ctx (point_all elf deps s) log true)
            end
        end
  end.

(** ** PT_INTERP *)

(** the program headers from [i] on, [n] of them *)
Fixpoint interp_loop (st : store) (path : str) (ehdr : str) (stub : option N) (i n : nat) (fx : fix_state)
  : bool * fix_state :=
  match n with
  | 0 => (true, fx)
  | S n =>
      let ph_off := add64 (e_phoff ehdr) (N.of_nat i * e_phentsize ehdr) in
      match Read (fx_elf fx) ph_off sizeof_Phdr with
      | None => (true, fx)
      | Some phdr =>
          if negb (p_type phdr =? PT_INTERP)%N then interp_loop st path ehdr stub (S i) n fx
          else
            let old := CString (fx_elf fx) (p_offset phdr) in
            match stub with
            | None =>
                interp_loop st path ehdr stub (S i) n
                  (FixState (fx_ctx fx) (fx_elf fx) (fx_log fx ++ [lit "INTERP " ++ old ++ " kept (no stub)"]) (fx_dirty fx))
            | Some entry =>
                let '(neu, written) :=
                  if IsStorePath st old then
                    let neu := RelativeTo (Final (fx_ctx fx) (parent_path path)) old [] in
                    (neu, WritePadded (fx_elf fx) (p_offset phdr) (p_filesz phdr) neu)
                  else (old, Some (fx_elf fx)) in
                match written with
                | None => (false, FixState (bump (fx_ctx fx)) (fx_elf fx) (fx_log fx) (fx_dirty fx))
                | Some elf =>
                    let elf := Write elf ph_off (set_field phdr 0 4 PT_NULL) in
                    let elf := Write elf 0 (set_field ehdr 24 8 entry) in
                    interp_loop st path ehdr stub (S i) n
                      (FixState (fx_ctx fx) elf (fx_log fx ++ [lit "INTERP " ++ neu ++ " (PT_NULL, entry=__reloc_start)"]) true)
                end
            end
      end
  end.
Definition FixInterp (st : store) (path : str) (ehdr : str) (sections : list section) (fx : fix_state)
  : option (bool * fix_state) :=
  match FindRelocStart (fx_elf fx) ehdr sections with
  | None => None
  | Some stub => Some (interp_loop st path ehdr stub 0 (N.to_nat (e_phnum ehdr)) fx)
  end.

Definition elf_magic : str := byte_of 127 :: lit "ELF".
(** EI_CLASS = 4, EI_DATA = 5 *)
Definition IsElf64LittleEndian (img : image) : bool :=
  starts_with img elf_magic && (5 <? length img)%nat && (img !! 4 == Some (byte_of 2)) && (img !! 5 == Some (byte_of 1)).

(** what one file comes to: not an ELF file of ours; or handled, with the context, the bytes to
    write back (when dirty) and the log; or an exception *)
Inductive elf_result :=
| NotElf
| Handled (ctx : context) (write : option (image * list str))
| Throws.

(** [shown]: the path relative to the prefix, for the log *)
Definition FixElf (st : store) (ctx : context) (path shown : str) (img : image) : elf_result :=
  if negb (IsElf64LittleEndian img) then NotElf
  else
    match Read img 0 sizeof_Ehdr with
    | None => Handled ctx None
    | Some ehdr =>
        if negb ((e_type ehdr =? ET_EXEC) || (e_type ehdr =? ET_DYN))%N then Handled ctx None
        else
          let sections := ReadSections img ehdr in
          let '(ok, fx) := FixRunpath st path sections (FixState ctx img [shown] false) in
          if negb ok then Handled (fx_ctx fx) None
          else
            match FixInterp st path ehdr sections fx with
            | None => Throws
            | Some (ok, fx) =>
                if negb ok then Handled (fx_ctx fx) None
                else Handled (fx_ctx fx) (if fx_dirty fx then Some (fx_elf fx, fx_log fx) else None)
            end
    end.
End Fixing.

(** ** Properties *)

(** *** strings behind one another *)

Definition packed (ts : list str) : str := concat (map (λ t, t ++ [chr_nul]) ts).

Fixpoint strings_at (img : image) (off : nat) (ts : list str) : Prop :=
  match ts with
  | [] => True
  | t :: ts => string_at img off t ∧ strings_at img (off + length t + 1) ts
  end.

Lemma packed_strings img off ts :
  substr img off (length (packed ts)) = packed ts → strings_at img off ts.
Proof.
  revert off. induction ts as [|t ts IH]; intros off H; [done|].
  unfold packed in H. cbn [map concat] in H. fold (packed ts) in H.
  rewrite length_app, substr_app in H.
  assert (Hl : length (substr img off (length (t ++ [chr_nul]))) = length (t ++ [chr_nul])).
  { apply (f_equal length) in H. rewrite !length_app in *. unfold substr in *. rewrite !length_take, !length_drop in *.
    lia. }
  apply app_inj_1 in H as [H1 H2]; [|done]. rewrite length_app in H1, H2. cbn [length] in H1, H2. split; [done|].
  apply IH. by rewrite <-Nat.add_assoc.
Qed.

Lemma strings_at_ext img img' off ts :
  (∀ i, off ≤ i < off + length (packed ts) → img' !! i = img !! i) →
  strings_at img off ts → strings_at img' off ts.
Proof.
  revert off. induction ts as [|t ts IH]; intros off H; [done|]. intros [Ht Hts].
  unfold packed in H. cbn [map concat] in H. fold (packed ts) in H. rewrite !length_app in H. cbn [length] in H.
  split.
  - eapply string_at_ext; [|exact Ht]. intros i Hi. apply H. lia.
  - apply IH; [|exact Hts]. intros i Hi. apply H. lia.
Qed.

Lemma blob_packed neu ts : blob_of neu ts ++ [chr_nul] = packed (neu :: ts).
Proof.
  unfold blob_of, packed. cbn [map concat]. rewrite <-!app_assoc. f_equal.
  induction ts as [|t ts IH]; [done|]. cbn [map concat]. rewrite <-!app_assoc. cbn [app]. by rewrite IH.
Qed.

Lemma WritePadded_strings img off cap neu ts img' :
  WritePadded img off cap (blob_of neu ts) = Some img' → strings_at img' (N.to_nat off) (neu :: ts).
Proof.
  intros (Ht & Hl & ->)%WritePadded_Some. apply packed_strings. rewrite <-blob_packed.
  set (blob := blob_of neu ts) in *. apply list_eq. intros i. rewrite substr_lookup.
  assert (Hr : length (blob ++ replicate (N.to_nat cap - length blob) chr_nul) = N.to_nat cap)
    by (rewrite length_app, length_replicate; lia).
  rewrite length_app. cbn [length]. destruct (Nat.ltb_spec i (length blob + 1)).
  - rewrite replace_lookup by done. rewrite (proj2 (Nat.leb_le _ _)), (proj2 (Nat.ltb_lt _ _)) by lia. cbn [andb].
    replace (N.to_nat off + i - N.to_nat off) with i by lia.
    destruct (decide (i < length blob)); [by rewrite !lookup_app_l by done|].
    rewrite !lookup_app_r by lia. replace (i - length blob) with 0 by lia.
    destruct (N.to_nat cap - length blob) eqn:E; [lia|done].
  - symmetry. apply lookup_ge_None. rewrite length_app. cbn. lia.
Qed.

(** *** the words that are redirected *)

Definition words (lib : needed) : list (nat * nat) :=
  (N.to_nat (val_offset lib), 8) :: map (λ v, (N.to_nat v, 4)) (vn_files lib).
Definition all_words (libs : list needed) : list (nat * nat) := concat (map words libs).
Definition apart (a b : nat * nat) : Prop := a.1 + a.2 ≤ b.1 ∨ b.1 + b.2 ≤ a.1.

Lemma Write_length_le img off k v : length (Write img off (le_bytes k v)) = length img.
Proof. apply Write_length. Qed.

Lemma point_at_length elf lib s : length (point_at elf lib s) = length elf.
Proof.
  unfold point_at. rewrite <-(Write_length elf (val_offset lib) (le_bytes 8 s)).
  generalize (Write elf (val_offset lib) (le_bytes 8 s)). induction (vn_files lib) as [|v vs IH]; intros e; [done|].
  cbn [foldl]. by rewrite IH, Write_length.
Qed.

Lemma point_at_outside elf lib s i :
  Forall (λ w, outside w.1 w.2 i) (words lib) → point_at elf lib s !! i = elf !! i.
Proof.
  intros [Hv Hvs]%Forall_cons. unfold point_at.
  transitivity (Write elf (val_offset lib) (le_bytes 8 s) !! i); [|by apply Write_outside; rewrite le_bytes_length].
  generalize (Write elf (val_offset lib) (le_bytes 8 s)). induction (vn_files lib) as [|v vs IH]; intros e; [done|].
  cbn [foldl map] in *. apply Forall_cons in Hvs as [H1 H2]. rewrite IH by done.
  apply Write_outside. by rewrite le_bytes_length.
Qed.

Lemma point_all_length elf deps s : length (point_all elf deps s) = length elf.
Proof.
  revert elf s. induction deps as [|[lib t] deps IH]; intros elf s; [done|]. cbn. by rewrite IH, point_at_length.
Qed.

Lemma point_all_outside elf deps s i :
  Forall (λ w, outside w.1 w.2 i) (all_words (map fst deps)) → point_all elf deps s !! i = elf !! i.
Proof.
  revert elf s. induction deps as [|[lib t] deps IH]; intros elf s Hi; [done|].
  unfold all_words in Hi. cbn [map concat fst] in Hi. apply Forall_app in Hi as [H1 H2]. cbn [point_all].
  rewrite IH by done. by apply point_at_outside.
Qed.

Lemma Write_substr img off k v :
  N.to_nat off + k ≤ length img → substr (Write img off (le_bytes k v)) (N.to_nat off) k = le_bytes k v.
Proof.
  intros Hl. unfold Write, Overwrite.
  assert (out_of_range img off (N.of_nat (length (le_bytes k v))) = false) as ->
    by (apply out_of_range_false; rewrite le_bytes_length; done).
  cbn [default]. rewrite le_bytes_length. apply replace_substr; [done|apply le_bytes_length].
Qed.

Lemma substr_outside_ext (s t : str) w :
  (∀ i, w.1 ≤ i < w.1 + w.2 → s !! i = t !! i) → substr s w.1 w.2 = substr t w.1 w.2.
Proof. intros H. apply substr_ext. intros i Hi. apply H. lia. Qed.

(** a word written before and not touched since *)
Lemma point_at_reads elf lib s :
  Forall (λ w, w.1 + w.2 ≤ length elf) (words lib) → ForallOrdPairs apart (words lib) →
  substr (point_at elf lib s) (N.to_nat (val_offset lib)) 8 = le_bytes 8 s ∧
  ∀ v, v ∈ vn_files lib → substr (point_at elf lib s) (N.to_nat v) 4 = le_bytes 4 (s mod 2 ^ 32).
Proof.
  intros [Hl Hls]%Forall_cons Hap. inversion Hap as [|x xs Hx Hxs]; subst x xs. clear Hap.
  unfold point_at. set (e := Write elf (val_offset lib) (le_bytes 8 s)).
  assert (He : substr e (N.to_nat (val_offset lib)) 8 = le_bytes 8 s) by (by apply Write_substr).
  assert (Hlen : length e = length elf) by apply Write_length. rewrite <-Hlen in Hls. clearbody e. clear Hl Hlen.
  revert e He Hls. induction (vn_files lib) as [|v vs IH]; intros e He Hls; [split; [done|set_solver]|].
  cbn [map foldl] in *. apply Forall_cons in Hls as [Hv Hls]. apply Forall_cons in Hx as [Hxv Hx].
  inversion Hxs as [|y ys Hy Hys]; subst y ys. cbn [fst snd] in *.
  set (e1 := Write e v (le_bytes 4 (s mod 2 ^ 32))).
  assert (Hlen : length e1 = length e) by apply Write_length.
  assert (H1 : substr e1 (N.to_nat (val_offset lib)) 8 = le_bytes 8 s).
  { rewrite <-He. apply (substr_outside_ext _ _ (N.to_nat (val_offset lib), 8)). intros i Hi. apply Write_outside.
    rewrite le_bytes_length. unfold apart, outside in *. cbn [fst snd] in *. lia. }
  rewrite <-Hlen in Hls. destruct (IH Hx Hys e1 H1 Hls) as [IH1 IH2]. split; [done|].
  intros w [->|Hw]%elem_of_cons; [|by apply IH2].
  assert (Hsame : ∀ i, N.to_nat v ≤ i < N.to_nat v + 4 →
    foldl (λ elf vn_file, Write elf vn_file (le_bytes 4 (s mod 2 ^ 32))) e1 vs !! i = e1 !! i).
  { clear -Hy. intros i Hi. generalize e1. induction vs as [|u us IHu]; intros a; [done|].
    cbn [map foldl] in *. apply Forall_cons in Hy as [Hu Hy]. rewrite IHu by done. apply Write_outside.
    rewrite le_bytes_length. unfold apart, outside in *. cbn [fst snd] in *. lia. }
  etrans; [apply (substr_outside_ext _ e1 (N.to_nat v, 4)); exact Hsame|]. by apply Write_substr.
Qed.

Lemma apart_outside w w' i : apart w w' → w.1 ≤ i < w.1 + w.2 → outside w'.1 w'.2 i.
Proof. unfold apart, outside. lia. Qed.

Lemma ForallOrdPairs_app {A} (R : A → A → Prop) l k :
  ForallOrdPairs R (l ++ k) → ForallOrdPairs R l ∧ ForallOrdPairs R k ∧ ∀ x, x ∈ l → Forall (R x) k.
Proof.
  induction l as [|a l IH]; cbn [app]; intros H; [split_and!; [constructor|done|set_solver]|].
  inversion H as [|? ? Ha Hl]; subst. apply Forall_app in Ha as [Ha1 Ha2]. destruct (IH Hl) as (H1 & H2 & H3).
  split_and!; [by constructor|done|]. intros x [->|Hx]%elem_of_cons; auto.
Qed.

(** the string offset the [k]-th library is pointed at *)
Definition pos_of (s : N) (ts : list str) (k : nat) : N := (s + N.of_nat (length (packed (take k ts))))%N.

Lemma point_all_reads elf deps s k lib t :
  Forall (λ w, w.1 + w.2 ≤ length elf) (all_words (map fst deps)) → ForallOrdPairs apart (all_words (map fst deps)) →
  (s + N.of_nat (length (packed (map snd deps))) < 2 ^ 64)%N → deps !! k = Some (lib, t) →
  substr (point_all elf deps s) (N.to_nat (val_offset lib)) 8 = le_bytes 8 (pos_of s (map snd deps) k) ∧
  ∀ v, v ∈ vn_files lib →
    substr (point_all elf deps s) (N.to_nat v) 4 = le_bytes 4 (pos_of s (map snd deps) k mod 2 ^ 32).
Proof.
  revert elf s k. induction deps as [|[lib' t'] deps IH]; intros elf s k Hin Hap Hs Hk; [done|].
  unfold all_words in Hin, Hap. cbn [map concat fst] in Hin, Hap. fold (all_words (map fst deps)) in Hin, Hap.
  apply Forall_app in Hin as [Hin1 Hin2]. apply ForallOrdPairs_app in Hap as (Hap1 & Hap2 & Hcross).
  cbn [point_all]. destruct k as [|k]; cbn [lookup list_lookup] in Hk.
  - simplify_eq. unfold pos_of. cbn [take map packed concat length]. rewrite N.add_0_r.
    destruct (point_at_reads elf lib s Hin1 Hap1) as [H1 H2].
    assert (Hkeep : ∀ w, w ∈ words lib → ∀ i, w.1 ≤ i < w.1 + w.2 →
      point_all (point_at elf lib s) deps (add64 s (N.of_nat (length t) + 1)) !! i = point_at elf lib s !! i).
    { intros w Hw i Hi. apply point_all_outside. eapply Forall_impl; [exact (Hcross w Hw)|].
      intros w' Hw'. by eapply apart_outside. }
    split.
    + rewrite <-H1. apply (substr_outside_ext _ _ (N.to_nat (val_offset lib), 8)). apply Hkeep. constructor.
    + intros v Hv. rewrite <-(H2 v Hv). apply (substr_outside_ext _ _ (N.to_nat v, 4)). apply Hkeep.
      unfold words. apply elem_of_cons. right. apply list_elem_of_fmap. eauto.
  - cbn [map snd] in *. unfold packed in Hs. cbn [map concat] in Hs. fold (packed (map snd deps)) in Hs.
    rewrite !length_app in Hs. cbn [length] in Hs.
    assert (Hadd : add64 s (N.of_nat (length t') + 1) = (s + N.of_nat (length t') + 1)%N)
      by (unfold add64; rewrite N.mod_small; lia).
    rewrite Hadd. destruct (IH (point_at elf lib' s) (s + N.of_nat (length t') + 1)%N k) as [H1 H2]; [|done|lia|done|].
    { by rewrite point_at_length. }
    assert (Hp : pos_of s (t' :: map snd deps) (S k) = pos_of (s + N.of_nat (length t') + 1) (map snd deps) k).
    { unfold pos_of. cbn [take]. unfold packed. cbn [map concat]. rewrite !length_app. cbn [length]. lia. }
    by rewrite Hp.
Qed.

Lemma strings_at_lookup img off ts k t :
  strings_at img off ts → ts !! k = Some t → string_at img (off + length (packed (take k ts))) t.
Proof.
  revert off k. induction ts as [|t' ts IH]; intros off k; [done|]. intros [H1 H2].
  destruct k as [|k]; cbn [lookup list_lookup take]; intros Hk.
  - simplify_eq. cbn. by rewrite Nat.add_0_r.
  - specialize (IH _ _ H2 Hk). unfold packed. cbn [map concat]. fold (packed (take k ts)). rewrite !length_app. cbn [length].
    by replace (off + (length t' + 1 + length (packed (take k ts)))) with (off + length t' + 1 + length (packed (take k ts))) by lia.
Qed.

(** *** the plan *)

Lemma plan_one_direct exists_ p lib :
  ∃ l, pl_direct (plan_one exists_ p lib) = pl_direct p ++ l ∧ (l = [] ∨ ∃ i, l = [(lib, i)]).
Proof.
  unfold plan_one. destruct (_ || _ || _); [exists []; rewrite app_nil_r; auto|].
  destruct (find_dir exists_ (pl_runpath p) (name lib)) as [i|]; [|exists []; rewrite app_nil_r; auto].
  destruct (pl_runpath p !! i) as [d|]; [|exists []; rewrite app_nil_r; auto].
  destruct (IsLibc exists_ d); [exists []; rewrite app_nil_r; auto|]. exists [(lib, i)]. eauto.
Qed.

Lemma plan_direct exists_ libs p :
  ∃ l, pl_direct (foldl (plan_one exists_) p libs) = pl_direct p ++ l ∧ map fst l `sublist_of` libs.
Proof.
  revert p. induction libs as [|lib libs IH]; intros p; [exists []; by rewrite app_nil_r|].
  cbn [foldl]. destruct (IH (plan_one exists_ p lib)) as (l & -> & Hl).
  destruct (plan_one_direct exists_ p lib) as (l' & -> & Hl'). exists (l' ++ l). rewrite app_assoc. split; [done|].
  destruct Hl' as [->|[i ->]]; cbn; by constructor.
Qed.

Lemma plan_of_direct exists_ ctx st path old libs :
  map fst (pl_direct (plan_of exists_ ctx st path old libs)) `sublist_of` libs.
Proof.
  unfold plan_of. destruct (plan_direct exists_ libs (Plan (RelativizeRunpath ctx st old (parent_path path)) [] ctx))
    as (l & -> & Hl). exact Hl.
Qed.

Lemma all_words_sublist (P : nat * nat → Prop) l k :
  l `sublist_of` k → Forall P (all_words k) → Forall P (all_words l).
Proof.
  unfold all_words. intros H. induction H; cbn [map concat]; rewrite ?Forall_app; naive_solver.
Qed.

Lemma combine_map_fst_snd {A B C} (f : A * C → B) (l : list (A * C)) :
  map fst (combine (map fst l) (map f l)) = map fst l ∧ map snd (combine (map fst l) (map f l)) = map f l.
Proof. induction l as [|x l [IH1 IH2]]; [done|]. cbn. by rewrite IH1, IH2. Qed.

(** ** FixRunpath *)

Lemma FixRunpath_outside exists_ (st : store) (path : str) (sections : list section) (fx : fix_state) :
  let dyn := ReadDynamic (fx_elf fx) sections in
  let '(ok, fx') := FixRunpath exists_ st path sections fx in
  length (fx_elf fx') = length (fx_elf fx) ∧
  (ok = false → fx_elf fx' = fx_elf fx ∧ fx_dirty fx' = fx_dirty fx ∧ errors (fx_ctx fx') ≠ 0) ∧
  (fx_dirty fx' = false → fx_elf fx' = fx_elf fx) ∧
  ∀ i, (∀ off, di_runpath_offset dyn = Some off → outside (N.to_nat off) (S (length (CString (fx_elf fx) off))) i) →
    Forall (λ w, outside w.1 w.2 i) (all_words (di_needed dyn)) → fx_elf fx' !! i = fx_elf fx !! i.
Proof.
  intros dyn. unfold FixRunpath. fold dyn. destruct (di_runpath_offset dyn) as [off|] eqn:Eoff; [|done].
  set (old := CString (fx_elf fx) off). set (p := plan_of exists_ (fx_ctx fx) st path old (di_needed dyn)).
  cbv zeta. set (choice := if (length old <? _)%nat then _ else _).
  assert (Hsub : map fst choice.2 `sublist_of` di_needed dyn).
  { unfold choice. destruct (_ <? _)%nat; cbn [snd map]; [apply sublist_nil_l|].
    rewrite (proj1 (combine_map_fst_snd _ _)). apply plan_of_direct. }
  destruct choice as [[neu blob] deps]. cbn [snd] in Hsub.
  destruct (blob == old); [by split_and!|].
  destruct (SymbolInside _ _ _ _); [by split_and!|].
  destruct (WritePadded _ _ _ _) as [elf'|] eqn:E; [|by split_and!].
  apply WritePadded_Some in E as (Ht & Hl & ->).
  assert (Hr : length (blob ++ replicate (N.to_nat (N.of_nat (length old) + 1) - length blob) chr_nul)
               = N.to_nat (N.of_nat (length old) + 1)) by (rewrite length_app, length_replicate; lia).
  cbn [fx_elf fx_dirty]. split_and!; [|done|done|].
  - rewrite point_all_length. by apply replace_length.
  - intros i Ho Hw. rewrite point_all_outside by (by eapply all_words_sublist). apply replace_outside; [done..|].
    specialize (Ho off eq_refl). fold old in Ho. unfold outside in *. lia.
Qed.

(** Rewriting the RUNPATH never resizes a binary and never touches a byte outside the slot of
    the old RUNPATH (the string and its terminator) and the words that name needed libraries; a
    refusal leaves the image as it was and is counted, and an image that changed is marked dirty. *)
Theorem FixRunpath_frame exists_ (st : store) (path : str) (sections : list section) (fx : fix_state) :
  let dyn := ReadDynamic (fx_elf fx) sections in
  let '(ok, fx') := FixRunpath exists_ st path sections fx in
  length (fx_elf fx') = length (fx_elf fx) ∧
  (ok = false → fx_elf fx' = fx_elf fx ∧ fx_dirty fx' = fx_dirty fx ∧ errors (fx_ctx fx') ≠ 0) ∧
  (fx_dirty fx' = false → fx_elf fx' = fx_elf fx) ∧
  ∀ i, (∀ off, di_runpath_offset dyn = Some off → outside (N.to_nat off) (S (length (CString (fx_elf fx) off))) i) →
    Forall (λ w, outside w.1 w.2 i) (all_words (di_needed dyn)) → fx_elf fx' !! i = fx_elf fx !! i.
Proof. apply FixRunpath_outside. Qed.

(** the places the context names stay what they are *)
Definition same_places (c c' : context) : Prop := prefix c' = prefix c ∧ dest c' = dest c.

Lemma plan_of_places exists_ ctx st path old libs : same_places ctx (pl_ctx (plan_of exists_ ctx st path old libs)).
Proof.
  unfold plan_of. generalize (RelativizeRunpath ctx st old (parent_path path)). intros rp.
  assert (∀ p, same_places ctx (pl_ctx p) → same_places ctx (pl_ctx (foldl (plan_one exists_) p libs))) as H; [|by apply H].
  induction libs as [|lib libs IH]; intros p Hp; [done|]. cbn [foldl]. apply IH. unfold plan_one.
  destruct (_ || _ || _); [done|]. destruct (find_dir _ _ _) as [i|]; [|exact Hp].
  destruct (pl_runpath p !! i) as [d|]; [|done]. by destruct (IsLibc exists_ d).
Qed.

Lemma FixRunpath_places exists_ st path sections fx :
  same_places (fx_ctx fx) (fx_ctx (FixRunpath exists_ st path sections fx).2).
Proof.
  unfold FixRunpath. destruct (di_runpath_offset _) as [off|]; [|done].
  set (old := CString (fx_elf fx) off). pose proof (plan_of_places exists_ (fx_ctx fx) st path old (di_needed (ReadDynamic (fx_elf fx) sections))) as Hp.
  set (p := plan_of _ _ _ _ _ _) in *. cbv zeta. destruct (if (length old <? _)%nat then _ else _) as [[neu blob] deps].
  destruct (blob == old); [exact Hp|]. destruct (SymbolInside _ _ _ _); [exact Hp|].
  destruct (WritePadded _ _ _ _); exact Hp.
Qed.

(** the words of the needed libraries are in the file, apart from one another and from the slot *)
Definition words_apart (elf : image) (off : N) (old : str) (libs : list needed) : Prop :=
  Forall (λ w, w.1 + w.2 ≤ length elf ∧ apart w (N.to_nat off, S (length old))) (all_words libs) ∧
  ForallOrdPairs apart (all_words libs).

Lemma ForallOrdPairs_sublist {A} (R : A → A → Prop) l k :
  l `sublist_of` k → ForallOrdPairs R k → ForallOrdPairs R l.
Proof.
  intros H. induction H as [|x l k H IH|x l k H IH]; intros Hk; [done|..]; inversion Hk as [|? ? Hx Hk']; subst.
  - constructor; [|auto]. rewrite list.Forall_forall in *. intros y Hy. apply Hx. by eapply sublist_subseteq.
  - auto.
Qed.

Lemma all_words_sub l k : l `sublist_of` k → all_words l `sublist_of` all_words k.
Proof.
  unfold all_words. intros H. induction H; cbn [map concat]; [done|by apply sublist_app|by apply sublist_inserts_l].
Qed.

Lemma strings_after_slot img off neu ts deps s w :
  strings_at img off (neu :: ts) → length (packed (neu :: ts)) ≤ w →
  Forall (λ x, apart x (off, w)) (all_words (map fst deps)) →
  strings_at (point_all img deps s) off (neu :: ts).
Proof.
  intros Hs Hw Ho. eapply strings_at_ext; [|exact Hs]. intros i Hi. apply point_all_outside.
  eapply Forall_impl; [exact Ho|]. intros x Hx. unfold apart, outside in *. cbn [fst snd] in Hx. lia.
Qed.

Lemma field_at_le_bytes img pos k v :
  substr img pos k = le_bytes k v → (v < 256 ^ N.of_nat k)%N → field_at img pos k = v.
Proof. intros H Hv. unfold field_at. by rewrite H, le_val_bytes. Qed.

Lemma packed_length_cons t ts : length (packed (t :: ts)) = length t + 1 + length (packed ts).
Proof. unfold packed. cbn [map concat]. rewrite !length_app. done. Qed.

(** the words of a direct library lead to its string behind the RUNPATH *)
Lemma point_all_leads elf (off dynstr : N) neu deps s w k lib t :
  strings_at elf (N.to_nat off) (neu :: map snd deps) → length (packed (neu :: map snd deps)) ≤ w →
  N.to_nat off + w ≤ length elf → (img_size elf < 2 ^ 32)%N →
  Forall (λ x, x.1 + x.2 ≤ length elf) (all_words (map fst deps)) →
  Forall (λ x, apart x (N.to_nat off, w)) (all_words (map fst deps)) → ForallOrdPairs apart (all_words (map fst deps)) →
  (dynstr ≤ off)%N → s = (off + N.of_nat (length neu) + 1 - dynstr)%N →
  Forall (λ t, chr_nul ∉ t) (map snd deps) → deps !! k = Some (lib, t) →
  let str_off := field_at (point_all elf deps s) (N.to_nat (val_offset lib)) 8 in
  CString (point_all elf deps s) (add64 dynstr str_off) = t ∧
  ∀ v, v ∈ vn_files lib → field_at (point_all elf deps s) (N.to_nat v) 4 = str_off.
Proof.
  intros Hstr Hw Hl Hsize Hin Hout Hap Hdyn Hs Hnul Hk. cbv zeta.
  pose proof (strings_after_slot _ _ _ _ deps s _ Hstr Hw Hout) as [_ Hend].
  rewrite packed_length_cons in Hw. unfold img_size in Hsize.
  destruct (point_all_reads elf deps s k lib t Hin Hap) as [H1 H2]; [lia|done|].
  set (ts := map snd deps) in *.
  assert (Htk : ts !! k = Some t) by (unfold ts; rewrite list_lookup_fmap, Hk; done).
  assert (Hpre : length (packed (take k ts)) ≤ length (packed ts)).
  { rewrite <-(take_drop k ts) at 2. unfold packed. rewrite map_app, concat_app, length_app. lia. }
  assert (Hpos : (pos_of s ts k < 2 ^ 32)%N) by (unfold pos_of; lia).
  assert (Hval : field_at (point_all elf deps s) (N.to_nat (val_offset lib)) 8 = pos_of s ts k)
    by (apply field_at_le_bytes; [done|]; etrans; [exact Hpos|done]).
  rewrite Hval. split.
  - apply CString_string_at; [rewrite list.Forall_forall in Hnul; apply Hnul; by eapply list_elem_of_lookup_2|].
    pose proof (strings_at_lookup _ _ _ _ _ Hend Htk) as Hat.
    assert (N.to_nat (add64 dynstr (pos_of s ts k))
            = N.to_nat off + length neu + 1 + length (packed (take k ts))) as ->; [|done].
    unfold add64, pos_of in *. rewrite N.mod_small; lia.
  - intros v Hv. apply field_at_le_bytes; [|exact Hpos]. rewrite (H2 v Hv), N.mod_small by done. done.
Qed.

Lemma combine_map_lookup {A B C} (f : A * C → B) (l : list (A * C)) k x :
  l !! k = Some x → combine (map fst l) (map f l) !! k = Some (x.1, f x).
Proof. revert k. induction l as [|y l IH]; intros [|k] H; try done; cbn in *; [by simplify_eq|auto]. Qed.

(** C12. Where the direct names fit, every library planned to be direct is: after the rewrite the
    RUNPATH slot reads as the new RUNPATH, the DT_NEEDED word of the library leads, through the string
    table, to its "$ORIGIN/.../soname" string, and every version record of it holds the same offset,
    which is what ld.so compares. (The words lie apart and outside the slot, the file is below 4 GiB,
    and no symbol name lies inside the slot.) *)
Theorem FixRunpath_direct exists_ (st : store) (path : str) (sections : list section) (fx : fix_state) (off : N) :
  let elf := fx_elf fx in
  let dyn := ReadDynamic elf sections in
  let old := CString elf off in
  let p := plan_of exists_ (fx_ctx fx) st path old (di_needed dyn) in
  let neu := RenderRunpath (pl_runpath p) in
  let targets := map (target (pl_runpath p)) (pl_direct p) in
  di_runpath_offset dyn = Some off →
  length (blob_of neu targets) ≤ length old → blob_of neu targets ≠ old →
  Forall (λ t, chr_nul ∉ t) (neu :: targets) →
  words_apart elf off old (di_needed dyn) →
  (di_dynstr dyn ≤ off)%N → (img_size elf < 2 ^ 32)%N → N.to_nat off + S (length old) ≤ length elf →
  SymbolInside elf sections off (add64 off (N.of_nat (length old))) = None →
  let '(ok, fx') := FixRunpath exists_ st path sections fx in
  ok = true ∧ fx_dirty fx' = true ∧ CString (fx_elf fx') off = neu ∧
  ∀ k lib i, pl_direct p !! k = Some (lib, i) →
    let str_off := field_at (fx_elf fx') (N.to_nat (val_offset lib)) 8 in
    CString (fx_elf fx') (add64 (di_dynstr dyn) str_off) = target (pl_runpath p) (lib, i) ∧
    ∀ v, v ∈ vn_files lib → field_at (fx_elf fx') (N.to_nat v) 4 = str_off.
Proof.
  intros elf dyn old p neu targets Hoff Hfit Hne Hnul [Hw Hap] Hdyn Hsize Hslot Hsym.
  unfold FixRunpath. fold elf. fold dyn. rewrite Hoff. cbv zeta. fold old. fold p. fold neu targets.
  rewrite (proj2 (Nat.ltb_ge _ _)) by done. rewrite bool_decide_eq_false_2 by done. rewrite Hsym.
  destruct (WritePadded_fits elf off (N.of_nat (length old) + 1) (blob_of neu targets)) as (elf' & E & Hlen); [lia..|].
  rewrite E. pose proof (WritePadded_strings _ _ _ _ _ _ E) as Hstr. clear E.
  assert (Hblob : length (packed (neu :: targets)) ≤ S (length old))
    by (rewrite <-blob_packed, length_app; cbn [length]; lia).
  set (s := ((off + _ + 1 + _) mod _)%N).
  assert (Hs : s = (off + N.of_nat (length neu) + 1 - di_dynstr dyn)%N).
  { rewrite packed_length_cons in Hblob. unfold s, img_size in *. rewrite N.add_sub_assoc by lia.
    replace (off + N.of_nat (length neu) + 1 + 2 ^ 64 - di_dynstr dyn)%N
      with (off + N.of_nat (length neu) + 1 - di_dynstr dyn + 1 * 2 ^ 64)%N by lia.
    rewrite N.Div0.mod_add, N.mod_small; lia. }
  clearbody s. set (deps := combine (map fst (pl_direct p)) targets).
  destruct (combine_map_fst_snd (target (pl_runpath p)) (pl_direct p)) as [Hfst Hsnd]. fold targets deps in Hfst, Hsnd.
  assert (Hsub : map fst deps `sublist_of` di_needed dyn) by (rewrite Hfst; apply plan_of_direct).
  assert (Hw' := all_words_sublist _ _ _ Hsub Hw). rewrite <-Hlen in Hw', Hslot. apply Forall_and in Hw' as [Hin Hout].
  apply Forall_cons in Hnul as [Hn0 Hnul]. rewrite <-Hsnd in Hstr, Hblob, Hnul.
  cbn [fx_elf fx_dirty]. split_and!; [done|done| |].
  - apply CString_string_at; [done|].
    exact (proj1 (strings_after_slot _ _ _ _ deps s _ Hstr Hblob Hout)).
  - intros k lib i Hk. apply (point_all_leads elf' off _ neu deps s (S (length old)) k); try done.
    + unfold img_size in *. by rewrite Hlen.
    + eapply ForallOrdPairs_sublist; [by apply all_words_sub|done].
    + unfold deps, targets. by rewrite (combine_map_lookup _ _ _ _ Hk).
Qed.

(** *** one small binary: NEEDED libz.so, a padded RUNPATH, one version record *)

Definition demo_dir : str := "/nix/store/00000000000000000000000000000001-z/lib".
Definition demo_image : image :=
  replicate 16 chr_nul ++
  (le_bytes 8 DT_NEEDED ++ le_bytes 8 1) ++ (le_bytes 8 DT_RUNPATH ++ le_bytes 8 9) ++ replicate 16 chr_nul ++
  (le_bytes 2 1 ++ le_bytes 2 1 ++ le_bytes 4 1 ++ le_bytes 4 16 ++ le_bytes 4 0) ++
  [chr_nul] ++ lit "libz.so" ++ [chr_nul] ++ demo_dir ++ lit ":" ++ replicate 20 "x"%char ++ [chr_nul].
Definition demo_sections : list section :=
  [Section_ SHT_DYNAMIC 16 48 1 16; Section_ 3 80 80 0 0; Section_ SHT_GNU_verneed 64 16 1 0].
Definition demo_exists (p : str) : bool := p == demo_dir ++ lit "/libz.so".
Definition demo_prefix : str := "/nix/store/00000000000000000000000000000002-a".
Definition demo_fx : fix_state := FixState (Context_ demo_prefix demo_prefix [] [] [] 0) demo_image [] false.
Definition demo_store : store := Store "/nix/store" false [] [] [] ∅.

Lemma demo_words :
  words_apart demo_image 89 (CString demo_image 89) (di_needed (ReadDynamic demo_image demo_sections)).
Proof.
  replace (di_needed (ReadDynamic demo_image demo_sections)) with [Needed "libz.so" 24 [68%N]] by (vm_compute; reflexivity).
  unfold words_apart. replace (length (CString demo_image 89)) with 70 by (vm_compute; reflexivity).
  replace (length demo_image) with 160 by (vm_compute; reflexivity). unfold all_words. cbn.
  split; repeat constructor; cbn; unfold apart; cbn; lia.
Qed.

Lemma FixRunpath_direct_witness :
  let '(ok, fx') := FixRunpath demo_exists demo_store (demo_prefix ++ lit "/bin/a") demo_sections demo_fx in
  ok = true ∧ CString (fx_elf fx') 89 = [] ∧ field_at (fx_elf fx') 24 8 = 10%N ∧
  CString (fx_elf fx') 90 = lit "$ORIGIN/../../00000000000000000000000000000001-z/lib/libz.so".
Proof.
  pose proof (FixRunpath_direct demo_exists demo_store (demo_prefix ++ lit "/bin/a") demo_sections demo_fx 89) as H.
  cbv zeta in H.
  specialize (H ltac:(vm_compute; reflexivity) ltac:(apply Nat.leb_le; vm_compute; reflexivity)
    ltac:(apply (bool_decide_unpack _); vm_compute; exact I) ltac:(apply (bool_decide_unpack _); vm_compute; exact I)
    demo_words ltac:(vm_compute; discriminate) ltac:(vm_compute; reflexivity)
    ltac:(apply Nat.leb_le; vm_compute; reflexivity) ltac:(vm_compute; reflexivity)).
  destruct (FixRunpath _ _ _ _ _) as [ok fx'] eqn:E. destruct H as (-> & _ & H1 & H2).
  destruct (H2 0 (Needed "libz.so" 24 [68%N]) 0) as [H3 _]; [vm_compute; reflexivity|].
  assert (Hf : field_at (fx_elf fx') 24 8 = 10%N).
  { change fx' with (true, fx').2. rewrite <-E. vm_compute. reflexivity. }
  change (N.to_nat (val_offset _)) with 24 in H3. rewrite Hf in H3. split_and!; [reflexivity|..|exact Hf|].
  - etransitivity; [exact H1|]. vm_compute. reflexivity.
  - etransitivity; [|etransitivity; [exact H3|]]; [vm_compute|]; reflexivity.
Defined.

(** ** The loops over tables inside the file end *)

Lemma Read_in_file img off n b : Read img off n = Some b → N.to_nat off + n ≤ length img.
Proof.
  unfold Read. destruct (out_of_range _ _ _) eqn:E; [done|]. intros _. by apply out_of_range_false in E.
Qed.

Lemma add64_small a b : (a + b < 2 ^ 64)%N → add64 a b = (a + b)%N.
Proof. apply N.mod_small. Qed.

Lemma dyn_loop_fuel elf dynstr end_ f k off info :
  (img_size elf < 2 ^ 63)%N → length elf - N.to_nat off < f →
  dyn_loop (f + k) elf dynstr off end_ info = dyn_loop f elf dynstr off end_ info.
Proof.
  intros Hsz. revert off info. induction f as [|f IH]; intros off info Hf; [lia|]. cbn [Nat.add dyn_loop].
  destruct (off <? end_)%N; [|done]. destruct (Read elf off sizeof_Dyn) as [dyn|] eqn:E; [|done].
  destruct (_ =? _)%N; [done|]. apply Read_in_file in E. unfold sizeof_Dyn, img_size in *. apply IH.
  rewrite add64_small; lia.
Qed.

Lemma verneed_loop_fuel elf dynstr f k off libs :
  (img_size elf < 2 ^ 63)%N → length elf - N.to_nat off < f →
  verneed_loop (f + k) elf dynstr off libs = verneed_loop f elf dynstr off libs.
Proof.
  intros Hsz. revert off libs. induction f as [|f IH]; intros off libs Hf; [lia|]. cbn [Nat.add verneed_loop].
  destruct (off =? 0)%N eqn:E0; [done|]. destruct (Read elf off sizeof_Verneed) as [ent|] eqn:E; [|done].
  assert (Hnext : (field_at ent 12 4 < 2 ^ 32)%N).
  { unfold field_at. eapply N.lt_le_trans; [apply le_val_bound|]. change (2 ^ 32)%N with (256 ^ N.of_nat 4)%N.
    apply N.pow_le_mono_r; [done|]. unfold substr. rewrite length_take. lia. }
  apply Read_in_file in E. unfold sizeof_Verneed, img_size in *.
  destruct (field_at ent 12 4 =? 0)%N eqn:E1.
  - destruct f, k; cbn; done.
  - apply N.eqb_neq in E1. apply IH. rewrite add64_small; lia.
Qed.

(** a walk by a fixed step: it goes up by the step, or (a step of 2^63 or more) down *)
Definition walk_bound (step off end_ : N) : nat :=
  N.to_nat (if (step <? 2 ^ 63)%N then end_ - off else off).
Lemma walk_decreases step off end_ :
  (0 < step < 2 ^ 64)%N → (end_ < 2 ^ 63)%N → (off < end_)%N →
  (end_ ≤ add64 off step)%N ∨ walk_bound step (add64 off step) end_ < walk_bound step off end_.
Proof.
  intros Hs He Ho. unfold walk_bound. destruct (N.ltb_spec step (2 ^ 63)).
  - rewrite add64_small by lia. lia.
  - destruct (N.lt_ge_cases (off + step) (2 ^ 64)); [rewrite add64_small by lia; lia|]. right.
    unfold add64. replace (off + step)%N with (off - (2 ^ 64 - step) + 1 * 2 ^ 64)%N by lia.
    rewrite N.Div0.mod_add, N.mod_small; lia.
Qed.

Lemma symbol_inside_fuel elf strtab step end_sec b e f k off :
  (0 < step < 2 ^ 64)%N → (end_sec < 2 ^ 63)%N → walk_bound step off end_sec < f →
  symbol_inside_loop (f + k) elf strtab step off end_sec b e = symbol_inside_loop f elf strtab step off end_sec b e.
Proof.
  intros Hs He. revert off. induction f as [|f IH]; intros off Hf; [lia|]. cbn [Nat.add symbol_inside_loop].
  destruct (N.ltb_spec off end_sec) as [Ho|]; [|done].
  assert (symbol_inside_loop (f + k) elf strtab step (add64 off step) end_sec b e
          = symbol_inside_loop f elf strtab step (add64 off step) end_sec b e) as ->; [|done].
  destruct (walk_decreases step off end_sec Hs He Ho) as [Hd|Hd]; [|apply IH; lia].
  destruct f; [destruct k|]; cbn [Nat.add symbol_inside_loop]; try done;
    by rewrite (proj2 (N.ltb_ge _ _)) by done.
Qed.

Lemma reloc_start_fuel elf strtab step end_sec f k off :
  (0 < step < 2 ^ 64)%N → (end_sec < 2 ^ 63)%N → walk_bound step off end_sec < f →
  reloc_start_loop (f + k) elf strtab step off end_sec = reloc_start_loop f elf strtab step off end_sec.
Proof.
  intros Hs He. revert off. induction f as [|f IH]; intros off Hf; [lia|]. cbn [Nat.add reloc_start_loop].
  destruct (N.ltb_spec off end_sec) as [Ho|]; [|done].
  assert (reloc_start_loop (f + k) elf strtab step (add64 off step) end_sec
          = reloc_start_loop f elf strtab step (add64 off step) end_sec) as ->; [|done].
  destruct (walk_decreases step off end_sec Hs He Ho) as [Hd|Hd]; [|apply IH; lia].
  destruct f; [destruct k|]; cbn [Nat.add reloc_start_loop]; try done;
    by rewrite (proj2 (N.ltb_ge _ _)) by done.
Qed.

Lemma SectionEnd_bound elf s : (SectionEnd elf s ≤ img_size elf)%N.
Proof. unfold SectionEnd. destruct (N.leb_spec (img_size elf) (offset s)); lia. Qed.

Lemma section_walk_bound elf s step :
  walk_bound step (offset s) (SectionEnd elf s) < S (length elf) ∨ (SectionEnd elf s ≤ offset s)%N.
Proof.
  pose proof (SectionEnd_bound elf s). unfold walk_bound, img_size in *.
  destruct (N.lt_ge_cases (offset s) (SectionEnd elf s)); [left|by right]. destruct (_ <? _)%N; lia.
Qed.

(** C40. No binary, however corrupt, makes the table walks spin: the fuel the loops over .dynamic, the
    linked list of version requirements and the symbol table get (one more than the file has bytes) is
    never what ends them, for any section headers, entry size and next links, wrap-around included. *)
Theorem elf_loops_terminate (elf : image) (s : section) (dynstr step off b e : N)
  (info : dynamic_info) (libs : list needed) (k : nat) :
  (img_size elf < 2 ^ 63)%N → (0 < step < 2 ^ 64)%N →
  let fuel := S (length elf) in
  dyn_loop (fuel + k) elf dynstr off (SectionEnd elf s) info = dyn_loop fuel elf dynstr off (SectionEnd elf s) info ∧
  verneed_loop (fuel + k) elf dynstr off libs = verneed_loop fuel elf dynstr off libs ∧
  symbol_inside_loop (fuel + k) elf dynstr step (offset s) (SectionEnd elf s) b e =
    symbol_inside_loop fuel elf dynstr step (offset s) (SectionEnd elf s) b e ∧
  reloc_start_loop (fuel + k) elf dynstr step (offset s) (SectionEnd elf s) =
    reloc_start_loop fuel elf dynstr step (offset s) (SectionEnd elf s).
Proof.
  intros Hsz Hst fuel. pose proof (SectionEnd_bound elf s) as Hend.
  split_and!; [apply dyn_loop_fuel; [done|lia]|apply verneed_loop_fuel; [done|lia]|..];
    (destruct (section_walk_bound elf s step) as [Hb|Hb];
     [first [apply symbol_inside_fuel|apply reloc_start_fuel]; [done|lia|done]
     |unfold fuel; cbn [Nat.add symbol_inside_loop reloc_start_loop]; by rewrite (proj2 (N.ltb_ge _ _)) by done]).
Qed.

Lemma elf_loops_terminate_witness :
  verneed_loop 500 demo_image 80 64 [Needed "libz.so" 24 []] = [Needed "libz.so" 24 [68%N]].
Proof.
  replace 500 with (S (length demo_image) + 339) by (vm_compute; reflexivity).
  destruct (elf_loops_terminate demo_image (Section_ SHT_DYNAMIC 16 48 1 16) 80 24 64 0 0 (DynamicInfo [] 0 None)
    [Needed "libz.so" 24 []] 339) as (_ & H & _); [vm_compute; reflexivity|split; vm_compute; reflexivity|].
  rewrite H. vm_compute. reflexivity.
Defined.
