(* ===== verification/Broker.v ===== *)
(** * jsem: the semaphore broker between ghc and jigd's slots (src/pkgs/js/jsem/src)

    [Broker::Tick], [~Broker], [DaemonSource] and the loop of [RunBroker] as a step machine that
    interleaves with the ghc processes at every semaphore operation; [Spec] is the model of
    broker.qnt, with one atomic step per tick. The daemon and the kernel are the inputs of a step.
    The command line of main.cc is at the end. *)

From S2P Require Import Prelude Base.

(** ** Conn and DaemonSource *)

(** a connection by its number; it is open while something refers to it *)
Definition conn := N.

(** what [send] returns for each call: the bytes it took, 0 for an error *)
Fixpoint Send (sends : list nat) (line : str) : bool :=
  match line with
  | [] => true
  | _ :: _ =>
      match sends with
      | [] | 0 :: _ => false
      | n :: sends => Send sends (drop n line)
      end
  end.

(** [reads]: the pieces [read] returns, an empty one (or none) for the end or an error *)
Fixpoint Ok (reads : list str) (reply : str) : bool :=
  if ends_with reply nl then reply == lit "OK" ++ nl
  else
    match reads with
    | [] | [] :: _ => false
    | piece :: reads => Ok reads (reply ++ piece)
    end.

(** what the daemon's side does during one call of the source *)
Record daemon_input := DaemonInput {
  opened : option conn;
  sends : list nat;
  readable : bool;
  reads : list str;
}.

(** the closure [DaemonSource] returns: [order] is the state it shares between calls *)
Definition DaemonSource (build : str) (env : daemon_input) (order : option conn) (want : bool)
  : option conn * option conn :=
  if negb want then (None, None)
  else
    let order :=
      match order with
      | Some c => Some c
      | None =>
          match opened env with
          | Some c => if Send (sends env) (lit "SLOT " ++ build ++ nl) then Some c else None
          | None => None
          end
      end in
    match order with
    | None => (None, None)
    | Some c =>
        if negb (readable env) then (Some c, None)
        else (None, if Ok (reads env) [] then Some c else None)
    end.

(** ** The machine *)

Definition kAliveEvery : nat := 50.

(** where the broker process is: at the head of the loop; inside Tick's drain with the tokens taken
    so far; after the order, about to post; in the destructor; gone *)
Inductive pc := Head | Drain (idle : nat) | Settle (in_use : nat) | Finish (i : nat) | Gone.

Record state := State {
  sem : nat;              (* the count of the named semaphore *)
  held : list conn;       (* held_ *)
  order : option conn;    (* the order in flight *)
  running : list nat;     (* per ghc: capabilities it took from the semaphore *)
  ticks : nat;
  at_ : pc;
}.

Inductive label :=
| Acquire (g : nat)           (* a ghc's sem_wait succeeds *)
| Release (g : nat)           (* a ghc's sem_post *)
| Loop (linked : bool)        (* the head of RunBroker's loop; [linked]: the semaphore still exists *)
| TryWait                     (* one sem_trywait of the broker *)
| Settled (env : daemon_input)   (* from the failed sem_trywait to the push of a granted token *)
| Post.                       (* the end of Tick *)

Definition sem_trywait (s : state) : option state :=
  match sem s with
  | 0 => None
  | S n => Some (State n (held s) (order s) (running s) (ticks s) (at_ s))
  end.
Definition sem_post (s : state) : state :=
  State (S (sem s)) (held s) (order s) (running s) (ticks s) (at_ s).
Definition goto (s : state) (p : pc) : state :=
  State (sem s) (held s) (order s) (running s) (ticks s) p.

(** between the drain and the post: how many tokens ghc holds, what is given back, the order *)
Definition in_use_of (held idle : nat) : nat := held - Nat.min held idle.
Definition settle (build : str) (env : daemon_input) (idle : nat) (s : state) : state :=
  let in_use := in_use_of (length (held s)) idle in
  let kept := take (Nat.min (length (held s)) (in_use + 1)) (held s) in
  let spare := (length kept =? in_use + 1)%nat in
  let '(order', token) := DaemonSource build env (order s) (negb spare) in
  State (sem s) (kept ++ match token with Some c => [c] | None => [] end) order' (running s) (ticks s) (Settle in_use).

Definition step (build : str) (l : label) (s : state) : option state :=
  match l with
  | Acquire g =>
      match running s !! g, sem s with
      | Some r, S n => Some (State n (held s) (order s) (<[g := S r]> (running s)) (ticks s) (at_ s))
      | _, _ => None
      end
  | Release g =>
      match running s !! g with
      | Some (S r) => Some (State (S (sem s)) (held s) (order s) (<[g := r]> (running s)) (ticks s) (at_ s))
      | _ => None
      end
  | Loop linked =>
      match at_ s with
      | Head => Some (goto s (if (Nat.modulo (ticks s) kAliveEvery =? 0)%nat && negb linked then Finish 0 else Drain 0))
      | _ => None
      end
  | TryWait =>
      match at_ s with
      | Drain idle => match sem_trywait s with Some s' => Some (goto s' (Drain (S idle))) | None => None end
      | Finish i =>
          if (i <? length (held s))%nat then
            match sem_trywait s with
            | Some s' => Some (goto s' (Finish (S i)))
            | None => Some (State (sem s) [] None (running s) (ticks s) Gone)
            end
          else Some (State (sem s) [] None (running s) (ticks s) Gone)
      | _ => None
      end
  | Settled env =>
      match at_ s, sem s with
      | Drain idle, 0 => Some (settle build env idle s)
      | _, _ => None
      end
  | Post =>
      match at_ s with
      | Settle in_use =>
          let s' := if (in_use <? length (held s))%nat then sem_post s else s in
          Some (State (sem s') (held s') (order s') (running s') (S (ticks s')) Head)
      | _ => None
      end
  end.

Fixpoint run (build : str) (ls : list label) (s : state) : option state :=
  match ls with
  | [] => Some s
  | l :: ls => match step build l s with Some s' => run build ls s' | None => None end
  end.

(** cabal created the semaphore with [c] tokens; [n] ghcs *)
Definition init (c n : nat) : state := State c [] None (replicate n 0) 0 Head.

Inductive reachable (build : str) (c n : nat) : state → Prop :=
| reach_init : reachable build c n (init c n)
| reach_step s l s' : reachable build c n s → step build l s = Some s' → reachable build c n s'.

(** ** Properties *)

Definition total (r : list nat) : nat := foldr Nat.add 0 r.
Arguments total : simpl never.

Lemma total_insert r g x y : r !! g = Some x → total (<[g := y]> r) + x = total r + y.
Proof.
  revert g. induction r as [|a r IH]; intros [|g] H; [done..| |].
  - injection H as ->. change (y + total r + x = x + total r + y). lia.
  - specialize (IH _ H). change (a + total (<[g := y]> r) + x = a + total r + y). lia.
Qed.

(** tokens the broker has in its hand *)
Definition in_hand (p : pc) : nat :=
  match p with Drain idle => idle | Finish i => i | _ => 0 end.

(** how the tokens compare with what backs them; [r] is [le] in general, and equality when cabal
    brought no tokens of its own *)
Definition backed (r : nat → nat → Prop) (c : nat) (s : state) : Prop :=
  match at_ s with
  | Gone => True
  | Settle in_use => in_use ≤ length (held s) ≤ in_use + 1 ∧ r (sem s + total (running s)) (c + in_use)
  | _ => r (sem s + total (running s) + in_hand (at_ s)) (c + length (held s))
  end.

Lemma DaemonSource_unwanted build env o : DaemonSource build env o false = (None, None).
Proof. done. Qed.

Lemma settle_held build env idle s :
  let in_use := in_use_of (length (held s)) idle in
  at_ (settle build env idle s) = Settle in_use ∧ sem (settle build env idle s) = sem s ∧
  running (settle build env idle s) = running s ∧
  in_use ≤ length (held (settle build env idle s)) ≤ in_use + 1.
Proof.
  cbv zeta. unfold settle. set (iu := in_use_of _ _).
  assert (Hiu : iu ≤ length (held s)) by (unfold iu, in_use_of; lia).
  assert (Hk : length (take (Nat.min (length (held s)) (iu + 1)) (held s)) = Nat.min (length (held s)) (iu + 1))
    by (rewrite length_take; lia).
  rewrite Hk. destruct (Nat.eqb_spec (Nat.min (length (held s)) (iu + 1)) (iu + 1)); cbn [negb].
  - rewrite DaemonSource_unwanted. cbn. rewrite app_nil_r, Hk. split_and!; [done..|lia|lia].
  - destruct (DaemonSource build env (order s) true) as [o [c|]]; cbn; rewrite length_app, Hk; cbn; (split_and!; [done..|lia|lia]).
Qed.

Lemma backed_step (r : nat → nat → Prop) build c s l s' :
  (∀ a b k, r a b ↔ r (a + k) (b + k)) → (∀ a b, r a b → a ≤ b) → (r = le ∨ c = 0) →
  backed r c s → step build l s = Some s' → backed r c s'.
Proof.
  intros Hr Hle Hc Hb Hs. destruct l as [g|g|linked| |env|]; cbn [step] in Hs.
  - destruct (running s !! g) as [x|] eqn:Eg, (sem s) as [|n] eqn:Es; simplify_eq.
    pose proof (total_insert _ _ _ (S x) Eg). unfold backed in *. cbn [at_ sem running held in_hand] in *. rewrite Es in Hb.
    destruct (at_ s); cbn [in_hand] in *; try done;
      (replace (n + total (<[g := S x]> (running s))) with (S n + total (running s)) by lia; done).
  - destruct (running s !! g) as [[|x]|] eqn:Eg; simplify_eq.
    pose proof (total_insert _ _ _ x Eg). unfold backed in *. cbn [at_ sem running held in_hand] in *.
    destruct (at_ s); cbn [in_hand] in *; try done;
      (replace (S (sem s) + total (<[g := x]> (running s))) with (sem s + total (running s)) by lia; done).
  - destruct (at_ s) eqn:Ea; simplify_eq. unfold backed in *. rewrite Ea in Hb. cbn [at_ goto].
    destruct (_ && _); cbn; exact Hb.
  - unfold sem_trywait in Hs. unfold backed in *. destruct (at_ s) as [|idle| |i|] eqn:Ea; try done.
    + destruct (sem s) as [|n]; simplify_eq. cbn in *.
      replace (n + total (running s) + S idle) with (S (n + total (running s) + idle)) by lia. done.
    + destruct (i <? length (held s))%nat, (sem s) as [|n]; simplify_eq; cbn in *; try done.
      replace (n + total (running s) + S i) with (S (n + total (running s) + i)) by lia. done.
  - destruct (at_ s) as [|idle| | |] eqn:Ea; try done. destruct (sem s) eqn:Es; simplify_eq.
    destruct (settle_held build env idle s) as (Ha & Hsem & Hrun & Hlen). unfold backed in *. rewrite Ea in Hb.
    rewrite Ha, Hsem, Hrun, Es in *. split; [done|]. cbn [in_hand] in Hb. unfold in_use_of.
    pose proof (Hle _ _ Hb). destruct Hc as [->| ->].
    + lia.
    + replace (Nat.min (length (held s)) idle) with idle by lia. apply (Hr _ _ idle).
      replace (0 + (length (held s) - idle) + idle) with (0 + length (held s)) by lia. done.
  - destruct (at_ s) as [| |iu| |] eqn:Ea; simplify_eq. unfold backed in *. rewrite Ea in Hb. cbn [at_ in_hand].
    destruct Hb as [Hlen Hb]. destruct (Nat.ltb_spec iu (length (held s))); cbn [sem_post sem held running order ticks].
    + replace (length (held s)) with (iu + 1) by lia.
      replace (S (sem s) + total (running s) + 0) with (sem s + total (running s) + 1) by lia.
      replace (c + (iu + 1)) with (c + iu + 1) by lia. by apply (proj1 (Hr _ _ 1)).
    + replace (length (held s)) with iu by lia. by rewrite Nat.add_0_r.
Qed.

Lemma total_replicate n : total (replicate n 0) = 0.
Proof. induction n; done. Qed.

Lemma reachable_backed build c n s :
  reachable build c n s → backed le c s ∧ (c = 0 → backed eq c s).
Proof.
  intros H. induction H as [|s l s' H [IH1 IH2] Hs].
  - unfold backed, init. cbn. rewrite total_replicate. lia.
  - split.
    + eapply backed_step; [| | |exact IH1|exact Hs]; [intros; lia|done|by left].
    + intros Hc. eapply backed_step; [| | |by apply IH2|exact Hs]; [intros; lia|intros; lia|by right].
Qed.

Lemma step_to_gone build l s s' :
  step build l s = Some s' → at_ s ≠ Gone → at_ s' = Gone →
  ∃ i, at_ s = Finish i ∧ (sem s = 0 ∨ length (held s) ≤ i) ∧ sem s' = sem s ∧ held s' = [].
Proof.
  intros Hs Hg Hg'. destruct l as [g|g|linked| |env|]; cbn [step] in Hs.
  - destruct (running s !! g), (sem s); simplify_eq; try done.
  - destruct (running s !! g) as [[|]|]; simplify_eq; try done.
  - destruct (at_ s); simplify_eq. cbn in Hg'. destruct (_ && _); done.
  - destruct (at_ s) as [|idle|iu|i|]; try done; unfold sem_trywait in Hs.
    + destruct (sem s); simplify_eq; try done.
    + exists i. destruct (Nat.ltb_spec i (length (held s))); [destruct (sem s) eqn:E|]; simplify_eq; cbn; auto.
  - destruct (at_ s) as [|idle| | |]; try done. destruct (sem s); simplify_eq.
    by rewrite (proj1 (settle_held build env idle s)) in Hg'.
  - destruct (at_ s); simplify_eq; try done.
Qed.

(** C7. The broker never over-admits: at every point of every interleaving of the broker with any
    number of ghcs (at the granularity of single semaphore operations), the capabilities in use and on
    offer are covered by cabal's own tokens and the slots held from jigd; when cabal brought none they
    are exactly the slots. And when the broker goes, it leaves at most cabal's tokens on offer. *)
Theorem no_over_admission (build : str) (c n : nat) (s : state) :
  reachable build c n s →
  (at_ s ≠ Gone → sem s + total (running s) ≤ c + length (held s)) ∧
  (at_ s = Head → c = 0 → sem s + total (running s) = length (held s)) ∧
  (∀ l s', step build l s = Some s' → at_ s ≠ Gone → at_ s' = Gone → sem s' ≤ c ∧ held s' = []).
Proof.
  intros Hr. destruct (reachable_backed _ _ _ _ Hr) as [Hle Heq]. unfold backed in *. split_and!.
  - intros Hg. destruct (at_ s); cbn [in_hand] in *; try done; lia.
  - intros Ha Hc. specialize (Heq Hc). rewrite Ha in Heq. cbn in Heq. lia.
  - intros l s' Hs Hg Hg'. destruct (step_to_gone _ _ _ _ Hs Hg Hg') as (i & Ha & Hend & -> & ->).
    rewrite Ha in Hle. cbn [in_hand] in Hle. split; [|done]. destruct Hend; lia.
Qed.

(** *** one tick of the broker alone: broker.qnt's [tick] *)

Definition source_grants (build : str) (env : daemon_input) (o : option conn) : bool :=
  bool_decide (is_Some (DaemonSource build env o true).2).

(** the labels of a whole tick when nobody interferes *)
Definition tick_labels (idle : nat) (env : daemon_input) : list label :=
  Loop true :: replicate idle TryWait ++ [Settled env; Post].

Lemma run_app build l1 l2 s : run build (l1 ++ l2) s = (run build l1 s ≫= run build l2).
Proof.
  revert s. induction l1 as [|l l1 IH]; intros s; [done|]. cbn [app run]. destruct (step build l s); [apply IH|done].
Qed.

Lemma run_drain build n h o r t i k :
  run build (replicate n TryWait) (State (n + k) h o r t (Drain i)) = Some (State k h o r t (Drain (i + n))).
Proof.
  revert i. induction n as [|n IH]; intros i; [cbn; by rewrite Nat.add_0_r|].
  cbn [replicate run step at_ sem_trywait sem Nat.add held order running ticks].
  unfold goto. cbn [sem held order running ticks]. rewrite IH. do 3 f_equal. lia.
Qed.

(** *** broker.qnt: any number of brokers on one semaphore, a tick in one step

    [fixed]: the drain is bounded by the broker's own contribution. One broker is [single]. *)
Module Spec.
Record qstate := QState { q_sem : nat; q_held : list nat; q_running : list nat; q_done : list bool }.

Definition qinit (c b : nat) : qstate := QState c (replicate b 0) (replicate b 0) (replicate b false).

Inductive action := QAcquire (b : nat) | QRelease (b : nat) | QTick (b : nat) (granted : bool) | QFinish (b : nat).

(** held and the semaphore after a tick; [granted] only counts when a slot was ordered *)
Definition tick (fixed : bool) (h sem : nat) (granted : bool) : nat * nat :=
  let idle := if fixed then Nat.min sem h else sem in
  let in_use := h - Nat.min h idle in
  let h1 := Nat.min h (in_use + 1) in
  let spare := (h1 =? in_use + 1)%nat in
  let h2 := h1 + (if negb spare && granted then 1 else 0) in
  (h2, sem - idle + (if (in_use <? h2)%nat then 1 else 0)).

(** [d] slots in all: a slot is granted only while one is free *)
Definition act (fixed : bool) (d : nat) (a : action) (q : qstate) : option qstate :=
  let alive b := match q_done q !! b with Some false => true | _ => false end in
  match a with
  | QAcquire b =>
      match alive b, q_running q !! b, q_sem q with
      | true, Some r, S n => Some (QState n (q_held q) (<[b := S r]> (q_running q)) (q_done q))
      | _, _, _ => None
      end
  | QRelease b =>
      match alive b, q_running q !! b with
      | true, Some (S r) => Some (QState (S (q_sem q)) (q_held q) (<[b := r]> (q_running q)) (q_done q))
      | _, _ => None
      end
  | QTick b granted =>
      match alive b, q_held q !! b with
      | true, Some h =>
          let '(h', sem') := tick fixed h (q_sem q) granted in
          let held' := <[b := h']> (q_held q) in
          if (total held' <=? d)%nat then Some (QState sem' held' (q_running q) (q_done q)) else None
      | _, _ => None
      end
  | QFinish b =>
      match alive b, q_held q !! b, q_running q !! b with
      | true, Some h, Some 0 =>
          Some (QState (q_sem q - Nat.min (q_sem q) h) (<[b := 0]> (q_held q)) (q_running q) (<[b := true]> (q_done q)))
      | _, _, _ => None
      end
  end.

Fixpoint acts (fixed : bool) (d : nat) (l : list action) (q : qstate) : option qstate :=
  match l with
  | [] => Some q
  | a :: l => match act fixed d a q with Some q' => acts fixed d l q' | None => None end
  end.

Definition noOverAdmission (c : nat) (q : qstate) : bool :=
  (q_sem q + total (q_running q) <=? c + total (q_held q))%nat.
Definition conserved (c : nat) (q : qstate) : bool := negb (forallb id (q_done q)) || (q_sem q =? c)%nat.
End Spec.

(** C39. Broker::Tick, run without interference, is the atomic tick of broker.qnt: it drains the
    semaphore completely, keeps the slots in use and one spare, orders a slot exactly when it has no
    spare, and posts the spare exactly when a slot backs it. *)
Theorem Tick_refines_spec (build : str) (env : daemon_input) (s : state) :
  at_ s = Head → ∃ s',
    run build (tick_labels (sem s) env) s = Some s' ∧ at_ s' = Head ∧ ticks s' = S (ticks s) ∧
    running s' = running s ∧
    (length (held s'), sem s') = Spec.tick false (length (held s)) (sem s) (source_grants build env (order s)).
Proof.
  intros Ha. destruct s as [n h o r t p]; cbn [at_ sem held order running ticks] in *; subst p.
  unfold tick_labels. cbn [run step at_]. rewrite andb_false_r. unfold goto. cbn [sem held order running ticks].
  assert (Hd := run_drain build n h o r t 0 0). rewrite Nat.add_0_r in Hd. rewrite run_app, Hd. cbn [mbind option_bind run step at_ sem Nat.add].
  set (s0 := State 0 h o r t (Drain n)). pose proof (settle_held build env n s0) as (Hp & Hs & Hr & _).
  rewrite Hp. eexists. split; [reflexivity|]. cbn [held at_ ticks running sem_post sem order].
  assert (Hheld : length (held (settle build env n s0)) =
    Nat.min (length h) (in_use_of (length h) n + 1) +
    (if negb (Nat.min (length h) (in_use_of (length h) n + 1) =? in_use_of (length h) n + 1)%nat
        && source_grants build env o then 1 else 0)).
  { unfold settle, source_grants. cbn [held order sem running ticks s0]. rewrite length_take, Nat.min_l by lia.
    destruct (_ =? _)%nat; cbn [negb andb]; [rewrite DaemonSource_unwanted; cbn [held]; rewrite app_nil_r, length_take; lia|].
    destruct (DaemonSource build env o true) as [o' [c|]]; cbn [held snd]; rewrite length_app, length_take; cbn; lia. }
  unfold Spec.tick. unfold in_use_of in *. cbn [held s0] in *. rewrite <-Hheld, Nat.sub_diag.
  split_and!; [done|..].
  - destruct (_ <? _)%nat; unfold settle; cbn [sem_post ticks]; by destruct (DaemonSource _ _ _ _).
  - destruct (_ <? _)%nat; cbn [sem_post running]; by rewrite Hr.
  - destruct (_ <? _)%nat; cbn [sem_post held sem]; by rewrite Hs.
Qed.

Lemma run_reachable build c n ls s s' :
  reachable build c n s → run build ls s = Some s' → reachable build c n s'.
Proof.
  revert s. induction ls as [|l ls IH]; cbn [run]; intros s Hr H; [by simplify_eq|].
  destruct (step build l s) as [s1|] eqn:E; [|done]. eapply IH; [|exact H]. by eapply reach_step.
Qed.

Lemma no_over_admission_witness :
  let s := State 0 [] None [1; 1] 0 (Drain 1) in
  run "-" [Acquire 0; Loop true; TryWait; Acquire 1] (init 3 2) = Some s ∧ sem s + total (running s) ≤ 3.
Proof.
  intros s. split; [reflexivity|].
  destruct (no_over_admission "-" 3 2 s) as [H _]; [|apply H; discriminate].
  eapply run_reachable; [apply reach_init|]. instantiate (1 := [Acquire 0; Loop true; TryWait; Acquire 1]). reflexivity.
Defined.

Definition granting : daemon_input := DaemonInput (Some 7%N) [7] true [lit "OK" ++ nl].

Lemma Tick_refines_spec_witness :
  ∃ s', run "-" (tick_labels 0 granting) (init 0 1) = Some s' ∧ (length (held s'), sem s') = (1, 1).
Proof.
  destruct (Tick_refines_spec "-" granting (init 0 1)) as (s' & Hrun & _ & _ & _ & H); [reflexivity|].
  exists s'. split; [exact Hrun|]. rewrite H. reflexivity.
Defined.

(** two brokers on one semaphore over-admit and lose cabal's tokens, whether or not the drain is
    bounded: why main.cc keeps one broker per semaphore with a lock *)
Example two_brokers_over_admit (fixed : bool) :
  let t := [Spec.QAcquire 0; Spec.QAcquire 0; Spec.QTick 1 true; Spec.QAcquire 0; Spec.QFinish 1] in
  let t' := [Spec.QRelease 0; Spec.QRelease 0; Spec.QRelease 0; Spec.QFinish 0] in
  Spec.noOverAdmission 2 <$> Spec.acts fixed 2 t (Spec.qinit 2 2) = Some false ∧
  Spec.conserved 2 <$> Spec.acts fixed 2 (t ++ t') (Spec.qinit 2 2) = Some false.
Proof. destruct fixed; split; reflexivity. Qed.

(** the run of jsem_test.cc: order a spare, steady, taken twice, two returned, three idle *)
Example broker_test :
  let tick idle := tick_labels idle granting in
  (λ s, (sem s, length (held s))) <$>
    run "-" (tick 0 ++ tick 1 ++ [Acquire 0] ++ tick 0 ++ [Acquire 0] ++ tick 0 ++
             [Release 0; Release 0] ++ tick 3) (init 0 1) = Some (1, 1).
Proof. reflexivity. Qed.

(** ** main.cc *)

Definition kFlag : str := "-jsem".

Fixpoint skip_blanks (arg : str) : str :=
  match arg with
  | c :: arg' => if c == " "%char then skip_blanks arg' else arg
  | [] => []
  end.

(** the semaphore cabal names, in one argument or in the next *)
Fixpoint JsemName (args : list str) : str :=
  match args with
  | [] => []
  | arg :: rest =>
      if negb (starts_with arg kFlag) then JsemName rest
      else
        let arg := skip_blanks (drop (length kFlag) arg) in
        if arg != [] then arg
        else match rest with next :: _ => next | [] => [] end
  end.

Definition lock_file (dir name : str) : str :=
  dir ++ lit "/.jsem" ++ map (λ c, if c == "/"%char then "_"%char else c) name ++ lit ".lock".

(** what main does with the kernel's answers: the usage message, or the exec of ghc after starting a
    broker on the named semaphore or not *)
Inductive jsem_outcome := Usage | ExecGhc (broker : option str).
Definition jsem_main (argv : list str) (daemon_up : bool) (take_lock sem_open : str → bool) : jsem_outcome :=
  if (length argv <? 2)%nat then Usage
  else
    let name := JsemName (drop 2 argv) in
    let name := if (name != []) && negb (starts_with name "/") then lit "/" ++ name else name in
    if (name != []) && daemon_up && take_lock name && sem_open name then ExecGhc (Some name) else ExecGhc None.

Lemma JsemName_before args rest :
  Forall (λ a, starts_with a kFlag = false) args → JsemName (args ++ rest) = JsemName rest.
Proof. induction 1 as [|a args Ha _ IH]; [done|]. cbn [app JsemName]. by rewrite Ha. Qed.

(** cabal's one argument "-jsem <name>" and ghc's two: the same name *)
Lemma JsemName_forms args blanks name rest :
  Forall (λ a, starts_with a kFlag = false) args → Forall (.= " "%char) blanks → name ≠ [] →
  hd_error name ≠ Some " "%char →
  JsemName (args ++ (kFlag ++ blanks ++ name) :: rest) = name ∧ JsemName (args ++ kFlag :: name :: rest) = name.
Proof.
  intros Hargs Hb Hn Hh. rewrite !JsemName_before by done. cbn [JsemName].
  rewrite starts_with_app, drop_app_length. cbn [negb].
  assert (skip_blanks (blanks ++ name) = name) as ->.
  { induction Hb as [|c cs -> _ IH]; cbn [app skip_blanks]; [|by rewrite bool_decide_eq_true_2].
    destruct name as [|c name]; [done|]. cbn in *. rewrite bool_decide_eq_false_2; [done|congruence]. }
  rewrite bool_decide_eq_false_2 by done. done.
Qed.
