(* ===== verification/Semaphores.v ===== *)
(** * The named semaphore of a build (src/pkgs/js/jsem/src/broker.cc, broker.h)

    [Sem]: the object that the build which starts ghc creates and the broker opens. The kernel keeps the names
    and one count per semaphore; a name can go while processes still hold the semaphore behind it. What the
    kernel refuses is an input of an operation. [Broker] is about one semaphore, which this file's handles name. *)

From S2P Require Import Prelude.

Record names := Names { linked : gmap str nat; counts : gmap nat nat; fresh_id : nat }.

Definition sem_unlink (name : str) (K : names) : names := Names (delete name (linked K)) (counts K) (fresh_id K).
(** O_CREAT | O_EXCL *)
Definition sem_open_new (name : str) (tokens : nat) (K : names) : option nat * names :=
  match linked K !! name with
  | Some _ => (None, K)
  | None => (Some (fresh_id K), Names (<[name := fresh_id K]> (linked K)) (<[fresh_id K := tokens]> (counts K)) (S (fresh_id K)))
  end.

(** [name_]: empty when the semaphore is not ours to unlink *)
Record Sem := MkSem { name_ : str; sem_ : nat }.

Definition Create (allowed : bool) (name : str) (tokens : nat) (K : names) : option Sem * names :=
  let K := sem_unlink name K in
  if negb allowed then (None, K)
  else match sem_open_new name tokens K with
       | (Some raw, K) => (Some (MkSem name raw), K)
       | (None, K) => (None, K)
       end.
Definition Open (allowed : bool) (name : str) (K : names) : option Sem :=
  if negb allowed then None else MkSem [] <$> linked K !! name.
Definition Destroy (s : Sem) (K : names) : names := if name_ s == [] then K else sem_unlink (name_ s) K.
Definition TryWait (s : Sem) (K : names) : bool * names :=
  match counts K !! sem_ s with
  | Some (S n) => (true, Names (linked K) (<[sem_ s := n]> (counts K)) (fresh_id K))
  | _ => (false, K)
  end.
Definition Post (s : Sem) (K : names) : names :=
  Names (linked K) (alter S (sem_ s) (counts K)) (fresh_id K).

(** [DaemonUp]: a connection opens; [connects] is whether it does *)
Definition DaemonUp (connects : str → bool) (socket_path : str) : bool := connects socket_path.

(** every semaphore that was made has a number below the next one *)
Definition numbered (K : names) : Prop :=
  (∀ name i, linked K !! name = Some i → (i < fresh_id K)%nat ∧ is_Some (counts K !! i)) ∧
  (∀ i, is_Some (counts K !! i) → (i < fresh_id K)%nat).

Inductive sem_op :=
| OCreate (allowed : bool) (name : str) (tokens : nat) | ODestroy (s : Sem) | OTryWait (s : Sem) | OPost (s : Sem).
Definition perform (o : sem_op) (K : names) : names :=
  match o with
  | OCreate allowed name tokens => (Create allowed name tokens K).2
  | ODestroy s => Destroy s K
  | OTryWait s => (TryWait s K).2
  | OPost s => Post s K
  end.

Lemma sem_unlink_numbered name K : numbered K → numbered (sem_unlink name K).
Proof. intros [H1 H2]. split; [| exact H2]. cbn [sem_unlink linked]. intros n i [_ Hi]%lookup_delete_Some. by eapply H1. Qed.
Lemma perform_numbered o K : numbered K → numbered (perform o K).
Proof.
  intros HK. destruct o as [[] name tokens | s | s | s]; cbn [perform].
  - apply (sem_unlink_numbered name) in HK as [H1 H2]. unfold Create, sem_open_new. cbn [negb].
    destruct (linked (sem_unlink name K) !! name); cbn [snd]; [by split |]. split; cbn [linked counts fresh_id].
    + intros n i [[_ <-] | [_ Hi]]%lookup_insert_Some; [split; [lia | by rewrite lookup_insert_eq] |].
      destruct (H1 n i Hi) as [Hlt Hsome]. split; [lia |]. rewrite lookup_insert_ne by lia. done.
    + intros i [x [[<- _] | [_ Hi]]%lookup_insert_Some]; [lia |]. apply Nat.lt_lt_succ_r, H2. by exists x.
  - by apply sem_unlink_numbered.
  - unfold Destroy. destruct (_ == _); [done | by apply sem_unlink_numbered].
  - unfold TryWait. destruct (counts K !! sem_ s) as [[| n] |] eqn:E; [done | | done]. destruct HK as [H1 H2].
    split; cbn [linked counts fresh_id snd].
    + intros m i Hi. destruct (H1 m i Hi). split; [done |]. apply lookup_insert_is_Some'. by right.
    + intros i [<- | Hi]%lookup_insert_is_Some'; apply H2; [by rewrite E | done].
  - destruct HK as [H1 H2]. split; cbn [Post linked counts fresh_id].
    + intros m i Hi. destruct (H1 m i Hi). split; [done |]. by rewrite lookup_alter_is_Some.
    + intros i Hi%lookup_alter_is_Some. by apply H2.
Qed.

(** A semaphore just created is a new one, whatever held the name before: whoever opens the name gets the same
    semaphore with all its tokens, the semaphores of before keep their counts, an opener's end changes nothing,
    and after the creator's end the name opens no more, which is what stops the broker. *)
Lemma Create_shared name tokens K s K' : name ≠ [] → numbered K → Create true name tokens K = (Some s, K') →
  Open true name K' = Some (MkSem [] (sem_ s)) ∧ counts K' !! sem_ s = Some tokens ∧ counts K !! sem_ s = None ∧
  (∀ i, i ≠ sem_ s → counts K' !! i = counts K !! i) ∧
  (∀ other, other ≠ name → Open true other K' = Open true other K) ∧
  Destroy (MkSem [] (sem_ s)) K' = K' ∧ Open true name (Destroy s K') = None.
Proof.
  intros Hne [_ Hnum] H. unfold Create, sem_open_new in H. cbn [negb sem_unlink linked counts fresh_id] in H.
  rewrite lookup_delete_eq in H. injection H as <- <-. cbn [sem_ name_]. unfold Open, Destroy. cbn [negb linked counts name_].
  split_and!.
  - by rewrite lookup_insert_eq.
  - by rewrite lookup_insert_eq.
  - destruct (counts K !! fresh_id K) eqn:E; [| done]. specialize (Hnum (fresh_id K)). rewrite E in Hnum. specialize (Hnum ltac:(by eexists)). lia.
  - intros i Hi. by rewrite lookup_insert_ne.
  - intros other Ho. by rewrite lookup_insert_ne, lookup_delete_ne by done.
  - done.
  - rewrite bool_decide_eq_false_2 by done. cbn [sem_unlink linked]. by rewrite lookup_delete_eq.
Qed.

(** a token posted through one handle is taken through the other *)
Lemma Post_TryWait s s' K : sem_ s = sem_ s' → is_Some (counts K !! sem_ s) → TryWait s' (Post s K) = (true, K).
Proof.
  intros E [n Hn]. unfold TryWait, Post. cbn [counts linked fresh_id]. rewrite <-E, lookup_alter_eq, Hn. cbn.
  f_equal. destruct K as [l c f]. cbn in *. f_equal. apply map_eq. intros i. destruct (decide (i = sem_ s)) as [-> | Hi].
  - by rewrite lookup_insert_eq.
  - by rewrite lookup_insert_ne, lookup_alter_ne by done.
Qed.
