(* ===== verification/DlAudit.v ===== *)
(** * dlaudit.cc: the rtld-audit module that names failed dlopens (src/pkgs/dl/dlaudit/src)

    The module's state is its fixed buffer, kept as the array it is: a store at an index out of range
    has no result. The loader's callbacks are events; what it writes to $DLAUDIT_OUT is a byte string.
    The specification reads the sequence of events directly. *)

From S2P Require Import Prelude.

Definition kGlibcOwn : list str := [lit "libnss_"; lit "libnsl"; lit "libidn2"; lit "libgcc_s.so"].
Definition kMaxName : nat := 255.

Record state := State {
  out : option str;      (* [None]: no descriptor; else what has been written to it *)
  pending : str;         (* std::array<char, kMaxName + 1> *)
  pending_len : nat;
}.
Definition g_state : state := State None (replicate (kMaxName + 1) chr_nul) 0.

Definition Ignored (name : str) : bool :=
  contains_chr name "/"%char || (kMaxName <? length name)%nat || existsb (starts_with name) kGlibcOwn.

(** [pending[i] = c]; [None]: out of bounds *)
Definition store_at (buf : str) (i : nat) (c : ascii) : option str :=
  if (i <? length buf)%nat then Some (<[i := c]> buf) else None.

(** [copy(wanted, pending.begin())] *)
Definition copy_in (buf wanted : str) : option str :=
  if (length wanted <=? length buf)%nat then Some (wanted ++ drop (length wanted) buf) else None.

Definition Pending (s : state) : str := take (pending_len s) (pending s).

Definition Flush (s : state) : option state :=
  match out s with
  | Some written =>
      if (0 <? pending_len s)%nat then
        match store_at (pending s) (pending_len s) chr_nl with
        | None => None
        | Some buf => Some (State (Some (written ++ take (pending_len s + 1) buf)) buf 0)
        end
      else Some (State (Some written) (pending s) 0)
  | None => Some (State None (pending s) 0)
  end.

(** [opened]: whether $DLAUDIT_OUT is set and could be opened *)
Definition la_version (opened : bool) (s : state) : state :=
  State (if opened then Some [] else None) (pending s) (pending_len s).

(** [orig]: the flag is LA_SER_ORIG *)
Definition la_objsearch (name : str) (orig : bool) (s : state) : option state :=
  if orig then
    match Flush s with
    | None => None
    | Some s =>
        if Ignored name then Some s
        else match copy_in (pending s) name with
             | None => None
             | Some buf => Some (State (out s) buf (length name))
             end
    end
  else Some s.

Definition basename (l_name : str) : str :=
  match rfind "/" l_name with Some slash => drop (slash + 1) l_name | None => l_name end.

Definition la_objopen (l_name : str) (s : state) : state :=
  if (0 <? pending_len s)%nat && starts_with (basename l_name) (Pending s)
  then State (out s) (pending s) 0 else s.

(** ** The loader's calls *)

Inductive event := Search (name : str) (orig : bool) | Open (l_name : str) | Preinit | Fini.

Definition audit_step (s : state) (e : event) : option state :=
  match e with
  | Search name orig => la_objsearch name orig s
  | Open l_name => Some (la_objopen l_name s)
  | Preinit | Fini => Flush s
  end.

Fixpoint audit (s : state) (es : list event) : option state :=
  match es with
  | [] => Some s
  | e :: es => match audit_step s e with Some s' => audit s' es | None => None end
  end.

(** ** The specification: searches by soname that nothing was opened for *)

Definition flushes (e : event) : bool :=
  match e with Search _ orig => orig | Open _ => false | Preinit | Fini => true end.

(** [Some true]: opened before the next flush; [Some false]: not; [None]: still open at the end *)
Fixpoint found (name : str) (es : list event) : option bool :=
  match es with
  | [] => None
  | e :: es =>
      if flushes e then Some false
      else match e with
           | Open l_name => if starts_with (basename l_name) name then Some true else found name es
           | _ => found name es
           end
  end.

Fixpoint failed (es : list event) : list str :=
  match es with
  | [] => []
  | Search name true :: es =>
      if negb (Ignored name) && (name != []) && (found name es == Some false) then name :: failed es else failed es
  | _ :: es => failed es
  end.

(** ** Properties *)

Definition wf (s : state) : Prop := length (pending s) = kMaxName + 1 ∧ pending_len s ≤ kMaxName.

Lemma wf_g_state : wf g_state.
Proof. split; [apply length_replicate|apply Nat.le_0_l]. Qed.

(** the line a flush would write now *)
Definition line_of (s : state) : str := if (0 <? pending_len s)%nat then Pending s ++ nl else [].

Lemma dl_flush s :
  wf s → ∃ s', Flush s = Some s' ∧ wf s' ∧ pending_len s' = 0 ∧ out s' = (λ w, w ++ line_of s) <$> out s.
Proof.
  intros [Hl Hp]. unfold Flush, line_of, Pending. destruct (out s) as [w|] eqn:Eo.
  2: { eexists; split_and!; [reflexivity|split; [exact Hl|apply Nat.le_0_l]|done|done]. }
  destruct (Nat.ltb_spec 0 (pending_len s)) as [H0|H0].
  2: { eexists; split_and!; [reflexivity|split; [exact Hl|apply Nat.le_0_l]|done|]. cbn. by rewrite app_nil_r. }
  unfold store_at. rewrite (proj2 (Nat.ltb_lt _ _)) by lia.
  eexists; split_and!; [reflexivity|split; [cbn [pending]; by rewrite length_insert|apply Nat.le_0_l]|done|].
  cbn [out fmap option_fmap option_map]. do 2 f_equal.
  rewrite Nat.add_1_r. erewrite take_S_r by (apply list_lookup_insert_eq; lia). by rewrite take_insert_ge by done.
Qed.

Lemma Ignored_length name : Ignored name = false → length name ≤ kMaxName.
Proof. unfold Ignored. intros H. bool_prop. lia. Qed.

Lemma search_spec name s :
  wf s → ∃ s', la_objsearch name true s = Some s' ∧ wf s' ∧
    Pending s' = (if Ignored name then [] else name) ∧ out s' = (λ w, w ++ line_of s) <$> out s.
Proof.
  intros Hw. destruct (dl_flush s Hw) as (s1 & E & [Hl1 Hp1] & H0 & Ho). unfold la_objsearch. rewrite E.
  destruct (Ignored name) eqn:Ei.
  - exists s1. split_and!; [done|done|by unfold Pending; rewrite H0|done].
  - pose proof (Ignored_length _ Ei). unfold copy_in. rewrite (proj2 (Nat.leb_le _ _)) by lia.
    eexists; split_and!; [reflexivity|..|done].
    + split; cbn [pending pending_len]; [rewrite length_app, length_drop; lia|done].
    + unfold Pending. cbn [pending pending_len]. by rewrite take_app_length.
Qed.

(** a search still pending is reported when the next flush finds it not opened *)
Definition due (s : state) (es : list event) : list str :=
  if (0 <? pending_len s)%nat && (found (Pending s) es == Some false) then [Pending s] else [].

Definition lines (ns : list str) : str := concat (map (λ n, n ++ nl) ns).

Lemma due_flush s e es : flushes e = true → lines (due s (e :: es)) = line_of s.
Proof.
  intros Hf. unfold due, line_of. cbn [found]. rewrite Hf.
  rewrite (bool_decide_eq_true_2 (Some false = Some false)) by done. rewrite andb_true_r.
  destruct (_ <? _)%nat; [|done]. unfold lines. cbn. by rewrite app_nil_r.
Qed.

Lemma due_none s es : pending_len s = 0 → due s es = [].
Proof. intros H. unfold due. by rewrite H. Qed.

Lemma Pending_length s : wf s → length (Pending s) = pending_len s.
Proof. intros [Hl Hp]. unfold Pending. rewrite length_take. lia. Qed.

Lemma due_search name s es :
  wf s → Pending s = (if Ignored name then [] else name) →
  due s es = if negb (Ignored name) && (name != []) && (found name es == Some false) then [name] else [].
Proof.
  intros Hw Hp. pose proof (Pending_length s Hw) as Hl. unfold due. rewrite <-Hl, Hp.
  destruct (Ignored name); [done|]. destruct name as [|c name]; [done|].
  rewrite (bool_decide_eq_false_2 (c :: name = [])) by done. done.
Qed.

Lemma due_other s e es :
  flushes e = false → (∀ l, e = Open l → pending_len s = 0 ∨ starts_with (basename l) (Pending s) = false) →
  due s (e :: es) = due s es.
Proof.
  intros Hf Ho. unfold due. destruct (Nat.ltb_spec 0 (pending_len s)); [|done]. cbn [andb found]. rewrite Hf.
  destruct e as [n o|l| |]; try done. destruct (Ho l eq_refl) as [?|E]; [lia|]. by rewrite E.
Qed.

Lemma objopen_spec l s es :
  wf s → wf (la_objopen l s) ∧ out (la_objopen l s) = out s ∧ due (la_objopen l s) es = due s (Open l :: es).
Proof.
  intros [Hl Hp]. unfold la_objopen. destruct (Nat.ltb_spec 0 (pending_len s)) as [H0|H0]; cbn [andb].
  - destruct (starts_with (basename l) (Pending s)) eqn:E.
    + split_and!; [split; cbn [pending pending_len]; [done|lia]|done|].
      rewrite due_none by done. unfold due. cbn [found flushes]. rewrite E. by rewrite andb_false_r.
    + split_and!; [done..|]. rewrite due_other; [done|done|]. intros l' [= <-]. by right.
  - split_and!; [done..|]. rewrite !due_none by lia. done.
Qed.

Lemma lines_app a b : lines (a ++ b) = lines a ++ lines b.
Proof. unfold lines. by rewrite map_app, concat_app. Qed.

(** what a flush wrote now, and what follows *)
Lemma flush_then s s1 e es ns :
  flushes e = true → out s1 = (λ w, w ++ line_of s) <$> out s →
  (λ w, w ++ lines ns) <$> out s1 = (λ w, w ++ lines (due s (e :: es) ++ ns)) <$> out s.
Proof.
  intros Hf ->. destruct (out s); [|done]. cbn [fmap option_fmap option_map]. f_equal.
  by rewrite lines_app, due_flush, app_assoc by done.
Qed.

Lemma audit_lines es : ∀ s, wf s →
  ∃ s', audit s es = Some s' ∧ out s' = (λ w, w ++ lines (due s es ++ failed es)) <$> out s.
Proof.
  induction es as [|e es IH]; intros s Hw.
  { exists s. split; [done|]. unfold due. cbn [found]. rewrite (bool_decide_eq_false_2 (None = Some false)) by done.
    rewrite andb_false_r. destruct (out s); cbn; [by rewrite app_nil_r|done]. }
  destruct e as [name [|]|l_name| |]; cbn [audit audit_step failed].
  - destruct (search_spec name s Hw) as (s1 & E & Hw1 & Hp1 & Ho1). rewrite E.
    destruct (IH s1 Hw1) as (s2 & E2 & Ho2). exists s2. split; [done|].
    rewrite Ho2, (due_search name) by done. rewrite (flush_then s s1 (Search name true) es) by done.
    by destruct (_ && _).
  - destruct (IH s Hw) as (s2 & E2 & Ho2). exists s2. split; [done|]. by rewrite due_other by done.
  - destruct (objopen_spec l_name s es Hw) as (Hw1 & Ho1 & Hd). destruct (IH _ Hw1) as (s2 & E2 & Ho2).
    exists s2. split; [done|]. by rewrite Ho2, Ho1, Hd.
  - destruct (dl_flush s Hw) as (s1 & E & Hw1 & H0 & Ho1). rewrite E. destruct (IH _ Hw1) as (s2 & E2 & Ho2).
    exists s2. split; [done|]. rewrite Ho2, due_none by done. by apply flush_then.
  - destruct (dl_flush s Hw) as (s1 & E & Hw1 & H0 & Ho1). rewrite E. destruct (IH _ Hw1) as (s2 & E2 & Ho2).
    exists s2. split; [done|]. rewrite Ho2, due_none by done. by apply flush_then.
Qed.

(** C38. Whatever the loader calls, in any order and with names of any length, the module stays inside
    its fixed buffer, and what it writes is one line for exactly those searches by soname (not glibc's
    own, no slash, at most 255 bytes) for which no object of that name was opened before the next
    search, the end of start-up or exit. Without an output file it writes nothing. *)
Theorem audit_reports (opened : bool) (es : list event) :
  out <$> audit (la_version opened g_state) es = Some (if opened then Some (lines (failed es)) else None).
Proof.
  assert (Hw : wf (la_version opened g_state)) by (destruct opened; apply wf_g_state).
  destruct (audit_lines es _ Hw) as (s & -> & Ho). cbn [fmap option_fmap option_map]. rewrite Ho.
  rewrite due_none by (by destruct opened). by destruct opened.
Qed.

Example audit_example :
  failed [Search "libc.so.6" true; Open "/lib/libc.so.6"; Preinit; Search "libmissing.so" true;
          Search "/lib/libmissing.so" false; Search "libz.so" true; Open "/lib/libz.so.1"; Search "libnss_x.so" true; Fini]
  = [lit "libmissing.so"].
Proof. reflexivity. Qed.
