(* ===== verification/Launch.v ===== *)
(** * launch.cc: the program behind every script and wrapped binary (src/pkgs/la/launch/src)

    The POSIX half, from argv[0] to execv. The file system and the parsed record are parameters; the
    environment is explicit state; every [Die] is the value [Died]. Strings that go to libc go there
    up to their first NUL. The Windows half is in LaunchWindows. *)

From S2P Require Import Prelude Paths Base Aterm.

Inductive launched (A : Type) := Go (a : A) | Died (what arg : str).
Arguments Go {A} a.
Arguments Died {A} what arg.
Definition l_bind {A B} (m : launched A) (f : A → launched B) : launched B :=
  match m with Go a => f a | Died w x => Died w x end.
Notation "x <- m ;; k" := (l_bind m (λ x, k)) (at level 100, m at next level, right associativity).

Fixpoint l_map {A B} (f : A → launched B) (xs : list A) : launched (list B) :=
  match xs with
  | [] => Go []
  | x :: xs => y <- f x ;; ys <- l_map f xs ;; Go (y :: ys)
  end.

(** what the kernel says of files *)
Record files := Files {
  cwd : str;
  read_symlink : str → option str;
  canonical : str → option str;
  executable : str → bool;                (* access(X_OK) *)
  record : str → option (option json);    (* None: cannot be read; Some None: does not parse *)
}.

Definition absolute (fs : files) (p : str) : str := if is_absolute p then p else cwd fs /p/ p.

Definition Canonical (fs : files) (path : str) : launched str :=
  match canonical fs path with Some p => Go p | None => Died "canonical" path end.

Definition Str (j : json) (what : str) : launched str :=
  match j with JString s => Go s | _ => Died "not a string in record" what end.

(** ** The environment *)

Abbreviation environ := (gmap str str).
Definition c_str (s : str) : str := match find [chr_nul] s with Some n => take n s | None => s end.

Definition GetEnv (env : environ) (name : str) : option str := env !! c_str name.
Definition bad_name (name : str) : bool := (c_str name == []) || contains_chr (c_str name) "="%char.
Definition SetEnv (env : environ) (name val : str) : launched environ :=
  if bad_name name then Died "Invalid argument" name else Go (<[c_str name := c_str val]> env).
Definition UnsetEnv (env : environ) (name : str) : environ :=
  if bad_name name then env else delete (c_str name) env.

(** ** Which bin/foo *)

Definition kPathSep : str := ":".

(** the loop over the directories of PATH, from [pos] *)
Fixpoint path_loop (fuel : nat) (fs : files) (argv0 path : str) (pos : nat) : launched str :=
  match fuel with
  | 0 => Died "not found on PATH" argv0
  | S fuel =>
      if (pos <=? length path)%nat then
        let end_ := default (length path) (find_from ":" path pos) in
        let cand := substr path pos (end_ - pos) /p/ argv0 in
        if executable fs cand then Go (absolute fs cand) else path_loop fuel fs argv0 path (end_ + 1)
      else Died "not found on PATH" argv0
  end.
Definition Argv0Path (fs : files) (env : environ) (argv0 : str) : launched str :=
  if contains_chr argv0 chr_slash then Go (absolute fs argv0)
  else
    match GetEnv env "PATH" with
    | None => Died "argv[0] has no '/' and PATH is unset" argv0
    | Some path => path_loop (S (S (length path))) fs argv0 path 0
    end.

Definition kMaxHops : nat := 32.
Definition next_hop (cur target : str) : str := if is_absolute target then target else parent_path cur /p/ target.

Fixpoint hop_loop (hops : nat) (fs : files) (argv0 cur : str) : launched str :=
  match hops with
  | 0 => Died "symlink loop" argv0
  | S hops =>
      match read_symlink fs cur with
      | None => Died "not a launcher symlink" cur
      | Some target =>
          if filename target == lit "launch" then dir <- Canonical fs (parent_path cur) ;; Go (dir /p/ filename cur)
          else hop_loop hops fs argv0 (next_hop cur target)
      end
  end.
Definition InvokedPath (fs : files) (env : environ) (argv0 : str) : launched str :=
  cur <- Argv0Path fs env argv0 ;; hop_loop kMaxHops fs argv0 cur.

(** ** The record *)

Record context := Context_ { root : str; store : str; self : str; argv0 : str }.

Definition keys (ctx : context) : list (str * str) :=
  [(lit "{root}", root ctx); (lit "{store}", store ctx); (lit "{self}", self ctx); (lit "{argv0}", argv0 ctx)].

Definition Expand (text : str) (ctx : context) : str :=
  foldl (λ text kv, replace_loop (S (length text)) kv.1 kv.2 0 text) text (keys ctx).

Definition StringList (val : json) (ctx : context) : launched (list str) :=
  match val with
  | JString s => Go [Expand s ctx]
  | JArray elems => l_map (λ elem, s <- Str elem "list element" ;; Go (Expand s ctx)) elems
  | _ => Died "env value must be string or array" []
  end.

(** unlike base.cc's, a separator goes between any two parts *)
Definition Join (parts : list str) (sep : str) : str :=
  (foldl (λ '(out, i) part, ((if (i =? 0)%nat then out else out ++ sep) ++ part, S i)) ([], 0) parts).1.

(** one operation of a variable's entry *)
Definition env_op (name sep : str) (ctx : context) (env : environ) (oper : str) (val : json) : launched environ :=
  let cur := GetEnv env name in
  if oper == lit "unset" then Go (UnsetEnv env name)
  else if oper == lit "set" then parts <- StringList val ctx ;; SetEnv env name (Join parts sep)
  else if oper == lit "default" then
    match cur with
    | Some _ => Go env
    | None => parts <- StringList val ctx ;; SetEnv env name (Join parts sep)
    end
  else if (oper == lit "prepend") || (oper == lit "append") then
    parts <- StringList val ctx ;;
    let parts :=
      match cur with
      | Some (c :: cs) => if oper == lit "prepend" then parts ++ [c :: cs] else (c :: cs) :: parts
      | _ => parts
      end in
    SetEnv env name (Join parts sep)
  else Died "unknown env op" oper.

Fixpoint env_ops (name sep : str) (ctx : context) (env : environ) (ops : list (str * json)) : launched environ :=
  match ops with
  | [] => Go env
  | (oper, val) :: ops =>
      if oper == lit "sep" then env_ops name sep ctx env ops
      else env' <- env_op name sep ctx env oper val ;; env_ops name sep ctx env' ops
  end.

Definition ApplyEnv (name : str) (spec : json) (ctx : context) (env : environ) : launched environ :=
  match spec with
  | JObject ms =>
      sep <- match member (lit "sep") ms with Some s => Str s "sep" | None => Go kPathSep end ;;
      env_ops name sep ctx env ms
  | _ => Died "env entry must be an object" name
  end.

Fixpoint apply_all (ctx : context) (env : environ) (specs : list (str * json)) : launched environ :=
  match specs with
  | [] => Go env
  | (name, spec) :: specs => env' <- ApplyEnv name spec ctx env ;; apply_all ctx env' specs
  end.

(** what execv gets *)
Record exec := Exec { e_program : str; e_argv : list str; e_env : environ }.

Definition Run (program argv0 : str) (pre args : list str) (env : environ) : exec :=
  Exec (c_str program) (map c_str ((argv0 :: pre) ++ drop 1 args)) env.

Definition launch_main (fs : files) (env : environ) (args : list str) : launched exec :=
  match args with
  | [] => Died "no argv[0]" []
  | arg0 :: _ =>
      self <- InvokedPath fs env arg0 ;;
      let bindir := parent_path self in
      let ctx := Context_ (parent_path bindir) (parent_path (parent_path bindir)) self arg0 in
      let recpath := bindir /p/ (lit "." ++ filename self ++ ".launch") in
      match record fs recpath with
      | None => Died "cannot read record" recpath
      | Some (Some (JObject rec)) =>
          match member (lit "program") rec with
          | None => Died "record lacks program" recpath
          | Some p =>
              program <- Str p "program" ;;
              let program := Expand program ctx in
              argv0 <- match member (lit "argv0") rec with
                       | Some a => s <- Str a "argv0" ;; Go (Expand s ctx)
                       | None => Go program
                       end ;;
              pre <- match member (lit "args") rec with Some a => StringList a ctx | None => Go [] end ;;
              env <- match member (lit "env") rec with
                     | Some (JObject specs) => apply_all ctx env specs
                     | Some _ => Died "env must be an object" recpath
                     | None => Go env
                     end ;;
              Go (Run program argv0 pre args env)
          end
      | Some _ => Died "bad record" recpath
      end
  end.

(** ** Properties *)

(** *** placeholders *)

Definition brace : ascii := "{"%char.
Definition placeholders : list str := [lit "{root}"; lit "{store}"; lit "{self}"; lit "{argv0}"].

(** a piece of a template: text without a brace, or one placeholder *)
Definition chunk (c : str) : Prop := brace ∉ c ∨ c ∈ placeholders.

Lemma starts_with_brace s k : hd_error s ≠ Some brace → starts_with s (brace :: k) = false.
Proof. destruct s as [|c s]; [done|]. intros H. cbn. rewrite bool_decide_eq_false_2; [done|]. intros <-. done. Qed.

Lemma text_no_match c s k j :
  brace ∉ c → j < length c → starts_with (drop j (c ++ s)) (brace :: k) = false.
Proof.
  intros Hc Hj. apply starts_with_brace. rewrite drop_app_le by lia.
  destruct (drop j c) as [|x r] eqn:E.
  - apply (f_equal length) in E. rewrite length_drop in E. cbn in E. lia.
  - cbn. intros [= ->]. apply Hc. rewrite <-(take_drop j c), E. set_solver.
Qed.

(** no placeholder begins inside another *)
Lemma placeholder_no_match c k s j :
  c ∈ placeholders → k ∈ placeholders → c ≠ k → j < length c → starts_with (drop j (c ++ s)) k = false.
Proof.
  intros Hc Hk Hne Hj. unfold placeholders in *.
  assert (∃ k', k = brace :: k') as [k' Hk'] by
    (repeat (apply elem_of_cons in Hk as [->|Hk]; [by eexists|]); by apply elem_of_nil in Hk).
  destruct j as [|j].
  - rewrite drop_0. repeat (apply elem_of_cons in Hc as [->|Hc]; [|]);
      repeat (apply elem_of_cons in Hk as [->|Hk]; [|]); try done; by (apply elem_of_nil in Hc || apply elem_of_nil in Hk).
  - subst k. destruct c as [|b c]; [cbn in Hj; lia|]. cbn [app drop]. apply text_no_match; [|cbn in Hj; lia].
    clear -Hc. repeat (apply elem_of_cons in Hc as [[= -> ->]|Hc]; [by not_in|]). by apply elem_of_nil in Hc.
Qed.

Lemma subst_chunks k v cs :
  k ∈ placeholders → Forall chunk cs →
  subst k v (concat cs) = concat (map (λ c, if c == k then v else c) cs).
Proof.
  intros Hk Hcs. assert (∃ k', k = brace :: k') as [k' Hk'] by
    (unfold placeholders in Hk; repeat (apply elem_of_cons in Hk as [->|Hk]; [by eexists|]); by apply elem_of_nil in Hk).
  induction Hcs as [|c cs Hc _ IH]; [by subst k|]. cbn [map concat].
  destruct (decide (c = k)) as [->|Hne].
  - rewrite subst_app_match by (by subst k). by rewrite bool_decide_eq_true_2, IH.
  - rewrite bool_decide_eq_false_2 by done. rewrite subst_nomatch_app, IH; [done|]. intros j Hj.
    destruct Hc as [Hc|Hc]; [subst k; by apply text_no_match|by apply placeholder_no_match].
Qed.

Lemma expand_step text k v : k ≠ [] → replace_loop (S (length text)) k v 0 text = subst k v text.
Proof. intros Hk. apply (replace_loop_subst k v [] text); [done|lia]. Qed.

(** what one piece of a template stands for *)
Definition meaning (ctx : context) (c : str) : str := default c (member c (keys ctx)).

Lemma placeholder_brace k : k ∈ placeholders → ∃ k', k = brace :: k'.
Proof.
  unfold placeholders. intros Hk. repeat (apply elem_of_cons in Hk as [->|Hk]; [by eexists|]). by apply elem_of_nil in Hk.
Qed.

Lemma member_text v (kvs : list (str * str)) :
  brace ∉ v → Forall (λ kv, kv.1 ∈ placeholders) kvs → member v kvs = None.
Proof.
  intros Hv. induction 1 as [|[k w] kvs Hk _ IH]; [done|]. cbn [member]. rewrite bool_decide_eq_false_2; [done|].
  intros ->. destruct (placeholder_brace k Hk) as [k' ->]. set_solver.
Qed.

Lemma expand_fold kvs cs :
  Forall (λ kv, kv.1 ∈ placeholders ∧ brace ∉ kv.2) kvs → Forall chunk cs →
  foldl (λ text kv, replace_loop (S (length text)) kv.1 kv.2 0 text) (concat cs) kvs =
  concat (map (λ c, default c (member c kvs)) cs).
Proof.
  intros Hkvs. revert cs. induction Hkvs as [|[k v] kvs [Hk Hv] Hkvs IH]; intros cs Hcs; cbn [foldl fst snd].
  { induction cs; [done|]. cbn. by f_equal; apply IHcs; apply Forall_cons in Hcs as [_ ?]. }
  cbn [fst snd] in *. rewrite expand_step by (destruct (placeholder_brace k Hk) as [k' ->]; done).
  rewrite subst_chunks, IH by
    (done || (apply list.Forall_forall; intros x (c & -> & Hc)%list_elem_of_fmap;
              rewrite list.Forall_forall in Hcs; destruct (c == k); [by left|auto])).
  f_equal. rewrite map_map. apply map_ext_in. intros c _. cbn [member].
  destruct (decide (c = k)) as [->|Hne].
  - rewrite !(bool_decide_eq_true_2 (k = k)) by done. rewrite member_text; [done|done|].
    eapply Forall_impl; [exact Hkvs|]. by intros ? [? _].
  - by rewrite !(bool_decide_eq_false_2 (c = k)) by done.
Qed.

(** Expanding a record's text replaces every placeholder by its value, all at once: text made of
    pieces without braces and the four placeholders becomes the pieces' meanings put together, no
    replacement is ever expanded again, and so a package and its neighbours move together. *)
Theorem Expand_template (ctx : context) (cs : list str) :
  Forall chunk cs → Forall (λ kv, brace ∉ kv.2) (keys ctx) →
  Expand (concat cs) ctx = concat (map (meaning ctx) cs).
Proof.
  intros Hcs Hv. apply expand_fold; [|done]. unfold keys in *. unfold placeholders.
  repeat (apply Forall_cons in Hv as [? Hv]). repeat constructor; cbn [fst snd] in *; try done.
  all: repeat (first [apply elem_of_cons; left; reflexivity | apply elem_of_cons; right]).
Qed.

Lemma Expand_template_witness :
  Expand "{store}/0-python/bin/python3" (Context_ "/nix/store/1-a" "/nix/store" "/nix/store/1-a/bin/x" "x")
  = lit "/nix/store/0-python/bin/python3".
Proof.
  rewrite <-(app_nil_r (lit "/nix/store/0-python/bin/python3")).
  apply (Expand_template (Context_ "/nix/store/1-a" "/nix/store" "/nix/store/1-a/bin/x" "x")
    [lit "{store}"; lit "/0-python/bin/python3"]).
  - apply Forall_cons. split; [right; apply elem_of_cons; right; apply elem_of_cons; left; reflexivity|].
    apply Forall_cons. split; [left; not_in|constructor].
  - repeat (apply Forall_cons; split; [cbn [snd root store self argv0]; not_in|]). constructor.
Defined.

(** *** the environment *)

Lemma launch_Join parts sep : Join parts sep = unpieces sep parts.
Proof.
  unfold Join. assert (Hgen : ∀ ps out i,
    (foldl (λ '(out, i) part, ((if (i =? 0)%nat then out else out ++ sep) ++ part, S i)) (out, S i) ps).1
    = out ++ concat (map (λ p, sep ++ p) ps)).
  { induction ps as [|p ps IH]; intros out i; cbn [foldl map concat]; [by rewrite app_nil_r|].
    rewrite IH. cbn [Nat.eqb]. by rewrite <-!app_assoc. }
  destruct parts as [|p ps]; [done|]. cbn [foldl Nat.eqb app]. rewrite Hgen.
  revert p. induction ps as [|q ps IH]; intros p; [by rewrite app_nil_r|].
  change (unpieces sep (p :: q :: ps)) with (p ++ sep ++ unpieces sep (q :: ps)).
  cbn [map concat]. by rewrite <-IH, <-app_assoc.
Qed.

Lemma c_str_free s : chr_nul ∉ s → c_str s = s.
Proof. intros H. unfold c_str. by rewrite (proj2 (find_chr_None _ _) H). Qed.

Lemma StringList_strings vals ctx :
  StringList (JArray (map JString vals)) ctx = Go (map (λ v, Expand v ctx) vals).
Proof. cbn [StringList]. induction vals as [|v vals IH]; [done|]. cbn [map l_map Str l_bind]. by rewrite IH. Qed.

(** a search path as the loader reads it: the pieces of the value; an unset or empty variable has none *)
Definition search_path (cur : option str) : list str :=
  match cur with Some (c :: cs) => pieces ":" (c :: cs) | _ => [] end.

Lemma unpieces_both sep a b : a ≠ [] → b ≠ [] → unpieces sep (a ++ b) = unpieces sep a ++ sep ++ unpieces sep b.
Proof.
  intros Ha Hb. induction a as [|x a IH]; [done|]. destruct a as [|y a]; [by destruct b|].
  change ((x :: y :: a) ++ b) with (x :: y :: (a ++ b)).
  change (x ++ sep ++ unpieces sep ((y :: a) ++ b) = (x ++ sep ++ unpieces sep (y :: a)) ++ sep ++ unpieces sep b).
  rewrite IH by done. by rewrite <-!app_assoc.
Qed.

Lemma unpieces_pieces_app ps s :
  ps ≠ [] → Forall (λ p, ":"%char ∉ p) ps → s ≠ [] →
  pieces ":" (unpieces ":" (ps ++ [s])) = ps ++ pieces ":" s ∧ pieces ":" (unpieces ":" (s :: ps)) = pieces ":" s ++ ps.
Proof.
  intros Hne Hps Hs. rewrite <-(unpieces_pieces ":" s) at 1 3.
  pose proof (pieces_nonnil ":" s) as Hn. pose proof (pieces_sep_free ":" s) as Hf.
  set (qs := pieces ":" s) in *. clearbody qs. change (lit ":") with [":"%char].
  split.
  - rewrite unpieces_both by done. change (unpieces _ [?x]) with x. rewrite <-unpieces_both by done. apply pieces_unpieces; [by destruct ps|by apply Forall_app].
  - change (?x :: ps) with ([x] ++ ps). rewrite (unpieces_both _ [_]) by done. change (unpieces _ [?x]) with x.
    rewrite <-unpieces_both by done. apply pieces_unpieces; [by destruct qs|by apply Forall_app].
Qed.

(** comparisons of two literals *)
Ltac eval_lits :=
  repeat match goal with
  | |- context [bool_decide (lit ?a = lit ?b)] =>
      let v := eval vm_compute in (bool_decide (lit a = lit b)) in
      change (bool_decide (lit a = lit b)) with v
  end.

Lemma env_ops_list name (front : bool) ctx env val parts :
  StringList val ctx = Go parts →
  ApplyEnv name (JObject [((if front then lit "prepend" else lit "append"), val)]) ctx env =
  SetEnv env name (Join (match GetEnv env name with
    | Some (c :: cs) => if front then parts ++ [c :: cs] else (c :: cs) :: parts | _ => parts end) kPathSep).
Proof.
  intros H. destruct front; cbn [ApplyEnv member]; eval_lits; cbn [l_bind env_ops]; eval_lits; unfold env_op; eval_lits;
    cbn [orb]; rewrite H; cbn [l_bind]; by destruct (SetEnv _ _ _).
Qed.

Lemma unpieces_not_in (c : ascii) sep ps :
  c ∉ sep → Forall (λ p, c ∉ p) ps → c ∉ unpieces sep ps.
Proof.
  intros Hs. induction 1 as [|p ps Hp _ IH]; [set_solver|]. destruct ps as [|q ps]; [done|].
  change (unpieces sep (p :: q :: ps)) with (p ++ sep ++ unpieces sep (q :: ps)). set_solver.
Qed.

Lemma search_path_Some s : s ≠ [] → search_path (Some s) = pieces ":" s.
Proof. by destruct s. Qed.

Lemma unpieces_nonempty sep ps : Forall (λ p, p ≠ []) ps → ps ≠ [] → unpieces sep ps ≠ [].
Proof. destruct ps as [|p [|q ps]]; [done| |]; intros [? _]%Forall_cons _; [done|]. by destruct p. Qed.

(** A record's "prepend" (or "append") puts the package's own directories first (last) on the search
    path and keeps the user's after (before) them in their order, starts a path where the variable was
    unset or empty, and touches no other variable. *)
Theorem ApplyEnv_search_path (name : str) (front : bool) (vals : list str) (ctx : context) (env : environ) :
  let own := map (λ v, Expand v ctx) vals in
  name ≠ [] → "="%char ∉ name → chr_nul ∉ name → vals ≠ [] →
  Forall (λ d, d ≠ [] ∧ ":"%char ∉ d ∧ chr_nul ∉ d) own → map_Forall (λ _ v, chr_nul ∉ v) env →
  ∃ env', ApplyEnv name (JObject [((if front then lit "prepend" else lit "append"), JArray (map JString vals))]) ctx env
            = Go env' ∧
    search_path (env' !! name) =
      (if front then own ++ search_path (env !! name) else search_path (env !! name) ++ own) ∧
    ∀ other, other ≠ name → env' !! other = env !! other.
Proof.
  intros own Hn Heq Hnul Hvals Hown Henv.
  assert (Hbad : bad_name name = false).
  { unfold bad_name. rewrite c_str_free by done. rewrite bool_decide_eq_false_2 by done. by apply contains_chr_false. }
  rewrite (env_ops_list _ _ _ _ _ _ (StringList_strings vals ctx)). fold own.
  unfold SetEnv, GetEnv. rewrite Hbad, c_str_free by done. eexists. split; [reflexivity|].
  split; [|intros other Ho; by rewrite lookup_insert_ne by done].
  rewrite lookup_insert_eq, launch_Join. unfold kPathSep.
  assert (Hown_ne : own ≠ []) by (by destruct vals).
  assert (Hp1 : Forall (λ p, p ≠ []) own) by (eapply Forall_impl; [exact Hown|]; naive_solver).
  assert (Hp2 : Forall (λ p, ":"%char ∉ p) own) by (eapply Forall_impl; [exact Hown|]; naive_solver).
  assert (Hp3 : Forall (λ p, chr_nul ∉ p) own) by (eapply Forall_impl; [exact Hown|]; naive_solver).
  assert (Hc : chr_nul ∉ lit ":") by not_in.
  destruct (env !! name) as [[|c cs]|] eqn:E.
  2: { assert (Hcur : chr_nul ∉ c :: cs) by (by apply (Henv name)).
       destruct (unpieces_pieces_app own (c :: cs) Hown_ne Hp2) as [H1 H2]; [done|].
       destruct front; rewrite c_str_free, search_path_Some; rewrite ?H1, ?H2; try done.
       - apply unpieces_nonempty; [|by destruct own]. apply Forall_app. split; [done|]. by repeat constructor.
       - apply unpieces_not_in; [done|]. apply Forall_app. split; [done|]. by repeat constructor.
       - apply unpieces_nonempty; [|done]. by constructor.
       - apply unpieces_not_in; [done|]. by constructor. }
  all: rewrite c_str_free by (by apply unpieces_not_in).
  all: rewrite search_path_Some by (by apply unpieces_nonempty).
  all: change (lit ":") with [":"%char]; rewrite pieces_unpieces by done; cbn [search_path].
  all: destruct front; by rewrite ?app_nil_r.
Qed.

Lemma ApplyEnv_search_path_witness :
  ∃ env', ApplyEnv "PATH" (JObject [(lit "prepend", JArray [JString "{store}/0-jq/bin"])])
            (Context_ "/s/1-a" "/s" "/s/1-a/bin/x" "x") {[ lit "PATH" := lit "/usr/bin:/bin" ]} = Go env' ∧
    search_path (env' !! lit "PATH") = [lit "/s/0-jq/bin"; lit "/usr/bin"; lit "/bin"].
Proof.
  destruct (ApplyEnv_search_path "PATH" true [lit "{store}/0-jq/bin"] (Context_ "/s/1-a" "/s" "/s/1-a/bin/x" "x")
    {[ lit "PATH" := lit "/usr/bin:/bin" ]}) as (env' & H1 & H2 & _); [done|not_in|not_in|done|..].
  - repeat constructor; [vm_compute; discriminate|vm_compute; not_in|vm_compute; not_in].
  - apply map_Forall_singleton. not_in.
  - exists env'. split; [exact H1|]. rewrite H2. vm_compute. reflexivity.
Defined.

(** *** from argv[0] to the package's own symlink *)

(** [n] hops from [cur] lead to the symlink to "launch" *)
Inductive leads (fs : files) : str → nat → str → Prop :=
| leads_here cur t : read_symlink fs cur = Some t → filename t = lit "launch" → leads fs cur 0 cur
| leads_next cur t n last : read_symlink fs cur = Some t → filename t ≠ lit "launch" →
    leads fs (next_hop cur t) n last → leads fs cur (S n) last.

Lemma hop_loop_leads fs a cur n last hops dir :
  leads fs cur n last → canonical fs (parent_path last) = Some dir →
  hop_loop hops fs a cur = if (n <? hops)%nat then Go (dir /p/ filename last) else Died "symlink loop" a.
Proof.
  intros H Hc. revert hops. induction H as [cur t Ht Hf|cur t n last Ht Hf _ IH]; intros [|hops]; try done; cbn [hop_loop].
  - rewrite Ht, bool_decide_eq_true_2 by done. unfold Canonical. by rewrite Hc.
  - rewrite Ht, bool_decide_eq_false_2 by done. by rewrite (IH Hc).
Qed.

(** the PATH lookup takes the first directory that has the program *)
Lemma path_loop_first fs a pre rest fuel :
  length rest < fuel →
  path_loop fuel fs a (pre ++ rest) (length pre) =
  match List.find (λ d, executable fs (d /p/ a)) (pieces ":" rest) with
  | Some d => Go (absolute fs (d /p/ a))
  | None => Died "not found on PATH" a
  end.
Proof.
  revert pre rest. induction fuel as [|fuel IH]; intros pre rest Hf; [lia|]. cbn [path_loop].
  rewrite (proj2 (Nat.leb_le _ _)) by (rewrite length_app; lia).
  rewrite find_from_app, pieces_find. unfold substr. change (lit ":") with [":"%char].
  destruct (find [":"%char] rest) as [i|] eqn:E; cbn [fmap option_fmap option_map default List.find].
  - pose proof (find_bound _ _ _ E) as Hb. cbn in Hb. unfold id.
    replace (length pre + i - length pre) with i by lia. rewrite drop_app_length.
    destruct (executable fs _); [done|].
    replace (length pre + i + 1) with (length (pre ++ take (S i) rest)) by (rewrite length_app, length_take; lia).
    rewrite <-(take_drop (S i) rest) at 1. rewrite app_assoc. apply IH. rewrite length_drop. lia.
  - rewrite length_app. replace (length pre + length rest - length pre) with (length rest) by lia.
    rewrite drop_app_length, take_ge by lia. destruct (executable fs _); [done|].
    destruct fuel; [done|]. cbn [path_loop]. rewrite (proj2 (Nat.leb_gt _ _)); [done|]. rewrite length_app. lia.
Qed.

(** C36. launch finds the package it was started from: argv[0] without a slash is taken from the first
    PATH directory that has it executable, and from there the symlink chain is followed to the link whose
    target is named "launch"; its directory is resolved and its own name kept, so the record next to it is
    the one read. A chain of 32 hops or more is an error, never a wrong package. *)
Theorem InvokedPath_finds (fs : files) (env : environ) (arg path d cur last dir : str) (n : nat) :
  (if contains_chr arg chr_slash then cur = absolute fs arg
   else GetEnv env "PATH" = Some path ∧
        List.find (λ d, executable fs (d /p/ arg)) (pieces ":" path) = Some d ∧ cur = absolute fs (d /p/ arg)) →
  leads fs cur n last → canonical fs (parent_path last) = Some dir →
  InvokedPath fs env arg = if (n <? kMaxHops)%nat then Go (dir /p/ filename last) else Died "symlink loop" arg.
Proof.
  intros Hcur Hl Hd. unfold InvokedPath, Argv0Path.
  destruct (contains_chr arg chr_slash); [subst cur; by apply (hop_loop_leads _ _ _ _ _ _ _ Hl)|].
  destruct Hcur as (-> & Hf & ->).
  rewrite (path_loop_first fs arg [] path) by lia. rewrite Hf. cbn [l_bind]. by apply (hop_loop_leads _ _ _ _ _ _ _ Hl).
Qed.

Definition demo_files : files :=
  Files "/home" (λ p, if p == lit "/bin/x" then Some (lit "../s/1-a/bin/x")
                      else if p == lit "/bin/../s/1-a/bin/x" then Some (lit "../../0-launch/bin/launch") else None)
    (λ p, if p == lit "/bin/../s/1-a/bin" then Some (lit "/s/1-a/bin") else None)
    (λ p, p == lit "/bin/x") (λ _, None).

Lemma InvokedPath_finds_witness :
  InvokedPath demo_files {[ lit "PATH" := lit "/usr/bin:/bin" ]} "x" = Go (lit "/s/1-a/bin/x").
Proof.
  apply (InvokedPath_finds demo_files {[ lit "PATH" := lit "/usr/bin:/bin" ]} "x" "/usr/bin:/bin" "/bin" "/bin/x"
    "/bin/../s/1-a/bin/x" "/s/1-a/bin" 1); [split_and!; reflexivity| |reflexivity].
  eapply leads_next; [reflexivity|vm_compute; discriminate|]. eapply leads_here; reflexivity.
Defined.
