(* ===== verification/Process.v ===== *)
(** * process.h, process.cc: running the real compiler

    [Slot] (the admission a run holds) over the cache connection, and what [Run] makes of a child
    that the kernel forked, fed through the pipe and reaped. *)

From S2P Require Import Prelude Paths Base Keys CacheClient.

Definition kExecFailedStatus : N := 127.
Definition kSignalStatusBase : N := 128.

(** ** Slot *)

Section Slot.
Context {S : Type} `{Peer S}.

(** [Slot::Slot]: [jig_slot] and [build_top] are $JIG_SLOT and $NIX_BUILD_TOP. The result is the build
    whose slot is held (then $JIG_SLOT is set for the child), or nothing. *)
Definition Slot_open (jig_slot : str) (build_top : option str) (socket_path : str) (connects : option S) : io (option str) := λ c,
  if jig_slot != [] then (None, c)
  else
    let '(connected, c) := if c_open c then (true, c) else Connect socket_path connects c in
    if negb connected then (None, c)
    else
      let build := default (lit "-") build_top in
      let '(ok, c) := AcquireSlot build c in
      ((if (ok : bool) then Some build else None), c).

(** [Slot::~Slot] *)
Definition Slot_close (slot : option str) : io unit := λ c,
  match slot with None => (tt, c) | Some build => ReleaseSlot build c end.
End Slot.

(** ** Run *)

Record RunResult := Run_result { status : N; stderr_text : str }.

(** what becomes of the child *)
Inductive child := ForkFailed | Exited (code : N) | Signalled (signal : N) | Lost.

(** [piped]: the pipe could be made; [read]: what came through it before its end *)
Definition Run (mode : StderrMode) (piped : bool) (read : str) (c : child) : RunResult :=
  let capture := match mode with kCapture => piped | kInherit => false end in
  match c with
  | ForkFailed => Run_result kExecFailedStatus (lit "jig: fork failed" ++ nl)
  | _ =>
      let text := if capture then read else [] in
      match c with
      | Exited code => Run_result (code mod 256) text
      | Signalled signal => Run_result (kSignalStatusBase + signal) text
      | _ => Run_result 1 text
      end
  end.

(** a run that says something about its inputs *)
Definition Deterministic (run : RunResult) : bool :=
  (status run <? kSignalStatusBase)%N && negb (contains (stderr_text run) "unable to execute command") &&
  negb (contains (stderr_text run) "PLEASE submit a bug report").

Lemma Run_signalled mode piped read signal :
  Deterministic (Run mode piped read (Signalled signal)) = false.
Proof.
  unfold Deterministic, Run. cbn [status].
  assert ((kSignalStatusBase + signal <? kSignalStatusBase)%N = false) as -> by (apply N.ltb_ge; lia). done.
Qed.
