(* ===== verification/Driver.v ===== *)
(** * driver.h, driver.cc: from the user's command line to the real compiler's

    The configuration, the scan of the user's arguments, the RUNPATH under construction and the link
    policies of the three binary formats, put together by [BuildDriverArgs]. The file system and the
    environment are parameters, JSON is parsed outside. *)

From S2P Require Import Prelude Paths Base Keys Store Aterm.

Definition kRunpathSlack : nat := 48.
Definition kNeededSlack : nat := 80.
Definition kInterpSlack : nat := 12.

Record PackageCcFlags := Package_flags { p_cflags : list str; p_cxxflags : list str; p_ldflags : list str }.

Inductive BinFmt := kElf | kMachO | kCoff.

Record DriverConf := Driver_conf {
  cc : str;
  fc : str;
  binfmt : BinFmt;
  libc : str;
  interp : str;
  crt : str;
  runtimes : str;
  flags : list str;
  cxxflags : list str;
  fflags : list str;
  prefix_map : list str;
  package : PackageCcFlags;
  present : bool;
}.
Definition no_package : PackageCcFlags := Package_flags [] [] [].
Definition default_conf : DriverConf :=
  Driver_conf [] [] kElf [] "ld-linux-x86-64.so.2" [] [] [] [] [] [] no_package false.

Definition IsHostDir (path : str) : bool :=
  starts_with path "/usr" || starts_with path "/lib" || starts_with path "/opt".

(** ** RunpathList *)

Record RunpathList := Runpath_list { verbatim_ : str; entries_ : list str }.

Definition Add (dir : str) (r : RunpathList) : RunpathList :=
  if IsHostDir dir || bool_decide (dir ∈ entries_ r) then r else Runpath_list (verbatim_ r) (entries_ r ++ [dir]).

Definition AddVerbatim (rpath : str) (r : RunpathList) : RunpathList :=
  Runpath_list
    (foldl (λ v part, if IsHostDir part then v else v ++ part ++ lit ":") (verbatim_ r) (Split rpath ":" true))
    (entries_ r).

Definition count_chr (c : ascii) (s : str) : nat := length (List.filter (λ d, d == c) s).

(** [std::string(n, '_')] *)
Definition Render (r : RunpathList) (libs : nat) : str :=
  let out := verbatim_ r ++ concat (map (λ e, e ++ lit "/.:") (entries_ r)) in
  let stores := length (entries_ r) + count_chr ":" (verbatim_ r) in
  out ++ lit "/" ++ replicate (Nat.max stores 1 * kRunpathSlack + libs * kNeededSlack - 1) "_"%char.

(** ** The user's arguments *)

Definition rpath_spellings : list str :=
  [lit "-Wl,-rpath,"; lit "-Wl,--rpath,"; lit "-Wl,-rpath="; lit "-Wl,--rpath="].

Fixpoint strip_first (spellings : list str) (arg : str) : option str :=
  match spellings with
  | [] => None
  | s :: spellings => if starts_with arg s then Some (drop (length s) arg) else strip_first spellings arg
  end.

(** the value, and how many arguments it took *)
Definition TakeRpathArg (args : list str) : option (str * nat) :=
  match args with
  | [] => None
  | arg :: rest =>
      match rest with
      | next :: _ =>
          if ((arg == lit "-Wl,-rpath") || (arg == lit "-Wl,--rpath")) && starts_with next "-Wl,"
          then Some (drop 4 next, 2) else
          match strip_first rpath_spellings arg with
          | Some v => Some (v, 1)
          | None =>
              match rest with
              | a1 :: a2 :: a3 :: _ =>
                  if (arg == lit "-Xlinker") && ((a1 == lit "-rpath") || (a1 == lit "--rpath")) && (a2 == lit "-Xlinker")
                  then Some (a3, 4) else None
              | _ => None
              end
          end
      | [] => (λ v, (v, 1)) <$> strip_first rpath_spellings arg
      end
  end.

Definition IsOutputOnlyMode (arg : str) : bool :=
  bool_decide (arg ∈ [lit "-c"; lit "-E"; lit "-S"; lit "-M"; lit "-MM"; lit "-fsyntax-only"; lit "-###"]).
Definition RefusesLinkPolicy (arg : str) : bool :=
  bool_decide (arg ∈ [lit "-static"; lit "-static-pie"; lit "-r"; lit "-Wl,-r"; lit "-nostartfiles"]).
Definition IsRuntimeLib (lib : str) : bool :=
  bool_decide (lib ∈ [lit "c++"; lit "stdc++"; lit "gcc_s"; lit "unwind"; lit ":libunwind.so"]).

Record UserArgs := User_args {
  u_args : list str;
  u_runpath : RunpathList;
  u_output : str;
  u_linking : bool;
  u_have_input : bool;
  u_shared : bool;
  u_no_policy : bool;
  u_optimizes : bool;
  u_sets_fortify : bool;
}.

Definition IsFortifyArg (arg : str) : bool :=
  starts_with arg "-D_FORTIFY_SOURCE" || (arg == lit "-U_FORTIFY_SOURCE") ||
  starts_with arg "-Wp,-D_FORTIFY_SOURCE" || starts_with arg "-Wp,-U_FORTIFY_SOURCE".

Definition IsPicArg (arg : str) : bool :=
  bool_decide (arg ∈ [lit "-fPIC"; lit "-fpic"; lit "-fPIE"; lit "-fpie"; lit "-fno-PIC"; lit "-fno-pic"; lit "-pie"]).

(** [args] from the index on *)
Definition FlagValue (args : list str) (flag : str) : option str :=
  match args with
  | [] => None
  | arg :: rest =>
      if negb (starts_with arg flag) then None
      else if (length flag <? length arg)%nat then Some (drop (length flag) arg)
      else head rest
  end.

Definition all_digits_dots (s : str) : bool :=
  forallb (λ c, (c == "."%char) || ((48 <=? byte_val c) && (byte_val c <=? 57))%N) s.
Definition IsSharedLibName (base : str) : bool :=
  if ends_with base ".dylib" then true
  else
    match rfind ".so" base with
    | None => false
    | Some pos =>
        match drop (pos + 3) base with
        | [] => true
        | c :: tail => (c == "."%char) && all_digits_dots tail
        end
    end.

(** ** The link policies *)

Record BinFmtPolicy := Policy {
  takes_rpath : bool;
  arg_as : str → option str;
  always : list str;
}.

Definition ElfArg (arg : str) : option str :=
  if starts_with arg "-Wl,--dynamic-linker" || starts_with arg "-Wl,-dynamic-linker" then None else Some arg.

Definition old_standards : list str := [lit "++98"; lit "++03"; lit "++0x"; lit "++11"].
Definition CoffArg (arg : str) : option str :=
  if IsPicArg arg then None
  else if (starts_with arg "-std=c" || starts_with arg "-std=gnu") && existsb (ends_with arg) old_standards
  then Some (take (length arg - 2) arg ++ lit "14") else Some arg.

Definition ElfFlags : list str :=
  [lit "-Wl,--build-id=sha1";
   lit "-Wl,--package-metadata={" ++ [chr_quot] ++ lit "type" ++ [chr_quot] ++ lit ":" ++ [chr_quot] ++ lit "repkgs" ++
     [chr_quot] ++ lit "}"].

Definition PolicyFor (b : BinFmt) : BinFmtPolicy :=
  match b with
  | kElf => Policy true ElfArg ElfFlags
  | kMachO => Policy false Some []
  | kCoff => Policy false CoffArg []
  end.

(** the loop over the raw arguments; [skip] of them were taken with an earlier one *)
Fixpoint scan_loop (policy : BinFmtPolicy) (raw : list str) (skip : nat) (user : UserArgs) : UserArgs :=
  match raw with
  | [] => user
  | arg :: rest =>
      match skip with
      | S k => scan_loop policy rest k user
      | 0 =>
          match (if takes_rpath policy then TakeRpathArg raw else None) with
          | Some (rpath, n) =>
              scan_loop policy rest (n - 1)
                (User_args (u_args user) (AddVerbatim rpath (u_runpath user)) (u_output user) (u_linking user)
                   (u_have_input user) (u_shared user) (u_no_policy user) (u_optimizes user) (u_sets_fortify user))
          | None =>
              let output := default (u_output user) (FlagValue raw "-o") in
              match arg_as policy arg with
              | None =>
                  scan_loop policy rest 0
                    (User_args (u_args user) (u_runpath user) output (u_linking user) (u_have_input user)
                       (u_shared user) (u_no_policy user) (u_optimizes user) (u_sets_fortify user))
              | Some kept =>
                  scan_loop policy rest 0
                    (User_args (u_args user ++ [kept]) (u_runpath user) output
                       (u_linking user && negb (IsOutputOnlyMode arg))
                       (u_have_input user || negb (starts_with arg "-"))
                       (u_shared user || (arg == lit "-shared") || (arg == lit "-dynamiclib"))
                       (u_no_policy user || RefusesLinkPolicy arg)
                       (if starts_with arg "-O" then arg != lit "-O0" else u_optimizes user)
                       (u_sets_fortify user || IsFortifyArg arg))
              end
          end
      end
  end.
Definition ScanUserArgs (raw : list str) (policy : BinFmtPolicy) : UserArgs :=
  scan_loop policy raw 0 (User_args [] (Runpath_list [] []) [] true false false false true false).

Section World.
(** [fs::exists], [fs::canonical], the store *)
Context (exists_ : str → bool) (canonical : str → option str) (st : store).

Definition RealDir (path : str) : str := default path (canonical path).

(** the directories of -L, the names of -l, the directories of libraries given by path, and whether
    the C++ runtime is linked *)
Record link_scan := LinkScan { ls_dirs : list str; ls_libs : list str; ls_runpath : RunpathList; ls_runtime : bool }.

Fixpoint link_loop (args : list str) (s : link_scan) : link_scan :=
  match args with
  | [] => s
  | arg :: rest =>
      let s :=
        match FlagValue args "-L" with
        | Some dir => LinkScan (ls_dirs s ++ [dir]) (ls_libs s) (ls_runpath s) (ls_runtime s)
        | None =>
            match FlagValue args "-l" with
            | Some lib => LinkScan (ls_dirs s) (ls_libs s ++ [lib]) (ls_runpath s) (ls_runtime s || IsRuntimeLib lib)
            | None =>
                if IsStorePath st arg && IsSharedLibName (filename arg)
                then LinkScan (ls_dirs s) (ls_libs s) (Add (parent_path (RealDir arg)) (ls_runpath s)) (ls_runtime s)
                else s
            end
        end in
      let s := if (arg == lit "-nostdlib++") || (arg == lit "-nostdlib")
               then LinkScan (ls_dirs s) (ls_libs s) (ls_runpath s) false else s in
      link_loop rest s
  end.

Definition provides (libs : list str) (dir : str) : bool :=
  existsb (λ lib, exists_ (dir ++ lit "/lib" ++ lib ++ lit ".so") || exists_ (dir ++ lit "/lib" ++ lib ++ lit ".dylib")) libs.

Definition AddRunpathEntries (conf : DriverConf) (cxx : bool) (args : list str) (runpath : RunpathList)
  : nat * RunpathList :=
  let s := link_loop args (LinkScan [] [] runpath cxx) in
  let r := foldl (λ r dir, let real := RealDir dir in
                   if IsStorePath st real && provides (ls_libs s) real then Add real r else r)
             (ls_runpath s) (ls_dirs s) in
  let r := if ls_runtime s && (runtimes conf != []) then Add (runtimes conf) r else r in
  (length (ls_libs s), Add (libc conf ++ lit "/lib") r).

Definition CollectRunpath (conf : DriverConf) (cxx : bool) (user : UserArgs) : nat * RunpathList :=
  AddRunpathEntries conf cxx (u_args user ++ p_ldflags (package conf)) (u_runpath user).

Definition dots : str := concat (replicate kInterpSlack (lit "./")).

(** what a link gets behind the user's arguments *)
Definition ElfLink (conf : DriverConf) (cxx : bool) (user : UserArgs) : list str :=
  let '(libs, runpath) := CollectRunpath conf cxx user in
  [lit "-Wl,--undefined-version"; lit "-Wl,-rpath," ++ Render runpath libs; lit "-Wl,--enable-new-dtags"] ++
  if u_shared user then []
  else
    let libc_lib := libc conf ++ lit "/lib/" in
    if crt conf == [] then [lit "-Wl,--dynamic-linker=" ++ libc_lib ++ interp conf]
    else [lit "-x"; lit "none"; crt conf; lit "-Wl,--dynamic-linker=" ++ libc_lib ++ dots ++ interp conf;
          lit "-Wl,--export-dynamic-symbol=__reloc_start"].
Definition MachOLink : list str := [lit "-Wl,-headerpad_max_install_names"].
Definition link_flags (conf : DriverConf) (cxx : bool) (user : UserArgs) : list str :=
  match binfmt conf with kElf => ElfLink conf cxx user | kMachO => MachOLink | kCoff => [] end.

Fixpoint lib_dirs (args : list str) : list str :=
  match args with
  | [] => []
  | _ :: rest => match FlagValue args "-L" with Some dir => [dir] | None => [] end ++ lib_dirs rest
  end.
Definition tolower (c : ascii) : ascii :=
  let v := byte_val c in if ((65 <=? v) && (v <=? 90))%N then byte_of (v + 32) else c.
Definition coff_present (dirs : list str) (name : str) : bool :=
  existsb (λ dir, exists_ (dir ++ lit "/lib" ++ name ++ lit ".dll.a") || exists_ (dir ++ lit "/lib" ++ name ++ lit ".a") ||
                  exists_ (dir ++ lit "/" ++ name)) dirs.
Definition CoffLibs (conf : DriverConf) (args : list str) : list str :=
  let dirs := lib_dirs args ++ lib_dirs (p_ldflags (package conf)) in
  map (λ arg, if negb (starts_with arg "-l") || contains_chr arg chr_slash || coff_present dirs (drop 2 arg)
              then arg else take 2 arg ++ map tolower (drop 2 arg)) args.

(** [pkgs_prefix_map]: $PKGS_PREFIX_MAP *)
Definition BuildDriverArgs (pkgs_prefix_map : str) (conf : DriverConf) (lang : Language) (raw_args : list str)
  : list str :=
  let cxx := bool_decide (lang = kCxx) in
  let fortran := bool_decide (lang = kFortran) in
  let policy := PolicyFor (binfmt conf) in
  let user := ScanUserArgs raw_args policy in
  let map_flag := λ mapping, lit "-ffile-prefix-map=" ++ mapping in
  let out :=
    [if fortran then lit "-Qunused-arguments" else lit "--start-no-unused-arguments"] ++
    (if fortran then fflags conf else flags conf) ++
    (if fortran then []
     else List.filter (λ flag, negb (IsFortifyArg flag && (u_sets_fortify user || negb (u_optimizes user))))
            (p_cflags (package conf))) ++
    (if cxx then [lit "--driver-mode=g++"] ++ cxxflags conf ++ p_cxxflags (package conf) else []) ++
    (if fortran then [] else map map_flag (prefix_map conf) ++ map map_flag (Split pkgs_prefix_map ":" false)) ++
    always policy ++
    (if fortran then [] else [lit "--end-no-unused-arguments"]) in
  if u_linking user && u_have_input user then
    let args := match binfmt conf with kCoff => CoffLibs conf (u_args user) | _ => u_args user end in
    let user := User_args args (u_runpath user) (u_output user) (u_linking user) (u_have_input user) (u_shared user)
                  (u_no_policy user) (u_optimizes user) (u_sets_fortify user) in
    let tail := p_ldflags (package conf) ++ (if u_no_policy user then [] else link_flags conf cxx user) in
    out ++ u_args user ++ tail
  else out ++ u_args user.
End World.

(** ** The configuration file *)

(** a string (or list of strings) member replaces the default; a list with another element aborts *)
Definition conf_str (doc : list (str * json)) (key into : str) : str :=
  match member key doc with Some (JString s) => s | _ => into end.
Definition conf_list (doc : list (str * json)) (key : str) (into : list str) : outcome (list str) :=
  match member key doc with Some (JArray xs) => get_strings (JArray xs) | _ => Done into end.

(** "@/" of a Fortran flag expands to the prefix *)
Definition expand_fflag (root flag : str) : str :=
  match find "@/" flag with
  | None => flag
  | Some at_pos =>
      if (at_pos =? 0)%nat || ((at_pos =? 2)%nat && starts_with flag "-") || (flag !! (at_pos - 1) == Some "="%char)
      then replace flag at_pos 1 root else flag
  end.

(** [None]: the process exits with status 2 *)
Definition ParseDriverConf (parsed : option json) (root : str) : outcome (option DriverConf) :=
  match parsed with
  | Some (JObject doc) =>
      fl <~ conf_list doc "flags" [] ;;
      cxx <~ conf_list doc "cxxflags" [] ;;
      ff <~ conf_list doc "fflags" [] ;;
      pm <~ conf_list doc "prefix-map" [] ;;
      let fmt := conf_str doc "binfmt" "elf" in
      let conf b := Driver_conf (conf_str doc "cc" []) (conf_str doc "fc" []) b (conf_str doc "libc" [])
                      (conf_str doc "interp" (interp default_conf)) (conf_str doc "crt" []) (conf_str doc "runtimes" [])
                      fl cxx (map (expand_fflag root) ff) pm no_package true in
      Done (if fmt == lit "elf" then Some (conf kElf)
            else if fmt == lit "macho" then Some (conf kMachO)
            else if fmt == lit "coff" then Some (conf kCoff) else None)
  | _ => Done None
  end.

(** $PKGS_CC: the flags of the toolchain at [root]; a null or array document has no member to find *)
Definition PackageFlags (text : str) (parsed : option json) (root : str) : outcome PackageCcFlags :=
  if text == [] then Done no_package
  else
    match parsed with
    | Some (JObject all) =>
        match member root all with
        | None => Done no_package
        | Some entry =>
            let list key := match entry with
                            | JObject ms => match member key ms with None => Done [] | Some v => get_strings v end
                            | _ => Done []
                            end in
            c <~ list (lit "cflags") ;; x <~ list (lit "cxxflags") ;; l <~ list (lit "ldflags") ;;
            Done (Package_flags c x l)
        end
    | _ => Done no_package
    end.

(** [self]: /proc/self/exe; [read]: the file system; [None]: no compiler is named *)
Definition LoadDriverConf (self : option str) (read : str → option str) (parse : str → option json)
    (pkgs_cc jig_cc : str) : outcome (option DriverConf) :=
  let fallback := if jig_cc == [] then None else
    Some (Driver_conf jig_cc [] kElf [] (interp default_conf) [] [] [] [] [] [] no_package false) in
  match self with
  | None => Done fallback
  | Some self =>
      let root := parent_path (parent_path self) in
      match read (root /p/ lit "etc/jig.json") with
      | None => Done fallback
      | Some text =>
          conf <~ ParseDriverConf (parse text) root ;;
          match conf with
          | None => Aborts
          | Some conf =>
              if cc conf == [] then Done None
              else
                pkg <~ PackageFlags pkgs_cc (parse pkgs_cc) root ;;
                Done (Some (Driver_conf (cc conf) (fc conf) (binfmt conf) (libc conf) (interp conf) (crt conf)
                              (runtimes conf) (flags conf) (cxxflags conf) (fflags conf) (prefix_map conf) pkg true))
          end
      end
  end.
