(* ===== verification/CacheFlow.v ===== *)
(** * The cached flow shared by the compiler modes

    Manifests over the cache connection: asking the daemon for identities, looking a request up,
    recording the inputs of a run. The lemmas say what a daemon that keeps the protocol makes of them. *)

From S2P Require Import Prelude Paths Base Keys Store Manifest CacheClient Jigd.

(** the file system a compiler run left: contents and existence *)
Definition world : Type := (str → option str) * (str → bool).

Section Flow.
(** BLAKE3, zstd; the file system: contents, existence *)
Context (blake3 : str → str) (zstd_compress zstd_decompress : str → option str).
Context (read : str → option str) (exists_ : str → bool).
Context {S : Type} `{Peer S}.

(** [PrefetchIdentities] over the connection: the reply to the one question *)
Definition ask_ids (st : store) (paths : list str) : io (list str) :=
  Identities (List.filter (DaemonMayIdentify st) paths).

(** [FindResult] over the connection *)
Definition find_result (tool : Tool) (st : store) (digest : str) : io (expected str * store) := λ c,
  let '(text, c) := Get zstd_decompress (slot_key (Manifest tool digest)) c in
  match text with
  | None => ((Unexpected "new-key", st), c)
  | Some text =>
      let paths := omap (λ e, (λ _, e_path e) <$> e_tab e) (ParseManifest st text) in
      let '(ids, c) := ask_ids st paths c in
      (FindResult blake3 read exists_ (λ _, ids) (λ _, Some text) st tool digest, c)
  end.

(** [BuildManifest] over the connection *)
Definition build_manifest (tool : Tool) (st : store) (digest : str) (inputs : list str) (primary : str) (absent : list str)
    (after : world) : io (str * str * store) := λ c,
  let '(ids, c) := ask_ids st inputs c in
  (BuildManifest blake3 after.1 after.2 (λ _, ids) st (RequestKey tool digest) inputs primary absent, c).

Fixpoint put_each (items : list (str * str)) : io unit := λ c,
  match items with
  | [] => (tt, c)
  | (k, v) :: items => put_each items (Put zstd_compress k v c).2
  end.

End Flow.

(** *** what a prefetch leaves alone *)

Lemma prefetch_fields identities st paths :
  let st' := PrefetchIdentities identities st paths in
  dir_ st' = dir_ st ∧ by_content_ st' = by_content_ st ∧ out_hash_ st' = out_hash_ st.
Proof.
  cbv zeta. unfold PrefetchIdentities. set (l := combine _ _). clearbody l. revert st.
  induction l as [|pi l IH]; intros st; [done|]. cbn [foldl]. destruct (IH (if pi.2 == [] then st else RememberIdentity st pi.1 pi.2))
    as (-> & -> & ->). by destruct (pi.2 == []).
Qed.

Lemma Swap_prefetch identities st paths b back :
  SwapOutHash (PrefetchIdentities identities st paths) b back = SwapOutHash st b back.
Proof.
  destruct (prefetch_fields identities st paths) as (Hd & _ & Ho). unfold SwapOutHash. by rewrite Hd, Ho.
Qed.

Lemma MaskForReplay_prefetch identities st paths t :
  MaskForReplay (PrefetchIdentities identities st paths) t = MaskForReplay st t.
Proof.
  destruct (prefetch_fields identities st paths) as (Hd & Hb & _). unfold MaskForReplay, MaskHashes. by rewrite Hd, Hb.
Qed.

Lemma digest_word (blake3 : str → str) tag bytes :
  forallb (λ c, negb (is_space c)) tag = true → tag ≠ [] → length tag ≤ 10 →
  word (tag ++ Finish blake3 bytes).
Proof.
  intros H1 H2 H3. apply hex_word; [done|done|]. rewrite length_take. unfold kDigestBytes. lia.
Qed.

(** a slot name is a word the protocol can carry *)
Ltac slot_word :=
  match goal with
  | |- word (?tag ++ Finish _ _) =>
      apply (digest_word _ tag); [reflexivity|discriminate|apply Nat.leb_le; reflexivity]
  end.


Lemma put_all_skip (zstd_compress : str → option str) items m key :
  key ∉ items.*1 → put_all zstd_compress items m !! key = m !! key.
Proof.
  revert m. induction items as [|[k v] items IH]; intros m Hk; [done|]. unfold put_all in *. cbn [foldl fst snd].
  rewrite IH by set_solver. by rewrite lookup_insert_ne by set_solver.
Qed.

Section Replay.
Context (blake3 : str → str) (zstd_compress zstd_decompress : str → option str).
Context (lossless : ∀ value frame, zstd_compress value = Some frame → zstd_decompress frame = Some value).
Context {S : Type} `{Hpeer : Peer S, Hdaemon : !CacheDaemon S}.

(** a value the daemon takes and gives back *)
Definition keepable (v : str) : Prop := storable zstd_compress v ∧ (N.of_nat (length v) < 2 ^ 32)%N.

Lemma put_each_faultless items (c : client S) :
  synced c → faultless c → Forall (λ kv, word kv.1 ∧ storable zstd_compress kv.2) items →
  ∃ c', put_each zstd_compress items c = (tt, c') ∧ synced c' ∧ faultless c' ∧
    stored (c_peer c') = put_all zstd_compress items (stored (c_peer c)).
Proof using Type.
  intros Hs Hf Hit. revert c Hs Hf. induction Hit as [|[k v] items [Hk Hv] _ IH]; intros c Hs Hf; [by eexists|].
  cbn [put_each fst snd] in *. destruct (Put_faultless zstd_compress k v c Hs Hf Hk Hv) as (c1 & -> & Hs1 & Hf1 & Hm1).
  cbn [snd]. destruct (IH c1 Hs1 Hf1) as (c2 & -> & Hs2 & Hf2 & Hm2). exists c2. split_and!; [done..|].
  rewrite Hm2, Hm1. done.
Qed.

(** the daemon can be asked for the identities of these paths *)
Definition askable (st : store) (paths : list str) : Prop :=
  Forall short_line (List.filter (DaemonMayIdentify st) paths) ∧
  (N.of_nat (length (List.filter (DaemonMayIdentify st) paths)) ≤ 2 ^ 20)%N.

Definition ids_of (st : store) (paths : list str) : list str :=
  map identity_of (List.filter (DaemonMayIdentify st) paths).

Lemma ask_ids_faultless st paths (c : client S) :
  synced c → faultless c → askable st paths →
  ∃ c', ask_ids st paths c = (ids_of st paths, c') ∧ synced c' ∧ faultless c' ∧
    stored (c_peer c') = stored (c_peer c).
Proof using Type. intros Hs Hf [H1 H2]. by apply Identities_faultless. Qed.

(** what a run recorded: the files it read, the primary one among them, those it looked for in vain *)
Record trail := Trail { t_inputs : list str; t_primary : str; t_absent : list str }.

(** the manifest a build writes, its result key, and the store after the daemon's identities *)
Definition manifest_of (tool : Tool) (digest : str) (t : trail) (after : world) (st : store) : str * str * store :=
  BuildManifest blake3 after.1 after.2 (λ _, ids_of st (t_inputs t)) st (RequestKey tool digest) (t_inputs t)
    (t_primary t) (t_absent t).

(** the paths a reader has to identify *)
Definition manifest_paths (st : store) (text : str) : list str :=
  omap (λ e, (λ _, e_path e) <$> e_tab e) (ParseManifest st text).

(** every recorded input still has its identity, every path recorded as absent still is *)
Definition unchanged (t : trail) (after : world) (stW : store)
    (readR : str → option str) (existsR : str → bool) (stR : store) (text : str) : Prop :=
  let st1 := PrefetchIdentities (λ _, ids_of stW (t_inputs t)) stW (t_inputs t) in
  let paths := manifest_paths stR text in
  let st2 := PrefetchIdentities (λ _, ids_of stR paths) stR paths in
  (∀ p id, recorded blake3 after.1 st1 (t_inputs t) (t_primary t) p id →
     InputId blake3 readR st2 (here stR stW p) = Some id) ∧
  (∀ p, recorded_absent after.2 st1 (t_absent t) p → existsR (here stR stW p) = false).

Lemma manifest_key tool digest t after stW text key st1 :
  manifest_of tool digest t after stW = (text, key, st1) → ∃ kbytes, key = Finish blake3 kbytes.
Proof using Type. unfold manifest_of, BuildManifest, result_key. intros [= _ <- _]. by eexists. Qed.

Lemma manifest_store tool digest t after stW text key st1 :
  manifest_of tool digest t after stW = (text, key, st1) →
  st1 = PrefetchIdentities (λ _, ids_of stW (t_inputs t)) stW (t_inputs t).
Proof using Type. unfold manifest_of, BuildManifest. by intros [= _ _ <-]. Qed.

Lemma build_manifest_faultless tool digest t after stW text key st1 (c : client S) :
  manifest_of tool digest t after stW = (text, key, st1) → askable stW (t_inputs t) → synced c → faultless c →
  ∃ c', build_manifest blake3 tool stW digest (t_inputs t) (t_primary t) (t_absent t) after c = ((text, key, st1), c') ∧
    synced c' ∧ faultless c' ∧ stored (c_peer c') = stored (c_peer c).
Proof using Type.
  intros Hm Ha Hs Hf. unfold build_manifest. destruct (ask_ids_faultless stW (t_inputs t) c Hs Hf Ha) as (c1 & -> & H).
  unfold manifest_of in Hm. rewrite Hm. by exists c1.
Qed.

Lemma keepable_back v : keepable v → Decompress zstd_decompress (Compress zstd_compress v) = Some v.
Proof. intros [[Hz _] Hl]. by apply (Decompress_Compress zstd_compress zstd_decompress lossless). Qed.

Lemma slot_words tool bytes kbytes :
  word (slot_key (Manifest tool (Finish blake3 bytes))) ∧
  Forall word (slot_key <$> [Object (Finish blake3 kbytes); Stderr (Finish blake3 kbytes); Depfile (Finish blake3 kbytes);
    ExitStatus (Finish blake3 kbytes)]).
Proof using Type.
  split.
  - destruct tool; cbn [slot_key RequestKey]; [apply (digest_word _ (lit "m/"))|apply (digest_word _ (lit "m/rs/"))];
      first [reflexivity|discriminate|apply Nat.leb_le; reflexivity].
  - repeat (apply Forall_cons; split; [cbn [slot_key]; by slot_word|]). constructor.
Qed.

Context (readR : str → option str) (existsR : str → bool).

(** a reader's lookup: its verdict says exactly whether the trail is unchanged *)
Lemma find_result_verdict tool bytes t after stW stR text key st1 (c : client S) :
  let digest := Finish blake3 bytes in
  manifest_of tool digest t after stW = (text, key, st1) →
  line_safe blake3 after.1 after.2 st1 (t_inputs t) (t_primary t) (t_absent t) →
  synced c → faultless c → keepable text →
  stored (c_peer c) !! slot_key (Manifest tool digest) = Some (Compress zstd_compress text) →
  askable stR (manifest_paths stR text) →
  ∃ verdict st2 c1, find_result blake3 zstd_decompress readR existsR tool stR digest c = ((verdict, st2), c1) ∧
    synced c1 ∧ faultless c1 ∧ stored (c_peer c1) = stored (c_peer c) ∧
    (∀ b back, SwapOutHash st2 b back = SwapOutHash stR b back) ∧
    (∀ k, verdict = Ok k ↔ k = key ∧ unchanged t after stW readR existsR stR text).
Proof.
  intros digest Hman Hsafe Hs Hf Hk Hm Ha. unfold find_result.
  destruct (Get zstd_decompress (slot_key (Manifest tool digest)) c) as [r c1] eqn:E.
  apply (Get_spec zstd_decompress) in E as [_ E]; [|done|apply (slot_words tool bytes [])].
  destruct (E Hf) as (-> & Hs1 & Hf1 & Hm1). rewrite Hm. cbn [mbind option_bind]. rewrite (keepable_back text Hk).
  destruct (ask_ids_faultless stR (manifest_paths stR text) c1 Hs1 Hf1 Ha) as (c2 & E2 & Hs2 & Hf2 & Hm2).
  unfold manifest_paths in E2 at 1. rewrite E2. unfold FindResult.
  destruct (ValidateManifest _ _ _ _ _ _ _) as [verdict st2] eqn:Ev. exists verdict, st2, c2.
  split_and!; [done|done|done|by rewrite Hm2| |].
  - intros b back. unfold ValidateManifest in Ev. injection Ev as _ <-. apply Swap_prefetch.
  - intros k. pose proof (manifest_validates blake3 after.1 readR after.2 existsR (λ _, ids_of stW (t_inputs t))
      (λ _, ids_of stR (manifest_paths stR text)) stW stR (RequestKey tool digest) (t_inputs t) (t_primary t)
      (t_absent t) k) as Hv.
    unfold manifest_of in Hman. rewrite Hman, Ev in Hv. rewrite (Hv Hsafe). apply and_iff_compat_l. unfold unchanged.
    unfold BuildManifest in Hman. injection Hman as _ _ <-. unfold ValidateManifest in Ev. injection Ev as _ <-. done.
Qed.
End Replay.
