(* ===== verification/CcMode.v ===== *)
(** * cc_mode.h, cc_mode.cc: the cached C and C++ compiler

    [ParseInvocation] and [Classify], the request key, [Lookup], [Replay], [RunObserved],
    [CompileAndStore] and [RunCcMode]. The compiler is a parameter: what its run returned and which
    files it left. So are the file system, BLAKE3 and zstd; the daemon is any [Peer] behind the cache
    connection. Files written, output and log lines are the effects of a run. *)

From S2P Require Import Prelude Paths Base Keys Store Manifest CacheClient Process CacheFlow Aterm Driver.

(** ** What an argument is *)

Definition HasSuffix (arg : str) (suffixes : list str) : bool :=
  existsb (λ suffix, (length suffix <? length arg)%nat && ends_with arg suffix) suffixes.

Definition IsAssembly (path : str) : bool := HasSuffix path [lit ".S"; lit ".s"; lit ".sx"].
Definition IsPlainAssembly (path : str) : bool := HasSuffix path [lit ".s"].
Definition IsSourceFile (arg : str) : bool :=
  negb (starts_with arg "-") &&
  HasSuffix arg [lit ".c"; lit ".cc"; lit ".cpp"; lit ".cxx"; lit ".c++"; lit ".C"; lit ".S"; lit ".s"; lit ".sx"; lit ".m"].
Definition IsObjectInput (arg : str) : bool :=
  negb (starts_with arg "-") &&
  (HasSuffix arg [lit ".o"; lit ".os"; lit ".lo"; lit ".a"; lit ".so"; lit ".obj"] || contains arg ".so.").
Definition kMarkers : list str :=
  [lit "-Map"; lit "--print-map"; lit ",-M,"; lit "--dependency-file"; lit "--out-implib"; lit "--trace"; lit ",-t,";
   lit "--verbose"; lit "--print-gc-sections"; lit "--stats"].
Definition HasLinkerSideOutput (arg : str) : bool :=
  (starts_with arg "-Wl," || starts_with arg "-Xlinker") &&
  (existsb (contains arg) kMarkers || ends_with arg ",-M" || ends_with arg ",-t").
Definition IsNoOutputOption (arg : str) : bool :=
  bool_decide (arg ∈ [lit "-M"; lit "-MM"; lit "-"; lit "-v"; lit "-V"; lit "--version"; lit "-###"; lit "-fsyntax-only"]) ||
  starts_with arg "-print" || starts_with arg "--print" || starts_with arg "-dump".

(** [path::extension], [path::stem], [path::replace_extension] *)
Definition ext_pos (name : str) : nat :=
  if (name == lit ".") || (name == lit "..") then length name
  else match rfind "." name with
       | Some 0 | None => length name
       | Some i => i
       end.
Definition extension (p : str) : str := drop (ext_pos (filename p)) (filename p).
Definition stem (p : str) : str := take (ext_pos (filename p)) (filename p).
Definition replace_extension (p ext : str) : str := take (length p - length (extension p)) p ++ ext.

(** ** Invocation *)

Record Invocation := Invoke {
  i_args : list str;
  i_key_args : list str;
  i_source : str;
  i_inputs : list str;
  i_pch : list str;
  i_output : str;
  i_compile_only : bool;
  i_to_stdout : bool;
  i_link_one : bool;
  i_link : bool;
  i_cacheable : bool;
  i_query : bool;
  i_wants_depfile : bool;
  i_depfile : str;
  i_depfile_target : str;
}.

Definition with_key_args (inv : Invocation) (more : list str) : Invocation :=
  Invoke (i_args inv) (i_key_args inv ++ more) (i_source inv) (i_inputs inv) (i_pch inv) (i_output inv)
    (i_compile_only inv) (i_to_stdout inv) (i_link_one inv) (i_link inv) (i_cacheable inv) (i_query inv)
    (i_wants_depfile inv) (i_depfile inv) (i_depfile_target inv).
Definition with_output (inv : Invocation) (output : str) : Invocation :=
  Invoke (i_args inv) (i_key_args inv) (i_source inv) (i_inputs inv) (i_pch inv) output
    (i_compile_only inv) (i_to_stdout inv) (i_link_one inv) (i_link inv) (i_cacheable inv) (i_query inv)
    (i_wants_depfile inv) (i_depfile inv) (i_depfile_target inv).
Definition with_source (inv : Invocation) (source : str) : Invocation :=
  Invoke (i_args inv) (i_key_args inv) source (i_inputs inv) (i_pch inv) (i_output inv)
    (i_compile_only inv) (i_to_stdout inv) (i_link_one inv) (i_link inv) (i_cacheable inv) (i_query inv)
    (i_wants_depfile inv) (i_depfile inv) (i_depfile_target inv).
Definition with_flags (inv : Invocation) (compile_only cacheable query : bool) : Invocation :=
  Invoke (i_args inv) (i_key_args inv) (i_source inv) (i_inputs inv) (i_pch inv) (i_output inv)
    compile_only (i_to_stdout inv) (i_link_one inv) (i_link inv) cacheable query
    (i_wants_depfile inv) (i_depfile inv) (i_depfile_target inv).
Definition with_inputs (inv : Invocation) (inputs pch : list str) : Invocation :=
  Invoke (i_args inv) (i_key_args inv) (i_source inv) (i_inputs inv ++ inputs) (i_pch inv ++ pch) (i_output inv)
    (i_compile_only inv) (i_to_stdout inv) (i_link_one inv) (i_link inv) (i_cacheable inv) (i_query inv)
    (i_wants_depfile inv) (i_depfile inv) (i_depfile_target inv).
Definition with_depfile (inv : Invocation) (depfile target : str) : Invocation :=
  Invoke (i_args inv) (i_key_args inv) (i_source inv) (i_inputs inv) (i_pch inv) (i_output inv)
    (i_compile_only inv) (i_to_stdout inv) (i_link_one inv) (i_link inv) (i_cacheable inv) (i_query inv)
    true depfile target.

(** the new invocation and how many further arguments were taken *)
Definition TakeDepfileOption (arg : str) (rest : list str) (inv : Invocation) : option (Invocation * nat) :=
  match rest with
  | next :: _ =>
      if arg == lit "-MF" then Some (with_depfile inv next (i_depfile_target inv), 1)
      else if (arg == lit "-MT") || (arg == lit "-MQ") then Some (with_depfile inv (i_depfile inv) next, 1)
      else if starts_with arg "-Wp,-MD," || starts_with arg "-Wp,-MMD," then
        Some (with_depfile inv (match find_from "," arg 5 with Some i => drop (i + 1) arg | None => arg end)
                (i_depfile_target inv), 0)
      else if (arg == lit "-MD") || (arg == lit "-MMD") || (arg == lit "-MP") then
        Some (with_depfile inv (i_depfile inv) (i_depfile_target inv), 0)
      else None
  | [] =>
      if starts_with arg "-Wp,-MD," || starts_with arg "-Wp,-MMD," then
        Some (with_depfile inv (match find_from "," arg 5 with Some i => drop (i + 1) arg | None => arg end)
                (i_depfile_target inv), 0)
      else if (arg == lit "-MD") || (arg == lit "-MMD") || (arg == lit "-MP") then
        Some (with_depfile inv (i_depfile inv) (i_depfile_target inv), 0)
      else None
  end.

(** the "-Xclang" words in front of the file of -include-pch *)
Fixpoint xclangs (rest : list str) : nat :=
  match rest with
  | a :: rest' => if a == lit "-Xclang" then S (xclangs rest') else 0
  | [] => 0
  end.
Definition TakePchOption (arg : str) (rest : list str) (inv : Invocation) : option (Invocation * nat) :=
  if arg != lit "-include-pch" then None
  else
    let n := xclangs rest in
    let inv := with_key_args inv (arg :: take n rest) in
    match rest !! n with
    | Some file => Some (with_inputs (with_key_args inv [file]) [] [file], S n)
    | None => Some (inv, n)
    end.

Record scan := Scan { s_inv : Invocation; s_objects : bool; s_sources : nat; s_stop : option ascii }.
Definition map_inv (s : scan) (inv : Invocation) : scan := Scan inv (s_objects s) (s_sources s) (s_stop s).

(** the body of the loop of [ParseInvocation] *)
Definition take_arg (arg : str) (rest : list str) (s : scan) : scan * nat :=
  let inv := s_inv s in
  match TakeDepfileOption arg rest inv with
  | Some (inv, n) => (map_inv s inv, n)
  | None =>
      if (arg == lit "-c") || (arg == lit "-S") || (arg == lit "-E") then
        (Scan (with_key_args (with_flags inv true (i_cacheable inv) (i_query inv)) [arg]) (s_objects s) (s_sources s)
           (arg !! 1), 0)
      else
        match (if arg == lit "-o" then head rest else None) with
        | Some out => (map_inv s (with_output inv out), 1)
        | None =>
            if starts_with arg "-o" && (2 <? length arg)%nat then (map_inv s (with_output inv (drop 2 arg)), 0)
            else if IsNoOutputOption arg then (map_inv s (with_flags inv (i_compile_only inv) false true), 0)
            else if IsSourceFile arg then (Scan (with_source inv arg) (s_objects s) (S (s_sources s)) (s_stop s), 0)
            else
              match TakePchOption arg rest inv with
              | Some (inv, n) => (map_inv s inv, n)
              | None =>
                  if IsObjectInput arg then
                    (Scan (with_key_args (with_inputs inv [arg] []) [arg]) true (s_sources s) (s_stop s), 0)
                  else
                    let ok := negb (starts_with arg "@") && negb (contains arg ",@") && negb (HasLinkerSideOutput arg) &&
                              negb (ends_with arg "-header") in
                    (Scan (with_key_args (with_flags inv (i_compile_only inv) (i_cacheable inv && ok) (i_query inv)) [arg])
                       (s_objects s || (arg == lit "-shared") || (arg == lit "-r")) (s_sources s) (s_stop s), 0)
              end
        end
  end.

Fixpoint parse_loop (args : list str) (skip : nat) (s : scan) : scan :=
  match args with
  | [] => s
  | arg :: rest =>
      match skip with
      | S k => parse_loop rest k s
      | 0 => let '(s, n) := take_arg arg rest s in parse_loop rest n s
      end
  end.

(** [tmpdir], [pid]: for the temporary file of a run that prints *)
Definition Classify (tmpdir : str) (pid : nat) (inv : Invocation) (sources : nat) (objects : bool) (stop : option ascii)
  : Invocation :=
  let is_e := stop == Some "E"%char in
  let inv :=
    if i_compile_only inv then
      let query := i_query inv || (is_e && ((sources =? 0)%nat || (i_source inv == lit "/dev/null"))) in
      let printed := is_e && ((i_output inv == []) || (i_output inv == lit "-")) in
      let output :=
        if printed then tmpdir /p/ (lit "jig" ++ to_string pid ++ lit ".i")
        else if i_output inv == [] then stem (i_source inv) ++ (if stop == Some "S"%char then lit ".s" else lit ".o")
        else i_output inv in
      Invoke (i_args inv) (i_key_args inv) (i_source inv) (i_inputs inv) (i_pch inv) output true
        (i_to_stdout inv || printed) (i_link_one inv) (i_link inv) (i_cacheable inv && (sources =? 1)%nat) query
        (i_wants_depfile inv) (i_depfile inv) (i_depfile_target inv)
    else
      let link_one := negb objects && (sources =? 1)%nat in
      let link := objects && (sources =? 0)%nat && (i_inputs inv != []) in
      let output := if i_output inv == [] then lit "a.out" else i_output inv in
      Invoke (i_args inv) (i_key_args inv) (if link then filename output else i_source inv) (i_inputs inv) (i_pch inv)
        output false (i_to_stdout inv) link_one link (i_cacheable inv && (link_one || link)) (i_query inv)
        (i_wants_depfile inv) (i_depfile inv) (i_depfile_target inv) in
  if i_wants_depfile inv && (i_depfile inv == []) then
    with_depfile inv (replace_extension (i_output inv) ".d") (i_depfile_target inv)
  else inv.

Definition no_invocation (args : list str) : Invocation :=
  Invoke args [] [] [] [] [] false false false false true false false [] [].

Definition ParseInvocation (tmpdir : str) (pid : nat) (args : list str) : Invocation :=
  let s := parse_loop args 0 (Scan (no_invocation args) false 0 None) in
  let inv := s_inv s in
  let ok := (extension (i_output inv) != lit ".pch") && (extension (i_output inv) != lit ".gch") &&
            (i_output inv != lit "/dev/null") in
  Classify tmpdir pid (with_flags inv (i_compile_only inv) (i_cacheable inv && ok) (i_query inv))
    (s_sources s) (s_objects s) (s_stop s).

(** ** Keys and results *)

(** what a hit has to reproduce *)
Record CachedResult := Cached { r_status : N; r_object : option str; r_depfile : option str; r_stderr : str }.

Definition RetargetDepfile (text : str) (inv : Invocation) : str :=
  let target := if i_depfile_target inv == [] then i_output inv else i_depfile_target inv in
  match find ": " text with
  | None => text
  | Some colon =>
      if match find nl text with None => true | Some n => (colon <? n)%nat end
      then replace text 0 colon target else text
  end.

(** what a run does to the world *)
Inductive effect :=
| WroteFile (path bytes : str)
| MadeExecutable (path : str)
| RemovedFile (path : str)
| Printed (text : str)
| PrintedErr (text : str)
| Appended (path text : str)
| Logged (tool : str) (outcome : Outcome) (subject : str).

Definition ForwardStdout (inv : Invocation) (text : option str) : list effect :=
  if negb (i_to_stdout inv) then []
  else RemovedFile (i_output inv) :: match text with Some t => [Printed t] | None => [] end.

Section Build.
(** BLAKE3, zstd; the file system of this build: contents, existence, canonical paths, the regular
    files of a directory, what $PATH makes of a command; the working directory *)
Context (blake3 : str → str) (zstd_compress zstd_decompress : str → option str).
Context (read : str → option str) (exists_ : str → bool) (canonical : str → option str)
        (dir_files : str → list str) (OnPath : str → str) (cwd : str).
Context {S : Type} `{Peer S}.

Definition mode_field (inv : Invocation) : str :=
  if i_link inv then lit "mode=link" else if i_link_one inv then lit "mode=link-one" else lit "mode=compile".
Definition links (inv : Invocation) : bool := i_link_one inv || i_link inv.

Definition key_arg (st : store) (inv : Invocation) (arg : str) : str :=
  if links inv && (contains arg "dynamic-linker" || contains arg "rpath") then MaskOut st arg
  else Key st (MaskOut st arg).

(** the fields the request key hashes, in order *)
Definition request_fields (st : store) (library_path compiler : str) (inv : Invocation) (primary : str) : list str :=
  [lit "cc=" ++ ToolId canonical st compiler; lit "cwd=" ++ Key st cwd] ++
  (if i_link inv then [] else [lit "src=" ++ Key st (MaskOut st (i_source inv))]) ++
  [mode_field inv] ++
  (if links inv then [lit "LIBRARY_PATH=" ++ MaskForReplay st library_path] else []) ++
  map (key_arg st inv) (i_key_args inv) ++ [MaskOut st primary].
Definition ComputeRequestKey (st : store) (library_path compiler : str) (inv : Invocation) (primary : str) : str :=
  Finish blake3 (fields (request_fields st library_path compiler inv primary)).

Definition kLdPath : str := "--ld-path=".
Definition is_toolchain_lib (name : str) : bool :=
  starts_with name "libLLVM" || starts_with name "libclang-cpp" || starts_with name "liblld".
(** sorted, without duplicates *)
Fixpoint unique (xs : list str) : list str :=
  match xs with
  | a :: (b :: _) as rest => if a == b then unique rest else a :: unique rest
  | _ => xs
  end.
Definition toolchain_files (compiler : str) (inv : Invocation) : list str :=
  let tools := OnPath compiler ::
    (if links inv then omap (λ arg, if starts_with arg kLdPath then Some (drop (length kLdPath) arg) else None) (i_args inv)
     else []) in
  unique (NixHash.sort_strings (concat (map (λ tool,
    match canonical tool with
    | None => []
    | Some real =>
        real :: List.filter (λ f, is_toolchain_lib (filename f)) (dir_files (parent_path (parent_path real) /p/ lit "lib"))
    end) tools))).
Definition ToolchainIds (compiler : str) (inv : Invocation) (st : store) : io (str * store) := λ c,
  let files := toolchain_files compiler inv in
  let '(ids, c) := ask_ids st files c in
  let st := PrefetchIdentities (λ _, ids) st files in
  ((concat (map (λ f, default (lit "?") (InputId blake3 read st f) ++ lit ",") files), st), c).

Fixpoint pch_ids (st : store) (pch : list str) (text : str) : option str :=
  match pch with
  | [] => Some text
  | p :: pch => match InputId blake3 read st p with
                | Some id => pch_ids st pch (text ++ nl ++ lit "pch=" ++ id)
                | None => None
                end
  end.
Fixpoint link_ids (st : store) (inputs : list str) (ids : str) : option str :=
  match inputs with
  | [] => Some ids
  | i :: inputs => match InputId blake3 read st i with
                   | Some id => link_ids st inputs (ids ++ i ++ lit "=" ++ id ++ nl)
                   | None => None
                   end
  end.
Definition PrimaryIdentity (st : store) (inv : Invocation) : option str :=
  if i_link inv then link_ids st (i_inputs inv) []
  else match read (i_source inv) with None => None | Some text => pch_ids st (i_pch inv) text end.

Definition result_slots (key : str) : list str :=
  [slot_key (ExitStatus key); slot_key (Object key); slot_key (Depfile key); slot_key (Stderr key)].

Definition answer (st : store) (inv : Invocation) (status object depfile stderr_text : option str)
  : expected CachedResult :=
  let stat := if negb (links inv) then match status with
                | Some s => default 1%N (ParseUint s 10) mod 2 ^ 32
                | None => 0 end%N else 0%N in
  let err := UnmaskOut st (default [] stderr_text) in
  if (stat =? 0)%N then
    match object with
    | None => Unexpected "object-gone"
    | Some object =>
        if i_wants_depfile inv then
          match depfile with
          | None => Unexpected "object-gone"
          | Some d => Ok (Cached stat (Some (UnmaskOut st object)) (Some (UnmaskOut st d)) err)
          end
        else Ok (Cached stat (Some (UnmaskOut st object)) None err)
    end
  else Ok (Cached stat None None err).

Definition Lookup (st : store) (digest : str) (inv : Invocation) : io (expected CachedResult * store) := λ c,
  let '((verdict, st), c) := find_result blake3 zstd_decompress read exists_ kCc st digest c in
  match verdict with
  | Unexpected why => ((Unexpected why, st), c)
  | Ok key =>
      let '(got, c) := GetMany zstd_decompress (result_slots key) c in
      match got with
      | [status; object; depfile; stderr_text] => ((answer st inv status object depfile stderr_text, st), c)
      | _ => ((Unexpected "object-gone", st), c)
      end
  end.

(** [write_error]: the message of a write that fails *)
Definition cannot_write (path message : str) : effect :=
  PrintedErr (lit "jig: cannot write " ++ path ++ lit ": " ++ message ++ nl).
Definition Replay (write_error : str → option str) (st : store) (result : CachedResult) (inv : Invocation)
  : N * list effect :=
  let finish := λ effects,
    match r_depfile result with
    | Some d =>
        match write_error (i_depfile inv) with
        | None => (r_status result, effects ++ [WroteFile (i_depfile inv) (RetargetDepfile (ResolveAll st d) inv);
                                                PrintedErr (r_stderr result)])
        | Some message => (1%N, effects ++ [cannot_write (i_depfile inv) message])
        end
    | None => (r_status result, effects ++ [PrintedErr (r_stderr result)])
    end in
  if i_to_stdout inv then finish (ForwardStdout inv (r_object result))
  else
    match r_object result with
    | None => finish []
    | Some object =>
        match write_error (i_output inv) with
        | Some message => (1%N, [cannot_write (i_output inv) message])
        | None => finish (WroteFile (i_output inv) object :: if links inv then [MadeExecutable (i_output inv)] else [])
        end
    end.

(** ** Running the compiler *)

Record Observed := Obs {
  o_run : RunResult;
  o_dep_text : option str;
  o_link_dep_text : option str;
  o_inputs : list str;
  o_absent : list str;
}.

Definition tmp_base (pid : nat) (inv : Invocation) : str :=
  let dir := parent_path (i_output inv) in
  (if dir == [] then lit "." else dir) /p/ (lit ".jig" ++ to_string pid).
Definition own_depfile (inv : Invocation) : bool := negb (i_wants_depfile inv) && negb (i_link inv).
Definition depfile_of (pid : nat) (inv : Invocation) : str :=
  if own_depfile inv then tmp_base pid inv ++ lit ".d" else i_depfile inv.

(** the command line of the observed run *)
Definition observed_args (pid : nat) (inv : Invocation) : list str :=
  i_args inv ++
  (if own_depfile inv && negb (IsPlainAssembly (i_source inv)) then [lit "-MD"; lit "-MF"; depfile_of pid inv]
   else if negb (own_depfile inv) && negb (i_link inv) && negb (IsAssembly (i_source inv))
   then [lit "-Xclang"; lit "-sys-header-deps"] else []) ++
  (if i_to_stdout inv then [lit "-o"; i_output inv] else []) ++
  (if links inv then [lit "-Wl,--dependency-file=" ++ tmp_base pid inv ++ lit ".link.d"] else []).

(** what it prints, and the temporary files it removes once they are read *)
Definition observed_effects (pid : nat) (inv : Invocation) (run : RunResult) : list effect :=
  [PrintedErr (stderr_text run); RemovedFile (tmp_base pid inv ++ lit ".absent")] ++
  (if own_depfile inv then [RemovedFile (depfile_of pid inv)] else []) ++
  [RemovedFile (tmp_base pid inv ++ lit ".link.d")].

(** the driver's temporary object, directly in the temporary directory *)
Definition driver_temp (tmp input : str) : bool :=
  starts_with input tmp && bool_decide (find_from "/" input (length tmp) = None).

(** [run] and [after]: the compiler's result and the file system it left *)
Definition RunObserved (pid : nat) (temp_directory : str) (inv : Invocation) (run : RunResult)
    (after : str → option str) : Observed :=
  let dep_text :=
    if i_link inv then Some []
    else if own_depfile inv && IsPlainAssembly (i_source inv) then Some (lit "o: " ++ i_source inv)
    else after (depfile_of pid inv) in
  let link_dep_text := if links inv then after (tmp_base pid inv ++ lit ".link.d") else None in
  let absent := match after (tmp_base pid inv ++ lit ".absent") with Some text => Split text chr_nl false | None => [] end in
  let inputs := match dep_text with Some t => ParseDepfile t | None => [] end ++
    match link_dep_text with
    | Some t => List.filter (λ i, negb (driver_temp (temp_directory ++ lit "/") i)) (ParseDepfile t)
    | None => []
    end in
  Obs run dep_text link_dep_text inputs absent.

(** what follows the observed run *)
Definition CompileAndStore (pid : nat) (digest : str) (inv : Invocation) (why : str) (obs : Observed) (after : world)
    (st : store) : io (N * list effect * store) := λ c,
  let subject := i_source inv ++ lit " " ++ why in
  let run := o_run obs in
  let seen := observed_effects pid inv run in
  let object := after.1 (i_output inv) in
  if negb (status run =? 0)%N then
    let fwd := seen ++ ForwardStdout inv None in
    if negb (bool_decide (is_Some (o_dep_text obs))) || links inv || contains (stderr_text run) "file not found" ||
       negb (Deterministic run)
    then ((status run, fwd ++ [Logged "cc" kMissFail subject], st), c)
    else
      let '((text, key, st), c) := build_manifest blake3 kCc st digest (o_inputs obs) (i_source inv) (o_absent obs) after c in
      let '(_, c) := put_each zstd_compress [(slot_key (Manifest kCc digest), text);
                               (slot_key (ExitStatus key), fmt_uint 10 (status run));
                               (slot_key (Stderr key), MaskOut st (stderr_text run))] c in
      ((status run, fwd ++ [Logged "cc" kMissStoredFail subject], st), c)
  else
    let fwd := seen ++ ForwardStdout inv object in
    match o_dep_text obs, object with
    | Some dep_text, Some object =>
        if links inv && negb (bool_decide (is_Some (o_link_dep_text obs)))
        then ((0%N, fwd ++ [Logged "cc" kMissUnstored subject], st), c)
        else
          let '((text, key, st), c) := build_manifest blake3 kCc st digest (o_inputs obs) (i_source inv) (o_absent obs) after c in
          let '(_, c) := put_each zstd_compress
            ([(slot_key (Manifest kCc digest), text); (slot_key (Object key), MaskOut st object);
              (slot_key (Stderr key), MaskOut st (stderr_text run))] ++
             (if i_wants_depfile inv then [(slot_key (Depfile key), MaskOut st (MaskForReplay st dep_text))] else [])) c in
          ((0%N, fwd ++ [Logged "cc" kMissStored subject], st), c)
    | _, _ => ((0%N, fwd ++ [Logged "cc" kMissUnstored subject], st), c)
    end.

Definition uncached_outcome (inv : Invocation) (has_primary : bool) : Outcome :=
  if i_query inv then kPlainQuery
  else if negb (i_cacheable inv) then (if i_compile_only inv then kPlainCompile else kPlainLink)
  else if negb has_primary then kPlainNoSource else kPlainNoSocket.

(** which language an argv[0] stands for *)
Definition language_of (argv0 : str) : Language :=
  let name := filename argv0 in
  if contains name "++" then kCxx
  else if contains name "fortran" || contains name "flang" then kFortran else kC.

(** the invocation with the real command line; what the policy added is part of the key *)
Definition prepare (st : store) (pkgs_prefix_map tmpdir : str) (pid : nat) (conf : DriverConf) (lang : Language)
    (user_args : list str) : Invocation :=
  let inv := ParseInvocation tmpdir pid user_args in
  let inv :=
    if ((i_link inv || i_link_one inv) && negb (match binfmt conf with kElf => true | _ => false end)) ||
       bool_decide (lang = kFortran)
    then with_flags inv (i_compile_only inv) false (i_query inv) else inv in
  if present conf then
    let args := BuildDriverArgs exists_ canonical st pkgs_prefix_map conf lang user_args in
    let added := List.filter (λ a, negb (bool_decide (a ∈ user_args))) args in
    Invoke args (i_key_args inv ++ added) (i_source inv) (i_inputs inv) (i_pch inv) (i_output inv) (i_compile_only inv)
      (i_to_stdout inv) (i_link_one inv) (i_link inv) (i_cacheable inv) (i_query inv) (i_wants_depfile inv)
      (i_depfile inv) (i_depfile_target inv)
  else inv.

(** one call of the compiler on some arguments: its result and the file system it leaves *)
Definition compiler_run : Type := StderrMode → str → list str → RunResult * world.

(** the environment and the process *)
Record process := Proc {
  e_library_path : str;
  e_prefix_map : str;
  e_tmpdir : str;              (* $TMPDIR or /tmp *)
  e_temp_directory : str;      (* fs::temp_directory_path() *)
  e_jig_slot : str;
  e_build_top : option str;
  e_log_args : str;            (* $JIG_LOG_ARGS *)
  e_pid : nat;
}.

Definition LogUncached (log_args : str) (outcome : Outcome) (user_args : list str) : list effect :=
  if log_args == [] then []
  else if bool_decide (outcome = kPlainQuery) then []
  else [Appended log_args (OutcomeName outcome ++ [chr_tab] ++ Join user_args " " ++ nl)].

(** [RunUncached]; probes take no slot *)
Definition RunUncached (e : process) (compile : compiler_run) (socket_path : str) (connects : option S)
    (compiler : str) (inv : Invocation) (has_primary : bool) (user_args : list str) : io (N * list effect) := λ c,
  let work := (i_source inv != []) || (i_inputs inv != []) in
  let '(slot, c) := if work then Slot_open (e_jig_slot e) (e_build_top e) socket_path connects c else (None, c) in
  let '(run, _) := compile kInherit compiler (i_args inv) in
  let '(_, c) := Slot_close slot c in
  let outcome := uncached_outcome inv has_primary in
  ((status run, Logged "cc" outcome (i_source inv) :: LogUncached (e_log_args e) outcome user_args), c).

(** everything from the parsed configuration on *)
Definition RunCcMode (e : process) (compile : compiler_run) (write_error : str → option str) (conf : option DriverConf)
    (argv0 : str) (raw_args : list str) (socket_path : str) (connects : option S) (st : store)
  : io (N * list effect * store) := λ c,
  let user_args := ExpandResponseFiles read raw_args in
  match conf with
  | None => ((1%N, [PrintedErr (lit "jig: no etc/jig.json next to the binary and JIG_CC unset" ++ nl)], st), c)
  | Some conf =>
      let lang := language_of argv0 in
      if bool_decide (lang = kFortran) && (fc conf == []) then
        ((1%N, [PrintedErr (lit "jig: " ++ filename argv0 ++ lit " called but etc/jig.json names no fc" ++ nl)], st), c)
      else
        let compiler := if bool_decide (lang = kFortran) then fc conf else cc conf in
        let inv := prepare st (e_prefix_map e) (e_tmpdir e) (e_pid e) conf lang user_args in
        let primary := if i_cacheable inv then PrimaryIdentity st inv else None in
        match primary with
        | None =>
            let '((status, effects), c) := RunUncached e compile socket_path connects compiler inv false user_args c in
            ((status, effects, st), c)
        | Some primary =>
            let '(connected, c) := Connect socket_path connects c in
            if negb connected then
              let '((status, effects), c) := RunUncached e compile socket_path connects compiler inv true user_args c in
              ((status, effects, st), c)
            else
              let '((ids, st), c) := ToolchainIds compiler inv st c in
              let digest := ComputeRequestKey st (e_library_path e) compiler inv (primary ++ nl ++ lit "toolchain=" ++ ids) in
              let '((hit, st), c) := Lookup st digest inv c in
              match hit with
              | Ok result =>
                  let '(status, effects) := Replay write_error st result inv in
                  ((status, effects ++ [Logged "cc" (if (status =? 0)%N then kHit else kHitFail) (i_source inv)], st), c)
              | Unexpected why =>
                  let '(slot, c) := Slot_open (e_jig_slot e) (e_build_top e) [] None c in
                  let '(run, after) := compile kCapture compiler (observed_args (e_pid e) inv) in
                  let '(_, c) := Slot_close slot c in
                  CompileAndStore (e_pid e) digest inv why (RunObserved (e_pid e) (e_temp_directory e) inv run after.1)
                    after st c
              end
        end
  end.
End Build.
