(* ===== verification/CcReplay.v ===== *)
(** * What one build stores, another replays

    The compile cache as a whole: [CompileAndStore] of one build, then [Lookup] of another, over the
    connection to any daemon that keeps the protocol. *)

From S2P Require Import Prelude Paths Base Keys Store Manifest CacheClient Jigd Process Driver CacheFlow CcMode.

(** the slots of a result and of a request have different names *)
Lemma slots_differ digest key :
  NoDup [slot_key (Manifest kCc digest); slot_key (Object key); slot_key (Stderr key); slot_key (Depfile key)] ∧
  slot_key (ExitStatus key) ∉
    [slot_key (Manifest kCc digest); slot_key (Object key); slot_key (Stderr key); slot_key (Depfile key)].
Proof.
  split; [|set_unfold; intros [[=]|[[=]|[[=]|[[=]|[]]]]]].
  repeat (apply NoDup_cons; split; [set_unfold; intros H; repeat destruct H as [[=]|H]; try done|]). constructor.
Qed.
Section Replay.
Context (blake3 : str → str) (zstd_compress zstd_decompress : str → option str).
Context (lossless : ∀ value frame, zstd_compress value = Some frame → zstd_decompress frame = Some value).
Context {S : Type} `{Hpeer : Peer S, Hdaemon : !CacheDaemon S}.

Definition trail_of (inv : Invocation) (obs : Observed) : trail := Trail (o_inputs obs) (i_source inv) (o_absent obs).

Definition stored_items (digest key text : str) (inv : Invocation) (obs : Observed) (st : store) (object dep : str)
  : list (str * str) :=
  [(slot_key (Manifest kCc digest), text); (slot_key (Object key), MaskOut st object);
   (slot_key (Stderr key), MaskOut st (stderr_text (o_run obs)))] ++
  (if i_wants_depfile inv then [(slot_key (Depfile key), MaskOut st (MaskForReplay st dep))] else []).

Lemma stored_items_words bytes kbytes text inv obs st object dep :
  Forall (λ v, keepable zstd_compress v)
    [text; MaskOut st object; MaskOut st (stderr_text (o_run obs)); MaskOut st (MaskForReplay st dep)] →
  Forall (λ kv, word kv.1 ∧ storable zstd_compress kv.2)
    (stored_items (Finish blake3 bytes) (Finish blake3 kbytes) text inv obs st object dep).
Proof using Type.
  intros Hk. repeat (apply Forall_cons in Hk as [[? _] Hk]). destruct (slot_words blake3 kCc bytes kbytes) as [Hw Hws].
  repeat (apply Forall_cons in Hws as [? Hws]).
  unfold stored_items. apply Forall_app. split; [|destruct (i_wants_depfile inv)]; each_element.
Qed.

Lemma CompileAndStore_success pid inv why obs after bytes kbytes text st1 object dep stW (c : client S) :
  let digest := Finish blake3 bytes in
  status (o_run obs) = 0%N → o_dep_text obs = Some dep → after.1 (i_output inv) = Some object →
  (links inv = true → is_Some (o_link_dep_text obs)) →
  manifest_of blake3 kCc digest (trail_of inv obs) after stW = (text, Finish blake3 kbytes, st1) → askable stW (o_inputs obs) →
  Forall (λ v, keepable zstd_compress v)
    [text; MaskOut stW object; MaskOut stW (stderr_text (o_run obs)); MaskOut stW (MaskForReplay stW dep)] →
  synced c → faultless c →
  ∃ effects c', CompileAndStore blake3 zstd_compress pid digest inv why obs after stW c = ((0%N, effects, st1), c') ∧
    synced c' ∧ faultless c' ∧
    stored (c_peer c') =
      put_all zstd_compress (stored_items digest (Finish blake3 kbytes) text inv obs stW object dep) (stored (c_peer c)).
Proof using Type.
  intros digest Hst Hd Ho Hl Hm Ha Hk Hs Hf. unfold CompileAndStore. rewrite Hst, Hd, Ho. cbn [N.eqb negb].
  assert (links inv && negb (bool_decide (is_Some (o_link_dep_text obs))) = false) as ->.
  { destruct (links inv); [|done]. by rewrite bool_decide_eq_true_2 by auto. }
  destruct (build_manifest_faultless blake3 _ _ _ _ _ _ _ _ _ Hm Ha Hs Hf) as (c1 & Eb & Hs1 & Hf1 & Hm1).
  cbn [trail_of t_inputs t_primary t_absent] in Eb. fold digest. rewrite Eb.
  pose proof (manifest_store blake3 _ _ _ _ _ _ _ _ Hm) as Hst1.
  assert (Hmask : ∀ b, MaskOut st1 b = MaskOut stW b) by (intros b; rewrite Hst1; apply Swap_prefetch).
  assert (Hmr : ∀ b, MaskForReplay st1 b = MaskForReplay stW b) by (intros b; rewrite Hst1; apply MaskForReplay_prefetch).
  rewrite !Hmask, Hmr.
  destruct (put_each_faultless zstd_compress (stored_items digest (Finish blake3 kbytes) text inv obs stW object dep) c1 Hs1 Hf1)
    as (c2 & E & Hs2 & Hf2 & Hm2); [by apply stored_items_words|].
  unfold stored_items in E. rewrite E. eexists _, c2. split_and!; [reflexivity|done..|]. by rewrite Hm2, Hm1.
Qed.
(** what the daemon holds after the writer *)
Lemma stored_items_lookup digest key text inv obs st object dep m :
  let m' := put_all zstd_compress (stored_items digest key text inv obs st object dep) m in
  m' !! slot_key (Manifest kCc digest) = Some (Compress zstd_compress text) ∧
  m' !! slot_key (Object key) = Some (Compress zstd_compress (MaskOut st object)) ∧
  m' !! slot_key (Stderr key) = Some (Compress zstd_compress (MaskOut st (stderr_text (o_run obs)))) ∧
  (i_wants_depfile inv = true →
   m' !! slot_key (Depfile key) = Some (Compress zstd_compress (MaskOut st (MaskForReplay st dep)))) ∧
  m' !! slot_key (ExitStatus key) = m !! slot_key (ExitStatus key).
Proof.
  cbv zeta. destruct (slots_differ digest key) as [Hnd Hex].
  set (items := stored_items digest key text inv obs st object dep).
  assert (Hsub : items.*1 `sublist_of`
    [slot_key (Manifest kCc digest); slot_key (Object key); slot_key (Stderr key); slot_key (Depfile key)]).
  { unfold items, stored_items. destruct (i_wants_depfile inv); cbn [fmap list_fmap app fst]; [done|].
    repeat apply sublist_skip. apply sublist_nil_l. }
  assert (Hnd' : NoDup items.*1) by (by eapply sublist_NoDup).
  split_and!.
  - apply put_all_lookup; [done|]. unfold items, stored_items. set_solver.
  - apply put_all_lookup; [done|]. unfold items, stored_items. set_solver.
  - apply put_all_lookup; [done|]. unfold items, stored_items. set_solver.
  - intros Hw. apply put_all_lookup; [done|]. unfold items, stored_items. rewrite Hw. set_solver.
  - apply put_all_skip. intros Hin. apply Hex. by eapply sublist_subseteq.
Qed.

Context (readR : str → option str) (existsR : str → bool).

Definition relocated (stW stR : store) (b : str) : str := UnmaskOut stR (MaskOut stW b).

Lemma stored_replays (pid : nat) (bytes : str) (inv : Invocation) (why : str) (obs : Observed) (after : world)
    (stW stR : store) (cW cR : client S) (invR : Invocation) (dep object text key : str) (st1 : store) :
  let digest := Finish blake3 bytes in
  status (o_run obs) = 0%N → o_dep_text obs = Some dep → after.1 (i_output inv) = Some object →
  (links inv = true → is_Some (o_link_dep_text obs)) →
  manifest_of blake3 kCc digest (trail_of inv obs) after stW = (text, key, st1) →
  Forall (λ v, keepable zstd_compress v)
    [text; MaskOut stW object; MaskOut stW (stderr_text (o_run obs)); MaskOut stW (MaskForReplay stW dep)] →
  line_safe blake3 after.1 after.2 st1 (o_inputs obs) (i_source inv) (o_absent obs) →
  askable stW (o_inputs obs) → askable stR (manifest_paths stR text) →
  synced cW → faultless cW → stored (c_peer cW) !! slot_key (ExitStatus key) = None →
  links invR = links inv → (i_wants_depfile invR = true → i_wants_depfile inv = true) →
  let cW' := (CompileAndStore blake3 zstd_compress pid digest inv why obs after stW cW).2 in
  synced cR → faultless cR → stored (c_peer cR) = stored (c_peer cW') →
  let hit := (Lookup blake3 zstd_decompress readR existsR stR digest invR cR).1.1 in
  (unchanged blake3 (trail_of inv obs) after stW readR existsR stR text →
   hit = Ok (Cached 0 (Some (relocated stW stR object))
               (if i_wants_depfile invR then Some (relocated stW stR (MaskForReplay stW dep)) else None)
               (relocated stW stR (stderr_text (o_run obs))))) ∧
  (¬ unchanged blake3 (trail_of inv obs) after stW readR existsR stR text → ∃ reason, hit = Unexpected reason).
Proof.
  intros digest Hst Hd Ho Hl Hm Hk Hsafe HaW HaR HsW HfW Hno Hlinks Hwants.
  destruct (manifest_key blake3 _ _ _ _ _ _ _ _ Hm) as [kbytes ->]. destruct (CompileAndStore_success pid inv why obs after bytes kbytes text st1 object dep stW cW)
    as (eff & cW' & E & _ & _ & HmW); [done..|]. fold digest in E, HmW. rewrite E. cbn [snd]. clear E.
  intros HsR HfR HmR. cbv zeta. rewrite HmW in HmR.
  destruct (stored_items_lookup digest (Finish blake3 kbytes) text inv obs stW object dep (stored (c_peer cW)))
    as (M1 & M2 & M3 & M4 & M5). rewrite <-HmR in M1, M2, M3, M4, M5. rewrite Hno in M5.
  repeat (apply Forall_cons in Hk as [? Hk]).
  destruct (find_result_verdict blake3 zstd_compress zstd_decompress lossless readR existsR kCc bytes (trail_of inv obs)
    after stW stR text (Finish blake3 kbytes) st1 cR) as (verdict & st2 & c1 & Hfind & Hs1 & Hf1 & Hm1 & Hswap & Hiff); [done..|].
  unfold Lookup. fold digest in Hfind. rewrite Hfind.
  destruct verdict as [k|reason].
  - destruct (proj1 (Hiff k) eq_refl) as [-> Hun]. split; [|done]. intros _.
    assert (Hwords : Forall word (result_slots (Finish blake3 kbytes))).
    { destruct (slot_words blake3 kCc bytes kbytes) as [_ Hws]. repeat (apply Forall_cons in Hws as [? Hws]).
      each_element. }
    destruct (GetMany_faultless zstd_decompress _ c1 Hs1 Hf1 Hwords) as (c2 & -> & _). rewrite Hm1.
    unfold result_slots. cbn [map]. rewrite M5, M2, M3. cbn [mbind option_bind]. rewrite !(keepable_back zstd_compress zstd_decompress lossless) by done.
    assert (Hun2 : ∀ b, UnmaskOut st2 b = UnmaskOut stR b) by (intros b; apply Hswap).
    unfold answer. cbn [default]. rewrite !Hun2. cbn [fst snd].
    assert (Hz : (if negb (links invR) then 0%N else 0%N) = 0%N) by (by destruct (negb (links invR))).
    rewrite Hz. cbn [N.eqb]. destruct (i_wants_depfile invR); [|done].
    rewrite M4 by auto. cbn [mbind option_bind]. rewrite (keepable_back zstd_compress zstd_decompress lossless) by done. by rewrite Hun2.
  - split; [|by eexists]. intros Hun. discriminate (proj2 (Hiff _) (conj eq_refl Hun)).
Qed.

End Replay.

(** *** at a concrete build: two outputs of the same package, one header, one header looked for in vain *)

Definition replay_out (hash : str) : str := lit "/nix/store/" ++ hash ++ lit "-pkg".
Definition replay_store (hash : str) : store := MakeStore "/nix/store" "content" (replay_out hash) "".
Definition writer_hash : str := "0123456789abcdfghijklmnpqrsvwxyz".
Definition reader_hash : str := "zyxwvsrqpnmlkjihgfdcba9876543210".
Definition replay_inv : Invocation := ParseInvocation "/tmp" 7 [lit "-c"; lit "a.c"; lit "-o"; lit "a.o"; lit "-MD"].
Definition replay_object (hash : str) : str := lit "obj " ++ replay_out hash ++ lit "/lib".
Definition replay_dep : str := "a.o: a.c inc/a.h".
Definition replay_read (content path : str) : option str :=
  if path == lit "a.o" then Some (replay_object writer_hash) else sample_read content path.
Definition replay_obs : Observed :=
  Obs (Run_result 0 "warning") (Some replay_dep) None [lit "a.c"; lit "inc/a.h"] [lit "inc/b.h"].
Definition replay_world : world := (replay_read "int x;", sample_absent).
Definition replay_digest : str := Finish (λ s, s) "request".
Definition replay_manifest : str * str * store :=
  manifest_of (S := jigd sample_env) (λ s, s) kCc replay_digest (trail_of replay_inv replay_obs) replay_world (replay_store writer_hash).
Definition replay_client : client (jigd sample_env) :=
  (CompileAndStore (λ s, s) Some 7 replay_digest replay_inv "new-key" replay_obs replay_world (replay_store writer_hash)
     sample_client).2.
Definition replay_lookup (content : str) : expected CachedResult :=
  (Lookup (λ s, s) Some (replay_read content) sample_absent (replay_store reader_hash) replay_digest replay_inv
     replay_client).1.1.

Lemma replay_keepable :
  Forall (λ v, keepable Some v)
    [replay_manifest.1.1; MaskOut (replay_store writer_hash) (replay_object writer_hash);
     MaskOut (replay_store writer_hash) "warning";
     MaskOut (replay_store writer_hash) (MaskForReplay (replay_store writer_hash) replay_dep)].
Proof.
  repeat (apply Forall_cons; split; [split; [split; [by eexists|apply N.leb_le; vm_compute; reflexivity]|
    apply N.ltb_lt; vm_compute; reflexivity]|]). constructor.
Qed.

Lemma replay_recorded p id :
  recorded (λ s, s) (replay_read "int x;") replay_manifest.2 [lit "a.c"; lit "inc/a.h"] "a.c" p id →
  p = lit "inc/a.h" ∧ id = lit "C:696e7420783b".
Proof.
  intros (Hp & Hne & Hid). rewrite !elem_of_cons in Hp. destruct Hp as [->|[->|Hp]]; [done| |set_solver].
  vm_compute in Hid. by simplify_eq.
Qed.

Lemma replay_recorded_absent p :
  recorded_absent sample_absent replay_manifest.2 [lit "inc/b.h"] p → p = lit "inc/b.h".
Proof. intros (Hp & _). set_solver. Qed.

Lemma replay_safe :
  line_safe (λ s, s) (replay_read "int x;") sample_absent replay_manifest.2 [lit "a.c"; lit "inc/a.h"] "a.c" [lit "inc/b.h"].
Proof.
  split.
  - intros p id [-> ->]%replay_recorded. repeat split; vm_compute; set_solver.
  - intros p ->%replay_recorded_absent. vm_compute. set_solver.
Qed.

Lemma replay_synced : synced replay_client ∧ faultless replay_client.
Proof.
  destruct (manifest_key (S := jigd sample_env) (λ s, s) kCc replay_digest (trail_of replay_inv replay_obs) replay_world
    (replay_store writer_hash) replay_manifest.1.1 replay_manifest.1.2 replay_manifest.2 eq_refl) as [kbytes Hkey].
  destruct (CompileAndStore_success (S := jigd sample_env) (λ s, s) Some 7 replay_inv "new-key" replay_obs replay_world
    "request" kbytes replay_manifest.1.1 replay_manifest.2 (replay_object writer_hash) replay_dep
    (replay_store writer_hash) sample_client) as (eff & c' & E & Hs & Hf & _);
    [done|done|done|done|by rewrite <-Hkey|by split|apply replay_keepable|apply sample_synced|apply sample_faultless|].
  unfold replay_client, replay_digest. rewrite E. by split.
Qed.

Lemma replay_manifest_eq :
  manifest_of (S := jigd sample_env) (λ s, s) kCc replay_digest (trail_of replay_inv replay_obs) replay_world (replay_store writer_hash) =
    (replay_manifest.1.1, replay_manifest.1.2, replay_manifest.2).
Proof. unfold replay_manifest. by destruct (manifest_of _ _ _ _ _ _) as [[??]?]. Qed.

Lemma replay_askable :
  askable (replay_store writer_hash) (o_inputs replay_obs) ∧
  askable (replay_store reader_hash) (manifest_paths (replay_store reader_hash) replay_manifest.1.1).
Proof.
  assert (List.filter (DaemonMayIdentify (replay_store writer_hash)) (o_inputs replay_obs) = []) as H1
    by (vm_compute; reflexivity).
  assert (List.filter (DaemonMayIdentify (replay_store reader_hash))
    (manifest_paths (replay_store reader_hash) replay_manifest.1.1) = []) as H2 by (vm_compute; reflexivity).
  unfold askable. rewrite H1, H2. split; (split; [constructor|done]).
Qed.

Lemma replay_no_status :
  stored (c_peer sample_client) !! slot_key (ExitStatus replay_manifest.1.2) = None.
Proof. vm_compute. reflexivity. Qed.


(** ** The request key *)

(** C9. The request key tells requests apart: when two builds have the same key (and the hash does not
    collide on the two of them), they use the same compiler in the same directory, up to the hashes of
    store paths, in the same mode, with the same arguments and library path, on the same primary input. *)
Theorem request_key_determines blake3 canonical1 canonical2 cwd1 cwd2 st1 st2 lp1 lp2 cc1 cc2 inv1 inv2 p1 p2 :
  let f1 := fields (request_fields canonical1 cwd1 st1 lp1 cc1 inv1 p1) in
  let f2 := fields (request_fields canonical2 cwd2 st2 lp2 cc2 inv2 p2) in
  (Finish blake3 f1 = Finish blake3 f2 → f1 = f2) →
  ComputeRequestKey blake3 canonical1 cwd1 st1 lp1 cc1 inv1 p1 =
    ComputeRequestKey blake3 canonical2 cwd2 st2 lp2 cc2 inv2 p2 →
  ToolId canonical1 st1 cc1 = ToolId canonical2 st2 cc2 ∧ Key st1 cwd1 = Key st2 cwd2 ∧
  i_link inv1 = i_link inv2 ∧ links inv1 = links inv2 ∧
  (i_link inv1 = false → Key st1 (MaskOut st1 (i_source inv1)) = Key st2 (MaskOut st2 (i_source inv2))) ∧
  (links inv1 = true → MaskForReplay st1 lp1 = MaskForReplay st2 lp2) ∧
  map (key_arg st1 inv1) (i_key_args inv1) = map (key_arg st2 inv2) (i_key_args inv2) ∧
  MaskOut st1 p1 = MaskOut st2 p2.
Proof.
  intros f1 f2 Hcoll Hkey. assert (E := fields_inj _ _ (Hcoll Hkey)). clear Hkey Hcoll f1 f2.
  unfold request_fields, mode_field, links in *. revert E.
  generalize (map (key_arg st1 inv1) (i_key_args inv1)), (map (key_arg st2 inv2) (i_key_args inv2)). intros args1 args2.
  generalize (MaskOut st1 p1), (MaskOut st2 p2). intros q1 q2.
  destruct (i_link inv1), (i_link inv2), (i_link_one inv1), (i_link_one inv2); cbn [app orb];
    intros E; simplify_eq/=;
    match goal with H : args1 ++ [q1] = args2 ++ [q2] |- _ => apply app_inj_tail in H as [-> ->] end;
    split_and!; congruence.
Qed.

Definition key_source (hash : str) : str := lit "const char *p = " ++ replay_out hash ++ lit "/share;".
Definition replay_request (hash : str) : str :=
  ComputeRequestKey (λ s, s) Some "/build" (replay_store hash) [] "/usr/bin/clang" replay_inv (key_source hash).

Lemma request_key_determines_witness :
  key_source writer_hash ≠ key_source reader_hash ∧
  MaskOut (replay_store writer_hash) (key_source writer_hash) = MaskOut (replay_store reader_hash) (key_source reader_hash).
Proof.
  split; [vm_compute; discriminate|].
  apply (request_key_determines (λ s, s) Some Some "/build" "/build" (replay_store writer_hash) (replay_store reader_hash)
    [] [] "/usr/bin/clang" "/usr/bin/clang" replay_inv replay_inv (key_source writer_hash) (key_source reader_hash));
    [intros _|]; vm_compute; reflexivity.
Defined.

(** ** The cache stands aside *)

Definition no_write (effects : list effect) : Prop := ∀ path bytes, WroteFile path bytes ∉ effects.

Lemma no_write_app a b : no_write a → no_write b → no_write (a ++ b).
Proof. intros Ha Hb path bytes [?|?]%elem_of_app; [by eapply Ha|by eapply Hb]. Qed.
Lemma no_write_forward inv text : no_write (ForwardStdout inv text).
Proof. unfold ForwardStdout. intros p b. destruct (negb _), text; set_solver. Qed.

Lemma RunUncached_result {S : Type} `{Peer S} e compile socket_path connects compiler inv has_primary user_args (c : client S) :
  let '((s, effects), _) := RunUncached e compile socket_path connects compiler inv has_primary user_args c in
  s = status (compile kInherit compiler (i_args inv)).1 ∧ no_write effects.
Proof.
  unfold RunUncached. destruct (if _ : bool then _ else _) as [slot c1]. destruct (compile _ _ _) as [run w].
  destruct (Slot_close _ _) as [u c2]. split; [done|]. intros p b. unfold LogUncached.
  repeat case_bool_decide; set_solver.
Qed.

Lemma CompileAndStore_result blake3 zstd_compress {S : Type} `{Peer S} pid digest inv why obs after st (c : client S) :
  let '((s, effects, _), _) := CompileAndStore blake3 zstd_compress pid digest inv why obs after st c in
  s = status (o_run obs) ∧ PrintedErr (stderr_text (o_run obs)) ∈ effects ∧ no_write effects.
Proof.
  assert (Hw : ∀ text o subject, no_write ((observed_effects pid inv (o_run obs) ++ ForwardStdout inv text) ++ [Logged "cc" o subject])).
  { intros text o subject. apply no_write_app; [apply no_write_app; [|apply no_write_forward]|intros p b; set_solver].
    unfold observed_effects. destruct (own_depfile inv); intros p b; set_solver. }
  unfold CompileAndStore. destruct (N.eqb_spec (status (o_run obs)) 0) as [E|E]; cbn [negb].
  - rewrite E. destruct (o_dep_text obs) as [d|]; [|split_and!; [done|by left|apply Hw]].
    destruct (after.1 _) as [object|]; [|split_and!; [done|by left|apply Hw]].
    destruct (_ && _); [split_and!; [done|by left|apply Hw]|].
    destruct (build_manifest _ _ _ _ _ _ _) as [[[text key] st'] c1]. destruct (put_each _ _ _) as [u c2].
    split_and!; [done|by left|apply Hw].
  - destruct (_ || _); [split_and!; [done|by left|apply Hw]|].
    destruct (build_manifest _ _ _ _ _ _ _) as [[[text key] st'] c1]. destruct (put_each _ _ _) as [u c2].
    split_and!; [done|by left|apply Hw].
Qed.

(** C8. Whatever the daemon answers and however its connection fails, the wrapper ends in one of two
    ways: it ran the compiler, with the user's command line or with the same plus the options that
    report dependencies, ends with its status, has forwarded its messages and has written no file
    itself; or it replayed a result, for an invocation it may cache. *)
Theorem RunCcMode_transparent blake3 zstd_compress zstd_decompress read exists_ canonical dir_files OnPath cwd
    {S : Type} `{Peer S} (e : process) (compile : compiler_run) write_error (conf : DriverConf) argv0 raw_args
    socket_path (connects : option S) st (c : client S) :
  let lang := language_of argv0 in
  (lang = kFortran → fc conf ≠ []) →
  let compiler := if bool_decide (lang = kFortran) then fc conf else cc conf in
  let inv := prepare exists_ canonical st (e_prefix_map e) (e_tmpdir e) (e_pid e) conf lang
    (ExpandResponseFiles read raw_args) in
  let '((status', effects, _), _) := RunCcMode blake3 zstd_compress zstd_decompress read exists_ canonical dir_files OnPath
    cwd e compile write_error (Some conf) argv0 raw_args socket_path connects st c in
  (status' = status (compile kInherit compiler (i_args inv)).1 ∧ no_write effects) ∨
  (let run := (compile kCapture compiler (observed_args (e_pid e) inv)).1 in
   i_cacheable inv = true ∧ status' = status run ∧ PrintedErr (stderr_text run) ∈ effects ∧ no_write effects) ∨
  (i_cacheable inv = true ∧ ∃ st' result outcome, let '(s, done_) := Replay write_error st' result inv in
     status' = s ∧ effects = done_ ++ [Logged "cc" outcome (i_source inv)]).
Proof.
  intros lang Hf compiler inv. unfold RunCcMode. fold lang.
  assert (bool_decide (lang = kFortran) && (fc conf == []) = false) as ->.
  { destruct (decide (lang = kFortran)) as [E|E]; [|by rewrite bool_decide_eq_false_2].
    rewrite (bool_decide_eq_false_2 (fc conf = [])) by auto. apply andb_false_r. }
  fold compiler inv.
  destruct (if i_cacheable inv then _ else None) as [primary|] eqn:Hprim.
  - assert (Hc : i_cacheable inv = true) by (by destruct (i_cacheable inv)).
    destruct (Connect _ _ _) as [[|] c1]; cbn [negb].
    + destruct (ToolchainIds _ _ _ _ _ _ _ _ _) as [[ids st1] c2].
      destruct (Lookup _ _ _ _ _ _ _ _) as [[[result|why] st2] c3].
      * destruct (Replay write_error st2 result inv) as [s done_] eqn:Er. right. right. split; [done|].
        eexists st2, result, _. rewrite Er. done.
      * destruct (Slot_open _ _ _ _ _) as [slot c4]. destruct (compile kCapture _ _) as [run after].
        destruct (Slot_close _ _) as [u c5].
        match goal with |- context [CompileAndStore ?a ?b ?p ?c ?d ?e ?f ?g ?h ?i] =>
          pose proof (CompileAndStore_result a b p c d e f g h i) as Hr;
          destruct (CompileAndStore a b p c d e f g h i) as [[[s effects] st3] c6] end.
        right. left. by split.
    + pose proof (RunUncached_result e compile socket_path connects compiler inv true (ExpandResponseFiles read raw_args) c1) as Hr.
      destruct (RunUncached _ _ _ _ _ _ _ _ _) as [[s effects] c2]. by left.
  - pose proof (RunUncached_result e compile socket_path connects compiler inv false (ExpandResponseFiles read raw_args) c) as Hr.
    destruct (RunUncached _ _ _ _ _ _ _ _ _) as [[s effects] c2]. by left.
Qed.

Definition replay_conf : DriverConf := Driver_conf "clang" [] kElf [] "ld.so" [] [] [] [] [] [] no_package false.
Definition replay_process : process := Proc [] [] "/tmp" "/tmp" [] None [] 7.

Lemma RunCcMode_transparent_witness :
  (RunCcMode (λ s, s) Some Some (λ _, None) (λ _, false) Some (λ _, []) (λ p, p) "/build" replay_process
     (λ _ _ _, (Run_result 1 "error", replay_world)) (λ _, None) (Some replay_conf) "cc" [lit "--version"] "/sock" None
     (replay_store writer_hash) sample_client).1.1.1 = 1%N.
Proof.
  pose proof (RunCcMode_transparent (λ s, s) Some Some (λ _, None) (λ _, false) Some (λ _, []) (λ p, p) "/build"
    replay_process (λ _ _ _, (Run_result 1 "error", replay_world)) (λ _, None) replay_conf "cc"
    [lit "--version"] "/sock" None (replay_store writer_hash) sample_client ltac:(discriminate)) as H.
  destruct (RunCcMode _ _ _ _ _ _ _ _ _ _ _ _ _ _ _ _ _ _ _) as [[[s effects] st'] c'].
  destruct H as [[-> _]|[[Hc _]|[Hc _]]]; [reflexivity|vm_compute in Hc; discriminate Hc..].
Defined.
