(* ===== verification/CcBuilds.v ===== *)
(** * Two builds and one daemon: the compiler wrapper from the command line to the files

    [RunCcMode] (cc_mode.cc) of a build that compiles, then [RunCcMode] of another build that asks the same
    daemon: the whole of both runs, with what lies between the request key and the lookup (the connection, the
    toolchain's identities) and what follows it (the slot, the compiler, the replay). *)

From S2P Require Import Prelude Paths Base Keys Store Manifest CacheClient Jigd Process Driver CacheFlow CcMode CcReplay.

(** one build: its file system, its process, and how the wrapper was called *)
Record build := Build {
  b_read : str → option str;
  b_exists : str → bool;
  b_canonical : str → option str;
  b_dir_files : str → list str;
  b_on_path : str → str;
  b_cwd : str;
  b_process : process;
  b_conf : DriverConf;
  b_argv0 : str;
  b_args : list str;
  b_store : store;
}.

(** the object reaches its place *)
Definition delivers (inv : Invocation) (object : str) (effects : list effect) : Prop :=
  if i_to_stdout inv then Printed object ∈ effects else WroteFile (i_output inv) object ∈ effects.

Lemma Replay_failure st status err inv write_error :
  let '(s, effects) := Replay write_error st (Cached status None None err) inv in
  s = status ∧ no_write effects ∧ PrintedErr err ∈ effects.
Proof.
  unfold Replay. cbn [r_object r_depfile r_status r_stderr]. destruct (i_to_stdout inv).
  - split; [done|]. split; [|apply elem_of_app; right; by left]. apply no_write_app; [apply no_write_forward|intros p b; set_solver].
  - split; [done|]. split; [intros p b; set_solver|by left].
Qed.

Lemma delivers_app inv object effects more : delivers inv object effects → delivers inv object (effects ++ more).
Proof. unfold delivers. destruct (i_to_stdout inv); intros H; apply elem_of_app; by left. Qed.

Lemma Replay_delivers st object depfile err inv write_error :
  (∀ path, write_error path = None) →
  let '(s, effects) := Replay write_error st (Cached 0 (Some object) depfile err) inv in
  s = 0%N ∧ delivers inv object effects ∧ PrintedErr err ∈ effects ∧
  (∀ d, depfile = Some d → WroteFile (i_depfile inv) (RetargetDepfile (ResolveAll st d) inv) ∈ effects).
Proof.
  intros Hw. unfold Replay, delivers, ForwardStdout. cbn [r_object r_depfile r_status r_stderr]. rewrite !Hw.
  destruct (i_to_stdout inv), depfile as [d|]; cbn [negb]; (split_and!; [done|set_solver|set_solver|]);
    intros d' Hd; simplify_eq; set_solver.
Qed.

Section Builds.
Context (blake3 : str → str) (zstd_compress zstd_decompress : str → option str).
Context (lossless : ∀ value frame, zstd_compress value = Some frame → zstd_decompress frame = Some value).
Context {S : Type} `{Hpeer : Peer S, Hdaemon : !CacheDaemon S}.

(** ** What a build asks *)

Definition user_args (b : build) : list str := ExpandResponseFiles (b_read b) (b_args b).
Definition compiler_of (b : build) : str :=
  if bool_decide (language_of (b_argv0 b) = kFortran) then fc (b_conf b) else cc (b_conf b).
Definition invocation (b : build) : Invocation :=
  prepare (b_exists b) (b_canonical b) (b_store b) (e_prefix_map (b_process b)) (e_tmpdir (b_process b)) (e_pid (b_process b))
    (b_conf b) (language_of (b_argv0 b)) (user_args b).
Definition tools (b : build) : list str :=
  toolchain_files (b_canonical b) (b_dir_files b) (b_on_path b) (compiler_of b) (invocation b).
(** the store once the daemon has identified the toolchain *)
Definition known (b : build) : store :=
  PrefetchIdentities (λ _, ids_of (b_store b) (tools b)) (b_store b) (tools b).
Definition toolchain (b : build) : str :=
  concat (map (λ f, default (lit "?") (InputId blake3 (b_read b) (known b) f) ++ lit ",") (tools b)).
Definition request (b : build) (primary : str) : str :=
  ComputeRequestKey blake3 (b_canonical b) (b_cwd b) (known b) (e_library_path (b_process b)) (compiler_of b) (invocation b)
    (primary ++ nl ++ lit "toolchain=" ++ toolchain b).

Lemma request_digest b primary : ∃ bytes, request b primary = Finish blake3 bytes.
Proof. by eexists. Qed.

(** the wrapper may cache this call, and can ask for its toolchain *)
Definition cached_call (b : build) (primary : str) : Prop :=
  (language_of (b_argv0 b) = kFortran → fc (b_conf b) ≠ []) ∧ i_cacheable (invocation b) = true ∧
  PrimaryIdentity blake3 (b_read b) (b_store b) (invocation b) = Some primary ∧ askable (b_store b) (tools b).

(** a connection that works, to a daemon in state [s] *)
Definition connects_to (socket : str) (s : S) (c : client S) : Prop :=
  length socket < kSunPath ∧ idle s ∧ view c = [] ∧ faultless c.

Definition run (b : build) (compile : compiler_run) (write_error : str → option str) (socket : str) (s : S) (c : client S)
  : (N * list effect * store) * client S :=
  RunCcMode blake3 zstd_compress zstd_decompress (b_read b) (b_exists b) (b_canonical b) (b_dir_files b) (b_on_path b) (b_cwd b)
    (b_process b) compile write_error (Some (b_conf b)) (b_argv0 b) (b_args b) socket (Some s) (b_store b) c.

(** after the lookup *)
Definition finish (b : build) (compile : compiler_run) (write_error : str → option str) (digest : str)
    (found : (expected CachedResult * store) * client S) : (N * list effect * store) * client S :=
  let '((hit, st), c) := found in
  let e := b_process b in
  match hit with
  | Ok result =>
      let '(status, effects) := Replay write_error st result (invocation b) in
      ((status, effects ++ [Logged "cc" (if (status =? 0)%N then kHit else kHitFail) (i_source (invocation b))], st), c)
  | Unexpected why =>
      let '(slot, c) := Slot_open (e_jig_slot e) (e_build_top e) [] None c in
      let '(r, after) := compile kCapture (compiler_of b) (observed_args (e_pid e) (invocation b)) in
      let '(_, c) := Slot_close slot c in
      CompileAndStore blake3 zstd_compress (e_pid e) digest (invocation b) why
        (RunObserved (e_pid e) (e_temp_directory e) (invocation b) r after.1) after st c
  end.

Lemma run_asks b primary compile write_error socket s c :
  cached_call b primary → connects_to socket s c →
  ∃ c2, synced c2 ∧ faultless c2 ∧ stored (c_peer c2) = stored s ∧
    run b compile write_error socket s c =
      finish b compile write_error (request b primary)
        (Lookup blake3 zstd_decompress (b_read b) (b_exists b) (known b) (request b primary) (invocation b) c2).
Proof.
  intros (Hlang & Hcache & Hprim & Hask) (Hsock & Hidle & Hview & Hf). unfold run, RunCcMode.
  assert (bool_decide (language_of (b_argv0 b) = kFortran) && (fc (b_conf b) == []) = false) as ->.
  { destruct (decide (language_of (b_argv0 b) = kFortran)) as [E|E]; [|by rewrite bool_decide_eq_false_2].
    rewrite (bool_decide_eq_false_2 (fc (b_conf b) = [])) by auto. apply andb_false_r. }
  fold (user_args b) (compiler_of b) (invocation b). rewrite Hcache, Hprim. unfold Connect.
  rewrite (proj2 (Nat.leb_gt _ _) Hsock). cbn [negb].
  set (c1 := Client _ _ _ _ _ _). assert (synced c1) as Hs1 by (split_and!; [done|exact Hview|done]).
  destruct (ask_ids_faultless (b_store b) (tools b) c1 Hs1 Hf Hask) as (c2 & E & Hs2 & Hf2 & Hm2).
  exists c2. split_and!; [done|done|by rewrite Hm2|]. unfold ToolchainIds. fold (tools b). rewrite E.
  fold (known b). fold (toolchain b). fold (request b primary). unfold finish.
  destruct (Lookup _ _ _ _ _ _ _ _) as [[[result|why] st2] c3]; done.
Qed.

Lemma lookup_new read exists_ st bytes inv (c : client S) :
  synced c → faultless c → stored (c_peer c) !! slot_key (Manifest kCc (Finish blake3 bytes)) = None →
  ∃ c', Lookup blake3 zstd_decompress read exists_ st (Finish blake3 bytes) inv c = ((Unexpected "new-key", st), c') ∧
    synced c' ∧ faultless c' ∧ stored (c_peer c') = stored (c_peer c).
Proof.
  intros Hs Hf Hno. unfold Lookup, find_result. destruct (Get _ _ c) as [r c1] eqn:E.
  apply (Get_spec zstd_decompress) in E as [_ E]; [|done|apply (slot_words blake3 kCc bytes [])].
  destruct (E Hf) as (-> & Hs1 & Hf1 & Hm1). rewrite Hno. by exists c1.
Qed.

(** ** A build that compiles *)

(** taking and giving back a slot leaves the connection in order and the cache alone *)
Definition slot_neutral (b : build) : Prop := ∀ c : client S, synced c → faultless c →
  let '(slot, c1) := Slot_open (e_jig_slot (b_process b)) (e_build_top (b_process b)) [] None c in
  let c2 := (Slot_close slot c1).2 in
  synced c2 ∧ faultless c2 ∧ stored (c_peer c2) = stored (c_peer c).

(** what the compiler did *)
Definition compiled (b : build) (compile : compiler_run) : RunResult * world :=
  compile kCapture (compiler_of b) (observed_args (e_pid (b_process b)) (invocation b)).
Definition observed (b : build) (compile : compiler_run) : Observed :=
  RunObserved (e_pid (b_process b)) (e_temp_directory (b_process b)) (invocation b) (compiled b compile).1 (compiled b compile).2.1.

Lemma run_compiles b primary bytes compile write_error socket s c :
  cached_call b primary → connects_to socket s c → slot_neutral b → request b primary = Finish blake3 bytes →
  stored s !! slot_key (Manifest kCc (request b primary)) = None →
  ∃ c4, synced c4 ∧ faultless c4 ∧ stored (c_peer c4) = stored s ∧
    run b compile write_error socket s c =
      CompileAndStore blake3 zstd_compress (e_pid (b_process b)) (request b primary) (invocation b) "new-key" (observed b compile)
        (compiled b compile).2 (known b) c4.
Proof.
  intros Hcall Hconn Hslot Hreq Hno. destruct (run_asks b primary compile write_error socket s c Hcall Hconn) as (c2 & Hs & Hf & Hm & ->).
  rewrite Hreq in *. rewrite <-Hm in Hno.
  destruct (lookup_new (b_read b) (b_exists b) (known b) bytes (invocation b) c2 Hs Hf Hno) as (c3 & -> & Hs3 & Hf3 & Hm3).
  unfold finish. specialize (Hslot c3 Hs3 Hf3). destruct (Slot_open _ _ _ _ c3) as [slot c4].
  destruct (Slot_close slot c4) as [u c5] eqn:E5. cbn [snd] in Hslot. destruct Hslot as (Hs5 & Hf5 & Hm5).
  exists c5. split_and!; [done|done|by rewrite Hm5, Hm3|]. fold (compiled b compile). unfold observed.
  destruct (compiled b compile) as [r after]. done.
Qed.

(** its compiler succeeded and left an object and the names of its inputs; what is stored is within the limits
    of the protocol *)
Definition worth_storing (b : build) (primary : str) (compile : compiler_run) (dep object text key : str) (st1 : store) : Prop :=
  let obs := observed b compile in
  let inv := invocation b in
  status (compiled b compile).1 = 0%N ∧ o_dep_text obs = Some dep ∧ (compiled b compile).2.1 (i_output inv) = Some object ∧
  (links inv = true → is_Some (o_link_dep_text obs)) ∧
  manifest_of blake3 kCc (request b primary) (trail_of inv obs) (compiled b compile).2 (known b) = (text, key, st1) ∧
  Forall (λ v, keepable zstd_compress v)
    [text; MaskOut (known b) object; MaskOut (known b) (stderr_text (compiled b compile).1);
     MaskOut (known b) (MaskForReplay (known b) dep)] ∧
  line_safe blake3 (compiled b compile).2.1 (compiled b compile).2.2 st1 (o_inputs obs) (i_source inv) (o_absent obs) ∧
  askable (known b) (o_inputs obs).

(** ** Another build that asks *)

(** the reader's files are those the writer's compiler read *)
Definition same_inputs (w r : build) (compile : compiler_run) (text : str) : Prop :=
  unchanged blake3 (trail_of (invocation w) (observed w compile)) (compiled w compile).2 (known w) (b_read r) (b_exists r) (known r) text.

(** the reader's end: the writer's results in its own place, or those of its own compiler *)
Definition replays_or_compiles (w r : build) (compileW compileR : compiler_run) (dep object text : str)
    (statusR : N) (effectsR : list effect) (stR : store) : Prop :=
  (same_inputs w r compileW text →
     statusR = 0%N ∧ delivers (invocation r) (relocated (known w) (known r) object) effectsR ∧
     PrintedErr (relocated (known w) (known r) (stderr_text (compiled w compileW).1)) ∈ effectsR ∧
     (i_wants_depfile (invocation r) = true →
        WroteFile (i_depfile (invocation r))
          (RetargetDepfile (ResolveAll stR (relocated (known w) (known r) (MaskForReplay (known w) dep))) (invocation r)) ∈ effectsR)) ∧
  (¬ same_inputs w r compileW text →
     statusR = status (compiled r compileR).1 ∧ PrintedErr (stderr_text (compiled r compileR).1) ∈ effectsR ∧ no_write effectsR).

Lemma second_build (w r : build) (primW primR : str) (compileW : compiler_run) (dep object text key : str) (st1 : store)
    (write_error : str → option str) (socket : str) (s0 : S) (c0 : client S) :
  cached_call w primW → cached_call r primR → request r primR = request w primW →
  connects_to socket s0 c0 → slot_neutral w → slot_neutral r →
  stored s0 !! slot_key (Manifest kCc (request w primW)) = None → stored s0 !! slot_key (ExitStatus key) = None →
  worth_storing w primW compileW dep object text key st1 → askable (known r) (manifest_paths (known r) text) →
  links (invocation r) = links (invocation w) →
  (i_wants_depfile (invocation r) = true → i_wants_depfile (invocation w) = true) →
  (∀ path, write_error path = None) →
  let '((statusW, effectsW, _), cW) := run w compileW write_error socket s0 c0 in
  statusW = 0%N ∧ no_write effectsW ∧ synced cW ∧
  ∀ s1 c1 compileR, connects_to socket s1 c1 → stored s1 = stored (c_peer cW) →
    let '((statusR, effectsR, stR), _) := run r compileR write_error socket s1 c1 in
    replays_or_compiles w r compileW compileR dep object text statusR effectsR stR.
Proof.
  intros HcW HcR Hkey HconnW HslW HslR Hno Hnostatus (Hst & Hdep & Hobj & Hld & Hman & Hkeep & Hsafe & HaW) HaR Hlinks Hwants Hwe.
  destruct (request_digest w primW) as [bytes Hbytes].
  destruct (run_compiles w primW bytes compileW write_error socket s0 c0) as (c4 & Hs4 & Hf4 & Hm4 & ->); [done..|].
  rewrite Hbytes in *. destruct (manifest_key blake3 _ _ _ _ _ _ _ _ Hman) as [kbytes Hk].
  destruct (CompileAndStore_success blake3 zstd_compress (e_pid (b_process w)) (invocation w) "new-key" (observed w compileW) (compiled w compileW).2
    bytes kbytes text st1 object dep (known w) c4) as (effW & cW & E & HsW & _ & _); [done|done|done|done|by rewrite <-Hk|done|done|done|done|].
  pose proof (CompileAndStore_result blake3 zstd_compress (e_pid (b_process w)) (Finish blake3 bytes) (invocation w) "new-key" (observed w compileW)
    (compiled w compileW).2 (known w) c4) as HresW.
  rewrite E in HresW |- *. split; [done|]. split; [apply HresW|]. split; [done|].
  intros s1 c1 compileR HconnR HmR.
  destruct (run_asks r primR compileR write_error socket s1 c1 HcR HconnR) as (c2 & Hs2 & Hf2 & Hm2 & ->). rewrite Hkey.
  pose proof (stored_replays blake3 zstd_compress zstd_decompress lossless (b_read r) (b_exists r) (e_pid (b_process w)) bytes (invocation w)
    "new-key" (observed w compileW) (compiled w compileW).2 (known w) (known r) c4 c2 (invocation r) dep object text key st1) as Hreplay.
  cbv zeta in Hreplay. rewrite E in Hreplay. cbn [snd] in Hreplay. rewrite <-Hm4 in Hnostatus.
  destruct Hreplay as [Hhit Hmiss]; [done..|by rewrite Hm2|].
  destruct (Lookup _ _ _ _ _ _ _ c2) as [[hit st2] c3]. cbn [fst] in Hhit, Hmiss. unfold finish.
  destruct hit as [result|why].
  - pose proof (Replay_delivers st2 (relocated (known w) (known r) object)
      (if i_wants_depfile (invocation r) then Some (relocated (known w) (known r) (MaskForReplay (known w) dep)) else None)
      (relocated (known w) (known r) (stderr_text (compiled w compileW).1)) (invocation r) write_error Hwe) as Hdel.
    destruct (Replay write_error st2 result (invocation r)) as [sR done_] eqn:Er. split.
    + intros Hsame. specialize (Hhit Hsame). injection Hhit as ->. rewrite Er in Hdel. destruct Hdel as (-> & Hd & Herr & Hdf).
      split; [done|]. split; [by apply delivers_app|]. split; [by apply elem_of_app; left|].
      intros Hwd. rewrite Hwd in Hdf. specialize (Hdf _ eq_refl). by apply elem_of_app; left.
    + intros Hdiff. destruct (Hmiss Hdiff). done.
  - destruct (Slot_open _ _ _ _ c3) as [slot c5]. fold (compiled r compileR). unfold replays_or_compiles, same_inputs.
    destruct (compiled r compileR) as [rR afterR] eqn:Ec. destruct (Slot_close slot c5) as [u c6].
    pose proof (CompileAndStore_result blake3 zstd_compress (e_pid (b_process r)) (Finish blake3 bytes) (invocation r) why
      (RunObserved (e_pid (b_process r)) (e_temp_directory (b_process r)) (invocation r) rR afterR.1) afterR st2 c6) as Hr.
    match type of Hr with context [CompileAndStore ?a ?b ?p ?c ?d ?e ?f ?g ?h ?i] =>
      destruct (CompileAndStore a b p c d e f g h i) as [[[sR eR] stR] c7] end. split; [intros Hsame; discriminate (Hhit Hsame)|]. intros _. exact Hr.
Qed.

(** ** A build whose compiler fails *)

(** the failure says something about the inputs, and only about them *)
Definition worth_storing_failure (b : build) (primary : str) (compile : compiler_run) (text key : str) (st1 : store) : Prop :=
  let obs := observed b compile in
  let inv := invocation b in
  let r := (compiled b compile).1 in
  status r ≠ 0%N ∧ Deterministic r = true ∧ contains (stderr_text r) "file not found" = false ∧ links inv = false ∧
  is_Some (o_dep_text obs) ∧
  manifest_of blake3 kCc (request b primary) (trail_of inv obs) (compiled b compile).2 (known b) = (text, key, st1) ∧
  Forall (λ v, keepable zstd_compress v) [text; fmt_uint 10 (status r); MaskOut (known b) (stderr_text r)] ∧
  line_safe blake3 (compiled b compile).2.1 (compiled b compile).2.2 st1 (o_inputs obs) (i_source inv) (o_absent obs) ∧
  askable (known b) (o_inputs obs).

Definition failure_items (digest key text : str) (r : RunResult) (st : store) : list (str * str) :=
  [(slot_key (Manifest kCc digest), text); (slot_key (ExitStatus key), fmt_uint 10 (status r));
   (slot_key (Stderr key), MaskOut st (stderr_text r))].

Lemma failure_items_lookup digest key text r st m :
  let m' := put_all zstd_compress (failure_items digest key text r st) m in
  m' !! slot_key (Manifest kCc digest) = Some (Compress zstd_compress text) ∧
  m' !! slot_key (ExitStatus key) = Some (Compress zstd_compress (fmt_uint 10 (status r))) ∧
  m' !! slot_key (Stderr key) = Some (Compress zstd_compress (MaskOut st (stderr_text r))).
Proof.
  cbv zeta. destruct (slots_differ digest key) as [Hnd Hex]. set (items := failure_items digest key text r st).
  assert (Hnd' : NoDup items.*1).
  { unfold items, failure_items. cbn [fmap list_fmap fst].
    repeat (apply NoDup_cons in Hnd as [? Hnd]). repeat (apply not_elem_of_cons in Hex as [? Hex]).
    repeat (apply NoDup_cons; split; [rewrite ?not_elem_of_cons; set_solver|]). apply NoDup_nil_2. }
  split_and!; (apply put_all_lookup; [done|]); unfold items, failure_items; set_solver.
Qed.

Lemma CompileAndStore_failure b primary compile bytes kbytes text st1 why (c : client S) :
  worth_storing_failure b primary compile text (Finish blake3 kbytes) st1 → request b primary = Finish blake3 bytes →
  synced c → faultless c →
  ∃ effects c', CompileAndStore blake3 zstd_compress (e_pid (b_process b)) (request b primary) (invocation b) why (observed b compile)
      (compiled b compile).2 (known b) c = ((status (compiled b compile).1, effects, st1), c') ∧
    synced c' ∧ faultless c' ∧
    stored (c_peer c') =
      put_all zstd_compress (failure_items (request b primary) (Finish blake3 kbytes) text (compiled b compile).1 (known b)) (stored (c_peer c)).
Proof.
  intros (Hst & Hdet & Hnf & Hl & Hdep & Hman & Hkeep & _ & Ha) Hreq Hs Hf. unfold CompileAndStore.
  change (o_run (observed b compile)) with (compiled b compile).1. rewrite (proj2 (N.eqb_neq _ _) Hst), Hl, Hnf, Hdet. cbn [negb].
  rewrite (bool_decide_eq_true_2 (is_Some _)) by done. cbn [negb orb].
  destruct (build_manifest_faultless blake3 _ _ _ _ _ _ _ _ _ Hman Ha Hs Hf) as (c1 & Eb & Hs1 & Hf1 & Hm1).
  cbn [trail_of t_inputs t_primary t_absent] in Eb. rewrite Eb.
  pose proof (manifest_store blake3 _ _ _ _ _ _ _ _ Hman) as Hst1.
  assert (Hmask : ∀ x, MaskOut st1 x = MaskOut (known b) x) by (intros x; rewrite Hst1; apply Swap_prefetch). rewrite Hmask, Hreq.
  destruct (put_each_faultless zstd_compress (failure_items (Finish blake3 bytes) (Finish blake3 kbytes) text (compiled b compile).1 (known b))
    c1 Hs1 Hf1) as (c2 & E & Hs2 & Hf2 & Hm2).
  { destruct (slot_words blake3 kCc bytes kbytes) as [Hw Hws]. repeat (apply Forall_cons in Hws as [? Hws]).
    repeat (apply Forall_cons in Hkeep as [[? _] Hkeep]). unfold failure_items. repeat (apply Forall_cons; split; [by split|]). apply Forall_nil_2. }
  unfold failure_items in E. rewrite E. eexists _, c2. split_and!; [reflexivity|done..|]. by rewrite Hm2, Hm1.
Qed.

End Builds.

(** *** at a concrete pair of builds: two outputs of one package, one source, one header, one header that is not there *)

Definition pair_process : process := Proc [] [] "/tmp" "/tmp" "held" None [] 7.
Definition pair_read (content path : str) : option str :=
  if path == lit "a.c" then Some (lit "int main;")
  else if path == lit "a.d" then Some replay_dep
  else if path == lit "./.jig7.absent" then Some (lit "inc/b.h" ++ nl)
  else replay_read content path.
Definition pair_build (hash content : str) : build :=
  Build (pair_read content) sample_absent (λ _, None) (λ _, []) (λ p, p) "/build" pair_process replay_conf "cc"
    [lit "-c"; lit "a.c"; lit "-o"; lit "a.o"; lit "-MD"] (replay_store hash).
Definition pair_w : build := pair_build writer_hash "int x;".
Definition pair_ran (result : RunResult) : compiler_run := λ _ _ _, (result, (pair_read "int x;", sample_absent)).
Definition pair_compile : compiler_run := pair_ran (Run_result 0 "warning").
Definition pair_rejects : compiler_run := pair_ran (Run_result 1 "error").
Definition pair_id (s : str) : str := s.
Definition pair_primary : str := default [] (PrimaryIdentity pair_id (b_read pair_w) (b_store pair_w) (invocation pair_w)).
Definition pair_manifest : str * str * store :=
  manifest_of (S := jigd sample_env) pair_id kCc (request (S := jigd sample_env) pair_id pair_w pair_primary)
    (trail_of (invocation pair_w) (observed pair_w pair_compile)) (compiled pair_w pair_compile).2 (known (S := jigd sample_env) pair_w).

Lemma pair_keepable :
  Forall (λ v, keepable Some v)
    [pair_manifest.1.1; MaskOut (known (S := jigd sample_env) pair_w) (replay_object writer_hash);
     MaskOut (known (S := jigd sample_env) pair_w) "warning";
     MaskOut (known (S := jigd sample_env) pair_w) (MaskForReplay (known (S := jigd sample_env) pair_w) replay_dep)].
Proof.
  repeat (apply Forall_cons; split; [split; [split; [by eexists|apply N.leb_le; vm_compute; reflexivity]|
    apply N.ltb_lt; vm_compute; reflexivity]|]). constructor.
Qed.

Lemma pair_recorded p id :
  recorded pair_id (pair_read "int x;") pair_manifest.2 [lit "a.c"; lit "inc/a.h"] "a.c" p id →
  p = lit "inc/a.h" ∧ id = lit "C:696e7420783b".
Proof.
  intros (Hp & Hne & Hid). rewrite !elem_of_cons in Hp. destruct Hp as [->|[->|Hp]]; [by destruct Hne| |by apply elem_of_nil in Hp].
  split; [reflexivity|]. vm_compute in Hid. by injection Hid.
Qed.

Lemma pair_safe :
  line_safe pair_id (pair_read "int x;") sample_absent pair_manifest.2 [lit "a.c"; lit "inc/a.h"] "a.c" [lit "inc/b.h"].
Proof.
  split.
  - intros p id [-> ->]%pair_recorded. repeat split; vm_compute; set_solver.
  - intros p (Hp & _). assert (p = lit "inc/b.h") as -> by set_solver. vm_compute. set_solver.
Qed.

Lemma pair_askable hash paths : hash = writer_hash ∨ hash = reader_hash →
  List.filter (DaemonMayIdentify (replay_store hash)) paths = [] → askable (known (S := jigd sample_env) (pair_build hash "int x;")) paths.
Proof.
  intros Hh Hf. change (known (pair_build hash "int x;")) with (replay_store hash). unfold askable. rewrite Hf. split; [constructor|done].
Qed.

Lemma pair_worth :
  worth_storing (S := jigd sample_env) pair_id Some pair_w pair_primary pair_compile replay_dep (replay_object writer_hash)
    pair_manifest.1.1 pair_manifest.1.2 pair_manifest.2.
Proof.
  unfold worth_storing. split; [reflexivity|]. split; [vm_compute; reflexivity|]. split; [vm_compute; reflexivity|].
  split; [intros Hl; vm_compute in Hl; discriminate Hl|].
  split; [unfold pair_manifest; by destruct (manifest_of _ _ _ _ _ _) as [[??]?]|].
  split; [apply pair_keepable|]. change (o_inputs (observed pair_w pair_compile)) with [lit "a.c"; lit "inc/a.h"].
  split; [apply pair_safe|]. apply pair_askable; [by left|]. vm_compute. reflexivity.
Qed.

Lemma pair_neutral hash content : slot_neutral (S := jigd sample_env) (pair_build hash content).
Proof. intros c Hs Hf. unfold Slot_open. cbn. by split. Qed.

Lemma pair_calls hash : hash = writer_hash ∨ hash = reader_hash →
  cached_call pair_id (pair_build hash "int x;") pair_primary.
Proof.
  intros [-> | ->]; (split_and!; [discriminate|vm_compute; reflexivity|vm_compute; reflexivity|]);
    (split; [apply Forall_nil_2|vm_compute; discriminate]).
Qed.

Lemma pair_same result :
  same_inputs (S := jigd sample_env) pair_id pair_w (pair_build reader_hash "int x;") (pair_ran result) pair_manifest.1.1.
Proof.
  assert (trail_of (invocation pair_w) (observed pair_w (pair_ran result)) = Trail [lit "a.c"; lit "inc/a.h"] "a.c" [lit "inc/b.h"]) as Ht
    by (vm_compute; reflexivity).
  unfold same_inputs, unchanged. rewrite Ht. cbv zeta. cbn [t_inputs t_primary t_absent].
  assert (PrefetchIdentities (λ _, ids_of (S := jigd sample_env) (known (S := jigd sample_env) pair_w) [lit "a.c"; lit "inc/a.h"])
    (known (S := jigd sample_env) pair_w) [lit "a.c"; lit "inc/a.h"] = pair_manifest.2) as -> by (vm_compute; reflexivity).
  split.
  - intros p id [-> ->]%pair_recorded. vm_compute. reflexivity.
  - intros p (Hp & _). apply list_elem_of_singleton in Hp as ->. vm_compute. reflexivity.
Qed.

(** the daemon the reader meets is the one the writer left *)
Definition pair_left : client (jigd sample_env) :=
  (run (S := jigd sample_env) pair_id Some Some pair_w pair_compile (λ _, None) "/sock" sample_daemon sample_client).2.
Definition pair_reads (content : str) (compile : compiler_run) : N * list effect * store :=
  (run (S := jigd sample_env) pair_id Some Some (pair_build reader_hash content) compile (λ _, None) "/sock" (c_peer pair_left)
     (Client false [] [] [Some 1; Some 0] [Some 3] sample_daemon)).1.


(** *** the same pair when the writer's compiler rejects the source *)

Lemma pair_worth_failure :
  worth_storing_failure (S := jigd sample_env) pair_id Some pair_w pair_primary pair_rejects
    pair_manifest.1.1 pair_manifest.1.2 pair_manifest.2.
Proof.
  unfold worth_storing_failure. split; [discriminate|]. split; [vm_compute; reflexivity|]. split; [vm_compute; reflexivity|].
  split; [vm_compute; reflexivity|]. split; [exists replay_dep; vm_compute; reflexivity|].
  split; [vm_compute; reflexivity|].
  split; [repeat (apply Forall_cons; split; [split; [split; [by eexists|apply N.leb_le; vm_compute; reflexivity]|
    apply N.ltb_lt; vm_compute; reflexivity]|]); constructor|].
  change (o_inputs (observed pair_w pair_rejects)) with [lit "a.c"; lit "inc/a.h"].
  split; [apply pair_safe|]. apply pair_askable; [by left|]. vm_compute. reflexivity.
Qed.

Definition pair_left_failing : client (jigd sample_env) :=
  (run (S := jigd sample_env) pair_id Some Some pair_w pair_rejects (λ _, None) "/sock" sample_daemon sample_client).2.
Definition pair_fails (content : str) (compile : compiler_run) : N * list effect * store :=
  (run (S := jigd sample_env) pair_id Some Some (pair_build reader_hash content) compile (λ _, None) "/sock" (c_peer pair_left_failing)
     (Client false [] [] [Some 1; Some 0] [Some 3] sample_daemon)).1.

