(* ===== verification/PackBuilds.v ===== *)
(** * Two builds and a restart of jigd: from the command line to the files of the packs

    CcBuilds with the daemon of PackPeer: the wrapper, the protocol, the store in memory and its packs and hints on
    disk, while the demoter moves packs between the bytes; between the two builds the daemon's process ends and
    another one opens the files it left. *)

From S2P Require Import PackFormat PackStore PackRecovery PackHistory PackOpen PackLife PackServe PackPeer.
From S2P Require Import Prelude Paths Base Keys Store Manifest CacheClient Jigd Process Driver CacheFlow CcMode CcReplay CcBuilds.


(** *** the pair of CcBuilds, with a daemon of two tiers that moves packs after every byte *)

Program Definition sample_setting : setting :=
  Setting as_is as_is _ _ 2 _ sample_env (λ i, ([EPick; EMovePack true; EMoveHint true; ESwitch true], N.of_nat i)) _.
Next Obligation. done. Qed.
Next Obligation. done. Qed.
Next Obligation. lia. Qed.
Next Obligation. intros i. repeat constructor. Qed.

Definition sample_fresh : jigd_process sample_setting := Process_ (Packed (InLine []) (sample_open (Disk ∅ ∅ ∅)) ∅) 0.
Lemma sample_fresh_idle : idle sample_fresh ∧ stored sample_fresh = ∅.
Proof.
  destruct (process_starts (g := sample_setting) 7 sample_budgets 0 eq_refl) as (s & k & E & H1 & H2).
  { exists 0%Z. by split. }
  unfold sample_fresh, sample_open. change (g_walk sample_setting) with (@as_is (str * loc)) in E.
  change (g_by_name sample_setting) with (@as_is N) in E. rewrite E. by split.
Qed.
Definition sample_caller : client (jigd_process sample_setting) := Client false [] [] [Some 0; Some 1] [Some 2; Some 0] sample_fresh.

Lemma restart_neutral hash content : slot_neutral (S := jigd_process sample_setting) (pair_build hash content).
Proof. intros c Hs Hf. unfold Slot_open. cbn. by split. Qed.

(** both daemons identify files alike, so what CcBuilds says of the pair holds here *)
Lemma restart_worth_storing : worth_storing (S := jigd_process sample_setting) pair_id Some = worth_storing (S := jigd sample_env) pair_id Some.
Proof. reflexivity. Qed.
Lemma restart_same_inputs : same_inputs (S := jigd_process sample_setting) pair_id = same_inputs (S := jigd sample_env) pair_id.
Proof. reflexivity. Qed.
Lemma restart_request : request (S := jigd_process sample_setting) pair_id = request (S := jigd sample_env) pair_id.
Proof. reflexivity. Qed.
Lemma restart_known : known (S := jigd_process sample_setting) = known (S := jigd sample_env).
Proof. reflexivity. Qed.

