(* ===== verification/Runpath.v ===== *)
(** * The RUNPATH the driver writes has room for the one the fixup writes

    [RunpathList::Render] (driver.cc) pads the RUNPATH of every ELF link; [FixRunpath] (elf_fixup.cc)
    later overwrites it in place with the relocatable RUNPATH and the direct names of the libraries. *)

From S2P Require Import Prelude Paths Base Keys Store Image ElfFixup Aterm Driver.

Abbreviation colon := (":"%char).

(** *** lists of elements, each closed by a colon *)

Definition closed (ps : list str) : str := concat (map (λ p, p ++ lit ":") ps).

(** the bytes of some elements, each with one separator *)
Definition weight (ps : list str) : nat := sum_list_with (λ p, S (length p)) ps.

Lemma closed_app a b : closed (a ++ b) = closed a ++ closed b.
Proof. unfold closed. by rewrite map_app, concat_app. Qed.

Lemma closed_length ps : length (closed ps) = weight ps.
Proof.
  induction ps as [|p ps IH]; [done|]. change (closed (p :: ps)) with ((p ++ lit ":") ++ closed ps).
  rewrite !length_app, IH. unfold weight. simpl. lia.
Qed.

Lemma closed_pieces ps last :
  Forall (λ p, colon ∉ p) ps → colon ∉ last → pieces colon (closed ps ++ last) = ps ++ [last].
Proof.
  intros Hps Hl. induction Hps as [|p ps Hp _ IH]; [by apply pieces_free|].
  change (closed (p :: ps)) with ((p ++ lit ":") ++ closed ps).
  rewrite <-!app_assoc. change (lit ":" ++ closed ps ++ last) with (colon :: (closed ps ++ last)).
  rewrite pieces_app by done. by rewrite IH.
Qed.

Lemma count_free c s : c ∉ s → count_chr c s = 0.
Proof.
  unfold count_chr. induction s as [|d s IH]; intros Hn; [done|]. cbn [List.filter].
  rewrite bool_decide_eq_false_2 by set_solver. apply IH. set_solver.
Qed.

Lemma count_app c a b : count_chr c (a ++ b) = count_chr c a + count_chr c b.
Proof. unfold count_chr. by rewrite List.filter_app, length_app. Qed.

Lemma count_closed ps : Forall (λ p, colon ∉ p) ps → count_chr colon (closed ps) = length ps.
Proof.
  induction 1 as [|p ps Hp _ IH]; [done|]. change (closed (p :: ps)) with ((p ++ lit ":") ++ closed ps).
  by rewrite !count_app, IH, count_free.
Qed.

(** *** what the driver builds *)

(** the verbatim part is a closed list *)
Definition verbatim_closed (r : RunpathList) : Prop :=
  ∃ ps, verbatim_ r = closed ps ∧ Forall (λ p, colon ∉ p) ps.

Lemma AddVerbatim_closed rpath r : verbatim_closed r → verbatim_closed (AddVerbatim rpath r).
Proof.
  intros (ps & Hv & Hps). unfold verbatim_closed, AddVerbatim. cbn [verbatim_]. rewrite Hv, Split_pieces.
  unfold Base.keep. pose proof (pieces_sep_free colon rpath) as Hq. revert Hq.
  generalize (pieces colon rpath). intros qs Hq. clear Hv. revert ps Hps.
  induction Hq as [|q qs Hq _ IH]; intros ps Hps; [by exists ps|]. cbn [foldl]. destruct (IsHostDir q); [by apply IH|].
  replace (closed ps ++ q ++ lit ":") with (closed (ps ++ [q])).
  - apply IH. apply Forall_app. split; [done|by repeat constructor].
  - rewrite closed_app. unfold closed at 2. cbn [map concat]. by rewrite app_nil_r.
Qed.

Lemma scan_loop_closed policy raw skip user :
  verbatim_closed (u_runpath user) → verbatim_closed (u_runpath (scan_loop policy raw skip user)).
Proof.
  revert skip user. induction raw as [|arg rest IH]; intros skip user Hu; [done|]. cbn [scan_loop].
  destruct skip as [|k]; [|by apply IH].
  destruct (if takes_rpath policy then TakeRpathArg (arg :: rest) else None) as [[rpath n]|].
  - apply IH. cbn [u_runpath]. by apply AddVerbatim_closed.
  - by destruct (arg_as policy arg); apply IH.
Qed.

Lemma Add_verbatim dir r : verbatim_ (Add dir r) = verbatim_ r.
Proof. unfold Add. by destruct (_ || _). Qed.

Lemma link_loop_verbatim canonical st args s :
  verbatim_ (ls_runpath (link_loop canonical st args s)) = verbatim_ (ls_runpath s).
Proof.
  revert s. induction args as [|arg rest IH]; intros s; [done|]. cbn [link_loop]. rewrite IH.
  set (s1 := match FlagValue _ _ with Some _ => _ | None => _ end).
  assert (H : verbatim_ (ls_runpath s1) = verbatim_ (ls_runpath s)).
  { subst s1. destruct (FlagValue _ _); [done|]. destruct (FlagValue _ _); [done|].
    destruct (_ && _); [apply Add_verbatim|done]. }
  by destruct (_ || _).
Qed.

Lemma AddRunpathEntries_verbatim exists_ canonical st conf cxx args r :
  verbatim_ (AddRunpathEntries exists_ canonical st conf cxx args r).2 = verbatim_ r.
Proof.
  unfold AddRunpathEntries. cbn [snd]. rewrite Add_verbatim.
  set (s := link_loop _ _ _ _). set (step := λ r dir, _).
  assert (Hfold : verbatim_ (foldl step (ls_runpath s) (ls_dirs s)) = verbatim_ r).
  { transitivity (verbatim_ (ls_runpath s)); [|apply link_loop_verbatim].
    generalize (ls_runpath s) as r'. generalize (ls_dirs s). induction l as [|d l IH]; intros r'; [done|].
    cbn [foldl]. rewrite IH. unfold step. destruct (_ && _); [apply Add_verbatim|done]. }
  destruct (_ && _); [by rewrite Add_verbatim|done].
Qed.

Lemma CollectRunpath_closed exists_ canonical st conf cxx raw :
  verbatim_closed (CollectRunpath exists_ canonical st conf cxx (ScanUserArgs raw (PolicyFor kElf))).2.
Proof.
  unfold verbatim_closed, CollectRunpath. rewrite AddRunpathEntries_verbatim. apply scan_loop_closed. by exists [].
Qed.

(** the pad entry *)
Definition pad (stores libs : nat) : str :=
  lit "/" ++ replicate (Nat.max stores 1 * kRunpathSlack + libs * kNeededSlack - 1) "_"%char.

Lemma replicate_free {c d : ascii} n : c ≠ d → c ∉ replicate n d.
Proof. intros Hne. induction n; set_solver. Qed.

Lemma pad_free stores libs : colon ∉ pad stores libs.
Proof. unfold pad. intros [H|H]%elem_of_app; [set_solver|]. by apply replicate_free in H. Qed.

Lemma pad_length stores libs : length (pad stores libs) = Nat.max stores 1 * kRunpathSlack + libs * kNeededSlack.
Proof. unfold pad. rewrite length_app, length_replicate. unfold kRunpathSlack. change (length (lit "/")) with 1. lia. Qed.

Lemma Render_elements r libs :
  verbatim_closed r → Forall (λ e, colon ∉ e) (entries_ r) →
  ∃ ps, Render r libs = closed ps ++ pad (length ps) libs ∧ Forall (λ p, colon ∉ p) ps.
Proof.
  intros (vs & Hv & Hvs) He. exists (vs ++ map (λ e, e ++ lit "/.") (entries_ r)). split.
  - unfold Render. rewrite Hv, count_closed, closed_app by done. unfold pad.
    rewrite length_app, length_map, (Nat.add_comm (length vs)), <-!app_assoc. f_equal. f_equal.
    unfold closed. rewrite map_map. f_equal. apply map_ext. intros e. by rewrite <-app_assoc.
  - apply Forall_app. split; [done|]. apply Forall_map. eapply Forall_impl; [exact He|].
    intros e Hc [H|H]%elem_of_app; [done|]. set_solver.
Qed.

(** *** what the fixup writes *)

Definition kept_weight (rp : list runpath_dir) : nat := weight (map entry (List.filter keep rp)).

Lemma weight_app a b : weight (a ++ b) = weight a + weight b.
Proof. apply sum_list_with_app. Qed.

Lemma Join_weight ps : length (Join ps ":") ≤ weight ps.
Proof.
  unfold Join. assert (H : ∀ acc : str, length (foldl (λ out part, (if out == [] then out else out ++ lit ":") ++ part) acc ps)
    ≤ length acc + weight ps); [|apply (H [])].
  induction ps as [|p ps IH]; intros acc; cbn [foldl]; [lia|]. etransitivity; [apply IH|].
  change (weight (p :: ps)) with (S (length p) + weight ps).
  destruct (acc == []); rewrite !length_app; change (length (lit ":")) with 1; lia.
Qed.

Lemma RenderRunpath_weight rp : length (RenderRunpath rp) ≤ kept_weight rp.
Proof.
  unfold RenderRunpath. etransitivity; [apply Join_weight|]. unfold kept_weight.
  match goal with |- weight (foldl ?f [] rp) ≤ _ => set (step := f) end.
  assert (H : ∀ acc, weight (foldl step acc rp) ≤ weight acc + weight (map entry (List.filter keep rp))); [|apply (H [])].
  induction rp as [|d rp IH]; intros acc; cbn [foldl List.filter map]; [lia|]. etransitivity; [apply IH|].
  unfold step. destruct (keep d); cbn [andb]; [|lia]. cbn [map]. change (weight (entry d :: ?x)) with (S (length (entry d)) + weight x).
  destruct (negb _); [|lia]. rewrite weight_app. change (weight [entry d]) with (S (length (entry d)) + 0). lia.
Qed.

Lemma set_keep_weight i rp : kept_weight (set_keep false i rp) ≤ kept_weight rp.
Proof.
  revert i. induction rp as [|d rp IH]; intros i; [done|]. unfold kept_weight, set_keep in *.
  destruct i as [|i]; cbn [alter list_alter List.filter keep].
  - destruct (keep d); [|done]. cbn [map]. change (weight (entry d :: ?x)) with (S (length (entry d)) + weight x). lia.
  - specialize (IH i). destruct (keep d); [|done]. cbn [map].
    change (weight (entry d :: ?x)) with (S (length (entry d)) + weight x). lia.
Qed.

Lemma plan_weight exists_ p libs : kept_weight (pl_runpath (foldl (plan_one exists_) p libs)) ≤ kept_weight (pl_runpath p).
Proof.
  revert p. induction libs as [|l libs IH]; intros p; [done|]. cbn [foldl]. etransitivity; [apply IH|].
  unfold plan_one. destruct (_ || _); [done|]. destruct (find_dir _ _ _) as [i|]; [|done].
  destruct (_ !! _) as [d|]; [|done]. destruct (IsLibc _ _); [done|]. cbn [pl_runpath]. apply set_keep_weight.
Qed.

(** the elements of the old RUNPATH that stay, respelled, weigh at most [kRunpathSlack] more each *)
Lemma Relativize_weight ctx st ps last here :
  let old := closed ps ++ last in
  let final := final_dir ctx (Final ctx here) in
  Forall (λ p, colon ∉ p) ps → colon ∉ last →
  (∀ ent, ent ∈ ps → nonempty ent = true → IsStorePath st (final ent) = true →
     length (RelativeTo (Final ctx here) (final ent) kOrigin) ≤ length ent + kRunpathSlack) →
  IsStorePath st (final last) = false →
  kept_weight (RelativizeRunpath ctx st old here) ≤ weight ps + length ps * kRunpathSlack.
Proof.
  intros old final Hps Hl Hlen Hpad. unfold RelativizeRunpath, kept_weight.
  rewrite List.filter_app, map_app, weight_app, Split_pieces. unfold old. rewrite closed_pieces by done.
  assert (Hown : List.filter keep (map (λ own, RunpathDir (RelativeTo (Final ctx here) (Final ctx own) kOrigin) own false)
    (own_lib_dirs ctx)) = []) by (induction (own_lib_dirs ctx); done).
  rewrite Hown. cbn [map]. change (weight []) with 0. rewrite Nat.add_0_r.
  unfold Base.keep. rewrite List.filter_app, omap_app, List.filter_app, map_app, weight_app. fold final.
  assert (Hlast : omap (λ ent, if IsStorePath st (final ent)
      then Some (RunpathDir (RelativeTo (Final ctx here) (final ent) kOrigin) (OnDisk ctx (final ent)) true) else None)
      (List.filter nonempty [last]) = []) by (cbn [List.filter]; destruct (nonempty last); cbn; by rewrite ?Hpad).
  rewrite Hlast. change (weight (map entry (List.filter keep []))) with 0. rewrite Nat.add_0_r. clear Hlast Hown.
  clear Hps. induction ps as [|p ps IH]; [done|]. change (weight (p :: ps)) with (S (length p) + weight ps).
  cbn [length]. assert (IHps := IH ltac:(set_solver)). cbn [List.filter]. destruct (nonempty p) eqn:En; [|lia].
  cbn [omap list_omap]. pose proof (Hlen p ltac:(set_solver) En) as Hp. destruct (IsStorePath st (final p)); [|lia].
  cbn [List.filter keep map entry]. change (weight (?e :: ?x)) with (S (length e) + weight x). specialize (Hp eq_refl). lia.
Qed.

Lemma blob_length neu targets : length (blob_of neu targets) = length neu + weight targets.
Proof.
  unfold blob_of. rewrite length_app. f_equal. induction targets as [|t ts IH]; [done|].
  cbn [map concat]. rewrite length_app, IH. done.
Qed.

Lemma weight_bound ps k : (∀ p, p ∈ ps → length p < k) → weight ps ≤ length ps * k.
Proof.
  induction ps as [|p ps IH]; intros H; [done|]. change (weight (p :: ps)) with (S (length p) + weight ps).
  pose proof (H p ltac:(set_solver)). specialize (IH ltac:(set_solver)). cbn [length]. lia.
Qed.

(** C22. The driver and the fixup keep their agreement on room. The RUNPATH the driver passes to the
    linker is padded so that the fixup can put in its place, in the same bytes, the relocatable RUNPATH
    and the direct names of the libraries: this fits whenever no directory grows by more than
    [kRunpathSlack] bytes when it is respelled, no more libraries are named directly than there were -l
    arguments, and every direct name is shorter than [kNeededSlack]. *)
Theorem driver_leaves_room exists_ canonical st conf cxx raw present ctx target_st path needed :
  let '(libs, r) := CollectRunpath exists_ canonical st conf cxx (ScanUserArgs raw (PolicyFor kElf)) in
  let old := Render r libs in
  let p := plan_of present ctx target_st path old needed in
  let final_here := Final ctx (parent_path path) in
  let targets := map (target (pl_runpath p)) (pl_direct p) in
  Forall (λ e, colon ∉ e) (entries_ r) →
  (∀ ent, last (Split old ":" false) = Some ent →
     IsStorePath target_st (final_dir ctx final_here ent) = false) →
  (∀ ent, ent ∈ Split old ":" false → IsStorePath target_st (final_dir ctx final_here ent) = true →
     length (RelativeTo final_here (final_dir ctx final_here ent) kOrigin) ≤ length ent + kRunpathSlack) →
  length targets ≤ libs → (∀ t, t ∈ targets → length t < kNeededSlack) →
  length (blob_of (RenderRunpath (pl_runpath p)) targets) ≤ length old.
Proof.
  pose proof (CollectRunpath_closed exists_ canonical st conf cxx raw) as Hcl.
  destruct (CollectRunpath _ _ _ _ _ _) as [libs r]. cbn [snd] in Hcl. cbv zeta.
  intros He Hpad Hlen Hn Ht. destruct (Render_elements r libs Hcl He) as (ps & Hold & Hps).
  pose proof (pad_free (length ps) libs) as Hpf. pose proof (pad_length (length ps) libs) as Hpl.
  assert (Hsplit : Split (Render r libs) ":" false = List.filter nonempty ps ++ [pad (length ps) libs]).
  { rewrite Split_pieces, Hold, closed_pieces by done. unfold Base.keep. by rewrite List.filter_app. }
  rewrite Hsplit in Hpad, Hlen. rewrite blob_length.
  assert (Hw : kept_weight (RelativizeRunpath ctx target_st (Render r libs) (parent_path path)) ≤
    weight ps + length ps * kRunpathSlack).
  { rewrite Hold. apply Relativize_weight; [done|done| |].
    - intros ent Hin En Hst. apply Hlen; [|done]. apply elem_of_app. left.
      apply list_elem_of_In, List.filter_In. by rewrite <-list_elem_of_In.
    - apply Hpad, last_snoc. }
  pose proof (RenderRunpath_weight (pl_runpath (plan_of present ctx target_st path (Render r libs) needed))) as H1.
  pose proof (plan_weight present (Plan (RelativizeRunpath ctx target_st (Render r libs) (parent_path path)) [] ctx) needed) as H2.
  pose proof (weight_bound _ _ Ht) as H3.
  assert (H4 : length (Render r libs) = weight ps + (Nat.max (length ps) 1 * kRunpathSlack + libs * kNeededSlack))
    by (by rewrite Hold, length_app, closed_length, Hpl).
  cbn [pl_runpath] in H2. unfold plan_of in *. nia.
Qed.

Definition room_hash : str := "0123456789abcdfghijklmnpqrsvwxyz".
Definition room_dir (name : str) : str := lit "/nix/store/" ++ room_hash ++ lit "-" ++ name.
Definition room_store : store := MakeStore "/nix/store" "" "" "".
Definition room_exists (path : str) : bool := lexically_normal path == (room_dir "zlib" ++ lit "/lib/libz.so").
Definition room_conf : DriverConf :=
  Driver_conf "clang" [] kElf (room_dir "glibc") "ld.so" [] [] [] [] [] [] no_package true.
Definition room_raw : list str := [lit "a.o"; lit "-L" ++ room_dir "zlib" ++ lit "/lib"; lit "-lz"].
Definition room_old : str :=
  let '(libs, r) := CollectRunpath room_exists Some room_store room_conf false (ScanUserArgs room_raw (PolicyFor kElf)) in
  Render r libs.
Definition room_ctx : context := Context_ (room_dir "app") (room_dir "app") [] [] [] 0.
Definition room_plan : plan :=
  plan_of room_exists room_ctx room_store (room_dir "app" ++ lit "/bin/app") room_old [Needed "libz.so" 0 []].
Definition room_blob : str :=
  blob_of (RenderRunpath (pl_runpath room_plan)) (map (target (pl_runpath room_plan)) (pl_direct room_plan)).

Lemma short_all l k : forallb (λ e : str, (length e <? k)%nat) l = true → ∀ t, t ∈ l → length t < k.
Proof. intros H t Hin. rewrite forallb_forall in H. apply Nat.ltb_lt. by apply (H t), list_elem_of_In. Qed.

Lemma driver_leaves_room_witness :
  length (pl_direct room_plan) = 1 ∧ length room_blob ≤ length room_old.
Proof.
  split; [vm_compute; reflexivity|].
  pose proof (driver_leaves_room room_exists Some room_store room_conf false room_raw room_exists room_ctx room_store
    (room_dir "app" ++ lit "/bin/app") [Needed "libz.so" 0 []]) as H.
  unfold room_blob, room_plan, room_old. destruct (CollectRunpath _ _ _ _ _ _) as [libs r] eqn:E.
  vm_compute in E. injection E as <- <-. apply H; clear H.
  - repeat (apply Forall_cons; split; [vm_compute; set_solver|]). constructor.
  - intros ent Hl. vm_compute in Hl. injection Hl as <-. vm_compute. reflexivity.
  - intros ent Hin _.
    match type of Hin with ent ∈ ?l => assert (Hb : forallb (λ e,
      (length (RelativeTo (Final room_ctx (parent_path (room_dir "app" ++ lit "/bin/app")))
        (final_dir room_ctx (Final room_ctx (parent_path (room_dir "app" ++ lit "/bin/app"))) e) kOrigin) <=?
        length e + kRunpathSlack)%nat) l = true) by (vm_compute; reflexivity) end.
    rewrite forallb_forall in Hb. apply Nat.leb_le, Hb. by apply list_elem_of_In.
  - apply Nat.leb_le. vm_compute. reflexivity.
  - apply short_all. vm_compute. reflexivity.
Defined.
