(* ===== verification/RustcMode.v ===== *)
(** * rustc_mode.h, rustc_mode.cc: the cached Rust compiler

    Cargo's RUSTC_WRAPPER: [ParseRustInvocation], the dep-info parser, the packed artifacts of one
    crate and [RunRustcMode]. rustc, the file system, the environment, BLAKE3 and zstd are parameters;
    the daemon is any [Peer] behind the cache connection. *)

From S2P Require Import Prelude Paths Base Keys Store Manifest CacheClient Process CacheFlow Aterm CcMode.

(** ** RustInvocation *)

Record RustInvocation := Rust {
  ri_args : list str;
  ri_key_args : list str;
  ri_externs : list str;
  ri_source : str;
  ri_crate_name : str;
  ri_out_dir : str;
  ri_sysroot : str;
  ri_extra_filename : str;
  ri_links : bool;
  ri_has_crate_type : bool;
  ri_cacheable : bool;
  ri_query : bool;
  ri_has_dep_info : bool;
}.

Definition kTwoTokenOptions : list str :=
  [lit "-C"; lit "--cfg"; lit "--check-cfg"; lit "--cap-lints"; lit "--edition"; lit "--target"; lit "--crate-type";
   lit "-Z"; lit "-W"; lit "-A"; lit "-D"; lit "-F"; lit "--error-format"; lit "--json"; lit "--diagnostic-width";
   lit "--remap-path-prefix"; lit "-l"].

Definition add_key (k : str) (i : RustInvocation) : RustInvocation :=
  Rust (ri_args i) (ri_key_args i ++ [k]) (ri_externs i) (ri_source i) (ri_crate_name i) (ri_out_dir i) (ri_sysroot i)
    (ri_extra_filename i) (ri_links i) (ri_has_crate_type i) (ri_cacheable i) (ri_query i) (ri_has_dep_info i).
Definition set_out_dir (v : str) (i : RustInvocation) : RustInvocation :=
  Rust (ri_args i) (ri_key_args i) (ri_externs i) (ri_source i) (ri_crate_name i) v (ri_sysroot i)
    (ri_extra_filename i) (ri_links i) (ri_has_crate_type i) (ri_cacheable i) (ri_query i) (ri_has_dep_info i).
Definition set_sysroot (v : str) (i : RustInvocation) : RustInvocation :=
  Rust (ri_args i) (ri_key_args i) (ri_externs i) (ri_source i) (ri_crate_name i) (ri_out_dir i) v
    (ri_extra_filename i) (ri_links i) (ri_has_crate_type i) (ri_cacheable i) (ri_query i) (ri_has_dep_info i).
Definition set_crate_name (v : str) (i : RustInvocation) : RustInvocation :=
  Rust (ri_args i) (ri_key_args i) (ri_externs i) (ri_source i) v (ri_out_dir i) (ri_sysroot i)
    (ri_extra_filename i) (ri_links i) (ri_has_crate_type i) (ri_cacheable i) (ri_query i) (ri_has_dep_info i).
Definition add_extern (v : str) (i : RustInvocation) : RustInvocation :=
  Rust (ri_args i) (ri_key_args i) (ri_externs i ++ [v]) (ri_source i) (ri_crate_name i) (ri_out_dir i) (ri_sysroot i)
    (ri_extra_filename i) (ri_links i) (ri_has_crate_type i) (ri_cacheable i) (ri_query i) (ri_has_dep_info i).
Definition set_flags (links crate_type cacheable query dep_info : bool) (i : RustInvocation) : RustInvocation :=
  Rust (ri_args i) (ri_key_args i) (ri_externs i) (ri_source i) (ri_crate_name i) (ri_out_dir i) (ri_sysroot i)
    (ri_extra_filename i) links crate_type cacheable query dep_info.
Definition set_source (v : str) (i : RustInvocation) : RustInvocation :=
  Rust (ri_args i) (ri_key_args i) (ri_externs i) v (ri_crate_name i) (ri_out_dir i) (ri_sysroot i)
    (ri_extra_filename i) (ri_links i) (ri_has_crate_type i) (ri_cacheable i) (ri_query i) (ri_has_dep_info i).
Definition set_extra (v : str) (i : RustInvocation) : RustInvocation :=
  Rust (ri_args i) (ri_key_args i) (ri_externs i) (ri_source i) (ri_crate_name i) (ri_out_dir i) (ri_sysroot i)
    v (ri_links i) (ri_has_crate_type i) (ri_cacheable i) (ri_query i) (ri_has_dep_info i).

(** "--flag value" or "--flag=value": the value, and how many further arguments it took *)
Definition take_option (arg : str) (rest : list str) (flag : str) : option (str * nat) :=
  match (if arg == flag then head rest else None) with
  | Some next => Some (next, 1)
  | None =>
      if (length flag <? length arg)%nat && starts_with arg flag && (arg !! length flag == Some "="%char)
      then Some (drop (length flag + 1) arg, 0) else None
  end.

Definition TakeNamedOption (arg : str) (rest : list str) (inv : RustInvocation) : option (RustInvocation * nat) :=
  match take_option arg rest "--out-dir" with
  | Some (v, n) => Some (set_out_dir v inv, n)
  | None =>
  match take_option arg rest "--sysroot" with
  | Some (v, n) => Some (set_sysroot v (add_key (lit "--sysroot=" ++ v) inv), n)
  | None =>
  match take_option arg rest "--crate-name" with
  | Some (v, n) => Some (set_crate_name v (add_key (lit "--crate-name=" ++ v) inv), n)
  | None =>
  match take_option arg rest "--extern" with
  | Some (v, n) =>
      let inv := match find "=" v with Some equals => add_extern (drop (equals + 1) v) inv | None => inv end in
      Some (add_key (lit "--extern=" ++ v) inv, n)
  | None =>
  match take_option arg rest "--emit" with
  | Some (v, n) =>
      Some (add_key (lit "--emit=" ++ v)
              (set_flags (ri_links inv) (ri_has_crate_type inv) (ri_cacheable inv) (ri_query inv)
                 (ri_has_dep_info inv || contains v "dep-info") inv), n)
  | None =>
  match take_option arg rest "-L" with
  | Some (_, n) => Some (inv, n)
  | None => None
  end end end end end end.

Definition crate_types : list str :=
  [lit "--crate-type=bin"; lit "--crate-type=proc-macro"; lit "--crate-type=cdylib"; lit "--crate-type=dylib"].

Definition TakeCodegenOption (arg : str) (rest : list str) (inv : RustInvocation) : RustInvocation * nat :=
  let '(full, n) :=
    match (if bool_decide (arg ∈ kTwoTokenOptions) then head rest else None) with
    | Some next => (arg ++ lit "=" ++ next, 1)
    | None => (if starts_with arg "-C" && negb (starts_with arg "-C=") then take 2 arg ++ lit "=" ++ drop 2 arg else arg, 0)
    end in
  if starts_with full "-C=incremental=" then
    (set_flags (ri_links inv) (ri_has_crate_type inv) false (ri_query inv) (ri_has_dep_info inv) inv, n)
  else if starts_with full "-C=extra-filename=" then (set_extra (drop (length (lit "-C=extra-filename=")) full) inv, n)
  else if negb (starts_with full "-C=metadata=") then
    (add_key full
       (set_flags (ri_links inv || bool_decide (full ∈ crate_types)) (ri_has_crate_type inv || starts_with full "--crate-type=")
          (ri_cacheable inv) (ri_query inv) (ri_has_dep_info inv) inv), n)
  else (inv, n).

Definition rust_arg (arg : str) (rest : list str) (s : RustInvocation * nat) : (RustInvocation * nat) * nat :=
  let '(inv, sources) := s in
  match TakeNamedOption arg rest inv with
  | Some (inv, n) => ((inv, sources), n)
  | None =>
      if (arg == lit "--print") || starts_with arg "--print=" || (arg == lit "-") || (arg == lit "-vV") || (arg == lit "--version")
      then ((set_flags (ri_links inv) (ri_has_crate_type inv) (ri_cacheable inv) true (ri_has_dep_info inv) inv, sources), 0)
      else if arg == lit "-o"
      then ((set_flags (ri_links inv) (ri_has_crate_type inv) false (ri_query inv) (ri_has_dep_info inv) inv, sources), 0)
      else if negb (starts_with arg "-") && ends_with arg ".rs" then ((set_source arg inv, S sources), 0)
      else let '(inv, n) := TakeCodegenOption arg rest inv in ((inv, sources), n)
  end.

Fixpoint rust_loop (args : list str) (skip : nat) (s : RustInvocation * nat) : RustInvocation * nat :=
  match args with
  | [] => s
  | arg :: rest =>
      match skip with
      | S k => rust_loop rest k s
      | 0 => let '(s, n) := rust_arg arg rest s in rust_loop rest n s
      end
  end.

Definition no_rust (args : list str) : RustInvocation := Rust args [] [] [] [] [] [] [] false false true false false.

Definition ParseRustInvocation (args : list str) : RustInvocation :=
  let '(inv, sources) := rust_loop args 0 (no_rust args, 0) in
  let links := ri_links inv || negb (ri_has_crate_type inv) in
  let plain := ri_query inv || links || negb (sources =? 1)%nat || (ri_out_dir inv == []) || negb (ri_has_dep_info inv) in
  set_flags links (ri_has_crate_type inv) (ri_cacheable inv && negb plain) (ri_query inv) (ri_has_dep_info inv) inv.

(** ** Dep-info *)

Record DepInfo := Dep_info { d_outputs : list str; d_inputs : list str }.

(** [fs::absolute(path).lexically_normal()] in the working directory [cwd] *)
Definition absolute_normal (cwd path : str) : str := lexically_normal (cwd /p/ path).

Definition dep_line (cwd : str) (info : DepInfo) (line : str) : DepInfo :=
  if starts_with line "#" then info
  else match find ": " line with
       | None => info
       | Some colon =>
           Dep_info (d_outputs info ++ [take colon line])
             (if d_inputs info == [] then map (absolute_normal cwd) (ParseDepfile line) else d_inputs info)
       end.
Definition ParseDepInfo (cwd text : str) : DepInfo := foldl (dep_line cwd) (Dep_info [] []) (Split text chr_nl false).

(** ** The packed artifacts *)

Definition kPermissionBits : N := 511.

(** [read] and [mode]: what the files hold and their st_mode *)
Definition pack_file (read : str → option str) (mode : str → N) (stem path : str) : str :=
  match read path with
  | None => []
  | Some data =>
      ReplaceAll (filename path) stem "@" ++ lit " " ++ fmt_uint 8 (N.land (mode path) kPermissionBits) ++ lit " " ++
      to_string (length data) ++ nl ++ data
  end.
Definition PackFiles (read : str → option str) (mode : str → N) (paths : list str) (stem : str) : str :=
  concat (map (pack_file read mode stem) paths).

(** a file written, with the permissions it got *)
Record restored := Restored { r_path : str; r_bytes : str; r_mode : N }.

(** [write_ok]: which writes succeed. The result: whether all did, and what was written *)
Fixpoint unpack_loop (fuel : nat) (write_ok : str → bool) (blob dir stem : str) (done_ : list restored)
  : bool * list restored :=
  match fuel with
  | 0 => (true, done_)
  | S fuel =>
      if blob == [] then (true, done_)
      else
        match find nl blob with
        | None => (false, done_)
        | Some newline =>
            match Split (take newline blob) " " false with
            | [name; mode; size] =>
                match ParseUint mode 8, ParseUint size 10 with
                | Some mode, Some size =>
                    if (N.of_nat (length blob - (newline + 1)) <? size)%N then (false, done_)
                    else
                      let out := dir /p/ ReplaceAll name "@" stem in
                      if negb (write_ok out) then (false, done_)
                      else
                        let size := N.to_nat size in
                        unpack_loop fuel write_ok (drop (newline + 1 + size) blob) dir stem
                          (done_ ++ [Restored out (substr blob (newline + 1) size) mode])
                | _, _ => (false, done_)
                end
            | _ => (false, done_)
            end
        end
  end.
Definition UnpackFiles (write_ok : str → bool) (blob dir stem : str) : bool * list restored :=
  unpack_loop (S (length blob)) write_ok blob dir stem [].

(** ** RunRustcMode *)

Section Rustc.
Context (blake3 : str → str) (zstd_compress zstd_decompress : str → option str).
(** the file system before the run: contents, existence, canonical paths, the entries of a directory;
    $PATH; the environment; the working directory *)
Context (read : str → option str) (exists_ : str → bool) (canonical : str → option str) (weakly_canonical : str → str)
        (dir_entries : str → list str) (OnPath : str → str) (env : str → str) (cwd : str).
Context {S : Type} `{Peer S}.

Definition is_std_rlib (name : str) : bool :=
  (starts_with name "libstd-" || starts_with name "libcore-") && ends_with name ".rlib".
Definition stdlib_files (real sysroot : str) : list str :=
  let roots := parent_path (parent_path real) :: (if sysroot == [] then [] else [sysroot]) in
  NixHash.sort_strings (concat (map (λ root,
    concat (map (λ triple,
      map weakly_canonical (List.filter (λ entry, is_std_rlib (filename entry)) (dir_entries (triple /p/ lit "lib"))))
      (dir_entries (root /p/ lit "lib" /p/ lit "rustlib")))) roots)).
Definition StdlibIds (rustc sysroot : str) (st : store) : io (str * store) := λ c,
  match canonical (OnPath rustc) with
  | None => ((lit "?", st), c)
  | Some real =>
      let libs := stdlib_files real sysroot in
      let '(ids, c) := ask_ids st libs c in
      let st := PrefetchIdentities (λ _, ids) st libs in
      ((concat (map (λ lib, default (lit "?") (InputId blake3 read st lib) ++ lit ",") libs), st), c)
  end.

Definition rust_env : list str :=
  [lit "CARGO_PKG_NAME"; lit "CARGO_PKG_VERSION"; lit "CARGO_CFG_TARGET_FEATURE"; lit "RUSTFLAGS";
   lit "CARGO_ENCODED_RUSTFLAGS"].

(** the fields of the request key, in order *)
Definition rust_fields (st : store) (rustc stdlib : str) (inv : RustInvocation) (source_bytes : str) : list str :=
  [lit "rs-schema=7"; lit "rustc=" ++ ToolId canonical st (OnPath rustc); lit "stdlib=" ++ stdlib;
   lit "cwd=" ++ Key st cwd; lit "src=" ++ Key st (ri_source inv)] ++
  map (Key st) (ri_key_args inv) ++
  map (λ rlib, lit "extern:" ++ default (lit "?") (InputId blake3 read st rlib)) (ri_externs inv) ++
  map (λ var, var ++ lit "=" ++ env var) rust_env ++
  [source_bytes].

Inductive rust_effect :=
| RRestored (file : restored)
| RPrintedErr (text : str)
| RLogged (outcome : Outcome) (subject : str).

(** a run of rustc: its result, the file system it left and the modes of its files *)
Definition rustc_run : Type := StderrMode → str → list str → RunResult * world * (str → N).

Definition rust_outcome (inv : RustInvocation) (have_source : bool) : Outcome :=
  if ri_query inv then kPlainQuery
  else if negb (ri_cacheable inv) then (if ri_links inv then kPlainLink else kPlainCompile)
  else if negb have_source then kPlainNoSource else kPlainNoSocket.

Definition RustUncached (e : process) (compile : rustc_run) (socket_path : str) (connects : option S) (rustc : str)
    (inv : RustInvocation) (have_source : bool) (label : str) : io (N * list rust_effect) := λ c,
  let '(slot, c) :=
    if ri_source inv != [] then Slot_open (e_jig_slot e) (e_build_top e) socket_path connects c else (None, c) in
  let '(run, _, _) := compile kInherit rustc (ri_args inv) in
  let '(_, c) := Slot_close slot c in
  ((status run, [RLogged (rust_outcome inv have_source) label]), c).

(** the lookup of a request and the replay of its artifacts; [inr]: why there is nothing to replay *)
Definition RustLookup (write_ok : str → bool) (digest : str) (inv : RustInvocation) (st : store)
  : io ((list rust_effect + list rust_effect * str) * store) := λ c,
  let '((verdict, st), c) := find_result blake3 zstd_decompress read exists_ kRustc st digest c in
  match verdict with
  | Unexpected why => ((inr ([], why), st), c)
  | Ok key =>
      let '(blob, c) := Get zstd_decompress (slot_key (Object key)) c in
      match blob with
      | None => ((inr ([], lit "object-gone"), st), c)
      | Some blob =>
          let '(ok, files) := UnpackFiles write_ok blob (ri_out_dir inv) (ri_extra_filename inv) in
          if negb ok then ((inr (map RRestored files, lit "object-gone"), st), c)
          else
            let '(text, c) := Get zstd_decompress (slot_key (Stderr key)) c in
            ((inl (map RRestored files ++ [RPrintedErr (default [] text)]), st), c)
      end
  end.

(** what follows a run of rustc that was not replayed *)
Definition RustStore (digest : str) (inv : RustInvocation) (missed : str) (run : RunResult) (after : world)
    (mode : str → N) (st : store) : io (N * list rust_effect * store) := λ c,
  let said := RPrintedErr (stderr_text run) in
  if negb (status run =? 0)%N then ((status run, [said; RLogged kMissFail missed], st), c)
  else
    match after.1 (ri_out_dir inv /p/ (ri_crate_name inv ++ ri_extra_filename inv ++ lit ".d")) with
    | None => ((0%N, [said; RLogged kMissUnstored missed], st), c)
    | Some dep_text =>
        let info := ParseDepInfo cwd dep_text in
        let '((text, key, st), c) :=
          build_manifest blake3 kRustc st digest (d_inputs info) (absolute_normal cwd (ri_source inv)) [] after c in
        let '(_, c) := put_each zstd_compress
          [(slot_key (Manifest kRustc digest), text);
           (slot_key (Object key), PackFiles after.1 mode (d_outputs info) (ri_extra_filename inv));
           (slot_key (Stderr key), stderr_text run)] c in
        ((0%N, [said; RLogged kMissStored missed], st), c)
    end.

Definition RunRustcMode (e : process) (compile : rustc_run) (write_ok : str → bool) (args : list str)
    (socket_path : str) (connects : option S) (st : store) : io (N * list rust_effect * store) := λ c,
  match args with
  | [] => ((1%N, [RPrintedErr (lit "rustcwrap: usage: rustcwrap <rustc> args..." ++ nl)], st), c)
  | rustc :: args =>
      let inv := ParseRustInvocation args in
      let label := if ri_crate_name inv == [] then ri_source inv else ri_crate_name inv ++ ri_extra_filename inv in
      match (if ri_cacheable inv then read (ri_source inv) else None) with
      | None =>
          let '((s, effects), c) := RustUncached e compile socket_path connects rustc inv false label c in
          ((s, effects, st), c)
      | Some source_bytes =>
          let '(connected, c) := Connect socket_path connects c in
          if negb connected then
            let '((s, effects), c) := RustUncached e compile socket_path connects rustc inv true label c in
            ((s, effects, st), c)
          else
            let '((stdlib, st), c) := StdlibIds rustc (ri_sysroot inv) st c in
            let digest := Finish blake3 (fields (rust_fields st rustc stdlib inv source_bytes)) in
            let '((hit, st), c) := RustLookup write_ok digest inv st c in
            match hit with
            | inl effects => ((0%N, effects ++ [RLogged kHit label], st), c)
            | inr (partial, why) =>
                let '(slot, c) := Slot_open (e_jig_slot e) (e_build_top e) [] None c in
                let '(run, after, mode) := compile kCapture rustc (ri_args inv) in
                let '(_, c) := Slot_close slot c in
                let '((s, effects, st), c) := RustStore digest inv (label ++ lit " " ++ why) run after mode st c in
                ((s, partial ++ effects, st), c)
            end
      end
  end.
End Rustc.

(** ** Properties *)

(** *** renaming by way of the placeholder *)

Lemma subst_ind (from : str) (P : str → Prop) :
  from ≠ [] → P [] → (∀ t, P t → P (from ++ t)) →
  (∀ c s, starts_with (c :: s) from = false → P s → P (c :: s)) → ∀ s, P s.
Proof.
  intros Hne Hnil Hm Hc s. remember (length s) as n eqn:En. revert s En.
  induction (lt_wf n) as [n _ IH]. intros [|c s] En; [done|]. subst n.
  destruct (starts_with (c :: s) from) eqn:E.
  - apply starts_with_spec in E as [t Ht]. rewrite Ht in *. apply Hm. apply (IH (length t)); [|done].
    rewrite length_app. destruct from; [done|]. simpl. lia.
  - apply Hc; [done|]. apply (IH (length s)); [simpl; lia|done].
Qed.

Lemma subst_through from c rep s :
  from ≠ [] → c ∉ s → subst [c] rep (subst from [c] s) = subst from rep s.
Proof.
  intros Hne. revert s. refine (subst_ind from _ Hne _ _ _); [done| |].
  - intros t IH Hc. rewrite !subst_app_match by done.
    f_equal. apply IH. set_solver.
  - intros d s E IH Hc. rewrite !(subst_cons_nomatch from) by done.
    rewrite subst_cons_nomatch; [f_equal; apply IH; set_solver|].
    cbn [starts_with]. rewrite bool_decide_eq_false_2 by set_solver. done.
Qed.

Lemma subst_elem from rep s c : from ≠ [] → c ∈ subst from rep s → c ∈ s ∨ c ∈ rep.
Proof.
  intros Hne. revert s. refine (subst_ind from _ Hne _ _ _); [set_solver| |].
  - intros t IH. rewrite subst_app_match by done. set_solver.
  - intros d s E IH. rewrite subst_cons_nomatch by done. set_solver.
Qed.

Lemma subst_nonempty from rep s : from ≠ [] → rep ≠ [] → s ≠ [] → subst from rep s ≠ [].
Proof.
  intros Hf Hr. destruct s as [|c s]; [done|]. intros _. unfold subst. cbn [subst_go].
  destruct (starts_with _ _); [|done]. by destruct rep.
Qed.

(** the name of an artifact as cargo chooses it *)
Definition plain_name (n : str) : Prop := n ≠ [] ∧ " "%char ∉ n ∧ chr_nl ∉ n ∧ "@"%char ∉ n.

Lemma packed_name stem n : plain_name n →
  let packed := ReplaceAll n stem "@" in packed ≠ [] ∧ " "%char ∉ packed ∧ chr_nl ∉ packed.
Proof.
  intros (Hne & Hsp & Hnl & _). cbv zeta. unfold ReplaceAll. case_bool_decide as E; [done|].
  fold (ReplaceAll n stem "@").
  assert (Heq := ReplaceAll_subst n stem "@" E). unfold ReplaceAll in Heq. rewrite bool_decide_eq_false_2 in Heq by done.
  rewrite Heq. split_and!; [by apply subst_nonempty| |].
  - intros [?|?]%subst_elem; [done| |done]. set_solver.
  - intros [?|H]%subst_elem; [done| |done]. vm_compute in H. set_solver.
Qed.

Lemma unpacked_name stem stem' n : plain_name n →
  ReplaceAll (ReplaceAll n stem "@") "@" stem' = ReplaceAll n stem stem'.
Proof.
  intros (_ & _ & _ & Hat). destruct (decide (stem = [])) as [->|Hne].
  - change (ReplaceAll n [] ?x) with n. rewrite ReplaceAll_subst by done. by apply subst_find_None, find_chr_None.
  - rewrite !ReplaceAll_subst by done. by apply subst_through.
Qed.

(** *** one packed file *)

Lemma split_head name mode size :
  name ≠ [] → " "%char ∉ name → mode ≠ [] → " "%char ∉ mode → size ≠ [] → " "%char ∉ size →
  Split (name ++ lit " " ++ mode ++ lit " " ++ size) " " false = [name; mode; size].
Proof.
  intros Hn Hn' Hm Hm' Hs Hs'. rewrite Split_pieces. change (lit " ") with [" "%char]. cbn [app].
  rewrite !pieces_app, pieces_free by done. unfold keep. cbn [List.filter].
  by destruct name, mode, size.
Qed.

Lemma numeral_ok base n : (2 ≤ base ≤ 36)%N →
  fmt_uint base n ≠ [] ∧ " "%char ∉ fmt_uint base n ∧ chr_nl ∉ fmt_uint base n.
Proof.
  intros Hb. split; [by apply fmt_uint_spec|]. split; apply fmt_uint_not_in; try done.
Qed.

Lemma unpack_one fuel write_ok name mode data rest dir stem done_ :
  name ≠ [] → " "%char ∉ name → chr_nl ∉ name → (mode < u64_range)%N → (N.of_nat (length data) < u64_range)%N →
  write_ok (dir /p/ ReplaceAll name "@" stem) = true →
  unpack_loop (S fuel) write_ok
    ((name ++ lit " " ++ fmt_uint 8 mode ++ lit " " ++ to_string (length data) ++ nl ++ data) ++ rest) dir stem done_ =
  unpack_loop fuel write_ok rest dir stem (done_ ++ [Restored (dir /p/ ReplaceAll name "@" stem) data mode]).
Proof.
  intros Hn Hsp Hnl Hmode Hlen Hw.
  destruct (numeral_ok 8 mode) as (M1 & M2 & M3); [done|].
  destruct (numeral_ok 10 (N.of_nat (length data))) as (L1 & L2 & L3); [done|]. fold (to_string (length data)) in *.
  set (head := name ++ lit " " ++ fmt_uint 8 mode ++ lit " " ++ to_string (length data)).
  assert (Hhead : chr_nl ∉ head)
    by (unfold head; rewrite !elem_of_app; intros [?|[Hc|[?|[Hc|?]]]]; try done; vm_compute in Hc; set_solver).
  assert (Hblob : ((name ++ lit " " ++ fmt_uint 8 mode ++ lit " " ++ to_string (length data) ++ nl ++ data) ++ rest) =
    head ++ chr_nl :: data ++ rest) by (unfold head, nl; by rewrite <-!app_assoc).
  rewrite Hblob. cbn [unpack_loop]. rewrite bool_decide_eq_false_2 by (by destruct head).
  rewrite (find_chr_app chr_nl head) by done. rewrite take_app_length. unfold head at 1. rewrite split_head by done.
  unfold to_string. rewrite !ParseUint_fmt by done.
  assert (Hdrop : ∀ n, drop (length head + 1 + n) (head ++ chr_nl :: data ++ rest) = drop n (data ++ rest)).
  { intros n. rewrite drop_app_ge by lia. by replace (length head + 1 + n - length head) with (S n) by lia. }
  rewrite (proj2 (N.ltb_ge _ _)) by (rewrite length_app; cbn [length]; rewrite length_app; lia).
  rewrite Hw. cbn [negb]. rewrite Nat2N.id. unfold substr.
  rewrite <-(Nat.add_0_r (length head + 1)) at 2. rewrite !Hdrop, drop_app_length. by rewrite drop_0, take_app_length.
Qed.

(** what unpacking writes for a packed path *)
Definition restored_file (read : str → option str) (mode : str → N) (stem stem' dir path : str) : option restored :=
  (λ data, Restored (dir /p/ ReplaceAll (filename path) stem stem') data (N.land (mode path) kPermissionBits)) <$> read path.

Definition packable (read : str → option str) (paths : list str) : Prop :=
  ∀ path data, path ∈ paths → read path = Some data →
    plain_name (filename path) ∧ (N.of_nat (length data) < u64_range)%N.

Lemma mode_small n : (N.land n kPermissionBits < u64_range)%N.
Proof.
  change kPermissionBits with (N.ones 9). rewrite N.land_ones. eapply N.lt_trans; [by apply N.mod_lt|done].
Qed.

Lemma unpack_packed fuel read mode paths stem stem' dir write_ok done_ :
  length (PackFiles read mode paths stem) < fuel → packable read paths → (∀ out, write_ok out = true) →
  unpack_loop fuel write_ok (PackFiles read mode paths stem) dir stem' done_ =
    (true, done_ ++ omap (restored_file read mode stem stem' dir) paths).
Proof.
  revert fuel done_. induction paths as [|path paths IH]; intros fuel done_ Hf Hp Hw.
  - destruct fuel; cbn; by rewrite app_nil_r.
  - assert (Hp' : packable read paths) by (intros p d Hin; apply Hp; set_solver).
    change (PackFiles read mode (path :: paths) stem) with (pack_file read mode stem path ++ PackFiles read mode paths stem) in *.
    unfold pack_file in *. cbn [omap list_omap]. unfold restored_file at 1.
    destruct (read path) as [data|] eqn:Er; cbn [fmap option_fmap option_map]; [|by apply IH].
    destruct (Hp path data ltac:(set_solver) Er) as [Hn Hd]. destruct (packed_name stem _ Hn) as (N1 & N2 & N3).
    destruct fuel as [|fuel]; [lia|].
    rewrite unpack_one, (unpacked_name _ _ _ Hn) by (first [done|apply mode_small|apply Hw]).
    rewrite IH; [by rewrite <-app_assoc| |done|done].
    rewrite length_app in Hf. destruct (ReplaceAll (filename path) stem "@"); [done|]. cbn [length app] in Hf. lia.
Qed.

Lemma unpack_ok read mode paths stem stem' dir write_ok :
  packable read paths → (∀ out, write_ok out = true) →
  UnpackFiles write_ok (PackFiles read mode paths stem) dir stem' =
    (true, omap (restored_file read mode stem stem' dir) paths).
Proof. intros. unfold UnpackFiles. apply (unpack_packed _ _ _ _ _ _ _ _ []); [lia|done|done]. Qed.

(** Artifacts survive the cache byte for byte: unpacking what was packed writes every file that
    could be read, in order, with its contents and permissions, its name with the one build's
    extra-filename replaced by the other's. *)
Theorem UnpackFiles_PackFiles read mode paths stem stem' dir write_ok :
  packable read paths → (∀ out, write_ok out = true) →
  UnpackFiles write_ok (PackFiles read mode paths stem) dir stem' =
    (true, omap (restored_file read mode stem stem' dir) paths).
Proof. apply unpack_ok. Qed.

Definition crate_read (path : str) : option str :=
  if path == lit "/out/libfoo-1a.rlib" then Some (lit "x" ++ nl ++ lit "y 7") else None.

Lemma UnpackFiles_PackFiles_witness :
  UnpackFiles (λ _, true) (PackFiles crate_read (λ _, 33188%N) [lit "/out/libfoo-1a.rlib"; lit "/out/gone"] "-1a") "/b" "-2b" =
    (true, [Restored "/b/libfoo-2b.rlib" (lit "x" ++ nl ++ lit "y 7") 420]).
Proof.
  rewrite (UnpackFiles_PackFiles crate_read (λ _, 33188%N) [lit "/out/libfoo-1a.rlib"; lit "/out/gone"] "-1a" "-2b" "/b"
    (λ _, true)); [vm_compute; reflexivity| |done].
  intros path data Hp Hr. rewrite !elem_of_cons in Hp. destruct Hp as [->|[->|Hp]]; [|done|set_solver].
  injection Hr as <-. split; [|done]. unfold plain_name. split_and!; [vm_compute; discriminate|vm_compute; set_solver..].
Defined.
