(* ===== verification/RustReplay.v ===== *)
(** * What one cargo build stores, another replays

    [RustStore] of one build, then [RustLookup] of another, over the connection to any daemon that
    keeps the protocol. *)

From S2P Require Import Prelude Paths Base Keys Store Manifest CacheClient Jigd Process CacheFlow CcMode RustcMode.

Section Replay.
Context (blake3 : str → str) (zstd_compress zstd_decompress : str → option str).
Context (lossless : ∀ value frame, zstd_compress value = Some frame → zstd_decompress frame = Some value).
Context {S : Type} `{Hpeer : Peer S, Hdaemon : !CacheDaemon S}.

Definition crate_trail (cwd : str) (inv : RustInvocation) (info : DepInfo) : trail :=
  Trail (d_inputs info) (absolute_normal cwd (ri_source inv)) [].

Definition crate_items (digest key text blob messages : str) : list (str * str) :=
  [(slot_key (Manifest kRustc digest), text); (slot_key (Object key), blob); (slot_key (Stderr key), messages)].

(** [Get] of a slot that holds a keepable value *)
Lemma Get_keepable key value (c : client S) :
  synced c → faultless c → word key → keepable zstd_compress value →
  stored (c_peer c) !! key = Some (Compress zstd_compress value) →
  ∃ c', Get zstd_decompress key c = (Some value, c') ∧ synced c' ∧ faultless c' ∧
    stored (c_peer c') = stored (c_peer c).
Proof.
  intros Hs Hf Hw Hk Hm. destruct (Get zstd_decompress key c) as [r c'] eqn:E.
  apply (Get_spec zstd_decompress) in E as [_ E]; [|done|done].
  destruct (E Hf) as (-> & Hs1 & Hf1 & Hm1). rewrite Hm. cbn [mbind option_bind].
  rewrite (keepable_back zstd_compress zstd_decompress lossless value Hk). by exists c'.
Qed.

Lemma crate_items_lookup digest key text blob messages m :
  let m' := put_all zstd_compress (crate_items digest key text blob messages) m in
  m' !! slot_key (Manifest kRustc digest) = Some (Compress zstd_compress text) ∧
  m' !! slot_key (Object key) = Some (Compress zstd_compress blob) ∧
  m' !! slot_key (Stderr key) = Some (Compress zstd_compress messages).
Proof.
  assert (Hnd : NoDup (crate_items digest key text blob messages).*1).
  { repeat (apply NoDup_cons; split; [set_unfold; intros H; repeat destruct H as [[=]|H]; try done|]). constructor. }
  cbv zeta. split_and!; apply put_all_lookup; try done; unfold crate_items; set_solver.
Qed.

Lemma RustStore_success cwd bytes inv missed run after mode (stW : store) (cW : client S) dep text kbytes (st1 : store) :
  let digest := Finish blake3 bytes in
  let info := ParseDepInfo cwd dep in
  let t := crate_trail cwd inv info in
  let blob := PackFiles after.1 mode (d_outputs info) (ri_extra_filename inv) in
  status run = 0%N →
  after.1 (ri_out_dir inv /p/ (ri_crate_name inv ++ ri_extra_filename inv ++ lit ".d")) = Some dep →
  manifest_of blake3 kRustc digest t after stW = (text, Finish blake3 kbytes, st1) →
  Forall (λ v, keepable zstd_compress v) [text; blob; stderr_text run] →
  askable stW (d_inputs info) → synced cW → faultless cW →
  ∃ c', (RustStore blake3 zstd_compress cwd digest inv missed run after mode stW cW).2 = c' ∧ synced c' ∧ faultless c' ∧
    stored (c_peer c') =
      put_all zstd_compress (crate_items digest (Finish blake3 kbytes) text blob (stderr_text run)) (stored (c_peer cW)).
Proof using Type.
  intros digest info t blob Hst Hdep Hm Hk HaW HsW HfW.
  destruct (slot_words blake3 kRustc bytes kbytes) as [Hwm Hws]. repeat (apply Forall_cons in Hws as [? Hws]).
  repeat (apply Forall_cons in Hk as [? Hk]).
  destruct (build_manifest_faultless blake3 _ _ _ _ _ _ _ _ cW Hm HaW HsW HfW) as (c1 & Eb & Hs1 & Hf1 & Hm1).
  destruct (put_each_faultless zstd_compress (crate_items digest (Finish blake3 kbytes) text blob (stderr_text run)) c1 Hs1 Hf1)
    as (c2 & Ep & Hs2 & Hf2 & Hm2).
  { unfold crate_items. repeat (apply Forall_cons; split;
      [split; [done|match goal with H : keepable _ ?v |- storable _ ?v => apply H end]|]). constructor. }
  assert (HcW : (RustStore blake3 zstd_compress cwd digest inv missed run after mode stW cW).2 = c2).
  { unfold RustStore. rewrite Hst, Hdep. cbn [N.eqb negb]. fold info.
    unfold t, crate_trail in Eb. cbn [t_inputs t_primary t_absent] in Eb. rewrite Eb.
    unfold crate_items in Ep. fold blob. by rewrite Ep. }
  exists c2. split_and!; [done..|]. by rewrite Hm2, Hm1.
Qed.

(** C15. The Rust cache is transparent: after a crate was compiled and stored, any build that asks with
    the same request key gets all of its artifacts, byte for byte and under its own names, and its
    messages, if every file the crate was made from is unchanged; otherwise it gets nothing. *)
Theorem crate_stored_then_replayed readR existsR cwd bytes inv missed run after mode (stW stR : store) (cW cR : client S)
    (invR : RustInvocation) (write_ok : str → bool) dep text key (st1 : store) :
  let digest := Finish blake3 bytes in
  let info := ParseDepInfo cwd dep in
  let t := crate_trail cwd inv info in
  let blob := PackFiles after.1 mode (d_outputs info) (ri_extra_filename inv) in
  status run = 0%N →
  after.1 (ri_out_dir inv /p/ (ri_crate_name inv ++ ri_extra_filename inv ++ lit ".d")) = Some dep →
  manifest_of blake3 kRustc digest t after stW = (text, key, st1) →
  Forall (λ v, keepable zstd_compress v) [text; blob; stderr_text run] →
  packable after.1 (d_outputs info) →
  line_safe blake3 after.1 after.2 st1 (t_inputs t) (t_primary t) (t_absent t) →
  askable stW (d_inputs info) → askable stR (manifest_paths stR text) →
  synced cW → faultless cW → (∀ out, write_ok out = true) →
  let cW' := (RustStore blake3 zstd_compress cwd digest inv missed run after mode stW cW).2 in
  synced cR → faultless cR → stored (c_peer cR) = stored (c_peer cW') →
  let hit := (RustLookup blake3 zstd_decompress readR existsR write_ok digest invR stR cR).1.1 in
  (unchanged blake3 t after stW readR existsR stR text →
   hit = inl (map RRestored
      (omap (restored_file after.1 mode (ri_extra_filename inv) (ri_extra_filename invR) (ri_out_dir invR)) (d_outputs info))
      ++ [RPrintedErr (stderr_text run)])) ∧
  (¬ unchanged blake3 t after stW readR existsR stR text → ∃ why, hit = inr ([], why)).
Proof.
  intros digest info t blob Hst Hdep Hm Hk Hpack Hsafe HaW HaR HsW HfW Hw.
  destruct (manifest_key blake3 _ _ _ _ _ _ _ _ Hm) as [kbytes ->].
  destruct (slot_words blake3 kRustc bytes kbytes) as [Hwm Hws]. repeat (apply Forall_cons in Hws as [? Hws]).
  destruct (RustStore_success cwd bytes inv missed run after mode stW cW dep text kbytes st1) as (c2 & HcW & _ & _ & Hm2); [done..|].
  fold digest info blob in HcW, Hm2. repeat (apply Forall_cons in Hk as [? Hk]).
  rewrite HcW. cbv zeta. intros HsR HfR HmR. rewrite Hm2 in HmR.
  destruct (crate_items_lookup digest (Finish blake3 kbytes) text blob (stderr_text run) (stored (c_peer cW))) as (M1 & M2 & M3).
  rewrite <-HmR in M1, M2, M3.
  destruct (find_result_verdict blake3 zstd_compress zstd_decompress lossless readR existsR kRustc bytes t after stW stR text
    (Finish blake3 kbytes) st1 cR) as (verdict & st2 & c3 & Hfind & Hs3 & Hf3 & Hm3 & _ & Hiff); [done..|].
  unfold RustLookup. fold digest in Hfind. rewrite Hfind. destruct verdict as [k|reason].
  - destruct (proj1 (Hiff k) eq_refl) as [-> Hun]. split; [intros _|done]. rewrite <-Hm3 in M2, M3.
    destruct (Get_keepable (slot_key (Object (Finish blake3 kbytes))) blob c3) as (c4 & -> & Hs4 & Hf4 & Hm4); [done..|].
    unfold blob. rewrite (unpack_ok after.1 mode) by done. cbn [negb]. rewrite <-Hm4 in M3.
    destruct (Get_keepable (slot_key (Stderr (Finish blake3 kbytes))) (stderr_text run) c4) as (c5 & -> & _); [done..|]. done.
  - split; [|by eexists]. intros Hun. discriminate (proj2 (Hiff _) (conj eq_refl Hun)).
Qed.
End Replay.

(** *** at a concrete crate of two source files *)

Definition crate_args (extra : str) : list str :=
  [lit "--crate-name"; lit "foo"; lit "--crate-type"; lit "lib"; lit "--emit=dep-info,link"; lit "--out-dir"; lit "/out";
   lit "-C"; lit "extra-filename=" ++ extra; lit "src/lib.rs"].
Definition crate_inv (extra : str) : RustInvocation := ParseRustInvocation (crate_args extra).
Definition crate_dep : str := lit "/out/libfoo-1a.rlib: src/lib.rs src/a.rs" ++ nl ++ nl ++ lit "src/a.rs:" ++ nl.
Definition crate_files (content path : str) : option str :=
  if path == lit "/out/libfoo-1a.rlib" then Some (lit "!<arch> rlib")
  else if path == lit "/out/foo-1a.d" then Some crate_dep
  else if path == lit "/w/src/a.rs" then Some content else None.
Definition crate_run : RunResult := Run_result 0 "warning: unused".
Definition crate_after : world := (crate_files "fn a() {}", λ _, false).
Definition crate_digest : str := Finish (λ s, s) "crate".
Definition crate_info : DepInfo := ParseDepInfo "/w" crate_dep.
Definition crate_t : trail := crate_trail "/w" (crate_inv "-1a") crate_info.
Definition crate_manifest : str * str * store :=
  manifest_of (S := jigd sample_env) (λ s, s) kRustc crate_digest crate_t crate_after sample_store.
Definition crate_client : client (jigd sample_env) :=
  (RustStore (λ s, s) Some "/w" crate_digest (crate_inv "-1a") "foo" crate_run crate_after (λ _, 420%N) sample_store
     sample_client).2.
Definition crate_lookup (content : str) : list rust_effect + list rust_effect * str :=
  (RustLookup (λ s, s) Some (crate_files content) (λ _, false) (λ _, true) crate_digest (crate_inv "-2b") sample_store
     crate_client).1.1.

Lemma crate_info_eq :
  crate_info = Dep_info [lit "/out/libfoo-1a.rlib"] [lit "/w/src/lib.rs"; lit "/w/src/a.rs"].
Proof. vm_compute. reflexivity. Qed.

Lemma crate_keepable :
  Forall (λ v, keepable Some v)
    [crate_manifest.1.1; PackFiles crate_after.1 (λ _, 420%N) (d_outputs crate_info) (ri_extra_filename (crate_inv "-1a"));
     stderr_text crate_run].
Proof.
  repeat (apply Forall_cons; split; [split; [split; [by eexists|apply N.leb_le; vm_compute; reflexivity]|
    apply N.ltb_lt; vm_compute; reflexivity]|]). constructor.
Qed.

Lemma crate_packable : packable crate_after.1 (d_outputs crate_info).
Proof.
  rewrite crate_info_eq. intros path data Hp Hr. apply elem_of_cons in Hp as [->|Hp]; [|set_solver].
  injection Hr as <-. split; [|done]. split_and!; [vm_compute; discriminate|vm_compute; set_solver..].
Qed.

Definition crate_id : str := "C:666e20612829207b7d".

Lemma crate_recorded p id :
  recorded (λ s, s) crate_after.1 crate_manifest.2 (t_inputs crate_t) (t_primary crate_t) p id →
  p = lit "/w/src/a.rs" ∧ id = crate_id.
Proof.
  unfold crate_t, crate_trail. cbn [t_inputs t_primary]. rewrite crate_info_eq. cbn [d_inputs].
  intros (Hp & Hne & Hid). rewrite !elem_of_cons in Hp. destruct Hp as [->|[->|Hp]]; [| |set_solver].
  - destruct Hne. vm_compute. reflexivity.
  - vm_compute in Hid. by injection Hid as <-.
Qed.

Lemma crate_safe :
  line_safe (λ s, s) crate_after.1 crate_after.2 crate_manifest.2 (t_inputs crate_t) (t_primary crate_t) (t_absent crate_t).
Proof.
  split.
  - intros p id [-> ->]%crate_recorded. repeat split; vm_compute; set_solver.
  - intros p (Hp & _). unfold crate_t, crate_trail in Hp. cbn [t_absent] in Hp. set_solver.
Qed.

Lemma crate_manifest_eq :
  manifest_of (S := jigd sample_env) (λ s, s) kRustc crate_digest crate_t crate_after sample_store =
    (crate_manifest.1.1, crate_manifest.1.2, crate_manifest.2).
Proof. unfold crate_manifest. by destruct (manifest_of _ _ _ _ _ _) as [[??]?]. Qed.

Lemma crate_askable :
  askable sample_store (d_inputs crate_info) ∧ askable sample_store (manifest_paths sample_store crate_manifest.1.1).
Proof.
  assert (List.filter (DaemonMayIdentify sample_store) (d_inputs crate_info) = []) as H1 by (vm_compute; reflexivity).
  assert (List.filter (DaemonMayIdentify sample_store) (manifest_paths sample_store crate_manifest.1.1) = []) as H2
    by (vm_compute; reflexivity).
  unfold askable. rewrite H1, H2. split; (split; [constructor|done]).
Qed.

Lemma crate_synced : synced crate_client ∧ faultless crate_client.
Proof.
  destruct (manifest_key (S := jigd sample_env) (λ s, s) _ _ _ _ _ _ _ _ crate_manifest_eq) as [kbytes Hkey].
  pose proof crate_manifest_eq as Hm. rewrite Hkey in Hm. destruct crate_askable as [Ha _].
  destruct (RustStore_success (S := jigd sample_env) (λ s, s) Some "/w" "crate" (crate_inv "-1a") "foo" crate_run crate_after
    (λ _, 420%N) sample_store sample_client crate_dep crate_manifest.1.1 kbytes crate_manifest.2) as (c' & E & Hs & Hf & _);
    [done|vm_compute; reflexivity|exact Hm|apply crate_keepable|exact Ha|apply sample_synced|apply sample_faultless|].
  unfold crate_client, crate_digest. rewrite E. by split.
Qed.

Lemma crate_stored_then_replayed_witness :
  crate_lookup "fn a() {}" =
    inl [RRestored (Restored "/out/libfoo-2b.rlib" "!<arch> rlib" 420); RPrintedErr "warning: unused"] ∧
  (∃ why, crate_lookup "fn b() {}" = inr ([], why)).
Proof.
  assert (Hloss : ∀ value frame : str, Some value = Some frame → Some frame = Some value) by (by intros ? ? [= ->]).
  assert (Hdep : crate_after.1 (ri_out_dir (crate_inv "-1a") /p/ (ri_crate_name (crate_inv "-1a") ++
    ri_extra_filename (crate_inv "-1a") ++ lit ".d")) = Some crate_dep) by (vm_compute; reflexivity).
  assert (Heq : stored (c_peer crate_client) = stored (c_peer (RustStore (λ s, s) Some "/w" (Finish (λ s, s) "crate")
    (crate_inv "-1a") "foo" crate_run crate_after (λ _, 420%N) sample_store sample_client).2))
    by (unfold crate_client, crate_digest; reflexivity).
  destruct crate_synced as [Hs Hf]. destruct crate_askable as [HaW HaR].
  pose proof (λ readR, crate_stored_then_replayed (S := jigd sample_env) (λ s, s) Some Some Hloss readR (λ _, false) "/w" "crate"
    (crate_inv "-1a") "foo" crate_run crate_after (λ _, 420%N) sample_store sample_store sample_client crate_client
    (crate_inv "-2b") (λ _, true) crate_dep crate_manifest.1.1 crate_manifest.1.2 crate_manifest.2 eq_refl Hdep
    crate_manifest_eq crate_keepable crate_packable crate_safe HaW HaR sample_synced sample_faultless (λ _, eq_refl) Hs Hf) as C.
  cbv zeta in C. split.
  - destruct (C (crate_files "fn a() {}") Heq) as [H _]. unfold crate_lookup, crate_digest.
    etransitivity; [apply H|vm_compute; reflexivity].
    split; [intros p id [-> ->]%crate_recorded; vm_compute; reflexivity|by intros].
  - destruct (C (crate_files "fn b() {}") Heq) as [_ H]. apply H. intros [Hr _].
    specialize (Hr (lit "/w/src/a.rs") crate_id).
    assert (recorded (λ s, s) crate_after.1 crate_manifest.2 (t_inputs crate_t) (t_primary crate_t) (lit "/w/src/a.rs") crate_id)
      as Hrec by (split; [unfold crate_t, crate_trail; cbn [t_inputs]; rewrite crate_info_eq; by right; left|
                          split; [vm_compute; discriminate|vm_compute; reflexivity]]).
    specialize (Hr Hrec). vm_compute in Hr. discriminate Hr.
Defined.
