(* ===== verification/DirMode.v ===== *)
(** * dir_mode.h, dir_mode.cc: whole trees in the cache

    [jig cache put-dir] and [get-dir]: a listing under one key, the files as blobs named by their
    contents. The directory walk, file contents, modes and which writes succeed are parameters. *)

From S2P Require Import Prelude Paths Base Keys Store Manifest CacheClient Jigd CacheFlow.

Definition kBatch : nat := 256.
Definition kDefaultMode : N := 420.
Definition kPermBits : N := 511.

Definition BlobKey (hash_hex : str) : str := lit "b/" ++ hash_hex.

Record Entry := Dir_entry { kind : ascii; emode : N; ref : str; rel : str }.

Definition parse_entry (line : str) : option Entry :=
  match find [chr_tab] line with
  | None => None
  | Some tab =>
      match SplitWhitespace (take tab line) with
      | [k; m; r] =>
          (λ c, Dir_entry c (default kDefaultMode (ParseUint m 8) mod 2 ^ 32) r (drop (tab + 1) line)) <$> head k
      | _ => None
      end
  end.
Definition ParseListing (text : str) : list Entry := omap parse_entry (Split text chr_nl false).

Record Pending := Pend { blob_key : str; pfile : str }.

Definition IsText (data : str) : bool := negb (contains_chr data chr_nul).
Definition Stored (st : store) (data : str) : str := if IsText data then MaskHashes st data else data.
Definition Restored (st : store) (data : str) : str := if IsText data then ResolveAll st data else data.

(** an entry of the directory walk *)
Inductive dent_kind := DSymlink (target : str) | DRegular | DOther.
Record dent := Dent { de_path : str; de_kind : dent_kind }.

(** what a restore does to the tree *)
Inductive dir_effect :=
| MadeDirs (path : str)
| Unlinked (path : str)
| Linked (target dest : str)
| WroteTo (dest bytes : str)
| Chmod (dest : str) (mode : N)
| Said (text : str).

Definition link_line (target rel : str) : str := lit "l 0 " ++ target ++ [chr_tab] ++ rel ++ nl.
Definition file_line (mode : N) (hash rel : str) : str :=
  lit "f " ++ fmt_uint 8 mode ++ lit " " ++ hash ++ [chr_tab] ++ rel ++ nl.

Section Dir.
Context (blake3 : str → str) (zstd_compress zstd_decompress : str → option str).
Context {S : Type} `{Peer S}.

(** *** put-dir *)

Section Put.
Context (read : str → option str) (st_mode : str → N) (st : store).

Definition Upload (pending : list Pending) : io nat := λ c,
  let '(have, c) := HasMany (map blob_key pending) c in
  let puts := omap id (imap (λ i item,
    if default false (have !! i) then None else (λ data, (blob_key item, Stored st data)) <$> read (pfile item)) pending) in
  let '(_, c) := PutMany zstd_compress puts c in
  (length puts, c).

Record walk := Walk { w_listing : str; w_pending : list Pending; w_files : nat; w_uploaded : nat }.

Definition walk_one (root : str) (w : walk) (d : dent) : io walk := λ c,
  let rel := lexically_relative (de_path d) root in
  match de_kind d with
  | DSymlink target => (Walk (w_listing w ++ link_line target rel) (w_pending w) (w_files w) (w_uploaded w), c)
  | DOther => (w, c)
  | DRegular =>
      match read (de_path d) with
      | None => (w, c)
      | Some data =>
          let hash := HashOf blake3 (Stored st data) in
          let listing := w_listing w ++ file_line (N.land (st_mode (de_path d)) kPermBits) hash rel in
          let pending := w_pending w ++ [Pend (BlobKey hash) (de_path d)] in
          if (length pending =? kBatch)%nat then
            let '(n, c) := Upload pending c in
            (Walk listing [] (Datatypes.S (w_files w)) (w_uploaded w + n), c)
          else (Walk listing pending (Datatypes.S (w_files w)) (w_uploaded w), c)
      end
  end.

Fixpoint walk_loop (root : str) (w : walk) (dents : list dent) : io walk := λ c,
  match dents with
  | [] => (w, c)
  | d :: dents => let '(w, c) := walk_one root w d c in walk_loop root w dents c
  end.

Definition PutDir (socket_path : str) (connects : option S) (key dir : str) (dents : list dent)
  : io (N * list dir_effect) := λ c,
  let '(connected, c) := Connect socket_path connects c in
  if negb connected then ((2%N, []), c)
  else
    let '(w, c) := walk_loop dir (Walk [] [] 0 0) dents c in
    let '(n, c) := Upload (w_pending w) c in
    let '(_, c) := Put zstd_compress key (w_listing w) c in
    ((0%N, [Said (lit "jig: put-dir " ++ key ++ lit ": " ++ to_string (w_files w) ++ lit " files, " ++
                  to_string (w_uploaded w + n) ++ lit " new" ++ nl)]), c).
End Put.

(** *** get-dir *)

Section Get.
Context (write_ok : str → bool) (st : store).

Definition link_effects (root : str) (e : Entry) : list dir_effect :=
  let dest := root /p/ rel e in [MadeDirs (parent_path dest); Unlinked dest; Linked (ref e) dest].

Record restore := Rest { re_effects : list dir_effect; re_written : list str; re_missing : nat }.

Definition restore_one (root : str) (r : restore) (e : Entry) (blob : option str) : restore :=
  let dest := root /p/ rel e in
  let effects := re_effects r ++ [MadeDirs (parent_path dest)] in
  match blob with
  | Some b =>
      if write_ok dest
      then Rest (effects ++ [WroteTo dest (Restored st b); Chmod dest (emode e)]) (re_written r ++ [dest]) (re_missing r)
      else Rest effects (re_written r) (Datatypes.S (re_missing r))
  | None => Rest effects (re_written r) (Datatypes.S (re_missing r))
  end.

Fixpoint restore_batch (root : str) (r : restore) (batch : list Entry) (blobs : list (option str)) : restore :=
  match batch with
  | [] => r
  | e :: batch => restore_batch root (restore_one root r e (mjoin (head blobs))) batch (tail blobs)
  end.

(** the loop over batches; [fuel] bounds their number *)
Fixpoint get_batches (fuel : nat) (root : str) (entries : list Entry) (r : restore) : io restore := λ c,
  match fuel with
  | 0 => (r, c)
  | Datatypes.S fuel =>
      match entries with
      | [] => (r, c)
      | _ =>
          let batch := take kBatch entries in
          let '(blobs, c) := GetMany zstd_decompress (map (λ e, BlobKey (ref e)) batch) c in
          get_batches fuel root (drop kBatch entries) (restore_batch root r batch blobs) c
      end
  end.

Definition is_kind (k : ascii) (e : Entry) : bool := kind e == k.

Definition GetDir (socket_path : str) (connects : option S) (key dir : str) : io (N * list dir_effect) := λ c,
  let '(connected, c) := Connect socket_path connects c in
  if negb connected then ((2%N, []), c)
  else
    let '(listing, c) := Get zstd_decompress key c in
    match listing with
    | None => ((1%N, []), c)
    | Some listing =>
        let entries := ParseListing listing in
        let links := List.filter (is_kind "l") entries in
        let files := List.filter (is_kind "f") entries in
        let r := Rest (concat (map (link_effects dir) links)) (map (λ e, dir /p/ rel e) links) 0 in
        let '(r, c) := get_batches (Datatypes.S (length files)) dir files r c in
        let said := Said (lit "jig: get-dir " ++ key ++ lit ": " ++ to_string (length files) ++ lit " files, " ++
                          to_string (re_missing r) ++ lit " missing" ++ nl) in
        if (re_missing r =? 0)%nat then ((0%N, re_effects r ++ [said]), c)
        else ((1%N, re_effects r ++ [said] ++ map Unlinked (re_written r)), c)
    end.
End Get.
End Dir.

(** ** Properties *)

(** *** the listing *)

Definition blank_free (w : str) : Prop := w ≠ [] ∧ Forall (λ c, is_blank c = false) w.

Lemma take_while_word w rest :
  Forall (λ c, is_blank c = false) w →
  (∀ c, head rest = Some c → is_blank c = true) →
  take_while (negb ∘ is_blank) (w ++ rest) = w ∧ drop_while (negb ∘ is_blank) (w ++ rest) = rest.
Proof.
  intros Hw Hr. induction Hw as [|c w Hc _ [IH1 IH2]].
  - destruct rest as [|c rest]; [done|]. cbn. by rewrite (Hr c eq_refl).
  - cbn. by rewrite Hc, IH1, IH2.
Qed.

Lemma SplitWhitespace_three a b c :
  blank_free a → blank_free b → blank_free c →
  SplitWhitespace (a ++ lit " " ++ b ++ lit " " ++ c) = [a; b; c].
Proof.
  intros [Ha Ha'] [Hb Hb'] [Hc Hc']. unfold SplitWhitespace.
  assert (Hstep : ∀ fuel sep w rest out, w ≠ [] → Forall (λ c, is_blank c = false) w →
    (∀ x, head rest = Some x → is_blank x = true) → Forall (λ c, is_blank c = true) sep →
    split_ws_loop (S fuel) (sep ++ w ++ rest) out = split_ws_loop fuel rest (out ++ [w])).
  { intros fuel sep w rest out Hne Hw Hr Hsep.
    assert (Hd : drop_while is_blank (sep ++ w ++ rest) = w ++ rest).
    { induction Hsep as [|x sep Hx _ IH]; cbn; [|by rewrite Hx].
      destruct Hw as [|y w Hy]; [done|]. cbn. by rewrite Hy. }
    cbn [split_ws_loop]. destruct (sep ++ w ++ rest) as [|x t] eqn:E.
    { apply app_eq_nil in E as [_ E]. by apply app_eq_nil in E as [-> _]. }
    rewrite Hd. destruct (take_while_word w rest Hw Hr) as [-> ->]. by rewrite bool_decide_eq_false_2. }
  assert (Hlen : ∃ n, length (a ++ lit " " ++ b ++ lit " " ++ c) = S (S n)).
  { exists (length (a ++ b ++ c)). rewrite !length_app. change (length (lit " ")) with 1. lia. }
  destruct Hlen as [n ->].
  transitivity (split_ws_loop (S (S n)) (lit " " ++ b ++ lit " " ++ c) [a]);
    [apply (Hstep (S (S n)) [] a); [done|done|by intros x [= <-]|done]|].
  transitivity (split_ws_loop (S n) (lit " " ++ c ++ []) [a; b]);
    [rewrite app_nil_r; apply (Hstep (S n) (lit " ") b); [done|done|by intros x [= <-]|by repeat constructor]|].
  rewrite (Hstep n (lit " ") c []); [|done|done|done|by repeat constructor]. by destruct n.
Qed.

Definition print_entry (e : Entry) : str :=
  [kind e] ++ lit " " ++ fmt_uint 8 (emode e) ++ lit " " ++ ref e ++ [chr_tab] ++ rel e.

(** an entry the listing can carry: the reference (hash or link target) is one word *)
Definition listable (e : Entry) : Prop :=
  is_blank (kind e) = false ∧ (emode e < 2 ^ 32)%N ∧ blank_free (ref e) ∧ chr_nl ∉ rel e.

Lemma blank_free_not_in w c : blank_free w → is_blank c = true → c ∉ w.
Proof. intros [_ H] Hc Hin. rewrite list.Forall_forall in H. rewrite (H c Hin) in Hc. done. Qed.

Lemma is_blank_cases c : is_blank c = true → c = " "%char ∨ c = chr_tab ∨ c = chr_nl.
Proof. unfold is_blank. repeat case_bool_decide; auto. done. Qed.

Lemma numeral_blank_free n : blank_free (fmt_uint 8 n).
Proof.
  split; [by apply fmt_uint_spec|]. apply list.Forall_forall. intros c Hin.
  destruct (is_blank c) eqn:E; [|done].
  by apply is_blank_cases in E as [-> | [-> | ->]]; apply fmt_uint_not_in in Hin.
Qed.

Lemma parse_print_entry e : listable e → parse_entry (print_entry e) = Some e.
Proof.
  intros (Hk & Hm & Hr & Hrel). unfold parse_entry, print_entry.
  set (front := [kind e] ++ lit " " ++ fmt_uint 8 (emode e) ++ lit " " ++ ref e).
  assert (Hkind : blank_free [kind e]) by (split; [done|by repeat constructor]).
  assert (Htab : chr_tab ∉ front).
  { pose proof (blank_free_not_in _ chr_tab (numeral_blank_free (emode e)) eq_refl).
    pose proof (blank_free_not_in _ chr_tab Hr eq_refl). pose proof (blank_free_not_in _ chr_tab Hkind eq_refl).
    unfold front. rewrite !elem_of_app. intros [?|[Hc|[?|[Hc|?]]]]; try done; vm_compute in Hc; set_solver. }
  replace ([kind e] ++ lit " " ++ fmt_uint 8 (emode e) ++ lit " " ++ ref e ++ [chr_tab] ++ rel e)
    with (front ++ chr_tab :: rel e) by (unfold front; by rewrite <-!app_assoc).
  rewrite find_chr_app by done. rewrite take_app_length. unfold front at 1.
  rewrite SplitWhitespace_three by (done || apply numeral_blank_free).
  assert (Hu : (2 ^ 32 < u64_range)%N) by reflexivity.
  cbn [head fmap option_fmap option_map]. rewrite ParseUint_fmt by (done || lia). cbn [default].
  rewrite N.mod_small by done. rewrite drop_app_ge by lia.
  replace (length front + 1 - length front) with 1 by lia. by destruct e.
Qed.

Lemma print_entry_line e : listable e → chr_nl ∉ print_entry e ∧ print_entry e ≠ [].
Proof.
  intros (Hk & Hm & Hr & Hrel). split; [|done].
  assert (Hkind : blank_free [kind e]) by (split; [done|by repeat constructor]).
  pose proof (blank_free_not_in _ chr_nl (numeral_blank_free (emode e)) eq_refl).
  pose proof (blank_free_not_in _ chr_nl Hr eq_refl). pose proof (blank_free_not_in _ chr_nl Hkind eq_refl).
  unfold print_entry. rewrite !elem_of_app.
  intros [?|[Hc|[?|[Hc|[?|[Hc|?]]]]]]; try done; vm_compute in Hc; set_solver.
Qed.

Definition print_listing (es : list Entry) : str := concat (map (λ e, print_entry e ++ nl) es).

Lemma ParseListing_print es : Forall listable es → ParseListing (print_listing es) = es.
Proof.
  intros Hes. unfold ParseListing, print_listing. rewrite <-(map_map print_entry (λ l, l ++ nl)).
  rewrite Split_lines.
  - induction Hes as [|e es He _ IH]; [done|]. cbn [map omap list_omap]. by rewrite parse_print_entry, IH.
  - apply Forall_map. eapply Forall_impl; [exact Hes|]. intros e He. destruct (print_entry_line e He). by split.
Qed.
