(* ===== verification/DirReplay.v ===== *)
(** * A tree put into the cache comes back

    [PutDir] of one build, then [GetDir] of another, over the connection to any daemon that keeps the
    protocol; and what [GetDir] leaves behind whatever the daemon does. *)

From S2P Require Import Prelude Paths Base Keys Store Manifest CacheClient Jigd CacheFlow DirMode.

(** *** generic *)

Lemma imap_map_lookup {A B} (f : A → bool) (g : A → option B) (xs : list A) :
  omap id (imap (λ i x, if default false (map f xs !! i) then None else g x) xs) =
  omap (λ x, if f x then None else g x) xs.
Proof.
  induction xs as [|x xs IH]; [done|]. rewrite imap_cons. cbn [map omap list_omap lookup list_lookup default id].
  unfold compose. cbn [lookup list_lookup]. destruct (if f x then None else g x); [f_equal|]; exact IH.
Qed.

Section PutAll.
Context (zstd_compress : str → option str) (R : list (str * str)).
Context (functional : ∀ k v v', (k, v) ∈ R → (k, v') ∈ R → v = v').

(** the daemon holds nothing wrong under the keys of [R] *)
Definition good (m : gmap str str) : Prop :=
  ∀ k v, (k, v) ∈ R → m !! k = None ∨ m !! k = Some (Compress zstd_compress v).
Definition present (kvs : list (str * str)) (m : gmap str str) : Prop :=
  ∀ k v, (k, v) ∈ kvs → m !! k = Some (Compress zstd_compress v).

Lemma put_all_good puts m :
  (∀ kv, kv ∈ puts → kv ∈ R) → good m →
  good (put_all zstd_compress puts m) ∧
  ∀ k v, (k, v) ∈ R → (k, v) ∈ puts ∨ m !! k = Some (Compress zstd_compress v) →
    put_all zstd_compress puts m !! k = Some (Compress zstd_compress v).
Proof using functional.
  revert m. induction puts as [|[k1 v1] puts IH]; intros m Hsub Hg.
  - split; [done|]. intros k v _ [H|H]; [set_solver|done].
  - assert (Hin : (k1, v1) ∈ R) by (apply Hsub; by left).
    assert (Hg1 : good (<[k1 := Compress zstd_compress v1]> m)).
    { intros k v HR. destruct (decide (k = k1)) as [->|Hne].
      - right. rewrite lookup_insert_eq. by rewrite (functional k1 v v1).
      - rewrite lookup_insert_ne by done. by apply Hg. }
    destruct (IH (<[k1 := Compress zstd_compress v1]> m)) as [IH1 IH2]; [intros kv ?; apply Hsub; by right|done|].
    split; [exact IH1|]. intros k v HR H. apply IH2; [done|]. destruct (decide (k = k1)) as [->|Hne].
    + right. rewrite lookup_insert_eq. by rewrite (functional k1 v v1).
    + rewrite lookup_insert_ne by done. destruct H as [H|H]; [|by right]. apply elem_of_cons in H as [[= -> ->]|H]; [done|by left].
Qed.
End PutAll.

Section Tree.
Context (blake3 : str → str) (zstd_compress zstd_decompress : str → option str).
Context (lossless : ∀ value frame, zstd_compress value = Some frame → zstd_decompress frame = Some value).
Context {S : Type} `{Hpeer : Peer S, Hdaemon : !CacheDaemon S}.
Context (read : str → option str) (st_mode : str → N) (st : store) (root : str).

Definition stored_hash (data : str) : str := HashOf blake3 (Stored st data).

(** the regular file of a directory entry *)
Definition file_of (d : dent) : option str := match de_kind d with DRegular => read (de_path d) | _ => None end.

Definition entry_of (d : dent) : option Entry :=
  let rel := lexically_relative (de_path d) root in
  match de_kind d with
  | DSymlink target => Some (Dir_entry "l" 0 target rel)
  | _ => (λ data, Dir_entry "f" (N.land (st_mode (de_path d)) kPermBits) (stored_hash data) rel) <$> file_of d
  end.
Definition blob_of (d : dent) : option (str * str) :=
  (λ data, (BlobKey (stored_hash data), Stored st data)) <$> file_of d.
Definition pend_of (d : dent) : option Pending :=
  (λ data, Pend (BlobKey (stored_hash data)) (de_path d)) <$> file_of d.

Lemma blob_word data : word (BlobKey (stored_hash data)).
Proof using Type. unfold stored_hash, HashOf, BlobKey. apply (digest_word _ (lit "b/")); [reflexivity|discriminate|apply Nat.leb_le; reflexivity]. Qed.

Lemma file_of_read d data : file_of d = Some data → read (de_path d) = Some data.
Proof using Type. unfold file_of. by destruct (de_kind d). Qed.

Lemma pend_puts (m : gmap str str) (dents : list dent) :
  omap (λ item, if bool_decide (is_Some (m !! blob_key item)) then None
                else (λ data, (blob_key item, Stored st data)) <$> read (pfile item)) (omap pend_of dents) =
  omap (λ kv, if bool_decide (is_Some (m !! kv.1)) then None else Some kv) (omap blob_of dents).
Proof using Type.
  induction dents as [|d dents IH]; [done|]. cbn [omap list_omap]. unfold pend_of at 1, blob_of at 1.
  destruct (file_of d) as [data|] eqn:E; cbn [fmap option_fmap option_map]; [|exact IH].
  cbn [omap list_omap blob_key pfile fst]. rewrite (file_of_read _ _ E). cbn [fmap option_fmap option_map].
  destruct (bool_decide _); by rewrite IH.
Qed.

(** everything below is about one tree *)
Context (dents : list dent).
Definition R : list (str * str) := omap blob_of dents.
Context (collision_free : ∀ k v v', (k, v) ∈ R → (k, v') ∈ R → v = v').
Context (all_keepable : ∀ k v, (k, v) ∈ R → keepable zstd_compress v).

Lemma R_word k v : (k, v) ∈ R → word k.
Proof using Type.
  intros (d & _ & E)%list_elem_of_omap. unfold blob_of in E. destruct (file_of d) as [data|]; [|done].
  injection E as <- <-. apply blob_word.
Qed.

Lemma Upload_faultless (cur : list dent) (c : client S) :
  (∀ kv, kv ∈ omap blob_of cur → kv ∈ R) → synced c → faultless c → good zstd_compress R (stored (c_peer c)) →
  ∃ n c', Upload zstd_compress read st (omap pend_of cur) c = (n, c') ∧ synced c' ∧ faultless c' ∧
    good zstd_compress R (stored (c_peer c')) ∧ present zstd_compress (omap blob_of cur) (stored (c_peer c')) ∧
    ∀ k v, (k, v) ∈ R → stored (c_peer c) !! k = Some (Compress zstd_compress v) →
      stored (c_peer c') !! k = Some (Compress zstd_compress v).
Proof using collision_free all_keepable Hdaemon.
  intros Hsub Hs Hf Hg. unfold Upload.
  assert (Hw : Forall word (map blob_key (omap pend_of cur))).
  { apply list.Forall_forall. intros k Hk. apply list_elem_of_fmap in Hk as (p & -> & Hp).
    apply list_elem_of_omap in Hp as (d & _ & E). unfold pend_of in E. destruct (file_of d); [|done].
    injection E as <-. apply blob_word. }
  destruct (HasMany_faultless _ c Hs Hf Hw) as (c1 & E1 & Hs1 & Hf1 & Hm1). rewrite E1, map_map.
  rewrite imap_map_lookup. rewrite <-Hm1 in *. set (m := stored (c_peer c1)) in *. rewrite (pend_puts m).
  set (puts := omap _ (omap blob_of cur)).
  assert (Hputs : ∀ kv, kv ∈ puts ↔ kv ∈ omap blob_of cur ∧ m !! kv.1 = None).
  { intros kv. unfold puts. rewrite list_elem_of_omap. split.
    - intros (kv' & Hin & E). case_bool_decide as Hb; [done|]. injection E as ->. split; [done|].
      by apply eq_None_not_Some.
    - intros [Hin Hn]. exists kv. split; [done|]. rewrite bool_decide_eq_false_2; [done|]. rewrite Hn. by intros [? [=]]. }
  destruct (PutMany_faultless zstd_compress puts c1 Hs1 Hf1) as (c2 & E2 & Hs2 & Hf2 & Hm2).
  { apply list.Forall_forall. intros [k v] [Hin _]%Hputs. apply Hsub in Hin. split; [by eapply R_word|].
    by apply (all_keepable k v). }
  rewrite E2. fold m in Hm2.
  destruct (put_all_good zstd_compress R collision_free puts m) as [G1 G2]; [by intros kv [Hin _]%Hputs; apply Hsub|done|].
  exists (length puts), c2. rewrite Hm2. split_and!; [done|done|done|done| |auto].
  intros k v Hin. apply G2; [by apply Hsub|]. destruct (Hg k v (Hsub _ Hin)) as [Hn|Hn]; [left|by right].
  by apply Hputs.
Qed.

(** *** put-dir *)

Lemma line_of_entry d e :
  entry_of d = Some e → print_entry e ++ nl =
    match de_kind d with
    | DSymlink target => link_line target (rel e)
    | _ => file_line (emode e) (ref e) (rel e)
    end.
Proof using Type.
  unfold entry_of, file_of, link_line, file_line, print_entry. intros E. destruct (de_kind d) as [target| |].
  - injection E as <-. cbn [kind emode ref rel]. change (fmt_uint 8 0) with (lit "0").
    change (lit "l 0 ") with (["l"%char] ++ lit " " ++ lit "0" ++ lit " "). by rewrite <-!app_assoc.
  - destruct (read _); [|done]. injection E as <-. cbn [kind emode ref rel].
    change (lit "f ") with (["f"%char] ++ lit " "). by rewrite <-!app_assoc.
  - done.
Qed.

Lemma print_listing_snoc es e : print_listing (es ++ [e]) = print_listing es ++ print_entry e ++ nl.
Proof using Type. unfold print_listing. rewrite map_app, concat_app. cbn [map concat]. by rewrite app_nil_r. Qed.

(** what the walk has done once [old ++ cur] is behind it: the blobs of [old] are there, those of [cur] wait *)
Definition walked (old cur : list dent) (w : walk) (c : client S) : Prop :=
  synced c ∧ faultless c ∧ good zstd_compress R (stored (c_peer c)) ∧
  w_listing w = print_listing (omap entry_of (old ++ cur)) ∧ w_pending w = omap pend_of cur ∧
  present zstd_compress (omap blob_of old) (stored (c_peer c)).

Lemma walk_one_eq d w (c : client S) :
  walk_one blake3 zstd_compress read st_mode st root w d c =
  match entry_of d with
  | None => (w, c)
  | Some e =>
      let listing := w_listing w ++ print_entry e ++ nl in
      match pend_of d with
      | None => (Walk listing (w_pending w) (w_files w) (w_uploaded w), c)
      | Some p =>
          if (length (w_pending w ++ [p]) =? kBatch)%nat then
            let '(n, c) := Upload zstd_compress read st (w_pending w ++ [p]) c in
            (Walk listing [] (Datatypes.S (w_files w)) (w_uploaded w + n), c)
          else (Walk listing (w_pending w ++ [p]) (Datatypes.S (w_files w)) (w_uploaded w), c)
      end
  end.
Proof using Type.
  pose proof (line_of_entry d) as Hline. unfold walk_one, entry_of, pend_of, file_of, stored_hash in *.
  destruct (de_kind d) as [target| |].
  - cbn [fmap option_fmap option_map]. by rewrite (Hline _ eq_refl).
  - destruct (read (de_path d)) as [data|]; [|done]. cbn [fmap option_fmap option_map] in *. by rewrite (Hline _ eq_refl).
  - done.
Qed.

Lemma pend_blob d : pend_of d = None → blob_of d = None.
Proof using Type. unfold pend_of, blob_of. by destruct (file_of d). Qed.
Lemma entry_blob d : entry_of d = None → pend_of d = None.
Proof using Type. unfold entry_of, pend_of, file_of. destruct (de_kind d); [done| |done]. by destruct (read _). Qed.

Lemma omap_snoc {A B} (f : A → option B) xs x :
  omap f (xs ++ [x]) = omap f xs ++ match f x with Some y => [y] | None => [] end.
Proof using Type. rewrite omap_app. cbn [omap list_omap]. by destruct (f x). Qed.

Lemma walk_one_step d old cur w (c : client S) :
  (∀ kv, kv ∈ omap blob_of (old ++ cur ++ [d]) → kv ∈ R) → walked old cur w c →
  ∃ w' c' old' cur', walk_one blake3 zstd_compress read st_mode st root w d c = (w', c') ∧
    old' ++ cur' = old ++ cur ++ [d] ∧ walked old' cur' w' c'.
Proof using collision_free all_keepable Hdaemon.
  intros HR (Hs & Hf & Hg & Hl & Hp & Hpr). rewrite walk_one_eq.
  assert (Hent : omap entry_of (old ++ cur ++ [d]) =
    omap entry_of (old ++ cur) ++ match entry_of d with Some y => [y] | None => [] end) by (by rewrite app_assoc, omap_snoc).
  assert (Hpend : omap pend_of (cur ++ [d]) = w_pending w ++ match pend_of d with Some y => [y] | None => [] end)
    by (by rewrite omap_snoc, Hp).
  destruct (entry_of d) as [e|] eqn:Ee.
  2: { exists w, c, old, (cur ++ [d]). rewrite (entry_blob d Ee), app_nil_r in Hpend. rewrite app_nil_r in Hent.
       split; [done|]. split; [done|]. split_and!; try done. by rewrite Hent. }
  cbv zeta. assert (Hlist : w_listing w ++ print_entry e ++ nl = print_listing (omap entry_of (old ++ cur ++ [d])))
    by (by rewrite Hent, print_listing_snoc, Hl).
  destruct (pend_of d) as [p|] eqn:Ep.
  2: { eexists _, c, old, (cur ++ [d]). rewrite app_nil_r in Hpend. split; [done|]. split; [done|]. by split_and!. }
  destruct (_ =? _)%nat.
  - rewrite <-Hpend. destruct (Upload_faultless (cur ++ [d]) c) as (n & c' & -> & Hs' & Hf' & Hg' & Hpr' & Hkeep); try done.
    { intros kv Hin. apply HR. rewrite omap_app. apply elem_of_app. by right. }
    eexists _, c', (old ++ cur ++ [d]), []. split; [done|]. rewrite app_nil_r. split; [done|].
    split_and!; try done; [by rewrite app_nil_r|].
    intros k v Hin. rewrite omap_app in Hin. apply elem_of_app in Hin as [Hin|Hin]; [|by apply Hpr'].
    apply Hkeep; [|by apply Hpr]. apply HR. rewrite omap_app. apply elem_of_app. by left.
  - eexists _, c, old, (cur ++ [d]). split; [done|]. split; [done|]. by split_and!.
Qed.

Lemma walk_loop_all rest old cur w (c : client S) :
  old ++ cur ++ rest = dents → walked old cur w c →
  ∃ w' c' old' cur', walk_loop blake3 zstd_compress read st_mode st root w rest c = (w', c') ∧
    old' ++ cur' = dents ∧ walked old' cur' w' c'.
Proof using collision_free all_keepable Hdaemon.
  revert old cur w c. induction rest as [|d rest IH]; intros old cur w c Hd Hw.
  - rewrite app_nil_r in Hd. by exists w, c, old, cur.
  - cbn [walk_loop]. destruct (walk_one_step d old cur w c) as (w1 & c1 & old1 & cur1 & -> & Hd1 & Hw1); [|done|].
    { intros kv Hin. unfold R. rewrite <-Hd. change (d :: rest) with ([d] ++ rest). rewrite !app_assoc, omap_app.
      apply elem_of_app. left. by rewrite <-app_assoc. }
    apply (IH old1 cur1); [|done]. rewrite app_assoc, Hd1, <-Hd. by rewrite <-!app_assoc.
Qed.

(** a new process: nothing is pending *)
Definition fresh (c : client S) (s : S) : Prop := c_pending c = [] ∧ c_in c = [] ∧ faultless c ∧ idle s.

Lemma Connect_fresh socket_path s (c : client S) :
  fresh c s → length socket_path < kSunPath →
  ∃ c', Connect socket_path (Some s) c = (true, c') ∧ synced c' ∧ faultless c' ∧ c_peer c' = s.
Proof using Type.
  intros (H1 & H2 & Hf & Hi) Hl. unfold Connect. rewrite (proj2 (Nat.leb_gt _ _)) by done.
  eexists. split; [done|]. unfold synced, view. cbn [c_open c_pending c_in c_peer]. rewrite H1, H2. by split_and!.
Qed.

Lemma PutDir_faultless socket_path key s (c : client S) :
  fresh c s → length socket_path < kSunPath → good zstd_compress R (stored s) → word key →
  (∀ k v, (k, v) ∈ R → k ≠ key) → keepable zstd_compress (print_listing (omap entry_of dents)) →
  ∃ said c', PutDir blake3 zstd_compress read st_mode st socket_path (Some s) key root dents c = ((0%N, [Said said]), c') ∧
    synced c' ∧ faultless c' ∧ present zstd_compress R (stored (c_peer c')) ∧
    stored (c_peer c') !! key = Some (Compress zstd_compress (print_listing (omap entry_of dents))).
Proof using collision_free all_keepable Hdaemon.
  intros Hfr Hl Hg Hk Hne Hkeep. unfold PutDir.
  destruct (Connect_fresh socket_path s c Hfr Hl) as (c1 & -> & Hs1 & Hf1 & Hp1). cbn [negb].
  destruct (walk_loop_all dents [] [] (Walk [] [] 0 0) c1) as (w & c2 & old & cur & -> & Hd & Hw); [done| |].
  { unfold walked. rewrite Hp1. split_and!; try done. intros k v Hin. by apply not_elem_of_nil in Hin. }
  destruct Hw as (Hs2 & Hf2 & Hg2 & Hlist & Hpend & Hold). rewrite Hpend.
  assert (Hsplit : ∀ kv, kv ∈ R ↔ kv ∈ omap blob_of old ∨ kv ∈ omap blob_of cur).
  { intros kv. unfold R. rewrite <-Hd, omap_app. apply elem_of_app. }
  destruct (Upload_faultless cur c2) as (n & c3 & -> & Hs3 & Hf3 & _ & Hcur & Hkeep3); [intros kv ?; apply Hsplit; by right|done..|].
  rewrite Hlist, Hd.
  destruct (Put_faultless zstd_compress key (print_listing (omap entry_of dents)) c3 Hs3 Hf3 Hk) as (c4 & -> & Hs4 & Hf4 & Hm4);
    [apply Hkeep|].
  eexists _, c4. split; [done|]. rewrite Hm4. split_and!; [done|done| |by rewrite lookup_insert_eq].
  intros k v HR. rewrite lookup_insert_ne by (intros <-; by apply (Hne key v)).
  destruct (proj1 (Hsplit (k, v)) HR) as [Hin|Hin]; [|by apply Hcur]. apply Hkeep3; [done|by apply Hold].
Qed.

(** *** get-dir *)

Context (stR : store) (dest : str).

Definition file_effects (e : Entry) (stored_bytes : str) : list dir_effect :=
  [MadeDirs (parent_path (dest /p/ rel e)); WroteTo (dest /p/ rel e) (Restored stR stored_bytes);
   Chmod (dest /p/ rel e) (emode e)].

(** the contents an entry's hash stands for *)
Definition value_in (m : gmap str str) (e : Entry) : str :=
  default [] (m !! BlobKey (ref e) ≫= Decompress zstd_decompress).

Lemma restore_batch_all write_ok batch r (val : Entry → str) :
  (∀ out, write_ok out = true) →
  restore_batch write_ok stR dest r batch (map (λ e, Some (val e)) batch) =
    Rest (re_effects r ++ concat (map (λ e, file_effects e (val e)) batch))
      (re_written r ++ map (λ e, dest /p/ rel e) batch) (re_missing r).
Proof using Type.
  intros Hw. revert r. induction batch as [|e batch IH]; intros r; cbn [restore_batch map concat].
  - rewrite !app_nil_r. by destruct r.
  - rewrite IH. cbn [head tail mjoin option_join]. unfold restore_one. rewrite Hw. cbn [re_effects re_written re_missing].
    by rewrite <-!app_assoc.
Qed.

Lemma get_batches_all fuel write_ok entries r (c : client S) :
  let m := stored (c_peer c) in
  length entries < fuel → synced c → faultless c → (∀ out, write_ok out = true) →
  (∀ e, e ∈ entries → word (BlobKey (ref e)) ∧ is_Some (m !! BlobKey (ref e) ≫= Decompress zstd_decompress)) →
  ∃ c', get_batches zstd_decompress write_ok stR fuel dest entries r c =
    (Rest (re_effects r ++ concat (map (λ e, file_effects e (value_in m e)) entries))
       (re_written r ++ map (λ e, dest /p/ rel e) entries) (re_missing r), c').
Proof using Hdaemon.
  revert entries r c. induction fuel as [|fuel IH]; intros entries r c m Hl Hs Hf Hw Hv; [lia|].
  cbn [get_batches]. destruct entries as [|e0 rest] eqn:Ee; [exists c; cbn; rewrite !app_nil_r; by destruct r|].
  rewrite <-Ee in *. set (batch := take kBatch entries). set (later := drop kBatch entries).
  assert (Hsplit : entries = batch ++ later) by (symmetry; apply take_drop).
  destruct (GetMany_faultless zstd_decompress (map (λ e, BlobKey (ref e)) batch) c Hs Hf) as (c1 & -> & Hs1 & Hf1 & Hm1).
  { apply Forall_map, list.Forall_forall. intros e He. apply Hv. rewrite Hsplit. apply elem_of_app. by left. }
  rewrite map_map. fold m.
  assert (Hblobs : map (λ e, m !! BlobKey (ref e) ≫= Decompress zstd_decompress) batch = map (λ e, Some (value_in m e)) batch).
  { apply map_ext_in. intros e He. destruct (Hv e) as [_ [v Ev]]; [rewrite Hsplit; apply elem_of_app; left; by apply list_elem_of_In|].
    unfold value_in. by rewrite Ev. }
  rewrite Hblobs, restore_batch_all by done.
  destruct (IH later (Rest (re_effects r ++ concat (map (λ e, file_effects e (value_in m e)) batch))
      (re_written r ++ map (λ e, dest /p/ rel e) batch) (re_missing r)) c1) as (c2 & ->); [|done|done|done| |].
  { unfold later. rewrite length_drop, Ee in *. unfold kBatch. cbn [length] in *. lia. }
  { intros e He. rewrite Hm1. apply Hv. rewrite Hsplit. apply elem_of_app. by right. }
  exists c2. rewrite Hm1. fold m. cbn [re_effects re_written re_missing].
  clearbody batch later. rewrite Hsplit. by rewrite !map_app, concat_app, <-!app_assoc.
Qed.

(** what a restore does for a directory entry *)
Definition link_restored (d : dent) : list dir_effect :=
  match de_kind d with
  | DSymlink target => link_effects dest (Dir_entry "l" 0 target (lexically_relative (de_path d) root))
  | _ => []
  end.
Definition file_restored (d : dent) : list dir_effect :=
  match file_of d with
  | Some data =>
      let out := dest /p/ lexically_relative (de_path d) root in
      [MadeDirs (parent_path out); WroteTo out (Restored stR (Stored st data));
       Chmod out (N.land (st_mode (de_path d)) kPermBits)]
  | None => []
  end.

Definition file_entry (d : dent) (data : str) : Entry :=
  Dir_entry "f" (N.land (st_mode (de_path d)) kPermBits) (stored_hash data) (lexically_relative (de_path d) root).

Lemma entry_cases d :
  (∃ data, file_of d = Some data ∧ entry_of d = Some (file_entry d data)) ∨
  (file_of d = None ∧ (entry_of d = None ∨ ∃ e, entry_of d = Some e ∧ is_kind "f" e = false)).
Proof using Type.
  unfold entry_of, file_of. destruct (de_kind d) as [target| |].
  - right. split; [done|]. right. by eexists.
  - destruct (read (de_path d)) as [data|]; [left; by exists data|right; by split; [|left]].
  - right. by split; [|left].
Qed.

Lemma links_restored ds :
  concat (map (link_effects dest) (List.filter (is_kind "l") (omap entry_of ds))) = concat (map link_restored ds).
Proof using Type.
  induction ds as [|d ds IH]; [done|]. cbn [omap list_omap map concat].
  unfold entry_of at 1, link_restored at 1, file_of. destruct (de_kind d) as [target| |].
  - cbn [List.filter]. change (is_kind "l" _) with true. cbn [map concat]. by rewrite IH.
  - destruct (read (de_path d)); [|exact IH]. cbn [fmap option_fmap option_map List.filter].
    change (is_kind "l" _) with false. exact IH.
  - exact IH.
Qed.

Lemma files_restored (m : gmap str str) ds :
  present zstd_compress (omap blob_of ds) m → (∀ k v, (k, v) ∈ omap blob_of ds → keepable zstd_compress v) →
  concat (map (λ e, file_effects e (value_in m e)) (List.filter (is_kind "f") (omap entry_of ds))) =
    concat (map file_restored ds) ∧
  (∀ e, e ∈ List.filter (is_kind "f") (omap entry_of ds) →
     word (BlobKey (ref e)) ∧ is_Some (m !! BlobKey (ref e) ≫= Decompress zstd_decompress)).
Proof using lossless.
  induction ds as [|d ds IH]; intros Hp Hk; [split; [done|]; intros e He; by apply not_elem_of_nil in He|].
  change (omap blob_of (d :: ds)) with (match blob_of d with Some y => y :: omap blob_of ds | None => omap blob_of ds end) in Hp, Hk.
  change (omap entry_of (d :: ds)) with (match entry_of d with Some y => y :: omap entry_of ds | None => omap entry_of ds end).
  change (concat (map file_restored (d :: ds))) with (file_restored d ++ concat (map file_restored ds)).
  unfold file_restored at 1. destruct (entry_cases d) as [(data & Ef & ->)|[Ef He]]; rewrite Ef.
  - unfold blob_of at 1 in Hp. unfold blob_of at 1 in Hk. rewrite Ef in Hp, Hk. cbn [fmap option_fmap option_map] in Hp, Hk.
    destruct IH as [IH1 IH2]; [intros k v Hin; apply Hp; by right|intros k v Hin; apply (Hk k); by right|].
    change (List.filter (is_kind "f") (file_entry d data :: omap entry_of ds))
      with (file_entry d data :: List.filter (is_kind "f") (omap entry_of ds)).
    cbn [map concat]. rewrite IH1.
    assert (Hv : m !! BlobKey (stored_hash data) ≫= Decompress zstd_decompress = Some (Stored st data)).
    { rewrite (Hp _ (Stored st data)) by (by left). cbn [mbind option_bind].
      apply (keepable_back zstd_compress zstd_decompress lossless). apply (Hk (BlobKey (stored_hash data))). by left. }
    split.
    + f_equal. unfold file_effects, value_in, file_entry. cbn [rel ref emode]. by rewrite Hv.
    + intros e [->|He]%elem_of_cons; [|by apply IH2]. unfold file_entry. cbn [ref]. split; [apply blob_word|].
      rewrite Hv. by eexists.
  - unfold blob_of at 1 in Hp. unfold blob_of at 1 in Hk. rewrite Ef in Hp, Hk. cbn [fmap option_fmap option_map] in Hp, Hk.
    destruct He as [->|(e & -> & Hkind)]; [by apply IH|]. cbn [List.filter]. rewrite Hkind. by apply IH.
Qed.

End Tree.

(** *** no partial trees *)

Section AnyDaemon.
Context (zstd_decompress : str → option str) {S : Type} `{Peer S}.
Context (write_ok : str → bool) (st : store) (root : str).

(** some effect puts a file or a link at [path] *)
Definition made (path : str) (effects : list dir_effect) : Prop :=
  (∃ bytes, WroteTo path bytes ∈ effects) ∨ (∃ target, Linked target path ∈ effects).

(** the list of written paths is complete, and nothing is missing of [entries] when the count says so *)
Definition accounted (entries : list Entry) (r : restore) : Prop :=
  (∀ path, made path (re_effects r) → path ∈ re_written r) ∧
  (re_missing r = 0 → ∀ e, e ∈ entries → ∃ bytes, WroteTo (root /p/ rel e) bytes ∈ re_effects r).

Lemma made_app path a b : made path (a ++ b) ↔ made path a ∨ made path b.
Proof. unfold made. set_solver. Qed.

Lemma restore_one_accounted entries r e blob :
  accounted entries r → accounted (entries ++ [e]) (restore_one write_ok st root r e blob).
Proof.
  intros [H1 H2]. unfold restore_one.
  assert (Hdirs : ∀ path, ¬ made path [MadeDirs (parent_path (root /p/ rel e))]) by (unfold made; set_solver).
  assert (Hfail : accounted (entries ++ [e])
    (Rest (re_effects r ++ [MadeDirs (parent_path (root /p/ rel e))]) (re_written r) (Datatypes.S (re_missing r)))).
  { split; cbn [re_effects re_written re_missing]; [|done]. intros path [Hm|Hm]%made_app; [by apply H1|by destruct (Hdirs path)]. }
  destruct blob as [b|]; [|exact Hfail]. destruct (write_ok _); [|exact Hfail]. clear Hfail.
  split; cbn [re_effects re_written re_missing].
  - intros path [[Hm|Hm]%made_app|Hm]%made_app.
    + apply elem_of_app. left. by apply H1.
    + by destruct (Hdirs path).
    + apply elem_of_app. right. unfold made in Hm. set_solver.
  - intros Hz e' [He|He]%elem_of_app.
    + destruct (H2 Hz e' He) as [bytes Hb]. exists bytes. rewrite !elem_of_app. by left; left.
    + apply list_elem_of_singleton in He as ->. eexists. rewrite !elem_of_app. right. left.
Qed.

Lemma restore_batch_accounted batch entries r blobs :
  accounted entries r → accounted (entries ++ batch) (restore_batch write_ok st root r batch blobs).
Proof.
  revert entries r blobs. induction batch as [|e batch IH]; intros entries r blobs Ha; [by rewrite app_nil_r|].
  cbn [restore_batch]. change (e :: batch) with ([e] ++ batch). rewrite app_assoc. apply IH. by apply restore_one_accounted.
Qed.

Lemma get_batches_accounted fuel todo entries r (c : client S) :
  length todo < fuel → accounted entries r →
  accounted (entries ++ todo) (get_batches zstd_decompress write_ok st fuel root todo r c).1.
Proof.
  revert todo entries r c. induction fuel as [|fuel IH]; intros todo entries r c Hl Ha; [lia|].
  cbn [get_batches]. destruct todo as [|e0 rest] eqn:Et; [by rewrite app_nil_r|]. rewrite <-Et in *.
  destruct (GetMany _ _ c) as [blobs c1]. rewrite <-(take_drop kBatch todo) at 1. rewrite app_assoc.
  apply IH; [|by apply restore_batch_accounted]. rewrite length_drop, Et. rewrite Et in Hl. unfold kBatch. cbn [length] in *. lia.
Qed.

Lemma links_accounted links :
  accounted [] (Rest (concat (map (link_effects root) links)) (map (λ e, root /p/ rel e) links) 0).
Proof.
  split; cbn [re_effects re_written re_missing]; [|intros _ e He; by apply not_elem_of_nil in He].
  induction links as [|e links IH]; intros path; cbn [map concat]; [unfold made; set_solver|].
  intros [Hm|Hm]%made_app; [|right; by apply IH]. unfold link_effects, made in Hm. set_solver.
Qed.

End AnyDaemon.

(** *** at a concrete tree: a link and a file *)

Definition tree_read (path : str) : option str := if path == lit "/t/a" then Some (lit "hello") else None.
Definition tree : list dent := [Dent "/t/l" (DSymlink "a"); Dent "/t/a" DRegular; Dent "/t/s" DOther].
Definition tree_put : N * list dir_effect * client (jigd sample_env) :=
  PutDir (λ s, s) Some tree_read (λ _, 33188%N) sample_store "/sock" (Some sample_daemon) "tree" "/t" tree sample_client.

Lemma tree_R : R (λ s, s) tree_read sample_store tree = [(lit "b/68656c6c6f", lit "hello")].
Proof. vm_compute. reflexivity. Qed.

Lemma tree_fresh (s : jigd sample_env) : idle s → fresh sample_client s.
Proof. intros Hi. split_and!; [done|done|apply sample_faultless|done]. Qed.

Lemma tree_good : good Some (R (λ s, s) tree_read sample_store tree) (stored sample_daemon).
Proof. rewrite tree_R. intros k v Hin. apply list_elem_of_singleton in Hin as [= -> ->]. left. vm_compute. reflexivity. Qed.

Lemma tree_functional k v v' :
  (k, v) ∈ R (λ s, s) tree_read sample_store tree → (k, v') ∈ R (λ s, s) tree_read sample_store tree → v = v'.
Proof. rewrite tree_R. set_solver. Qed.

Lemma tree_keepable k v : (k, v) ∈ R (λ s, s) tree_read sample_store tree → keepable Some v.
Proof.
  rewrite tree_R. intros [= -> ->]%list_elem_of_singleton.
  split; [split; [by eexists|apply N.leb_le; vm_compute; reflexivity]|apply N.ltb_lt; vm_compute; reflexivity].
Qed.

Definition tree_entries : list Entry := omap (entry_of (λ s, s) tree_read (λ _, 33188%N) sample_store "/t") tree.

Lemma tree_listing : keepable Some (print_listing tree_entries) ∧ Forall listable tree_entries.
Proof.
  split; [split; [split; [by eexists|apply N.leb_le; vm_compute; reflexivity]|apply N.ltb_lt; vm_compute; reflexivity]|].
  assert (tree_entries = [Dir_entry "l" 0 "a" "l"; Dir_entry "f" 420 "68656c6c6f" "a"]) as -> by (vm_compute; reflexivity).
  repeat (apply Forall_cons; split); [| |constructor];
    (split_and!; [reflexivity|reflexivity|split; [discriminate|repeat constructor]|vm_compute; set_solver]).
Qed.

Lemma tree_key : word "tree" ∧ ∀ k v, (k, v) ∈ R (λ s, s) tree_read sample_store tree → k ≠ lit "tree".
Proof.
  split; [split; [done|split; [apply Nat.leb_le; reflexivity|reflexivity]]|].
  rewrite tree_R. by intros k v [= -> ->]%list_elem_of_singleton.
Qed.

Lemma tree_put_idle : idle (c_peer tree_put.2).
Proof.
  destruct (PutDir_faultless (λ s, s) Some tree_read (λ _, 33188%N) sample_store "/t" tree tree_functional tree_keepable
    "/sock" "tree" sample_daemon sample_client) as (said & c' & E & Hs & _);
    [apply tree_fresh; apply sample_synced|apply Nat.ltb_lt; reflexivity|apply tree_good|apply tree_key|apply tree_key|
     apply tree_listing|].
  unfold tree_put. rewrite E. apply Hs.
Qed.

