(* ===== verification/MachoFixup.v ===== *)
(** * macho_fixup.cc: the Mach-O half of reloc-fixup

    Load commands as their bytes, rewritten within the room the header has, and the ad-hoc code
    signature recomputed page by page. Integer widths are those of the code: 32-bit sums wrap at
    32 bits, 64-bit ones at 64. The file system is the parameter [exists_]. Messages on stderr are
    left out; the error count, the log and the image are there. *)

From S2P Require Import Prelude Paths Base Store NixHash Image.

Definition kMagic64 : N := 0xfeedfacf.
Definition kReqDyld : N := 0x80000000.
Definition kLoadDylib : N := 0xc.
Definition kIdDylib : N := 0xd.
Definition kLoadWeakDylib : N := N.lor 0x18 kReqDyld.
Definition kRpath : N := N.lor 0x1c kReqDyld.
Definition kReexportDylib : N := N.lor 0x1f kReqDyld.
Definition kLoadUpwardDylib : N := N.lor 0x23 kReqDyld.
Definition kCodeSignature : N := 0x1d.
Definition kSegment64 : N := 0x19.
Definition kSha256Size : N := 32.

(** MachHeader64: eight 32-bit fields; LoadCommand: two *)
Definition sizeof_MachHeader64 : nat := 32.
Definition h_magic (h : str) : N := field_at h 0 4.
Definition h_ncmds (h : str) : N := field_at h 16 4.
Definition offsetof_sizeofcmds : N := 20.
Definition sizeof_LoadCommand : nat := 8.
Definition l_cmd (l : str) : N := field_at l 0 4.
Definition l_cmdsize (l : str) : N := field_at l 4 4.

Definition add32 (a b : N) : N := ((a + b) mod 2 ^ 32)%N.

(** [Read<std::uintN_t>(offset).value_or(0)] *)
Definition read_uint (img : image) (offset : N) (size : nat) : option N := le_val <$> Read img offset size.
Definition read_or_0 (img : image) (offset : N) (size : nat) : N := default 0%N (read_uint img offset size).

(** ** Load commands *)

Record Command := Command_ { cmd : N; cbytes : str; path_off : nat }.

Definition Path (c : Command) : str :=
  if (path_off c =? 0)%nat then []
  else
    let tail := drop (path_off c) (cbytes c) in
    match find [chr_nul] tail with None => tail | Some n => take n tail end.

Definition kAlign : nat := 8.
(** [bytes.resize(n, '\0')] *)
Definition resize (s : str) (n : nat) : str := take n s ++ replicate (n - length s) chr_nul.
Definition SetPath (path : str) (c : Command) : Command :=
  let bytes := resize (cbytes c) (path_off c) ++ path in
  let bytes := resize bytes ((length bytes + kAlign) / kAlign * kAlign) in
  Command_ (cmd c) (Write bytes 4 (le_bytes 4 (N.of_nat (length bytes) mod 2 ^ 32))) (path_off c).

Definition IsPathCommand (cmd : N) : bool :=
  ((cmd =? kLoadDylib) || (cmd =? kLoadWeakDylib) || (cmd =? kReexportDylib) || (cmd =? kLoadUpwardDylib) ||
   (cmd =? kIdDylib) || (cmd =? kRpath))%N.

Record LoadCommands := Load_commands { commands : list Command; room : N }.

(** the sections of __TEXT: the first file offset that is not 0 *)
Fixpoint sect_loop (img : image) (offset : N) (sect n : nat) (room : N) : N :=
  match n with
  | 0 => room
  | S n =>
      let sect_off := read_or_0 img (add64 offset (72 + N.of_nat sect * 80 + 48)) 4 in
      sect_loop img offset (S sect) n
        (if (sect_off =? 0)%N then room else N.min room (sub64 sect_off (N.of_nat sizeof_MachHeader64)))
  end.

Definition segment_room (img : image) (offset room : N) : N :=
  let fileoff := read_or_0 img (add64 offset 40) 8 in
  let filesize := read_or_0 img (add64 offset 48) 8 in
  if (filesize =? 0)%N then room
  else if (fileoff =? 0)%N then sect_loop img offset 0 (N.to_nat (read_or_0 img (add64 offset 64) 4)) room
  else N.min room (sub64 fileoff (N.of_nat sizeof_MachHeader64)).

Definition read_command (img : image) (offset : N) (load : str) : Command :=
  Command_ (l_cmd load) (substr img (N.to_nat offset) (N.to_nat (l_cmdsize load)))
    (if IsPathCommand (l_cmd load) then
       let path_off := read_or_0 img (add64 offset (N.of_nat sizeof_LoadCommand)) 4 in
       if (path_off <? l_cmdsize load)%N then N.to_nat path_off else 0
     else 0).

(** [n] commands from [offset] on; a malformed one ends the loop *)
Fixpoint load_loop (img : image) (n : nat) (offset : N) (out : LoadCommands) : LoadCommands :=
  match n with
  | 0 => out
  | S n =>
      match Read img offset sizeof_LoadCommand with
      | None => out
      | Some load =>
          if ((l_cmdsize load <? N.of_nat sizeof_LoadCommand) || (img_size img <? add64 offset (l_cmdsize load)))%N then out
          else
            load_loop img n (add64 offset (l_cmdsize load))
              (Load_commands (commands out ++ [read_command img offset load])
                 (if (l_cmd load =? kSegment64)%N then segment_room img offset (room out) else room out))
      end
  end.
Definition ReadLoadCommands (img : image) (header : str) : LoadCommands :=
  load_loop img (N.to_nat (h_ncmds header)) (N.of_nat sizeof_MachHeader64)
    (Load_commands [] (sub64 (img_size img) (N.of_nat sizeof_MachHeader64))).

(** ** The code signature *)

Definition Big32 (img : image) (offset : N) : option N := (λ raw, le_val (rev raw)) <$> Read img offset 4.

Definition kEmbeddedSignature : N := 0xfade0cc0.
Definition kCodeDirectory : N := 0xfade0c02.
Definition kSha256 : N := 2.
Definition kHashOffsetField : N := 16.
Definition kCodeSlotsField : N := 28.
Definition kCodeLimitField : N := 32.
Definition kHashSizeField : N := 36.
Definition kHashTypeField : N := 37.
Definition kPageSizeField : N := 39.

(** [Raises]: [substr] beyond the end throws, or a shift by 64 or more is undefined *)
Inductive resigned := Signed (img : image) | Unsignable (img : image) | Raises.

Fixpoint signature_loop (img : image) (n : nat) (offset : N) (sig : option N) : option N :=
  match n with
  | 0 => sig
  | S n =>
      match Read img offset sizeof_LoadCommand with
      | None => sig
      | Some load =>
          if (l_cmdsize load <? N.of_nat sizeof_LoadCommand)%N then sig
          else
            signature_loop img n (add64 offset (l_cmdsize load))
              (if (l_cmd load =? kCodeSignature)%N then read_uint img (add64 offset (N.of_nat sizeof_LoadCommand)) 4 else sig)
      end
  end.

(** the bytes a slot covers: from [slot * page] to the next page or the code limit; [None]: [substr] throws *)
Definition page_bytes (img : image) (page limit : N) (slot : nat) : option str :=
  let begin := ((N.of_nat slot * page) mod 2 ^ 64)%N in
  let end_ := N.min (add64 begin page) limit in
  if (img_size img <? begin)%N then None
  else Some (substr img (N.to_nat begin) (N.to_nat (N.min (sub64 end_ begin) (img_size img)))).

Fixpoint slot_loop (img : image) (page limit at_ : N) (slot n : nat) : resigned :=
  match n with
  | 0 => Signed img
  | S n =>
      match page_bytes img page limit slot with
      | None => Raises
      | Some bytes =>
          match Overwrite img (add64 at_ (N.of_nat slot * kSha256Size)) (Sha256 bytes) with
          | None => Unsignable img
          | Some img => slot_loop img page limit at_ (S slot) n
          end
      end
  end.

(** the fields of a code directory *)
Definition cd_hash_off (img : image) (dir : N) : N := default 0%N (Big32 img (add64 dir kHashOffsetField)).
Definition cd_slots (img : image) (dir : N) : N := default 0%N (Big32 img (add64 dir kCodeSlotsField)).
Definition cd_limit (img : image) (dir : N) : N := default 0%N (Big32 img (add64 dir kCodeLimitField)).
Definition cd_hash_size (img : image) (dir : N) : N := read_or_0 img (add64 dir kHashSizeField) 1.
Definition cd_hash_type (img : image) (dir : N) : N := read_or_0 img (add64 dir kHashTypeField) 1.
Definition cd_page_shift (img : image) (dir : N) : N := read_or_0 img (add64 dir kPageSizeField) 1.

Definition sign_directory (img : image) (dir : N) : resigned :=
  if (64 <=? cd_page_shift img dir)%N then Raises
  else if negb (cd_hash_type img dir =? kSha256)%N || negb (cd_hash_size img dir =? kSha256Size)%N then Unsignable img
  else slot_loop img (2 ^ cd_page_shift img dir) (cd_limit img dir) (add64 dir (cd_hash_off img dir)) 0
         (N.to_nat (cd_slots img dir)).

Fixpoint blob_loop (img : image) (sig : N) (i n : nat) : resigned :=
  match n with
  | 0 => Signed img
  | S n =>
      let dir := add32 sig (default 0%N (Big32 img (add64 (add32 sig 12) (N.of_nat i * 8 + 4)))) in
      if negb (bool_decide (Big32 img dir = Some kCodeDirectory)) then blob_loop img sig (S i) n
      else
        match sign_directory img dir with
        | Signed img => blob_loop img sig (S i) n
        | r => r
        end
  end.

Definition Resign (img : image) : resigned :=
  let sig_off :=
    match Read img 0 sizeof_MachHeader64 with
    | None => None
    | Some header => signature_loop img (N.to_nat (h_ncmds header)) (N.of_nat sizeof_MachHeader64) None
    end in
  match sig_off with
  | None => Signed img
  | Some sig =>
      if negb (bool_decide (Big32 img sig = Some kEmbeddedSignature)) then Unsignable img
      else blob_loop img sig 0 (N.to_nat (default 0%N (Big32 img (add32 sig 8))))
  end.

(** ** Where load commands point *)

Definition IsSystemPath (path : str) : bool := starts_with path "/usr/lib/" || starts_with path "/System/".

Section Fixing.
(** [fs::exists] *)
Context (exists_ : str → bool).

(** the first of our directories that has the library *)
Definition MachResolve (st : store) (ctx : context) (here path : str) : option str :=
  if IsSystemPath path then
    let stem := if ends_with path ".dylib" then take (length path - 6) path else path in
    if (sdk ctx == []) || exists_ (sdk ctx /p/ (drop 1 stem ++ lit ".tbd")) then Some path else None
  else
    let target :=
      if starts_with path "@rpath/" then
        let name := drop 7 path in
        (λ d, Final ctx (d /p/ name)) <$> List.find (λ d, exists_ (d /p/ name)) (own_lib_dirs ctx)
      else if starts_with path "@loader_path/" then Some (lexically_normal (here /p/ drop 13 path))
      else if IsStorePath st (Final ctx path) then Some (Final ctx path) else None in
    match target with
    | Some t => if (OnDisk ctx t != t) && negb (exists_ (OnDisk ctx t)) then None else Some t
    | None => None
    end.

Definition NewSpelling (st : store) (ctx : context) (self : str) (c : Command) : option str * context :=
  let path := Path c in
  let here := parent_path self in
  if (cmd c =? kIdDylib)%N then (Some self, ctx)
  else if (cmd c =? kRpath)%N then
    let target := Final ctx path in
    (if IsStorePath st target then Some (RelativeTo here target "@loader_path") else None, ctx)
  else
    match MachResolve st ctx here path with
    | None => (None, bump ctx)
    | Some target => (Some (if IsSystemPath path then path else RelativeTo here target "@loader_path"), ctx)
    end.

(** the commands, the context and the new spellings, in order *)
Fixpoint spell_loop (st : store) (self : str) (cs : list Command) (ctx : context) (log : list str)
  : list Command * context * list str :=
  match cs with
  | [] => ([], ctx, log)
  | c :: cs =>
      let '(c, ctx, log) :=
        if (path_off c =? 0)%nat then (c, ctx, log)
        else
          let '(text, ctx) := NewSpelling st ctx self c in
          match text with
          | Some text => if text == Path c then (c, ctx, log) else (SetPath text c, ctx, log ++ [text])
          | None => (c, ctx, log)
          end in
      let '(cs, ctx, log) := spell_loop st self cs ctx log in
      (c :: cs, ctx, log)
  end.

(** the image with these load commands *)
Definition write_commands (img : image) (cs : list Command) (room : N) : image :=
  let cmds := concat (map cbytes cs) in
  let img := Write img offsetof_sizeofcmds (le_bytes 4 (N.of_nat (length cmds) mod 2 ^ 32)) in
  Write img (N.of_nat sizeof_MachHeader64) (resize cmds (N.to_nat room)).

(** what one file comes to *)
Inductive macho_result :=
| NotMachO
| Done_ (ctx : context) (write : option (image * list str))
| Macho_raises.

Definition FixMachO (st : store) (ctx : context) (path shown : str) (img : image) : macho_result :=
  match Read img 0 sizeof_MachHeader64 with
  | None => NotMachO
  | Some header =>
      if negb (h_magic header =? kMagic64)%N then NotMachO
      else
        let table := ReadLoadCommands img header in
        let '(cs, ctx, log) := spell_loop st (Final ctx path) (commands table) ctx [] in
        if log == [] then Done_ ctx None
        else if (room table <? N.of_nat (length (concat (map cbytes cs))))%N then Done_ (bump ctx) None
        else
          match Resign (write_commands img cs (room table)) with
          | Raises => Macho_raises
          | Unsignable _ => Done_ (bump ctx) None
          | Signed img => Done_ ctx (Some (img, shown :: log))
          end
  end.
End Fixing.

(** ** Properties *)

(** *** the code signature *)

(** two images that agree below [limit] *)
Definition agree (limit : nat) (a b : image) : Prop := length a = length b ∧ ∀ i, i < limit → a !! i = b !! i.

Lemma page_bytes_agree img img' page limit j :
  agree (N.to_nat limit) img img' → (N.of_nat j * page ≤ limit)%N → (limit + page < 2 ^ 64)%N →
  page_bytes img page limit j = page_bytes img' page limit j.
Proof.
  intros [Hl Ha] Hj Hs. unfold page_bytes, img_size. rewrite <-Hl. rewrite N.mod_small by lia.
  destruct (_ <? _)%N eqn:E; [done|]. f_equal. apply N.ltb_ge in E.
  assert (Hend : (sub64 (N.min (add64 (N.of_nat j * page) page) limit) (N.of_nat j * page) ≤ limit - N.of_nat j * page)%N).
  { unfold add64. rewrite (N.mod_small (_ + _)) by lia. unfold sub64.
    replace (N.min (N.of_nat j * page + page) limit + 2 ^ 64 - N.of_nat j * page)%N
      with (N.min (N.of_nat j * page + page) limit - N.of_nat j * page + 1 * 2 ^ 64)%N by lia.
    rewrite N.Div0.mod_add, N.mod_small by lia. lia. }
  apply substr_ext. intros i Hi. apply Ha. lia.
Qed.

Lemma slot_loop_spec img page limit at_ slot n img' :
  slot_loop img page limit at_ slot n = Signed img' →
  (limit ≤ at_)%N → (at_ + 32 * N.of_nat (slot + n) < 2 ^ 64)%N → (limit + page < 2 ^ 64)%N →
  (∀ j, j < slot + n → (N.of_nat j * page ≤ limit)%N) →
  length img' = length img ∧
  (∀ i, outside (N.to_nat at_ + 32 * slot) (32 * n) i → img' !! i = img !! i) ∧
  ∀ j, slot ≤ j < slot + n →
    ∃ bytes, page_bytes img page limit j = Some bytes ∧
      N.to_nat at_ + 32 * j + 32 ≤ length img ∧ substr img' (N.to_nat at_ + 32 * j) 32 = Sha256 bytes.
Proof.
  revert img slot. induction n as [|n IH]; intros img slot E Hat Hov Hpg Hj; cbn [slot_loop] in E.
  { injection E as <-. split_and!; [done|done|lia]. }
  destruct (page_bytes img page limit slot) as [bytes|] eqn:Ep; [|done].
  destruct (Overwrite img _ _) as [img1|] eqn:Eo; [|done].
  apply Overwrite_Some in Eo as [Hin ->]. rewrite Sha256_length in *.
  assert (Hoff : N.to_nat (add64 at_ (N.of_nat slot * kSha256Size)) = N.to_nat at_ + 32 * slot).
  { unfold add64, kSha256Size. rewrite N.mod_small by lia. lia. }
  rewrite Hoff in *. set (img1 := replace img _ _ _) in *.
  assert (Hlen1 : length img1 = length img) by (by apply replace_length; [|apply Sha256_length]).
  assert (Hout1 : ∀ i, outside (N.to_nat at_ + 32 * slot) 32 i → img1 !! i = img !! i).
  { intros i Hi. apply replace_outside; [done|apply Sha256_length|done]. }
  destruct (IH img1 (S slot)) as (Hlen & Hout & Hslots); try done; [lia|intros j ?; apply Hj; lia|].
  split_and!; [congruence| |].
  - intros i Hi. unfold outside in *. rewrite Hout by lia. apply Hout1. lia.
  - intros j Hjr. destruct (decide (j = slot)) as [->|Hne].
    + exists bytes. split_and!; [done|lia|]. rewrite (substr_ext img' img1).
      * apply replace_substr; [done|apply Sha256_length].
      * intros i Hi. apply Hout. unfold outside. lia.
    + destruct (Hslots j) as (b & Hb & Hr & Hs); [lia|]. exists b. split_and!; [|lia|done].
      rewrite <-Hb. apply page_bytes_agree; [|apply Hj; lia|done]. split; [done|]. intros i Hi. symmetry. apply Hout1.
      unfold outside. lia.
Qed.

(** what the kernel checks of a code directory: every page has the digest its slot says *)
Definition directory_valid (img : image) (dir : N) : Prop :=
  cd_hash_type img dir = kSha256 ∧ cd_hash_size img dir = kSha256Size ∧
  ∀ j, (N.of_nat j < cd_slots img dir)%N →
    ∃ bytes, page_bytes img (2 ^ cd_page_shift img dir) (cd_limit img dir) j = Some bytes ∧
      Read img (dir + cd_hash_off img dir + 32 * N.of_nat j) 32 = Some (Sha256 bytes).

(** the digests lie behind the code and behind the fields of the directory *)
Definition directory_layout (img : image) (dir : N) : Prop :=
  (44 ≤ cd_hash_off img dir)%N ∧ (cd_limit img dir ≤ dir)%N ∧
  (dir + cd_hash_off img dir + 32 * cd_slots img dir < 2 ^ 64)%N ∧
  (cd_limit img dir + 2 ^ cd_page_shift img dir < 2 ^ 64)%N ∧
  ∀ j, (j < cd_slots img dir → j * 2 ^ cd_page_shift img dir ≤ cd_limit img dir)%N.

Lemma Read_ext img img' off n :
  length img = length img' → (∀ i, N.to_nat off ≤ i < N.to_nat off + n → img !! i = img' !! i) →
  Read img off n = Read img' off n.
Proof.
  intros Hl H. unfold Read, out_of_range, img_size. rewrite Hl. destruct (_ || _); [done|]. f_equal.
  apply substr_ext. intros i Hi. apply H. lia.
Qed.

(** C17. Re-signing works: when a code directory has been signed again, every page of the code in the
    resulting file has exactly the SHA-256 digest its slot holds, so the file passes the kernel's check;
    and nothing but the digests has changed. *)
Theorem sign_directory_valid img dir img' :
  sign_directory img dir = Signed img' → directory_layout img dir →
  directory_valid img' dir ∧ length img' = length img ∧
  ∀ i, outside (N.to_nat (dir + cd_hash_off img dir)) (32 * N.to_nat (cd_slots img dir)) i → img' !! i = img !! i.
Proof.
  intros E (L1 & L2 & L3 & L4 & L5). unfold sign_directory in E.
  destruct (_ <=? _)%N; [done|]. destruct (_ || _) eqn:Eh; [done|]. bool_prop.
  assert (Hat : add64 dir (cd_hash_off img dir) = (dir + cd_hash_off img dir)%N) by (unfold add64; rewrite N.mod_small by lia; done).
  rewrite Hat in E. apply slot_loop_spec in E as (Hlen & Hout & Hslots); [|lia|lia|done|intros j ?; apply L5; lia].
  rewrite Nat.mul_0_r, Nat.add_0_r in Hout.
  assert (Hfield : ∀ f n, (f + N.of_nat n ≤ 44)%N → Read img' (add64 dir f) n = Read img (add64 dir f) n).
  { intros f n Hf. unfold add64. rewrite N.mod_small by lia. apply Read_ext; [done|]. intros i Hi. apply Hout.
    unfold outside. lia. }
  assert (F1 : cd_hash_off img' dir = cd_hash_off img dir) by (unfold cd_hash_off, Big32; by rewrite Hfield).
  assert (F2 : cd_slots img' dir = cd_slots img dir) by (unfold cd_slots, Big32; by rewrite Hfield).
  assert (F3 : cd_limit img' dir = cd_limit img dir) by (unfold cd_limit, Big32; by rewrite Hfield).
  assert (F4 : cd_page_shift img' dir = cd_page_shift img dir) by (unfold cd_page_shift, read_or_0, read_uint; by rewrite Hfield).
  assert (F5 : cd_hash_type img' dir = cd_hash_type img dir) by (unfold cd_hash_type, read_or_0, read_uint; by rewrite Hfield).
  assert (F6 : cd_hash_size img' dir = cd_hash_size img dir) by (unfold cd_hash_size, read_or_0, read_uint; by rewrite Hfield).
  split; [|by split]. unfold directory_valid. rewrite F1, F2, F3, F4, F5, F6. split_and!; [done|done|].
  intros j Hj. destruct (Hslots j) as (bytes & Hb & Hr & Hs); [lia|]. exists bytes. split.
  - rewrite <-Hb. apply page_bytes_agree; [|apply L5; lia|done]. split; [done|]. intros i Hi. apply Hout. unfold outside. lia.
  - unfold Read. rewrite (proj2 (out_of_range_false img' _ 32)) by lia. f_equal. rewrite <-Hs. f_equal. lia.
Qed.

(** one directory, two pages of eight bytes *)
Definition big32 (n : N) : str := rev (le_bytes 4 n).
Definition sample_directory : str :=
  replicate 16 chr_nul ++ big32 44 ++ replicate 8 chr_nul ++ big32 2 ++ big32 16 ++
  [byte_of 32; byte_of 2; byte_of 0; byte_of 3] ++ replicate 4 chr_nul.
Definition sample_macho : image := lit "0123456789abcdef" ++ sample_directory ++ replicate 64 chr_nul.

Lemma sign_directory_valid_witness :
  ∃ img', sign_directory sample_macho 16 = Signed img' ∧ directory_valid img' 16.
Proof.
  destruct (sign_directory sample_macho 16) as [img'| |] eqn:E; [|vm_compute in E; discriminate E..].
  exists img'. split; [done|]. apply (sign_directory_valid sample_macho 16 img' E).
  assert (Hs : cd_slots sample_macho 16 = 2%N) by (vm_compute; reflexivity).
  unfold directory_layout. rewrite Hs. split_and!; [vm_compute; discriminate|vm_compute; discriminate|vm_compute; reflexivity|
    vm_compute; reflexivity|].
  intros j Hj. change (cd_page_shift sample_macho 16) with 3%N. change (cd_limit sample_macho 16) with 16%N. lia.
Defined.

(** *** load commands read back *)

(** a command as its own bytes describe it *)
Definition command_ok (c : Command) : Prop :=
  8 ≤ length (cbytes c) ∧ (N.of_nat (length (cbytes c)) < 2 ^ 32)%N ∧
  field_at (cbytes c) 0 4 = cmd c ∧ field_at (cbytes c) 4 4 = N.of_nat (length (cbytes c)) ∧
  (IsPathCommand (cmd c) = true →
     12 ≤ path_off c < length (cbytes c) ∧ field_at (cbytes c) 8 4 = N.of_nat (path_off c)) ∧
  (IsPathCommand (cmd c) = false → path_off c = 0).

Lemma substr_substr s off n pos k : pos + k ≤ n → substr (substr s off n) pos k = substr s (off + pos) k.
Proof.
  intros H. apply list_eq. intros i. rewrite !substr_lookup. destruct (Nat.ltb_spec i k); [|done].
  destruct (Nat.ltb_spec (pos + i) n); [f_equal|]; lia.
Qed.

Lemma substr_full s : substr s 0 (length s) = s.
Proof. unfold substr. by rewrite drop_0, take_ge. Qed.

(** the command at [off] of an image, when its bytes stand there *)
Lemma read_command_at img off c :
  command_ok c → N.to_nat off + length (cbytes c) ≤ length img → (N.of_nat (length img) < 2 ^ 64)%N →
  substr img (N.to_nat off) (length (cbytes c)) = cbytes c →
  ∃ load, Read img off sizeof_LoadCommand = Some load ∧ l_cmdsize load = N.of_nat (length (cbytes c)) ∧
    l_cmd load = cmd c ∧ read_command img off load = c.
Proof.
  intros (H8 & Hlen & Hcmd & Hsz & Hp & Hnp) Hin H64 Hb.
  assert (Hsub : ∀ pos k, pos + k ≤ length (cbytes c) → substr img (N.to_nat off + pos) k = substr (cbytes c) pos k).
  { intros pos k Hk. rewrite <-Hb. by rewrite substr_substr. }
  exists (substr (cbytes c) 0 8).
  assert (Hread : Read img off sizeof_LoadCommand = Some (substr (cbytes c) 0 8)).
  { unfold Read, sizeof_LoadCommand. rewrite (proj2 (out_of_range_false img off 8)) by lia.
    f_equal. rewrite <-(Nat.add_0_r (N.to_nat off)). apply Hsub. lia. }
  assert (Hf : ∀ pos, pos + 4 ≤ 8 → field_at (substr (cbytes c) 0 8) pos 4 = field_at (cbytes c) pos 4).
  { intros pos Hpos. unfold field_at. by rewrite substr_substr. }
  assert (H1 : l_cmdsize (substr (cbytes c) 0 8) = N.of_nat (length (cbytes c))) by (unfold l_cmdsize; rewrite Hf by lia; done).
  assert (H2 : l_cmd (substr (cbytes c) 0 8) = cmd c) by (unfold l_cmd; rewrite Hf by lia; done).
  split_and!; [done|done|done|]. unfold read_command. rewrite H1, H2, Nat2N.id, Hb.
  destruct c as [cm bs po]. cbn [cmd cbytes path_off] in *. f_equal.
  destruct (IsPathCommand cm) eqn:Ep; [|by rewrite Hnp]. destruct (Hp eq_refl) as [Hpo Hfield].
  assert (Hr : read_or_0 img (add64 off (N.of_nat sizeof_LoadCommand)) 4 = N.of_nat po).
  { unfold read_or_0, read_uint, add64, sizeof_LoadCommand. rewrite N.mod_small by lia.
    unfold Read. rewrite (proj2 (out_of_range_false img _ 4)) by lia. cbn [fmap option_fmap option_map default].
    rewrite <-Hfield. unfold field_at, id. f_equal. replace (N.to_nat (off + N.of_nat 8)) with (N.to_nat off + 8) by lia.
    apply Hsub. lia. }
  rewrite Hr. rewrite (proj2 (N.ltb_lt _ _)) by lia. lia.
Qed.

Lemma load_loop_reads img cs off out :
  Forall command_ok cs → N.to_nat off + length (concat (map cbytes cs)) ≤ length img → (N.of_nat (length img) < 2 ^ 64)%N →
  substr img (N.to_nat off) (length (concat (map cbytes cs))) = concat (map cbytes cs) →
  commands (load_loop img (length cs) off out) = commands out ++ cs.
Proof.
  intros Hcs. revert off out. induction Hcs as [|c cs Hc _ IH]; intros off out Hin H64 Hb; [by rewrite app_nil_r|].
  cbn [map concat length load_loop] in *. rewrite length_app in Hin, Hb. rewrite substr_app in Hb.
  apply app_inj_1 in Hb as [Hb1 Hb2]; [|unfold substr; rewrite length_take, length_drop; lia].
  destruct (read_command_at img off c) as (load & -> & Hsz & Hcmd & Hread); [done|lia|done|done|].
  pose proof Hc as (H8 & Hl32 & _).
  assert (Hadd : add64 off (N.of_nat (length (cbytes c))) = (off + N.of_nat (length (cbytes c)))%N)
    by (unfold add64; apply N.mod_small; lia).
  rewrite Hsz, Hadd, Hread. unfold sizeof_LoadCommand, img_size.
  rewrite (proj2 (N.ltb_ge _ _)), (proj2 (N.ltb_ge _ _)) by lia. cbn [orb].
  assert (Hoff : N.to_nat (off + N.of_nat (length (cbytes c))) = N.to_nat off + length (cbytes c)) by lia.
  rewrite IH; [cbn [commands]; by rewrite <-app_assoc| |done|]; rewrite Hoff; [lia|done].
Qed.

(** *** respelling *)

Lemma resize_grow s n : length s ≤ n → resize s n = s ++ replicate (n - length s) chr_nul.
Proof. intros H. unfold resize. by rewrite take_ge. Qed.
Lemma resize_length s n : length (resize s n) = n.
Proof. unfold resize. rewrite length_app, length_take, length_replicate. lia. Qed.

Lemma align_bounds n : n < (n + kAlign) / kAlign * kAlign ≤ n + kAlign.
Proof.
  unfold kAlign. pose proof (Nat.div_mod (n + 8) 8 ltac:(lia)). pose proof (Nat.mod_upper_bound (n + 8) 8 ltac:(lia)). lia.
Qed.

Lemma Write_in img off bytes : N.to_nat off + length bytes ≤ length img →
  Write img off bytes = replace img (N.to_nat off) (length bytes) bytes.
Proof.
  intros H. unfold Write. destruct (Overwrite img off bytes) as [img'|] eqn:E.
  - by apply Overwrite_Some in E as [_ ->].
  - exfalso. assert (Overwrite img off bytes = Some (replace img (N.to_nat off) (length bytes) bytes)) as E2
      by (by apply Overwrite_Some). congruence.
Qed.

Lemma SetPath_ok path c :
  command_ok c → IsPathCommand (cmd c) = true → chr_nul ∉ path →
  (N.of_nat (path_off c + length path + kAlign) < 2 ^ 32)%N →
  command_ok (SetPath path c) ∧ Path (SetPath path c) = path ∧ cmd (SetPath path c) = cmd c ∧
  length (cbytes (SetPath path c)) mod kAlign = 0.
Proof.
  intros (H8 & Hl & Hcmd & Hsz & Hp & _) Hpc Hnul Hsize. destruct (Hp Hpc) as [Hpo Hpf].
  unfold SetPath. set (n := (length (resize (cbytes c) (path_off c) ++ path) + kAlign) / kAlign * kAlign).
  assert (Hraw : length (resize (cbytes c) (path_off c) ++ path) = path_off c + length path) by (by rewrite length_app, resize_length).
  assert (Hn : path_off c + length path < n ≤ path_off c + length path + kAlign).
  { pose proof (align_bounds (path_off c + length path)). unfold n. by rewrite Hraw. }
  set (bytes := resize (resize (cbytes c) (path_off c) ++ path) n).
  assert (Hblen : length bytes = n) by apply resize_length.
  assert (Hbytes : bytes = take (path_off c) (cbytes c) ++ path ++ replicate (n - (path_off c + length path)) chr_nul).
  { unfold bytes. rewrite resize_grow, Hraw by lia. unfold resize at 1.
    replace (path_off c - length (cbytes c)) with 0 by lia. cbn [replicate]. by rewrite app_nil_r, <-app_assoc. }
  assert (Hw : ∀ v, Write bytes 4 (le_bytes 4 v) = replace bytes 4 4 (le_bytes 4 v)).
  { intros v. rewrite Write_in; [by rewrite le_bytes_length|]. rewrite le_bytes_length, Hblen. lia. }
  rewrite Hblen, Hw. set (v := (N.of_nat n mod 2 ^ 32)%N). set (out := replace bytes 4 4 (le_bytes 4 v)).
  assert (Hlen : length out = n) by (unfold out; rewrite replace_length; [done|lia|apply le_bytes_length]).
  assert (Hout : ∀ i, outside 4 4 i → out !! i = bytes !! i).
  { intros i Hi. apply replace_outside; [lia|apply le_bytes_length|done]. }
  assert (Hlow : ∀ i, i < path_off c → bytes !! i = cbytes c !! i).
  { intros i Hi. rewrite Hbytes, lookup_app_l by (rewrite length_take; lia). by apply lookup_take_lt. }
  assert (Hfield : ∀ pos, pos + 4 ≤ 4 ∨ 8 ≤ pos → pos + 4 ≤ path_off c → field_at out pos 4 = field_at (cbytes c) pos 4).
  { intros pos Hpos Hle. unfold field_at. f_equal. apply substr_ext. intros i Hi. rewrite Hout by (unfold outside; lia).
    apply Hlow. lia. }
  assert (H2n : (N.of_nat n < 2 ^ 32)%N) by lia.
  split_and!.
  - unfold command_ok. cbn [cmd cbytes path_off]. rewrite Hlen. split_and!; [lia|done| | | |congruence].
    + rewrite Hfield by lia. done.
    + unfold field_at, out. rewrite replace_substr by (lia || apply le_bytes_length).
      unfold v. rewrite N.mod_small by done. apply le_val_bytes. exact H2n.
    + intros _. split; [lia|]. rewrite Hfield by lia. done.
  - unfold Path. cbn [cbytes path_off]. destruct (Nat.eqb_spec (path_off c) 0); [lia|].
    assert (Hdrop : drop (path_off c) out = path ++ replicate (n - (path_off c + length path)) chr_nul).
    { transitivity (drop (path_off c) bytes).
      - apply list_eq. intros i. rewrite !lookup_drop. apply Hout. unfold outside. lia.
      - rewrite Hbytes, drop_app_ge by (rewrite length_take; lia). rewrite length_take, Nat.min_l by lia.
        by rewrite Nat.sub_diag. }
    rewrite Hdrop. destruct (n - (path_off c + length path)) as [|k] eqn:Ek; [lia|]. cbn [replicate].
    rewrite find_chr_app by done. by rewrite take_app_length.
  - done.
  - cbn [cbytes]. rewrite Hlen. unfold n. apply Nat.Div0.mod_mul.
Qed.

(** what a command has become: itself, or itself with a new path of the log *)
Definition respelt (log : list str) (c c' : Command) : Prop :=
  c' = c ∨ ∃ text, text ∈ log ∧ c' = SetPath text c ∧ Path c' = text ∧ cmd c' = cmd c.

Lemma respelt_mono log log' c c' : (∀ t, t ∈ log → t ∈ log') → respelt log c c' → respelt log' c c'.
Proof. intros Hs [->|(t & Ht & H)]; [by left|]. right. exists t. by split; [apply Hs|]. Qed.

(** a new spelling the format can carry *)
Definition spelling_ok (text : str) : Prop := chr_nul ∉ text ∧ (N.of_nat (length text) ≤ 2 ^ 30)%N.

Lemma spell_loop_ok exists_ st self cs ctx log cs' ctx' log' :
  Forall (λ c, command_ok c ∧ (N.of_nat (length (cbytes c)) < 2 ^ 31)%N) cs →
  spell_loop exists_ st self cs ctx log = (cs', ctx', log') →
  (∃ more, log' = log ++ more) ∧
  (Forall spelling_ok log' → Forall command_ok cs' ∧ Forall2 (respelt log') cs cs').
Proof.
  intros Hcs. revert ctx log cs' ctx' log'. induction Hcs as [|c cs [Hc Hc31] _ IH]; intros ctx log cs' ctx' log' E.
  { injection E as <- <- <-. split; [exists []; by rewrite app_nil_r|]. by split. }
  cbn [spell_loop] in E.
  set (step := if (path_off c =? 0)%nat then (c, ctx, log) else _) in E.
  assert (Hstep : ∃ more, step.2 = log ++ more ∧
    (Forall spelling_ok (log ++ more) → command_ok step.1.1 ∧ respelt (log ++ more) c step.1.1)).
  { assert (Hsame : ∃ more, log = log ++ more ∧
      (Forall spelling_ok (log ++ more) → command_ok c ∧ respelt (log ++ more) c c)).
    { exists []. rewrite app_nil_r. split; [done|]. intros _. split; [done|by left]. }
    unfold step. destruct (Nat.eqb_spec (path_off c) 0) as [|Hpo]; [exact Hsame|].
    destruct (NewSpelling exists_ st ctx self c) as [[text|] ctx1]; [|exact Hsame].
    destruct (text == Path c); [exact Hsame|]. exists [text]. split; [done|]. intros Hlog.
    apply Forall_app in Hlog as [_ Hlog]. apply Forall_cons in Hlog as [[Hnul Htl] _].
    assert (Hpc : IsPathCommand (cmd c) = true).
    { destruct (IsPathCommand (cmd c)) eqn:Ep; [done|]. destruct Hc as (_ & _ & _ & _ & _ & Hnp). by destruct Hpo; apply Hnp. }
    pose proof Hc as (_ & _ & _ & _ & Hp & _). destruct (Hp Hpc) as [Hpl _].
    destruct (SetPath_ok text c) as (Hok & Hpath & Hcmd & _); [done|done|done| |].
    { unfold kAlign. lia. }
    split; [done|]. right. exists text. split_and!; try done. apply elem_of_app. right. by left. }
  destruct step as [[c1 ctx1] log1]. cbn [fst snd] in Hstep. destruct Hstep as (more & -> & Hc1).
  destruct (spell_loop exists_ st self cs ctx1 (log ++ more)) as [[cs2 ctx2] log2] eqn:E2. injection E as <- <- <-.
  destruct (IH _ _ _ _ _ E2) as [[more2 ->] H2]. split; [exists (more ++ more2); by rewrite app_assoc|].
  intros Hlog. destruct (H2 Hlog) as [H3 H4]. pose proof Hlog as Hlog1. apply Forall_app in Hlog1 as [Hlog1 _].
  destruct (Hc1 Hlog1) as [H5 H6]. split; [by constructor|]. constructor; [|done].
  eapply respelt_mono; [|exact H6]. intros t Ht. apply elem_of_app. by left.
Qed.

(** *** the commands in their place *)

Lemma sect_loop_shrinks img offset sect n r : (sect_loop img offset sect n r ≤ r)%N.
Proof.
  revert sect r. induction n as [|n IH]; intros sect r; cbn [sect_loop]; [lia|].
  etrans; [apply IH|]. destruct (_ =? 0)%N; lia.
Qed.

Lemma segment_room_shrinks img offset r : (segment_room img offset r ≤ r)%N.
Proof.
  unfold segment_room. destruct (_ =? 0)%N; [lia|]. destruct (_ =? 0)%N; [apply sect_loop_shrinks|lia].
Qed.

Lemma load_loop_shrinks img n offset out : (room (load_loop img n offset out) ≤ room out)%N.
Proof.
  revert offset out. induction n as [|n IH]; intros offset out; cbn [load_loop]; [lia|].
  destruct (Read _ _ _) as [load|]; [|lia]. destruct (_ || _); [lia|]. etrans; [apply IH|]. cbn [room].
  destruct (_ =? _)%N; [apply segment_room_shrinks|lia].
Qed.

Lemma Read_Some img off n raw : Read img off n = Some raw → N.to_nat off + n ≤ length img ∧ raw = substr img (N.to_nat off) n.
Proof.
  unfold Read. destruct (out_of_range _ _ _) eqn:E; [done|]. apply out_of_range_false in E. intros [= <-]. split; [lia|done].
Qed.

Lemma room_in_file img header :
  Read img 0 sizeof_MachHeader64 = Some header → (N.of_nat (length img) < 2 ^ 64)%N →
  32 + N.to_nat (room (ReadLoadCommands img header)) ≤ length img.
Proof.
  intros [Hl _]%Read_Some H64. unfold sizeof_MachHeader64 in Hl.
  pose proof (load_loop_shrinks img (N.to_nat (h_ncmds header)) (N.of_nat sizeof_MachHeader64)
    (Load_commands [] (sub64 (img_size img) (N.of_nat sizeof_MachHeader64)))) as Hr. fold (ReadLoadCommands img header) in Hr.
  cbn [room] in Hr. unfold sub64, img_size, sizeof_MachHeader64 in Hr.
  replace (N.of_nat (length img) + 2 ^ 64 - N.of_nat 32)%N with (N.of_nat (length img) - 32 + 1 * 2 ^ 64)%N in Hr by lia.
  rewrite N.Div0.mod_add, N.mod_small in Hr by lia. lia.
Qed.

(** what [write_commands] leaves: the size in the header, the commands behind it, the rest as it was *)
Lemma write_commands_frame img cs r :
  32 + N.to_nat r ≤ length img → (N.of_nat (length (concat (map cbytes cs))) ≤ r)%N →
  let img' := write_commands img cs r in
  length img' = length img ∧
  (∀ i, outside 20 4 i → outside 32 (N.to_nat r) i → img' !! i = img !! i) ∧
  field_at img' 20 4 = (N.of_nat (length (concat (map cbytes cs))) mod 2 ^ 32)%N ∧
  substr img' 32 (length (concat (map cbytes cs))) = concat (map cbytes cs).
Proof.
  intros Hin Hfit. cbv zeta. unfold write_commands. set (cmds := concat (map cbytes cs)) in *.
  set (size := (N.of_nat (length cmds) mod 2 ^ 32)%N). set (img1 := Write img offsetof_sizeofcmds (le_bytes 4 size)).
  assert (H1 : img1 = replace img 20 4 (le_bytes 4 size)).
  { unfold img1. rewrite Write_in; rewrite le_bytes_length; [done|]. unfold offsetof_sizeofcmds. lia. }
  assert (Hlen1 : length img1 = length img) by apply Write_length.
  rewrite Write_in by (rewrite resize_length, Hlen1; unfold sizeof_MachHeader64; lia). rewrite resize_length.
  replace (N.to_nat (N.of_nat sizeof_MachHeader64)) with 32 by (unfold sizeof_MachHeader64; lia).
  set (img2 := replace img1 32 _ _).
  assert (Hlen2 : length img2 = length img1) by (apply replace_length; [lia|apply resize_length]).
  assert (Hout2 : ∀ i, outside 32 (N.to_nat r) i → img2 !! i = img1 !! i).
  { intros i Hi. apply replace_outside; [lia|apply resize_length|done]. }
  split_and!; [lia| | |].
  - intros i Hi1 Hi2. rewrite Hout2 by done. rewrite H1. apply replace_outside; [lia|apply le_bytes_length|done].
  - unfold field_at. rewrite (substr_ext img2 img1) by (intros i Hi; apply Hout2; unfold outside; lia).
    rewrite H1, replace_substr by (lia || apply le_bytes_length). apply le_val_bytes.
    unfold size. apply N.mod_lt. lia.
  - assert (Hall : substr img2 32 (N.to_nat r) = resize cmds (N.to_nat r)) by (apply replace_substr; [lia|apply resize_length]).
    transitivity (substr (substr img2 32 (N.to_nat r)) 0 (length cmds)); [by rewrite substr_substr by lia|].
    rewrite Hall, resize_grow by lia. unfold substr. by rewrite drop_0, take_app_length.
Qed.

(** a file whose load commands are all well formed *)
Definition commands_well_formed (img : image) (header : str) : Prop :=
  let table := ReadLoadCommands img header in
  length (commands table) = N.to_nat (h_ncmds header) ∧
  Forall (λ c, command_ok c ∧ (N.of_nat (length (cbytes c)) < 2 ^ 31)%N) (commands table).

(** C18. Respelling keeps the file a Mach-O image: when the new load commands fit the room in front of the
    first section, reading the rewritten file gives the same number of commands in the same order, each
    of them the old one or the old one with exactly the new path; [sizeofcmds] is their total size, and
    no byte outside that field and the room has changed. *)
Theorem respelt_commands_read_back exists_ st ctx self img header cs ctx' log :
  Read img 0 sizeof_MachHeader64 = Some header → (N.of_nat (length img) < 2 ^ 64)%N →
  commands_well_formed img header →
  spell_loop exists_ st self (commands (ReadLoadCommands img header)) ctx [] = (cs, ctx', log) →
  Forall spelling_ok log →
  (N.of_nat (length (concat (map cbytes cs))) ≤ room (ReadLoadCommands img header))%N →
  let img' := write_commands img cs (room (ReadLoadCommands img header)) in
  ∃ header', Read img' 0 sizeof_MachHeader64 = Some header' ∧
    commands (ReadLoadCommands img' header') = cs ∧
    Forall2 (respelt log) (commands (ReadLoadCommands img header)) cs ∧
    field_at img' 20 4 = (N.of_nat (length (concat (map cbytes cs))) mod 2 ^ 32)%N ∧
    length img' = length img ∧
    ∀ i, outside 20 4 i → outside 32 (N.to_nat (room (ReadLoadCommands img header))) i → img' !! i = img !! i.
Proof.
  intros Hh H64 [Hn Hwf] Hspell Hlog Hfit. cbv zeta.
  apply spell_loop_ok in Hspell as [_ Hspell]; [|done]. destruct (Hspell Hlog) as [Hcs H2].
  pose proof (room_in_file img header Hh H64) as Hroom.
  destruct (write_commands_frame img cs _ Hroom Hfit) as (Hlen & Hout & Hsize & Hcmds).
  set (img' := write_commands img cs _) in *. apply Read_Some in Hh as [H32 ->]. unfold sizeof_MachHeader64 in *.
  change (N.to_nat 0) with 0 in *.
  exists (substr img' 0 32). split_and!; try done.
  - unfold Read. by rewrite (proj2 (out_of_range_false img' 0 32)) by lia.
  - unfold ReadLoadCommands.
    assert (Hnc : h_ncmds (substr img' 0 32) = h_ncmds (substr img 0 32)).
    { unfold h_ncmds, field_at. rewrite !substr_substr by lia. f_equal. apply substr_ext.
      intros i Hi. apply Hout; unfold outside; lia. }
    rewrite Hnc.  rewrite <-Hn. rewrite (Forall2_length _ _ _ H2).
    rewrite load_loop_reads; [done|done| |by rewrite Hlen|].
    + unfold sizeof_MachHeader64. lia.
    + exact Hcmds.
Qed.

(** a program in [bin] that loads a library of the package's own [lib] by [@rpath] *)
Definition sample_load : str :=
  le_bytes 4 kLoadDylib ++ le_bytes 4 40 ++ le_bytes 4 24 ++ replicate 12 chr_nul ++ lit "@rpath/a.dylib" ++ replicate 2 chr_nul.
Definition sample_header : str :=
  le_bytes 4 kMagic64 ++ replicate 12 chr_nul ++ le_bytes 4 1 ++ le_bytes 4 40 ++ replicate 8 chr_nul.
Definition sample_program : image := sample_header ++ sample_load ++ replicate 64 chr_nul.
Definition sample_fixup : context :=
  Context_ "/build/out" "/nix/store/00000000000000000000000000000000-a" [lit "/build/out/lib"] [] [] 0.
Definition sample_self : str := lit "/nix/store/00000000000000000000000000000000-a/bin/a".
Definition sample_commands : list Command := [Command_ kLoadDylib sample_load 24].
Definition respelt_path : str := lit "@loader_path/../lib/a.dylib".
Definition respelt_commands : list Command := [SetPath respelt_path (Command_ kLoadDylib sample_load 24)].

Lemma sample_program_commands : ReadLoadCommands sample_program sample_header = Load_commands sample_commands 104.
Proof. vm_compute. reflexivity. Qed.

Lemma sample_program_spelt :
  spell_loop (λ _, true) (sample_store sample_hash_a) sample_self sample_commands sample_fixup [] =
  (respelt_commands, sample_fixup, [respelt_path]).
Proof. vm_compute. reflexivity. Qed.

Lemma sample_commands_ok : Forall (λ c, command_ok c ∧ (N.of_nat (length (cbytes c)) < 2 ^ 31)%N) sample_commands.
Proof.
  constructor; [|constructor]. split; [|vm_compute; reflexivity]. unfold command_ok. cbn [cmd cbytes path_off].
  change (length sample_load) with 40. split_and!; [lia|vm_compute; reflexivity..|intros _; split; [lia|vm_compute; reflexivity]|].
  intros H. vm_compute in H. discriminate H.
Qed.

Lemma respelt_commands_read_back_witness :
  ∃ header', Read (write_commands sample_program respelt_commands 104) 0 sizeof_MachHeader64 = Some header' ∧
    commands (ReadLoadCommands (write_commands sample_program respelt_commands 104) header') = respelt_commands.
Proof.
  assert (Hh : Read sample_program 0 sizeof_MachHeader64 = Some sample_header) by (vm_compute; reflexivity).
  pose proof (respelt_commands_read_back (λ _, true) (sample_store sample_hash_a) sample_fixup sample_self
    sample_program sample_header respelt_commands sample_fixup [respelt_path] Hh) as H.
  unfold commands_well_formed in H. rewrite sample_program_commands in H. cbn [room commands] in H. rewrite sample_program_spelt in H.
  destruct H as (header' & H1 & H2 & _); [vm_compute; reflexivity| |done| | |by exists header'].
  - split; [vm_compute; reflexivity|apply sample_commands_ok].
  - constructor; [|constructor]. split; [vm_compute; not_in|vm_compute; discriminate].
  - vm_compute; discriminate.
Defined.
