(* ===== verification/FixupMode.v ===== *)
(** * fixup_mode.cc: reloc-fixup over a whole tree

    The command line, the walk, one file after the other through [FixElf] and [FixMachO], and writing
    back with the permissions kept. The directory walk, [fs::exists], [fs::weakly_canonical] and the
    faults of the kernel are parameters; a file has its bytes and its mode. *)

From S2P Require Import Prelude Paths Base Store NixHash Image ElfFixup MachoFixup.

Definition S_IWUSR : N := 128.

Record disk := Disk { d_files : gmap str str; d_modes : gmap str N }.

(** [chmod], nothing when there is no such file *)
Definition chmod (path : str) (mode : N) (d : disk) : disk :=
  match d_modes d !! path with
  | Some _ => Disk (d_files d) (<[path := mode]> (d_modes d))
  | None => d
  end.

(** [path::extension] *)
Definition extension (p : str) : str :=
  let name := filename p in
  if (name == lit ".") || (name == lit "..") then []
  else
    match rfind "." name with
    | None | Some 0 => []
    | Some pos => drop pos name
    end.

(** [fs::path]'s order: element by element *)
Definition str_lt (a b : str) : bool := negb (str_leb b a).
Fixpoint elements_lt (a b : list str) : bool :=
  match a, b with
  | _, [] => false
  | [], _ => true
  | x :: a, y :: b => str_lt x y || ((x == y) && elements_lt a b)
  end.
Definition path_lt (a b : str) : bool := elements_lt (elements a) (elements b).

(** [std::set<fs::path>::insert] *)
Fixpoint set_insert (p : str) (s : list str) : list str :=
  match s with
  | [] => [p]
  | q :: s' => if path_lt p q then p :: s else if path_lt q p then q :: set_insert p s' else s
  end.

Record dir_entry := Dir_entry { en_path : str; en_symlink : bool; en_regular : bool }.

Definition keep_entry (e : dir_entry) : bool := negb (en_symlink e || negb (en_regular e)).
Definition has_library (path : str) : bool :=
  (contains (filename path) ".so" || ends_with (filename path) ".dylib") && negb (contains (parent_path path) "/debug").

(** the regular files and the directories that hold shared objects *)
Definition walk (listing : list dir_entry) : list str * list str :=
  let files := map en_path (List.filter keep_entry listing) in
  (files, foldl (λ s p, if has_library p then set_insert (parent_path p) s else s) [] files).

(** the options in pairs; a last one without its value is not looked at. [None]: unknown argument *)
Fixpoint parse_args (args : list str) (ctx : context) : option context :=
  match args with
  | option_ :: value :: args =>
      if option_ == lit "--dest" then
        parse_args args (Context_ (prefix ctx) (lexically_normal value) (own_lib_dirs ctx) (denied ctx) (sdk ctx) (errors ctx))
      else if option_ == lit "--sdk" then
        parse_args args (Context_ (prefix ctx) (dest ctx) (own_lib_dirs ctx) (denied ctx) value (errors ctx))
      else if option_ == lit "--deny" then
        parse_args args (Context_ (prefix ctx) (dest ctx) (own_lib_dirs ctx)
          (denied ctx ++ [take kStoreHashLength (filename value)]) (sdk ctx) (errors ctx))
      else None
  | _ => Some ctx
  end.

Record run := Run_ { r_ctx : context; r_disk : disk; r_out : list str }.
Definition r_bump (r : run) : run := Run_ (bump (r_ctx r)) (r_disk r) (r_out r).

Section Fixup.
(** the process id, the mode of a new file, which write fails how, which file can be read, what exists,
    and [fs::weakly_canonical] *)
Context (pid : nat) (created : N) (faults : str → write_faults) (readable exists_ : str → bool) (canonical : str → str).
Context (st : store).

Definition fs_relative (path base : str) : str := lexically_relative (canonical path) (canonical base).

(** the modes when [WriteFile] is done: the new file has [created], also a temporary left behind *)
Definition written_modes (path : str) (ok : bool) (modes : gmap str N) : gmap str N :=
  let tmp := tmp_path pid path in
  if ok then <[path := created]> (delete tmp modes)
  else
    let f := faults path in
    if negb (open_fails f) && bool_decide (short_write f = None) then <[tmp := created]> modes else delete tmp modes.

Definition WriteBack (path bytes : str) (d : disk) : bool * disk :=
  let mode := d_modes d !! path in
  let d := match mode with Some m => chmod path (N.lor m S_IWUSR) d | None => d end in
  let ok := (WriteFile pid path bytes (faults path) (d_files d)).2 in
  let d := Disk (written pid path bytes (faults path) (d_files d)) (written_modes path ok (d_modes d)) in
  (ok, match mode with Some m => chmod path m d | None => d end).

(** what is done with the bytes [FixElf] or [FixMachO] leaves: [None] writes nothing *)
Definition write_out (path : str) (ctx : context) (write : option (image * list str)) (r : run) : bool * run :=
  match write with
  | None => (true, Run_ ctx (r_disk r) (r_out r))
  | Some (img, log) =>
      let '(ok, d) := WriteBack path img (r_disk r) in
      if (ok : bool) then (true, Run_ ctx d (r_out r ++ [Join log "  "])) else (false, Run_ (bump ctx) d (r_out r))
  end.

(** [FixMachO(ctx, path, image)] *)
Definition fix_macho (path shown : str) (img : image) (r : run) : option run :=
  match FixMachO exists_ st (r_ctx r) path shown img with
  | NotMachO => Some r
  | Done_ ctx write => Some (write_out path ctx write r).2
  | Macho_raises => None
  end.

(** [FixElf(ctx, path, image) || FixMachO(ctx, path, image)]; the second sees the bytes the first left *)
Definition fix_image (path shown : str) (img : image) (r : run) : option run :=
  match FixElf exists_ st (r_ctx r) path shown img with
  | NotElf => fix_macho path shown img r
  | Handled ctx write =>
      let '(ok, r) := write_out path ctx write r in
      if (ok : bool) then Some r
      else fix_macho path shown (match write with Some (img', _) => img' | None => img end) r
  | Throws => None
  end.

Definition FixOne (path : str) (r : run) : option run :=
  if extension path == lit ".debug" then Some r
  else if negb (readable path) then Some r
  else
    match d_files (r_disk r) !! path with
    | None => Some r
    | Some data =>
        let rel := fs_relative path (prefix (r_ctx r)) in
        let ctx := if (rel != lit "etc/jig.json") && (rel != lit "etc/roots") then CheckDenied (r_ctx r) data else r_ctx r in
        fix_image path rel data (Run_ ctx (r_disk r) (r_out r))
    end.

Fixpoint fix_loop (files : list str) (r : run) : option run :=
  match files with
  | [] => Some r
  | file :: files => match FixOne file r with None => None | Some r => fix_loop files r end
  end.

(** [None]: an exception ends the program *)
Definition RunFixupMode (args : list str) (listing : str → list dir_entry) (d : disk) : option (N * run) :=
  match args with
  | [] => Some (2%N, Run_ (Context_ [] [] [] [] [] 0) d [])
  | front :: rest =>
      let prefix_ := lexically_normal front in
      match parse_args rest (Context_ prefix_ prefix_ [] [] [] 0) with
      | None => Some (2%N, Run_ (Context_ prefix_ prefix_ [] [] [] 0) d [])
      | Some ctx =>
          if negb (IsStorePath st (dest ctx)) then Some (2%N, Run_ ctx d [])
          else
            let '(files, lib_dirs) := walk (listing (prefix ctx)) in
            match fix_loop files (Run_ (Context_ (prefix ctx) (dest ctx) lib_dirs (denied ctx) (sdk ctx) (errors ctx)) d []) with
            | None => None
            | Some r => Some ((if (errors (r_ctx r) =? 0)%nat then 0 else 1)%N, r)
            end
      end
  end.

(** ** Properties *)

(** what one file may become *)
Inductive fixed (path : str) : image → image → Prop :=
| Fixed_elf ctx shown img ctx' img' log :
    FixElf exists_ st ctx path shown img = Handled ctx' (Some (img', log)) → fixed path img img'
| Fixed_macho ctx shown img ctx' img' log :
    FixMachO exists_ st ctx path shown img = Done_ ctx' (Some (img', log)) → fixed path img img'.

(** [d'] is [d] but for the bytes of [path] (and its temporary) *)
Definition same_but (path : str) (d d' : disk) : Prop :=
  d_modes d' !! path = d_modes d !! path ∧
  ∀ q, q ≠ path → q ≠ tmp_path pid path → d_files d' !! q = d_files d !! q ∧ d_modes d' !! q = d_modes d !! q.

Lemma same_but_refl path d : same_but path d d.
Proof. by split. Qed.
Lemma same_but_trans path d1 d2 d3 : same_but path d1 d2 → same_but path d2 d3 → same_but path d1 d3.
Proof.
  intros [H1 H2] [H3 H4]. split; [congruence|]. intros q Hq Ht. destruct (H2 q Hq Ht), (H4 q Hq Ht). split; congruence.
Qed.

Lemma WriteBack_spec path bytes d :
  is_Some (d_modes d !! path) →
  let '(ok, d') := WriteBack path bytes d in
  same_but path d d' ∧ d_files d' !! path = if ok then Some bytes else d_files d !! path.
Proof.
  intros [m Hm]. unfold WriteBack. rewrite Hm.
  assert (Hc : chmod path (N.lor m S_IWUSR) d = Disk (d_files d) (<[path := N.lor m S_IWUSR]> (d_modes d)))
    by (unfold chmod; by rewrite Hm).
  rewrite Hc. cbn [d_files d_modes].
  destruct (WriteFile pid path bytes (faults path) (d_files d)) as [trace ok] eqn:E. cbn [snd].
  pose proof (tmp_path_ne pid path) as Hne. unfold written. rewrite E. cbn [fst].
  apply WriteFile_spec in E as (_ & (s & Hlast & Hs) & Hother). rewrite Hlast. cbn [default from_option].
  apply last_Some_elem_of in Hlast.
  assert (Hmode : ∀ q, q ≠ tmp_path pid path →
    written_modes path ok (<[path := N.lor m S_IWUSR]> (d_modes d)) !! q =
    if bool_decide (q = path) then Some (if ok then created else N.lor m S_IWUSR) else d_modes d !! q).
  { intros q Hq. unfold written_modes. destruct ok; [|destruct (_ && _)];
      rewrite ?lookup_insert, ?lookup_delete_ne, ?lookup_insert by done; repeat case_decide; case_bool_decide; try done; congruence. }
  unfold chmod. cbn [d_modes]. rewrite Hmode, bool_decide_eq_true_2 by done. unfold same_but. cbn [d_files d_modes].
  split_and!; [by rewrite lookup_insert_eq| |done]. intros q Hq Ht. split; [by apply Hother|].
  rewrite lookup_insert_ne, Hmode, bool_decide_eq_false_2 by done. done.
Qed.

(** one file: its mode stays, its bytes stay or are fixed, no other file is touched *)
Definition fixed_or_same (path : str) (d d' : disk) : Prop :=
  same_but path d d' ∧
  (d_files d' !! path = d_files d !! path ∨
   ∃ old new : str, d_files d !! path = Some old ∧ d_files d' !! path = Some new ∧ rtc (fixed path) old new).

Lemma write_out_spec path ctx write r :
  is_Some (d_modes (r_disk r) !! path) →
  let '(ok, r') := write_out path ctx write r in
  same_but path (r_disk r) (r_disk r') ∧
  (d_files (r_disk r') !! path = d_files (r_disk r) !! path ∨
   ∃ (img : str) log, write = Some (img, log) ∧ ok = true ∧ d_files (r_disk r') !! path = Some img).
Proof.
  intros Hm. destruct write as [[img log]|]; cbn [write_out]; [|split; [apply same_but_refl|by left]].
  pose proof (WriteBack_spec path img _ Hm) as H. destruct (WriteBack path img (r_disk r)) as [[] d]; destruct H as [H1 H2].
  - split; [done|]. right. by exists img, log.
  - split; [done|by left].
Qed.

Lemma fix_macho_spec path shown img old r r' :
  is_Some (d_modes (r_disk r) !! path) → d_files (r_disk r) !! path = Some old → rtc (fixed path) old img →
  fix_macho path shown img r = Some r' → fixed_or_same path (r_disk r) (r_disk r').
Proof.
  intros Hm Hold Himg. unfold fix_macho. destruct (FixMachO _ _ _ _ _ _) as [|ctx write|] eqn:E; [|intros [= <-]|done].
  { intros [= <-]. split; [apply same_but_refl|by left]. }
  pose proof (write_out_spec path ctx write r Hm) as H. destruct (write_out path ctx write r) as [ok r'].
  destruct H as [H1 [H2|(new & log & -> & _ & H2)]]; (split; [done|]); [by left|]. right. exists old, new. split_and!; [done..|].
  eapply rtc_r; [exact Himg|]. by eapply Fixed_macho.
Qed.

Lemma fix_image_spec path shown img r r' :
  is_Some (d_modes (r_disk r) !! path) → d_files (r_disk r) !! path = Some img →
  fix_image path shown img r = Some r' → fixed_or_same path (r_disk r) (r_disk r').
Proof.
  intros Hm Himg. unfold fix_image. destruct (FixElf _ _ _ _ _ _) as [|ctx write|] eqn:E; [|intros Hrun|done].
  { by apply fix_macho_spec with img. }
  pose proof (write_out_spec path ctx write r Hm) as H. destruct (write_out path ctx write r) as [ok r1].
  destruct H as [H1 H2]. destruct ok; [injection Hrun as <-; split; [done|]|].
  - destruct H2 as [H2|(new & log & -> & _ & H2)]; [by left|]. right. exists img, new. split_and!; [done..|].
    apply rtc_once. by eapply Fixed_elf.
  - assert (H3 : d_files (r_disk r1) !! path = d_files (r_disk r) !! path) by (destruct H2 as [?|(?&?&?&?&?)]; done).
    apply (fix_macho_spec _ _ _ img) in Hrun as [H4 H5].
    + split; [by eapply same_but_trans|]. rewrite <-H3. exact H5.
    + by rewrite (proj1 H1).
    + etrans; [exact H3|exact Himg].
    + destruct write as [[img' log]|]; [|done]. apply rtc_once. by eapply Fixed_elf.
Qed.

Lemma FixOne_spec path r r' :
  is_Some (d_modes (r_disk r) !! path) → FixOne path r = Some r' →
  fixed_or_same path (r_disk r) (r_disk r') ∧ (extension path = lit ".debug" → r' = r).
Proof.
  intros Hm. unfold FixOne. assert (Hsame : ∀ P, Some r = Some r' → fixed_or_same path (r_disk r) (r_disk r') ∧ (P → r' = r)).
  { intros P [= <-]. split; [|done]. split; [apply same_but_refl|by left]. }
  case_bool_decide as Hd; [apply Hsame|]. destruct (readable path); cbn [negb]; [|apply Hsame].
  destruct (d_files (r_disk r) !! path) as [data|] eqn:E; [|apply Hsame].
  intros H. split; [|done]. by apply fix_image_spec in H.
Qed.

(** the files of a walk: no one is the temporary of another *)
Definition no_clash (files : list str) : Prop := ∀ f g, f ∈ files → g ∈ files → tmp_path pid f ≠ g.

Lemma fix_loop_spec files r r' :
  NoDup files → no_clash files → (∀ f, f ∈ files → is_Some (d_modes (r_disk r) !! f)) →
  fix_loop files r = Some r' →
  (∀ q, q ∉ files → q ∉ map (tmp_path pid) files →
     d_files (r_disk r') !! q = d_files (r_disk r) !! q ∧ d_modes (r_disk r') !! q = d_modes (r_disk r) !! q) ∧
  (∀ f, f ∈ files →
     d_modes (r_disk r') !! f = d_modes (r_disk r) !! f ∧
     (d_files (r_disk r') !! f = d_files (r_disk r) !! f ∨
      ∃ old new : str, d_files (r_disk r) !! f = Some old ∧ d_files (r_disk r') !! f = Some new ∧
        extension f ≠ lit ".debug" ∧ rtc (fixed f) old new)).
Proof.
  intros Hnd. revert r. induction Hnd as [|f files Hf _ IH]; intros r Hcl Hm E; cbn [fix_loop] in E.
  { injection E as <-. split; [done|]. intros f Hf. by apply elem_of_nil in Hf. }
  destruct (FixOne f r) as [r1|] eqn:E1; [|done].
  destruct (FixOne_spec f r r1) as [[[Hmode Hother] Hfile] Hdebug]; [apply Hm; by left|done|].
  assert (Hkeep : ∀ g, g ∈ files → d_files (r_disk r1) !! g = d_files (r_disk r) !! g ∧ d_modes (r_disk r1) !! g = d_modes (r_disk r) !! g).
  { intros g Hg. apply Hother; [by intros ->|]. intros ->. apply (Hcl f (tmp_path pid f)); [by left|by right|done]. }
  destruct (IH r1) as [H1 H2]; [|intros g Hg; rewrite (proj2 (Hkeep g Hg)); apply Hm; by right|done|].
  { intros a b Ha Hb. apply Hcl; by right. }
  split.
  - intros q Hq Ht. cbn [map] in Ht. apply not_elem_of_cons in Hq as [Hq1 Hq2]. apply not_elem_of_cons in Ht as [Ht1 Ht2].
    destruct (H1 q Hq2 Ht2) as [-> ->]. by apply Hother.
  - intros g [->|Hg]%elem_of_cons.
    + destruct (H1 f Hf) as [-> ->]; [|split; [done|]].
      * intros (a & Ha & Hin)%list_elem_of_fmap. apply (Hcl a f); [by right|by left|done].
      * destruct Hfile as [?|(old & new & Ho & Hn & Hx)]; [by left|].
        destruct (decide (extension f = lit ".debug")) as [Hd|Hd]; [left; by rewrite (Hdebug Hd)|].
        right. by exists old, new.
    + destruct (Hkeep g Hg) as [<- <-]. by apply H2.
Qed.

Lemma parse_args_keeps args ctx ctx' :
  parse_args args ctx = Some ctx' → prefix ctx' = prefix ctx ∧ errors ctx' = errors ctx.
Proof.
  revert ctx. induction args as [args IH] using (induction_ltof1 _ length). unfold ltof in IH. intros ctx.
  destruct args as [|o [|v args]]; cbn [parse_args]; [by intros [= <-]..|].
  repeat case_bool_decide; try done; intros Hp; (apply IH in Hp; [done|cbn [length]; lia]).
Qed.

(** the regular files below the prefix of the command line *)
Definition tree_files (args : list str) (listing : str → list dir_entry) : list str :=
  (walk (listing (lexically_normal (default [] (head args))))).1.

(** C19. reloc-fixup touches what it is asked to and keeps permissions: outside the regular files of the
    tree (and their temporaries) nothing changes; every file of the tree ends with the mode it had, and
    with its old bytes or with what [FixElf] and [FixMachO] make of them, whichever writes fail; files
    of detached debug information stay as they are. Exit status 1 means that errors were counted,
    and status 2, for a wrong command line, that nothing was written. *)
Theorem RunFixupMode_frame args listing d code r :
  RunFixupMode args listing d = Some (code, r) →
  NoDup (tree_files args listing) → no_clash (tree_files args listing) →
  (∀ f, f ∈ tree_files args listing → is_Some (d_modes d !! f)) →
  (code = 1%N ↔ errors (r_ctx r) ≠ 0) ∧ (code = 2%N → r_disk r = d) ∧
  (∀ q, q ∉ tree_files args listing → q ∉ map (tmp_path pid) (tree_files args listing) →
     d_files (r_disk r) !! q = d_files d !! q ∧ d_modes (r_disk r) !! q = d_modes d !! q) ∧
  (∀ f, f ∈ tree_files args listing →
     d_modes (r_disk r) !! f = d_modes d !! f ∧
     (d_files (r_disk r) !! f = d_files d !! f ∨
      ∃ old new : str, d_files d !! f = Some old ∧ d_files (r_disk r) !! f = Some new ∧
        extension f ≠ lit ".debug" ∧ rtc (fixed f) old new)).
Proof.
  intros E Hnd Hcl Hm. unfold RunFixupMode in E. destruct args as [|front rest]; [injection E as <- <-; split_and!; naive_solver|].
  unfold tree_files in *. cbn [head default] in *. change (default [] (Some front)) with front in *.
  destruct (parse_args rest _) as [ctx|] eqn:Ep; [|injection E as <- <-; split_and!; naive_solver].
  apply parse_args_keeps in Ep as [Hp He]. cbn [prefix errors] in Hp, He. rewrite Hp in E.
  destruct (negb _); [injection E as <- <-; split_and!; cbn [r_ctx r_disk]; rewrite ?He; naive_solver|].
  destruct (walk _) as [files lib_dirs]. cbn [fst] in *.
  destruct (fix_loop files _) as [r1|] eqn:El; [|done]. injection E as <- <-.
  apply fix_loop_spec in El as [H1 H2]; [|done..]. split_and!; [| |done|done].
  - destruct (Nat.eqb_spec (errors (r_ctx r1)) 0); naive_solver.
  - by destruct (_ =? _)%nat.
Qed.
End Fixup.

Definition sample_tree : list dir_entry :=
  [Dir_entry "/build/out/bin" false false; Dir_entry "/build/out/bin/a" false true;
   Dir_entry "/build/out/lib/a.dylib" false true; Dir_entry "/build/out/share/doc" true true].
Definition sample_disk : disk :=
  Disk {[ lit "/build/out/bin/a" := sample_program; lit "/build/out/lib/a.dylib" := lit "text" ]}
       {[ lit "/build/out/bin/a" := 365%N; lit "/build/out/lib/a.dylib" := 292%N ]}.
Definition sample_args : list str := [lit "/build/out"; lit "--dest"; dest sample_fixup].
Definition sample_run : option (N * run) :=
  RunFixupMode 7 420 (λ _, WriteFaults false None false) (λ _, true) (λ _, true) id (sample_store sample_hash_a)
    sample_args (λ _, sample_tree) sample_disk.

Lemma RunFixupMode_frame_witness :
  ∃ r, sample_run = Some (0%N, r) ∧
    d_modes (r_disk r) !! lit "/build/out/bin/a" = Some 365%N ∧
    d_files (r_disk r) !! lit "/build/out/bin/a" = Some (write_commands sample_program respelt_commands 104).
Proof.
  destruct sample_run as [[code r]|] eqn:E; [|vm_compute in E; discriminate E].
  destruct (RunFixupMode_frame 7 420 (λ _, WriteFaults false None false) (λ _, true) (λ _, true) id (sample_store sample_hash_a)
    sample_args (λ _, sample_tree) sample_disk code r E) as (_ & _ & _ & H).
  - change (tree_files _ _) with [lit "/build/out/bin/a"; lit "/build/out/lib/a.dylib"]. apply (bool_decide_eq_true_1 _). vm_compute. reflexivity.
  - change (tree_files _ _) with [lit "/build/out/bin/a"; lit "/build/out/lib/a.dylib"]. intros f g Hf Hg.
    rewrite !elem_of_cons in Hf, Hg. destruct Hf as [-> |[-> |[]%elem_of_nil]], Hg as [-> |[-> |[]%elem_of_nil]]; vm_compute; discriminate.
  - change (tree_files _ _) with [lit "/build/out/bin/a"; lit "/build/out/lib/a.dylib"]. intros f Hf.
    rewrite !elem_of_cons in Hf. destruct Hf as [-> |[-> |[]%elem_of_nil]]; vm_compute; eauto.
  - exists r. destruct (H (lit "/build/out/bin/a")) as [Hmode _]; [by left|]. rewrite Hmode.
    vm_compute in E. injection E as <- <-. split_and!; vm_compute; reflexivity.
Defined.
