(* ===== verification/Main.v ===== *)
(** * main.cc: the modes of jig

    Which mode a command line selects, [jig cache] on single blobs and trees, and [jig slot]. Files and
    the child process are parameters. *)

From S2P Require Import Prelude Paths Base Keys Store Manifest CacheClient Jigd Process CacheFlow DirMode DirReplay.

(** ** Which mode *)

Inductive call :=
| Usage (to_stderr : bool)
| NixStoreMode (args : list str)
| CacheMode (args : list str)
| SlotMode (args : list str)
| GoCacheProg
| RustcMode (args : list str)
| FixupMode (args : list str)
| CcMode (mode : str) (args : list str).

Definition select (mode : str) (args : list str) : call :=
  if mode == lit "nix-store" then NixStoreMode args
  else if mode == lit "cache" then CacheMode args
  else if mode == lit "slot" then SlotMode args
  else if mode == lit "gocacheprog" then GoCacheProg
  else if mode == lit "rustcwrap" then RustcMode args
  else if mode == lit "reloc-fixup" then FixupMode args
  else CcMode mode args.

(** [main], with argv *)
Definition main_call (all : list str) : call :=
  let mode := match all with [] => [] | a :: _ => filename a end in
  let args := drop 1 all in
  if mode == lit "jig" then
    match args with
    | [] => Usage true
    | mode :: rest => if (mode == lit "--help") || (mode == lit "-h") then Usage false else select mode rest
    end
  else select mode args.

(** the status of a usage message *)
Definition usage_status (to_stderr : bool) : N := if to_stderr then 2 else 0.

(** ** jig cache, jig slot *)

Section Modes.
Context (blake3 : str → str) (zstd_compress zstd_decompress : str → option str).
Context {S : Type} `{Peer S}.
(** files, modes, which writes succeed, the walk of a directory *)
Context (read : str → option str) (st_mode : str → N) (write_ok : str → bool) (dents_of : str → list dent) (st : store).

Definition RunCacheMode (args : list str) (socket_path : str) (connects : option S) : io (N * list dir_effect) := λ c,
  match args with
  | [op; key; file] =>
      if op == lit "put-dir" then
        PutDir blake3 zstd_compress read st_mode st socket_path connects key file (dents_of file) c
      else if op == lit "get-dir" then GetDir zstd_decompress write_ok st socket_path connects key file c
      else
        let '(connected, c) := Connect socket_path connects c in
        if negb connected then ((2%N, []), c)
        else if op == lit "put" then
          match read file with
          | Some data => let '(_, c) := Put zstd_compress key data c in ((0%N, []), c)
          | None => ((1%N, []), c)
          end
        else
          let '(blob, c) := Get zstd_decompress key c in
          match blob with
          | Some b => if write_ok file then ((0%N, [WroteTo file b]), c) else ((1%N, []), c)
          | None => ((1%N, []), c)
          end
  | _ => ((1%N, []), c)
  end.

(** [child_of]: what becomes of the program when it runs with $JIG_SLOT set or not *)
Definition RunSlotMode (child_of : str → list str → bool → child) (jig_slot : str) (build_top : option str)
    (args : list str) (socket_path : str) (connects : option S) : io N := λ c,
  match args with
  | [] => (2%N, c)
  | program :: rest =>
      let '(slot, c) := Slot_open jig_slot build_top socket_path connects c in
      let held := match slot with Some _ => true | None => jig_slot != [] end in
      let result := Run kInherit true [] (child_of program rest held) in
      let '(_, c) := Slot_close slot c in
      (status result, c)
  end.
End Modes.

(** ** Properties *)

(** A mode may be named by the program's own name or by its first argument: a link called after the
    mode and [jig <mode>] run the same thing on the same arguments. *)
Theorem main_by_name (by_link by_jig mode : str) (args : list str) :
  filename by_link = mode → filename by_jig = lit "jig" →
  mode ∉ [lit "jig"; lit "--help"; lit "-h"] →
  main_call (by_link :: args) = main_call (by_jig :: mode :: args) ∧
  main_call (by_link :: args) = select mode args.
Proof.
  intros Hl Hj Hm. rewrite !not_elem_of_cons in Hm. destruct Hm as (H1 & H2 & H3 & _). unfold main_call. cbn [drop].
  rewrite Hl, Hj. rewrite (bool_decide_eq_false_2 (mode = lit "jig")), (bool_decide_eq_true_2 (lit "jig" = lit "jig")) by done.
  rewrite (bool_decide_eq_false_2 (mode = lit "--help")), (bool_decide_eq_false_2 (mode = lit "-h")) by done. done.
Qed.

Lemma main_by_name_witness :
  main_call [lit "/nix/store/x/bin/rustcwrap"; lit "-V"] = main_call [lit "jig"; lit "rustcwrap"; lit "-V"] ∧
  main_call [lit "/nix/store/x/bin/rustcwrap"; lit "-V"] = select "rustcwrap" [lit "-V"].
Proof.
  apply (main_by_name "/nix/store/x/bin/rustcwrap" "jig" "rustcwrap" [lit "-V"]); [vm_compute; reflexivity..|].
  apply (bool_decide_eq_true_1 (_ ∉ _)). vm_compute. reflexivity.
Defined.

(** *** slots at the daemon *)

Section Slots.
Context {e : env}.

(** SLOT and DONE are answered with OK *)
Lemma slot_request (cmd build : str) (c : client (jigd e)) d' :
  synced c → faultless c → word build → field cmd → length cmd ≤ 4 →
  dispatch (c_peer c) ((cmd ++ lit " ") ++ build) = (d', lit "OK" ++ nl) → jigd_idle d' →
  ∃ c1 c2, ask ((cmd ++ lit " ") ++ build ++ nl) c = (true, c1) ∧ RecvLine c1 = (Some (lit "OK"), c2) ∧
    synced c2 ∧ faultless c2 ∧ c_peer c2 = d'.
Proof.
  intros (Ho & Hv & Hi) [Hg Hw] Hb Hc Hlen Hd Hi'. destruct (ask _ c) as [ok c1] eqn:E1.
  apply ask_spec in E1 as (Ho1 & Hp1 & Hr1 & Hf & Hok); [|done]. destruct (Hok Hw) as [-> Hw1]. destruct (Hf eq_refl) as [Hpeer Hin].
  destruct Hi as [Hphase _]. destruct (feed_request (c_peer c) cmd build Hphase Hc Hb Hlen) as [Hfeed _].
  cbn [feed jigd_peer] in Hpeer, Hin. rewrite Hfeed, Hd in Hpeer, Hin. cbn [fst snd] in Hpeer, Hin.
  assert (Hv1 : view c1 = lit "OK" ++ nl ++ []).
  { unfold view in *. rewrite Hp1, Hin, app_assoc, Hv. by rewrite app_nil_r. }
  exists c1. destruct (RecvLine c1) as [line c2] eqn:E2. pose proof E2 as E2'.
  apply (RecvLine_reply (lit "OK") []) in E2 as (Hr & Hcase & Hp); [|done|not_in].
  rewrite <-Hr1 in Hg. specialize (Hp Ho1 Hg). destruct Hcase as [->|[-> Hv2]]; [done|].
  destruct Hr as (R1 & R2 & R3 & R4). exists c2. split_and!; try done.
  - split_and!; [congruence|done|]. rewrite R3, Hpeer. done.
  - split; [by apply R4|congruence].
  - congruence.
Qed.

Definition held (d : jigd e) (build : str) : nat := default 0 (j_held d !! build).

Lemma Fields_request cmd build : field cmd → word build → Fields ((cmd ++ lit " ") ++ build) = [cmd; build].
Proof.
  intros Hc Hb. rewrite <-app_assoc. change (lit " " ++ build) with (" "%char :: build).
  rewrite Fields_word by done. by rewrite Fields_last by (by apply word_field).
Qed.
Lemma dispatch_slot (d : jigd e) build : word build →
  dispatch d ((lit "SLOT" ++ lit " ") ++ build) =
  (Jigd (InLine []) (j_store d) (<[build := Datatypes.S (held d build)]> (j_held d)), lit "OK" ++ nl).
Proof.
  intros Hb. unfold dispatch. by rewrite Fields_request.
Qed.
Lemma dispatch_done (d : jigd e) build : word build →
  dispatch d ((lit "DONE" ++ lit " ") ++ build) =
  (Jigd (InLine []) (j_store d) (<[build := pred (held d build)]> (j_held d)), lit "OK" ++ nl).
Proof.
  intros Hb. unfold dispatch. by rewrite Fields_request.
Qed.

(** C30. A slot is held while the program runs and given back afterwards: a build without a slot of its
    own asks the daemon for one, and while the child runs the daemon counts one slot more for that
    build; when [jig slot] is done the count is what it was, whatever became of the child, and its exit status
    is handed on. Inside a slot no second one is asked for. *)
Theorem slot_held_and_released child_of jig_slot build_top program args socket_path (s : jigd e) (c : client (jigd e)) :
  fresh c s → c_open c = false → length socket_path < kSunPath → word (default (lit "-") build_top) →
  let build := default (lit "-") build_top in
  let during := Slot_open jig_slot build_top socket_path (Some s) c in
  let final := RunSlotMode child_of jig_slot build_top (program :: args) socket_path (Some s) c in
  final.1 = status (Run kInherit true [] (child_of program args true)) ∧
  (jig_slot = [] → during.1 = Some build ∧ held (c_peer during.2) build = Datatypes.S (held s build) ∧
     held (c_peer final.2) build = held s build ∧ synced final.2) ∧
  (jig_slot ≠ [] → during.1 = None ∧ final.2 = c).
Proof.
  intros Hfr Hcl Hl Hb. cbv zeta. unfold RunSlotMode. set (build := default (lit "-") build_top) in *.
  destruct (decide (jig_slot = [])) as [->|Hslot].
  2:{ assert (E : Slot_open jig_slot build_top socket_path (Some s) c = (None, c)).
      { unfold Slot_open. by rewrite bool_decide_eq_false_2. }
      rewrite E. cbn [Slot_close fst snd]. rewrite bool_decide_eq_false_2 by done. cbn [negb]. done. }
  assert (Hopen : ∃ c2, Slot_open [] build_top socket_path (Some s) c = (Some build, c2) ∧ synced c2 ∧ faultless c2 ∧
            c_peer c2 = Jigd (InLine []) (j_store s) (<[build := Datatypes.S (held s build)]> (j_held s))).
  { destruct (Connect_fresh socket_path s c Hfr Hl) as (c1 & Hconn & Hs1 & Hf1 & Hp1).
    destruct (slot_request (lit "SLOT") build c1 (Jigd (InLine []) (j_store s) (<[build := Datatypes.S (held s build)]> (j_held s))))
      as (c2 & c3 & Hask & Hrecv & Hs3 & Hf3 & Hp3); try done; [| |].
    - rewrite Hp1. by apply dispatch_slot.
    - split; [done|]. destruct Hfr as (_ & _ & _ & [_ Hi]). exact Hi.
    - exists c3. split; [|done]. unfold Slot_open. rewrite bool_decide_eq_true_2, Hcl by done. cbn [negb]. rewrite Hconn. cbn [negb].
      fold build. unfold AcquireSlot, io_bind. change (lit "SLOT " ++ build ++ nl) with ((lit "SLOT" ++ lit " ") ++ build ++ nl).
      rewrite Hask, Hrecv. done. }
  destruct Hopen as (c2 & -> & Hs2 & Hf2 & Hp2). cbn [fst snd Slot_close].
  destruct (slot_request (lit "DONE") build c2 (Jigd (InLine []) (j_store s) (<[build := held s build]> (<[build := Datatypes.S (held s build)]> (j_held s)))))
    as (c3 & c4 & Hask & Hrecv & Hs4 & Hf4 & Hp4); try done; [| |].
  { rewrite Hp2, dispatch_done by done. unfold held. cbn [j_held j_store]. by rewrite lookup_insert_eq. }
  { split; [done|]. destruct Hfr as (_ & _ & _ & [_ Hi]). exact Hi. }
  assert (Hclose : ReleaseSlot build c2 = (tt, c4)).
  { unfold ReleaseSlot, io_bind. change (lit "DONE " ++ build ++ nl) with ((lit "DONE" ++ lit " ") ++ build ++ nl).
    rewrite Hask, Hrecv. done. }
  rewrite Hclose. cbn [fst snd]. split; [done|]. split; [|done]. intros _. rewrite Hp2, Hp4. unfold held. cbn [j_held].
  rewrite !lookup_insert_eq. done.
Qed.
End Slots.

(** *** blobs *)

Section Blobs.
Context (blake3 : str → str) (zstd_compress zstd_decompress : str → option str).
Context (lossless : ∀ value frame, zstd_compress value = Some frame → zstd_decompress frame = Some value).
Context {S : Type} `{Hpeer : Peer S, !CacheDaemon S}.
Context (read : str → option str) (st_mode : str → N) (write_ok : str → bool) (dents_of : str → list dent) (st : store).

(** [jig cache put] of a file, then [jig cache get] on a later connection: the bytes, in the other file *)
Theorem blob_put_then_get key file1 file2 data socket_path (s s' : S) (c c' : client S) :
  fresh c s → fresh c' s' → length socket_path < kSunPath → word key → keepable zstd_compress data →
  read file1 = Some data → write_ok file2 = true →
  let put := RunCacheMode blake3 zstd_compress zstd_decompress read st_mode write_ok dents_of st
               [lit "put"; key; file1] socket_path (Some s) c in
  put.1 = (0%N, []) ∧
  (stored s' = stored (c_peer put.2) →
   (RunCacheMode blake3 zstd_compress zstd_decompress read st_mode write_ok dents_of st
      [lit "get"; key; file2] socket_path (Some s') c').1 = (0%N, [WroteTo file2 data])).
Proof using lossless.
  intros Hfr Hfr' Hl Hk Hkeep Hread Hw. cbv zeta. unfold RunCacheMode.
  rewrite (bool_decide_eq_false_2 (lit "put" = lit "put-dir")), (bool_decide_eq_false_2 (lit "put" = lit "get-dir")) by (vm_compute; discriminate).
  rewrite (bool_decide_eq_false_2 (lit "get" = lit "put-dir")), (bool_decide_eq_false_2 (lit "get" = lit "get-dir")),
    (bool_decide_eq_false_2 (lit "get" = lit "put")) by (vm_compute; discriminate).
  rewrite (bool_decide_eq_true_2 (lit "put" = lit "put")) by done.
  destruct (Connect_fresh socket_path s c Hfr Hl) as (c1 & -> & Hs1 & Hf1 & Hp1). cbn [negb]. rewrite Hread.
  destruct (Put_faultless zstd_compress key data c1 Hs1 Hf1 Hk) as (c2 & -> & _ & _ & Hm); [apply Hkeep|].
  cbn [fst snd]. split; [done|]. intros Hst.
  destruct (Connect_fresh socket_path s' c' Hfr' Hl) as (c3 & -> & Hs3 & Hf3 & Hp3). cbn [negb].
  destruct (Get zstd_decompress key c3) as [r c4] eqn:Eg. apply (Get_spec zstd_decompress) in Eg as [_ Eg]; [|done|done].
  destruct (Eg Hf3) as (-> & _). rewrite Hp3, Hst, Hm, lookup_insert_eq. cbn [mbind option_bind].
  by rewrite (keepable_back zstd_compress zstd_decompress lossless data Hkeep), Hw.
Qed.
End Blobs.

Definition closed_client : client (jigd sample_env) := Client false [] [] [Some 0] [Some 1] sample_daemon.

Lemma slot_held_and_released_witness :
  (RunSlotMode (λ _ _ _, Signalled 9) [] (Some (lit "/build/x")) [lit "go"; lit "build"] "/sock" (Some sample_daemon) closed_client).1
    = 137%N ∧
  held (c_peer (RunSlotMode (λ _ _ _, Signalled 9) [] (Some (lit "/build/x")) [lit "go"; lit "build"] "/sock"
    (Some sample_daemon) closed_client).2) "/build/x" = 0.
Proof.
  destruct (slot_held_and_released (λ _ _ _, Signalled 9) [] (Some (lit "/build/x")) "go" [lit "build"] "/sock" sample_daemon closed_client)
    as (H1 & H2 & _).
  - unfold fresh. split_and!; [done|done|split; repeat constructor; by eexists|apply sample_synced].
  - done.
  - apply Nat.ltb_lt. reflexivity.
  - split_and!; [done|apply Nat.leb_le; done|done].
  - split; [exact H1|]. destruct (H2 eq_refl) as (_ & _ & H & _). exact H.
Defined.
