(* ===== verification/CrtInterp.v ===== *)
(** * crt_interp.c: the entry stub that finds the dynamic loader (src/pkgs/cr/crt-interp/src)

    [reloc_main] from the initial stack to the loader's entry point. Memory is a partial map from
    addresses to bytes with their protection; the system calls are operations on it, and the kernel's own
    choices (what opens, where a mapping goes, what fails) are a record. Sums are 64 bits wide. A run ends
    in the loader, in [die], or in a fault. The assembly around [reloc_main] is in
    EntryCode. *)

From S2P Require Import Prelude Paths Base Image.

Definition AT_NULL : N := 0.
Definition AT_PHDR : N := 3.
Definition AT_PHNUM : N := 5.
Definition AT_PAGESZ : N := 6.
Definition AT_BASE : N := 7.
Definition AT_ENTRY : N := 9.
Definition AT_EXECFN : N := 31.
Definition PT_NULL : N := 0.
Definition PT_LOAD : N := 1.
Definition PT_INTERP : N := 3.
Definition PT_PHDR : N := 6.
Definition PROT_READ : N := 1.
Definition PROT_WRITE : N := 2.
Definition PROT_EXEC : N := 4.

(** ** Memory *)

Record cell := Cell { c_byte : ascii; c_prot : N }.
Definition mem : Type := N → option cell.

Definition may (prot : N) (c : cell) : bool := negb (N.land (c_prot c) prot =? 0)%N.
Definition within (a addr len : N) : bool := ((addr <=? a) && (a <? addr + len))%N.

Definition load1 (m : mem) (a : N) : option ascii := c ← m a; if may PROT_READ c then Some (c_byte c) else None.
(** the [n] bytes at [addr] *)
Fixpoint load (m : mem) (addr : N) (n : nat) : option str :=
  match n with
  | 0 => Some []
  | S n => b ← load1 m addr; bs ← load m (add64 addr 1) n; Some (b :: bs)
  end.
Definition load_uint (m : mem) (addr : N) (size : nat) : option N := le_val <$> load m addr size.

(** the addresses [addr], [addr+1], ... *)
Fixpoint addresses (addr : N) (n : nat) : list N := match n with 0 => [] | S n => addr :: addresses (addr + 1) n end.

(** writes [bytes f] over [addr, addr + len): all of it has to be writable *)
Definition fill (m : mem) (addr len : N) (f : N → ascii) : option mem :=
  if forallb (λ a, match m a with Some c => may PROT_WRITE c | None => false end) (addresses addr (N.to_nat len)) then
    Some (λ a, match m a with
               | Some c => if within a addr len then Some (Cell (f (a - addr)%N) (c_prot c)) else Some c
               | None => None
               end)
  else None.

(** mappings: anonymous ones are zero; behind the last page of a file there is nothing *)
Definition map_anonymous (m : mem) (addr len prot : N) : mem := λ a,
  if within a addr len then Some (Cell chr_nul prot) else m a.
Definition file_byte (page : N) (file : str) (off : N) : option ascii :=
  match file !! N.to_nat off with
  | Some b => Some b
  | None => if (off <? (N.of_nat (length file) + page - 1) / page * page)%N then Some chr_nul else None
  end.
Definition map_file (page : N) (m : mem) (addr len prot : N) (file : str) (off : N) : mem := λ a,
  if within a addr len then (λ b, Cell b prot) <$> file_byte page file (off + (a - addr)) else m a.
(** [mprotect]: fails on a hole *)
Definition protect (m : mem) (addr len prot : N) : option mem :=
  if forallb (λ a, bool_decide (is_Some (m a))) (addresses addr (N.to_nat len)) then
    Some (λ a, if within a addr len then (λ c, Cell (c_byte c) prot) <$> m a else m a)
  else None.

(** what the kernel decides *)
Record kernel := Kernel {
  k_exe : option str;            (* readlink of /proc/self/exe *)
  k_open : str → option str;     (* the bytes of a file that opens *)
  k_reserve : N → option N;      (* where so many bytes are reserved *)
  k_maps : N → bool;             (* whether the mapping at an address succeeds *)
  k_protects : bool;             (* whether mprotect is allowed *)
}.

(** ** How a run ends *)

Inductive fault := Died (message : str) | Crashed.
Definition result (A : Type) : Type := (A + fault)%type.
Definition die {A} (message : str) : result A := inr (Died message).
Definition bind {A B} (r : result A) (f : A → result B) : result B := match r with inl a => f a | inr e => inr e end.
(** a read or write of memory that is not there faults *)
Definition touch {A} (o : option A) : result A := match o with Some a => inl a | None => inr Crashed end.
Notation "x <! r ; k" := (bind r (λ x, k)) (at level 100, r at next level, right associativity).

(** ** Helpers *)

Definition kPathSize : nat := 4096.
(** the length of a C string; one that does not fit a path counts as [kPathSize] *)
Fixpoint slen_loop (m : mem) (addr : N) (n : nat) : option nat :=
  match n with
  | 0 => Some 0
  | S n => b ← load1 m addr; if b == chr_nul then Some 0 else S <$> slen_loop m (add64 addr 1) n
  end.
Definition slen (m : mem) (addr : N) : option nat := slen_loop m addr kPathSize.

Definition prot_of (p_flags : N) : N :=
  N.lor (N.lor (if (N.land p_flags 4 =? 0)%N then 0 else PROT_READ) (if (N.land p_flags 2 =? 0)%N then 0 else PROT_WRITE))
    (if (N.land p_flags 1 =? 0)%N then 0 else PROT_EXEC).

Definition page_down (PG x : N) : N := N.ldiff x (sub64 PG 1).
Definition page_up (PG x : N) : N := page_down PG (sub64 (add64 x PG) 1).

Record Phdr := Phdr_ { p_type : N; p_flags : N; p_offset : N; p_vaddr : N; p_filesz : N; p_memsz : N }.
Definition sizeof_Phdr : nat := 56.
Definition sizeof_Ehdr : nat := 64.
Definition phdr_of (raw : str) : Phdr :=
  Phdr_ (field_at raw 0 4) (field_at raw 4 4) (field_at raw 8 8) (field_at raw 16 8) (field_at raw 32 8) (field_at raw 40 8).
Definition eh_entry (raw : str) : N := field_at raw 24 8.
Definition eh_phoff (raw : str) : N := field_at raw 32 8.
Definition eh_phnum (raw : str) : N := field_at raw 56 2.

(** ** The initial stack *)

Fixpoint after_null (words : list N) : option (list N) :=
  match words with
  | [] => None
  | w :: words => if (w =? 0)%N then Some words else after_null words
  end.
(** the pairs up to AT_NULL *)
Fixpoint auxv_pairs (words : list N) : option (list (N * N)) :=
  match words with
  | key :: value :: words => if (key =? AT_NULL)%N then Some [] else cons (key, value) <$> auxv_pairs words
  | [key] => if (key =? AT_NULL)%N then Some [] else None
  | [] => None
  end.
Definition auxv_of (stack : list N) : option (list (N * N)) :=
  match stack with
  | [] => None
  | argc :: rest => after_null (drop (N.to_nat argc + 1) rest) ≫= auxv_pairs
  end.

(** the last entry of a kind *)
Definition aux (auxv : list (N * N)) (key default_ : N) : N :=
  foldl (λ v e, if (e.1 =? key)%N then e.2 else v) default_ auxv.

(** ** Our own program headers *)

Definition read_phdr (m : mem) (addr : N) : option Phdr := phdr_of <$> load m addr sizeof_Phdr.
Fixpoint read_phdrs (m : mem) (addr : N) (n : nat) : option (list (N * Phdr)) :=
  match n with
  | 0 => Some []
  | S n => p ← read_phdr m addr; ps ← read_phdrs m (add64 addr (N.of_nat sizeof_Phdr)) n; Some ((addr, p) :: ps)
  end.

(** the bias, if there is a PT_PHDR, and the disabled PT_INTERP *)
Definition self_scan (self_ph : N) (phs : list (N * Phdr)) : option N * option (N * Phdr) :=
  foldl (λ s e,
    let bias := if (p_type e.2 =? PT_PHDR)%N then Some (sub64 self_ph (p_vaddr e.2)) else s.1 in
    (bias, if ((p_type e.2 =? PT_NULL) && (1 <? p_filesz e.2))%N then Some e else s.2)) (None, None) phs.

Definition phdr_prot (phs : list (N * Phdr)) (phdr_vaddr : N) : N :=
  foldl (λ prot e,
    if ((p_type e.2 =? PT_LOAD) && (sub64 phdr_vaddr (p_vaddr e.2) <? p_memsz e.2))%N then prot_of (p_flags e.2) else prot)
    PROT_READ phs.

(** where the program itself starts: [_start], or the vaddr that reloc-fixup wrote into an implanted stub *)
Inductive real_start := Linked (start : N) | Implanted (entry : N).
Definition real_entry (s : real_start) (bias : option N) : result N :=
  match s with
  | Linked start => inl start
  | Implanted entry => match bias with None => die "no PT_PHDR" | Some b => inl (add64 b entry) end
  end.

(** ** The loader's path *)

Definition dirname (path : str) : str := rev (drop_while (λ c, c != "/"%char) (rev path)).

Definition own_path (k : kernel) (m : mem) (execfn : N) : result str :=
  match k_exe k with
  | Some ((_ :: _) as exe) => inl (take (kPathSize - 1) exe)
  | _ =>
      if (execfn =? 0)%N then die "neither /proc/self/exe nor AT_EXECFN"
      else
        n <! touch (slen m execfn);
        if (kPathSize <=? n)%nat then die "path too long" else touch (load m execfn n)
  end.

Definition interp_path (k : kernel) (m : mem) (execfn rel : N) : result str :=
  own <! own_path k m execfn;
  rl <! touch (slen m rel);
  first <! touch (load1 m rel);
  let dir := if first == "/"%char then [] else dirname own in
  if (kPathSize <? length dir + rl + 1)%nat then die "path too long"
  else name <! touch (load m rel rl); inl (dir ++ name).

(** ** Mapping the loader *)

(** what [pread64] puts into the union; bytes behind the end of the file are not written *)
Definition kHeaderSize : nat := 4096.
Definition header_phdr (hdr : str) (off : N) : option Phdr := phdr_of <$> Read hdr off sizeof_Phdr.
Fixpoint header_phdrs (hdr : str) (off : N) (n : nat) : option (list Phdr) :=
  match n with
  | 0 => Some []
  | S n => p ← header_phdr hdr off; ps ← header_phdrs hdr (off + N.of_nat sizeof_Phdr)%N n; Some (p :: ps)
  end.
Definition read_header (file : str) : result (str * list Phdr) :=
  let hdr := take kHeaderSize file in
  if (length hdr <? sizeof_Ehdr)%nat then die "short read"
  else if (N.of_nat kHeaderSize <? add64 (eh_phoff hdr) (eh_phnum hdr * N.of_nat sizeof_Phdr))%N then
    die "phdrs out of first page"
  else ph <! touch (header_phdrs hdr (eh_phoff hdr) (N.to_nat (eh_phnum hdr))); inl (hdr, ph).

Definition is_load (p : Phdr) : bool := (p_type p =? PT_LOAD)%N.

(** the lowest and the highest address of the PT_LOADs *)
Definition extent (ph : list Phdr) : N * N :=
  foldl (λ b p,
    if is_load p then
      (if (p_vaddr p <? b.1)%N then p_vaddr p else b.1,
       if (b.2 <? add64 (p_vaddr p) (p_memsz p))%N then add64 (p_vaddr p) (p_memsz p) else b.2)
    else b) ((2 ^ 64 - 1)%N, 0%N) ph.

Definition map_segment (k : kernel) (PG : N) (file : str) (bias : N) (p : Phdr) (m : mem) : result mem :=
  if negb (is_load p) then inl m
  else
    let seg_start := page_down PG (p_vaddr p) in
    let off := page_down PG (p_offset p) in
    let file_end := add64 (p_vaddr p) (p_filesz p) in
    let mem_end := add64 (p_vaddr p) (p_memsz p) in
    let prot := prot_of (p_flags p) in
    let map_len := sub64 (page_up PG file_end) seg_start in
    m <! (if (map_len =? 0)%N then inl m
          else if negb (k_maps k (add64 bias seg_start)) then die "mmap segment failed"
          else inl (map_file PG m (add64 bias seg_start) map_len prot file off));
    if (mem_end <=? file_end)%N then inl m
    else
      m <! (if (N.land prot PROT_WRITE =? 0)%N then inl m
            else touch (fill m (add64 bias file_end) (add64 bias (page_up PG file_end) - add64 bias file_end)
                          (λ _, chr_nul)));
      let anon_start := page_up PG file_end in
      let anon_end := page_up PG mem_end in
      if (anon_end <=? anon_start)%N then inl m
      else if negb (k_maps k (add64 bias anon_start)) then die "mmap bss failed"
      else inl (map_anonymous m (add64 bias anon_start) (anon_end - anon_start) prot).

Fixpoint map_segments (k : kernel) (PG : N) (file : str) (bias : N) (ph : list Phdr) (m : mem) : result mem :=
  match ph with
  | [] => inl m
  | p :: ph => m <! map_segment k PG file bias p m; map_segments k PG file bias ph m
  end.

(** the reservation and all segments: the bias and the memory *)
Definition map_loader (k : kernel) (PG : N) (file : str) (ph : list Phdr) (m : mem) : result (N * mem) :=
  let '(lo, hi) := extent ph in
  let lo := page_down PG lo in
  let hi := page_up PG hi in
  match k_reserve k (sub64 hi lo) with
  | None => die "mmap reserve failed"
  | Some base =>
      let bias := sub64 base lo in
      m <! map_segments k PG file bias ph (map_anonymous m base (sub64 hi lo) 0);
      inl (bias, m)
  end.

(** ** Handing over *)

(** the program header is PT_INTERP again, with the protection of its segment *)
Definition enable_interp (k : kernel) (PG : N) (m : mem) (interp_ph prot : N) : result mem :=
  let pg_lo := page_down PG interp_ph in
  let pg_hi := page_up PG (add64 interp_ph (N.of_nat sizeof_Phdr)) in
  let len := sub64 pg_hi pg_lo in
  match (if k_protects k then protect m pg_lo len (N.lor prot PROT_WRITE) else None) with
  | None => die "mprotect phdr rw"
  | Some m =>
      m <! touch (fill m interp_ph 4 (λ i, default chr_nul (le_bytes 4 PT_INTERP !! N.to_nat i)));
      inl (default m (protect m pg_lo len prot))
  end.

Definition patch (bias entry : N) (e : N * N) : N * N :=
  if (e.1 =? AT_BASE)%N then (e.1, bias) else if (e.1 =? AT_ENTRY)%N then (e.1, entry) else e.
Definition has_key (auxv : list (N * N)) (key : N) : bool := existsb (λ e, (e.1 =? key)%N) auxv.

Definition kPageSize : N := 4096.

(** the loader's entry point, the memory and the auxiliary vector it finds *)
Definition reloc_main (k : kernel) (start : real_start) (stack : list N) (m : mem) : result (N * mem * list (N * N)) :=
  auxv <! touch (auxv_of stack);
  let self_ph := aux auxv AT_PHDR 0 in
  let PG := aux auxv AT_PAGESZ kPageSize in
  if (self_ph =? 0)%N then die "no AT_PHDR"
  else
    phs <! touch (read_phdrs m self_ph (N.to_nat (aux auxv AT_PHNUM 0)));
    let '(bias, interp) := self_scan self_ph phs in
    match interp with
    | None => die "no disabled PT_INTERP (PT_NULL with contents) found"
    | Some (interp_ph, ip) =>
        let self_bias := default 0%N bias in
        let prot := phdr_prot phs (sub64 interp_ph self_bias) in
        entry <! real_entry start bias;
        path <! interp_path k m (aux auxv AT_EXECFN 0) (add64 self_bias (p_vaddr ip));
        match k_open k path with
        | None => die "cannot open interpreter (relative path)"
        | Some file =>
            header <! read_header file;
            loaded <! map_loader k PG file header.2 m;
            m <! enable_interp k PG loaded.2 interp_ph prot;
            if negb (has_key auxv AT_BASE && has_key auxv AT_ENTRY) then die "auxv lacks AT_BASE/AT_ENTRY"
            else inl (add64 loaded.1 (eh_entry header.1), m, map (patch loaded.1 entry) auxv)
        end
    end.

(** ** Properties *)

(** *** pages *)

Definition page_size (PG : N) : Prop := ∃ s, (s ≤ 32)%N ∧ PG = (2 ^ s)%N.

Lemma page_size_bounds PG : page_size PG → (0 < PG ≤ 2 ^ 32)%N.
Proof. intros (s & Hs & ->). split; [apply N.neq_0_lt_0, N.pow_nonzero; lia|apply N.pow_le_mono_r; lia]. Qed.

Lemma page_down_spec PG x : page_size PG →
  page_down PG x = (x / PG * PG)%N ∧ (page_down PG x + x mod PG = x)%N ∧ (page_down PG x ≤ x < page_down PG x + PG)%N.
Proof.
  intros HPG. pose proof (page_size_bounds PG HPG) as HB. destruct HPG as (s & Hs & ->).
  assert (E : page_down (2 ^ s) x = (x / 2 ^ s * 2 ^ s)%N).
  { unfold page_down, sub64. replace (2 ^ s + 2 ^ 64 - 1)%N with (2 ^ s - 1 + 1 * 2 ^ 64)%N by lia.
    rewrite N.Div0.mod_add, N.mod_small by lia. rewrite N.sub_1_r, <-N.ones_equiv, N.ldiff_ones_r.
    by rewrite N.shiftl_mul_pow2, N.shiftr_div_pow2. }
  pose proof (N.div_mod x (2 ^ s) ltac:(lia)) as Hdm. pose proof (N.mod_lt x (2 ^ s) ltac:(lia)) as Hm.
  rewrite E. split; [done|]. rewrite N.mul_comm. revert Hdm Hm.
  generalize (x / 2 ^ s)%N, (x mod 2 ^ s)%N. intros q r Hdm Hm. rewrite Hdm. lia.
Qed.

Lemma page_up_spec PG x : page_size PG → (x + PG < 2 ^ 64)%N →
  page_up PG x = ((x + PG - 1) / PG * PG)%N ∧ (x ≤ page_up PG x < x + PG)%N.
Proof.
  intros HPG Hx. pose proof (page_size_bounds PG HPG) as HB.
  assert (E : page_up PG x = page_down PG (x + PG - 1)).
  { unfold page_up. f_equal. unfold add64, sub64. rewrite (N.mod_small (x + PG)) by lia.
    replace (x + PG + 2 ^ 64 - 1)%N with (x + PG - 1 + 1 * 2 ^ 64)%N by lia. rewrite N.Div0.mod_add. apply N.mod_small. lia. }
  destruct (page_down_spec PG (x + PG - 1) HPG) as (E2 & _ & H). rewrite E. split; [exact E2|lia].
Qed.

Lemma sub64_small a b : (b ≤ a)%N → (a < 2 ^ 64)%N → sub64 a b = (a - b)%N.
Proof.
  intros H1 H2. unfold sub64. replace (a + 2 ^ 64 - b)%N with (a - b + 1 * 2 ^ 64)%N by lia.
  rewrite N.Div0.mod_add. apply N.mod_small. lia.
Qed.

Lemma within_spec a addr len : within a addr len = true ↔ (addr ≤ a < addr + len)%N.
Proof. unfold within. rewrite andb_true_iff, N.leb_le, N.ltb_lt. lia. Qed.
Lemma within_false a addr len : within a addr len = false ↔ ¬ (addr ≤ a < addr + len)%N.
Proof. rewrite <-within_spec. destruct (within a addr len); naive_solver. Qed.

Lemma addresses_elem addr n a : a ∈ addresses addr n ↔ (addr ≤ a < addr + N.of_nat n)%N.
Proof.
  revert addr. induction n as [|n IH]; intros addr; cbn [addresses]; [rewrite elem_of_nil; lia|].
  rewrite elem_of_cons, IH. lia.
Qed.

Lemma fill_ok m addr len f :
  (∀ a, (addr ≤ a < addr + len)%N → ∃ c, m a = Some c ∧ may PROT_WRITE c = true) →
  ∃ m', fill m addr len f = Some m' ∧
    (∀ a, (addr ≤ a < addr + len)%N → m' a = (λ c, Cell (f (a - addr)%N) (c_prot c)) <$> m a) ∧
    (∀ a, ¬ (addr ≤ a < addr + len)%N → m' a = m a).
Proof.
  intros H. unfold fill. rewrite (proj2 (forallb_forall _ _)).
  - eexists. split; [done|]. split; intros a Ha.
    + destruct (H a Ha) as (c & -> & _). by rewrite (proj2 (within_spec _ _ _)).
    + destruct (m a); [|done]. by rewrite (proj2 (within_false _ _ _)).
  - intros a Ha%list_elem_of_In%addresses_elem. destruct (H a) as (c & -> & Hw); [lia|done].
Qed.

(** *** one segment *)

(** a segment the way linkers lay it out; the part beyond the file is writable *)
Definition segment_ok (PG : N) (file : str) (p : Phdr) : Prop :=
  (p_filesz p ≤ p_memsz p)%N ∧ (p_vaddr p mod PG = p_offset p mod PG)%N ∧
  (p_offset p + p_filesz p ≤ N.of_nat (length file))%N ∧ (N.of_nat (length file) < 2 ^ 63)%N ∧
  ((p_filesz p < p_memsz p)%N → N.land (prot_of (p_flags p)) PROT_WRITE ≠ 0%N) ∧
  (p_vaddr p + p_memsz p + PG < 2 ^ 64)%N.

(** the pages a segment covers *)
Definition first_page (PG : N) (p : Phdr) : N := page_down PG (p_vaddr p).
Definition end_page (PG : N) (p : Phdr) : N := page_up PG (p_vaddr p + p_memsz p).

(** what a program header asks of memory *)
Definition segment_byte (file : str) (p : Phdr) (j : N) : option ascii :=
  if (j <? p_filesz p)%N then file !! N.to_nat (p_offset p + j) else Some chr_nul.
Definition segment_loaded (file : str) (bias : N) (p : Phdr) (m : mem) : Prop :=
  ∀ j, (j < p_memsz p)%N → ∃ b, segment_byte file p j = Some b ∧ m (bias + p_vaddr p + j)%N = Some (Cell b (prot_of (p_flags p))).

Lemma file_byte_in PG file off : (off < N.of_nat (length file))%N → file_byte PG file off = file !! N.to_nat off.
Proof.
  intros H. unfold file_byte. destruct (lookup_lt_is_Some_2 file (N.to_nat off)) as [b ->]; [lia|done].
Qed.

Section Segment.
Context (k : kernel) (PG : N) (file : str) (bias : N) (p : Phdr) (m : mem).
Context (HPG : page_size PG) (Hok : segment_ok PG file p) (Hload : is_load p = true) (Hmaps : ∀ a, k_maps k a = true).
Context (Hbias : (bias + end_page PG p < 2 ^ 64)%N).

Let S_ := page_down PG (p_vaddr p).
Let FE := (p_vaddr p + p_filesz p)%N.
Let ME := (p_vaddr p + p_memsz p)%N.
Let UF := page_up PG FE.
Let UM := page_up PG ME.

(** the numbers of the code without wrap-around *)
Lemma segment_numbers :
  (S_ ≤ p_vaddr p < S_ + PG ∧ FE ≤ UF < FE + PG ∧ ME ≤ UM < ME + PG ∧ S_ ≤ UF ≤ UM)%N ∧
  (page_down PG (p_offset p) + (p_vaddr p - S_) = p_offset p)%N ∧
  (page_down PG (p_offset p) + (UF - S_) ≤ (N.of_nat (length file) + PG - 1) / PG * PG)%N.
Proof using HPG Hok.
  clear Hbias Hmaps Hload.
  destruct Hok as (H1 & H2 & H3 & H4 & _ & H6). pose proof (page_size_bounds PG HPG) as HB.
  destruct (page_down_spec PG (p_vaddr p) HPG) as (Ev & Hv & Hvb). destruct (page_down_spec PG (p_offset p) HPG) as (Eo & Ho & Hob).
  destruct (page_up_spec PG FE HPG) as (Ef & Hf); [unfold FE; lia|]. destruct (page_up_spec PG ME HPG) as (Em & Hm); [unfold ME; lia|].
  fold S_ in Ev, Hv, Hvb. fold UF in Ef, Hf. fold UM in Em, Hm. split; [|split; [lia|]].
  - assert (UF ≤ UM)%N; [|unfold FE, ME in *; lia].
    rewrite Ef, Em. apply N.mul_le_mono_r, N.Div0.div_le_mono. unfold FE, ME. lia.
  - assert (Hfile : ∀ x, (x ≤ (x + PG - 1) / PG * PG)%N).
    { intros x. pose proof (N.div_mod (x + PG - 1) PG ltac:(lia)). pose proof (N.mod_lt (x + PG - 1) PG ltac:(lia)). lia. }
    specialize (Hfile (N.of_nat (length file))). rewrite Eo, Ev, Ef in *.
    set (qo := (p_offset p / PG)%N) in *. set (qf := ((FE + PG - 1) / PG)%N) in *. set (qs := (p_vaddr p / PG)%N) in *.
    set (ql := ((N.of_nat (length file) + PG - 1) / PG)%N) in *. rewrite <-N.mul_sub_distr_r, <-N.mul_add_distr_r.
    apply N.mul_le_mono_r. enough (qo + (qf - qs) < ql + 1)%N by lia.
    apply (N.mul_lt_mono_pos_r PG); [lia|]. rewrite !N.mul_add_distr_r, N.mul_sub_distr_r. unfold FE in *. lia.
Qed.

(** the file part: mapped with its protection up to the end of its last page *)
Lemma file_part a : (bias + S_ ≤ a < bias + UF)%N →
  ∃ b, file_byte PG file (page_down PG (p_offset p) + (a - (bias + S_))) = Some b ∧
    ((bias + p_vaddr p ≤ a < bias + FE)%N → segment_byte file p (a - (bias + p_vaddr p)) = Some b).
Proof.
  intros Ha. destruct segment_numbers as (HN & Ho & HL). destruct Hok as (H1 & _ & H3 & _).
  set (off := (page_down PG (p_offset p) + (a - (bias + S_)))%N).
  destruct (decide (off < N.of_nat (length file))%N) as [Hin|Hout].
  - rewrite file_byte_in by done. destruct (lookup_lt_is_Some_2 file (N.to_nat off)) as [b Hb]; [lia|]. exists b. split; [done|].
    intros Hr. unfold segment_byte. rewrite (proj2 (N.ltb_lt _ _)) by (unfold FE in Hr; lia). rewrite <-Hb. f_equal. f_equal.
    unfold off, FE in *. lia.
  - exists chr_nul. split.
    + unfold file_byte. rewrite (proj2 (lookup_ge_None file (N.to_nat off))) by lia.
      rewrite (proj2 (N.ltb_lt _ _)); [done|]. unfold off. lia.
    + intros Hr. unfold off, FE in *. lia.
Qed.

Lemma file_pages :
  let prot := prot_of (p_flags p) in
  ∃ m1, (if (UF - S_ =? 0)%N then inl m
         else inl (map_file PG m (bias + S_) (UF - S_) prot file (page_down PG (p_offset p)))) = @inl mem fault m1 ∧
    (∀ a, (bias + S_ ≤ a < bias + UF)%N → ∃ b, m1 a = Some (Cell b prot) ∧
       ((bias + p_vaddr p ≤ a < bias + FE)%N → segment_byte file p (a - (bias + p_vaddr p)) = Some b)) ∧
    (∀ a, ¬ (bias + S_ ≤ a < bias + UF)%N → m1 a = m a).
Proof.
  cbv zeta. destruct segment_numbers as (HN & _).
  destruct (N.eqb_spec (UF - S_) 0) as [Hz|Hz]; eexists; (split; [done|]); split; intros a Ha; [lia|done| |].
  - unfold map_file. rewrite (proj2 (within_spec _ _ _)) by lia. destruct (file_part a Ha) as (b & -> & Hb). by exists b.
  - unfold map_file. by rewrite (proj2 (within_false _ _ _)) by lia.
Qed.

Lemma map_segment_loads : ∃ m', map_segment k PG file bias p m = inl m' ∧ segment_loaded file bias p m' ∧
  ∀ a, ¬ (bias + first_page PG p ≤ a < bias + end_page PG p)%N → m' a = m a.
Proof.
  destruct segment_numbers as (HN & Ho & HL). pose proof Hok as (H1 & _ & _ & _ & Hw & H6).
  assert (HUM : (bias + UM < 2 ^ 64)%N) by exact Hbias.
  assert (HE : end_page PG p = UM) by done. assert (HF : first_page PG p = S_) by done. rewrite HE, HF.
  unfold map_segment. rewrite Hload. cbn [negb]. fold S_.
  assert (E1 : add64 (p_vaddr p) (p_filesz p) = FE) by (unfold add64; apply N.mod_small; lia).
  assert (E2 : add64 (p_vaddr p) (p_memsz p) = ME) by (unfold add64; apply N.mod_small; lia).
  assert (Eadd : ∀ x, (x ≤ UM)%N → add64 bias x = (bias + x)%N) by (intros x Hx; unfold add64; apply N.mod_small; lia).
  rewrite E1, E2. fold UF UM.
  rewrite sub64_small, !Eadd by (unfold FE, ME in *; lia). rewrite !Hmaps. cbn [negb].
  set (prot := prot_of (p_flags p)) in *.
  destruct file_pages as (m1 & Hfirst & Hin1 & Hout1). cbv zeta in Hfirst. fold prot in Hfirst, Hin1.
  match goal with |- context [bind ?first _] => assert (first = inl m1) as -> by exact Hfirst end. cbn [bind].
  assert (Hfile : ∀ m', (∀ a, (bias + S_ ≤ a < bias + FE)%N → m' a = m1 a) → ∀ j, (j < p_filesz p)%N →
    ∃ b, segment_byte file p j = Some b ∧ m' (bias + p_vaddr p + j)%N = Some (Cell b prot)).
  { intros m' Hm' j Hj. destruct (Hin1 (bias + p_vaddr p + j)%N) as (b & Hb1 & Hb2); [unfold FE in *; lia|].
    exists b. rewrite Hm' by (unfold FE; lia). split; [|done]. rewrite <-Hb2 by (unfold FE; lia). f_equal. lia. }
  destruct (N.leb_spec ME FE) as [Hle|Hgt].
  { exists m1. split; [done|]. split; [|intros a Ha; apply Hout1; lia]. intros j Hj. apply Hfile; [done|]. unfold ME, FE in *. lia. }
  (* the rest of the last page *)
  assert (Hwr : N.land prot PROT_WRITE ≠ 0%N) by (apply Hw; unfold ME, FE in *; lia).
  destruct (N.eqb_spec (N.land prot PROT_WRITE) 0) as [|_]; [done|].
  destruct (fill_ok m1 (bias + FE) (bias + UF - (bias + FE)) (λ _, chr_nul)) as (m2 & -> & Hin2 & Hout2).
  { intros a Ha. destruct (Hin1 a) as (b & -> & _); [unfold FE in *; lia|]. eexists. split; [done|]. unfold may. cbn [c_prot].
    by destruct (N.eqb_spec (N.land prot PROT_WRITE) 0). }
  cbn [touch bind].
  assert (Hzero : ∀ a, (bias + FE ≤ a < bias + UF)%N → m2 a = Some (Cell chr_nul prot)).
  { intros a Ha. rewrite Hin2 by lia. destruct (Hin1 a) as (b & -> & _); [unfold FE in *; lia|]. done. }
  assert (Hrest : ∀ m', (∀ a, (bias + S_ ≤ a < bias + UF)%N → m' a = m2 a) →
    (∀ a, (bias + UF ≤ a < bias + UM)%N → m' a = Some (Cell chr_nul prot)) → segment_loaded file bias p m').
  { intros m' Hlow Hhigh j Hj. destruct (decide (j < p_filesz p)%N) as [Hjf|Hjf].
    - apply Hfile; [|done]. intros a Ha. rewrite Hlow by lia. apply Hout2. lia.
    - exists chr_nul. unfold segment_byte. rewrite (proj2 (N.ltb_ge _ _)) by lia. split; [done|].
      destruct (decide (bias + p_vaddr p + j < bias + UF)%N).
      + rewrite Hlow by (unfold FE in *; lia). apply Hzero. unfold FE in *. lia.
      + apply Hhigh. unfold ME in *. lia. }
  (* the pages behind *)
  destruct (N.leb_spec UM UF) as [Hle2|Hgt2]; eexists; (split; [done|]); (split; [apply Hrest|]); try done.
  - intros a Ha. lia.
  - intros a Ha. rewrite Hout2, Hout1 by lia. done.
  - intros a Ha. unfold map_anonymous. by rewrite (proj2 (within_false _ _ _)) by lia.
  - intros a Ha. unfold map_anonymous. by rewrite (proj2 (within_spec _ _ _)) by lia.
  - intros a Ha. unfold map_anonymous. rewrite (proj2 (within_false _ _ _)) by lia. rewrite Hout2, Hout1 by lia. done.
Qed.
End Segment.

(** *** all segments *)

Lemma segment_loaded_ext file bias PG p m m' :
  page_size PG → segment_ok PG file p → (∀ a, (bias + first_page PG p ≤ a < bias + end_page PG p)%N → m' a = m a) →
  segment_loaded file bias p m → segment_loaded file bias p m'.
Proof.
  intros HPG Hok Hext Hl j Hj. destruct (Hl j Hj) as (b & Hb & Hm). exists b. split; [done|]. rewrite Hext; [done|].
  destruct (segment_numbers PG file p HPG Hok) as ((Hs & _ & He & _) & _). unfold first_page, end_page. lia.
Qed.

(** the segments of a loader: in order, no page in two of them *)
Fixpoint ascending (PG : N) (file : str) (lo : N) (ph : list Phdr) : Prop :=
  match ph with
  | [] => True
  | p :: ph =>
      if is_load p then
        segment_ok PG file p ∧ (lo ≤ first_page PG p)%N ∧ ascending PG file (end_page PG p) ph
      else ascending PG file lo ph
  end.

Lemma map_segments_load k PG file bias ph lo hi m :
  page_size PG → (∀ a, k_maps k a = true) → (bias + hi < 2 ^ 64)%N → ascending PG file lo ph →
  (∀ p, p ∈ ph → is_load p = true → (end_page PG p ≤ hi)%N) →
  ∃ m', map_segments k PG file bias ph m = inl m' ∧
    (∀ p, p ∈ ph → is_load p = true → segment_loaded file bias p m') ∧
    ∀ a, (a < bias + lo ∨ bias + hi ≤ a)%N → m' a = m a.
Proof.
  intros HPG Hmaps Hhi. revert lo m. induction ph as [|p ph IH]; intros lo m Hasc Hend; cbn [map_segments ascending] in *.
  { exists m. split; [done|]. split; [|done]. intros p Hp. by apply elem_of_nil in Hp. }
  destruct (is_load p) eqn:Hl.
  - destruct Hasc as (Hok & Hlo & Hasc). assert (Hep : (end_page PG p ≤ hi)%N) by (apply Hend; [by left|done]).
    destruct (map_segment_loads k PG file bias p m HPG Hok Hl Hmaps) as (m1 & -> & Hload & Hout); [lia|]. cbn [bind].
    destruct (IH (end_page PG p) m1 Hasc) as (m2 & -> & Hloads & Hout2); [intros q Hq; apply Hend; by right|].
    exists m2. split; [done|]. split.
    + intros q [->|Hq]%elem_of_cons Hlq; [|by apply Hloads].
      apply (segment_loaded_ext file bias PG p m1); [done|done| |done]. intros a Ha. apply Hout2. lia.
    + destruct (segment_numbers PG file p HPG Hok) as (Hn & _). fold (first_page PG p) (end_page PG p) in Hn.
      intros a Ha. rewrite Hout2, Hout by lia. done.
  - unfold map_segment. rewrite Hl. cbn [negb bind].
    destruct (IH lo m Hasc) as (m2 & -> & Hloads & Hout2); [intros q Hq; apply Hend; by right|].
    exists m2. split; [done|]. split; [|done]. intros q [->|Hq]%elem_of_cons Hlq; [congruence|by apply Hloads].
Qed.

Lemma page_down_mono PG x y : page_size PG → (x ≤ y)%N → (page_down PG x ≤ page_down PG y)%N.
Proof.
  intros HPG H. destruct (page_down_spec PG x HPG) as (-> & _), (page_down_spec PG y HPG) as (-> & _).
  apply N.mul_le_mono_r, N.Div0.div_le_mono, H.
Qed.
Lemma page_up_mono PG x y : page_size PG → (x ≤ y)%N → (y + PG < 2 ^ 64)%N → (page_up PG x ≤ page_up PG y)%N.
Proof.
  intros HPG H Hy. destruct (page_up_spec PG x HPG) as (-> & _); [lia|]. destruct (page_up_spec PG y HPG) as (-> & _); [lia|].
  apply N.mul_le_mono_r, N.Div0.div_le_mono. lia.
Qed.

(** [extent] is what the loads span *)
Lemma extent_spec ph bound :
  (∀ p, p ∈ ph → is_load p = true → (p_vaddr p + p_memsz p ≤ bound)%N) → (bound < 2 ^ 64)%N →
  ((extent ph).2 ≤ bound)%N ∧
  ∀ p, p ∈ ph → is_load p = true → ((extent ph).1 ≤ p_vaddr p ∧ p_vaddr p + p_memsz p ≤ (extent ph).2)%N.
Proof.
  intros Hb H64. induction ph as [|p ph IH] using rev_ind.
  { split; [apply N.le_0_l|]. intros p Hp. by apply elem_of_nil in Hp. }
  destruct IH as [IH1 IH2]; [intros q Hq; apply Hb, elem_of_app; by left|].
  unfold extent. rewrite foldl_snoc. fold (extent ph). destruct (is_load p) eqn:Hl.
  - assert (Hp : (p_vaddr p + p_memsz p ≤ bound)%N) by (apply Hb; [apply elem_of_app; right; by left|done]).
    unfold add64. rewrite (N.mod_small (p_vaddr p + p_memsz p)) by lia. cbn [fst snd].
    destruct (N.ltb_spec (p_vaddr p) (extent ph).1), (N.ltb_spec (extent ph).2 (p_vaddr p + p_memsz p)%N);
      (split; [lia|]); intros q [Hq| ->%list_elem_of_singleton]%elem_of_app Hlq; try (destruct (IH2 q Hq Hlq)); lia.
  - split; [done|]. intros q [Hq| ->%list_elem_of_singleton]%elem_of_app Hlq; [by apply IH2|congruence].
Qed.

(** where the segments of a list end at the latest *)
Lemma ascending_ok PG file lo ph p : ascending PG file lo ph → p ∈ ph → is_load p = true → segment_ok PG file p.
Proof.
  revert lo. induction ph as [|q ph IH]; intros lo Hasc Hp Hl; [by apply elem_of_nil in Hp|]. cbn [ascending] in Hasc.
  apply elem_of_cons in Hp as [->|Hp].
  - rewrite Hl in Hasc. apply Hasc.
  - destruct (is_load q); [destruct Hasc as (_ & _ & Hasc)|]; by eapply IH.
Qed.

Lemma ascending_from PG file lo lo' ph :
  ascending PG file lo ph → (∀ p, p ∈ ph → is_load p = true → (lo' ≤ first_page PG p)%N) → ascending PG file lo' ph.
Proof.
  revert lo. induction ph as [|q ph IH]; intros lo Hasc Hlo; [done|]. cbn [ascending] in *. destruct (is_load q) eqn:Hl.
  - destruct Hasc as (H1 & _ & H2). split_and!; [done|apply Hlo; [by left|done]|done].
  - eapply IH; [done|]. intros p Hp. apply Hlo. by right.
Qed.

Lemma map_loader_spec k PG file ph m base :
  page_size PG → ascending PG file 0 ph → (∃ p, p ∈ ph ∧ is_load p = true) → (∀ a, k_maps k a = true) →
  let lo := page_down PG (extent ph).1 in
  let hi := page_up PG (extent ph).2 in
  k_reserve k (hi - lo) = Some base → (lo ≤ base)%N → (base + hi < 2 ^ 64)%N →
  ∃ m', map_loader k PG file ph m = inl ((base - lo)%N, m') ∧
    (∀ p, p ∈ ph → is_load p = true → segment_loaded file (base - lo) p m') ∧
    ∀ a, ¬ (base ≤ a < base + (hi - lo))%N → m' a = m a.
Proof.
  intros HPG Hasc (q & Hq & Hlq) Hmaps lo hi Hres Hlo Hbase. pose proof (page_size_bounds PG HPG) as HB.
  destruct (extent_spec ph (2 ^ 64 - PG - 1)) as [Hhi Hspan]; [|lia|].
  { intros p Hp Hlp. destruct (ascending_ok PG file 0 ph p Hasc Hp Hlp) as (_ & _ & _ & _ & _ & ?). lia. }
  destruct (Hspan q Hq Hlq) as [Hql Hqh].
  assert (Hlohi : (lo ≤ hi)%N).
  { unfold lo, hi. destruct (page_down_spec PG (extent ph).1 HPG) as (_ & _ & ?).
    destruct (page_up_spec PG (extent ph).2 HPG) as (_ & ?); lia. }
  unfold map_loader. destruct (extent ph) as [l h] eqn:Ex. cbn [fst snd] in *. fold lo hi.
  rewrite (sub64_small hi lo), Hres, (sub64_small base lo) by lia.
  destruct (map_segments_load k PG file (base - lo) ph lo hi (map_anonymous m base (hi - lo) 0)) as (m' & -> & Hl & Hout); try done.
  - lia.
  - apply (ascending_from PG file 0); [done|]. intros p Hp Hlp. apply page_down_mono; [done|by apply Hspan].
  - intros p Hp Hlp. unfold end_page, hi. apply page_up_mono; [done|by apply Hspan|lia].
  - exists m'. split; [done|]. split; [done|]. intros a Ha. rewrite Hout by lia. unfold map_anonymous.
    by rewrite (proj2 (within_false _ _ _)) by lia.
Qed.

(** The stub maps the dynamic loader as its program headers say: every byte of every PT_LOAD is there,
    at its address plus one bias, with the protection of its flags; what the file has comes from the file and
    the rest (.bss) is zero; nothing outside the reserved range is touched. This holds for every loader whose
    segments come in ascending order on separate pages, with .bss only in writable ones. *)
Theorem map_loader_loads k PG file ph m base :
  page_size PG → ascending PG file 0 ph → (∃ p, p ∈ ph ∧ is_load p = true) → (∀ a, k_maps k a = true) →
  let lo := page_down PG (extent ph).1 in
  let hi := page_up PG (extent ph).2 in
  k_reserve k (hi - lo) = Some base → (lo ≤ base)%N → (base + hi < 2 ^ 64)%N →
  ∃ m', map_loader k PG file ph m = inl ((base - lo)%N, m') ∧
    (∀ p, p ∈ ph → is_load p = true → segment_loaded file (base - lo) p m') ∧
    ∀ a, ¬ (base ≤ a < base + (hi - lo))%N → m' a = m a.
Proof. apply map_loader_spec. Qed.

(** *** strings in memory *)

Definition string_in (m : mem) (addr : N) (s : str) : Prop :=
  chr_nul ∉ s ∧ load m addr (length s + 1) = Some (s ++ [chr_nul]).

Lemma string_in_loads m addr s n :
  string_in m addr s → length s < n →
  slen_loop m addr n = Some (length s) ∧ load m addr (length s) = Some s ∧ load1 m addr = Some (default chr_nul (head s)).
Proof.
  intros [Hnul Hload]. revert addr n Hload. induction s as [|c s IH]; intros addr n Hload Hn; (destruct n as [|n]; [cbn in Hn; lia|]).
  { cbn in Hload. destruct (load1 m addr) as [b|] eqn:E; [|done]. injection Hload as ->. cbn [slen_loop]. by rewrite E. }
  apply not_elem_of_cons in Hnul as [Hc Hnul]. cbn [length Nat.add load app] in Hload.
  destruct (load1 m addr) as [b|] eqn:E; [|done]. cbn [mbind option_bind] in Hload.
  destruct (load m (add64 addr 1) (length s + 1)) as [bs|] eqn:E2; [|done]. injection Hload as -> ->.
  destruct (IH Hnul (add64 addr 1) n E2) as (H1 & H2 & _); [cbn [length] in Hn; lia|].
  cbn [slen_loop load length]. rewrite E. cbn [mbind option_bind]. rewrite bool_decide_eq_false_2 by done.
  rewrite H1, H2. done.
Qed.

Lemma interp_path_relative k m execfn addr exe rel :
  k_exe k = Some exe → exe ≠ [] → length exe < kPathSize →
  string_in m addr rel → head rel ≠ Some "/"%char → length (dirname exe) + length rel < kPathSize →
  interp_path k m execfn addr = inl (dirname exe ++ rel).
Proof.
  intros He Hne Hlen Hrel Hhead Hfit. unfold interp_path, own_path. rewrite He. destruct exe as [|c exe]; [done|]. cbn [bind].
  destruct (string_in_loads m addr rel kPathSize Hrel) as (H1 & H2 & H3); [lia|]. unfold slen. rewrite H1, H3. cbn [touch bind].
  assert (default chr_nul (head rel) ≠ "/"%char) as Hf by (destruct rel as [|d rel]; [discriminate|intros E; apply Hhead; cbn in E |- *; by rewrite E]).
  rewrite (bool_decide_eq_false_2 (default chr_nul (head rel) = _)) by done.
  rewrite take_ge by lia. rewrite (proj2 (Nat.ltb_ge _ _)) by lia. by rewrite H2.
Qed.

(** *** flipping the program header *)

Lemma protect_ok m addr len prot :
  (∀ a, (addr ≤ a < addr + len)%N → is_Some (m a)) →
  ∃ m', protect m addr len prot = Some m' ∧
    (∀ a, (addr ≤ a < addr + len)%N → m' a = (λ c, Cell (c_byte c) prot) <$> m a) ∧
    (∀ a, ¬ (addr ≤ a < addr + len)%N → m' a = m a).
Proof.
  intros H. unfold protect. rewrite (proj2 (forallb_forall _ _)).
  - eexists. split; [done|]. split; intros a Ha; [by rewrite (proj2 (within_spec _ _ _))|by rewrite (proj2 (within_false _ _ _))].
  - intros a Ha%list_elem_of_In%addresses_elem. apply bool_decide_eq_true_2, H. lia.
Qed.

(** the pages of the program header *)
Definition header_pages (PG ph a : N) : Prop := (page_down PG ph ≤ a < page_up PG (ph + N.of_nat sizeof_Phdr))%N.

Lemma enable_interp_ok k PG m ph prot :
  page_size PG → k_protects k = true → (ph + N.of_nat sizeof_Phdr + PG < 2 ^ 64)%N →
  (∀ a, header_pages PG ph a → is_Some (m a)) →
  ∃ m', enable_interp k PG m ph prot = inl m' ∧
    (∀ i, (i < 4)%N → c_byte <$> m' (ph + i)%N = le_bytes 4 PT_INTERP !! N.to_nat i) ∧
    (∀ a, ¬ (ph ≤ a < ph + 4)%N → c_byte <$> m' a = c_byte <$> m a) ∧
    (∀ a, header_pages PG ph a → c_prot <$> m' a = Some prot) ∧
    (∀ a, ¬ header_pages PG ph a → m' a = m a).
Proof.
  unfold header_pages, sizeof_Phdr. intros HPG Hk H64 Hmapped. pose proof (page_size_bounds PG HPG) as HB.
  destruct (page_down_spec PG ph HPG) as (_ & _ & Hd). destruct (page_up_spec PG (ph + N.of_nat 56) HPG) as (_ & Hu); [lia|].
  unfold enable_interp, sizeof_Phdr. rewrite Hk.
  assert (E : add64 ph (N.of_nat 56) = (ph + N.of_nat 56)%N) by (unfold add64; apply N.mod_small; lia). rewrite E.
  set (lo := page_down PG ph) in *. set (hi := page_up PG (ph + N.of_nat 56)) in *. rewrite sub64_small by lia.
  destruct (protect_ok m lo (hi - lo) (N.lor prot PROT_WRITE)) as (m1 & -> & Hin1 & Hout1); [intros a Ha; apply Hmapped; lia|].
  destruct (fill_ok m1 ph 4 (λ i, default chr_nul (le_bytes 4 PT_INTERP !! N.to_nat i))) as (m2 & -> & Hin2 & Hout2).
  { intros a Ha. rewrite Hin1 by lia. destruct (Hmapped a) as [c ->]; [lia|]. eexists. split; [done|]. unfold may. cbn [c_prot].
    destruct (N.eqb_spec (N.land (N.lor prot PROT_WRITE) PROT_WRITE) 0) as [Hz|]; [|done].
    rewrite N.land_lor_distr_l, N.land_diag in Hz. apply N.lor_eq_0_iff in Hz as [_ Hz]. done. }
  cbn [touch bind].
  assert (H2 : ∀ a, (lo ≤ a < hi)%N → is_Some (m2 a)).
  { intros a Ha. assert (H1 : is_Some (m1 a)) by (rewrite Hin1 by lia; apply fmap_is_Some, Hmapped; lia).
    destruct (decide (ph ≤ a < ph + 4)%N); [rewrite Hin2 by done; by apply fmap_is_Some|by rewrite Hout2]. }
  destruct (protect_ok m2 lo (hi - lo) prot) as (m3 & -> & Hin3 & Hout3); [intros a Ha; apply H2; lia|].
  exists m3. split; [done|]. split_and!.
  - intros i Hi. rewrite Hin3, Hin2, Hin1 by lia. destruct (Hmapped (ph + i)%N) as [c ->]; [lia|]. cbn [fmap option_fmap option_map c_byte].
    replace (ph + i - ph)%N with i by lia. destruct (lookup_lt_is_Some_2 (le_bytes 4 PT_INTERP) (N.to_nat i)) as [b ->]; [|done].
    rewrite le_bytes_length. lia.
  - intros a Ha. destruct (decide (lo ≤ a < hi)%N).
    + rewrite Hin3, Hout2, Hin1 by lia. by destruct (m a).
    + rewrite Hout3, Hout2, Hout1 by lia. done.
  - intros a Ha. rewrite Hin3 by lia. by destruct (H2 a Ha) as [c ->].
  - intros a Ha. rewrite Hout3, Hout2, Hout1 by lia. done.
Qed.

(** *** the whole run *)

Section Run.
Context (k : kernel) (start : real_start) (stack : list N) (m : mem).
(** the auxiliary vector, our program headers, the disabled PT_INTERP and its string *)
Context (auxv : list (N * N)) (phs : list (N * Phdr)) (self_bias interp_ph : N) (ip : Phdr) (exe rel : str).
Definition PG_ : N := aux auxv AT_PAGESZ kPageSize.

Definition own_image_ok : Prop :=
  auxv_of stack = Some auxv ∧ has_key auxv AT_BASE = true ∧ has_key auxv AT_ENTRY = true ∧ page_size PG_ ∧
  aux auxv AT_PHDR 0 ≠ 0%N ∧ read_phdrs m (aux auxv AT_PHDR 0) (N.to_nat (aux auxv AT_PHNUM 0)) = Some phs ∧
  self_scan (aux auxv AT_PHDR 0) phs = (Some self_bias, Some (interp_ph, ip)) ∧
  (interp_ph + N.of_nat sizeof_Phdr + PG_ < 2 ^ 64)%N ∧ (∀ a, header_pages PG_ interp_ph a → is_Some (m a)).

(** the executable's path and the relative path of the loader fit the buffer *)
Definition path_ok : Prop :=
  k_exe k = Some exe ∧ exe ≠ [] ∧ length exe < kPathSize ∧
  string_in m (add64 self_bias (p_vaddr ip)) rel ∧ head rel ≠ Some "/"%char ∧ length (dirname exe) + length rel < kPathSize.

(** the loader's file and where the kernel puts it *)
Context (file hdr : str) (ph : list Phdr) (base : N).
Definition lo_ : N := page_down PG_ (extent ph).1.
Definition hi_ : N := page_up PG_ (extent ph).2.
Definition loader_maps : Prop :=
  read_header file = inl (hdr, ph) ∧
  ascending PG_ file 0 ph ∧ (∃ p, p ∈ ph ∧ is_load p = true) ∧ (∀ a, k_maps k a = true) ∧ k_protects k = true ∧
  k_reserve k (hi_ - lo_) = Some base ∧ (lo_ ≤ base)%N ∧ (base + hi_ < 2 ^ 64)%N ∧
  (∀ a, header_pages PG_ interp_ph a → ¬ (base ≤ a < base + (hi_ - lo_))%N).
Definition loader_ok : Prop := k_open k (dirname exe ++ rel) = Some file ∧ loader_maps.

Lemma reloc_main_run :
  own_image_ok → path_ok → loader_ok →
  ∃ m' entry, real_entry start (Some self_bias) = inl entry ∧
    reloc_main k start stack m =
      inl (add64 (base - lo_) (eh_entry hdr), m', map (patch (base - lo_) entry) auxv) ∧
    (∀ p, p ∈ ph → is_load p = true → segment_loaded file (base - lo_) p m') ∧
    (∀ i, (i < 4)%N → c_byte <$> m' (interp_ph + i)%N = le_bytes 4 PT_INTERP !! N.to_nat i) ∧
    (∀ a, ¬ (base ≤ a < base + (hi_ - lo_))%N → ¬ (interp_ph ≤ a < interp_ph + 4)%N → c_byte <$> m' a = c_byte <$> m a) ∧
    (∀ a, header_pages PG_ interp_ph a → c_prot <$> m' a = Some (phdr_prot phs (sub64 interp_ph self_bias))).
Proof.
  intros (Haux & Hkb & Hke & HPG & Hself & Hphs & Hscan & H64 & Hmapped) (He & Hne & Hlen & Hrel & Hhead & Hfit)
    (Hopen & Hhdr & Hasc & Hex & Hmaps & Hprot & Hres & Hlo & Hbase & Hdisj).
  destruct (map_loader_spec k PG_ file ph m base HPG Hasc Hex Hmaps) as (m1 & Hml & Hloads & Hout1); [done..|].
  fold lo_ hi_ in Hml, Hloads, Hout1.
  destruct (enable_interp_ok k PG_ m1 interp_ph (phdr_prot phs (sub64 interp_ph self_bias)) HPG Hprot H64)
    as (m2 & Hen & Htype & Hbytes & Hprots & Hout2).
  { intros a Ha. rewrite Hout1 by (by apply Hdisj). by apply Hmapped. }
  assert (Hstart : ∃ entry, real_entry start (Some self_bias) = inl entry) by (destruct start; by eexists).
  destruct Hstart as [entry Hentry]. exists m2, entry. split; [done|]. split; [|split_and!].
  - unfold reloc_main. rewrite Haux. cbn [touch bind]. fold PG_. rewrite (proj2 (N.eqb_neq _ _) Hself), Hphs. cbn [touch bind].
    rewrite Hscan. change (default 0%N (Some self_bias)) with self_bias. rewrite Hentry. cbn [bind].
    rewrite (interp_path_relative k m _ _ exe rel) by done. cbn [bind]. rewrite Hopen, Hhdr. cbn [bind snd]. rewrite Hml. cbn [bind snd fst].
    rewrite Hen. cbn [bind]. rewrite Hkb, Hke. done.
  - intros p Hp Hl. intros j Hj. destruct (Hloads p Hp Hl j Hj) as (b & Hb & Hm1). exists b. split; [done|]. rewrite Hout2; [done|].
    intros Ha. apply (Hdisj _ Ha). destruct (decide (base ≤ base - lo_ + p_vaddr p + j < base + (hi_ - lo_))%N) as [|Hno]; [done|].
    exfalso. apply Hno.
    destruct (extent_spec ph (2 ^ 64 - PG_ - 1)) as [Hhi Hspan]; [|lia|].
    { intros q Hq Hlq. destruct (ascending_ok PG_ file 0 ph q Hasc Hq Hlq) as (_ & _ & _ & _ & _ & ?). lia. }
    destruct (Hspan p Hp Hl) as [Hs1 Hs2]. pose proof (page_size_bounds PG_ HPG).
    destruct (page_down_spec PG_ (extent ph).1 HPG) as (_ & _ & Hd). destruct (page_up_spec PG_ (extent ph).2 HPG) as (_ & Hu); [lia|].
    fold lo_ in Hd. fold hi_ in Hu. lia.
  - done.
  - intros a Ha Hi. rewrite Hbytes by done. by rewrite Hout1.
  - done.
Qed.

(** C20. The stub does what the kernel would have done with a relative interpreter: it opens the loader
    next to the executable, maps it as its program headers say, and enters it at its entry point; of our own
    memory only the type of the disabled program header changes (to PT_INTERP), with the protection of its
    segment; and the loader finds the auxiliary vector as it was but for AT_BASE, which is where it is, and
    AT_ENTRY, which is the program's real start. *)
Theorem reloc_main_enters :
  own_image_ok → path_ok → loader_ok →
  ∃ m' entry, real_entry start (Some self_bias) = inl entry ∧
    reloc_main k start stack m =
      inl (add64 (base - lo_) (eh_entry hdr), m', map (patch (base - lo_) entry) auxv) ∧
    (∀ p, p ∈ ph → is_load p = true → segment_loaded file (base - lo_) p m') ∧
    (∀ i, (i < 4)%N → c_byte <$> m' (interp_ph + i)%N = le_bytes 4 PT_INTERP !! N.to_nat i) ∧
    (∀ a, ¬ (base ≤ a < base + (hi_ - lo_))%N → ¬ (interp_ph ≤ a < interp_ph + 4)%N → c_byte <$> m' a = c_byte <$> m a) ∧
    (∀ a, header_pages PG_ interp_ph a → c_prot <$> m' a = Some (phdr_prot phs (sub64 interp_ph self_bias))).
Proof. apply reloc_main_run. Qed.
End Run.

(** *** a program at 0x10000 whose loader lies next to it *)

Definition raw_phdr (p : Phdr) : str :=
  le_bytes 4 (p_type p) ++ le_bytes 4 (p_flags p) ++ le_bytes 8 (p_offset p) ++ le_bytes 8 (p_vaddr p) ++ le_bytes 8 0 ++
  le_bytes 8 (p_filesz p) ++ le_bytes 8 (p_memsz p) ++ le_bytes 8 0.
Definition own_disabled : Phdr := Phdr_ PT_NULL 4 232 232 6 6.
Definition own_image : str :=
  replicate 64 chr_nul ++ raw_phdr (Phdr_ PT_PHDR 4 64 64 168 168) ++ raw_phdr (Phdr_ PT_LOAD 5 0 0 4096 4096) ++
  raw_phdr own_disabled ++ lit "ld.so" ++ [chr_nul].
Definition own_mem : mem := λ a, if within a 65536 4096 then Some (Cell (default chr_nul (own_image !! N.to_nat (a - 65536))) 5) else None.
Definition own_auxv : list (N * N) := [(AT_PHDR, 65600); (AT_PHNUM, 3); (AT_PAGESZ, 4096); (AT_BASE, 0); (AT_ENTRY, 0)]%N.
Definition own_stack : list N := [1; 80000; 0; 0]%N ++ concat (map (λ e, [e.1; e.2]) own_auxv) ++ [0; 0]%N.
Definition own_phdrs : list (N * Phdr) :=
  [(65600, Phdr_ PT_PHDR 4 64 64 168 168); (65656, Phdr_ PT_LOAD 5 0 0 4096 4096); (65712, own_disabled)]%N.

(** four bytes of code behind the headers, and .bss *)
Definition loader_phdr : Phdr := Phdr_ PT_LOAD 6 0 0 124 200.
Definition loader_header : str :=
  replicate 24 chr_nul ++ le_bytes 8 120 ++ le_bytes 8 64 ++ replicate 16 chr_nul ++ le_bytes 2 1 ++ replicate 6 chr_nul ++
  raw_phdr loader_phdr ++ lit "code".
Definition sample_kernel : kernel :=
  Kernel (Some (lit "/opt/app/bin/tool")) (λ p, if p == lit "/opt/app/bin/ld.so" then Some loader_header else None)
    (λ _, Some 1048576%N) (λ _, true) true.

Lemma sample_page : page_size 4096.
Proof. exists 12%N. split; [done|reflexivity]. Qed.

Lemma sample_ascending : ascending 4096 loader_header 0 [loader_phdr].
Proof.
  cbn [ascending]. change (is_load loader_phdr) with true. cbn iota. split; [|split; [apply N.le_0_l|done]].
  unfold segment_ok. split_and!; vm_compute; (reflexivity || discriminate).
Qed.

Lemma sample_own_image : own_image_ok own_stack own_mem own_auxv own_phdrs 65536 65712 own_disabled.
Proof.
  unfold own_image_ok. split_and!; [vm_compute; reflexivity|vm_compute; reflexivity|vm_compute; reflexivity|apply sample_page|vm_compute; discriminate|
    vm_compute; reflexivity|vm_compute; reflexivity|vm_compute; reflexivity|].
  unfold header_pages, PG_. intros a. change (page_down _ 65712) with 65536%N. change (page_up _ _) with 69632%N. intros Ha.
  unfold own_mem. rewrite (proj2 (within_spec _ _ _)) by lia. by eexists.
Qed.

Lemma sample_loader_paths : path_ok sample_kernel own_mem 65536 own_disabled "/opt/app/bin/tool" "ld.so".
Proof.
  unfold path_ok, string_in. split_and!;
    [reflexivity|discriminate|apply Nat.ltb_lt; vm_compute; reflexivity|not_in|vm_compute; reflexivity|discriminate|
     apply Nat.ltb_lt; vm_compute; reflexivity].
Qed.

Lemma map_loader_loads_witness :
  ∃ m', map_loader sample_kernel 4096 loader_header [loader_phdr] own_mem = inl (1048576%N, m') ∧
    segment_loaded loader_header 1048576 loader_phdr m'.
Proof.
  destruct (map_loader_loads sample_kernel 4096 loader_header [loader_phdr] own_mem 1048576 sample_page sample_ascending)
    as (m' & Hm & Hl & _); [exists loader_phdr; split; [by left|reflexivity]|done|done|vm_compute; discriminate|vm_compute; reflexivity|].
  exists m'. split; [exact Hm|]. apply Hl; [by left|reflexivity].
Defined.

Lemma sample_loader :
  loader_ok sample_kernel own_auxv 65712 "/opt/app/bin/tool" "ld.so" loader_header loader_header [loader_phdr] 1048576.
Proof.
  unfold loader_ok, loader_maps. change (PG_ own_auxv) with 4096%N.
  split; [vm_compute; reflexivity|]. split; [vm_compute; reflexivity|]. split; [apply sample_ascending|].
  split; [exists loader_phdr; split; [by left|reflexivity]|]. split; [done|]. split; [done|]. split; [done|].
  split; [vm_compute; discriminate|]. split; [vm_compute; reflexivity|].
  unfold header_pages. intros a. change (page_down _ 65712) with 65536%N. change (page_up _ _) with 69632%N. lia.
Qed.

Definition sample_patched : list (N * N) :=
  [(AT_PHDR, 65600); (AT_PHNUM, 3); (AT_PAGESZ, 4096); (AT_BASE, 1048576); (AT_ENTRY, 66000)]%N.
Lemma sample_enters :
  ∃ m', reloc_main sample_kernel (Linked 66000) own_stack own_mem = inl (1048696%N, m', sample_patched).
Proof.
  destruct (reloc_main_run sample_kernel (Linked 66000) own_stack own_mem own_auxv own_phdrs 65536 65712 own_disabled
    "/opt/app/bin/tool" "ld.so" loader_header loader_header [loader_phdr] 1048576 sample_own_image sample_loader_paths sample_loader)
    as (m' & entry & Hentry & Hrun & _).
  exists m'. injection Hentry as <-. exact Hrun.
Qed.

Lemma reloc_main_enters_witness :
  ∃ m', reloc_main sample_kernel (Linked 66000) own_stack own_mem = inl (1048696%N, m', sample_patched).
Proof.
  destruct (reloc_main_enters sample_kernel (Linked 66000) own_stack own_mem own_auxv own_phdrs 65536 65712 own_disabled
    "/opt/app/bin/tool" "ld.so" loader_header loader_header [loader_phdr] 1048576 sample_own_image sample_loader_paths sample_loader)
    as (m' & entry & Hentry & Hrun & _).
  exists m'. injection Hentry as <-. exact Hrun.
Defined.
