(* ===== verification/InterpFlow.v ===== *)
(** * From reloc-fixup to the entry stub: a program that finds its loader wherever its tree goes

    [FixInterp] (elf_fixup.cc) disables PT_INTERP, stores the loader's path relative to the file and makes the
    stub the entry point; [reloc_main] (crt_interp.c) reads what is left of it from memory when the program
    runs. This file puts the two together, with the kernel's loading of the program in between: the bytes of
    the fixed file are what the stub sees. *)

From S2P Require Import Prelude Paths Base Store Image ElfFixup CrtInterp.

(** ** Fields of a structure that is stored again *)

Lemma field_at_set_same raw off size v :
  off + size ≤ length raw → (v < 256 ^ N.of_nat size)%N → field_at (set_field raw off size v) off size = v.
Proof.
  intros Hl Hv. unfold field_at, set_field. rewrite replace_substr by (rewrite ?le_bytes_length; lia).
  by apply le_val_bytes.
Qed.

Lemma field_at_set_other raw off size v off' size' :
  off + size ≤ length raw → off' + size' ≤ off ∨ off + size ≤ off' →
  field_at (set_field raw off size v) off' size' = field_at raw off' size'.
Proof.
  intros Hl Hd. unfold field_at, set_field. f_equal. apply substr_ext. intros i Hi.
  apply replace_outside; [done|apply le_bytes_length|]. unfold outside. lia.
Qed.

Lemma set_field_length raw off size v : off + size ≤ length raw → length (set_field raw off size v) = length raw.
Proof. intros H. apply replace_length; [done|apply le_bytes_length]. Qed.

Lemma Write_reads_back img off bytes :
  N.to_nat off + length bytes ≤ length img →
  substr (Write img off bytes) (N.to_nat off) (length bytes) = bytes.
Proof.
  intros H. unfold Write. destruct (Overwrite img off bytes) as [img'|] eqn:E.
  - apply Overwrite_Some in E as [_ ->]. cbn [default]. by apply replace_substr.
  - exfalso. unfold Overwrite in E. rewrite (proj2 (out_of_range_false _ _ _)) in E by done. done.
Qed.

(** ** What FixInterp leaves *)

(** the [i]-th program header of a table at [off] *)
Definition header_raw (img : image) (off : N) (i : nat) : str := substr img (N.to_nat off + i * 56) 56.
Fixpoint headers_from (img : image) (off n : nat) : list Phdr :=
  match n with
  | 0 => []
  | S n => phdr_of (substr img off 56) :: headers_from img (off + 56) n
  end.
Definition headers (img : image) (ehdr : str) : list Phdr :=
  headers_from img (N.to_nat (e_phoff ehdr)) (N.to_nat (e_phnum ehdr)).

Lemma headers_from_lookup img off n i :
  headers_from img off n !! i = if (i <? n)%nat then Some (phdr_of (substr img (off + i * 56) 56)) else None.
Proof.
  revert off i. induction n as [|n IH]; intros off i; [done|]. destruct i as [|i]; cbn [headers_from lookup list_lookup].
  - by rewrite Nat.add_0_r.
  - rewrite IH. change (S i <? S n)%nat with (i <? n)%nat. by replace (off + 56 + i * 56) with (off + S i * 56) by lia.
Qed.

Lemma headers_lookup img ehdr i : i < N.to_nat (e_phnum ehdr) →
  headers img ehdr !! i = Some (phdr_of (header_raw img (e_phoff ehdr) i)).
Proof. intros Hi. unfold headers. rewrite headers_from_lookup. by rewrite (proj2 (Nat.ltb_lt _ _)). Qed.

(** a program header whose type is overwritten *)
Definition disabled (p : Phdr) : Phdr := Phdr_ PT_NULL (p_flags p) (p_offset p) (p_vaddr p) (p_filesz p) (p_memsz p).

Lemma phdr_of_disabled raw : length raw = 56 → phdr_of (set_field raw 0 4 PT_NULL) = disabled (phdr_of raw).
Proof.
  intros Hl. unfold phdr_of, disabled. cbn [p_flags p_offset p_vaddr p_filesz p_memsz].
  rewrite field_at_set_same by (done || lia). rewrite !field_at_set_other by lia. done.
Qed.

Section Fixed.
Context (img : image) (ehdr : str) (entry : N) (k : nat) (text : str).

Abbreviation phoff := (N.to_nat (e_phoff ehdr)).
Abbreviation phnum := (N.to_nat (e_phnum ehdr)).
Definition interp_raw : str := header_raw img (e_phoff ehdr) k.
Abbreviation ioff := (ElfFixup.p_offset interp_raw).
Abbreviation isz := (ElfFixup.p_filesz interp_raw).

(** the tables are in the file, and PT_INTERP, of which there is one, has a slot of its own *)
Definition table_ok : Prop :=
  Read img 0 64 = Some ehdr ∧ e_phentsize ehdr = 56%N ∧ 64 ≤ phoff ∧ phoff + phnum * 56 ≤ length img ∧
  (N.of_nat (length img) < 2 ^ 64)%N.
Definition slot_ok : Prop :=
  k < phnum ∧ ElfFixup.p_type interp_raw = PT_INTERP ∧
  (∀ i, i < phnum → i ≠ k → ElfFixup.p_type (header_raw img (e_phoff ehdr) i) ≠ PT_INTERP) ∧
  N.to_nat ioff + N.to_nat isz ≤ length img ∧
  (phoff + phnum * 56 ≤ N.to_nat ioff ∨ (64 ≤ N.to_nat ioff ∧ N.to_nat ioff + N.to_nat isz ≤ phoff)).

Definition padded : str := text ++ replicate (N.to_nat isz - length text) chr_nul.
Definition with_text : image := replace img (N.to_nat ioff) (N.to_nat isz) padded.
Definition with_null : image :=
  Write with_text (e_phoff ehdr + N.of_nat k * 56)%N (set_field interp_raw 0 4 ElfFixup.PT_NULL).
Definition fixed : image := Write with_null 0 (set_field ehdr 24 8 entry).

Context (Htab : table_ok) (Hslot : slot_ok) (Htext : length text < N.to_nat isz).

Lemma padded_length : length padded = N.to_nat isz.
Proof using Htext. unfold padded. rewrite length_app, length_replicate. lia. Qed.

Lemma interp_raw_length : length interp_raw = 56.
Proof using Htab Hslot.
  clear Htext. destruct Htab as (_ & _ & _ & Hin & _), Hslot as (Hk & _). unfold interp_raw, header_raw, substr.
  rewrite length_take, length_drop. nia.
Qed.

Lemma ehdr_length : length ehdr = 64.
Proof using Htab.
  clear Htext Hslot. destruct Htab as (Hread & _ & Hlo & Hin & _). unfold Read in Hread. destruct (out_of_range _ _ _); [done|].
  injection Hread as <-. unfold substr. rewrite length_take, length_drop. lia.
Qed.

Lemma with_text_length : length with_text = length img.
Proof using Hslot Htext. destruct Hslot as (_ & _ & _ & Hin & _). apply replace_length; [done|apply padded_length]. Qed.

Lemma fixed_length : length fixed = length img.
Proof using Hslot Htext. unfold fixed, with_null. by rewrite !Write_length, with_text_length. Qed.

(** only three places change *)
Lemma fixed_outside i :
  outside (N.to_nat ioff) (N.to_nat isz) i → outside (phoff + k * 56) 56 i → outside 0 64 i → fixed !! i = img !! i.
Proof using Htab Hslot Htext.
  intros H1 H2 H3. unfold fixed, with_null, with_text. rewrite Write_outside.
  - rewrite Write_outside.
    + destruct Hslot as (_ & _ & _ & Hin & _). apply replace_outside; [done|apply padded_length|done].
    + rewrite set_field_length, interp_raw_length by (rewrite interp_raw_length; lia).
      unfold outside in *. lia.
  - rewrite set_field_length, ehdr_length by (rewrite ehdr_length; lia). exact H3.
Qed.

Lemma fixed_ehdr : Read fixed 0 64 = Some (set_field ehdr 24 8 entry).
Proof using Htab Hslot Htext.
  destruct Htab as (_ & _ & Hlo & Hin & _). unfold Read. rewrite (proj2 (out_of_range_false _ _ _)) by (rewrite fixed_length; lia).
  f_equal. pose proof (Write_reads_back with_null 0 (set_field ehdr 24 8 entry)) as H.
  rewrite set_field_length, ehdr_length in H by (rewrite ehdr_length; lia). apply H.
  unfold with_null. rewrite Write_length, with_text_length. lia.
Qed.

Lemma fixed_header i : i < phnum →
  header_raw fixed (e_phoff ehdr) i =
    if i =? k then set_field interp_raw 0 4 ElfFixup.PT_NULL else header_raw img (e_phoff ehdr) i.
Proof using Htab Hslot Htext.
  intros Hi. destruct Htab as (_ & _ & Hlo & Hin & _). pose proof Hslot as (Hk & _ & _ & Hs & Hd).
  unfold header_raw. destruct (Nat.eqb_spec i k) as [->|Hne].
  - etrans; [apply substr_ext; intros j Hj; apply Write_outside|].
    { rewrite set_field_length, ehdr_length by (rewrite ehdr_length; lia). unfold outside. lia. }
    pose proof (Write_reads_back with_text (e_phoff ehdr + N.of_nat k * 56) (set_field interp_raw 0 4 ElfFixup.PT_NULL)) as H.
    rewrite set_field_length, interp_raw_length in H by (rewrite interp_raw_length; lia).
    rewrite N2Nat.inj_add, N2Nat.inj_mul, Nat2N.id in H. apply H. rewrite with_text_length. nia.
  - apply substr_ext. intros j Hj. apply fixed_outside; unfold outside; nia.
Qed.

Lemma fixed_text : string_at fixed (N.to_nat ioff) text.
Proof using Htab Hslot Htext.
  destruct Htab as (_ & _ & Hlo & Hin & _). pose proof Hslot as (Hk & _ & _ & Hs & Hd).
  unfold string_at. etrans; [apply substr_ext; intros j Hj; apply Write_outside|].
  { rewrite set_field_length, ehdr_length by (rewrite ehdr_length; lia). unfold outside. lia. }
  etrans; [apply substr_ext; intros j Hj; apply Write_outside|].
  { rewrite set_field_length, interp_raw_length by (rewrite interp_raw_length; lia). unfold outside. nia. }
  pose proof (replace_substr img (N.to_nat ioff) (N.to_nat isz) padded Hs padded_length) as H.
  replace (substr with_text (N.to_nat ioff) (length text + 1)) with (take (length text + 1) padded).
  - unfold padded. rewrite take_app. rewrite take_ge by lia. f_equal.
    replace (length text + 1 - length text) with 1 by lia. by destruct (N.to_nat isz - length text) eqn:E; [lia|].
  - rewrite <-H. unfold substr, with_text. rewrite take_take. f_equal. lia.
Qed.
End Fixed.

(** *** the loop over the program headers *)

Lemma Read_header img ehdr i :
  e_phentsize ehdr = 56%N → N.to_nat (e_phoff ehdr) + N.to_nat (e_phnum ehdr) * 56 ≤ length img →
  (N.of_nat (length img) < 2 ^ 64)%N → i < N.to_nat (e_phnum ehdr) →
  add64 (e_phoff ehdr) (N.of_nat i * e_phentsize ehdr) = (e_phoff ehdr + N.of_nat i * 56)%N ∧
  Read img (e_phoff ehdr + N.of_nat i * 56) ElfFixup.sizeof_Phdr = Some (header_raw img (e_phoff ehdr) i).
Proof.
  intros Hent Hin H64 Hi. rewrite Hent. split; [unfold add64; apply N.mod_small; nia|].
  unfold Read, ElfFixup.sizeof_Phdr. rewrite (proj2 (out_of_range_false _ _ _)) by nia.
  unfold header_raw. do 2 f_equal. lia.
Qed.

Lemma interp_loop_skip st path ehdr stub i n fx :
  e_phentsize ehdr = 56%N → N.to_nat (e_phoff ehdr) + N.to_nat (e_phnum ehdr) * 56 ≤ length (fx_elf fx) →
  (N.of_nat (length (fx_elf fx)) < 2 ^ 64)%N → i + n ≤ N.to_nat (e_phnum ehdr) →
  (∀ j, i ≤ j < i + n → ElfFixup.p_type (header_raw (fx_elf fx) (e_phoff ehdr) j) ≠ PT_INTERP) →
  interp_loop st path ehdr stub i n fx = (true, fx).
Proof.
  intros Hent Hin H64. revert i. induction n as [|n IH]; intros i Hn Hno; [done|]. cbn [interp_loop].
  destruct (Read_header (fx_elf fx) ehdr i Hent Hin H64) as [-> ->]; [lia|].
  rewrite (proj2 (N.eqb_neq _ _)) by (apply Hno; lia). cbn [negb]. apply IH; [lia|]. intros j Hj. apply Hno. lia.
Qed.

Lemma interp_loop_reaches st path ehdr stub i j n fx :
  e_phentsize ehdr = 56%N → N.to_nat (e_phoff ehdr) + N.to_nat (e_phnum ehdr) * 56 ≤ length (fx_elf fx) →
  (N.of_nat (length (fx_elf fx)) < 2 ^ 64)%N → i + (j + n) ≤ N.to_nat (e_phnum ehdr) →
  (∀ l, i ≤ l < i + j → ElfFixup.p_type (header_raw (fx_elf fx) (e_phoff ehdr) l) ≠ PT_INTERP) →
  interp_loop st path ehdr stub i (j + n) fx = interp_loop st path ehdr stub (i + j) n fx.
Proof.
  intros Hent Hin H64. revert i. induction j as [|j IH]; intros i Hn Hno; [by rewrite Nat.add_0_r|]. cbn [Nat.add interp_loop].
  destruct (Read_header (fx_elf fx) ehdr i Hent Hin H64) as [-> ->]; [lia|].
  rewrite (proj2 (N.eqb_neq _ _)) by (apply Hno; lia). cbn [negb].
  rewrite IH; [f_equal; lia|lia|]. intros l Hl. apply Hno. lia.
Qed.

(** the text that is stored: the loader's path relative to the file's final directory *)
Definition interp_text (ctx : context) (path old : str) : str := RelativeTo (Final ctx (parent_path path)) old [].

Lemma FixInterp_fixes st path ehdr sections fx entry k :
  let img := fx_elf fx in
  let raw := interp_raw img ehdr k in
  let text := interp_text (fx_ctx fx) path (CString img (ElfFixup.p_offset raw)) in
  table_ok img ehdr → slot_ok img ehdr k → FindRelocStart img ehdr sections = Some (Some entry) →
  IsStorePath st (CString img (ElfFixup.p_offset raw)) = true → length text < N.to_nat (ElfFixup.p_filesz raw) →
  ∃ log, FixInterp st path ehdr sections fx = Some (true, FixState (fx_ctx fx) (fixed img ehdr entry k text) log true).
Proof.
  intros img raw text Htab Hslot Hfind Hstore Hfit. unfold FixInterp. fold img. rewrite Hfind. eexists. f_equal.
  pose proof Htab as (_ & Hent & _ & Hin & H64). pose proof Hslot as (Hk & Htype & Hothers & Hs & _).
  replace (N.to_nat (e_phnum ehdr)) with (k + S (N.to_nat (e_phnum ehdr) - S k)) at 1 by lia.
  rewrite interp_loop_reaches; [|done..|lia|intros l Hl; apply Hothers; lia]. cbn [Nat.add interp_loop]. fold img.
  destruct (Read_header img ehdr k Hent Hin H64 Hk) as [-> ->]. change (header_raw img (e_phoff ehdr) k) with raw.
  change ElfFixup.PT_INTERP with PT_INTERP. fold raw in Htype, Hs. rewrite (proj2 (N.eqb_eq _ _) Htype). cbn [negb]. rewrite Hstore. change (RelativeTo _ _ []) with text.
  assert (WritePadded img (ElfFixup.p_offset raw) (ElfFixup.p_filesz raw) text = Some (with_text img ehdr k text)) as ->
    by (apply WritePadded_Some; split_and!; [done..|]; reflexivity).
  match goal with |- context [Write (Write ?w ?o ?b) 0 ?e] => change (Write (Write w o b) 0 e) with (fixed img ehdr entry k text) end.
  rewrite interp_loop_skip; [reflexivity|done|..|lia|].
  - cbn [fx_elf]. by rewrite fixed_length.
  - cbn [fx_elf]. by rewrite fixed_length.
  - intros j Hj. cbn [fx_elf]. rewrite fixed_header by (done || lia). rewrite (proj2 (Nat.eqb_neq _ _)) by lia. apply Hothers; lia.
Qed.

(** ** Directories of absolute paths *)

Lemma abs_path_snoc cs name : abs_path (cs ++ [name]) = (chr_slash :: (if cs == [] then [] else unpieces "/" cs ++ "/")) ++ name.
Proof. unfold abs_path. by rewrite unpieces_last. Qed.

Lemma parent_path_abs cs name : Forall plain cs → plain name → parent_path (abs_path (cs ++ [name])) = abs_path cs.
Proof.
  intros Hcs [Hne Hname]. rewrite abs_path_snoc. set (r := chr_slash :: _).
  assert (filename (r ++ name) = name) as Hf.
  { unfold r. case_bool_decide; [by apply (filename_suffix [])|]. rewrite app_comm_cons, <-app_assoc.
    by apply (filename_suffix (chr_slash :: unpieces "/" cs)). }
  unfold parent_path. rewrite Hf, length_app, Nat.add_sub, take_app_length.
  unfold r. clear Hf r. destruct (decide (cs = [])) as [->|Hnil]; [done|]. rewrite (bool_decide_eq_false_2 (cs = [])) by done.
  rewrite app_comm_cons, rev_app_distr. change (chr_slash :: unpieces "/" cs) with (abs_path cs). 
  change (strip_slashes_rev (rev "/" ++ rev (abs_path cs))) with (strip_slashes_rev (rev (abs_path cs))).
  pose proof (abs_path_not_ends cs Hcs Hnil) as Hend.
  destruct (rev (abs_path cs)) as [|c l] eqn:E; [apply (f_equal (@length _)) in E; rewrite length_rev in E; done|].
  assert (abs_path cs = rev l ++ [c]) as Habs by (by rewrite <-(rev_involutive (abs_path cs)), E).
  rewrite Habs in Hend. change (lit "/") with [chr_slash] in Hend. rewrite ends_with_snoc in Hend. apply bool_decide_eq_false in Hend.
  cbn [strip_slashes_rev]. rewrite (bool_decide_eq_false_2 (c = chr_slash)) by congruence. cbn [rev]. rewrite <-Habs. by rewrite bool_decide_eq_false_2.
Qed.

Lemma dirname_slash a name : chr_slash ∉ name → dirname (a ++ chr_slash :: name) = a ++ [chr_slash].
Proof.
  intros Hname. unfold dirname. rewrite rev_app_distr. cbn [rev]. rewrite <-app_assoc.
  assert (chr_slash ∉ rev name) as Hrev by (by rewrite list_elem_of_In, <-in_rev, <-list_elem_of_In).
  induction (rev name) as [|c s IH]; cbn [app drop_while].
  - rewrite bool_decide_eq_true_2 by done. cbn [negb rev]. by rewrite rev_involutive.
  - apply not_elem_of_cons in Hrev as [Hc Hs]. rewrite bool_decide_eq_false_2 by (intros ->; by apply Hc). by apply IH.
Qed.

Lemma dirname_abs cs name rest :
  Forall plain cs → plain name → Forall plain rest → rest ≠ [] →
  dirname (abs_path (cs ++ [name])) ++ unpieces "/" rest = abs_path (cs ++ rest).
Proof.
  intros Hcs [Hne Hname] Hrest Hnil. rewrite abs_path_snoc. destruct (decide (cs = [])) as [->|Hc].
  - change (dirname _) with (dirname ([] ++ chr_slash :: name)). by rewrite dirname_slash.
  - rewrite bool_decide_eq_false_2 by done. rewrite app_comm_cons, <-app_assoc.
    change (dirname _) with (dirname ((chr_slash :: unpieces "/" cs) ++ chr_slash :: name)). rewrite dirname_slash by done.
    unfold abs_path. rewrite unpieces_app by done. by rewrite <-app_assoc.
Qed.

(** ** The file in memory *)

Lemma load_bytes m addr bytes :
  (addr + N.of_nat (length bytes) < 2 ^ 64)%N →
  (∀ i b, bytes !! i = Some b → load1 m (addr + N.of_nat i) = Some b) → load m addr (length bytes) = Some bytes.
Proof.
  revert addr. induction bytes as [|b bytes IH]; intros addr H64 Hb; [done|]. cbn [length] in H64. cbn [load length].
  pose proof (Hb 0 b eq_refl) as H0. rewrite N.add_0_r in H0. rewrite H0. cbn [mbind option_bind].
  rewrite add64_small by lia. rewrite IH; [done|lia|]. intros i c Hi.
  replace (addr + 1 + N.of_nat i)%N with (addr + N.of_nat (S i))%N by lia. by apply Hb.
Qed.

Definition readable (p : Phdr) : Prop := N.land (p_flags p) 4 ≠ 0%N.

Lemma may_read b p : readable p → may PROT_READ (Cell b (prot_of (p_flags p))) = true.
Proof.
  unfold readable, may, prot_of. cbn [c_prot]. intros H. rewrite (proj2 (N.eqb_neq _ _) H).
  destruct (N.land (p_flags p) 2 =? 0)%N, (N.land (p_flags p) 1 =? 0)%N; reflexivity.
Qed.

(** [n] bytes of the file at [off] lie in a readable segment, at the address [vaddr] *)
Definition in_segment (bias : N) (p : Phdr) (off : nat) (n : nat) (vaddr : N) : Prop :=
  readable p ∧ (p_filesz p ≤ p_memsz p)%N ∧ (bias + p_vaddr p + p_memsz p < 2 ^ 64)%N ∧
  (p_offset p ≤ N.of_nat off)%N ∧ (N.of_nat off + N.of_nat n ≤ p_offset p + p_filesz p)%N ∧
  vaddr = (p_vaddr p + (N.of_nat off - p_offset p))%N.

Lemma load_segment file bias p m off n vaddr :
  segment_loaded file bias p m → in_segment bias p off n vaddr → off + n ≤ length file →
  (bias + vaddr + N.of_nat n < 2 ^ 64)%N ∧ load m (bias + vaddr) n = Some (substr file off n).
Proof.
  intros Hload (Hr & Hsz & H64 & Hlo & Hhi & ->) Hfile. split; [lia|].
  assert (length (substr file off n) = n) as Hlen by (unfold substr; rewrite length_take, length_drop; lia).
  rewrite <-Hlen at 1. apply load_bytes; [lia|]. intros i b Hi. rewrite substr_lookup in Hi.
  destruct (Nat.ltb_spec i n) as [Hin|]; [|done].
  destruct (Hload (N.of_nat off - p_offset p + N.of_nat i)%N) as (b' & Hb' & Hm); [lia|].
  unfold segment_byte in Hb'. rewrite (proj2 (N.ltb_lt _ _)) in Hb' by lia.
  replace (N.to_nat (p_offset p + (N.of_nat off - p_offset p + N.of_nat i))) with (off + i) in Hb' by lia.
  assert (b' = b) as -> by congruence. unfold load1.
  replace (bias + (p_vaddr p + (N.of_nat off - p_offset p)) + N.of_nat i)%N
    with (bias + p_vaddr p + (N.of_nat off - p_offset p + N.of_nat i))%N by lia.
  rewrite Hm. cbn [mbind option_bind]. by rewrite may_read.
Qed.

(** the program headers at [base], as the stub sees them *)
Fixpoint placed (base : N) (phs : list Phdr) : list (N * Phdr) :=
  match phs with [] => [] | p :: phs => (base, p) :: placed (base + 56) phs end.

Lemma placed_lookup base phs i :
  placed base phs !! i = (λ p, ((base + N.of_nat i * 56)%N, p)) <$> phs !! i.
Proof.
  revert base i. induction phs as [|p phs IH]; intros base i; [done|]. destruct i as [|i]; cbn [placed lookup list_lookup].
  - by rewrite N.add_0_r.
  - rewrite IH. by replace (base + 56 + N.of_nat i * 56)%N with (base + N.of_nat (S i) * 56)%N by lia.
Qed.

Lemma load_app m addr n n' bs :
  (addr + N.of_nat (n + n') < 2 ^ 64)%N → load m addr (n + n') = Some bs →
  load m addr n = Some (take n bs) ∧ load m (addr + N.of_nat n) n' = Some (drop n bs).
Proof.
  revert addr bs. induction n as [|n IH]; intros addr bs H64 H; [by rewrite N.add_0_r, drop_0|].
  cbn [Nat.add load] in H |- *. destruct (load1 m addr) as [b|]; [|done]. cbn [mbind option_bind] in H |- *.
  rewrite add64_small in H |- * by lia.
  destruct (load m (addr + 1) (n + n')) as [bs'|] eqn:E; [|done]. injection H as <-.
  destruct (IH (addr + 1)%N bs') as [-> H2]; [lia|done|]. split; [done|].
  replace (addr + N.of_nat (S n))%N with (addr + 1 + N.of_nat n)%N by lia. done.
Qed.

Lemma read_phdrs_table m addr file off n :
  (addr + N.of_nat (n * 56) < 2 ^ 64)%N → off + n * 56 ≤ length file →
  load m addr (n * 56) = Some (substr file off (n * 56)) →
  read_phdrs m addr n = Some (placed addr (headers_from file off n)).
Proof.
  revert addr off. induction n as [|n IH]; intros addr off H64 Hfile H; [done|].
  replace (S n * 56) with (56 + n * 56) in * by lia. apply load_app in H as [H1 H2]; [|done].
  rewrite substr_app in H1, H2. assert (length (substr file off 56) = 56) as Hl by (unfold substr; rewrite length_take, length_drop; lia).
  rewrite take_app_le, take_ge in H1 by lia. rewrite drop_app_ge in H2 by lia. rewrite Hl, drop_0 in H2.
  cbn [read_phdrs headers_from placed]. unfold read_phdr, sizeof_Phdr. rewrite H1. cbn [fmap option_fmap option_map mbind option_bind].
  rewrite add64_small by lia. by rewrite (IH _ (off + 56)) by (done || lia).
Qed.

(** *** what the stub looks for *)

Definition is_phdr (p : Phdr) : bool := (p_type p =? PT_PHDR)%N.
Definition is_null (p : Phdr) : bool := ((p_type p =? PT_NULL) && (1 <? p_filesz p))%N.

Lemma self_scan_finds self_ph phs b e :
  (∀ x, x ∈ phs → is_phdr x.2 = true → sub64 self_ph (p_vaddr x.2) = b) →
  (∀ x, x ∈ phs → is_null x.2 = true → x = e) →
  self_scan self_ph phs =
    (if existsb (λ x, is_phdr x.2) phs then Some b else None, if existsb (λ x, is_null x.2) phs then Some e else None).
Proof.
  induction phs as [|x phs IH] using rev_ind; intros Hb He; [done|].
  unfold self_scan. rewrite foldl_app. fold (self_scan self_ph phs).
  rewrite IH; [|intros y Hy; apply Hb; set_solver|intros y Hy; apply He; set_solver]. clear IH.
  cbn [foldl fst snd]. rewrite !existsb_app. cbn [existsb]. rewrite !orb_false_r.
  fold (is_phdr x.2) (is_null x.2). specialize (Hb x). specialize (He x).
  destruct (is_phdr x.2), (is_null x.2); rewrite ?orb_true_r, ?orb_false_r; f_equal; rewrite ?Hb, ?He by (done || set_solver); done.
Qed.

(** ** What the kernel starts is what the stub reads *)

(** memory comes in whole pages *)
Definition paged (PG : N) (m : mem) : Prop :=
  ∀ a b, page_down PG a = page_down PG b → is_Some (m a) → is_Some (m b).

Lemma page_down_same PG a b : page_size PG → (page_down PG b ≤ a ≤ b)%N → page_down PG a = page_down PG b.
Proof.
  intros HPG Hab. pose proof (page_size_bounds PG HPG) as HB.
  destruct (page_down_spec PG a HPG) as (Ha1 & _ & Ha), (page_down_spec PG b HPG) as (Hb1 & _ & Hb).
  rewrite Ha1, Hb1 in *. f_equal. symmetry. apply (N.div_unique a PG (b / PG) (a - b / PG * PG)); nia.
Qed.

Lemma page_down_below PG x a : page_size PG → (x + PG < 2 ^ 64)%N → (a < page_up PG x)%N → (page_down PG a < x)%N.
Proof.
  intros HPG Hx Ha. pose proof (page_size_bounds PG HPG). destruct (page_up_spec PG x HPG Hx) as [E Hu].
  destruct (page_down_spec PG a HPG) as (Ed & _ & Hd). rewrite E in Ha, Hu. rewrite Ed in *. revert Ha Hu Hd.
  generalize (a / PG)%N, ((x + PG - 1) / PG)%N. intros q r Ha Hu Hd. assert (q < r)%N by nia. nia.
Qed.

(** what the kernel did with a file: its segments are in memory at [bias], and the auxiliary vector says where
    the program headers are *)
Definition started_ok (out : image) (ehdr : str) (bias va : N) (stack : list N) (auxv : list (N * N)) (m : mem) : Prop :=
  auxv_of stack = Some auxv ∧ has_key auxv AT_BASE = true ∧ has_key auxv AT_ENTRY = true ∧ page_size (PG_ auxv) ∧
  aux auxv AT_PHDR 0 = (bias + va)%N ∧ (bias + va ≠ 0)%N ∧ aux auxv AT_PHNUM 0 = e_phnum ehdr ∧
  (bias + va + e_phnum ehdr * 56 + PG_ auxv < 2 ^ 64)%N ∧ paged (PG_ auxv) m ∧
  (∀ p, p ∈ headers out ehdr → is_load p = true → segment_loaded out bias p m).

Section Started.
(** the image before and after, with the interpreter's program header at [k]; the load address *)
Context (img : image) (ehdr : str) (entry : N) (k : nat) (text : str) (bias va : N) (ip : Phdr).
Context (stack : list N) (auxv : list (N * N)) (m : mem).
Abbreviation hs := (headers img ehdr).
Abbreviation out := (fixed img ehdr entry k text).
Abbreviation phnum := (N.to_nat (e_phnum ehdr)).

(** what the linker made: PT_PHDR leads to the table; table and .interp lie in readable segments; no entry is
    disabled yet *)
Definition linked_ok : Prop :=
  hs !! k = Some ip ∧
  (∃ p, p ∈ hs ∧ is_phdr p = true) ∧ (∀ p, p ∈ hs → is_phdr p = true → p_vaddr p = va) ∧
  (∀ p, p ∈ hs → is_null p = false) ∧
  (∃ l, l ∈ hs ∧ is_load l = true ∧ in_segment bias l (N.to_nat (e_phoff ehdr)) (phnum * 56) va) ∧
  (∃ l, l ∈ hs ∧ is_load l = true ∧ in_segment bias l (N.to_nat (p_offset ip)) (N.to_nat (p_filesz ip)) (p_vaddr ip)).

Context (Htab : table_ok img ehdr) (Hslot : slot_ok img ehdr k).
Context (Htext : 0 < length text < N.to_nat (ElfFixup.p_filesz (interp_raw img ehdr k))) (Hnul : chr_nul ∉ text).
Context (Hlinked : linked_ok) (Hstarted : started_ok out ehdr bias va stack auxv m).

Lemma interp_is : phdr_of (interp_raw img ehdr k) = ip.
Proof using Hslot Hlinked.
  destruct Hslot as (Hk & _), Hlinked as (Hip & _). rewrite headers_lookup in Hip by done. by injection Hip.
Qed.

Lemma fixed_headers : headers out ehdr = <[k := disabled ip]> hs.
Proof using All.
  pose proof Hslot as (Hk & _). apply list_eq. intros i. destruct (decide (i < phnum)) as [Hi|Hi].
  - rewrite headers_lookup, fixed_header by (done || lia). destruct (Nat.eqb_spec i k) as [->|Hne].
    + rewrite list_lookup_insert_eq by (apply lookup_lt_is_Some; rewrite headers_lookup by done; done). f_equal.
      rewrite phdr_of_disabled by (by apply (interp_raw_length img ehdr k)). by rewrite interp_is.
    + rewrite list_lookup_insert_ne by done. by rewrite headers_lookup.
  - assert (∀ img', headers img' ehdr !! i = None) as Hno
      by (intros; unfold headers; rewrite headers_from_lookup; by rewrite (proj2 (Nat.ltb_ge _ _)) by lia).
    rewrite Hno. symmetry. destruct (decide (k = i)) as [->|]; [lia|]. by rewrite list_lookup_insert_ne.
Qed.

Lemma still_there p : p ∈ hs → p_type p ≠ PT_INTERP → p ∈ headers out ehdr.
Proof using All.
  intros (i & Hi)%list_elem_of_lookup Hp. rewrite fixed_headers. apply list_elem_of_lookup. exists i.
  rewrite list_lookup_insert_ne; [done|]. intros <-. destruct Hlinked as (Hip & _). rewrite Hip in Hi. injection Hi as <-.
  apply Hp. destruct Hslot as (_ & Ht & _). rewrite <-interp_is. exact Ht.
Qed.

Lemma stub_string : string_in m (add64 bias (p_vaddr ip)) text.
Proof using All.
  pose proof Hlinked as (_ & _ & _ & _ & _ & l & Hl & Hload & Hin). pose proof Hstarted as (_ & _ & _ & _ & _ & _ & _ & _ & _ & Hsegs).
  pose proof Hslot as (_ & _ & _ & Hs & _).
  assert (ElfFixup.p_offset (interp_raw img ehdr k) = p_offset ip ∧ ElfFixup.p_filesz (interp_raw img ehdr k) = p_filesz ip) as [Eo Es]
    by (rewrite <-interp_is; done).
  rewrite Eo, Es in Hs. pose proof Htext as Ht. rewrite Es in Ht.
  assert (p_type l ≠ PT_INTERP) as Hne by (unfold is_load in Hload; apply N.eqb_eq in Hload; by rewrite Hload).
  destruct (load_segment out bias l m _ _ _ (Hsegs l (still_there l Hl Hne) Hload) Hin) as [H64 Hb];
    [rewrite fixed_length by (rewrite ?Es; done || lia); done|].
  split; [done|]. rewrite add64_small by lia.
  replace (N.to_nat (p_filesz ip)) with (length text + 1 + (N.to_nat (p_filesz ip) - (length text + 1))) in Hb by lia.
  apply load_app in Hb as [Hb _]; [|lia]. rewrite Hb. f_equal.
  rewrite substr_app, take_app_le, take_ge by (unfold substr; rewrite !length_take, !length_drop, fixed_length; (rewrite ?Es; done || lia)).
  pose proof (fixed_text img ehdr entry k text Htab Hslot) as Hat. rewrite Eo, Es in Hat. apply Hat. lia.
Qed.

Abbreviation interp_at := (bias + va + N.of_nat k * 56)%N.

(** the table in memory *)
Lemma stub_table :
  (bias + va + N.of_nat (phnum * 56) < 2 ^ 64)%N ∧
  load m (bias + va) (phnum * 56) = Some (substr out (N.to_nat (e_phoff ehdr)) (phnum * 56)).
Proof using All.
  pose proof Hlinked as (_ & _ & _ & _ & (l & Hl & Hload & Hin) & _). pose proof Hstarted as (_ & _ & _ & _ & _ & _ & _ & _ & _ & Hsegs).
  assert (p_type l ≠ PT_INTERP) as Hne by (unfold is_load in Hload; apply N.eqb_eq in Hload; by rewrite Hload).
  apply (load_segment out bias l m _ _ _ (Hsegs l (still_there l Hl Hne) Hload) Hin).
  destruct Htab as (_ & _ & _ & H & _). rewrite fixed_length by (done || lia). done.
Qed.

Lemma stub_scan : self_scan (bias + va) (placed (bias + va) (headers out ehdr)) = (Some bias, Some (interp_at, disabled ip)).
Proof using All.
  pose proof Hlinked as (Hip & (p & Hp & Hph) & Hva & Hnull & _). pose proof stub_table as [H64 _].
  assert (ElfFixup.p_filesz (interp_raw img ehdr k) = p_filesz ip) as Es by (rewrite <-interp_is; done).
  assert (k < length hs) as Hk by (apply lookup_lt_is_Some; by rewrite Hip).
  assert (Hin : ∀ x, x ∈ placed (bias + va) (headers out ehdr) → (x = (interp_at, disabled ip)) ∨ x.2 ∈ hs).
  { intros x (i & Hi)%list_elem_of_lookup. rewrite placed_lookup, fixed_headers in Hi.
    destruct (decide (k = i)) as [<-|Hne]; [rewrite list_lookup_insert_eq in Hi by done; left; by injection Hi as <-|].
    rewrite list_lookup_insert_ne in Hi by done. destruct (hs !! i) as [q|] eqn:E; [|done]. injection Hi as <-. right.
    by eapply list_elem_of_lookup_2. }
  assert (Hbias : sub64 (bias + va) va = bias).
  { unfold sub64. replace (bias + va + 2 ^ 64 - va)%N with (bias + 1 * 2 ^ 64)%N by lia. rewrite N.Div0.mod_add.
    apply N.mod_small. lia. }
  rewrite (self_scan_finds _ _ bias (interp_at, disabled ip)).
  - rewrite (proj2 (existsb_exists _ _)), (proj2 (existsb_exists _ _)); [done|..].
    + exists (interp_at, disabled ip). split.
      * apply list_elem_of_In, list_elem_of_lookup. exists k. rewrite placed_lookup, fixed_headers.
        by rewrite list_lookup_insert_eq.
      * unfold is_null, disabled. cbn [snd p_type p_filesz]. apply N.ltb_lt. rewrite <-Es. lia.
    + assert (p ∈ headers out ehdr) as (i & Hi)%list_elem_of_lookup
        by (apply still_there; [done|]; unfold is_phdr in Hph; apply N.eqb_eq in Hph; by rewrite Hph).
      exists ((bias + va + N.of_nat i * 56)%N, p). split; [|done]. apply list_elem_of_In, list_elem_of_lookup.
      exists i. by rewrite placed_lookup, Hi.
  - intros x Hx Hb. destruct (Hin x Hx) as [->|Hold]; [done|]. by rewrite (Hva x.2 Hold Hb).
  - intros x Hx Hb. destruct (Hin x Hx) as [->|Hold]; [done|]. by rewrite (Hnull x.2 Hold) in Hb.
Qed.

Lemma stub_image : own_image_ok stack m auxv (placed (bias + va) (headers out ehdr)) bias interp_at (disabled ip).
Proof using All.
  pose proof Hstarted as (Haux & Hb & He & HPG & Hself & Hne & Hnum & H64 & Hpaged & _). pose proof stub_table as [_ Htable].
  pose proof Hslot as (Hk & _). unfold own_image_ok. rewrite Hself, Hnum. unfold sizeof_Phdr.
  do 5 (split; [done|]). split; [apply read_phdrs_table; [lia|destruct Htab as (_ & _ & _ & H & _); rewrite fixed_length by (done || lia); done|done]|].
  split; [apply stub_scan|]. split; [nia|]. unfold header_pages, sizeof_Phdr. intros a Ha.
  assert (Hmapped : ∀ b, (interp_at ≤ b < interp_at + 56)%N → is_Some (m b)).
  { intros b Hbr. replace (phnum * 56) with (N.to_nat (b - (bias + va)) + (1 + (phnum * 56 - 1 - N.to_nat (b - (bias + va))))) in Htable by nia.
    apply load_app in Htable as [_ Htable]; [|nia]. apply load_app in Htable as [Htable _]; [|nia].
    replace (bias + va + N.of_nat (N.to_nat (b - (bias + va))))%N with b in Htable by lia.
    cbn [load] in Htable. unfold load1 in Htable. destruct (m b); [done|]. done. }
  assert (interp_at + 56 + PG_ auxv < 2 ^ 64)%N as Hfits by nia. destruct (decide (a < interp_at)%N) as [Hlow|Hhigh].
  - apply (Hpaged interp_at); [|apply Hmapped; lia]. symmetry. apply page_down_same; [done|]. lia.
  - destruct (decide (a < interp_at + 56)%N) as [|Hbeyond]; [apply Hmapped; lia|].
    apply (Hpaged (interp_at + 55)%N); [|apply Hmapped; lia]. apply page_down_same; [done|].
    pose proof (page_down_below (PG_ auxv) (interp_at + 56) a HPG Hfits (proj2 Ha)). lia.
Qed.
End Started.

(** ** The paths *)

Lemma unpieces_elem c es : c ∈ unpieces "/" es → c = chr_slash ∨ ∃ e, e ∈ es ∧ c ∈ e.
Proof.
  induction es as [|e es IH]; [set_solver|]. destruct (decide (es = [])) as [->|Hne].
  - intros H. right. exists e. split; [by left|done].
  - rewrite unpieces_cons by done. change (lit "/") with [chr_slash]. rewrite !elem_of_app. intros [H|[H|H]]; [right; set_solver|left; set_solver|].
    destruct (IH H) as [?|(e' & ? & ?)]; [by left|right; set_solver].
Qed.

(** names without a NUL *)
Definition c_name (e : str) : Prop := good_name e ∧ chr_nul ∉ e.

Lemma rel_text_ok t d : Forall c_name t → t ≠ [] →
  let text := unpieces "/" (rel_elements d t) in
  chr_nul ∉ text ∧ 0 < length text ∧ head text ≠ Some "/"%char.
Proof.
  intros Ht Hne text.
  assert (Forall plain (rel_elements d t)) as Hplain
    by (apply rel_elements_plain; eapply Forall_impl; [exact Ht|]; intros e [He _]; auto with bytes).
  assert (rel_elements d t ≠ []) as Hnil by (unfold rel_elements; intros [_ ?]%app_eq_nil; done).
  split_and!.
  - intros [H|(e & He & H)]%unpieces_elem; [done|]. unfold rel_elements in He. apply elem_of_app in He as [He|He].
    + apply elem_of_replicate in He as [-> _]. change (lit "..") with ["."%char; "."%char] in H. set_solver.
    + rewrite list.Forall_forall in Ht. destruct (Ht e He) as [_ Hn]. done.
  - unfold text. destruct (rel_elements d t) as [|e es]; [done|]. destruct (unpieces_plain_head e es) as [r ->].
    apply Forall_cons in Hplain as [[He _] _]. destruct e; [done|]. cbn. lia.
  - unfold text. pose proof (unpieces_not_absolute _ Hplain) as Habs. unfold is_absolute in Habs.
    destruct (unpieces "/" (rel_elements d t)) as [|c s]; [done|]. cbn in Habs |- *. intros [= ->]. done.
Qed.

Lemma c_good es : Forall c_name es → Forall good_name es.
Proof. intros H. eapply Forall_impl; [exact H|]. by intros e [? _]. Qed.
Lemma c_plain es : Forall c_name es → Forall plain es.
Proof. intros H. eapply Forall_impl; [exact H|]. intros e [? _]. auto with bytes. Qed.

(** ** FixElf *)

(** two images with the same ELF header, program headers and interpreter *)
Definition same_program (img img' : image) (ehdr : str) (k : nat) : Prop :=
  length img' = length img ∧
  ∀ i, i < 64 ∨ N.to_nat (e_phoff ehdr) ≤ i < N.to_nat (e_phoff ehdr) + N.to_nat (e_phnum ehdr) * 56 ∨
       N.to_nat (ElfFixup.p_offset (interp_raw img ehdr k)) ≤ i
         < N.to_nat (ElfFixup.p_offset (interp_raw img ehdr k)) + N.to_nat (ElfFixup.p_filesz (interp_raw img ehdr k)) →
       img' !! i = img !! i.

Section Same.
Context (img img' : image) (ehdr : str) (k : nat).
Context (Hsame : same_program img img' ehdr k) (Htab : table_ok img ehdr) (Hslot : slot_ok img ehdr k).

Lemma same_header i : i < N.to_nat (e_phnum ehdr) →
  header_raw img' (e_phoff ehdr) i = header_raw img (e_phoff ehdr) i.
Proof using Hsame. intros Hi. apply substr_ext. intros j Hj. apply (proj2 Hsame). nia. Qed.

Lemma same_interp : interp_raw img' ehdr k = interp_raw img ehdr k.
Proof using Hsame Hslot. destruct Hslot as (Hk & _). by apply same_header. Qed.

Lemma same_headers : headers img' ehdr = headers img ehdr.
Proof using Hsame.
  apply list_eq. intros i. unfold headers. rewrite !headers_from_lookup. destruct (Nat.ltb_spec i (N.to_nat (e_phnum ehdr))); [|done].
  f_equal. f_equal. by apply same_header.
Qed.

Lemma same_table_ok : table_ok img' ehdr.
Proof using Hsame Htab.
  destruct Htab as (Hread & Hent & Hlo & Hin & H64). destruct Hsame as [Hlen Heq]. unfold table_ok. rewrite Hlen.
  split; [|done]. unfold Read in *. rewrite (proj2 (out_of_range_false _ _ _)) in Hread by lia.
  rewrite (proj2 (out_of_range_false _ _ _)) by lia. rewrite <-Hread. f_equal.
  apply substr_ext. intros i Hi. apply Heq. lia.
Qed.

Lemma same_slot_ok : slot_ok img' ehdr k.
Proof using Hsame Hslot.
  unfold slot_ok. rewrite same_interp. destruct Hslot as (Hk & Ht & Hothers & Hs & Hd). rewrite (proj1 Hsame). split_and!; try done.
  intros i Hi Hne. rewrite same_header by done. by apply Hothers.
Qed.

Lemma same_string text :
  length text < N.to_nat (ElfFixup.p_filesz (interp_raw img ehdr k)) →
  string_at img (N.to_nat (ElfFixup.p_offset (interp_raw img ehdr k))) text →
  string_at img' (N.to_nat (ElfFixup.p_offset (interp_raw img ehdr k))) text.
Proof using Hsame. intros Hl. apply string_at_ext. intros i Hi. apply (proj2 Hsame). lia. Qed.
End Same.

Lemma dirname_le path : length (dirname path) ≤ length path.
Proof.
  unfold dirname. rewrite length_rev, <-(length_rev path). induction (rev path) as [|c s IH]; [done|].
  cbn [drop_while]. destruct (_ != _); cbn [length]; lia.
Qed.

Lemma field_at_bound raw off size : (field_at raw off size < 256 ^ N.of_nat size)%N.
Proof.
  unfold field_at. eapply N.lt_le_trans; [apply le_val_bound|]. apply N.pow_le_mono_r; [done|]. unfold substr. rewrite length_take. lia.
Qed.

Lemma FindRelocStart_bound img ehdr sections entry :
  FindRelocStart img ehdr sections = Some (Some entry) → (entry < 256 ^ N.of_nat 8)%N.
Proof.
  assert (∀ f strtab step off end_sec e, reloc_start_loop f img strtab step off end_sec = Some e → (e < 256 ^ N.of_nat 8)%N) as Hloop.
  { induction f as [|f IH]; intros strtab step off end_sec e; cbn [reloc_start_loop]; [done|].
    destruct (_ <? _)%N; [|done]. destruct (Read _ _ _) as [sym|]; [|done].
    case_bool_decide; [intros [= <-]; apply field_at_bound|apply IH]. }
  unfold FindRelocStart, e_entry. intros H. repeat case_match; simplify_eq; try (by eapply Hloop); apply field_at_bound.
Qed.

Section Program.
(** a program in the build prefix, its loader in the store, and where both will be *)
Context (exists_ : str → bool) (st : store) (ctx : context) (shown : str).
Context (pre dst b p d t : list str) (name : str).
(** its image *)
Context (img : image) (ehdr : str) (entry : N) (k : nat).

Definition program_path : str := abs_path (pre ++ b ++ [name]).
Definition relative_loader : str := unpieces "/" (rel_elements d t).

Definition places_ok : Prop :=
  prefix ctx = abs_path pre ∧ dest ctx = abs_path dst ∧ dst ++ b = p ++ d ∧ diverge t d ∧ b ≠ [] ∧ t ≠ [] ∧
  starts_with (unpieces "/" b) ".." = false ∧ Forall c_name pre ∧ Forall c_name (dst ++ b) ∧ Forall c_name (p ++ t) ∧ c_name name ∧
  IsStorePath st (abs_path (p ++ t)) = true.

Abbreviation sections := (ReadSections img ehdr).
Abbreviation dyn := (ReadDynamic img sections).
Abbreviation raw := (interp_raw img ehdr k).

(** RUNPATH and library names are elsewhere *)
Definition runpath_apart : Prop := ∀ i,
  i < 64 ∨ N.to_nat (e_phoff ehdr) ≤ i < N.to_nat (e_phoff ehdr) + N.to_nat (e_phnum ehdr) * 56 ∨
    N.to_nat (ElfFixup.p_offset raw) ≤ i < N.to_nat (ElfFixup.p_offset raw) + N.to_nat (ElfFixup.p_filesz raw) →
  (∀ off, di_runpath_offset dyn = Some off → outside (N.to_nat off) (S (length (CString img off))) i) ∧
  Forall (λ w, outside w.1 w.2 i) (all_words (di_needed dyn)).

Definition image_ok : Prop :=
  IsElf64LittleEndian img = true ∧ (e_type ehdr = ET_EXEC ∨ e_type ehdr = ET_DYN) ∧ table_ok img ehdr ∧ slot_ok img ehdr k ∧
  string_at img (N.to_nat (ElfFixup.p_offset raw)) (abs_path (p ++ t)) ∧
  length (abs_path (p ++ t)) < N.to_nat (ElfFixup.p_filesz raw) ∧ length relative_loader < N.to_nat (ElfFixup.p_filesz raw) ∧
  runpath_apart.

(** the RUNPATH is dealt with, and there is a stub *)
Definition stub_found (fx : fix_state) : Prop :=
  FixRunpath exists_ st program_path sections (FixState ctx img [shown] false) = (true, fx) ∧
  FindRelocStart (fx_elf fx) ehdr sections = Some (Some entry).

Lemma interp_text_is ctx' : places_ok → same_places ctx ctx' →
  interp_text ctx' program_path (abs_path (p ++ t)) = relative_loader.
Proof.
  intros (Hpre & Hdst & Hat & Hdiv & Hb & Ht & Hdots & Hpn & Hdn & Htn & Hname & _) [Hp Hd]. unfold interp_text, program_path.
  pose proof Hdn as [Hdstn Hbn]%Forall_app. pose proof Htn as [Hpn' Htn']%Forall_app.
  assert (Forall c_name d) as Hdn' by (rewrite Hat in Hdn; by apply Forall_app in Hdn as [_ ?]).
  rewrite app_assoc, parent_path_abs; [|by apply c_plain, Forall_app|by destruct Hname; auto with bytes].
  unfold Final. rewrite Hp, Hd, Hpre, Hdst.
  rewrite move_below_names by (done || by apply c_good). rewrite Hat, RelativeTo_names by (done || by apply c_good).
  by rewrite (bool_decide_eq_false_2 (t = [])).
Qed.

Lemma FixElf_fixes fx : places_ok → image_ok → stub_found fx →
  same_program img (fx_elf fx) ehdr k ∧
  ∃ ctx' log, FixElf exists_ st ctx program_path shown img =
    Handled ctx' (Some (fixed (fx_elf fx) ehdr entry k relative_loader, log)).
Proof.
  intros Hplaces (Helf & Htype & Htab & Hslot & Hstr & Hfit & Hfit' & Hapart) (Hrun & Hfind).
  pose proof (FixRunpath_outside exists_ st program_path sections (FixState ctx img [shown] false)) as Hframe. cbv zeta in Hframe.
  pose proof (FixRunpath_places exists_ st program_path sections (FixState ctx img [shown] false)) as Hsp.
  rewrite Hrun in Hframe, Hsp. cbn [fx_elf fx_ctx snd] in Hframe, Hsp. destruct Hframe as (Hlen & _ & _ & Hout).
  assert (same_program img (fx_elf fx) ehdr k) as Hsame.
  { split; [done|]. intros i Hi. destruct (Hapart i Hi). by apply Hout. }
  split; [done|]. pose proof (same_interp _ _ _ _ Hsame Hslot) as Hraw.
  assert (CString (fx_elf fx) (ElfFixup.p_offset raw) = abs_path (p ++ t)) as Hold.
  { apply CString_string_at; [|by eapply same_string]. destruct Hplaces as (_ & _ & _ & _ & _ & _ & _ & _ & _ & Htn & _).
    unfold abs_path. intros [H|[H|(e & He & H)]%unpieces_elem]%elem_of_cons; [done..|].
    rewrite list.Forall_forall in Htn. by destruct (Htn e He). }
  destruct (FixInterp_fixes st program_path ehdr sections fx entry k) as [log Hfix].
  - by eapply same_table_ok.
  - by eapply same_slot_ok.
  - done.
  - rewrite Hraw, Hold. apply Hplaces.
  - rewrite Hraw, Hold, (interp_text_is _ Hplaces Hsp). done.
  - rewrite Hraw, Hold, (interp_text_is _ Hplaces Hsp) in Hfix. exists (fx_ctx fx), log.
    unfold FixElf. rewrite Helf. cbn [negb]. pose proof Htab as (Hread & _). unfold ElfFixup.sizeof_Ehdr. rewrite Hread.
    assert (((e_type ehdr =? ET_EXEC) || (e_type ehdr =? ET_DYN))%N = true) as ->
      by (apply orb_true_iff; rewrite !N.eqb_eq; exact Htype).
    cbn [negb]. rewrite Hrun. cbn [negb]. rewrite Hfix. reflexivity.
Qed.

(** C3. A program keeps its loader wherever its tree goes. reloc-fixup rewrites an executable whose interpreter
    is a store path: the file keeps its size, and its entry point becomes the stub. When the program and the
    loader are then copied to any other place, side by side as they were, and the program is started there, the
    stub finds its way from what reloc-fixup left in the file: it opens the loader at the new place, maps it as
    its program headers say, and enters it, with the program's real start in the auxiliary vector. *)
Theorem moved_program_finds_loader fx :
  places_ok → image_ok → stub_found fx →
  ∃ ctx' out log,
    FixElf exists_ st ctx program_path shown img = Handled ctx' (Some (out, log)) ∧ length out = length img ∧
    (∃ eh, Read out 0 64 = Some eh ∧ e_entry eh = entry) ∧
    ∀ kern files start stack auxv m bias va ip p' file hdr ph base,
      linked_ok img ehdr k bias va ip → started_ok out ehdr bias va stack auxv m →
      Forall c_name p' → k_exe kern = Some (abs_path (p' ++ d ++ [name])) →
      length (abs_path (p' ++ d ++ [name])) + length relative_loader < kPathSize →
      (∀ q, k_open kern q = files (lexically_normal q)) → files (abs_path (p' ++ t)) = Some file →
      loader_maps kern auxv (bias + va + N.of_nat k * 56) file hdr ph base →
      ∃ m' e, real_entry start (Some bias) = inl e ∧
        reloc_main kern start stack m =
          inl (add64 (base - lo_ auxv ph) (eh_entry hdr), m', map (patch (base - lo_ auxv ph) e) auxv) ∧
        (∀ q, q ∈ ph → is_load q = true → segment_loaded file (base - lo_ auxv ph) q m').
Proof.
  intros Hplaces Himage Hfound. destruct (FixElf_fixes fx Hplaces Himage Hfound) as (Hsame & ctx' & log & Hfix).
  exists ctx', (fixed (fx_elf fx) ehdr entry k relative_loader), log. split; [done|].
  pose proof Himage as (_ & _ & Htab & Hslot & _ & _ & Hfit & _).
  pose proof (same_table_ok _ _ _ _ Hsame Htab) as Htab'. pose proof (same_slot_ok _ _ _ _ Hsame Hslot) as Hslot'.
  pose proof (same_interp _ _ _ _ Hsame Hslot) as Hraw.
  pose proof Hplaces as (_ & _ & Hat & _ & _ & Hne & _ & _ & Hdn & Htn & Hname & _).
  pose proof Htn as [_ Htn']%Forall_app. destruct (rel_text_ok t d Htn' Hne) as (Hnul & Hpos & Hhead).
  fold relative_loader in Hnul, Hpos, Hhead.
  assert (Forall c_name d) as Hdn' by (rewrite Hat in Hdn; by apply Forall_app in Hdn as [_ ?]).
  split; [rewrite fixed_length by (rewrite ?Hraw; done); apply Hsame|]. split.
  { eexists. split; [apply fixed_ehdr; rewrite ?Hraw; done|]. unfold e_entry. apply field_at_set_same; [rewrite (ehdr_length _ _ Htab); lia|].
    eapply FindRelocStart_bound, Hfound. }
  intros kern files start stack auxv m bias va ip p' file hdr ph base Hlinked Hstarted Hp' Hexe Hlen Hopen Hfile Hmaps.
  assert (linked_ok (fx_elf fx) ehdr k bias va ip) as Hlinked' by (unfold linked_ok in *; by rewrite (same_headers _ _ _ _ Hsame)).
  assert (0 < length relative_loader < N.to_nat (ElfFixup.p_filesz (interp_raw (fx_elf fx) ehdr k))) as Hroom by (rewrite Hraw; done).
  pose proof (stub_image _ _ _ _ _ _ _ _ _ _ _ Htab' Hslot' Hroom Hnul Hlinked' Hstarted) as Hown.
  pose proof (stub_string _ _ _ _ _ _ _ _ _ _ _ Htab' Hslot' Hroom Hnul Hlinked' Hstarted) as Hstring.
  assert (Forall plain (rel_elements d t)) as Hrel by (by apply rel_elements_plain, c_plain).
  assert (rel_elements d t ≠ []) as Hrne by (unfold rel_elements; intros [_ ?]%app_eq_nil; done).
  assert (Forall plain (p' ++ d)) as Hpd by (by apply c_plain, Forall_app).
  assert (Hdir : dirname (abs_path (p' ++ d ++ [name])) ++ relative_loader = abs_path ((p' ++ d) ++ rel_elements d t)).
  { rewrite app_assoc. apply dirname_abs; [done|by destruct Hname; auto with bytes|done..]. }
  destruct (reloc_main_run kern start stack m auxv _ bias _ _ (abs_path (p' ++ d ++ [name])) relative_loader file hdr ph base Hown)
    as (m' & e & He & Hrun & Hsegs & _).
  - split_and!; [done|done|lia|done|done|].
    assert (length (dirname (abs_path (p' ++ d ++ [name]))) ≤ length (abs_path (p' ++ d ++ [name]))) by apply dirname_le. lia.
  - split; [|done]. rewrite Hopen, Hdir, <-path_append_abs by done.
    rewrite normal_of_relative by (done || by apply c_good). rewrite bool_decide_eq_false_2 by done. by rewrite app_nil_r.
  - exists m', e. done.
Qed.
End Program.

(** *** a program of one page, built in /build/out for /nix/store/a-app, run from /opt *)

Definition demo_interp : Phdr := Phdr_ PT_INTERP 4 232 232 40 40.
Definition demo_load : Phdr := Phdr_ PT_LOAD 5 0 0 300 300.
Definition demo_ehdr : str :=
  elf_magic ++ [byte_of 2; byte_of 1] ++ replicate 10 chr_nul ++ le_bytes 2 3 ++ replicate 6 chr_nul ++ le_bytes 8 288 ++
  le_bytes 8 64 ++ replicate 14 chr_nul ++ le_bytes 2 56 ++ le_bytes 2 3 ++ replicate 6 chr_nul.
Definition demo_img : image :=
  demo_ehdr ++ raw_phdr (Phdr_ PT_PHDR 4 64 64 168 168) ++ raw_phdr demo_interp ++ raw_phdr demo_load ++
  lit "/nix/store/g-glibc/lib/ld.so" ++ replicate 12 chr_nul ++ kRelocStubMagic ++ le_bytes 8 296 ++ replicate 12 "."%char.
Definition demo_ctx : context := Context_ "/build/out" "/nix/store/a-app" [] [] [] 0.
Definition demo_store : store := Store "/nix/store" false [] [] [] ∅.
Definition demo_pre : list str := [lit "build"; lit "out"].
Definition demo_d : list str := [lit "a-app"; lit "bin"].
Definition demo_t : list str := [lit "g-glibc"; lit "lib"; lit "ld.so"].
Definition demo_p : list str := [lit "nix"; lit "store"].
Definition demo_out : image := fixed demo_img demo_ehdr 288 1 (relative_loader demo_d demo_t).
Definition demo_mem : mem := λ a,
  if within a 65536 4096 then Some (Cell (default chr_nul (demo_out !! N.to_nat (a - 65536))) 5) else None.
Definition demo_files (q : str) : option str := if q == lit "/opt/g-glibc/lib/ld.so" then Some loader_header else None.
Definition demo_kernel : kernel :=
  Kernel (Some (lit "/opt/a-app/bin/tool")) (λ q, demo_files (lexically_normal q)) (λ _, Some 1048576%N) (λ _, true) true.
Definition demo_log : list str := [[]; lit "INTERP ../../g-glibc/lib/ld.so (PT_NULL, entry=__reloc_start)"].
Definition demo_fx : fix_state := FixState demo_ctx demo_img [[]] false.

Ltac c_names := repeat (apply Forall_cons; split; [split; [split_and!; [discriminate..|not_in]|not_in]|]); apply Forall_nil_2.

Lemma demo_places : places_ok demo_store demo_ctx demo_pre [lit "nix"; lit "store"; lit "a-app"] [lit "bin"] demo_p demo_d demo_t "tool".
Proof.
  unfold places_ok. split_and!; try reflexivity; try discriminate; try (vm_compute; discriminate); try c_names;
    repeat split; try discriminate; not_in.
Qed.

Lemma demo_image_ok : image_ok demo_p demo_d demo_t demo_img demo_ehdr 1.
Proof.
  unfold image_ok. split; [vm_compute; reflexivity|]. split; [right; vm_compute; reflexivity|].
  split; [unfold table_ok; split_and!; try (vm_compute; reflexivity); apply Nat.leb_le; vm_compute; reflexivity|].
  split; [|split_and!; try (apply Nat.ltb_lt; vm_compute; reflexivity); [vm_compute; reflexivity|]].
  - unfold slot_ok. split; [apply Nat.ltb_lt; vm_compute; reflexivity|]. split; [vm_compute; reflexivity|]. split.
    + intros i Hi. change (N.to_nat (e_phnum demo_ehdr)) with 3 in Hi. intros Hne.
      destruct i as [|[|[|i]]]; [vm_compute; discriminate|done|vm_compute; discriminate|lia].
    + split; [apply Nat.leb_le; vm_compute; reflexivity|]. left. apply Nat.leb_le. vm_compute. reflexivity.
  - intros i _. change (ReadDynamic demo_img (ReadSections demo_img demo_ehdr)) with (DynamicInfo [] 0 None). split; [done|constructor].
Qed.

Lemma demo_linked : linked_ok demo_img demo_ehdr 1 65536 64 demo_interp.
Proof.
  assert (headers demo_img demo_ehdr = [Phdr_ PT_PHDR 4 64 64 168 168; demo_interp; demo_load]) as E by (vm_compute; reflexivity).
  unfold linked_ok. rewrite E. split_and!; [done| |..].
  - eexists. split; [by left|done].
  - intros p [->|[->|[->|?%elem_of_nil]%elem_of_cons]%elem_of_cons]%elem_of_cons; try done.
  - intros p [->|[->|[->|?%elem_of_nil]%elem_of_cons]%elem_of_cons]%elem_of_cons; try done.
  - exists demo_load. split; [right; right; by left|]. split; [done|]. unfold in_segment, readable. split_and!; vm_compute; (reflexivity || discriminate).
  - exists demo_load. split; [right; right; by left|]. split; [done|]. unfold in_segment, readable. split_and!; vm_compute; (reflexivity || discriminate).
Qed.

Lemma demo_started : started_ok demo_out demo_ehdr 65536 64 own_stack own_auxv demo_mem.
Proof.
  unfold started_ok. split_and!; [vm_compute; reflexivity..|apply sample_page|vm_compute; reflexivity|vm_compute; discriminate|
    vm_compute; reflexivity|vm_compute; reflexivity| |].
  - intros a c Hac [x Hx]. unfold demo_mem in *. destruct (within a 65536 4096) eqn:Ea; [|done]. apply within_spec in Ea.
    rewrite (proj2 (within_spec _ _ _)); [by eexists|]. change (PG_ own_auxv) with 4096%N in Hac.
    destruct (page_down_spec 4096 a sample_page) as (Ha & _ & _), (page_down_spec 4096 c sample_page) as (Hc & _ & Hc').
    rewrite Ha, Hc in *. pose proof (N.div_le_mono 65536 a 4096 ltac:(done) ltac:(lia)) as H1.
    pose proof (N.Div0.div_lt_upper_bound a 4096 17 ltac:(lia)) as H2. change (65536 / 4096)%N with 16%N in H1. lia.
  - intros p Hp Hl. assert (headers demo_out demo_ehdr = [Phdr_ PT_PHDR 4 64 64 168 168; disabled demo_interp; demo_load]) as E by (vm_compute; reflexivity).
    rewrite E in Hp. apply elem_of_cons in Hp as [->|[->|[->|?%elem_of_nil]%elem_of_cons]%elem_of_cons]; [discriminate Hl|discriminate Hl| |done].
    assert (length demo_out = 300) as Hlen by (vm_compute; reflexivity). intros j Hj. unfold segment_byte. cbn [p_filesz p_memsz p_offset p_vaddr p_flags demo_load] in *.
    rewrite (proj2 (N.ltb_lt _ _) Hj), N.add_0_l. destruct (lookup_lt_is_Some_2 demo_out (N.to_nat j)) as [x Hx]; [lia|].
    exists x. split; [done|]. unfold demo_mem. rewrite (proj2 (within_spec _ _ _)) by lia. rewrite N.add_0_r.
    replace (65536 + j - 65536)%N with j by lia. exact (f_equal (λ o, Some (Cell (default chr_nul o) 5)) Hx).
Qed.

Lemma moved_program_finds_loader_witness :
  ∃ m', FixElf (λ _, false) demo_store demo_ctx "/build/out/bin/tool" [] demo_img = Handled demo_ctx (Some (demo_out, demo_log)) ∧
    reloc_main demo_kernel (Linked 66000) own_stack demo_mem =
      inl (1048696%N, m', [(AT_PHDR, 65600); (AT_PHNUM, 3); (AT_PAGESZ, 4096); (AT_BASE, 1048576); (AT_ENTRY, 66000)]%N).
Proof.
  assert (FixElf (λ _, false) demo_store demo_ctx "/build/out/bin/tool" [] demo_img = Handled demo_ctx (Some (demo_out, demo_log))) as Hfix
    by (vm_compute; reflexivity).
  destruct (moved_program_finds_loader (λ _, false) demo_store demo_ctx [] demo_pre [lit "nix"; lit "store"; lit "a-app"] [lit "bin"]
    demo_p demo_d demo_t "tool" demo_img demo_ehdr 288 1 demo_fx demo_places demo_image_ok) as (ctx' & out & log & Hfix' & _ & _ & Hrun).
  - split; vm_compute; reflexivity.
  - change (program_path demo_pre [lit "bin"] "tool") with (lit "/build/out/bin/tool") in Hfix'. rewrite Hfix in Hfix'. injection Hfix' as <- <- <-.
    destruct (Hrun demo_kernel demo_files (Linked 66000) own_stack own_auxv demo_mem 65536%N 64%N demo_interp [lit "opt"]
      loader_header loader_header [loader_phdr] 1048576%N demo_linked demo_started) as (m' & e & He & Hmain & _).
    + c_names.
    + reflexivity.
    + apply Nat.ltb_lt; vm_compute; reflexivity.
    + reflexivity.
    + vm_compute; reflexivity.
    + unfold loader_maps. change (PG_ own_auxv) with 4096%N. split; [vm_compute; reflexivity|]. split; [apply sample_ascending|].
      split; [exists loader_phdr; split; [by left|reflexivity]|]. split; [done|]. split; [done|]. split; [done|].
      split; [vm_compute; discriminate|]. split; [vm_compute; reflexivity|].
      unfold header_pages. intros a. change (65536 + 64 + N.of_nat 1 * 56)%N with 65656%N. change (page_down _ 65656) with 65536%N.
      change (page_up _ _) with 69632%N. lia.
    + exists m'. split; [exact Hfix|]. injection He as <-. exact Hmain.
Defined.
