(* ===== verification/EntryCode.v ===== *)
(** * The assembly of crt_interp.c: entry code and system calls (src/pkgs/cr/crt-interp/src)

    [__reloc_start] of the five architectures as lists of instructions over registers and 64-bit words of
    memory, the register bindings of [sys], and the header of the implanted stub. The compiled [reloc_main] is
    a parameter: a function on machine states that keeps what the procedure call standard says and computes
    what [CrtInterp.reloc_main] says. *)

From S2P Require Import Prelude Image ElfFixup CrtInterp.

Abbreviation reg := string.
Definition w64 (z : Z) : N := Z.to_N (z mod 2 ^ 64).

(** ** The machine *)

Record machine := Machine { regs : reg → N; words : N → N }.
(** LoongArch's [$zero] is no storage *)
Definition get (m : machine) (r : reg) : N := if (r =? "$zero")%string then 0%N else regs m r.
Definition put (r : reg) (v : N) (m : machine) : machine := Machine (λ x, if (x =? r)%string then v else regs m x) (words m).
Definition store_word (a v : N) (m : machine) : machine := Machine (regs m) (λ x, if (x =? a)%N then v else words m x).

(** the machine at a program's entry, in the order of the source *)
Inductive arch := X86_64 | Aarch64 | Riscv64 | Loongarch64 | Powerpc64.

Inductive ins :=
| Mov (d s : reg)                  (* mov, mv, move, mr, mtctr *)
| And_ (d s : reg) (imm : Z)       (* and, andi: the immediate is sign-extended *)
| Bstrins (d s : reg) (msb lsb : N)  (* bits msb..lsb of d become the low bits of s *)
| Clrrdi (d s : reg) (n : N)       (* s with its n low bits cleared *)
| Li (d : reg) (v : N)
| Xor32 (d s : reg)                (* 32 bits, the upper half becomes 0 *)
| Addis (d s : reg) (i : Z)
| Addi (d s : reg) (i : Z)
| Stdu (s : reg) (off : Z) (base : reg)  (* stores s at base+off, which base becomes *)
| Call                             (* call, bl: reloc_main *)
| Nop                              (* nop, bti *)
| Jmp (r : reg).                   (* jmp, br, jr, bctr *)

(** the halves of an offset the linker puts into [addis] and [addi] *)
Definition sext16 (z : Z) : Z := ((z + 2 ^ 15) mod 2 ^ 16 - 2 ^ 15)%Z.
Definition at_ha (off : Z) : Z := sext16 ((off + 2 ^ 15) / 2 ^ 16).
Definition at_l (off : Z) : Z := sext16 off.

(** [toc]: [.TOC.-__reloc_start] *)
Definition reloc_start (toc : Z) (a : arch) : list ins :=
  match a with
  | X86_64 => [Mov "r12" "rsp"; Mov "rdi" "rsp"; And_ "rsp" "rsp" (-16); Call; Mov "rsp" "r12"; Xor32 "rdx" "rdx"; Jmp "rax"]
  | Aarch64 => [Nop; Mov "x19" "sp"; Mov "x0" "sp"; And_ "sp" "x0" (-16); Call; Mov "sp" "x19"; Mov "x16" "x0"; Li "x0" 0; Jmp "x16"]
  | Riscv64 => [Mov "s1" "sp"; Mov "a0" "sp"; And_ "sp" "sp" (-16); Call; Mov "sp" "s1"; Mov "t0" "a0"; Li "a0" 0; Jmp "t0"]
  | Loongarch64 => [Mov "$s0" "$sp"; Mov "$a0" "$sp"; Bstrins "$sp" "$zero" 3 0; Call; Mov "$sp" "$s0"; Mov "$t0" "$a0";
                    Mov "$a0" "$zero"; Jmp "$t0"]
  | Powerpc64 => [Addis "2" "12" (at_ha toc); Addi "2" "2" (at_l toc); Mov "30" "1"; Mov "3" "1"; Clrrdi "1" "1" 4;
                  Stdu "1" (-32) "1"; Call; Nop; Mov "1" "30"; Mov "ctr" "3"; Mov "12" "3"; Li "3" 0; Jmp "ctr"]
  end.

(** the return address goes to the stack or into a register; [main] returns to it *)
Definition call (a : arch) (ret : N) (main : machine → machine) (m : machine) : machine :=
  match a with
  | X86_64 =>
      let sp := sub64 (get m "rsp") 8 in
      let m := main (store_word sp ret (put "rsp" sp m)) in
      put "rsp" (add64 (get m "rsp") 8) m
  | Aarch64 => main (put "x30" ret m)
  | Riscv64 => main (put "ra" ret m)
  | Loongarch64 => main (put "$ra" ret m)
  | Powerpc64 => main (put "lr" ret m)
  end.

Definition exec (a : arch) (ret : N) (main : machine → machine) (i : ins) (m : machine) : machine :=
  match i with
  | Mov d s => put d (get m s) m
  | And_ d s imm => put d (N.land (get m s) (w64 imm)) m
  | Bstrins d s msb lsb =>
      let mask := N.ones (msb - lsb + 1) in
      put d (N.lor (N.ldiff (get m d) (N.shiftl mask lsb)) (N.shiftl (N.land (get m s) mask) lsb)) m
  | Clrrdi d s n => put d (N.ldiff (get m s) (N.ones n)) m
  | Li d v => put d v m
  | Xor32 d s => put d (N.lxor (get m d mod 2 ^ 32) (get m s mod 2 ^ 32)) m
  | Addis d s i => put d (add64 (get m s) (w64 (i * 2 ^ 16))) m
  | Addi d s i => put d (add64 (get m s) (w64 i)) m
  | Stdu s off base =>
      let at_ := add64 (get m base) (w64 off) in
      put base at_ (store_word at_ (get m s) m)
  | Call => call a ret main m
  | Nop | Jmp _ => m
  end.

(** runs to the jump: where it goes, and the state there *)
Fixpoint run (a : arch) (ret : N) (main : machine → machine) (code : list ins) (m : machine) : option (N * machine) :=
  match code with
  | [] => None
  | Jmp r :: _ => Some (get m r, m)
  | i :: code => run a ret main code (exec a ret main i m)
  end.

(** ** The procedure call standards *)

Definition sp_reg (a : arch) : reg :=
  match a with X86_64 => "rsp" | Aarch64 | Riscv64 => "sp" | Loongarch64 => "$sp" | Powerpc64 => "1" end.
Definition arg_reg (a : arch) : reg :=
  match a with X86_64 => "rdi" | Aarch64 => "x0" | Riscv64 => "a0" | Loongarch64 => "$a0" | Powerpc64 => "3" end.
Definition result_reg (a : arch) : reg := match a with X86_64 => "rax" | a => arg_reg a end.
(** the callee-saved register the code puts the stack pointer into *)
Definition kept_reg (a : arch) : reg :=
  match a with X86_64 => "r12" | Aarch64 => "x19" | Riscv64 => "s1" | Loongarch64 => "$s0" | Powerpc64 => "30" end.
(** the register the entry code clears: the kernel leaves no [rtld_fini] there *)
Definition fini_reg (a : arch) : reg :=
  match a with X86_64 => "rdx" | Aarch64 => "x0" | Riscv64 => "a0" | Loongarch64 => "$a0" | Powerpc64 => "3" end.

(** words of memory at an address *)
Definition stack_at (m : machine) (sp : N) (stack : list N) : Prop :=
  ∀ i v, stack !! i = Some v → words m (sp + 8 * N.of_nat i)%N = v.

(** what a function may expect: the stack pointer, with a return address on x86, is a multiple of 16; on
    powerpc register 2 is the table of contents and the caller's frame holds the back chain *)
Definition callable (a : arch) (toc_base : N) (m : machine) : Prop :=
  ((get m (sp_reg a) + (if a is X86_64 then 8 else 0)) mod 16 = 0)%N ∧
  (a = Powerpc64 → get m "2" = toc_base ∧ (get m "1" + 32 ≤ words m (get m "1"))%N).

(** the initial stack with another auxiliary vector of the same length *)
Fixpoint pairs_onto (auxv : list (N * N)) (ws : list N) : list N :=
  match auxv, ws with
  | (k, v) :: auxv, _ :: _ :: ws => k :: v :: pairs_onto auxv ws
  | _, ws => ws
  end.
Fixpoint onto_auxv (auxv : list (N * N)) (ws : list N) : list N :=
  match ws with
  | [] => []
  | w :: ws => w :: (if (w =? 0)%N then pairs_onto auxv ws else onto_auxv auxv ws)
  end.
Definition with_auxv (stack : list N) (auxv : list (N * N)) : list N :=
  match stack with
  | [] => []
  | argc :: rest => argc :: take (N.to_nat argc + 1) rest ++ onto_auxv auxv (drop (N.to_nat argc + 1) rest)
  end.

(** the compiled [reloc_main], which returns [result] and writes [auxv] to the stack it was given *)
Definition compiled (a : arch) (toc_base : N) (stack : list N) (result : N) (auxv : list (N * N)) (main : machine → machine) : Prop :=
  ∀ m, callable a toc_base m → (get m (sp_reg a) ≤ get m (arg_reg a))%N → stack_at m (get m (arg_reg a)) stack →
    get (main m) (result_reg a) = result ∧ get (main m) (sp_reg a) = get m (sp_reg a) ∧
    get (main m) (kept_reg a) = get m (kept_reg a) ∧
    stack_at (main m) (get m (arg_reg a)) (with_auxv stack auxv).

(** ** System calls

    What the kernel makes of a number and six arguments; errors are the negatives of 1..4095. *)

Definition kernel_call : Type := N → list N → N.
Definition is_error (v : N) : bool := (w64 (-4095) <=? v)%N.

(** the register each parameter of [sys] is bound to: n, then a to f *)
Definition sys_registers (a : arch) : list reg :=
  match a with
  | X86_64 => ["rax"; "rdi"; "rsi"; "rdx"; "r10"; "r8"; "r9"]
  | Powerpc64 => ["0"; "3"; "4"; "5"; "6"; "7"; "8"]
  | Aarch64 => ["x8"; "x0"; "x1"; "x2"; "x3"; "x4"; "x5"]
  | Riscv64 => ["a7"; "a0"; "a1"; "a2"; "a3"; "a4"; "a5"]
  | Loongarch64 => ["$a7"; "$a0"; "$a1"; "$a2"; "$a3"; "$a4"; "$a5"]
  end.
Definition sys_result (a : arch) : reg :=
  match a with X86_64 => "rax" | Powerpc64 => "3" | Aarch64 => "x0" | Riscv64 => "a0" | Loongarch64 => "$a0" end.

(** where the kernel looks; powerpc's reports an error by the summary overflow bit, with the number positive *)
Definition kernel_registers (a : arch) : reg * list reg :=
  match a with
  | X86_64 => ("rax", ["rdi"; "rsi"; "rdx"; "r10"; "r8"; "r9"])
  | Aarch64 => ("x8", ["x0"; "x1"; "x2"; "x3"; "x4"; "x5"])
  | Riscv64 => ("a7", ["a0"; "a1"; "a2"; "a3"; "a4"; "a5"])
  | Loongarch64 => ("$a7", ["$a0"; "$a1"; "$a2"; "$a3"; "$a4"; "$a5"])
  | Powerpc64 => ("0", ["3"; "4"; "5"; "6"; "7"; "8"])
  end.
Definition trap (a : arch) (K : kernel_call) (m : machine) : machine * bool :=
  let v := K (get m (kernel_registers a).1) (get m <$> (kernel_registers a).2) in
  match a with
  | Powerpc64 => if is_error v then (put "3" (sub64 0 v) m, true) else (put "3" v m, false)
  | a => (put (sys_result a) v m, false)
  end.

Definition sys (a : arch) (K : kernel_call) (m : machine) (n : N) (args : list N) : N :=
  let '(m, so) := trap a K (foldr (λ b, put b.1 b.2) m (zip (sys_registers a) (n :: args))) in
  match a with
  | Powerpc64 => get (if so then put "3" (sub64 0 (get m "3")) m else m) "3"  (* bns+ 1f; neg *)
  | a => get m (sys_result a)
  end.

(** openat, close, write, pread64, readlinkat, mmap, mprotect, exit *)
Definition sys_numbers (a : arch) : list N :=
  match a with
  | X86_64 => [257; 3; 1; 17; 267; 9; 10; 60]%N
  | Powerpc64 => [286; 6; 4; 179; 296; 90; 125; 1]%N
  | _ => [56; 57; 64; 67; 78; 222; 226; 93]%N
  end.

(** ** The header of the implanted stub *)

Definition stub_header (entry : N) : str := lit "RELOCSTB" ++ le_bytes 8 entry.

(** ** Properties *)

(** *** arithmetic *)

Lemma w64_small (n : N) : (n < 2 ^ 64)%N → w64 (Z.of_N n) = n.
Proof. intros Hn. unfold w64. rewrite Z.mod_small by lia. lia. Qed.
Lemma add64_w64 x y : add64 (w64 x) (w64 y) = w64 (x + y).
Proof.
  unfold add64, w64. apply N2Z.inj. rewrite N2Z.inj_mod, N2Z.inj_add, !Z2N.id by (apply Z.mod_pos_bound; lia).
  change (Z.of_N (2 ^ 64)) with (2 ^ 64)%Z. by rewrite <-Z.add_mod by lia.
Qed.
Lemma sub64_sub64 v : (v < 2 ^ 64)%N → (0 < v)%N → sub64 0 (sub64 0 v) = v.
Proof.
  intros Hv H0. unfold sub64. rewrite (N.mod_small (0 + 2 ^ 64 - v)) by lia. rewrite N.mod_small by lia. lia.
Qed.

Lemma sub_32 s : (32 ≤ s < 2 ^ 64)%N → add64 s (w64 (-32)) = (s - 32)%N.
Proof.
  intros Hs. unfold add64. change (w64 (-32)) with (2 ^ 64 - 32)%N.
  replace (s + (2 ^ 64 - 32))%N with (s - 32 + 1 * 2 ^ 64)%N by lia. rewrite N.Div0.mod_add. apply N.mod_small. lia.
Qed.

(** the halves come together again *)
Lemma at_ha_l off : (- 2 ^ 31 ≤ off < 2 ^ 31 - 2 ^ 15)%Z → (at_ha off * 2 ^ 16 + at_l off = off)%Z.
Proof.
  intros Hoff. unfold at_ha, at_l, sext16.
  pose proof (Z.div_mod (off + 2 ^ 15) (2 ^ 16) ltac:(lia)) as Hdm. pose proof (Z.mod_pos_bound (off + 2 ^ 15) (2 ^ 16) ltac:(lia)) as Hm.
  revert Hdm Hm. generalize ((off + 2 ^ 15) / 2 ^ 16)%Z, ((off + 2 ^ 15) mod 2 ^ 16)%Z. intros q r Hdm Hm.
  rewrite (Z.mod_small (q + 2 ^ 15)) by lia. lia.
Qed.
Lemma toc_reached s off : (s < 2 ^ 64)%N → (- 2 ^ 31 ≤ off < 2 ^ 31 - 2 ^ 15)%Z →
  add64 (add64 s (w64 (at_ha off * 2 ^ 16))) (w64 (at_l off)) = w64 (Z.of_N s + off).
Proof.
  intros Hs Hoff. rewrite <-(w64_small s) at 1 by done. rewrite !add64_w64. f_equal.
  pose proof (at_ha_l off Hoff). lia.
Qed.

Definition align16 (sp : N) : N := (sp - sp mod 16)%N.
Lemma align16_spec sp : (align16 sp mod 16 = 0 ∧ align16 sp ≤ sp < align16 sp + 16)%N.
Proof.
  unfold align16. pose proof (N.div_mod sp 16 ltac:(lia)) as H. pose proof (N.mod_lt sp 16 ltac:(lia)) as H0.
  assert (sp - sp mod 16 = sp / 16 * 16)%N as -> by lia. rewrite N.Div0.mod_mul. split; [done |].
  revert H H0. generalize (sp / 16)%N, (sp mod 16)%N. lia.
Qed.
(** the three ways to clear the low four bits *)
Lemma clear_low sp : N.ldiff sp (N.ones 4) = align16 sp.
Proof.
  rewrite N.ldiff_ones_r, N.shiftl_mul_pow2, N.shiftr_div_pow2. change (2 ^ 4)%N with 16%N. unfold align16.
  pose proof (N.div_mod sp 16 ltac:(lia)) as H. revert H. generalize (sp / 16)%N, (sp mod 16)%N. lia.
Qed.
Lemma land_minus_16 sp : (sp < 2 ^ 64)%N → N.land sp (w64 (-16)) = align16 sp.
Proof.
  intros Hsp. rewrite <-clear_low. apply N.bits_inj. intros i. rewrite N.land_spec, N.ldiff_spec.
  change (w64 (-16)) with (N.shiftl (N.ones 60) 4). destruct (N.lt_ge_cases i 4) as [Hi | Hi].
  - rewrite N.shiftl_spec_low by done. by rewrite N.ones_spec_low by done.
  - rewrite N.shiftl_spec_high' by done. rewrite (N.ones_spec_high 4) by done. destruct (N.lt_ge_cases i 64) as [Hj | Hj].
    + by rewrite N.ones_spec_low by lia.
    + rewrite (N.bits_above_log2 sp); [done |]. destruct (N.eq_dec sp 0%N) as [-> | H0]; [change (N.log2 0) with 0%N; lia |].
      apply N.log2_lt_pow2; [lia |]. apply N.lt_le_trans with (2 ^ 64)%N; [done |]. by apply N.pow_le_mono_r.
Qed.
Lemma bstrins_zero sp : N.ldiff sp (N.shiftl (N.ones (3 - 0 + 1)) 0) = align16 sp.
Proof. change (3 - 0 + 1)%N with 4%N. by rewrite N.shiftl_0_r, clear_low. Qed.

(** *** system calls *)

(** On every architecture [sys] is the kernel's call with the six arguments in their order, an error negative. *)
Lemma sys_is_the_call a K m n x1 x2 x3 x4 x5 x6 : (∀ n args, K n args < 2 ^ 64)%N →
  sys a K m n [x1; x2; x3; x4; x5; x6] = K n [x1; x2; x3; x4; x5; x6].
Proof.
  intros HK. destruct a; try reflexivity.
  unfold sys, trap. cbv [sys_registers kernel_registers zip zip_with foldr fst snd fmap list_fmap].
  set (v := K _ _). replace (K n _) with v by reflexivity. pose proof (HK n [x1; x2; x3; x4; x5; x6]) as Hv.
  change (K n [x1; x2; x3; x4; x5; x6]) with v in Hv.
  destruct (is_error v) eqn:He; [| reflexivity].
  apply N.leb_le in He. apply sub64_sub64; [done |]. apply N.lt_le_trans with (w64 (-4095)); [reflexivity | done].
Qed.

(** *** the header *)

Lemma stub_header_found entry : length (stub_header entry) = N.to_nat kRelocStubHeader ∧ starts_with (stub_header entry) kRelocStubMagic.
Proof. split; [| reflexivity]. unfold stub_header. by rewrite length_app, le_bytes_length. Qed.

(** *** the initial stack *)

Lemma pairs_onto_pairs auxv ws ps : auxv_pairs ws = Some ps → map fst auxv = map fst ps →
  auxv_pairs (pairs_onto auxv ws) = Some auxv.
Proof.
  revert auxv ws. induction ps as [| [k v] ps IH]; intros auxv ws Hps Hk.
  - by destruct auxv; [destruct ws |].
  - destruct auxv as [| [k' v'] auxv]; [done |]. injection Hk as -> Hk.
    destruct ws as [| x [| y ws]]; cbn [auxv_pairs] in Hps; [done | by destruct (x =? AT_NULL)%N |].
    destruct (x =? AT_NULL)%N eqn:Hx; [done |].
    destruct (auxv_pairs ws) as [ps' |] eqn:Hws; [| done]. cbn in Hps. simplify_eq.
    cbn [pairs_onto auxv_pairs]. rewrite Hx, (IH auxv ws Hws Hk). done.
Qed.
Lemma with_auxv_auxv stack auxv auxv' : auxv_of stack = Some auxv → map fst auxv' = map fst auxv →
  auxv_of (with_auxv stack auxv') = Some auxv'.
Proof.
  destruct stack as [| argc rest]; [done |]. cbn [auxv_of with_auxv]. intros Hs Hk.
  set (n := N.to_nat argc + 1) in *.
  destruct (decide (n ≤ length rest)) as [Hn | Hn]; [| by rewrite drop_ge in Hs by lia].
  rewrite drop_app_length' by (rewrite length_take; lia). revert Hs. generalize (drop n rest). intros ws.
  induction ws as [| w ws IH]; [done |]. cbn [after_null onto_auxv]. destruct (w =? 0)%N; [| done].
  cbn [mbind option_bind]. intros Hs. by eapply pairs_onto_pairs.
Qed.

(** [reloc_main] keeps the kinds of the entries *)
Lemma reloc_main_keys k start stack m e m' auxv' : reloc_main k start stack m = inl (e, m', auxv') →
  ∃ auxv, auxv_of stack = Some auxv ∧ map fst auxv' = map fst auxv.
Proof.
  unfold reloc_main. destruct (auxv_of stack) as [auxv |]; [| done]. cbn [touch bind]. intros H. exists auxv. split; [done |].
  destruct (_ =? 0)%N; [done |]. destruct (read_phdrs _ _ _) as [phs |]; [| done]. cbn [touch bind] in H.
  destruct (self_scan _ _) as [bias [[iph ip] |]]; [| done].
  destruct (real_entry start bias) as [entry |]; [| done]. cbn [bind] in H.
  destruct (interp_path _ _ _ _) as [path |]; [| done]. cbn [bind] in H.
  destruct (k_open k path) as [file |]; [| done].
  destruct (read_header file) as [hdr |]; [| done]. cbn [bind] in H.
  destruct (map_loader _ _ _ _ _) as [loaded |]; [| done]. cbn [bind] in H.
  destruct (enable_interp _ _ _ _ _) as [m1 |]; [| done]. cbn [bind] in H.
  destruct (negb _); [done |]. injection H as _ _ <-. rewrite map_map. apply map_ext. intros [x y].
  unfold patch. cbn [fst]. by destruct (x =? AT_BASE)%N, (x =? AT_ENTRY)%N.
Qed.

(** *** the entry code *)

Section Entry.
Context (a : arch) (toc : Z) (toc_base ret : N) (main : machine → machine).
Context (stack : list N) (result : N) (auxv : list (N * N)) (sp : N) (m : machine).

(** the kernel started the program: the stack pointer is at argc, with room below; powerpc's ABI has the entry's
    own address in register 12 *)
Definition entered : Prop :=
  get m (sp_reg a) = sp ∧ (128 ≤ sp < 2 ^ 64)%N ∧ stack_at m sp stack ∧
  (a = Powerpc64 → (get m "12" < 2 ^ 64)%N ∧ (- 2 ^ 31 ≤ toc < 2 ^ 31 - 2 ^ 15)%Z ∧ toc_base = w64 (Z.of_N (get m "12") + toc)).

(** what the loader finds *)
Definition handed_over (m1 : machine) : Prop :=
  get m1 (sp_reg a) = sp ∧ get m1 (fini_reg a) = 0%N ∧ (a = Powerpc64 → get m1 "12" = result) ∧
  stack_at m1 sp (with_auxv stack auxv).

Lemma stack_at_store m' at_ v : (at_ < sp)%N → stack_at m' sp stack → stack_at (store_word at_ v m') sp stack.
Proof using. intros Hat HS i x Hi. cbn. rewrite (proj2 (N.eqb_neq _ _)) by lia. by apply HS. Qed.
Lemma stack_at_words m1 m2 l : words m1 = words m2 → stack_at m1 sp l → stack_at m2 sp l.
Proof using. intros E H i v Hi. rewrite <-E. by apply H. Qed.

(** what the entry code has set up when it calls [main] *)
Record ready (mc : machine) : Prop := Ready {
  ready_sp : (get mc (sp_reg a) mod 16 = 0 ∧ 32 ≤ get mc (sp_reg a) ≤ sp)%N;
  ready_arg : get mc (arg_reg a) = sp;
  ready_kept : get mc (kept_reg a) = sp;
  ready_stack : stack_at mc sp stack;
  ready_toc : a = Powerpc64 → get mc "2" = toc_base ∧ (get mc "1" + 32 ≤ words mc (get mc "1"))%N
}.
End Entry.

(** registers written and read *)
Lemma get_put_same r v m : (r =? "$zero")%string = false → get (put r v m) r = v.
Proof. intros Hr. unfold get, put. cbn [regs]. by rewrite Hr, String.eqb_refl. Qed.
Lemma get_put_other r r' v m : (r' =? r)%string = false → get (put r v m) r' = get m r'.
Proof. intros Hr. unfold get, put. cbn [regs]. by rewrite Hr. Qed.
Lemma get_store r at_ v m : get (store_word at_ v m) r = get m r.
Proof. done. Qed.
Lemma get_zero m : get m "$zero" = 0%N.
Proof. done. Qed.
(** what an instruction leaves in a register *)
Definition writes (i : ins) : option reg :=
  match i with
  | Mov d _ | And_ d _ _ | Bstrins d _ _ _ | Clrrdi d _ _ | Li d _ | Xor32 d _ | Addis d _ _ | Addi d _ _ | Stdu _ _ d => Some d
  | Call | Nop | Jmp _ => None
  end.
Lemma exec_other a ret main i m r : i ≠ Call →
  match writes i with Some d => (r =? d)%string = false | None => True end → get (exec a ret main i m) r = get m r.
Proof. destruct i; cbn [writes exec]; intros Hc Hr; try done; rewrite get_put_other by done; [done.. |]. apply get_store. Qed.
Lemma exec_words a ret main i m : i ≠ Call → (∀ s off base, i ≠ Stdu s off base) → words (exec a ret main i m) = words m.
Proof. intros Hc Hs. destruct i; try done. by destruct (Hs s off base). Qed.
Section Exec.
Context (a : arch) (ret : N) (main : machine → machine) (m : machine).
Lemma exec_stdu_def s off base : exec a ret main (Stdu s off base) m =
  put base (add64 (get m base) (w64 off)) (store_word (add64 (get m base) (w64 off)) (get m s) m).
Proof. done. Qed.
Lemma exec_call : exec a ret main Call m = call a ret main m.
Proof. done. Qed.
Lemma exec_mov d s : (d =? "$zero")%string = false → get (exec a ret main (Mov d s) m) d = get m s.
Proof. apply get_put_same. Qed.
Lemma exec_and d s imm : (d =? "$zero")%string = false → get (exec a ret main (And_ d s imm) m) d = N.land (get m s) (w64 imm).
Proof. apply get_put_same. Qed.
Lemma exec_bstrins d msb lsb : (d =? "$zero")%string = false →
  get (exec a ret main (Bstrins d "$zero" msb lsb) m) d = N.ldiff (get m d) (N.shiftl (N.ones (msb - lsb + 1)) lsb).
Proof. intros Hd. cbn [exec]. rewrite get_put_same, get_zero, N.land_0_l, N.shiftl_0_l, N.lor_0_r; done. Qed.
Lemma exec_clrrdi d s n : (d =? "$zero")%string = false → get (exec a ret main (Clrrdi d s n) m) d = N.ldiff (get m s) (N.ones n).
Proof. apply get_put_same. Qed.
Lemma exec_li d v : (d =? "$zero")%string = false → get (exec a ret main (Li d v) m) d = v.
Proof. apply get_put_same. Qed.
Lemma exec_xor d : (d =? "$zero")%string = false → get (exec a ret main (Xor32 d d) m) d = 0%N.
Proof. intros Hd. cbn [exec]. rewrite get_put_same by done. apply N.lxor_nilpotent. Qed.
Lemma exec_addis d s i : (d =? "$zero")%string = false → get (exec a ret main (Addis d s i) m) d = add64 (get m s) (w64 (i * 2 ^ 16)).
Proof. apply get_put_same. Qed.
Lemma exec_addi d s i : (d =? "$zero")%string = false → get (exec a ret main (Addi d s i) m) d = add64 (get m s) (w64 i).
Proof. apply get_put_same. Qed.
Lemma exec_stdu s off base : (base =? "$zero")%string = false → get (exec a ret main (Stdu s off base) m) base = add64 (get m base) (w64 off).
Proof. apply get_put_same. Qed.
Lemma exec_stdu_word s off base : words (exec a ret main (Stdu s off base) m) (add64 (get m base) (w64 off)) = get m s.
Proof. cbn. by rewrite N.eqb_refl. Qed.
End Exec.
#[local] Opaque get put store_word exec add64 sub64 w64 align16.

(** the value of a register behind a list of instructions *)
Ltac registers :=
  repeat first
    [ rewrite exec_other by (first [discriminate | reflexivity])
    | rewrite exec_mov by reflexivity | rewrite exec_and by reflexivity | rewrite exec_bstrins by reflexivity
    | rewrite exec_clrrdi by reflexivity | rewrite exec_li by reflexivity | rewrite exec_xor by reflexivity
    | rewrite exec_addis by reflexivity | rewrite exec_addi by reflexivity | rewrite exec_stdu by reflexivity
    | rewrite get_zero ].
Ltac registers_in H :=
  repeat first
    [ rewrite exec_other in H by (first [discriminate | reflexivity])
    | rewrite exec_mov in H by reflexivity | rewrite exec_and in H by reflexivity | rewrite exec_bstrins in H by reflexivity
    | rewrite exec_clrrdi in H by reflexivity | rewrite exec_li in H by reflexivity | rewrite exec_xor in H by reflexivity
    | rewrite exec_addis in H by reflexivity | rewrite exec_addi in H by reflexivity | rewrite exec_stdu in H by reflexivity
    | rewrite get_zero in H ].

Lemma stack_at_exec a ret main i m sp stack : i ≠ Call → (∀ s off base, i ≠ Stdu s off base) →
  stack_at m sp stack → stack_at (exec a ret main i m) sp stack.
Proof. intros Hc Hs. apply stack_at_words. by rewrite exec_words. Qed.

(** [main] is called as the procedure call standard asks, and the entry code has its values back *)
Lemma call_returns a toc_base ret main stack result auxv sp mc :
  compiled a toc_base stack result auxv main → ready a toc_base stack sp mc → (sp < 2 ^ 64)%N →
  let mr := exec a ret main Call mc in
  get mr (result_reg a) = result ∧ get mr (kept_reg a) = sp ∧ stack_at mr sp (with_auxv stack auxv).
Proof.
  intros Hmain [[Hal Hsp] Harg Hkept HS Htoc] Hlt mr.
  assert (∀ m', get m' (sp_reg a) = (if a is X86_64 then get mc (sp_reg a) - 8 else get mc (sp_reg a))%N →
    get m' (arg_reg a) = sp → get m' (kept_reg a) = sp → stack_at m' sp stack → (a = Powerpc64 → m' = put "lr" ret mc) →
    get (main m') (result_reg a) = result ∧ get (main m') (kept_reg a) = sp ∧ stack_at (main m') sp (with_auxv stack auxv)) as Hgo.
  { intros m' Hsp' Harg' Hkept' HS' Hm'. destruct (Hmain m') as (H1 & _ & H3 & H4).
    - split.
      + rewrite Hsp'. destruct a; rewrite ?N.add_0_r; [| done..]. by rewrite N.sub_add by lia.
      + intros ->. rewrite Hm' by done. rewrite !get_put_other by reflexivity. by apply Htoc.
    - rewrite Hsp', Harg'. destruct a; lia.
    - by rewrite Harg'.
    - rewrite Harg' in H4. by rewrite H3, Hkept'. }
  unfold mr. rewrite exec_call. destruct a; cbn [sp_reg arg_reg kept_reg result_reg call] in *.
  2-5: apply Hgo; rewrite ?get_put_other by reflexivity; done.
  rewrite !get_put_other by reflexivity.
  assert (sub64 (get mc "rsp") 8 = get mc "rsp" - 8)%N as E by (apply sub64_small; lia).
  rewrite E. apply Hgo.
  - by rewrite get_store, get_put_same.
  - by rewrite get_store, get_put_other.
  - by rewrite get_store, get_put_other.
  - apply stack_at_store; [lia | done].
  - done.
Qed.

(** powerpc's frame: the back chain below the aligned stack pointer *)
Lemma frame_pushed ret main m s sp : get m "1" = s → (s mod 16 = 0)%N → (48 ≤ s ≤ sp)%N → (sp < 2 ^ 64)%N →
  let m' := exec Powerpc64 ret main (Stdu "1" (-32) "1") m in
  get m' "1" = (s - 32)%N ∧ ((s - 32) mod 16 = 0)%N ∧ words m' (s - 32)%N = s ∧
  ∀ stack, stack_at m sp stack → stack_at m' sp stack.
Proof.
  intros Hs Hal Hlow Hlt m'.
  assert (add64 (get m "1") (w64 (-32)) = s - 32)%N as E.
  { rewrite Hs. apply sub_32; lia. }
  unfold m'. split_and!.
  - by rewrite exec_stdu.
  - apply N.Lcm0.mod_divide in Hal as [q Hq]. apply N.Lcm0.mod_divide. exists (q - 2)%N. lia.
  - rewrite <-E, exec_stdu_word. done.
  - intros stack HS. rewrite exec_stdu_def, E. apply stack_at_words with (store_word (s - 32) (get m "1") m); [done |].
    apply stack_at_store; [lia | done].
Qed.

Lemma run_entry a toc toc_base ret main stack result auxv sp m :
  compiled a toc_base stack result auxv main → entered a toc toc_base stack sp m →
  ∃ m1, run a ret main (reloc_start toc a) m = Some (result, m1) ∧ handed_over a stack result auxv sp m1.
Proof.
  intros Hmain (Hsp & Hrange & HS & Hppc). unfold handed_over.
  pose proof (align16_spec sp) as (Hal & Hle & Hlt).
  pose proof (land_minus_16 sp (proj2 Hrange)) as Hland. pose proof (bstrins_zero sp) as Hbs. pose proof (clear_low sp) as Hcl.
  destruct a; cbn [sp_reg fini_reg] in *; cbn [run reloc_start];
    match goal with |- context [exec ?a ret main Call ?x] =>
      set (mc := x);
      assert (ready a toc_base stack sp mc) as Hready;
      [ | destruct (call_returns a toc_base ret main stack result auxv sp mc Hmain Hready ltac:(lia)) as (Hres & Hkept & Hst);
          clearbody mc; cbn [result_reg arg_reg kept_reg] in *; eexists;
          split; [f_equal; registers; rewrite Hres; reflexivity |];
          registers; rewrite ?Hres, ?Hkept; split_and!; try done; repeat (apply stack_at_exec; [discriminate.. |]); done ]
    end.
  1-4: unfold mc; split; cbn [sp_reg arg_reg kept_reg]; registers; rewrite ?Hsp, ?Hland, ?Hbs;
    [split; [done | lia] | done | done | repeat (apply stack_at_exec; [discriminate.. |]); done | discriminate].
  destruct (Hppc eq_refl) as (H12 & Htoc & Hbase). unfold mc.
  match goal with |- context [exec _ _ _ (Stdu _ _ _) ?x] => set (mf := x) end.
  assert (get mf "1" = align16 sp) as Hf by (unfold mf; registers; by rewrite Hsp, Hcl).
  destruct (frame_pushed ret main mf _ sp Hf Hal ltac:(lia) (proj2 Hrange)) as (H1 & H1al & Hw & Hst).
  split; cbn [sp_reg arg_reg kept_reg].
  - rewrite H1. split; [done | lia].
  - unfold mf. registers. exact Hsp.
  - unfold mf. registers. exact Hsp.
  - apply Hst. unfold mf. repeat (apply stack_at_exec; [discriminate.. |]). done.
  - intros _. rewrite H1, Hw. split; [| lia]. unfold mf. registers. rewrite Hbase. by apply toc_reached.
Qed.

(** C21. The assembly hands a program over on all five architectures. Entered by the kernel with the stack pointer
    at argc, [__reloc_start] calls [reloc_main] as the procedure call standard asks (stack pointer aligned, the
    initial stack as the argument, powerpc's table of contents in place); when [reloc_main] finds the loader, the
    code jumps to the entry point it returned, with the stack pointer back at argc, no [rtld_fini], and a stack on
    which only the values of the auxiliary vector differ: it is the vector that [reloc_main] made, with the kinds
    of the entries as the kernel wrote them. *)
Theorem entry_starts_loader a toc toc_base ret main k start stack mm result mm' auxv sp m :
  reloc_main k start stack mm = inl (result, mm', auxv) → compiled a toc_base stack result auxv main →
  entered a toc toc_base stack sp m →
  ∃ m1, run a ret main (reloc_start toc a) m = Some (result, m1) ∧ handed_over a stack result auxv sp m1 ∧
    auxv_of (with_auxv stack auxv) = Some auxv ∧ ∃ before, auxv_of stack = Some before ∧ map fst auxv = map fst before.
Proof.
  intros Hrun Hmain Hstart. destruct (reloc_main_keys _ _ _ _ _ _ _ Hrun) as (before & Hbefore & Hkeys).
  destruct (run_entry a toc toc_base ret main stack result auxv sp m Hmain Hstart) as (m1 & Hm1 & Hover). exists m1. split; [exact Hm1 |].
  split; [exact Hover |]. split; [by eapply with_auxv_auxv | by exists before].
Qed.

(** *** a start on powerpc *)

(** a [reloc_main] that writes the stack of the sample and returns the loader's entry *)
Definition sample_main (stack : list N) (result : N) (m : machine) : machine :=
  Machine (λ r, if (r =? "3")%string then result else if (r =? "4")%string then 0%N else regs m r)
    (λ x, if within x (get m "3") (8 * N.of_nat (length stack))
          then default 0%N (stack !! N.to_nat ((x - get m "3") / 8)) else words m x).
Definition sample_start (stack : list N) (sp : N) : machine :=
  Machine (λ r, if (r =? "1")%string then sp else if (r =? "12")%string then 66000%N else 99%N)
    (λ x, default 0%N (stack !! N.to_nat ((x - sp) / 8))).

Lemma stack_index sp i : ((sp + 8 * N.of_nat i - sp) / 8)%N = N.of_nat i.
Proof. replace (sp + 8 * N.of_nat i - sp)%N with (N.of_nat i * 8)%N by lia. by rewrite N.div_mul. Qed.
Lemma with_auxv_length stack auxv : length (with_auxv stack auxv) = length stack.
Proof.
  destruct stack as [| argc rest]; [done |]. cbn [with_auxv length]. f_equal.
  rewrite <-(take_drop (N.to_nat argc + 1) rest) at 3. rewrite !length_app. f_equal.
  generalize (drop (N.to_nat argc + 1) rest). intros ws. induction ws as [| w ws IH]; [done |]. cbn [onto_auxv length]. f_equal.
  destruct (w =? 0)%N; [clear IH | done]. revert ws. induction auxv as [| [x y] auxv IH]; intros ws; [by destruct ws |].
  destruct ws as [| ? [| ? ws]]; [done.. |]. cbn [pairs_onto length]. by rewrite IH.
Qed.

Lemma sample_compiled toc_base stack result auxv :
  compiled Powerpc64 toc_base stack result auxv (sample_main (with_auxv stack auxv) result).
Proof.
  intros m _ _ _. Transparent get. split_and!; [done.. |].
  intros i v Hi. cbn [sample_main words arg_reg]. pose proof (lookup_lt_Some _ _ _ Hi) as Hlt.
  rewrite (proj2 (within_spec _ _ _)) by lia. by rewrite stack_index, Nat2N.id, Hi.
Qed.

Lemma entry_starts_loader_witness :
  ∃ m1, run Powerpc64 0 (sample_main (with_auxv own_stack sample_patched) 1048696)
      (reloc_start 32768 Powerpc64) (sample_start own_stack 140000) = Some (1048696%N, m1) ∧ get m1 "1" = 140000%N ∧ get m1 "12" = 1048696%N.
Proof.
  destruct sample_enters as [mm' Hrun].
  destruct (entry_starts_loader Powerpc64 32768 98768 0 _ _ _ _ _ _ _ _ 140000 (sample_start own_stack 140000) Hrun
    (sample_compiled 98768 own_stack _ _)) as (m1 & Hm1 & (Hsp & _ & H12 & _) & _).
  - split_and!; [reflexivity | done | done | |].
    + intros i v Hi. cbn [sample_start words]. by rewrite stack_index, Nat2N.id, Hi.
    + intros _. split_and!; [reflexivity | lia | lia | reflexivity].
  - exists m1. split; [exact Hm1 |]. split; [exact Hsp | by apply H12].
Defined.
