(* ===== verification/Reloc.v ===== *)
(** * reloc.h, reloc_self_linux.h: compiled-in directories that follow the file they are compiled into

    [reloc_self] finds the file an address is mapped from in /proc/self/maps; [reloc_dir] keeps its directory,
    [reloc_path] the strings it has made. The text of /proc/self/maps is a parameter; whether [malloc] succeeds
    is one per call. Strings are read through their addresses, which is what the table holds. *)

From S2P Require Import Prelude Paths Base CrtInterp InterpFlow.

(** ** reloc_self (Linux) *)

(** [char line[4096 + 128]] *)
Definition kLineSize : nat := 4096 + 128.
Definition kPathMax : nat := 4096.

(** [fgets]: a line with its newline, or as much of it as fits *)
Definition fgets (size : nat) (text : str) : option (str * str) :=
  if text == [] then None
  else
    let whole := match find_chr chr_nl text 0 with Some i => S i | None => length text end in
    let n := Nat.min (size - 1) whole in
    Some (take n text, drop n text).

(** a C string ends at its NUL *)
Definition c_str (s : str) : str := match find_chr chr_nul s 0 with Some i => take i s | None => s end.

Fixpoint hex_span (s : str) : str * str :=
  match s with
  | c :: s' => if is_digit 16 c then let '(ds, rest) := hex_span s' in (c :: ds, rest) else ([], s)
  | [] => ([], [])
  end.

(** [%lx]: blanks, a sign, 0x, digits; out of range it is ULONG_MAX *)
Definition scan_lx (s : str) : option (N * str) :=
  let s := drop_while is_space s in
  let '(negative, s) :=
    match s with
    | c :: s' => if c == "-"%char then (true, s') else if c == "+"%char then (false, s') else (false, s)
    | [] => (false, s)
    end in
  let s := match s with
           | z :: x :: s' => if (z == "0"%char) && ((x == "x"%char) || (x == "X"%char)) then s' else s
           | _ => s
           end in
  let '(ds, rest) := hex_span s in
  if ds == [] then None
  else
    let v := N.min (default 0%N (digits_val 16 0 ds)) (2 ^ 64 - 1) in
    Some (if (negative : bool) then ((2 ^ 64 - v) mod 2 ^ 64)%N else v, rest).

(** [sscanf(line, "%lx-%lx", &lo, &hi) == 2] *)
Definition scan_range (line : str) : option (N * N) :=
  '(lo, rest) ← scan_lx line;
  match rest with
  | c :: rest => if c == "-"%char then '(hi, _) ← scan_lx rest; Some (lo, hi) else None
  | [] => None
  end.

(** what one line says of the address: the path to copy *)
Definition maps_line_path (self : N) (line : str) : option str :=
  let line := c_str line in
  match scan_range line, find_chr "/"%char line 0 with
  | Some (lo, hi), Some i =>
      if ((lo <=? self) && (self <? hi))%N then
        let path := drop i line in
        Some (match find_chr chr_nl path 0 with Some j => take j path | None => path end)
      else None
  | _, _ => None
  end.

Fixpoint reloc_self_loop (fuel : nat) (self : N) (maps : str) : option str :=
  match fuel with
  | 0 => None
  | S fuel =>
      match fgets kLineSize maps with
      | None => None
      | Some (line, maps) =>
          match maps_line_path self line with Some path => Some path | None => reloc_self_loop fuel self maps end
      end
  end.

(** what is in the buffer afterwards; it was empty. [maps]: nothing if /proc/self/maps cannot be opened *)
Definition reloc_self (self : N) (maps : option str) (n : nat) : str :=
  match maps with
  | None => []
  | Some text => match reloc_self_loop (S (length text)) self text with Some path => take (n - 1) path | None => [] end
  end.

(** ** reloc_dir, reloc_path *)

(** the static variables, and the strings [malloc] gave: a string's address is its number *)
Record statics := Statics { s_dir : str; s_seen : list (nat * nat); s_heap : list str }.
Definition no_statics : statics := Statics [] [] [].

Definition reloc_dir (self : N) (maps : option str) (dir : str) : str :=
  if dir != [] then dir
  else
    let dir := reloc_self self maps kPathMax in
    match rfind "/" dir with Some i => take (S i) dir | None => dir end.

(** the argument itself, or a string of our own *)
Inductive answer := Given (rel : nat) | Made (abs : nat).

Definition kSeen : nat := 32.

(** [mem]: the string at an address *)
Fixpoint find_seen (mem : nat → str) (rel : nat) (seen : list (nat * nat)) : option nat :=
  match seen with
  | [] => None
  | (r, abs) :: seen => if (r =? rel)%nat || (mem r == mem rel) then Some abs else find_seen mem rel seen
  end.

Definition reloc_path (self : N) (maps : option str) (mem : nat → str) (malloc_ok : bool) (rel : nat) (s : statics) : answer * statics :=
  match find_seen mem rel (s_seen s) with
  | Some abs => (Made abs, s)
  | None =>
      let dir := reloc_dir self maps (s_dir s) in
      if malloc_ok then
        let abs := length (s_heap s) in
        (Made abs, Statics dir (if (length (s_seen s) <? kSeen)%nat then s_seen s ++ [(rel, abs)] else s_seen s)
                     (s_heap s ++ [dir ++ mem rel]))
      else (Given rel, Statics dir (s_seen s) (s_heap s))
  end.

(** the calls of a program, one after the other *)
Fixpoint reloc_calls (self : N) (maps : option str) (mem : nat → str) (calls : list (bool * nat)) (s : statics)
  : list answer * statics :=
  match calls with
  | [] => ([], s)
  | (ok, rel) :: calls =>
      let '(a, s) := reloc_path self maps mem ok rel s in
      let '(rest, s) := reloc_calls self maps mem calls s in
      (a :: rest, s)
  end.

(** ** Properties *)

(** *** a line of /proc/self/maps *)

(** "lo-hi ..." up to the path *)
Definition maps_line (lo hi : N) (rest path : str) : str :=
  fmt_uint 16 lo ++ "-"%char :: fmt_uint 16 hi ++ " "%char :: rest ++ path ++ nl.

Record mapping := Mapping { m_lo : N; m_hi : N; m_rest : str; m_path : str }.
Definition line_of (m : mapping) : str := maps_line (m_lo m) (m_hi m) (m_rest m) (m_path m).

Definition mapping_ok (m : mapping) : Prop :=
  (m_lo m < 2 ^ 64)%N ∧ (m_hi m < 2 ^ 64)%N ∧ chr_slash ∉ m_rest m ∧ chr_nl ∉ m_rest m ++ m_path m ∧ chr_nul ∉ m_rest m ++ m_path m ∧
  (m_path m = [] ∨ head (m_path m) = Some chr_slash) ∧ length (line_of m) < kLineSize.

Lemma hex_digit c : is_digit 16 c = true →
  is_space c = false ∧ c ≠ "-"%char ∧ c ≠ "+"%char ∧ c ≠ "x"%char ∧ c ≠ "X"%char ∧ c ≠ chr_slash ∧ c ≠ chr_nl ∧ c ≠ chr_nul.
Proof. intros H. destruct c as [[] [] [] [] [] [] [] []]; try (vm_compute in H; discriminate H); repeat split; try discriminate; vm_compute; reflexivity. Qed.

Lemma hex_span_app ds c rest :
  Forall (λ c, is_digit 16 c = true) ds → is_digit 16 c = false → hex_span (ds ++ c :: rest) = (ds, c :: rest).
Proof. induction 1 as [|d ds Hd _ IH]; intros Hc; cbn [app hex_span]; [by rewrite Hc|]. by rewrite Hd, IH. Qed.

Lemma scan_lx_hex n c rest :
  (n < 2 ^ 64)%N → c = "-"%char ∨ c = " "%char → scan_lx (fmt_uint 16 n ++ c :: rest) = Some (n, c :: rest).
Proof.
  intros Hn Hc. destruct (fmt_uint_spec 16 n) as (Hne & Hds & Hval); [lia|]. destruct (fmt_uint 16 n) as [|d ds]; [done|].
  assert (is_digit 16 c = false ∧ c ≠ "x"%char ∧ c ≠ "X"%char) as (Hcd & Hcx & HcX) by (by destruct Hc as [-> | ->]).
  pose proof Hds as [Hd Hds']%Forall_cons. destruct (hex_digit d Hd) as (Hsp & Hm & Hp & _). unfold scan_lx. cbn [app drop_while].
  rewrite Hsp, !bool_decide_eq_false_2 by done.
  assert (∀ (T : Type) (k : str → T), k (match d :: ds ++ c :: rest with
            | z :: x :: s' => if (z == "0"%char) && ((x == "x"%char) || (x == "X"%char)) then s' else d :: ds ++ c :: rest
            | _ => d :: ds ++ c :: rest end) = k (d :: ds ++ c :: rest)) as Hno.
  { intros T k. f_equal. destruct ds as [|x ds]; cbn [app].
    - rewrite (bool_decide_eq_false_2 (c = "x"%char)), (bool_decide_eq_false_2 (c = "X"%char)) by done. by rewrite andb_false_r.
    - apply Forall_cons in Hds' as [Hx _]. destruct (hex_digit x Hx) as (_ & _ & _ & Hx1 & Hx2 & _).
      rewrite (bool_decide_eq_false_2 (x = "x"%char)), (bool_decide_eq_false_2 (x = "X"%char)) by done. by rewrite andb_false_r. }
  cbv zeta. rewrite (Hno _ (λ s, let '(ds, rest) := hex_span s in if ds == [] then None else Some (N.min (default 0%N (digits_val 16 0 ds)) (2 ^ 64 - 1), rest))).
  change (d :: ds ++ c :: rest) with ((d :: ds) ++ c :: rest). rewrite hex_span_app by done. rewrite bool_decide_eq_false_2 by done. rewrite Hval. cbn [default]. unfold id. do 2 f_equal. clear -Hn. lia.
Qed.

Lemma scan_range_line lo hi rest :
  (lo < 2 ^ 64)%N → (hi < 2 ^ 64)%N → scan_range (fmt_uint 16 lo ++ "-"%char :: fmt_uint 16 hi ++ " "%char :: rest) = Some (lo, hi).
Proof.
  intros Hlo Hhi. unfold scan_range. rewrite scan_lx_hex by auto. cbn [mbind option_bind].
  rewrite bool_decide_eq_true_2 by done. by rewrite scan_lx_hex by auto.
Qed.

Lemma hex_not c n : c = chr_slash ∨ c = chr_nl ∨ c = chr_nul → c ∉ fmt_uint 16 n.
Proof.
  intros Hc H. destruct (fmt_uint_spec 16 n) as (_ & Hds & _); [lia|]. rewrite list.Forall_forall in Hds.
  destruct (hex_digit c (Hds c H)) as (_ & _ & _ & _ & _ & H1 & H2 & H3). naive_solver.
Qed.

(** what the line of a mapping says *)
Lemma maps_line_path_spec self m : mapping_ok m →
  maps_line_path self (line_of m) =
    if (m_lo m <=? self)%N && (self <? m_hi m)%N && (m_path m != []) then Some (m_path m) else None.
Proof.
  intros (Hlo & Hhi & Hrest & Hnl & Hnul & Hpath & _). unfold maps_line_path, line_of, maps_line.
  set (pre := fmt_uint 16 (m_lo m) ++ "-"%char :: fmt_uint 16 (m_hi m) ++ " "%char :: m_rest m).
  assert (Heq : fmt_uint 16 (m_lo m) ++ "-"%char :: fmt_uint 16 (m_hi m) ++ " "%char :: m_rest m ++ m_path m ++ nl = pre ++ m_path m ++ nl).
  { unfold pre. by rewrite <-!app_assoc, <-!app_comm_cons, <-!app_assoc, <-!app_comm_cons. }
  assert (Hpre : ∀ c, c ∈ pre → c ∈ fmt_uint 16 (m_lo m) ∨ c = "-"%char ∨ c ∈ fmt_uint 16 (m_hi m) ∨ c = " "%char ∨ c ∈ m_rest m).
  { intros c. unfold pre. rewrite !elem_of_app, !elem_of_cons, !elem_of_app, !elem_of_cons. tauto. }
  apply not_elem_of_app in Hnl as [Hnl1 Hnl2], Hnul as [Hnul1 Hnul2].
  assert (c_str (pre ++ m_path m ++ nl) = pre ++ m_path m ++ nl) as Hc.
  { unfold c_str, find_chr. rewrite find_from_0, (proj2 (find_chr_None chr_nul _)); [done|].
    rewrite !elem_of_app. intros [H|[H|H]]; [|done|by apply list_elem_of_singleton in H].
    destruct (Hpre _ H) as [H'|[H'|[H'|[H'|H']]]]; [by apply hex_not in H'; auto|done|by apply hex_not in H'; auto|done..]. }
  rewrite Heq, Hc. rewrite <-Heq at 1. rewrite scan_range_line by done.
  assert (chr_slash ∉ pre) as Hslash.
  { intros H. destruct (Hpre _ H) as [H'|[H'|[H'|[H'|H']]]]; [by apply hex_not in H'; auto|done|by apply hex_not in H'; auto|done..]. }
  unfold find_chr. rewrite !find_from_0. change "/"%char with chr_slash. rewrite find_chr_skip by done.
  destruct Hpath as [E|E].
  - rewrite E. cbn [app]. rewrite (proj2 (find_chr_None chr_slash nl)) by (intros H; by apply list_elem_of_singleton in H).
    cbn [fmap option_fmap option_map]. by rewrite andb_false_r.
  - destruct (m_path m) as [|c path] eqn:Ep; [done|]. injection E as ->. rewrite (bool_decide_eq_false_2 (_ :: _ = [])) by done.
    change ((chr_slash :: path) ++ nl) with ([] ++ chr_slash :: (path ++ nl)). rewrite find_chr_app by (by apply not_elem_of_nil).
    cbn [fmap option_fmap option_map length]. rewrite Nat.add_0_r. cbn [negb]. rewrite andb_true_r.
    destruct (_ && _); [|done]. f_equal. rewrite drop_app_length, find_from_0. cbn [app].
    change (chr_slash :: path ++ nl) with ((chr_slash :: path) ++ [chr_nl]). rewrite find_chr_app by done. by rewrite take_app_length.
Qed.

Lemma line_of_shape m : mapping_ok m → ∃ l, line_of m = l ++ [chr_nl] ∧ chr_nl ∉ l.
Proof.
  intros (_ & _ & _ & Hnl & _). unfold line_of, maps_line.
  exists (fmt_uint 16 (m_lo m) ++ "-"%char :: fmt_uint 16 (m_hi m) ++ " "%char :: m_rest m ++ m_path m).
  split; [by rewrite <-!app_assoc, <-!app_comm_cons, <-!app_assoc, <-!app_comm_cons, <-!app_assoc|].
  intros [H|[H|[H|[H|H]%elem_of_cons]%elem_of_app]%elem_of_cons]%elem_of_app; [by apply hex_not in H; auto|done|by apply hex_not in H; auto|done..].
Qed.

Lemma fgets_line m rest : mapping_ok m → fgets kLineSize (line_of m ++ rest) = Some (line_of m, rest).
Proof.
  intros Hok. pose proof Hok as (_ & _ & _ & _ & _ & _ & Hlen). destruct (line_of_shape m Hok) as (l & E & Hl). rewrite E in *.
  rewrite length_app in Hlen. change (length [chr_nl]) with 1 in Hlen. unfold fgets. rewrite bool_decide_eq_false_2 by (by destruct l).
  unfold find_chr. rewrite find_from_0, <-app_assoc. change ([chr_nl] ++ rest) with (chr_nl :: rest). rewrite find_chr_app by done.
  rewrite Nat.min_r by lia. change (chr_nl :: rest) with ([chr_nl] ++ rest). rewrite app_assoc.
  replace (S (length l)) with (length (l ++ [chr_nl])) by (rewrite length_app; cbn; lia). by rewrite take_app_length, drop_app_length.
Qed.

(** the first mapping of a file that contains the address *)
Definition maps_hit (self : N) (m : mapping) : bool := (m_lo m <=? self)%N && (self <? m_hi m)%N && (m_path m != []).

Lemma reloc_self_loop_spec self ms fuel : Forall mapping_ok ms → length ms < fuel →
  reloc_self_loop fuel self (concat (map line_of ms)) = m_path <$> List.find (maps_hit self) ms.
Proof.
  intros Hok. revert fuel. induction Hok as [|m ms Hm _ IH]; intros fuel Hf; (destruct fuel as [|fuel]; [cbn in Hf; lia|]); [done|].
  cbn [map concat reloc_self_loop length] in *. rewrite fgets_line by done. rewrite maps_line_path_spec by done.
  cbn [List.find]. fold (maps_hit self m). destruct (maps_hit self m); [done|]. apply IH. lia.
Qed.

Lemma lines_long ms : Forall mapping_ok ms → length ms ≤ length (concat (map line_of ms)).
Proof.
  induction 1 as [|m ms Hm _ IH]; [done|]. cbn [map concat length]. destruct (line_of_shape m Hm) as (l & -> & _).
  rewrite !length_app. cbn [length]. lia.
Qed.

Lemma reloc_self_finds self ms m n : Forall mapping_ok ms → List.find (maps_hit self) ms = Some m → length (m_path m) < n →
  reloc_self self (Some (concat (map line_of ms))) n = m_path m.
Proof.
  intros Hok Hfind Hn. unfold reloc_self. rewrite reloc_self_loop_spec by (done || pose proof (lines_long ms Hok); lia).
  rewrite Hfind. cbn [fmap option_fmap option_map]. apply take_ge. lia.
Qed.

(** *** the table *)

Section Calls.
Context (self : N) (maps : option str) (mem : nat → str).

(** the directory, once it is known *)
Definition own_dir : str := reloc_dir self maps [].

Definition string_of (s : statics) (a : answer) : option str :=
  match a with Given rel => Some (mem rel) | Made abs => s_heap s !! abs end.

Definition contents (seen : list (nat * nat)) : list str := map (λ e, mem e.1) seen.

(** the directory is ours or not yet known; every entry leads to its string; no string is there twice *)
Definition table_ok (s : statics) : Prop :=
  (s_dir s = [] ∨ s_dir s = own_dir) ∧
  (∀ r abs, (r, abs) ∈ s_seen s → s_heap s !! abs = Some (own_dir ++ mem r)) ∧
  NoDup (contents (s_seen s)).

Lemma reloc_dir_is dir : dir = [] ∨ dir = own_dir → reloc_dir self maps dir = own_dir.
Proof using Type.
  intros [-> | ->]; [done|]. unfold reloc_dir at 1. destruct (decide (own_dir = [])) as [E|E].
  - rewrite (bool_decide_eq_true_2 (own_dir = [])) by done. cbn [negb]. fold (reloc_dir self maps []). done.
  - by rewrite bool_decide_eq_false_2.
Qed.

Lemma find_seen_spec rel seen :
  match find_seen mem rel seen with
  | Some abs => ∃ r, (r, abs) ∈ seen ∧ mem r = mem rel
  | None => mem rel ∉ contents seen
  end.
Proof using Type.
  induction seen as [|[r a] seen IH]; cbn [find_seen contents map]; [apply not_elem_of_nil|]. fold (contents seen).
  destruct ((r =? rel)%nat || (mem r == mem rel)) eqn:E.
  - exists r. split; [by left|]. apply orb_true_iff in E as [->%Nat.eqb_eq|E%bool_decide_eq_true]; done.
  - apply orb_false_iff in E as [_ E%bool_decide_eq_false]. destruct (find_seen mem rel seen) as [abs|].
    + destruct IH as (r' & Hin & Hr). exists r'. split; [by right|done].
    + apply not_elem_of_cons. split; [by intros H; apply E|done].
Qed.

Lemma reloc_path_ok ok rel s : table_ok s →
  let '(a, s') := reloc_path self maps mem ok rel s in
  table_ok s' ∧ s_heap s `prefix_of` s_heap s' ∧
  (string_of s' a = Some (own_dir ++ mem rel) ∨ ok = false ∧ a = Given rel).
Proof using Type.
  intros (Hdir & Hseen & Hnd). unfold reloc_path. pose proof (find_seen_spec rel (s_seen s)) as Hf.
  destruct (find_seen mem rel (s_seen s)) as [abs|].
  - destruct Hf as (r & Hin & Hr). split; [by repeat split|]. split; [done|]. left. cbn [string_of]. rewrite <-Hr. by apply Hseen.
  - rewrite reloc_dir_is by done. destruct ok.
    + split; [|split; [by apply prefix_app_r|left; cbn [string_of s_heap]; rewrite lookup_app_r, Nat.sub_diag by done; done]].
      split; [by right|]. cbn [s_seen s_heap]. destruct (_ <? _)%nat.
      * split.
        -- intros r abs [Hin|[= -> ->]%list_elem_of_singleton]%elem_of_app.
           ++ apply lookup_app_l_Some. by apply Hseen.
           ++ by rewrite lookup_app_r, Nat.sub_diag by done.
        -- unfold contents. rewrite map_app. apply NoDup_app. split; [done|]. split; [|apply NoDup_singleton].
           intros x Hx Hx2%list_elem_of_singleton. by subst x.
      * split; [|done]. intros r abs Hin. apply lookup_app_l_Some. by apply Hseen.
    + split; [by repeat split; [right|..]|]. split; [done|]. by right.
Qed.

Lemma reloc_calls_ok calls s : table_ok s →
  let '(answers, s') := reloc_calls self maps mem calls s in
  table_ok s' ∧ s_heap s `prefix_of` s_heap s' ∧
  Forall2 (λ call a, string_of s' a = Some (own_dir ++ mem call.2) ∨ call.1 = false ∧ a = Given call.2) calls answers.
Proof using Type.
  revert s. induction calls as [|[ok rel] calls IH]; intros s Hs; cbn [reloc_calls]; [done|].
  pose proof (reloc_path_ok ok rel s Hs) as H. destruct (reloc_path _ _ _ _ _ _) as [a s1]. destruct H as (Hs1 & Hp1 & Ha).
  specialize (IH s1 Hs1). destruct (reloc_calls _ _ _ _ _) as [rest s2]. destruct IH as (Hs2 & Hp2 & Hr).
  split; [done|]. split; [by etrans|]. constructor; [|done]. destruct Ha as [Ha|Ha]; [left|by right]. destruct a as [r|abs]; [done|].
  cbn [string_of] in *. by eapply prefix_lookup_Some.
Qed.

(** with no more than 32 different strings, each is made once *)
Lemma reloc_calls_bounded (C : gset str) calls s :
  size C ≤ kSeen → (∀ call, call ∈ calls → mem call.2 ∈ C) →
  table_ok s → list_to_set (contents (s_seen s)) ⊆ C → length (s_heap s) = length (s_seen s) →
  let s' := (reloc_calls self maps mem calls s).2 in
  list_to_set (contents (s_seen s')) ⊆ C ∧ length (s_heap s') = length (s_seen s') ∧ NoDup (contents (s_seen s')).
Proof using Type.
  intros HC. revert s. induction calls as [|[ok rel] calls IH]; intros s Hin Hs Hsub Hlen; [by destruct Hs as (_ & _ & ?)|].
  cbn [reloc_calls]. pose proof (reloc_path_ok ok rel s Hs) as H. destruct (reloc_path _ _ _ _ _ _) as [a s1] eqn:E.
  destruct H as (Hs1 & _ & _). specialize (IH s1). destruct (reloc_calls self maps mem calls s1) as [rest s2]. cbn [snd] in *.
  apply IH; [intros call Hc; apply Hin; by right|done|..].
  all: unfold reloc_path in E; pose proof (find_seen_spec rel (s_seen s)) as Hf; destruct (find_seen mem rel (s_seen s)); [by simplify_eq|].
  all: destruct ok; [|by simplify_eq].
  all: assert (length (s_seen s) < kSeen) as Hroom.
  1, 3: assert (size (list_to_set (contents (s_seen s)) ∪ {[ mem rel ]} : gset str) ≤ size C) as Hsz
      by (apply subseteq_size; specialize (Hin (true, rel) ltac:(by left)); cbn in Hin; set_solver);
    rewrite size_union, size_singleton, size_list_to_set in Hsz by (apply Hs || set_solver);
    unfold contents in Hsz; rewrite length_map in Hsz; lia.
  - injection E as _ <-. cbn [s_seen]. rewrite (proj2 (Nat.ltb_lt _ _) Hroom). unfold contents. rewrite map_app.
    specialize (Hin (true, rel) ltac:(by left)). cbn in Hin. unfold contents in Hsub. cbn [map fst]. set_solver.
  - injection E as _ <-. cbn [s_seen s_heap]. rewrite (proj2 (Nat.ltb_lt _ _) Hroom). rewrite !length_app. cbn. lia.
Qed.
End Calls.

(** *** the package was copied *)

Lemma upto_slash path name : chr_slash ∉ name →
  match rfind "/" (path ++ chr_slash :: name) with
  | Some i => take (S i) (path ++ chr_slash :: name) | None => path ++ chr_slash :: name end = path ++ [chr_slash].
Proof.
  intros Hn. assert (rfind "/" (path ++ chr_slash :: name) = Some (length path)) as ->.
  { induction path as [|c path IH]; cbn [app rfind length]; [by rewrite (proj2 (rfind_slash_None name))|by rewrite IH]. }
  change (path ++ chr_slash :: name) with (path ++ [chr_slash] ++ name). rewrite app_assoc.
  replace (S (length path)) with (length (path ++ [chr_slash])) by (rewrite length_app; cbn; lia). by rewrite take_app_length.
Qed.

Lemma own_dir_abs self ms m cs name : Forall mapping_ok ms → List.find (maps_hit self) ms = Some m →
  m_path m = abs_path (cs ++ [name]) → chr_slash ∉ name → length (m_path m) < kPathMax →
  own_dir self (Some (concat (map line_of ms))) = dirname (abs_path (cs ++ [name])).
Proof.
  intros Hok Hfind Hpath Hname Hlen. unfold own_dir, reloc_dir. rewrite bool_decide_eq_true_2 by done. cbn [negb].
  rewrite (reloc_self_finds self ms m) by done. rewrite Hpath, abs_path_snoc.
  assert (∃ q, (chr_slash :: (if cs == [] then [] else unpieces "/" cs ++ "/")) ++ name = q ++ chr_slash :: name) as [q ->].
  { case_bool_decide; [by exists []|]. exists (chr_slash :: unpieces "/" cs). by rewrite app_comm_cons, <-app_assoc. }
  by rewrite upto_slash, dirname_slash.
Qed.

(** C24. RELOC("../share/foo") names the package's own file wherever the package is. When the program text is
    mapped from a file at p/d/name, every RELOC of the relative path from d to t gives a string that names p/t,
    whatever was asked before and however often; and a program with at most 32 different strings
    allocates each of them once. *)
Theorem reloc_follows_file (self : N) (ms : list mapping) (m : mapping) (p d : list str) (name : str)
    (mem : nat → str) (calls : list (bool * nat)) :
  Forall mapping_ok ms → List.find (maps_hit self) ms = Some m → m_path m = abs_path (p ++ d ++ [name]) →
  length (m_path m) < kPathMax → Forall good_name p → Forall good_name d → good_name name →
  let '(answers, s) := reloc_calls self (Some (concat (map line_of ms))) mem calls no_statics in
  (∀ i rel t, calls !! i = Some (true, rel) → mem rel = unpieces "/" (rel_elements d t) → Forall good_name t → t ≠ [] →
     ∃ a x, answers !! i = Some a ∧ string_of mem s a = Some x ∧ lexically_normal x = abs_path (p ++ t)) ∧
  (∀ C : gset str, size C ≤ kSeen → (∀ call, call ∈ calls → mem call.2 ∈ C) → length (s_heap s) ≤ size C).
Proof.
  intros Hok Hfind Hpath Hlen Hp Hd Hname. set (maps := Some _).
  assert (Hstart : table_ok self maps mem no_statics).
  { split; [by left|]. split; [intros r abs H; by apply elem_of_nil in H|apply NoDup_nil_2]. }
  pose proof (reloc_calls_ok self maps mem calls no_statics Hstart) as H.
  pose proof (λ C HC Hin, reloc_calls_bounded self maps mem C calls no_statics HC Hin Hstart) as Hb.
  destruct (reloc_calls self maps mem calls no_statics) as [answers s]. destruct H as (_ & _ & Hall). cbn [snd] in Hb. split.
  - intros i rel t Hi Hrel Ht Hne. destruct (Forall2_lookup_l _ _ _ _ _ Hall Hi) as (a & Ha & Hs). exists a, (own_dir self maps ++ mem rel).
    split; [done|]. split; [by destruct Hs as [?|[? _]]|]. cbn [snd] in *.
    unfold maps. rewrite (own_dir_abs self ms m (p ++ d) name); [|done|done|by rewrite <-app_assoc|apply Hname|done].
    assert (rel_elements d t ≠ []) as Hrne by (unfold rel_elements; intros [_ ?]%app_eq_nil; done).
    assert (∀ cs, Forall good_name cs → Forall plain cs) as Hpl by (intros; eapply Forall_impl; [done|auto with bytes]).
    assert (Forall plain (rel_elements d t)) as Hpr by (by apply rel_elements_plain, Hpl).
    assert (Forall plain (p ++ d)) as Hpd by (by apply Hpl, Forall_app).
    rewrite Hrel, dirname_abs, <-path_append_abs by auto using good_plain.
    rewrite normal_of_relative by done. rewrite bool_decide_eq_false_2 by done. by rewrite app_nil_r.
  - intros C HC Hin. destruct (Hb C HC Hin) as (Hsub & -> & Hnd); [set_solver|done|].
    apply subseteq_size in Hsub. rewrite size_list_to_set in Hsub by done. unfold contents in Hsub. by rewrite length_map in Hsub.
Qed.

(** a program at /opt/pkg/bin/tool that asks for two directories, one of them twice *)
Definition tool_maps : list mapping :=
  [Mapping 4194304 4198400 "r--p 00000000 08:01 17      " "/opt/pkg/bin/tool"; Mapping 4198400 4202496 "r-xp 00001000 08:01 17      " "/opt/pkg/bin/tool";
   Mapping 140000000 140004096 "rw-p 00000000 00:00 0 " []].
Definition tool_strings (rel : nat) : str := if (rel =? 7)%nat then "../share/doc" else "../lib".
Definition tool_calls : list (bool * nat) := [(true, 7); (true, 8); (true, 7)].
Definition tool_run : list answer * statics :=
  reloc_calls 4198500 (Some (concat (map line_of tool_maps))) tool_strings tool_calls no_statics.

Lemma tool_maps_ok : Forall mapping_ok tool_maps.
Proof.
  unfold tool_maps, mapping_ok. repeat (apply Forall_cons; split;
    [split_and!; [reflexivity|reflexivity|not_in|not_in|not_in|first [right; reflexivity|left; reflexivity]|apply Nat.ltb_lt; vm_compute; reflexivity]|]).
  apply Forall_nil_2.
Qed.

Lemma reloc_follows_file_witness :
  (∃ a x, tool_run.1 !! 2 = Some a ∧ string_of tool_strings tool_run.2 a = Some x ∧ lexically_normal x = lit "/opt/pkg/share/doc") ∧
  length (s_heap tool_run.2) ≤ 2.
Proof.
  pose proof (reloc_follows_file 4198500 tool_maps (Mapping 4198400 4202496 "r-xp 00001000 08:01 17      " "/opt/pkg/bin/tool")
    [lit "opt"; lit "pkg"] [lit "bin"] "tool" tool_strings tool_calls tool_maps_ok) as H.
  fold tool_run in H.
  assert (H1 : List.find (maps_hit 4198500) tool_maps = Some (Mapping 4198400 4202496 "r-xp 00001000 08:01 17      " "/opt/pkg/bin/tool"))
    by (vm_compute; reflexivity).
  assert (∀ cs, Forall (λ c, negb (bool_decide (c = [])) && negb (bool_decide (c = lit ".")) && negb (bool_decide (c = lit "..")) &&
    negb (bool_decide (chr_slash ∈ c)) = true) cs → Forall good_name cs) as Hg.
  { intros cs Hcs. eapply Forall_impl; [exact Hcs|]. intros c Hc. cbn beta in Hc. bool_prop. by repeat split. }
  specialize (H H1 eq_refl). destruct tool_run as [answers s]. cbn [fst snd]. destruct H as [Ha Hb].
  - apply Nat.ltb_lt. vm_compute. reflexivity.
  - apply Hg. repeat (apply Forall_cons; split; [vm_compute; reflexivity|]). apply Forall_nil_2.
  - apply Hg. repeat (apply Forall_cons; split; [vm_compute; reflexivity|]). apply Forall_nil_2.
  - split_and!; [discriminate..|not_in].
  - split.
    + apply (Ha 2 7 [lit "share"; lit "doc"]); [reflexivity|vm_compute; reflexivity| |discriminate].
      apply Hg. repeat (apply Forall_cons; split; [vm_compute; reflexivity|]). apply Forall_nil_2.
    + specialize (Hb {[ tool_strings 7; tool_strings 8 ]}). etrans; [apply Hb|].
      * apply Nat.leb_le. vm_compute. reflexivity.
      * intros call Hc. unfold tool_calls in Hc. rewrite !elem_of_cons, elem_of_nil in Hc.
        apply elem_of_union. rewrite !elem_of_singleton. destruct Hc as [-> | [-> | [-> | []]]]; auto.
      * apply Nat.leb_le. vm_compute. reflexivity.
Defined.
