(* ===== verification/LaunchWindows.v ===== *)
(** * launch.cc on Windows: the command line and the child (src/pkgs/la/launch/src)

    There is no execv: the launcher writes a command line that the new program takes apart again. Text is
    UTF-16, one number per code unit. What the system calls return is a parameter; the rules of
    [CommandLineToArgvW] are given as the parser the documentation describes. *)

From S2P Require Import Prelude Paths Launch.

Abbreviation wstr := (list N).
Definition w_quote : N := 34.
Definition w_backslash : N := 92.
Definition w_blank (c : N) : bool := ((c =? 32) || (c =? 9))%N.

Definition kPathSep : str := ";".

(** ** The environment

    UTF-16 code units behind UTF-8 names and values. The two conversions and the environment block are the
    system's, so they are parameters; [WinEnv] holds the two calls of the block as the code makes them. *)

(** a string handed over by [c_str] ends at its first NUL *)
Fixpoint w_c_str (w : wstr) : wstr :=
  match w with [] => [] | c :: w => if (c =? 0)%N then [] else c :: w_c_str w end.

(** [GetEnvironmentVariableW] with a buffer of so many units: what it returns and what it wrote;
    [SetEnvironmentVariableW] with a value or without: the new block, [None] when it refuses *)
Class WinEnv (E : Type) := {
  GetEnvironmentVariableW : E → wstr → nat → nat * wstr;
  SetEnvironmentVariableW : E → wstr → option wstr → option E
}.

Section Environment.
Context (MultiByteToWideChar : str → option wstr) (WideCharToMultiByte : wstr → str) `{WinEnv E}.

Definition Wide (s : str) : launched wstr :=
  if s == [] then Go []
  else match MultiByteToWideChar s with Some (c :: w) => Go (c :: w) | _ => Died "not UTF-8" s end.
Definition Narrow (w : wstr) : launched str :=
  if w == [] then Go []
  else let s := WideCharToMultiByte w in if s == [] then Died "WideCharToMultiByte failed" [] else Go s.

(** the size query, then the fetch *)
Definition WinGetEnv (env : E) (name : str) : launched (option str) :=
  wname <- Wide name ;;
  let size := (GetEnvironmentVariableW env (w_c_str wname) 0).1 in
  if (size =? 0)%nat then Go None
  else
    let '(len, buf) := GetEnvironmentVariableW env (w_c_str wname) size in
    if (size <=? len)%nat then Died "GetEnvironmentVariable failed" name
    else value <- Narrow (take len (buf ++ replicate size 0%N)) ;; Go (Some value).
Definition WinSetEnv (env : E) (name value : str) : launched E :=
  wname <- Wide name ;; wvalue <- Wide value ;;
  match SetEnvironmentVariableW env (w_c_str wname) (Some (w_c_str wvalue)) with
  | Some env => Go env
  | None => Died "SetEnvironmentVariable failed" name
  end.
Definition WinUnsetEnv (env : E) (name : str) : launched E :=
  wname <- Wide name ;; Go (default env (SetEnvironmentVariableW env (w_c_str wname) None)).

(** [module]: what GetModuleFileName gives, unless the buffer of 32768 units is too small *)
Definition WinInvokedPath (fs : files) (module : option wstr) : launched str :=
  match module with
  | Some (c :: w) =>
      if (32768 <=? N.of_nat (length (c :: w)))%N then Died "GetModuleFileName failed" []
      else
        let self := WideCharToMultiByte (c :: w) in
        dir <- Canonical fs (parent_path self) ;; Go (dir /p/ filename self)
  | _ => Died "GetModuleFileName failed" []
  end.
End Environment.

(** [LastError] *)
Definition LastError (call : str) (code : N) : str := call ++ lit " failed (" ++ fmt_uint 10 code ++ lit ")".

(** ** AppendArg *)

(** the rest of an argument, with [slashes] backslashes not yet written *)
Fixpoint append_loop (arg : wstr) (slashes : nat) : wstr :=
  match arg with
  | [] => replicate (slashes * 2) w_backslash ++ [w_quote]
  | c :: arg =>
      if (c =? w_backslash)%N then append_loop arg (S slashes)
      else replicate (if (c =? w_quote)%N then slashes * 2 + 1 else slashes) w_backslash ++ [c] ++ append_loop arg 0
  end.
Definition AppendArg (line arg : wstr) : wstr := line ++ [32%N; w_quote] ++ append_loop arg 0.

(** ** UserArgs *)

Fixpoint after_blankless (s : wstr) : wstr :=
  match s with
  | [] => []
  | c :: s' => if w_blank c then s else after_blankless s'
  end.
Fixpoint after_quote (s : wstr) : wstr :=
  match s with
  | [] => []
  | c :: s => if (c =? w_quote)%N then s else after_quote s
  end.
(** [command_line]: what GetCommandLineW returns *)
Definition UserArgs (command_line : wstr) : wstr :=
  match command_line with
  | c :: rest => if (c =? w_quote)%N then after_quote rest else after_blankless command_line
  | [] => []
  end.

(** ** Run *)

(** what the system says on the way *)
Record win32 := Win32 {
  w_job : bool;              (* the job object is there and has its limits *)
  w_create : bool;           (* CreateProcess *)
  w_resume : bool;           (* ResumeThread *)
  w_wait : option N;         (* the exit code, when waiting and asking for it succeed *)
}.

Inductive win_outcome := WinDied (call : str) | WinExit (code : N).

(** the command line of the child *)
Definition command_line_of (argv0 : wstr) (pre : list wstr) (own : wstr) : wstr :=
  foldl AppendArg (AppendArg [] argv0) pre ++ UserArgs own.

(** the line CreateProcess gets, without its first blank, and how the launcher ends *)
Definition WinRun (w : win32) (argv0 : wstr) (pre : list wstr) (own : wstr) : option wstr * win_outcome :=
  let line := command_line_of argv0 pre own in
  if negb (w_job w) then (None, WinDied "CreateJobObject")
  else
    let given := Some (drop 1 line) in
    if negb (w_create w) then (given, WinDied "CreateProcess")
    else if negb (w_resume w) then (given, WinDied "ResumeThread")
    else
      match w_wait w with
      | None => (given, WinDied "WaitForSingleObject")
      | Some code => (given, WinExit code)
      end.

(** ** CommandLineToArgvW, as documented

    2n backslashes and a quote: n backslashes, and the quote starts or ends a quoted part; 2n+1
    backslashes and a quote: n backslashes and the quote itself; backslashes before anything else are
    themselves. Blanks outside quotes separate arguments. The program's name comes first and has no escapes. *)

Definition flush (slashes : nat) (cur : option wstr) : wstr := default [] cur ++ replicate slashes w_backslash.
Fixpoint args_loop (s : wstr) (cur : option wstr) (quoted : bool) (slashes : nat) : list wstr :=
  match s with
  | [] => match cur, slashes with None, 0 => [] | _, _ => [flush slashes cur] end
  | c :: s =>
      if (c =? w_backslash)%N then args_loop s cur quoted (S slashes)
      else if (c =? w_quote)%N then
        let cur := flush (slashes / 2) cur in
        if (Nat.even slashes) then args_loop s (Some cur) (negb quoted) 0
        else args_loop s (Some (cur ++ [w_quote])) quoted 0
      else if w_blank c && negb quoted then
        match cur, slashes with
        | None, 0 => args_loop s None false 0
        | _, _ => flush slashes cur :: args_loop s None false 0
        end
      else args_loop s (Some (flush slashes cur ++ [c])) quoted 0
  end.
Definition arguments (s : wstr) : list wstr := args_loop s None false 0.

Fixpoint upto (p : N → bool) (s : wstr) : wstr :=
  match s with [] => [] | c :: s => if p c then [] else c :: upto p s end.
Definition CommandLineToArgvW (s : wstr) : list wstr :=
  match s with
  | c :: rest =>
      if (c =? w_quote)%N then upto (N.eqb w_quote) rest :: arguments (after_quote rest)
      else upto w_blank s :: arguments (after_blankless s)
  | [] => []
  end.

(** ** Properties *)

Lemma args_loop_slashes n s cur q k :
  args_loop (replicate n w_backslash ++ s) cur q k = args_loop s cur q (k + n).
Proof.
  revert k. induction n as [|n IH]; intros k; [by rewrite Nat.add_0_r|]. cbn [replicate app args_loop].
  rewrite N.eqb_refl, IH. f_equal. lia.
Qed.

(** what follows the arguments of the record: nothing, or a blank *)
Definition separated (rest : wstr) : Prop := match rest with [] => True | c :: _ => w_blank c = true end.

Lemma append_loop_parses arg slashes cur rest :
  args_loop (append_loop arg slashes ++ rest) (Some cur) true 0 =
  args_loop rest (Some (cur ++ replicate slashes w_backslash ++ arg)) false 0.
Proof.
  revert slashes cur. induction arg as [|c arg IH]; intros slashes cur; cbn [append_loop].
  - rewrite <-app_assoc, args_loop_slashes. cbn [app args_loop Nat.add].
    change (w_quote =? w_backslash)%N with false. cbn iota. rewrite N.eqb_refl.
    rewrite Nat.even_mul, orb_true_r, Nat.div_mul by done. unfold flush. cbn [default negb]. by rewrite app_nil_r.
  - destruct (N.eqb_spec c w_backslash) as [->|Hb].
    { rewrite IH. f_equal. f_equal. f_equal. rewrite replicate_S_end, <-app_assoc. done. }
    rewrite <-!app_assoc, args_loop_slashes. cbn [app args_loop Nat.add].
    rewrite (proj2 (N.eqb_neq _ _) Hb). destruct (N.eqb_spec c w_quote) as [->|Hq].
    + rewrite Nat.even_add, Nat.even_mul, orb_true_r. cbn [Nat.even eqb xorb].
      replace ((slashes * 2 + 1) / 2) with slashes by (rewrite Nat.add_comm, Nat.div_add by done; done).
      rewrite IH. unfold flush. cbn [default replicate app]. by rewrite <-!app_assoc.
    + rewrite andb_false_r. rewrite IH. unfold flush. cbn [default replicate app]. by rewrite <-!app_assoc.
Qed.

(** the arguments of the record, one after the other *)
Lemma appended_args pre rest :
  separated rest →
  arguments (concat (map (λ arg, [32%N; w_quote] ++ append_loop arg 0) pre) ++ rest) = pre ++ arguments rest.
Proof.
  intros Hrest. unfold arguments.
  assert (Hnext : ∀ pre cur, args_loop (concat (map (λ arg, [32%N; w_quote] ++ append_loop arg 0) pre) ++ rest) cur false 0 =
    match cur with None => pre ++ args_loop rest None false 0 | Some a => a :: pre ++ args_loop rest None false 0 end).
  { clear pre. induction pre as [|arg pre IH]; intros cur.
    - destruct rest as [|c rest]; [destruct cur; cbn; unfold flush; cbn; by rewrite ?app_nil_r|].
      cbn [map concat app]. destruct cur as [a|]; [|done]. cbn [args_loop]. cbn in Hrest. rewrite Hrest.
      assert (c ≠ w_backslash ∧ c ≠ w_quote) as [H1 H2] by (split; intros ->; done).
      rewrite (proj2 (N.eqb_neq _ _) H1), (proj2 (N.eqb_neq _ _) H2). cbn [andb negb]. unfold flush. cbn. by rewrite app_nil_r.
    - cbn [map concat]. rewrite <-!app_assoc. cbn [app args_loop].
      change (32 =? w_backslash)%N with false. change (32 =? w_quote)%N with false. change (w_blank 32) with true. cbn [andb negb].
      assert (Hq : args_loop (w_quote :: append_loop arg 0 ++ concat (map (λ arg, 32%N :: w_quote :: append_loop arg 0) pre) ++ rest) None false 0 =
        arg :: pre ++ args_loop rest None false 0).
      { cbn [args_loop]. change (w_quote =? w_backslash)%N with false. rewrite N.eqb_refl. cbn [Nat.even Nat.div negb].
        rewrite append_loop_parses. exact (IH (Some _)). }
      destruct cur as [a|]; cbn iota; [|exact Hq]. unfold flush at 1. cbn [default replicate]. rewrite app_nil_r. f_equal. exact Hq. }
  exact (Hnext pre None).
Qed.

Lemma append_loop_plain arg slashes :
  w_quote ∉ arg → last (replicate slashes w_backslash ++ arg) ≠ Some w_backslash →
  append_loop arg slashes = replicate slashes w_backslash ++ arg ++ [w_quote].
Proof.
  revert slashes. induction arg as [|c arg IH]; intros slashes Hq Hl; cbn [append_loop].
  - rewrite app_nil_r in Hl. destruct slashes as [|s]; [done|]. rewrite replicate_S_end, last_snoc in Hl. done.
  - apply not_elem_of_cons in Hq as [Hc Hq]. destruct (N.eqb_spec c w_backslash) as [->|Hb].
    + assert (E : replicate (S slashes) w_backslash ++ arg = replicate slashes w_backslash ++ w_backslash :: arg)
        by (by rewrite replicate_S_end, <-app_assoc).
      rewrite IH; [|done|by rewrite E]. by rewrite app_assoc, E, <-app_assoc.
    + rewrite (proj2 (N.eqb_neq c w_quote)) by congruence. f_equal. cbn [app]. f_equal. rewrite IH; [done|done|]. cbn [replicate app].
      intros Hla. apply Hl. rewrite last_app_cons. destruct arg as [|d arg]; [done|]. exact Hla.
Qed.

Lemma upto_quote s rest : w_quote ∉ s →
  upto (N.eqb w_quote) (s ++ w_quote :: rest) = s ∧ after_quote (s ++ w_quote :: rest) = rest.
Proof.
  induction s as [|c s IH]; intros Hq; cbn [app upto after_quote]; [by rewrite N.eqb_refl|].
  apply not_elem_of_cons in Hq as [Hc Hq]. rewrite (proj2 (N.eqb_neq w_quote c)), (proj2 (N.eqb_neq c w_quote)) by congruence.
  destruct (IH Hq) as [-> ->]. done.
Qed.

Lemma foldl_AppendArg pre line :
  foldl AppendArg line pre = line ++ concat (map (λ arg, [32%N; w_quote] ++ append_loop arg 0) pre).
Proof.
  revert line. induction pre as [|arg pre IH]; intros line; cbn [foldl map concat]; [by rewrite app_nil_r|].
  rewrite IH. unfold AppendArg. by rewrite <-!app_assoc.
Qed.


(** [C:\p\x.exe "a b\"], started as [tool -v] *)
Definition w_lit (s : string) : wstr := map byte_val (lit s).

(** ** What the environment promises, and what the launcher makes of it

    [value_of] is the value a block holds for a name; [same_name] tells names apart that the system does not
    (it ignores their case). *)
Class WinEnvLaws (E : Type) `{WinEnv E} (value_of : E → wstr → option wstr) (same_name : wstr → wstr → Prop) := {
  get_none e n size : value_of e n = None → GetEnvironmentVariableW e n size = (0, []);
  get_fits e n size v : value_of e n = Some v → length v < size → GetEnvironmentVariableW e n size = (length v, v);
  get_needs e n size v : value_of e n = Some v → size ≤ length v → (GetEnvironmentVariableW e n size).1 = S (length v);
  set_same e e' n m v : SetEnvironmentVariableW e n v = Some e' → same_name n m → value_of e' m = v;
  set_other e e' n m v : SetEnvironmentVariableW e n v = Some e' → ¬ same_name n m → value_of e' m = value_of e m;
}.

Section Codec.
Context (MultiByteToWideChar : str → option wstr) (WideCharToMultiByte : wstr → str).
Context {E : Type} {env_ops : WinEnv E} {value_of : E → wstr → option wstr} {same_name : wstr → wstr → Prop}
  {laws : WinEnvLaws E value_of same_name}.
Local Abbreviation wide := (Wide MultiByteToWideChar).
Local Abbreviation narrow := (Narrow WideCharToMultiByte).
Local Abbreviation get := (WinGetEnv MultiByteToWideChar WideCharToMultiByte).
Local Abbreviation set := (WinSetEnv MultiByteToWideChar).
Local Abbreviation unset := (WinUnsetEnv MultiByteToWideChar).

(** the two calls of [GetEnv] come to the value of the block *)
Lemma WinGetEnv_value e name wname : wide name = Go wname →
  get e name = match value_of e (w_c_str wname) with
               | None => Go None
               | Some v => l_bind (narrow v) (λ s, Go (Some s))
               end.
Proof.
  intros HW. unfold WinGetEnv. rewrite HW. cbn [l_bind].
  destruct (value_of e (w_c_str wname)) as [v |] eqn:HV.
  - rewrite (get_needs _ _ _ _ HV) by lia. cbn [Nat.eqb].
    rewrite (get_fits _ _ _ _ HV) by lia.
    rewrite (proj2 (Nat.leb_gt _ _)) by lia. by rewrite take_app_length.
  - by rewrite (get_none _ _ _ HV).
Qed.

(** what [SetEnv] wrote is what [GetEnv] reads, under every name the system takes for the same *)
Lemma WinSetEnv_get e e' name wname value wvalue name' wname' :
  wide name = Go wname → wide value = Go wvalue → w_c_str wvalue = wvalue → narrow wvalue = Go value →
  set e name value = Go e' → wide name' = Go wname' → same_name (w_c_str wname) (w_c_str wname') →
  get e' name' = Go (Some value).
Proof.
  intros HW HV HC HN HS HW' Hsame. rewrite (WinGetEnv_value _ _ _ HW').
  unfold WinSetEnv in HS. rewrite HW, HV in HS. cbn [l_bind] in HS. rewrite HC in HS.
  destruct (SetEnvironmentVariableW _ _ _) as [e1 |] eqn:HE; simplify_eq.
  by rewrite (set_same _ _ _ _ _ HE Hsame), HN.
Qed.

(** no other variable changes *)
Lemma WinSetEnv_others e e' name wname value name' wname' :
  wide name = Go wname → set e name value = Go e' → wide name' = Go wname' →
  ¬ same_name (w_c_str wname) (w_c_str wname') → get e' name' = get e name'.
Proof.
  intros HW HS HW' Hne. rewrite !(WinGetEnv_value _ _ _ HW').
  unfold WinSetEnv in HS. rewrite HW in HS. cbn [l_bind] in HS.
  destruct (wide value) as [wvalue |]; [| done]. cbn [l_bind] in HS.
  destruct (SetEnvironmentVariableW _ _ _) as [e1 |] eqn:HE; simplify_eq.
  by rewrite (set_other _ _ _ _ _ HE Hne).
Qed.

(** [UnsetEnv] of a name the system accepts leaves no value *)
Lemma WinUnsetEnv_get e e' name wname name' wname' :
  wide name = Go wname → SetEnvironmentVariableW e (w_c_str wname) None = Some e' → wide name' = Go wname' →
  same_name (w_c_str wname) (w_c_str wname') →
  unset e name = Go e' ∧ get e' name' = Go None.
Proof.
  intros HW HE HW' Hsame. unfold WinUnsetEnv. rewrite HW. cbn [l_bind]. rewrite HE.
  split; [reflexivity |]. rewrite (WinGetEnv_value _ _ _ HW').
  by rewrite (set_same _ _ _ _ _ HE Hsame).
Qed.
End Codec.

(** a block that keeps the laws: one value per name in capitals *)
Definition w_upper (c : N) : N := if ((97 <=? c) && (c <=? 122))%N then (c - 32)%N else c.
#[local] Instance block_ops : WinEnv (gmap wstr wstr) := {
  GetEnvironmentVariableW e n size :=
    match e !! map w_upper n with
    | None => (0, [])
    | Some v => if (length v <? size)%nat then (length v, v) else (S (length v), [])
    end;
  SetEnvironmentVariableW e n v :=
    if (n == []) || existsb (N.eqb 61) n then None
    else Some (match v with Some v => <[map w_upper n := v]> e | None => delete (map w_upper n) e end)
}.
#[local] Instance block_laws :
  WinEnvLaws (gmap wstr wstr) (λ e n, e !! map w_upper n) (λ n m, map w_upper n = map w_upper m).
Proof.
  split; unfold GetEnvironmentVariableW, SetEnvironmentVariableW, block_ops.
  - by intros e n size ->.
  - intros e n size v -> Hl. by rewrite (proj2 (Nat.ltb_lt _ _) Hl).
  - intros e n size v -> Hl. by rewrite (proj2 (Nat.ltb_ge _ _) Hl).
  - intros e e' n m v HS <-. destruct (_ || _); [done |]. destruct v; simplify_eq;
      [apply lookup_insert_eq | apply lookup_delete_eq].
  - intros e e' n m v HS Hne. destruct (_ || _); [done |]. destruct v; simplify_eq;
      [by apply lookup_insert_ne | by apply lookup_delete_ne].
Qed.

(** ASCII needs no more than one unit per byte *)
Definition w_widen (s : str) : option wstr := Some (map byte_val s).
Definition w_narrow (w : wstr) : str := map byte_of w.
Example windows_path_variable :
  l_bind (WinSetEnv w_widen ∅ "Path" "C:/bin") (λ e, WinGetEnv w_widen w_narrow e "PATH") = Go (Some (lit "C:/bin")).
Proof. reflexivity. Qed.
Example windows_no_variable : WinGetEnv w_widen w_narrow ∅ "PATH" = Go None.
Proof. reflexivity. Qed.
