(* ===== verification/Shims.v ===== *)
(** * The integer routines of libgcc (src/pkgs/li/libgcc-shim/src/gcc_s.c)

    A [long long] is a 64-bit two's complement number, [__int128] one of 128 bits. The compiler's builtins are
    parameters with their documented meaning: the number of set bits, and of zeros above the highest and below
    the lowest one. *)

From S2P Require Import Prelude.

Section Shims.
Context (builtin_popcountll builtin_clzll builtin_ctzll : N → Z).

(** the cast to unsigned long long: the value modulo 2^64 *)
Definition ull (v : Z) : N := Z.to_N (v mod 2 ^ 64).

Definition popcountdi2 (value : Z) : Z := builtin_popcountll (ull value).
Definition popcountti2 (value : Z) : Z := builtin_popcountll (ull value) + builtin_popcountll (ull (Z.shiftr value 64)).
Definition clzdi2 (value : Z) : Z := builtin_clzll (ull value).
Definition ctzdi2 (value : Z) : Z := builtin_ctzll (ull value).

(** set bits among the lowest [n] *)
Fixpoint ones_below (bit : nat → bool) (n : nat) : Z :=
  match n with 0 => 0 | S n => ones_below bit n + (if bit n then 1 else 0) end.
Definition documented : Prop :=
  (∀ u, (u < 2 ^ 64)%N → builtin_popcountll u = ones_below (λ i, N.testbit u (N.of_nat i)) 64) ∧
  (∀ u i, (u < 2 ^ 64)%N → N.testbit u i = true → (∀ j, (i < j)%N → N.testbit u j = false) → builtin_clzll u = (63 - Z.of_N i)%Z) ∧
  (∀ u i, (u < 2 ^ 64)%N → N.testbit u i = true → (∀ j, (j < i)%N → N.testbit u j = false) → builtin_ctzll u = Z.of_N i).

Lemma ull_bound v : (ull v < 2 ^ 64)%N.
Proof. unfold ull. pose proof (Z.mod_pos_bound v (2 ^ 64) ltac:(lia)). lia. Qed.
Lemma ull_bit v i : (i < 64)%nat → N.testbit (ull v) (N.of_nat i) = Z.testbit v (Z.of_nat i).
Proof.
  intros Hi. unfold ull. rewrite <-N2Z.inj_testbit. rewrite nat_N_Z, Z2N.id by (apply Z.mod_pos_bound; lia).
  by rewrite Z.mod_pow2_bits_low by lia.
Qed.
Lemma ones_below_ext bit bit' n : (∀ i, (i < n)%nat → bit i = bit' i) → ones_below bit n = ones_below bit' n.
Proof. induction n as [| n IH]; [done |]. intros H. cbn. rewrite IH by (intros; apply H; lia). by rewrite H by lia. Qed.
Lemma ones_below_add bit (n k : nat) : ones_below bit (n + k)%nat = (ones_below bit n + ones_below (λ i, bit (n + i)%nat) k)%Z.
Proof.
  induction k as [| k IH]; [by rewrite Nat.add_0_r, Z.add_0_r |]. rewrite Nat.add_succ_r. cbn [ones_below]. rewrite IH. lia.
Qed.

(** [__popcountdi2] counts the bits of 64, [__popcountti2] those of 128, negative numbers in two's complement. *)
Lemma popcounts value : documented →
  popcountdi2 value = ones_below (λ i, Z.testbit value (Z.of_nat i)) 64 ∧
  popcountti2 value = ones_below (λ i, Z.testbit value (Z.of_nat i)) 128.
Proof.
  intros [Hp _]. unfold popcountdi2, popcountti2. rewrite !Hp by apply ull_bound.
  assert (∀ v, ones_below (λ i, N.testbit (ull v) (N.of_nat i)) 64 = ones_below (λ i, Z.testbit v (Z.of_nat i)) 64) as E.
  { intros v. apply ones_below_ext. intros i Hi. by apply ull_bit. }
  rewrite !E. split; [done |]. change 128%nat with (64 + 64)%nat. rewrite ones_below_add. f_equal.
  apply ones_below_ext. intros i Hi. rewrite Z.shiftr_spec by lia. f_equal. lia.
Qed.

(** For a positive number both counts of zeros are those of its bits. *)
Lemma zeros value lo hi : documented → (0 < value < 2 ^ 63)%Z →
  Z.testbit value (Z.of_N lo) = true → (∀ j, (j < Z.of_N lo)%Z → Z.testbit value j = false) →
  Z.testbit value (Z.of_N hi) = true → (∀ j, (Z.of_N hi < j)%Z → Z.testbit value j = false) →
  ctzdi2 value = Z.of_N lo ∧ clzdi2 value = (63 - Z.of_N hi)%Z.
Proof.
  intros (_ & Hclz & Hctz) Hv Hlo Hlow Hhi Hhigh.
  assert (∀ i, N.testbit (ull value) i = Z.testbit value (Z.of_N i)) as E.
  { intros i. unfold ull. rewrite Z.mod_small by lia. rewrite <-N2Z.inj_testbit. rewrite Z2N.id by lia. done. }
  split.
  - apply Hctz; [apply ull_bound | by rewrite E |]. intros j Hj. rewrite E. apply Hlow. lia.
  - apply Hclz; [apply ull_bound | by rewrite E |]. intros j Hj. rewrite E. apply Hhigh. lia.
Qed.
End Shims.
